(* ===== verification/_CoqProject ===== *)
-Q . S2P
Prelude.v
Util.v
Codecs.v
Ballots.v
Config.v
Time.v
StorageApi.v
MemoryStorage.v
InternalStorage.v
PersistentStorage.v
PersistentChecks.v
StorageChecks.v
Messages.v
Ble.v
BleChecks.v
Collections.v
Clock.v
ClockChecks.v
Buffers.v
SequencePaxos.v
Replica.v
Acks.v
OmniPaxos.v
Kv.v
ReplicaChecks.v
Proxy.v
System.v
ProxyChecks.v
SystemChecks.v
Client.v
Network.v
Framing.v
Startup.v
StartupChecks.v
Connections.v
Links.v
LinkChecks.v
Server.v
ServerRuns.v
Answers.v
Speculation.v
Delivery.v
ServerChecks.v
StoreChecks.v
SpeculationChecks.v
DeliveryChecks.v
Unicache.v
Derive.v
Lru.v
Lfu.v
UnicacheChecks.v
DeriveChecks.v
Ui.v
UiRender.v
UiChecks.v
