(* ===== verification/Prelude.v ===== *)
(** * OmniPaxos-KV: verification library

    The program is a replicated key-value store: clients send commands to a proxy, the proxy
    forwards them to every server, the servers order them by deadlines and answer with a hash of
    their history, and the proxy confirms a command when a quorum of servers, the leader among them,
    has answered with the same hash.  Under src/ it is a fork of the OmniPaxos library
    (crates/custom-paxos/) and an application (src/).  In the paths below, [omnipaxos] and
    [omnipaxos_storage] are the crates of these names under src/crates/custom-paxos/, and [app] is
    src/src/.

    ** The files

    The library:
    - Prelude: outcomes that may panic, the state monad [M] with its rules of total correctness
      ([returns], [wp]), [Result] and [?], machine integers with and without overflow checks.
    - Util (omnipaxos/src/util.rs): the logical clock, quorums, the defaults.
    - Ballots, Ble (ballot_leader_election.rs): the order of ballots; the election of one server
      ([Ble]), and one per server against a network ([Ble.Cluster], a step relation).
    - Config (omni_paxos.rs, errors.rs): configurations, each validation with its early returns.
    - Time: [SystemTime] and [Duration] as integers of nanoseconds within their ranges.
    - StorageApi (storage/mod.rs, util.rs, buffers.rs): entries, requests, snapshots, and the trait
      [Storage] as the class [Storage.t] with the contract [Storage.Laws] over an abstract [view].
    - MemoryStorage, PersistentStorage (omnipaxos_storage/src/): the two backends.  The first one is
      an instance of [Storage.Laws].  The second one is related to the same views by [represents];
      it is no instance, because it does not implement [history_hash], and because only its durable
      part is rolled back when a write fails.
    - InternalStorage (storage/state_cache.rs, internal_storage.rs): the cache and the batch in
      front of any backend that satisfies the laws.
    - Messages (messages.rs), Collections (binary heaps and oneshot channels of the libraries),
      Clock (clock.rs), Buffers (buffers.rs).
    - SequencePaxos (sequence_paxos/): the replica.  [Task] is where a spawned task waits, and
      [run_task] what it does from one wait to the next, so that the interleavings of the source
      are the sequences of these steps.  Replica and Acks prove what holds in all of them.
    - OmniPaxos (omni_paxos.rs): the election and the replica behind the calls of the application.
    - Unicache, Lru, Lfu (unicache/): field caches as an interface ([FieldCache], [Lockstep]) and
      its two implementations.
    - Derive (omnipaxos_macros/src/lib.rs): the macros as functions from a declaration to what they
      generate, and the meaning of the generated cache over any instance of [FieldCache].
    - Ui, UiRender (omnipaxos_ui/src/, utils/ui.rs): the state of the dashboard and its updates; the
      widgets as data, what is drawn, and the dashboard with its keys.

    The application:
    - Kv (app/common.rs, app/server/database.rs, examples/kv_store/src/kv.rs): commands, messages,
      the database.
    - Proxy (app/proxy/): listener, handlers and actors as interleaved events; System composes it
      with the replicas.
    - Client (app/client/), Network and Connections (app/server/network.rs, app/client/network.rs):
      the tables of connections and the tasks behind them.  Startup: the tasks of all servers that
      establish the connections, as interleaved events over the servers of a cluster.
    - Codecs (the interfaces of bincode and of tokio's length-delimited frames, with what follows
      from their laws), Framing (app/common.rs): the framed streams and the handshake.  Links joins
      the writer of one end of a connection to the reader of the other end by the bytes between them.
    - Server (app/server/server.rs, configs.rs): the handlers, and the event loop ([run] and
      [establish_initial_leader]) as [Server.exec].  A branch is a list of jobs, between which the
      tasks of the replica may run; without them the jobs are the handlers ([cluster_jobs],
      [client_jobs], [tick_jobs]).  ServerRuns takes servers in any of their runs as the replicas of
      System: [serves] are the runs of a server, [deployed] those of the servers behind a proxy.
      Answers follows the same runs for what the clients are told, with the sequence of all
      executions of commands ([runs]) or without it ([reaches]).  Delivery composes it with Links.
      Speculation follows the results that a leader promises through the tasks and buffers of its
      replica ([vouched]) to the proxy and its clients.

    The files named [..Checks] hold the concrete runs: each theorem with hypotheses is applied there
    (or in its own file) to inputs that satisfy them, and each defect that modelling has shown is
    exhibited by a run.

    ** What is shown

    - End to end: [ServerRuns.confirmations_share_one_history].  The abstract specification is one
      sequence of commands; a confirmation is a statement about a prefix of it that a quorum of
      servers have at the start of their logs.  It follows from the counting of the proxy
      ([System.confirmed_prefix_is_replicated]), from what a replica acknowledges (Acks, Replica),
      from the event loop handing acknowledgements on once ([ServerRuns.serves_sound]), and from the
      intersection of two quorums ([System.backed_chain]).
    - Replica: every acknowledgement carries the position and the hash of its entry, the log only
      grows, a leader stays leader.  Releases are in the order of deadlines, except for a request that
      the leader gives a deadline which has been passed ([Buffers.released_in_deadline_order]).
    - Clients: over every run of a server, the answers that a client is sent are those to its
      commands in the decided prefix of the log, once each and in the order of the log
      ([Answers.clients_are_answered_in_log_order]).  A read returns the last write before it in the
      sequence of executions, which is that of the log, and commands executed ahead in between
      ([Answers.reads_return_the_last_write]).  What has reached the client, whatever its connection
      does, are the first of these answers ([Delivery.clients_receive_the_answers_of_the_log]).
    - Speculation: a result in an acknowledgement is that of executing this command at its place in
      the sequence of the leader's executions ([Speculation.speculations_are_executions]), and so is
      every result that the proxy sends ([Speculation.results_of_the_proxy_are_executions]).
    - Server: the decided commands after the old decided index are executed in order and answered
      by their coordinator; executing all of them again repairs a database that was ahead.
    - Proxy: an undisturbed acknowledgement is counted and confirmed; and what stops the proxy (the
      channel at index 0, the last connection, back-pressure).
    - Storage: [sync_log] (for each kind of snapshot), [read] (for every interval), snapshots, batches
      and recovery refine the abstract log, over any backend; both backends against the abstract
      view; what a failed write of the persistent backend leaves behind; a batch of it survives a
      restart as a whole or not at all.
    - Election: takeover ballots are fresh, every ballot has an owner, the timeout does what its
      parts say.  Configuration: validation accepts exactly the valid ones, whose quorums intersect.
    - Clock: ticks stay within the uncertainty that [get_uncertainty] reports; the loop over the
      deadlines terminates and fires exactly those that are due.
    - Caches: a decoder that sees everything its encoder has encoded returns the original fields,
      evictions take the right key, the cache stays well-formed.  The cache that the macro generates
      for a struct returns its entries ([Derive.derived_cache_roundtrip]).
    - Dashboard: what the application that feeds it must keep to, so that it never panics and shows
      the last state ([UiRender.dashboard_follows]; the library itself makes no states for it), and
      what [start] does ([UiRender.start_cases]).
    - Start: any interleaving of the connectors, listeners, handlers and main tasks of a cluster ends
      with everybody connected, after a number of steps that is known in advance
      ([Startup.startup_completes]), unless a handshake is lost, after which it never does.
    - Connections: what a client is handed is a prefix of what its server sent, undamaged and in
      order, whatever fails and wherever TCP cuts the frames; left undisturbed, every connection
      delivers everything in a number of steps known in advance ([Links.link_delivers_everything]).

    ** Bounds and fuel

    Integers are [N] with the modulus of their type; the class [Build] says whether an overflow
    panics ([dev]) or wraps ([release]), and the theorems hold for both unless they assume one.
    Theorems that need an index to stay below its modulus say so.  The only fuel is that of
    [Clock.process_deadlines], one more than the pending deadlines, of which every iteration
    removes one; [process_deadlines_fires_exactly_due] shows that it is enough.

    ** Interfaces

    Code outside the repository is a class with the behaviour its documentation promises, and every
    such class has a concrete instance in a [..Checks] file or in Collections: the backend of a
    storage, [BinaryHeap], oneshot channels, [HashMap] iteration, the hasher, RocksDB, bincode and
    the length-delimited codec, zerocopy, the crates lru and linked_hash_set, floats, the layouts and gauges of ratatui, the
    initialization of tui_logger.

    ** Not modelled

    Sockets and the codecs themselves (tokio, bincode; the bytes they carry are modelled over their
    interfaces), files, the environment, the resolution of addresses and logging; how ratatui and
    crossterm put widgets on a terminal; parsing of tokens by the derive macros; app/server/proxy.rs,
    which no module includes; the programs of examples/.  The [unicache] feature is not enabled by the
    repository: its caches are modelled, its hooks in the storage layer are not.

    ** Left open

    The persistent storage behind [InternalStorage], under laws that keep a failed write apart from
    the state in memory. *)

From stdpp Require Export base tactics numbers list option strings gmap.
From Stdlib Require Export Lia ZifyBool ZifyN ZifyNat.

#[global] Set Default Goal Selector "!".
#[global] Open Scope N_scope.

(** ** Record updates

    [r <| field := v |>] is the record [r] with one field replaced; one instance of [Settable] per
    field, in the projection form, so that [cbn] computes every other field of an updated record
    without destructing it. *)

Class Settable {R E : Type} (proj : R → E) : Type := upd : (E → E) → R → R.
#[global] Arguments upd {R E} proj {_} f r /.

Declare Scope update_scope.
Notation "r <| proj ::= f |>" := (upd proj f r)
  (at level 1, left associativity, proj at level 8, f at level 200) : update_scope.
Notation "r <| proj := v |>" := (upd proj (λ _, v) r)
  (at level 1, left associativity, proj at level 8, v at level 200) : update_scope.
#[global] Open Scope update_scope.

(** ** Outcomes of Rust computations

    A Rust computation returns a value or panics.  [M S A] is a computation on a state [S] that is
    mutated in place: a panic keeps the state reached so far, which is what the other tasks see
    through an [Arc<Mutex<_>>] after the panicking task is gone ([tokio::sync::Mutex] is not
    poisoned). *)

Inductive fault : Type :=
  | Overflow            (* arithmetic overflow, in a build with overflow checks *)
  | UnwrapNone          (* Option::unwrap / expect on None *)
  | ExpectErr           (* Result::unwrap / expect on Err *)
  | OutOfBounds         (* slice index out of bounds *)
  | TimeOverflow        (* SystemTime / Duration arithmetic out of range *)
  | AssertFailed
  | Unimplemented
  | UnreachableCode
  | ExplicitPanic.

Inductive outcome (A : Type) : Type :=
  | Val (a : A)
  | Panic (f : fault).
#[global] Arguments Val {A} a.
#[global] Arguments Panic {A} f.

#[export] Instance fault_eq_dec : EqDecision fault.
Proof. solve_decision. Defined.
#[export] Instance outcome_eq_dec `{EqDecision A} : EqDecision (outcome A).
Proof. solve_decision. Defined.

Definition M (S A : Type) : Type := S → outcome A * S.

Section monad.
Context {S : Type}.

Definition ret {A} (a : A) : M S A := λ s, (Val a, s).
Definition panic {A} (f : fault) : M S A := λ s, (Panic f, s).
Definition bind {A B} (m : M S A) (k : A → M S B) : M S B := λ s,
  match m s with
  | (Val a, s') => k a s'
  | (Panic f, s') => (Panic f, s')
  end.
Definition gets {A} (f : S → A) : M S A := λ s, (Val (f s), s).
Definition modify (f : S → S) : M S unit := λ s, (Val tt, f s).
Definition lift {A} (o : outcome A) : M S A := λ s, (o, s).
Definition when (b : bool) (m : M S unit) : M S unit := if b then m else ret tt.

(** [unwrap]: [Option::unwrap] and [Option::expect]. *)
Definition unwrap {A} (o : option A) : M S A :=
  match o with Some a => ret a | None => panic UnwrapNone end.

(** [for x in l { body }] *)
Fixpoint mfor {A} (l : list A) (body : A → M S unit) : M S unit :=
  match l with
  | [] => ret tt
  | x :: l' => bind (body x) (λ _, mfor l' body)
  end.
End monad.

(** A computation on one field of the state: [self.field.method(..)]. *)
Definition zoom {S T A} (proj : S → T) `{!Settable proj} (m : M T A) : M S A := λ s,
  let (o, t) := m (proj s) in (o, upd proj (λ _, t) s).

Declare Scope exec_scope.
Delimit Scope exec_scope with exec.
Notation "'let*' x := m 'in' k" := (bind m (λ x, k))
  (at level 10, x pattern, m at level 100, k at level 200) : exec_scope.
#[global] Open Scope exec_scope.

(** ** [Result] and the [?] operator *)

Inductive result (A E : Type) : Type :=
  | Ok (a : A)
  | Err (e : E).
#[global] Arguments Ok {A E} a.
#[global] Arguments Err {A E} e.

#[export] Instance result_eq_dec `{EqDecision A, EqDecision E} : EqDecision (result A E).
Proof. solve_decision. Defined.

Definition bind_ok {S A B E} (m : M S (result A E)) (k : A → M S (result B E)) :
    M S (result B E) :=
  bind m (λ r, match r with Ok a => k a | Err e => ret (Err e) end).
Notation "'let?' x := m 'in' k" := (bind_ok m (λ x, k))
  (at level 10, x pattern, m at level 100, k at level 200) : exec_scope.

(** Calling a method that only reads its component. *)
Lemma bind_ok_zoom_read {S T A B E} (proj : S → T) `{!Settable proj}
    (m : M T (result A E)) (k : A → M S (result B E)) (s : S) :
  (m (proj s)).2 = proj s → upd proj (λ _, proj s) s = s →
  bind_ok (zoom proj m) k s =
  match (m (proj s)).1 with
  | Val (Ok a) => k a s
  | Val (Err e) => (Val (Err e), s)
  | Panic f => (Panic f, s)
  end.
Proof.
  intros Hread Hupd. unfold bind_ok, bind, zoom. destruct (m (proj s)) as [[[a|e]|f] t]; cbn in *;
    subst; by rewrite Hupd.
Qed.

(** [Result::unwrap] / [Result::expect]. *)
Definition expect {S A E} (m : M S (result A E)) : M S A :=
  bind m (λ r, match r with Ok a => ret a | Err _ => panic ExpectErr end).

Definition is_ok {A E} (r : result A E) : bool := match r with Ok _ => true | Err _ => false end.

(** ** Total correctness

    [returns m s Q]: run on [s], [m] does not panic, and its result and the new state satisfy [Q].
    The lemmas below are its rules, one per constructor of [M]; [wp] applies them to the head of
    the computation until it meets an operation it has no rule for. *)

Definition returns {S A} (m : M S A) (s : S) (Q : A → S → Prop) : Prop :=
  match m s with (Val a, s') => Q a s' | (Panic _, _) => False end.

Section returns.
Context {S : Type}.

Lemma returns_ret {A} (a : A) (s : S) Q : Q a s → returns (ret a) s Q.
Proof. done. Qed.
Lemma returns_bind {A B} (m : M S A) (k : A → M S B) s Q :
  returns m s (λ a s', returns (k a) s' Q) → returns (bind m k) s Q.
Proof. unfold returns, bind. by destruct (m s) as [[a|f] s']. Qed.
Lemma returns_bind_inv {A B} (m : M S A) (k : A → M S B) s Q :
  returns (bind m k) s Q → returns m s (λ a s', returns (k a) s' Q).
Proof. unfold returns, bind. by destruct (m s) as [[a|f] s']. Qed.
Lemma returns_if_ret {A} (b : bool) (x y : A) (s : S) (Q : A → S → Prop) :
  Q (if b then x else y) s → returns (if b then ret x else ret y) s Q.
Proof. by destruct b. Qed.
Lemma returns_gets {A} (f : S → A) s Q : Q (f s) s → returns (gets f) s Q.
Proof. done. Qed.
Lemma returns_modify f (s : S) Q : Q tt (f s) → returns (modify f) s Q.
Proof. done. Qed.
Lemma returns_lift {A} (o : outcome A) a (s : S) (Q : A → S → Prop) :
  o = Val a → Q a s → returns (lift o) s Q.
Proof. by intros ->. Qed.
Lemma returns_unwrap {A} (a : A) (s : S) (Q : A → S → Prop) :
  Q a s → returns (unwrap (Some a)) s Q.
Proof. done. Qed.
Lemma returns_zoom {T A} (proj : S → T) `{!Settable proj} (m : M T A) s Q :
  returns m (proj s) (λ a t, Q a (upd proj (λ _, t) s)) → returns (zoom proj m) s Q.
Proof. unfold returns, zoom. by destruct (m (proj s)) as [[a|f] t]. Qed.
Lemma returns_bind_ok {A B E} (m : M S (result A E)) (k : A → M S (result B E)) s Q :
  returns m s (λ r s', match r with Ok a => returns (k a) s' Q | Err e => Q (Err e) s' end) →
  returns (bind_ok m k) s Q.
Proof. unfold returns, bind_ok, bind. by destruct (m s) as [[[a|e]|f] s']. Qed.
Lemma returns_bind_ok_inv {A B E} (m : M S (result A E)) (k : A → M S (result B E)) s Q :
  returns (bind_ok m k) s Q →
  returns m s (λ r s', match r with Ok a => returns (k a) s' Q | Err e => Q (Err e) s' end).
Proof. unfold returns, bind_ok, bind. by destruct (m s) as [[[a|e]|f] s']. Qed.
Lemma returns_expect {A E} (m : M S (result A E)) s Q :
  returns m s (λ r s', match r with Ok a => Q a s' | Err _ => False end) →
  returns (expect m) s Q.
Proof. unfold returns, expect, bind. by destruct (m s) as [[[a|e]|f] s']. Qed.
Lemma returns_mono {A} (m : M S A) s (P Q : A → S → Prop) :
  returns m s P → (∀ a s', P a s' → Q a s') → returns m s Q.
Proof. unfold returns. destruct (m s) as [[a|f] s']; auto. Qed.
Lemma returns_elim {A} (m : M S A) s Q :
  returns m s Q → ∃ a s', m s = (Val a, s') ∧ Q a s'.
Proof. unfold returns. destruct (m s) as [[a|f] s']; [eauto|done]. Qed.
Lemma returns_intro {A} (m : M S A) s a s' (Q : A → S → Prop) :
  m s = (Val a, s') → Q a s' → returns m s Q.
Proof. unfold returns. by intros ->. Qed.
Lemma returns_mfor {A} (l : list A) (body : A → M S unit) (Inv : list A → S → Prop) s :
  Inv l s →
  (∀ x l' s, Inv (x :: l') s → returns (body x) s (λ _, Inv l')) →
  returns (mfor l body) s (λ _, Inv []).
Proof.
  intros Hinv Hbody. revert s Hinv. induction l as [|x l IH]; intros s Hinv; cbn [mfor]; [done|].
  apply returns_bind. eapply returns_mono; [by apply Hbody|]. cbn. auto.
Qed.
End returns.

(** What a value returned by a sequence says about its parts. *)
Lemma bind_val_inv {S A B} (m : M S A) (k : A → M S B) s b s' :
  bind m k s = (Val b, s') → ∃ a s1, m s = (Val a, s1) ∧ k a s1 = (Val b, s').
Proof. unfold bind. destruct (m s) as [[a|f] s1]; [eauto|done]. Qed.

#[global] Typeclasses Opaque returns.

Ltac wp_step :=
  lazymatch goal with
  | |- returns (ret _) _ _ => apply returns_ret
  | |- returns (bind _ _) _ _ => apply returns_bind
  | |- returns (gets _) _ _ => apply returns_gets
  | |- returns (modify _) _ _ => apply returns_modify
  | |- returns (unwrap (Some _)) _ _ => apply returns_unwrap
  | |- returns (bind_ok _ _) _ _ => apply returns_bind_ok
  | |- returns (expect _) _ _ => apply returns_expect
  | |- returns (when ?b _) _ _ => unfold when
  end; cbv beta iota.
Ltac wp := repeat wp_step.
(** Enters the computation of a component. *)
Ltac wp_zoom := wp; apply returns_zoom; wp.

(** ** Lists *)

Lemma filter_keep {A} (P : A → Prop) `{!∀ x, Decision (P x)} (l : list A) :
  (∀ x, x ∈ l → P x) → filter P l = l.
Proof.
  induction l as [|x l IH]; intros Hl; [done|]. rewrite filter_cons_True by (apply Hl; left).
  f_equal. apply IH. intros y Hy. apply Hl. by right.
Qed.

(** ** Machine integers

    [u32], [u64] and [usize] values are [N]s below their modulus; [usize] has 64 bits.  What an
    overflowing [+], [-] or [*] does depends on how the crate is built: it panics with overflow
    checks (the [dev] profile, which the local cluster scripts build) and wraps without them (the
    [release] profile, which the Dockerfiles build).  The models are generic in the build. *)

Class Build : Type := { overflow_checks : bool }.
Definition dev_build : Build := {| overflow_checks := true |}.
Definition release_build : Build := {| overflow_checks := false |}.

Abbreviation u32_mod := 4294967296.
Abbreviation u64_mod := 18446744073709551616.
Abbreviation usize_mod := 18446744073709551616.
(** [Vec]s never hold more than [isize::MAX] bytes, so no [len()] reaches this bound. *)
Abbreviation isize_max := 9223372036854775807.

Section integers.
Context `{Build}.

Definition wrapping (m x : N) : outcome N :=
  if x <? m then Val x
  else if overflow_checks then Panic Overflow else Val (x mod m).
Definition wadd (m a b : N) : outcome N := wrapping m (a + b).
Definition wsub (m a b : N) : outcome N :=
  if b <=? a then Val (a - b)
  else if overflow_checks then Panic Overflow else Val (m + a - b).

Lemma wadd_exact m a b : a + b < m → wadd m a b = Val (a + b).
Proof. intros Hlt. unfold wadd, wrapping. by rewrite (proj2 (N.ltb_lt _ _) Hlt). Qed.

Lemma wsub_exact m a b : b ≤ a → wsub m a b = Val (a - b).
Proof. intros Hle. unfold wsub. by rewrite (proj2 (N.leb_le _ _) Hle). Qed.

Lemma wadd_bound m a b c : m ≠ 0 → wadd m a b = Val c → c < m.
Proof.
  unfold wadd, wrapping. intros Hm. destruct (N.ltb_spec (a + b) m).
  - by intros [= <-].
  - destruct overflow_checks; [done|]. intros [= <-]. by apply N.mod_upper_bound.
Qed.

Lemma wsub_bound m a b c : a < m → b ≤ m → wsub m a b = Val c → c < m.
Proof.
  unfold wsub. intros Ha Hb. destruct (N.leb_spec b a).
  - intros [= <-]. lia.
  - destruct overflow_checks; [done|]. intros [= <-]. lia.
Qed.
End integers.

#[global] Typeclasses Opaque wadd wsub.

(** ** Lists *)

Definition len {A} (l : list A) : N := N.of_nat (length l).

Lemma len_nil {A} : len (@nil A) = 0.
Proof. done. Qed.
Lemma len_cons {A} (x : A) l : len (x :: l) = 1 + len l.
Proof. unfold len. cbn [length]. lia. Qed.
Lemma len_app {A} (l k : list A) : len (l ++ k) = len l + len k.
Proof. unfold len. rewrite length_app. lia. Qed.
Lemma len_take {A} (n : N) (l : list A) : len (take (N.to_nat n) l) = N.min n (len l).
Proof. unfold len. rewrite length_take. lia. Qed.
Lemma len_drop {A} (n : N) (l : list A) : len (drop (N.to_nat n) l) = len l - n.
Proof. unfold len. rewrite length_drop. lia. Qed.

Create Rewrite HintDb len.
#[export] Hint Rewrite @len_nil @len_cons @len_app @len_take @len_drop : len.

(** Evaluates the comparisons of the goal that [lia] decides. *)
Ltac decide_cmp :=
  repeat match goal with
  | |- context [?a <? ?b] =>
      first [rewrite (proj2 (N.ltb_lt a b)) by lia | rewrite (proj2 (N.ltb_ge a b)) by lia]
  | |- context [?a <=? ?b] =>
      first [rewrite (proj2 (N.leb_le a b)) by lia | rewrite (proj2 (N.leb_gt a b)) by lia]
  | |- context [?a =? ?b] =>
      first [rewrite (proj2 (N.eqb_eq a b)) by lia | rewrite (proj2 (N.eqb_neq a b)) by lia]
  end.
