(* ===== verification/Util.v ===== *)
(** * Identifiers, timers and quorums (crates/custom-paxos/omnipaxos/src/util.rs)

    The logical clock that turns [tick()] calls into timeouts, and the quorums of the leader
    election.  The log types of the same file that mention entries are in [StorageApi]. *)

From S2P Require Import Prelude.

(** [Iterator::max] on numbers. *)
Definition iter_max_N (l : list N) : option N :=
  match l with [] => None | x :: l' => Some (foldl N.max x l') end.

(** [NodeId] is a [u64], [ConfigurationId] a [u32], [TrimmedIndex] a [usize]. *)
Definition NodeId := N.
Definition ConfigurationId := N.
Definition TrimmedIndex := N.

(** [mod defaults] *)
Definition BUFFER_SIZE : N := 100000.
Definition BLE_BUFFER_SIZE : N := 100.
Definition ELECTION_TIMEOUT : N := 1.
Definition RESEND_MESSAGE_TIMEOUT : N := 100.
Definition FLUSH_BATCH_TIMEOUT : N := 200.

(** ** The logical clock *)

Module LogicalClock.

Record t : Type := mk { time : N; timeout : N }.
#[global] Instance settable_time : Settable time := λ f r,
  mk (f (time r)) (timeout r).
#[global] Instance settable_timeout : Settable timeout := λ f r,
  mk (time r) (f (timeout r)).

Definition with_ (timeout : N) : t := {| time := 0; timeout := timeout |}.

Section ops.
Context `{Build}.

Definition tick_and_check_timeout : M t bool :=
  let* now := gets time in
  let* now := lift (wadd u64_mod now 1) in
  let* _ := modify (λ c, c <| time := now |>) in
  let* c := gets id in
  if time c =? timeout c then
    let* _ := modify (λ c, c <| time := 0 |>) in
    ret true
  else ret false.

(** [n] calls in a row; the result of the last one. *)
Fixpoint ticks (n : nat) : M t bool :=
  match n with
  | O => ret false
  | S n' => let* _ := ticks n' in tick_and_check_timeout
  end.

(** What one call does to a clock whose counter is below its timeout. *)
Lemma tick_step now timeout : now < timeout → timeout < u64_mod →
  tick_and_check_timeout {| time := now; timeout := timeout |} =
  (Val (now + 1 =? timeout),
   {| time := if now + 1 =? timeout then 0 else now + 1; timeout := timeout |}).
Proof.
  intros Hnow Htimeout. unfold tick_and_check_timeout. cbv [bind gets lift modify ret].
  cbn. rewrite wadd_exact by lia. cbn. by destruct (N.eqb_spec (now + 1) timeout).
Qed.

Lemma ticks_state timeout (n : nat) : 0 < timeout → timeout < u64_mod →
  (ticks n (with_ timeout)).2 = {| time := N.of_nat n mod timeout; timeout := timeout |} ∧
  (ticks n (with_ timeout)).1 = Val ((0 <? N.of_nat n) && (N.of_nat n mod timeout =? 0)).
Proof.
  intros Hpos Hmax. induction n as [|n [IHs IHv]].
  { cbn. rewrite N.Div0.mod_0_l. done. }
  cbn [ticks]. unfold bind. destruct (ticks n (with_ timeout)) as [o s] eqn:E.
  cbn in IHs, IHv. subst o s.
  rewrite tick_step by (try apply N.mod_upper_bound; lia).
  assert (Hlt : N.of_nat n mod timeout < timeout) by (apply N.mod_upper_bound; lia).
  assert (Hmod : N.of_nat (S n) mod timeout =
    if N.of_nat n mod timeout + 1 =? timeout then 0 else N.of_nat n mod timeout + 1).
  { pose proof (N.Div0.div_mod (N.of_nat n) timeout) as Hdiv.
    destruct (N.eqb_spec (N.of_nat n mod timeout + 1) timeout) as [Heq|Hne].
    - symmetry. apply (N.mod_unique _ _ (N.of_nat n / timeout + 1)); lia.
    - symmetry. apply (N.mod_unique _ _ (N.of_nat n / timeout)); lia. }
  rewrite Hmod. cbn [fst snd]. split; [done|]. f_equal.
  rewrite (proj2 (N.ltb_lt 0 (N.of_nat (S n)))) by lia. cbn [andb].
  destruct (N.eqb_spec (N.of_nat n mod timeout + 1) timeout) as [Heq|Hne]; [done|].
  by rewrite N.add_1_r, (proj2 (N.eqb_neq _ _) (N.neq_succ_0 _)).
Qed.
End ops.

End LogicalClock.

(** ** Quorums *)

Record FlexibleQuorum : Type := mkFlexibleQuorum {
  read_quorum_size : N;
  write_quorum_size : N
}.
#[global] Instance settable_read_quorum_size : Settable read_quorum_size := λ f r,
  mkFlexibleQuorum (f (read_quorum_size r)) (write_quorum_size r).
#[global] Instance settable_write_quorum_size : Settable write_quorum_size := λ f r,
  mkFlexibleQuorum (read_quorum_size r) (f (write_quorum_size r)).
#[global] Instance FlexibleQuorum_eq_dec : EqDecision FlexibleQuorum.
Proof. solve_decision. Defined.

Module Quorum.

Inductive t : Type :=
  | Majority (majority : N)
  | Flexible (flex_quorum : FlexibleQuorum).

Definition with_ (flexible_quorum_config : option FlexibleQuorum) (num_nodes : N) : t :=
  match flexible_quorum_config with
  | Some fq => Flexible {| read_quorum_size := read_quorum_size fq;
                           write_quorum_size := write_quorum_size fq |}
  | None => Majority (num_nodes / 2 + 1)
  end.

Definition is_prepare_quorum (q : t) (num_nodes : N) : bool :=
  match q with
  | Majority majority => majority <=? num_nodes
  | Flexible fq => read_quorum_size fq <=? num_nodes
  end.

Definition is_accept_quorum (q : t) (num_nodes : N) : bool :=
  match q with
  | Majority majority => majority <=? num_nodes
  | Flexible fq => write_quorum_size fq <=? num_nodes
  end.

End Quorum.


