(* ===== verification/Codecs.v ===== *)
(** * Codecs: bincode and length-delimited frames

    The libraries that turn messages into bytes, as interfaces with what their documentation
    promises: [Bincode] for values, [LengthDelimited] for frames (tokio_util's
    [LengthDelimitedCodec]).  [encode] and [items] put one on top of the other, as tokio_serde's
    [Framed] does: the bytes of a message, and the messages in the bytes that have arrived. *)

From S2P Require Import Prelude.

Class Bincode (A Bytes : Type) : Type := {
  serialize : A → result Bytes unit;
  deserialize : Bytes → result A unit
}.
Class BincodeLaws (A Bytes : Type) `{Bincode A Bytes} : Prop :=
  deserialize_serialize (a : A) b : serialize a = Ok b → deserialize b = Ok a.

Abbreviation bytes := (list N).

(** [frame_encode]: the bytes of a frame, unless the payload is longer than a frame may be.
    [frame_next]: the first frame in the bytes that have arrived, and what is left; [None] if more
    bytes are needed. *)
Class LengthDelimited : Type := {
  frame_encode : bytes → option bytes;
  frame_next : bytes → option (result bytes unit * bytes)
}.
(** A frame is recognised when all of it has arrived, and not before. *)
Class LengthDelimitedLaws `{LengthDelimited} : Prop := {
  frame_next_whole p f rest : frame_encode p = Some f → frame_next (f ++ rest) = Some (Ok p, rest);
  frame_next_part p f part : frame_encode p = Some f → part `prefix_of` f → part ≠ f →
    frame_next part = None;
  frame_next_nil : frame_next [] = None
}.

Section codec.
Context `{LengthDelimited}.

(** The frames in the bytes that have arrived.  A stream ends after an error.  Each frame takes a byte at
    least, so that the number of bytes is enough fuel. *)
Fixpoint frames (fuel : nat) (arrived : bytes) : list (result bytes unit) :=
  match fuel with
  | O => []
  | S fuel =>
      match frame_next arrived with
      | None => []
      | Some (Ok payload, rest) => Ok payload :: frames fuel rest
      | Some (Err e, _) => [Err e]
      end
  end.

Section message.
Context {Msg : Type} `{Bincode Msg bytes}.

Definition encode (m : Msg) : option bytes :=
  match serialize m with Ok payload => frame_encode payload | Err _ => None end.
Definition item (r : result bytes unit) : result Msg unit :=
  match r with Ok payload => deserialize payload | Err e => Err e end.
Definition items (arrived : bytes) : list (result Msg unit) := item <$> frames (length arrived) arrived.

(** The bytes of messages that can all be encoded. *)
Definition encode_all (ms : list Msg) : bytes := concat ((λ m, default [] (encode m)) <$> ms).
Definition encodable (m : Msg) : Prop := is_Some (encode m).
End message.
End codec.
#[global] Arguments items {_} Msg {_} arrived : simpl never.
#[global] Arguments encode_all {_ Msg _} ms : simpl never.

(** ** What arrives is what was sent *)

Section roundtrip.
Context `{LengthDelimitedLaws} {Msg : Type} `{Bincode Msg bytes, !BincodeLaws Msg bytes}.

Lemma encode_all_app (ms ms' : list Msg) : encode_all (ms ++ ms') = encode_all ms ++ encode_all ms'.
Proof. unfold encode_all. by rewrite fmap_app, concat_app. Qed.
Lemma encode_all_cons (m : Msg) ms f : encode m = Some f → encode_all (m :: ms) = f ++ encode_all ms.
Proof. intros E. unfold encode_all. cbn. by rewrite E. Qed.

Lemma encode_inv (m : Msg) f :
  encode m = Some f → ∃ p, frame_encode p = Some f ∧ deserialize p = Ok m ∧ f ≠ [].
Proof.
  unfold encode. destruct (serialize m) as [p|] eqn:Ep; [|done]. intros Ef. exists p.
  split; [done|]. split; [by apply deserialize_serialize|]. intros ->.
  pose proof (frame_next_whole p [] [] Ef) as E. cbn in E. by rewrite frame_next_nil in E.
Qed.
Lemma frames_first (m : Msg) f rest fuel :
  encode m = Some f → (length (f ++ rest) ≤ fuel)%nat →
  ∃ fuel', (length rest ≤ fuel')%nat ∧
    item (Msg := Msg) <$> frames fuel (f ++ rest) = Ok m :: (item <$> frames fuel' rest).
Proof.
  intros (p & Ef & Ed & Hf)%encode_inv Hfuel. destruct f as [|b f]; [done|].
  destruct fuel as [|fuel]; cbn in Hfuel; [lia|]. exists fuel.
  split; [rewrite length_app in Hfuel; lia|]. cbn [frames]. rewrite (frame_next_whole _ _ _ Ef).
  cbn [fmap list_fmap item]. by rewrite Ed.
Qed.
Lemma frames_incomplete (m : Msg) f part fuel :
  encode m = Some f → part `prefix_of` f → part ≠ f → frames fuel part = [].
Proof.
  intros (p & Ef & _)%encode_inv Hpart Hne. destruct fuel; [done|]. cbn [frames].
  by rewrite (frame_next_part _ _ _ Ef Hpart Hne).
Qed.

(** Whichever part of the bytes of some messages has arrived, the stream yields some of the first of
    them, undamaged, and all of them in the end. *)
Lemma frames_part (ms : list Msg) part fuel :
  Forall encodable ms → part `prefix_of` encode_all ms → (length part ≤ fuel)%nat →
  ∃ k, item (Msg := Msg) <$> frames fuel part = Ok <$> take k ms ∧
    (part = encode_all ms → k = length ms).
Proof.
  revert part fuel. induction ms as [|m ms IH]; intros part fuel Henc Hpre Hfuel.
  { apply prefix_nil_inv in Hpre as ->. exists 0%nat. split; [|done].
    destruct fuel; [done|]. cbn. by rewrite frame_next_nil. }
  apply Forall_cons in Henc as [[f Ef] Henc]. rewrite (encode_all_cons _ _ _ Ef) in Hpre |- *.
  destruct (decide (f `prefix_of` part)) as [[part' ->]|Hnot].
  - apply prefix_app_inv in Hpre.
    destruct (frames_first m f part' fuel Ef Hfuel) as (fuel' & Hfuel' & ->).
    destruct (IH part' fuel' Henc Hpre Hfuel') as (k & Ek & Hall). exists (S k).
    rewrite Ek. split; [done|]. intros E%app_inv_head. cbn. by rewrite (Hall E).
  - exists 0%nat. assert (Hpart : part `prefix_of` f).
    { destruct (prefix_weak_total part f (f ++ encode_all ms)) as [|Hp]; [done|by eexists|done|done]. }
    split; [|intros ->; destruct Hnot; by eexists].
    rewrite (frames_incomplete m f part fuel); [done..|]. by intros ->.
Qed.
Lemma items_part (ms : list Msg) part :
  Forall encodable ms → part `prefix_of` encode_all ms →
  ∃ k, items Msg part = Ok <$> take k ms ∧ (part = encode_all ms → k = length ms).
Proof. intros Henc Hpre. by apply frames_part. Qed.
End roundtrip.
