(* ===== verification/Ballots.v ===== *)
(** * Ballots (crates/custom-paxos/omnipaxos/src/ballot_leader_election.rs, lines 23-66)

    The ballot of a leader and its order: lexicographic on [(n, priority, pid)], so that the
    configuration takes no part in it. *)

From S2P Require Import Prelude Util.

Module Ballot.

Record t : Type := mk {
  config_id : ConfigurationId;
  n : N;
  priority : N;
  pid : NodeId
}.
#[global] Instance settable_config_id : Settable config_id := λ f r,
  mk (f (config_id r)) (n r) (priority r) (pid r).
#[global] Instance settable_n : Settable n := λ f r,
  mk (config_id r) (f (n r)) (priority r) (pid r).
#[global] Instance settable_priority : Settable priority := λ f r,
  mk (config_id r) (n r) (f (priority r)) (pid r).
#[global] Instance settable_pid : Settable pid := λ f r,
  mk (config_id r) (n r) (priority r) (f (pid r)).

#[global] Instance ballot_eq_dec : EqDecision t.
Proof. solve_decision. Defined.

(** [#[derive(Default)]] *)
Definition default : t := {| config_id := 0; n := 0; priority := 0; pid := 0 |}.

Definition with_ (config_id : ConfigurationId) (n priority : N) (pid : NodeId) : t :=
  {| config_id := config_id; n := n; priority := priority; pid := pid |}.

(** [(self.n, self.priority, self.pid).cmp(&(other.n, other.priority, other.pid))] *)
Definition cmp (self other : t) : comparison :=
  match n self ?= n other with
  | Eq =>
      match priority self ?= priority other with
      | Eq => pid self ?= pid other
      | c => c
      end
  | c => c
  end.

(** [partial_cmp] is [Some (cmp ..)], and the operators are defined by it. *)
Definition ltb (a b : t) : bool := match cmp a b with Lt => true | _ => false end.
Definition leb (a b : t) : bool := match cmp a b with Gt => false | _ => true end.

Definition lt (a b : t) : Prop := ltb a b = true.
Definition le (a b : t) : Prop := leb a b = true.

(** [Iterator::max]: the last of the greatest elements. *)
Definition max_step (acc : option t) (b : t) : option t :=
  match acc with
  | None => Some b
  | Some a => if ltb b a then Some a else Some b
  end.
Definition iter_max (l : list t) : option t := foldl max_step None l.

(** The order as a proposition on the compared fields, for [lia]. *)
Lemma ltb_spec a b : ltb a b = true ↔
  n a < n b ∨ n a = n b ∧ (priority a < priority b ∨ priority a = priority b ∧ pid a < pid b).
Proof.
  unfold ltb, cmp.
  destruct (N.compare_spec (n a) (n b)), (N.compare_spec (priority a) (priority b)),
    (N.compare_spec (pid a) (pid b)); split; intros; try done; lia.
Qed.

Lemma leb_spec a b : leb a b = true ↔
  n a < n b ∨ n a = n b ∧ (priority a < priority b ∨ priority a = priority b ∧ pid a ≤ pid b).
Proof.
  unfold leb, cmp.
  destruct (N.compare_spec (n a) (n b)), (N.compare_spec (priority a) (priority b)),
    (N.compare_spec (pid a) (pid b)); split; intros; try done; lia.
Qed.

Lemma ltb_nleb a b : ltb a b = negb (leb b a).
Proof.
  apply Bool.eq_iff_eq_true. rewrite ltb_spec, Bool.negb_true_iff, <-Bool.not_true_iff_false,
    leb_spec. lia.
Qed.

End Ballot.

(** Decides goals on ballot comparisons by their fields. *)
Ltac ballot_order :=
  unfold Ballot.lt, Ballot.le in *;
  repeat match goal with
  | H : context [_ = false] |- _ => rewrite <-Bool.not_true_iff_false in H
  | |- context [_ = false] => rewrite <-Bool.not_true_iff_false
  end;
  repeat match goal with
  | H : context [Ballot.ltb _ _ = true] |- _ => rewrite Ballot.ltb_spec in H
  | H : context [Ballot.leb _ _ = true] |- _ => rewrite Ballot.leb_spec in H
  | |- context [Ballot.ltb _ _ = true] => rewrite Ballot.ltb_spec
  | |- context [Ballot.leb _ _ = true] => rewrite Ballot.leb_spec
  end;
  cbn [Ballot.n Ballot.priority Ballot.pid Ballot.config_id upd Ballot.settable_n
    Ballot.settable_priority Ballot.settable_pid Ballot.settable_config_id] in *; lia.

#[export] Instance ballot_le_preorder : PreOrder Ballot.le.
Proof. split; [intros a | intros a b c]; intros; ballot_order. Qed.
#[export] Instance ballot_lt_strict : StrictOrder Ballot.lt.
Proof. split; [intros a H | intros a b c ??]; ballot_order. Qed.

Lemma ballot_lt_le a b : Ballot.lt a b → Ballot.le a b.
Proof. intros; ballot_order. Qed.
Lemma ballot_le_lt_trans a b c : Ballot.le a b → Ballot.lt b c → Ballot.lt a c.
Proof. intros; ballot_order. Qed.
Lemma ballot_lt_le_trans a b c : Ballot.lt a b → Ballot.le b c → Ballot.lt a c.
Proof. intros; ballot_order. Qed.
Lemma ballot_not_lt a b : Ballot.ltb a b = false → Ballot.le b a.
Proof. intros; ballot_order. Qed.
Lemma ballot_not_le a b : Ballot.leb a b = false → Ballot.lt b a.
Proof. intros; ballot_order. Qed.

Create HintDb ballot discriminated.
#[export] Hint Resolve ballot_lt_le ballot_le_lt_trans ballot_lt_le_trans ballot_not_lt
  ballot_not_le : ballot.

(** Two ballots of one configuration that compare equal are equal. *)
Lemma ballot_cmp_eq a b :
  Ballot.config_id a = Ballot.config_id b → Ballot.le a b → Ballot.le b a → a = b.
Proof. destruct a, b. cbn. intros -> ??. f_equal; ballot_order. Qed.

(** [Iterator::max] returns an element of the list that no other exceeds. *)
Lemma iter_max_spec l :
  match Ballot.iter_max l with
  | None => l = []
  | Some m => m ∈ l ∧ ∀ b, b ∈ l → Ballot.le b m
  end.
Proof.
  unfold Ballot.iter_max. induction l as [|b l IH] using rev_ind; [done|].
  rewrite foldl_app. cbn [foldl]. destruct (foldl Ballot.max_step None l) as [m|]; cbn.
  - destruct IH as [Hin Hmax]. destruct (Ballot.ltb b m) eqn:E.
    + split; [set_solver|]. intros b' [?|Hb]%elem_of_app; [by auto|].
      apply list_elem_of_singleton in Hb as ->. by apply ballot_lt_le.
    + split; [set_solver|]. intros b' [?|Hb]%elem_of_app.
      * etrans; [by apply Hmax|]. by apply ballot_not_lt.
      * by apply list_elem_of_singleton in Hb as ->.
  - subst l. split; [set_solver|]. intros b' Hb.
    by apply list_elem_of_singleton in Hb as ->.
Qed.

(** The derived equality looks at the configuration, the order does not: two ballots of different
    configurations can be different although neither is smaller, which [std::cmp::Ord] rules out
    for types that are also [Eq]. *)
Lemma ballot_ord_ignores_config_id (a : Ballot.t) (c : ConfigurationId) :
  Ballot.cmp a (a <| Ballot.config_id := c |>) = Eq.
Proof. unfold Ballot.cmp. cbn. by rewrite !N.compare_refl. Qed.
