(* ===== verification/Config.v ===== *)
(** * Configurations and their validation (crates/custom-paxos/omnipaxos/src/omni_paxos.rs,
    errors.rs, and the [From<OmniPaxosConfig>] conversions of sequence_paxos/mod.rs and
    ballot_leader_election.rs)

    The optional [logging] feature is off in this repository, so the logger fields are left out. *)

From S2P Require Import Prelude Util.

(** The foreign payloads of [ReadFile] ([io::Error]) and [Parse] ([toml::de::Error]) are dropped. *)
Inductive ConfigError : Type :=
  | ReadFile
  | Parse
  | InvalidConfig (err_str : string).

(** [valid_config!(pred, err_str)]: an early return with the error when the predicate fails. *)
Definition valid_config {S} (pred : bool) (err_str : string) : M S (result unit ConfigError) :=
  if negb pred then ret (Err (InvalidConfig err_str)) else ret (Ok tt).

Module ClusterConfig.

Record t : Type := mk {
  configuration_id : ConfigurationId;
  nodes : list NodeId;
  flexible_quorum : option FlexibleQuorum
}.
#[global] Instance settable_configuration_id : Settable configuration_id := λ f r,
  mk (f (configuration_id r)) (nodes r) (flexible_quorum r).
#[global] Instance settable_nodes : Settable nodes := λ f r,
  mk (configuration_id r) (f (nodes r)) (flexible_quorum r).
#[global] Instance settable_flexible_quorum : Settable flexible_quorum := λ f r,
  mk (configuration_id r) (nodes r) (f (flexible_quorum r)).
#[global] Instance cluster_config_eq_dec : EqDecision t.
Proof. solve_decision. Defined.

Definition default : t := {| configuration_id := 0; nodes := []; flexible_quorum := None |}.

Definition validate `{Build} : M t (result unit ConfigError) :=
  let* self := gets id in
  let num_nodes := len (nodes self) in
  let? _ := valid_config (1 <? num_nodes) "Need more than 1 node" in
  let? _ := valid_config (negb (configuration_id self =? 0)) "Configuration ID cannot be 0" in
  match flexible_quorum self with
  | Some {| read_quorum_size := read_quorum_size; write_quorum_size := write_quorum_size |} =>
      let* total := lift (wadd usize_mod read_quorum_size write_quorum_size) in
      let? _ := valid_config (num_nodes <? total)
        "The quorums must overlap i.e., the sum of their sizes must exceed the # of nodes" in
      let? _ := valid_config ((2 <=? read_quorum_size) && (read_quorum_size <=? num_nodes))
        "Read quorum must be in range 2 to # of nodes in the cluster" in
      let? _ := valid_config ((2 <=? write_quorum_size) && (write_quorum_size <=? num_nodes))
        "Write quorum must be in range 2 to # of nodes in the cluster" in
      let? _ := valid_config (write_quorum_size <=? read_quorum_size)
        "Read quorum size must be >= the write quorum size." in
      ret (Ok tt)
  | None => ret (Ok tt)
  end.

End ClusterConfig.

Module ServerConfig.

Record t : Type := mk {
  pid : NodeId;
  election_tick_timeout : N;
  resend_message_tick_timeout : N;
  buffer_size : N;
  batch_size : N;
  flush_batch_tick_timeout : N;
  leader_priority : N
}.
#[global] Instance settable_pid : Settable pid := λ f r,
  mk (f (pid r)) (election_tick_timeout r) (resend_message_tick_timeout r) (buffer_size r) (batch_size r) (flush_batch_tick_timeout r) (leader_priority r).
#[global] Instance settable_election_tick_timeout : Settable election_tick_timeout := λ f r,
  mk (pid r) (f (election_tick_timeout r)) (resend_message_tick_timeout r) (buffer_size r) (batch_size r) (flush_batch_tick_timeout r) (leader_priority r).
#[global] Instance settable_resend_message_tick_timeout : Settable resend_message_tick_timeout := λ f r,
  mk (pid r) (election_tick_timeout r) (f (resend_message_tick_timeout r)) (buffer_size r) (batch_size r) (flush_batch_tick_timeout r) (leader_priority r).
#[global] Instance settable_buffer_size : Settable buffer_size := λ f r,
  mk (pid r) (election_tick_timeout r) (resend_message_tick_timeout r) (f (buffer_size r)) (batch_size r) (flush_batch_tick_timeout r) (leader_priority r).
#[global] Instance settable_batch_size : Settable batch_size := λ f r,
  mk (pid r) (election_tick_timeout r) (resend_message_tick_timeout r) (buffer_size r) (f (batch_size r)) (flush_batch_tick_timeout r) (leader_priority r).
#[global] Instance settable_flush_batch_tick_timeout : Settable flush_batch_tick_timeout := λ f r,
  mk (pid r) (election_tick_timeout r) (resend_message_tick_timeout r) (buffer_size r) (batch_size r) (f (flush_batch_tick_timeout r)) (leader_priority r).
#[global] Instance settable_leader_priority : Settable leader_priority := λ f r,
  mk (pid r) (election_tick_timeout r) (resend_message_tick_timeout r) (buffer_size r) (batch_size r) (flush_batch_tick_timeout r) (f (leader_priority r)).

Definition default : t := {|
  pid := 0;
  election_tick_timeout := ELECTION_TIMEOUT;
  resend_message_tick_timeout := RESEND_MESSAGE_TIMEOUT;
  buffer_size := BUFFER_SIZE;
  batch_size := 1;
  flush_batch_tick_timeout := FLUSH_BATCH_TIMEOUT;
  leader_priority := 0
|}.

Definition validate : M t (result unit ConfigError) :=
  let* self := gets id in
  let? _ := valid_config (negb (pid self =? 0)) "Server pid cannot be 0" in
  let? _ := valid_config (negb (buffer_size self =? 0)) "Buffer size must be greater than 0" in
  let? _ := valid_config (negb (batch_size self =? 0)) "Batch size must be greater than 0" in
  let? _ := valid_config (negb (election_tick_timeout self =? 0))
    "Election tick timeout must be greater than 0" in
  let? _ := valid_config (negb (resend_message_tick_timeout self =? 0))
    "Resend message tick timeout must be greater than 0" in
  ret (Ok tt).

End ServerConfig.

Module OmniPaxosConfig.

Record t : Type := mk {
  cluster_config : ClusterConfig.t;
  server_config : ServerConfig.t
}.
#[global] Instance settable_cluster_config : Settable cluster_config := λ f r,
  mk (f (cluster_config r)) (server_config r).
#[global] Instance settable_server_config : Settable server_config := λ f r,
  mk (cluster_config r) (f (server_config r)).

Definition default : t :=
  {| cluster_config := ClusterConfig.default; server_config := ServerConfig.default |}.

Definition validate `{Build} : M t (result unit ConfigError) :=
  let? _ := zoom cluster_config ClusterConfig.validate in
  let? _ := zoom server_config ServerConfig.validate in
  let* self := gets id in
  let? _ := valid_config
    (bool_decide (ServerConfig.pid (server_config self)
       ∈ ClusterConfig.nodes (cluster_config self)))
    "Nodes must include own server pid" in
  ret (Ok tt).

(** [with_toml]: the file system and the TOML parser are arguments. *)
Definition with_toml `{Build}
    (read_to_string : string → option string) (from_str : string → option t)
    (file_path : string) : outcome (result t ConfigError) :=
  match read_to_string file_path with
  | None => Val (Err ReadFile)
  | Some config_file =>
      match from_str config_file with
      | None => Val (Err Parse)
      | Some config => ((let? _ := validate in ret (Ok config)) config).1
      end
  end.

End OmniPaxosConfig.

(** ** The configurations of the two components *)

Record SequencePaxosConfig : Type := mkSequencePaxosConfig {
  sp_pid : NodeId;
  sp_peers : list NodeId;
  sp_buffer_size : N;
  sp_batch_size : N;
  sp_flexible_quorum : option FlexibleQuorum
}.

(** [nodes.into_iter().filter(|x| *x != pid).collect()] *)
Definition peers_of (pid : NodeId) (nodes : list NodeId) : list NodeId :=
  filter (λ x, x ≠ pid) nodes.

Definition SequencePaxosConfig_from (config : OmniPaxosConfig.t) : SequencePaxosConfig :=
  let sc := OmniPaxosConfig.server_config config in
  let cc := OmniPaxosConfig.cluster_config config in
  {| sp_pid := ServerConfig.pid sc;
     sp_peers := peers_of (ServerConfig.pid sc) (ClusterConfig.nodes cc);
     sp_buffer_size := ServerConfig.buffer_size sc;
     sp_batch_size := ServerConfig.batch_size sc;
     sp_flexible_quorum := ClusterConfig.flexible_quorum cc |}.

Record BLEConfig : Type := mkBLEConfig {
  ble_configuration_id : ConfigurationId;
  ble_pid : NodeId;
  ble_peers : list NodeId;
  ble_priority : N;
  ble_flexible_quorum : option FlexibleQuorum;
  ble_buffer_size : N
}.

Definition BLEConfig_from (config : OmniPaxosConfig.t) : BLEConfig :=
  let sc := OmniPaxosConfig.server_config config in
  let cc := OmniPaxosConfig.cluster_config config in
  {| ble_configuration_id := ClusterConfig.configuration_id cc;
     ble_pid := ServerConfig.pid sc;
     ble_peers := peers_of (ServerConfig.pid sc) (ClusterConfig.nodes cc);
     ble_priority := ServerConfig.leader_priority sc;
     ble_flexible_quorum := ClusterConfig.flexible_quorum cc;
     ble_buffer_size := BLE_BUFFER_SIZE |}.

(** ** What validation accepts *)

Lemma valid_config_then {S B} pred err (k : unit → M S (result B ConfigError)) s :
  bind_ok (valid_config pred err) k s =
  if pred then k tt s else (Val (Err (InvalidConfig err)), s).
Proof. unfold bind_ok, bind, valid_config. by destruct pred. Qed.

(** The conditions on the quorum sizes, over unbounded integers. *)
Definition flexible_quorum_valid (num_nodes : N) (fq : FlexibleQuorum) : Prop :=
  num_nodes < read_quorum_size fq + write_quorum_size fq ∧
  2 ≤ read_quorum_size fq ≤ num_nodes ∧
  2 ≤ write_quorum_size fq ≤ num_nodes ∧
  write_quorum_size fq ≤ read_quorum_size fq.

Definition cluster_valid (c : ClusterConfig.t) : Prop :=
  1 < len (ClusterConfig.nodes c) ∧ ClusterConfig.configuration_id c ≠ 0 ∧
  ∀ fq, ClusterConfig.flexible_quorum c = Some fq →
        flexible_quorum_valid (len (ClusterConfig.nodes c)) fq.

Definition server_valid (s : ServerConfig.t) : Prop :=
  ServerConfig.pid s ≠ 0 ∧ ServerConfig.buffer_size s ≠ 0 ∧ ServerConfig.batch_size s ≠ 0 ∧
  ServerConfig.election_tick_timeout s ≠ 0 ∧ ServerConfig.resend_message_tick_timeout s ≠ 0.

Definition config_valid (c : OmniPaxosConfig.t) : Prop :=
  cluster_valid (OmniPaxosConfig.cluster_config c) ∧
  server_valid (OmniPaxosConfig.server_config c) ∧
  ServerConfig.pid (OmniPaxosConfig.server_config c)
    ∈ ClusterConfig.nodes (OmniPaxosConfig.cluster_config c).

(** The field values a [usize] and a [Vec] can hold. *)
Definition cluster_fits (c : ClusterConfig.t) : Prop :=
  len (ClusterConfig.nodes c) ≤ isize_max ∧
  ∀ fq, ClusterConfig.flexible_quorum c = Some fq →
        read_quorum_size fq < usize_mod ∧ write_quorum_size fq < usize_mod.

Section validation.
Context `{Build}.

Lemma cluster_validate_state c : (ClusterConfig.validate c).2 = c.
Proof.
  unfold ClusterConfig.validate. unfold bind at 1, gets, id.
  repeat first [done | rewrite valid_config_then | case_match | progress unfold bind, lift].
Qed.

Lemma cluster_validate_ok c : cluster_fits c →
  (ClusterConfig.validate c).1 = Val (Ok tt) ↔ cluster_valid c.
Proof.
  intros [Hlen Hfits]. unfold ClusterConfig.validate, cluster_valid.
  unfold bind at 1, gets, id. rewrite !valid_config_then.
  destruct (N.ltb_spec 1 (len (ClusterConfig.nodes c))) as [H1|H1]; [|by split; [|lia]].
  destruct (N.eqb_spec (ClusterConfig.configuration_id c) 0) as [H2|H2]; [by split; [|tauto]|].
  cbn [negb]. destruct (ClusterConfig.flexible_quorum c) as [[r w]|] eqn:Hfq; [|by split].
  destruct (Hfits _ eq_refl) as [Hr Hw]. cbn in Hr, Hw.
  transitivity (flexible_quorum_valid (len (ClusterConfig.nodes c))
    {| read_quorum_size := r; write_quorum_size := w |}).
  2:{ split; [|by intros (_ & _ & Hall); apply Hall].
      intros Hv. split_and!; [done..|]. by intros fq [= <-]. }
  unfold flexible_quorum_valid. cbn [read_quorum_size write_quorum_size].
  unfold bind at 1, lift, wadd, wrapping.
  destruct (N.ltb_spec (r + w) usize_mod) as [Hsum|Hsum].
  2:{ destruct overflow_checks; cbn; [split; [done|lia]|]. rewrite !valid_config_then.
      repeat case_match; split; intros; try done; lia. }
  rewrite !valid_config_then. repeat case_match; split; intros; try done; lia.
Qed.

Lemma server_validate_state s : (ServerConfig.validate s).2 = s.
Proof.
  unfold ServerConfig.validate. unfold bind at 1, gets, id. rewrite !valid_config_then.
  by repeat case_match.
Qed.

Lemma server_validate_iff s :
  (ServerConfig.validate s).1 = Val (Ok tt) ↔ server_valid s.
Proof.
  unfold ServerConfig.validate, server_valid. unfold bind at 1, gets, id.
  rewrite !valid_config_then.
  repeat (case_match; [|split; [done|lia]]). split; [|done]. intros _. lia.
Qed.

(** C14.  [OmniPaxosConfig::validate] accepts a configuration exactly when the conditions hold over
    unbounded integers, whether or not the crate is built with overflow checks: an overflowing sum
    of quorum sizes never lets a configuration through.  The configuration is not changed. *)
Theorem validate_accepts_exactly_valid_configs (c : OmniPaxosConfig.t) :
  cluster_fits (OmniPaxosConfig.cluster_config c) →
  OmniPaxosConfig.validate c = (Val (Ok tt), c) ↔ config_valid c.
Proof.
  intros Hfits. unfold OmniPaxosConfig.validate, config_valid.
  rewrite bind_ok_zoom_read by (apply cluster_validate_state || by destruct c).
  rewrite <-(cluster_validate_ok _ Hfits), <-server_validate_iff.
  destruct (ClusterConfig.validate _).1 as [[[]|e]|f]; [|by split; [|intros [? ?]]..].
  rewrite bind_ok_zoom_read by (apply server_validate_state || by destruct c).
  destruct (ServerConfig.validate _).1 as [[[]|e]|f]; [|by split; [|intros (? & ? & ?)]..].
  unfold bind, gets, id. rewrite valid_config_then. case_bool_decide; split; try done.
  by intros (_ & _ & ?).
Qed.
End validation.

(** ** Quorum intersection *)

(** The quorums of a node, as [SequencePaxos::with] and [BallotLeaderElection::with] build them:
    the majority is computed from [peers.len() + 1]. *)
Definition node_quorum (c : OmniPaxosConfig.t) : Quorum.t :=
  Quorum.with_ (sp_flexible_quorum (SequencePaxosConfig_from c))
    (len (sp_peers (SequencePaxosConfig_from c)) + 1).

Lemma peers_of_notin pid nodes : pid ∉ nodes → peers_of pid nodes = nodes.
Proof.
  unfold peers_of. induction nodes as [|x nodes IH]; [done|]. intros Hin.
  rewrite filter_cons_True by set_solver. f_equal. set_solver.
Qed.

Lemma peers_of_len pid nodes : NoDup nodes → pid ∈ nodes →
  len (peers_of pid nodes) + 1 = len nodes.
Proof.
  induction nodes as [|x nodes IH]; [set_solver|].
  rewrite NoDup_cons, elem_of_cons. intros [Hx Hdup] Hin. rewrite len_cons.
  destruct (decide (x = pid)) as [->|Hne].
  - unfold peers_of. rewrite filter_cons_False by auto.
    fold (peers_of pid nodes). rewrite peers_of_notin by done. lia.
  - unfold peers_of. rewrite filter_cons_True by auto. fold (peers_of pid nodes).
    rewrite len_cons. rewrite <-IH; [lia|done|naive_solver].
Qed.

(** Two sets of nodes that together outnumber the nodes intersect. *)
Lemma large_sets_intersect (nodes : list NodeId) (Q1 Q2 : gset NodeId) :
  Q1 ⊆ list_to_set nodes → Q2 ⊆ list_to_set nodes →
  len nodes < N.of_nat (size Q1) + N.of_nat (size Q2) → Q1 ∩ Q2 ≠ ∅.
Proof.
  intros H1 H2 Hsize Hempty.
  assert (Hdisj : Q1 ## Q2) by set_solver.
  assert (Hsub : Q1 ∪ Q2 ⊆ list_to_set nodes) by set_solver.
  apply subseteq_size in Hsub. rewrite size_union in Hsub by done.
  assert (size (list_to_set nodes : gset NodeId) ≤ length nodes)%nat.
  { clear. induction nodes as [|x l IH]; [done|]. cbn.
    rewrite size_union_alt, size_singleton.
    assert (size (list_to_set l ∖ {[x]} : gset NodeId) ≤ size (list_to_set l : gset NodeId))%nat
      by (apply subseteq_size; set_solver). lia. }
  unfold len in Hsize. lia.
Qed.

(** The nodes that answered are counted by [num_nodes] in [is_prepare_quorum] and
    [is_accept_quorum]. *)
Definition prepare_quorum (c : OmniPaxosConfig.t) (Q : gset NodeId) : Prop :=
  Q ⊆ list_to_set (ClusterConfig.nodes (OmniPaxosConfig.cluster_config c)) ∧
  Quorum.is_prepare_quorum (node_quorum c) (N.of_nat (size Q)) = true.
Definition accept_quorum (c : OmniPaxosConfig.t) (Q : gset NodeId) : Prop :=
  Q ⊆ list_to_set (ClusterConfig.nodes (OmniPaxosConfig.cluster_config c)) ∧
  Quorum.is_accept_quorum (node_quorum c) (N.of_nat (size Q)) = true.

Lemma quorum_sizes c :
  config_valid c → NoDup (ClusterConfig.nodes (OmniPaxosConfig.cluster_config c)) →
  let n := len (ClusterConfig.nodes (OmniPaxosConfig.cluster_config c)) in
  ∃ r w, (∀ k, Quorum.is_prepare_quorum (node_quorum c) k = (r <=? k)) ∧
         (∀ k, Quorum.is_accept_quorum (node_quorum c) k = (w <=? k)) ∧
         n < r + w ∧ n < r + r.
Proof.
  intros ((Hn & _ & Hfq) & _ & Hin) Hdup. unfold node_quorum, SequencePaxosConfig_from. cbn.
  rewrite peers_of_len by done.
  destruct (ClusterConfig.flexible_quorum _) as [fq|] eqn:E; cbn.
  - destruct (Hfq fq) as (? & ? & ? & ?); [done|].
    exists (read_quorum_size fq), (write_quorum_size fq). split_and!; [done..|lia|lia].
  - set (n := len _) in *. exists (n / 2 + 1), (n / 2 + 1).
    pose proof (N.Div0.div_mod n 2). pose proof (N.mod_upper_bound n 2).
    split_and!; [done..|lia|lia].
Qed.

(** C15.  In a validated configuration without duplicate nodes, every prepare quorum meets every
    accept quorum, and every other prepare quorum: the read quorum of a new leader sees a node of
    each write quorum, and two leaders cannot both gather a prepare quorum from different nodes. *)
Theorem validated_quorums_intersect (c : OmniPaxosConfig.t) (Q1 Q2 : gset NodeId) :
  config_valid c → NoDup (ClusterConfig.nodes (OmniPaxosConfig.cluster_config c)) →
  prepare_quorum c Q1 → accept_quorum c Q2 ∨ prepare_quorum c Q2 → Q1 ∩ Q2 ≠ ∅.
Proof.
  intros Hv Hdup [Hs1 Hq1] HQ2. destruct (quorum_sizes c Hv Hdup) as (r & w & Hr & Hw & ? & ?).
  rewrite Hr in Hq1.
  destruct HQ2 as [[Hs2 Hq2]|[Hs2 Hq2]]; [rewrite Hw in Hq2|rewrite Hr in Hq2];
    apply (large_sets_intersect _ _ _ Hs1 Hs2); lia.
Qed.

(** ** Concrete configurations *)

Definition three_nodes : OmniPaxosConfig.t := {|
  OmniPaxosConfig.cluster_config := {|
    ClusterConfig.configuration_id := 1;
    ClusterConfig.nodes := [1; 2; 3];
    ClusterConfig.flexible_quorum := None |};
  OmniPaxosConfig.server_config := ServerConfig.default <| ServerConfig.pid := 1 |>
|}.

Lemma validate_accepts_witness :
  OmniPaxosConfig.validate (H := release_build) three_nodes = (Val (Ok tt), three_nodes) ↔
  config_valid three_nodes.
Proof.
  apply validate_accepts_exactly_valid_configs. split; [vm_compute; discriminate|].
  intros fq [=].
Defined.

Lemma three_nodes_valid : config_valid three_nodes.
Proof. repeat split; try (vm_compute; congruence); [..|cbn; set_solver]; discriminate. Qed.

Lemma validated_quorums_witness : ({[1; 2]} : gset NodeId) ∩ {[2; 3]} ≠ ∅.
Proof.
  apply (validated_quorums_intersect three_nodes).
  - apply three_nodes_valid.
  - cbn. apply (bool_decide_unpack _). vm_compute. exact I.
  - split; [apply (bool_decide_unpack _); vm_compute; exact I | reflexivity].
  - left. split; [apply (bool_decide_unpack _); vm_compute; exact I | reflexivity].
Defined.
