(* ===== verification/Time.v ===== *)
(** * [std::time]: the operations on [SystemTime] and [Duration] that the sources use

    A [SystemTime] is a number of nanoseconds since the Unix epoch, possibly negative; its seconds
    are an [i64].  A [Duration] is a number of nanoseconds whose seconds are a [u64].  Their
    arithmetic operators panic when the result is out of range, in every build. *)

From S2P Require Import Prelude.

Definition SystemTime := Z.
Definition Duration := N.

Definition nanos_per_sec : N := 1000000000.
(** The first [SystemTime] and the first [Duration] that cannot be represented. *)
Definition time_limit : Z := 9223372036854775808000000000.
Definition duration_limit : N := 18446744073709551616000000000.

Definition from_secs (n : N) : Duration := n * 1000000000.
Definition from_millis (n : N) : Duration := n * 1000000.
Definition from_micros (n : N) : Duration := n * 1000.

(** [SystemTime + Duration] *)
Definition time_add (t : SystemTime) (d : Duration) : outcome SystemTime :=
  if (t + Z.of_N d <? time_limit)%Z then Val (t + Z.of_N d)%Z else Panic TimeOverflow.

(** [SystemTime::duration_since]; the error says that [earlier] is later than [t]. *)
Definition duration_since (t earlier : SystemTime) : result Duration unit :=
  if (earlier <=? t)%Z then Ok (Z.to_N (t - earlier)) else Err tt.

(** [Duration + Duration], [u32 * Duration], [Duration / u32] (for a nonzero divisor) and
    [Duration::saturating_sub]. *)
Definition duration_add (d e : Duration) : outcome Duration :=
  if d + e <? duration_limit then Val (d + e) else Panic TimeOverflow.
Definition duration_mul (k : N) (d : Duration) : outcome Duration :=
  if k * d <? duration_limit then Val (k * d) else Panic TimeOverflow.
Definition duration_div (d : Duration) (k : N) : Duration := d / k.
Definition duration_saturating_sub (d e : Duration) : Duration := d - e.

Lemma time_add_exact t d : (t + Z.of_N d < time_limit)%Z → time_add t d = Val (t + Z.of_N d)%Z.
Proof. intros Hlt. unfold time_add. by rewrite (proj2 (Z.ltb_lt _ _) Hlt). Qed.
Lemma duration_add_exact d e : d + e < duration_limit → duration_add d e = Val (d + e).
Proof. intros Hlt. unfold duration_add. by rewrite (proj2 (N.ltb_lt _ _) Hlt). Qed.
Lemma duration_mul_exact k d : k * d < duration_limit → duration_mul k d = Val (k * d).
Proof. intros Hlt. unfold duration_mul. by rewrite (proj2 (N.ltb_lt _ _) Hlt). Qed.
