(* ===== verification/StorageApi.v ===== *)
(** * Entries, snapshots and the storage interface
    (crates/custom-paxos/omnipaxos/src/storage/mod.rs, the log types of util.rs, the [Request]
    trait of buffers.rs and [CompactionErr] of omni_paxos.rs)

    The traits are type classes.  [Storage.t] is the trait a backend implements; [Storage.Laws]
    states, over an abstract view of the backend, what its documentation promises to
    [InternalStorage], which is verified against these laws only. *)

From Stdlib Require Import Strings.Byte.
From S2P Require Import Prelude Util Ballots Config Time.

#[global] Instance byte_eq_dec : EqDecision byte := Byte.byte_eq_dec.

(** ** Requests and entries *)

(** [trait Request] *)
Class Request (R : Type) : Type := {
  get_deadline : R → SystemTime;
  set_deadline : SystemTime → R → R;
  get_id : R → N;
  client_id : R → N
}.

(** What the getters and the setter of an implementation have to do with each other. *)
Class RequestLaws (R : Type) `{Request R} : Prop := {
  get_set_deadline : ∀ d (r : R), get_deadline (set_deadline d r) = d;
  get_id_set_deadline : ∀ d (r : R), get_id (set_deadline d r) = get_id r
}.

(** [trait Snapshot<T>]: [create] and [merge] may panic. *)
Class Snapshot (T Sn : Type) : Type := {
  create : list T → outcome Sn;
  merge : Sn → Sn → outcome Sn;
  use_snapshots : bool
}.

(** [struct NoSnapshot] *)
Inductive NoSnapshot : Type := MkNoSnapshot.
#[export] Instance NoSnapshot_snapshot (T : Type) : Snapshot T NoSnapshot := {|
  create := λ _, Panic ExplicitPanic;
  merge := λ _ _, Panic ExplicitPanic;
  use_snapshots := false
|}.

(** [std::hash]: the hasher is part of the standard library but its algorithm is not specified, so
    it is a parameter; [Hash T] feeds a value to it. *)
Class Hasher (H : Type) : Type := {
  hasher_new : H;
  write_usize : N → H → H;
  write_isize : Z → H → H;
  write_str : string → H → H;
  finish : H → N
}.
Class Hash (T : Type) : Type := hash : ∀ {H} `{Hasher H}, T → H → H.

Record StopSign : Type := mkStopSign {
  next_config : ClusterConfig.t;
  metadata : option (list byte)
}.
#[export] Instance StopSign_eq_dec : EqDecision StopSign.
Proof. solve_decision. Defined.

(** [StopSign::with] *)
Definition StopSign_with (next_config : ClusterConfig.t) (metadata : option (list byte)) :
    StopSign := {| next_config := next_config; metadata := metadata |}.

Inductive SnapshotType (Sn : Type) : Type :=
  | Complete (s : Sn)
  | Delta (s : Sn).
#[global] Arguments Complete {Sn} s.
#[global] Arguments Delta {Sn} s.

(** [LogSync]: what another server needs to synchronize its log with ours. *)
Record LogSync (T Sn : Type) : Type := mkLogSync {
  decided_snapshot : option (SnapshotType Sn);
  suffix : list T;
  sync_idx : N;
  sync_stopsign : option StopSign
}.
#[global] Arguments mkLogSync {T Sn}.
#[global] Arguments decided_snapshot {T Sn}.
#[global] Arguments suffix {T Sn}.
#[global] Arguments sync_idx {T Sn}.
#[global] Arguments sync_stopsign {T Sn}.
#[global] Instance settable_decided_snapshot {T} {Sn} : Settable (@decided_snapshot T Sn) := λ f r,
  mkLogSync (f (decided_snapshot r)) (suffix r) (sync_idx r) (sync_stopsign r).
#[global] Instance settable_suffix {T} {Sn} : Settable (@suffix T Sn) := λ f r,
  mkLogSync (decided_snapshot r) (f (suffix r)) (sync_idx r) (sync_stopsign r).
#[global] Instance settable_sync_idx {T} {Sn} : Settable (@sync_idx T Sn) := λ f r,
  mkLogSync (decided_snapshot r) (suffix r) (f (sync_idx r)) (sync_stopsign r).
#[global] Instance settable_sync_stopsign {T} {Sn} : Settable (@sync_stopsign T Sn) := λ f r,
  mkLogSync (decided_snapshot r) (suffix r) (sync_idx r) (f (sync_stopsign r)).

(** [LogEntry]: the entries a user reads. *)
Inductive LogEntry (T : Type) : Type :=
  | Decided (e : T)
  | Undecided (e : T)
  | Trimmed (idx : TrimmedIndex)
  | StopSignEntry (ss : StopSign) (decided : bool).
#[global] Arguments Decided {T} e.
#[global] Arguments Undecided {T} e.
#[global] Arguments Trimmed {T} idx.
#[global] Arguments StopSignEntry {T} ss decided.

(** [impl PartialEq for LogEntry] *)
Definition LogEntry_eqb {T} (eqb : T → T → bool) (self other : LogEntry T) : bool :=
  match self, other with
  | Decided v1, Decided v2 => eqb v1 v2
  | Undecided v1, Undecided v2 => eqb v1 v2
  | Trimmed idx1, Trimmed idx2 => idx1 =? idx2
  | StopSignEntry ss1 b1, StopSignEntry ss2 b2 => bool_decide (ss1 = ss2) && Bool.eqb b1 b2
  | _, _ => false
  end.

Inductive IndexEntry : Type :=
  | IdxEntry
  | IdxCompacted
  | IdxStopSign (ss : StopSign).

(** ** Errors *)

Inductive CompactionErr : Type :=
  | UndecidedIndex (idx : N)
  | TrimmedIndexErr (idx : N)
  | NotAllDecided (idx : N)
  | NotCurrentLeader (pid : NodeId).
#[export] Instance CompactionErr_eq_dec : EqDecision CompactionErr.
Proof. solve_decision. Defined.

(** [Box<dyn Error>]: a [CompactionErr], or an error of the backend. *)
Inductive StorageError : Type :=
  | CompactionError (e : CompactionErr)
  | BackendError.
#[export] Instance StorageError_eq_dec : EqDecision StorageError.
Proof. solve_decision. Defined.

Definition StorageResult (A : Type) : Type := result A StorageError.

(** ** The storage trait *)

Inductive StorageOp (T Sn : Type) : Type :=
  | AppendEntry (entry : T)
  | AppendEntries (entries : list T)
  | AppendOnPrefix (from_idx : N) (entries : list T)
  | SetPromise (n_prom : Ballot.t)
  | SetDecidedIndex (ld : N)
  | SetAcceptedRound (na : Ballot.t)
  | SetCompactedIdx (idx : N)
  | Trim (idx : N)
  | SetStopsign (s : option StopSign)
  | SetSnapshot (s : option Sn).
#[global] Arguments AppendEntry {T Sn}.
#[global] Arguments AppendEntries {T Sn}.
#[global] Arguments AppendOnPrefix {T Sn}.
#[global] Arguments SetPromise {T Sn}.
#[global] Arguments SetDecidedIndex {T Sn}.
#[global] Arguments SetAcceptedRound {T Sn}.
#[global] Arguments SetCompactedIdx {T Sn}.
#[global] Arguments Trim {T Sn}.
#[global] Arguments SetStopsign {T Sn}.
#[global] Arguments SetSnapshot {T Sn}.

Module Storage.

Class t (T Sn I : Type) : Type := {
  history_hash : M I N;
  write_atomically : list (StorageOp T Sn) → M I (StorageResult unit);
  append_entry : T → M I (StorageResult unit);
  append_entries : list T → M I (StorageResult unit);
  append_on_prefix : N → list T → M I (StorageResult unit);
  set_promise : Ballot.t → M I (StorageResult unit);
  set_decided_idx : N → M I (StorageResult unit);
  get_decided_idx : M I (StorageResult N);
  set_accepted_round : Ballot.t → M I (StorageResult unit);
  get_accepted_round : M I (StorageResult (option Ballot.t));
  get_entries : N → N → M I (StorageResult (list T));
  get_log_len : M I (StorageResult N);
  get_suffix : N → M I (StorageResult (list T));
  get_promise : M I (StorageResult (option Ballot.t));
  set_stopsign : option StopSign → M I (StorageResult unit);
  get_stopsign : M I (StorageResult (option StopSign));
  trim : N → M I (StorageResult unit);
  set_compacted_idx : N → M I (StorageResult unit);
  get_compacted_idx : M I (StorageResult N);
  set_snapshot : option Sn → M I (StorageResult unit);
  get_snapshot : M I (StorageResult (option Sn))
}.
#[global] Hint Mode t - - ! : typeclass_instances.

(** ** What a backend promises

    The abstract state of a backend: the entries from index [v_base] on, and the stored values. *)

Record view (T Sn : Type) : Type := mkView {
  v_log : list T;
  v_base : N;
  v_promise : option Ballot.t;
  v_accepted_round : option Ballot.t;
  v_decided : N;
  v_compacted : N;
  v_stopsign : option StopSign;
  v_snapshot : option Sn
}.
#[global] Arguments mkView {T Sn}.
#[global] Arguments v_log {T Sn}.
#[global] Arguments v_base {T Sn}.
#[global] Arguments v_promise {T Sn}.
#[global] Arguments v_accepted_round {T Sn}.
#[global] Arguments v_decided {T Sn}.
#[global] Arguments v_compacted {T Sn}.
#[global] Arguments v_stopsign {T Sn}.
#[global] Arguments v_snapshot {T Sn}.
#[global] Instance settable_v_log {T} {Sn} : Settable (@v_log T Sn) := λ f r,
  mkView (f (v_log r)) (v_base r) (v_promise r) (v_accepted_round r) (v_decided r) (v_compacted r)
    (v_stopsign r) (v_snapshot r).
#[global] Instance settable_v_base {T} {Sn} : Settable (@v_base T Sn) := λ f r,
  mkView (v_log r) (f (v_base r)) (v_promise r) (v_accepted_round r) (v_decided r) (v_compacted r)
    (v_stopsign r) (v_snapshot r).
#[global] Instance settable_v_promise {T} {Sn} : Settable (@v_promise T Sn) := λ f r,
  mkView (v_log r) (v_base r) (f (v_promise r)) (v_accepted_round r) (v_decided r) (v_compacted r)
    (v_stopsign r) (v_snapshot r).
#[global] Instance settable_v_accepted_round {T} {Sn} : Settable (@v_accepted_round T Sn) := λ f r,
  mkView (v_log r) (v_base r) (v_promise r) (f (v_accepted_round r)) (v_decided r) (v_compacted r)
    (v_stopsign r) (v_snapshot r).
#[global] Instance settable_v_decided {T} {Sn} : Settable (@v_decided T Sn) := λ f r,
  mkView (v_log r) (v_base r) (v_promise r) (v_accepted_round r) (f (v_decided r)) (v_compacted r)
    (v_stopsign r) (v_snapshot r).
#[global] Instance settable_v_compacted {T} {Sn} : Settable (@v_compacted T Sn) := λ f r,
  mkView (v_log r) (v_base r) (v_promise r) (v_accepted_round r) (v_decided r) (f (v_compacted r))
    (v_stopsign r) (v_snapshot r).
#[global] Instance settable_v_stopsign {T} {Sn} : Settable (@v_stopsign T Sn) := λ f r,
  mkView (v_log r) (v_base r) (v_promise r) (v_accepted_round r) (v_decided r) (v_compacted r)
    (f (v_stopsign r)) (v_snapshot r).
#[global] Instance settable_v_snapshot {T} {Sn} : Settable (@v_snapshot T Sn) := λ f r,
  mkView (v_log r) (v_base r) (v_promise r) (v_accepted_round r) (v_decided r) (v_compacted r)
    (v_stopsign r) (f (v_snapshot r)).

Section spec.
Context {T Sn : Type}.
Implicit Types (v : view T Sn) (op : StorageOp T Sn).

(** The index after the last entry. *)
Definition v_end v : N := v_base v + len (v_log v).

Definition apply_op v op : view T Sn :=
  match op with
  | AppendEntry e => v <| v_log ::= λ l, l ++ [e] |>
  | AppendEntries es => v <| v_log ::= λ l, l ++ es |>
  | AppendOnPrefix from_idx es =>
      v <| v_log ::= λ l, take (N.to_nat (from_idx - v_base v)) l ++ es |>
  | SetPromise n => v <| v_promise := Some n |>
  | SetDecidedIndex ld => v <| v_decided := ld |>
  | SetAcceptedRound na => v <| v_accepted_round := Some na |>
  | SetCompactedIdx idx => v <| v_compacted := idx |>
  | Trim idx => v <| v_log ::= drop (N.to_nat (idx - v_base v)) |> <| v_base := idx |>
  | SetStopsign ss => v <| v_stopsign := ss |>
  | SetSnapshot sn => v <| v_snapshot := sn |>
  end.
Definition apply_ops v (ops : list (StorageOp T Sn)) : view T Sn := foldl apply_op v ops.

(** Trimmed entries cannot be overwritten or trimmed again, and entries are put on an existing
    prefix. *)
Definition op_pre v op : Prop :=
  match op with
  | AppendOnPrefix from_idx _ => v_base v ≤ from_idx ≤ v_end v
  | Trim idx => v_base v ≤ idx
  | _ => True
  end.
Fixpoint ops_pre v (ops : list (StorageOp T Sn)) : Prop :=
  match ops with
  | [] => True
  | op :: ops' => op_pre v op ∧ ops_pre (apply_op v op) ops'
  end.

(** The entries of the interval [from, to), or none if it is not inside the log. *)
Definition slice v (from to : N) : list T :=
  if (from <=? to) && (to <=? v_end v)
  then take (N.to_nat (to - from)) (drop (N.to_nat (from - v_base v)) (v_log v))
  else [].
End spec.

Section laws.
Context {T Sn I : Type} `{!t T Sn I} (vw : I → view T Sn).

(** A write either performs its operations, or fails and rolls them back. *)
Definition performs (m : M I (StorageResult unit)) (ops : list (StorageOp T Sn)) : Prop :=
  ∀ s, ops_pre (vw s) ops → ∃ r s', m s = (Val r, s') ∧
    vw s' = if is_ok r then apply_ops (vw s) ops else vw s.

(** A read leaves the backend as it is. *)
Definition reads {A} (m : M I (StorageResult A)) (f : view T Sn → A) : Prop :=
  ∀ s, ∃ r, m s = (Val r, s) ∧ ∀ a, r = Ok a → a = f (vw s).
End laws.

Class Laws (T Sn I : Type) `{!t T Sn I} : Type := {
  vw : I → view T Sn;
  write_atomically_law ops : performs vw (write_atomically ops) ops;
  append_entry_law e : performs vw (append_entry e) [AppendEntry e];
  append_entries_law es : performs vw (append_entries es) [AppendEntries es];
  append_on_prefix_law i es : performs vw (append_on_prefix i es) [AppendOnPrefix i es];
  set_promise_law n : performs vw (set_promise n) [SetPromise n];
  set_decided_idx_law i : performs vw (set_decided_idx i) [SetDecidedIndex i];
  set_accepted_round_law n : performs vw (set_accepted_round n) [SetAcceptedRound n];
  set_stopsign_law ss : performs vw (set_stopsign ss) [SetStopsign ss];
  trim_law i : performs vw (trim i) [Trim i];
  set_compacted_idx_law i : performs vw (set_compacted_idx i) [SetCompactedIdx i];
  set_snapshot_law sn : performs vw (set_snapshot sn) [SetSnapshot sn];
  get_promise_law : reads vw get_promise v_promise;
  get_accepted_round_law : reads vw get_accepted_round v_accepted_round;
  get_decided_idx_law : reads vw get_decided_idx v_decided;
  get_compacted_idx_law : reads vw get_compacted_idx v_compacted;
  get_stopsign_law : reads vw get_stopsign v_stopsign;
  get_snapshot_law : reads vw get_snapshot v_snapshot;
  get_log_len_law : reads vw get_log_len (λ v, len (v_log v));
  get_entries_law from to s : v_base (vw s) ≤ from → v_base (vw s) ≤ to →
    ∃ r, get_entries from to s = (Val r, s) ∧ ∀ es, r = Ok es → es = slice (vw s) from to;
  get_suffix_law from s : v_base (vw s) ≤ from →
    ∃ r, get_suffix from s = (Val r, s) ∧
         ∀ es, r = Ok es → es = slice (vw s) from (v_end (vw s))
}.

End Storage.
