(* ===== verification/MemoryStorage.v ===== *)
(** * The in-memory storage backend
    (crates/custom-paxos/omnipaxos_storage/src/memory_storage.rs)

    [MemoryStorage.t] is the struct, and the functions below are its implementation of the
    [Storage] trait.  [memory_storage_laws] discharges the laws that [InternalStorage] relies on. *)

From S2P Require Import Prelude Util Ballots StorageApi.

Module MemoryStorage.

Record t (T Sn : Type) : Type := mk {
  log : list T;
  n_prom : option Ballot.t;
  acc_round : option Ballot.t;
  ld : N;
  trimmed_idx : N;
  compacted_idx : N;
  snapshot : option Sn;
  stopsign : option StopSign
}.
#[global] Arguments mk {T Sn}.
#[global] Arguments log {T Sn}.
#[global] Arguments n_prom {T Sn}.
#[global] Arguments acc_round {T Sn}.
#[global] Arguments ld {T Sn}.
#[global] Arguments trimmed_idx {T Sn}.
#[global] Arguments compacted_idx {T Sn}.
#[global] Arguments snapshot {T Sn}.
#[global] Arguments stopsign {T Sn}.
#[global] Instance settable_log {T} {Sn} : Settable (@log T Sn) := λ f r,
  mk (f (log r)) (n_prom r) (acc_round r) (ld r) (trimmed_idx r) (compacted_idx r) (snapshot r)
    (stopsign r).
#[global] Instance settable_n_prom {T} {Sn} : Settable (@n_prom T Sn) := λ f r,
  mk (log r) (f (n_prom r)) (acc_round r) (ld r) (trimmed_idx r) (compacted_idx r) (snapshot r)
    (stopsign r).
#[global] Instance settable_acc_round {T} {Sn} : Settable (@acc_round T Sn) := λ f r,
  mk (log r) (n_prom r) (f (acc_round r)) (ld r) (trimmed_idx r) (compacted_idx r) (snapshot r)
    (stopsign r).
#[global] Instance settable_ld {T} {Sn} : Settable (@ld T Sn) := λ f r,
  mk (log r) (n_prom r) (acc_round r) (f (ld r)) (trimmed_idx r) (compacted_idx r) (snapshot r)
    (stopsign r).
#[global] Instance settable_trimmed_idx {T} {Sn} : Settable (@trimmed_idx T Sn) := λ f r,
  mk (log r) (n_prom r) (acc_round r) (ld r) (f (trimmed_idx r)) (compacted_idx r) (snapshot r)
    (stopsign r).
#[global] Instance settable_compacted_idx {T} {Sn} : Settable (@compacted_idx T Sn) := λ f r,
  mk (log r) (n_prom r) (acc_round r) (ld r) (trimmed_idx r) (f (compacted_idx r)) (snapshot r)
    (stopsign r).
#[global] Instance settable_snapshot {T} {Sn} : Settable (@snapshot T Sn) := λ f r,
  mk (log r) (n_prom r) (acc_round r) (ld r) (trimmed_idx r) (compacted_idx r) (f (snapshot r))
    (stopsign r).
#[global] Instance settable_stopsign {T} {Sn} : Settable (@stopsign T Sn) := λ f r,
  mk (log r) (n_prom r) (acc_round r) (ld r) (trimmed_idx r) (compacted_idx r) (snapshot r)
    (f (stopsign r)).

(** [slice::get(from..to)] *)
Definition slice_get {A} (l : list A) (from to : N) : option (list A) :=
  if (from <=? to) && (to <=? len l)
  then Some (take (N.to_nat (to - from)) (drop (N.to_nat from) l)) else None.
(** [slice::get(from..)] *)
Definition slice_get_from {A} (l : list A) (from : N) : option (list A) :=
  if from <=? len l then Some (drop (N.to_nat from) l) else None.

Section ops.
Context {T Sn H : Type} `{Build, Hasher H, Hash T}.

Definition default : t T Sn := {|
  log := []; n_prom := None; acc_round := None; ld := 0; trimmed_idx := 0; compacted_idx := 0;
  snapshot := None; stopsign := None
|}.

Definition history_hash : M (t T Sn) N :=
  let* self := gets id in
  ret (finish (H := H) (foldl (λ hasher entry, hash entry hasher) hasher_new (log self))).

Definition append_entry (entry : T) : M (t T Sn) (StorageResult unit) :=
  let* _ := modify (λ s, s <| log ::= λ l, l ++ [entry] |>) in
  ret (Ok tt).

Definition append_entries (entries : list T) : M (t T Sn) (StorageResult unit) :=
  let* _ := modify (λ s, s <| log ::= λ l, l ++ entries |>) in
  ret (Ok tt).

Definition append_on_prefix (from_idx : N) (entries : list T) : M (t T Sn) (StorageResult unit) :=
  let* self := gets id in
  let* k := lift (wsub usize_mod from_idx (trimmed_idx self)) in
  let* _ := modify (λ s, s <| log ::= take (N.to_nat k) |>) in
  append_entries entries.

Definition set_promise (n : Ballot.t) : M (t T Sn) (StorageResult unit) :=
  let* _ := modify (λ s, s <| n_prom := Some n |>) in
  ret (Ok tt).

Definition set_decided_idx (idx : N) : M (t T Sn) (StorageResult unit) :=
  let* _ := modify (λ s, s <| ld := idx |>) in
  ret (Ok tt).

Definition get_decided_idx : M (t T Sn) (StorageResult N) :=
  let* self := gets id in ret (Ok (ld self)).

Definition set_accepted_round (na : Ballot.t) : M (t T Sn) (StorageResult unit) :=
  let* _ := modify (λ s, s <| acc_round := Some na |>) in
  ret (Ok tt).

Definition get_accepted_round : M (t T Sn) (StorageResult (option Ballot.t)) :=
  let* self := gets id in ret (Ok (acc_round self)).

Definition get_entries (from to : N) : M (t T Sn) (StorageResult (list T)) :=
  let* self := gets id in
  let* from := lift (wsub usize_mod from (trimmed_idx self)) in
  let* to := lift (wsub usize_mod to (trimmed_idx self)) in
  ret (Ok (match slice_get (log self) from to with Some ents => ents | None => [] end)).

Definition get_log_len : M (t T Sn) (StorageResult N) :=
  let* self := gets id in ret (Ok (len (log self))).

Definition get_suffix (from : N) : M (t T Sn) (StorageResult (list T)) :=
  let* self := gets id in
  let* from := lift (wsub usize_mod from (trimmed_idx self)) in
  ret (Ok match slice_get_from (log self) from with Some s => s | None => [] end).

Definition get_promise : M (t T Sn) (StorageResult (option Ballot.t)) :=
  let* self := gets id in ret (Ok (n_prom self)).

Definition set_stopsign (s : option StopSign) : M (t T Sn) (StorageResult unit) :=
  let* _ := modify (λ self, self <| stopsign := s |>) in
  ret (Ok tt).

Definition get_stopsign : M (t T Sn) (StorageResult (option StopSign)) :=
  let* self := gets id in ret (Ok (stopsign self)).

Definition trim (idx : N) : M (t T Sn) (StorageResult unit) :=
  let* self := gets id in
  let* k := lift (wsub usize_mod idx (trimmed_idx self)) in
  let to_trim := N.min k (len (log self)) in
  let* _ := modify (λ s, s <| log ::= drop (N.to_nat to_trim) |>) in
  let* _ := modify (λ s, s <| trimmed_idx := idx |>) in
  ret (Ok tt).

Definition set_compacted_idx (compact_idx : N) : M (t T Sn) (StorageResult unit) :=
  let* _ := modify (λ s, s <| compacted_idx := compact_idx |>) in
  ret (Ok tt).

Definition get_compacted_idx : M (t T Sn) (StorageResult N) :=
  let* self := gets id in ret (Ok (compacted_idx self)).

Definition set_snapshot (snap : option Sn) : M (t T Sn) (StorageResult unit) :=
  let* _ := modify (λ s, s <| snapshot := snap |>) in
  ret (Ok tt).

Definition get_snapshot : M (t T Sn) (StorageResult (option Sn)) :=
  let* self := gets id in ret (Ok (snapshot self)).

Definition write_op (op : StorageOp T Sn) : M (t T Sn) (StorageResult unit) :=
  match op with
  | AppendEntry entry => append_entry entry
  | AppendEntries entries => append_entries entries
  | AppendOnPrefix from_idx entries => append_on_prefix from_idx entries
  | SetPromise bal => set_promise bal
  | SetDecidedIndex idx => set_decided_idx idx
  | SetAcceptedRound bal => set_accepted_round bal
  | SetCompactedIdx idx => set_compacted_idx idx
  | Trim idx => trim idx
  | SetStopsign ss => set_stopsign ss
  | SetSnapshot snap => set_snapshot snap
  end.

Fixpoint write_atomically (ops : list (StorageOp T Sn)) : M (t T Sn) (StorageResult unit) :=
  match ops with
  | [] => ret (Ok tt)
  | op :: ops' => let? _ := write_op op in write_atomically ops'
  end.

(** [impl Storage<T> for MemoryStorage<T>] *)
#[global] Instance memory_storage : Storage.t T Sn (t T Sn) := {|
  Storage.history_hash := history_hash;
  Storage.write_atomically := write_atomically;
  Storage.append_entry := append_entry;
  Storage.append_entries := append_entries;
  Storage.append_on_prefix := append_on_prefix;
  Storage.set_promise := set_promise;
  Storage.set_decided_idx := set_decided_idx;
  Storage.get_decided_idx := get_decided_idx;
  Storage.set_accepted_round := set_accepted_round;
  Storage.get_accepted_round := get_accepted_round;
  Storage.get_entries := get_entries;
  Storage.get_log_len := get_log_len;
  Storage.get_suffix := get_suffix;
  Storage.get_promise := get_promise;
  Storage.set_stopsign := set_stopsign;
  Storage.get_stopsign := get_stopsign;
  Storage.trim := trim;
  Storage.set_compacted_idx := set_compacted_idx;
  Storage.get_compacted_idx := get_compacted_idx;
  Storage.set_snapshot := set_snapshot;
  Storage.get_snapshot := get_snapshot
|}.

(** ** The backend keeps its promises *)

(** The entry at position [i] of the vector has index [trimmed_idx + i]. *)
Definition view_of (s : t T Sn) : Storage.view T Sn := {|
  Storage.v_log := log s;
  Storage.v_base := trimmed_idx s;
  Storage.v_promise := n_prom s;
  Storage.v_accepted_round := acc_round s;
  Storage.v_decided := ld s;
  Storage.v_compacted := compacted_idx s;
  Storage.v_stopsign := stopsign s;
  Storage.v_snapshot := snapshot s
|}.

Lemma drop_min {A} (k : N) (l : list A) :
  drop (N.to_nat (N.min k (len l))) l = drop (N.to_nat k) l.
Proof.
  destruct (N.le_ge_cases k (len l)) as [Hle|Hge].
  - by rewrite N.min_l.
  - rewrite N.min_r by done. rewrite !drop_ge; unfold len in *; [done|lia..].
Qed.

(** Every operation succeeds and does exactly what it is specified to do. *)
Lemma write_op_ok op (s : t T Sn) :
  Storage.op_pre (view_of s) op →
  ∃ s', write_op op s = (Val (Ok tt), s') ∧ view_of s' = Storage.apply_op (view_of s) op.
Proof.
  destruct op; cbn; intros Hpre; try (eexists; split; reflexivity).
  - unfold append_on_prefix, bind, gets, id, lift.
    rewrite wsub_exact by lia. eexists; split; reflexivity.
  - unfold trim, bind, gets, id, lift. rewrite wsub_exact by lia.
    eexists; split; [reflexivity|]. unfold view_of. cbn. by rewrite drop_min.
Qed.

Lemma write_atomically_ok ops (s : t T Sn) :
  Storage.ops_pre (view_of s) ops →
  ∃ s', write_atomically ops s = (Val (Ok tt), s') ∧
        view_of s' = Storage.apply_ops (view_of s) ops.
Proof.
  revert s. induction ops as [|op ops IH]; intros s Hpre; [by exists s|].
  destruct Hpre as [Hop Hops]. destruct (write_op_ok op s Hop) as (s1 & E1 & Hv1).
  rewrite <-Hv1 in Hops. destruct (IH s1 Hops) as (s2 & E2 & Hv2).
  exists s2. cbn [write_atomically]. unfold bind_ok, bind. rewrite E1, E2, Hv2, Hv1. done.
Qed.

Lemma write_op_performs op : Storage.performs view_of (write_op op) [op].
Proof.
  intros s [Hpre _]. destruct (write_op_ok op s Hpre) as (s' & E & Hv).
  exists (Ok tt), s'. by split.
Qed.

Lemma slice_get_slice (s : t T Sn) from to :
  trimmed_idx s ≤ from → trimmed_idx s ≤ to →
  match slice_get (log s) (from - trimmed_idx s) (to - trimmed_idx s) with
  | Some ents => ents
  | None => []
  end = Storage.slice (view_of s) from to.
Proof.
  intros Hf Ht. unfold slice_get, Storage.slice, Storage.v_end. cbn.
  replace (from - trimmed_idx s <=? to - trimmed_idx s) with (from <=? to)
    by (destruct (N.leb_spec from to); symmetry; [apply N.leb_le|apply N.leb_gt]; lia).
  replace (to - trimmed_idx s <=? len (log s)) with (to <=? trimmed_idx s + len (log s))
    by (destruct (N.leb_spec to (trimmed_idx s + len (log s))); symmetry;
        [apply N.leb_le|apply N.leb_gt]; lia).
  destruct ((from <=? to) && _) eqn:E; [|done]. do 2 f_equal. lia.
Qed.

Lemma slice_get_from_slice (s : t T Sn) from :
  trimmed_idx s ≤ from →
  match slice_get_from (log s) (from - trimmed_idx s) with Some ents => ents | None => [] end =
  Storage.slice (view_of s) from (Storage.v_end (view_of s)).
Proof.
  intros Hf. unfold slice_get_from, Storage.slice, Storage.v_end. cbn.
  rewrite (proj2 (N.leb_le (trimmed_idx s + len (log s)) _)) by lia. rewrite andb_true_r.
  destruct (N.leb_spec (from - trimmed_idx s) (len (log s))) as [Hle|Hgt].
  - rewrite (proj2 (N.leb_le _ _)) by lia. rewrite take_ge; [done|].
    rewrite length_drop. unfold len in *. lia.
  - by rewrite (proj2 (N.leb_gt _ _)) by lia.
Qed.

#[global] Instance memory_storage_laws : Storage.Laws T Sn (t T Sn).
Proof.
  refine {|
    Storage.vw := view_of;
    Storage.append_entry_law := λ e, write_op_performs (AppendEntry e);
    Storage.append_entries_law := λ es, write_op_performs (AppendEntries es);
    Storage.append_on_prefix_law := λ i es, write_op_performs (AppendOnPrefix i es);
    Storage.set_promise_law := λ n, write_op_performs (SetPromise n);
    Storage.set_decided_idx_law := λ i, write_op_performs (SetDecidedIndex i);
    Storage.set_accepted_round_law := λ n, write_op_performs (SetAcceptedRound n);
    Storage.set_stopsign_law := λ ss, write_op_performs (SetStopsign ss);
    Storage.trim_law := λ i, write_op_performs (Trim i);
    Storage.set_compacted_idx_law := λ i, write_op_performs (SetCompactedIdx i);
    Storage.set_snapshot_law := λ sn, write_op_performs (SetSnapshot sn)
  |};
    try (intros s; eexists; split; [reflexivity|]; by intros a [= <-]).
  - intros ops s Hpre. destruct (write_atomically_ok ops s Hpre) as (s' & E & Hv).
    exists (Ok tt), s'. by split.
  - intros from to s Hf Ht. cbn in *. unfold get_entries, bind, gets, lift, id.
    rewrite !wsub_exact by done. eexists; split; [reflexivity|].
    intros es [= <-]. by apply slice_get_slice.
  - intros from s Hf. cbn in *. unfold get_suffix, bind, gets, lift, id.
    rewrite !wsub_exact by done. eexists; split; [reflexivity|].
    intros es [= <-]. by apply slice_get_from_slice.
Defined.

End ops.

End MemoryStorage.

Section correctness.
Context {T Sn H : Type} `{Build, Hasher H, Hash T}.

(** C26.  Whatever operations a fresh in-memory backend has performed, reading an interval of
    untrimmed indices returns exactly the entries that the abstract log of these operations holds
    there, and the empty vector if the interval reaches beyond the log.  No operation fails. *)
Theorem memory_storage_reads_abstract_log (ops : list (StorageOp T Sn)) (from to : N) :
  let v := Storage.apply_ops (MemoryStorage.view_of (MemoryStorage.default (T := T))) ops in
  Storage.ops_pre (MemoryStorage.view_of (MemoryStorage.default (T := T))) ops →
  Storage.v_base v ≤ from → Storage.v_base v ≤ to →
  (let? _ := MemoryStorage.write_atomically ops in MemoryStorage.get_entries from to)
    MemoryStorage.default
  = (Val (Ok (Storage.slice v from to)),
     (MemoryStorage.write_atomically ops MemoryStorage.default).2).
Proof.
  intros v Hpre Hf Ht. destruct (MemoryStorage.write_atomically_ok ops _ Hpre) as (s & E & Hv).
  unfold bind_ok, bind at 1. rewrite E. subst v. rewrite <-Hv in *. cbn in Hf, Ht.
  unfold MemoryStorage.get_entries, bind, gets, lift, id. rewrite !wsub_exact by done. cbn.
  by rewrite <-MemoryStorage.slice_get_slice.
Qed.

(** Reading from an index that was trimmed never returns entries: with overflow checks
    the subtraction panics, and without them the wrapped offset makes the slice empty. *)
Theorem memory_get_entries_trimmed (s : MemoryStorage.t T Sn) (from to : N) :
  from < MemoryStorage.trimmed_idx s < usize_mod → to < usize_mod →
  len (MemoryStorage.log s) ≤ isize_max → MemoryStorage.trimmed_idx s ≤ isize_max →
  MemoryStorage.get_entries from to s =
  (if overflow_checks then Panic Overflow else Val (Ok []), s).
Proof.
  intros Hf Ht Hlen Htr. unfold MemoryStorage.get_entries, bind, gets, lift, id, wsub.
  rewrite (proj2 (N.leb_gt _ _)) by lia. destruct overflow_checks; [done|].
  unfold MemoryStorage.slice_get. destruct (N.leb_spec (MemoryStorage.trimmed_idx s) to).
  - by rewrite (proj2 (N.leb_gt _ (to - _))) by lia.
  - destruct (N.leb_spec (usize_mod + to - MemoryStorage.trimmed_idx s)
      (len (MemoryStorage.log s))); [lia|]. by rewrite andb_false_r.
Qed.
End correctness.
