(* ===== verification/InternalStorage.v ===== *)
(** * The storage layer of a server
    (crates/custom-paxos/omnipaxos/src/storage/state_cache.rs and internal_storage.rs)

    [StateCache] keeps the small state values and the batch of entries in memory;
    [InternalStorage] puts it in front of a backend.  Everything is proved for any backend that
    satisfies [Storage.Laws].  The fields and code of the [unicache] feature are left out: the
    repository does not enable it. *)

From S2P Require Import Prelude Util Ballots StorageApi.

(** ** The state cache *)

Module StateCache.

Record t (T : Type) : Type := mk {
  batch_size : N;
  batched_entries : list T;
  promise : Ballot.t;
  accepted_round : Ballot.t;
  decided_idx : N;
  accepted_idx : N;
  compacted_idx : N;
  stopsign : option StopSign
}.
#[global] Arguments mk {T}.
#[global] Arguments batch_size {T}.
#[global] Arguments batched_entries {T}.
#[global] Arguments promise {T}.
#[global] Arguments accepted_round {T}.
#[global] Arguments decided_idx {T}.
#[global] Arguments accepted_idx {T}.
#[global] Arguments compacted_idx {T}.
#[global] Arguments stopsign {T}.
#[global] Instance settable_batch_size {T} : Settable (@batch_size T) := λ f r,
  mk (f (batch_size r)) (batched_entries r) (promise r) (accepted_round r) (decided_idx r)
    (accepted_idx r) (compacted_idx r) (stopsign r).
#[global] Instance settable_batched_entries {T} : Settable (@batched_entries T) := λ f r,
  mk (batch_size r) (f (batched_entries r)) (promise r) (accepted_round r) (decided_idx r)
    (accepted_idx r) (compacted_idx r) (stopsign r).
#[global] Instance settable_promise {T} : Settable (@promise T) := λ f r,
  mk (batch_size r) (batched_entries r) (f (promise r)) (accepted_round r) (decided_idx r)
    (accepted_idx r) (compacted_idx r) (stopsign r).
#[global] Instance settable_accepted_round {T} : Settable (@accepted_round T) := λ f r,
  mk (batch_size r) (batched_entries r) (promise r) (f (accepted_round r)) (decided_idx r)
    (accepted_idx r) (compacted_idx r) (stopsign r).
#[global] Instance settable_decided_idx {T} : Settable (@decided_idx T) := λ f r,
  mk (batch_size r) (batched_entries r) (promise r) (accepted_round r) (f (decided_idx r))
    (accepted_idx r) (compacted_idx r) (stopsign r).
#[global] Instance settable_accepted_idx {T} : Settable (@accepted_idx T) := λ f r,
  mk (batch_size r) (batched_entries r) (promise r) (accepted_round r) (decided_idx r)
    (f (accepted_idx r)) (compacted_idx r) (stopsign r).
#[global] Instance settable_compacted_idx {T} : Settable (@compacted_idx T) := λ f r,
  mk (batch_size r) (batched_entries r) (promise r) (accepted_round r) (decided_idx r)
    (accepted_idx r) (f (compacted_idx r)) (stopsign r).
#[global] Instance settable_stopsign {T} : Settable (@stopsign T) := λ f r,
  mk (batch_size r) (batched_entries r) (promise r) (accepted_round r) (decided_idx r)
    (accepted_idx r) (compacted_idx r) (f (stopsign r)).

Section ops.
Context {T : Type}.

Definition new (batch_size : N) : t T := {|
  batch_size := batch_size; batched_entries := []; promise := Ballot.default;
  accepted_round := Ballot.default; decided_idx := 0; accepted_idx := 0; compacted_idx := 0;
  stopsign := None
|}.

Definition take_batched_entries : M (t T) (list T) :=
  let* self := gets id in
  let* _ := modify (λ s, s <| batched_entries := [] |>) in
  ret (batched_entries self).

Definition take_entries_if_batch_is_full : M (t T) (option (list T)) :=
  let* self := gets id in
  if batch_size self <=? len (batched_entries self) then
    let* entries := take_batched_entries in ret (Some entries)
  else ret None.

Definition append_entry (entry : T) : M (t T) (option (list T)) :=
  let* _ := modify (λ s, s <| batched_entries ::= λ l, l ++ [entry] |>) in
  take_entries_if_batch_is_full.

Definition append_entries (entries : list T) : M (t T) (option (list T)) :=
  let* _ := modify (λ s, s <| batched_entries ::= λ l, l ++ entries |>) in
  take_entries_if_batch_is_full.

Definition append_stopsign (ss : StopSign) : M (t T) (option (list T)) :=
  let* _ := modify (λ s, s <| stopsign := Some ss |>) in
  let* self := gets id in
  match batched_entries self with
  | [] => ret None
  | _ => let* entries := take_batched_entries in ret (Some entries)
  end.

Definition stopsign_is_decided (self : t T) : bool :=
  bool_decide (is_Some (stopsign self)) && (decided_idx self =? accepted_idx self).

(** Nothing is lost and nothing is duplicated: what was batched and what is appended is what is
    flushed and what stays batched, in this order. *)
Lemma append_entries_spec entries (s : t T) :
  let all := batched_entries s ++ entries in
  let full := batch_size s <=? len all in
  append_entries entries s =
  (Val (if full then Some all else None), s <| batched_entries := if full then [] else all |>).
Proof.
  unfold append_entries, take_entries_if_batch_is_full, take_batched_entries.
  unfold bind, gets, modify, ret, id. cbn. by destruct (_ <=? _).
Qed.
End ops.

End StateCache.

(** ** The internal storage *)

(** [std::ops::Bound] *)
Inductive Bound : Type :=
  | Included (i : N)
  | Excluded (e : N)
  | Unbounded.

Module InternalStorage.

Record t (I T : Type) : Type := mk {
  storage : I;
  state_cache : StateCache.t T
}.
#[global] Arguments mk {I T}.
#[global] Arguments storage {I T}.
#[global] Arguments state_cache {I T}.
#[global] Instance settable_storage {I} {T} : Settable (@storage I T) := λ f r,
  mk (f (storage r)) (state_cache r).
#[global] Instance settable_state_cache {I} {T} : Settable (@state_cache I T) := λ f r,
  mk (storage r) (f (state_cache r)).

Section ops.
Context {T Sn I : Type} `{Build, Snapshot T Sn, !Storage.t T Sn I}.

Abbreviation Self := (t I T).
Abbreviation cached f := (gets (λ self : Self, f (state_cache self))).

(** The getters. *)
Definition get_decided_idx : M Self N := cached StateCache.decided_idx.
Definition stopsign_is_decided : M Self bool := cached StateCache.stopsign_is_decided.
Definition get_accepted_round : M Self Ballot.t := cached StateCache.accepted_round.
Definition get_accepted_idx : M Self N := cached StateCache.accepted_idx.
Definition get_promise : M Self Ballot.t := cached StateCache.promise.
Definition get_stopsign : M Self (option StopSign) := cached StateCache.stopsign.
Definition get_compacted_idx : M Self N := cached StateCache.compacted_idx.
Definition get_entries (from to : N) : M Self (StorageResult (list T)) :=
  zoom storage (Storage.get_entries from to).
Definition get_suffix (from : N) : M Self (StorageResult (list T)) :=
  zoom storage (Storage.get_suffix from).
Definition get_snapshot : M Self (StorageResult (option Sn)) :=
  zoom storage Storage.get_snapshot.
Definition get_decided_idx_without_stopsign : M Self N :=
  let* decided := stopsign_is_decided in
  let* idx := get_decided_idx in
  if decided then lift (wsub usize_mod idx 1) else ret idx.

(** *** Recovery *)

Definition set_cache {E} (f : StateCache.t T → E) `{!Settable f} (x : E) : M Self unit :=
  modify (λ s, s <| state_cache ::= λ c, c <| f := x |> |>).

Definition load_cache : M Self unit :=
  let* promise := expect (zoom storage Storage.get_promise) in
  let* _ := set_cache StateCache.promise
    match promise with Some b => b | None => Ballot.default end in
  let* decided_idx := expect (zoom storage Storage.get_decided_idx) in
  let* _ := set_cache StateCache.decided_idx decided_idx in
  let* accepted_round := expect (zoom storage Storage.get_accepted_round) in
  let* _ := set_cache StateCache.accepted_round
    match accepted_round with Some b => b | None => Ballot.default end in
  let* compacted_idx := expect (zoom storage Storage.get_compacted_idx) in
  let* _ := set_cache StateCache.compacted_idx compacted_idx in
  let* stopsign := expect (zoom storage Storage.get_stopsign) in
  let* _ := set_cache StateCache.stopsign stopsign in
  let* log_len := expect (zoom storage Storage.get_log_len) in
  let* compacted_idx := get_compacted_idx in
  let* accepted_idx := lift (wadd usize_mod log_len compacted_idx) in
  let* _ := set_cache StateCache.accepted_idx accepted_idx in
  let* stopsign := get_stopsign in
  if bool_decide (is_Some stopsign) then
    let* accepted_idx := get_accepted_idx in
    let* accepted_idx := lift (wadd usize_mod accepted_idx 1) in
    set_cache StateCache.accepted_idx accepted_idx
  else ret tt.

Definition with_ (storage : I) (batch_size : N) : outcome Self :=
  let (r, s) := load_cache {| storage := storage; state_cache := StateCache.new batch_size |} in
  match r with Val _ => Val s | Panic f => Panic f end.

(** *** Reading *)

Definition get_entry_type (idx compacted_idx accepted_idx : N) :
    M Self (StorageResult (option IndexEntry)) :=
  if idx <? compacted_idx then ret (Ok (Some IdxCompacted))
  else
    let* next := lift (wadd usize_mod idx 1) in
    if next <? accepted_idx then ret (Ok (Some IdxEntry))
    else if next =? accepted_idx then
      let* stopsign := get_stopsign in
      match stopsign with
      | Some ss => ret (Ok (Some (IdxStopSign ss)))
      | None => ret (Ok (Some IdxEntry))
      end
    else ret (Ok None).

Definition create_read_log_entries (from to : N) : M Self (StorageResult (list (LogEntry T))) :=
  let* decided_idx := get_decided_idx in
  let? entries := get_entries from to in
  ret (Ok (imap (λ idx e, let log_idx := N.of_nat idx + from in
                          if log_idx <? decided_idx then Decided e else Undecided e) entries)).

Definition read (start_bound end_bound : Bound) :
    M Self (StorageResult (option (list (LogEntry T)))) :=
  let* from_idx := match start_bound with
                   | Included i => ret i
                   | Excluded e => lift (wadd usize_mod e 1)
                   | Unbounded => ret 0
                   end in
  let* to_idx := match end_bound with
                 | Included i => lift (wadd usize_mod i 1)
                 | Excluded e => ret e
                 | Unbounded => get_accepted_idx
                 end in
  if to_idx =? 0 then ret (Ok None)
  else
    let* compacted_idx := get_compacted_idx in
    let* accepted_idx := get_accepted_idx in
    let? to_type := get_entry_type (to_idx - 1) compacted_idx accepted_idx in
    match to_type with
    | None => ret (Ok None)
    | Some to_type =>
        let? from_type := get_entry_type from_idx compacted_idx accepted_idx in
        match from_type with
        | None => ret (Ok None)
        | Some from_type =>
            match from_type, to_type with
            | IdxEntry, IdxEntry =>
                let? entries := create_read_log_entries from_idx to_idx in
                ret (Ok (Some entries))
            | IdxEntry, IdxStopSign ss =>
                let? entries := create_read_log_entries from_idx (to_idx - 1) in
                let* decided := stopsign_is_decided in
                ret (Ok (Some (entries ++ [StopSignEntry ss decided])))
            | IdxStopSign ss, IdxStopSign _ =>
                let* decided := stopsign_is_decided in
                ret (Ok (Some [StopSignEntry ss decided]))
            | _, _ => panic Unimplemented
            end
        end
    end.

Definition read_decided_suffix (from_idx : N) :
    M Self (StorageResult (option (list (LogEntry T)))) :=
  let* decided_idx := get_decided_idx in
  if from_idx <? decided_idx then read (Included from_idx) (Excluded decided_idx)
  else ret (Ok None).

(** *** Appending *)

Definition append_entries_without_batching (entries : list T) : M Self (StorageResult N) :=
  let num_new_entries := len entries in
  let? _ := zoom storage (Storage.append_entries entries) in
  let* accepted_idx := get_accepted_idx in
  let* accepted_idx := lift (wadd usize_mod accepted_idx num_new_entries) in
  let* _ := set_cache StateCache.accepted_idx accepted_idx in
  ret (Ok accepted_idx).

Definition append_entries_and_get_accepted_idx (entries : list T) :
    M Self (StorageResult (option N)) :=
  let* append_res := zoom state_cache (StateCache.append_entries entries) in
  match append_res with
  | Some flushed_entries =>
      let? accepted_idx := append_entries_without_batching flushed_entries in
      ret (Ok (Some accepted_idx))
  | None => ret (Ok None)
  end.

Definition flush_batch : M Self (StorageResult N) :=
  let* flushed_entries := zoom state_cache StateCache.take_batched_entries in
  append_entries_without_batching flushed_entries.

(** *** Snapshots *)

Definition create_snapshot (compact_idx : N) : M Self (StorageResult Sn) :=
  let* current_compacted_idx := get_compacted_idx in
  if compact_idx <? current_compacted_idx then
    ret (Err (CompactionError (TrimmedIndexErr current_compacted_idx)))
  else
    let? entries := zoom storage (Storage.get_entries current_compacted_idx compact_idx) in
    let* delta := lift (create entries) in
    let? snapshot := zoom storage Storage.get_snapshot in
    match snapshot with
    | Some s => let* s := lift (merge s delta) in ret (Ok s)
    | None => ret (Ok delta)
    end.

Definition create_decided_snapshot : M Self (StorageResult Sn) :=
  let* log_decided_idx := get_decided_idx_without_stopsign in
  create_snapshot log_decided_idx.

Definition create_diff_snapshot (from_idx : N) :
    M Self (StorageResult (option (SnapshotType Sn) * N)) :=
  let* log_decided_idx := get_decided_idx_without_stopsign in
  let* compacted_idx := get_compacted_idx in
  let? snapshot :=
    (if from_idx <=? compacted_idx then
       if compacted_idx <? log_decided_idx then
         let? s := create_snapshot log_decided_idx in ret (Ok (Some (Complete s)))
       else
         let? s := get_snapshot in ret (Ok (Complete <$> s))
     else
       let? diff_entries := get_entries from_idx log_decided_idx in
       let* d := lift (create diff_entries) in
       ret (Ok (Some (Delta d)))) in
  ret (Ok (snapshot, log_decided_idx)).

Definition try_trim (idx : N) : M Self (StorageResult unit) :=
  let* decided_idx := get_decided_idx in
  let* log_decided_idx := get_decided_idx_without_stopsign in
  let? new_compacted_idx := match idx ?= decided_idx with
                            | Lt => ret (Ok idx)
                            | Eq => ret (Ok log_decided_idx)
                            | Gt => ret (Err (CompactionError (UndecidedIndex decided_idx)))
                            end in
  let* compacted_idx := get_compacted_idx in
  if compacted_idx <? new_compacted_idx then
    let? _ := zoom storage (Storage.write_atomically
      [Trim new_compacted_idx; SetCompactedIdx new_compacted_idx]) in
    let* _ := set_cache StateCache.compacted_idx new_compacted_idx in
    ret (Ok tt)
  else ret (Ok tt).

Definition try_snapshot (snapshot_idx : option N) : M Self (StorageResult unit) :=
  let* decided_idx := get_decided_idx in
  let* log_decided_idx := get_decided_idx_without_stopsign in
  let? new_compacted_idx :=
    match snapshot_idx with
    | Some i => match i ?= decided_idx with
                | Lt => ret (Ok i)
                | Eq => ret (Ok log_decided_idx)
                | Gt => ret (Err (CompactionError (UndecidedIndex decided_idx)))
                end
    | None => ret (Ok log_decided_idx)
    end in
  let* compacted_idx := get_compacted_idx in
  if compacted_idx <? new_compacted_idx then
    let? snapshot := create_snapshot new_compacted_idx in
    let? _ := zoom storage (Storage.write_atomically
      [Trim new_compacted_idx; SetCompactedIdx new_compacted_idx; SetSnapshot (Some snapshot)]) in
    let* _ := set_cache StateCache.compacted_idx new_compacted_idx in
    ret (Ok tt)
  else ret (Ok tt).

(** *** Synchronization and state values *)

Definition sync_log (accepted_round : Ballot.t) (decided_idx : N)
    (log_sync : option (LogSync T Sn)) : M Self (StorageResult N) :=
  let* _ := set_cache StateCache.accepted_round accepted_round in
  let* _ := set_cache StateCache.decided_idx decided_idx in
  let sync_txn := [SetAcceptedRound accepted_round; SetDecidedIndex decided_idx] in
  let? sync_txn :=
    match log_sync with
    | None => ret (Ok sync_txn)
    | Some sync =>
        let? sync_txn :=
          match decided_snapshot sync with
          | Some (Complete c) =>
              let* _ := set_cache StateCache.compacted_idx (sync_idx sync) in
              ret (Ok (sync_txn ++ [Trim (sync_idx sync); SetCompactedIdx (sync_idx sync);
                                    SetSnapshot (Some c)]))
          | Some (Delta d) =>
              let? snapshot := create_decided_snapshot in
              let* snapshot := lift (merge snapshot d) in
              let* _ := set_cache StateCache.compacted_idx (sync_idx sync) in
              ret (Ok (sync_txn ++ [Trim (sync_idx sync); SetCompactedIdx (sync_idx sync);
                                    SetSnapshot (Some snapshot)]))
          | None => ret (Ok sync_txn)
          end in
        let* accepted_idx := lift (wadd usize_mod (sync_idx sync) (len (suffix sync))) in
        let* _ := set_cache StateCache.accepted_idx accepted_idx in
        let sync_txn := sync_txn ++ [AppendOnPrefix (sync_idx sync) (suffix sync)] in
        let* stopsign := get_stopsign in
        match sync_stopsign sync with
        | Some ss =>
            let* _ := set_cache StateCache.stopsign (Some ss) in
            let* accepted_idx := get_accepted_idx in
            let* accepted_idx := lift (wadd usize_mod accepted_idx 1) in
            let* _ := set_cache StateCache.accepted_idx accepted_idx in
            ret (Ok (sync_txn ++ [SetStopsign (Some ss)]))
        | None =>
            if bool_decide (is_Some stopsign) then
              let* _ := set_cache StateCache.stopsign None in
              ret (Ok (sync_txn ++ [SetStopsign None]))
            else ret (Ok sync_txn)
        end
    end in
  let? _ := zoom storage (Storage.write_atomically sync_txn) in
  let* accepted_idx := get_accepted_idx in
  ret (Ok accepted_idx).

Definition set_promise (n_prom : Ballot.t) : M Self (StorageResult unit) :=
  let* _ := set_cache StateCache.promise n_prom in
  zoom storage (Storage.set_promise n_prom).

Definition set_decided_idx (idx : N) : M Self (StorageResult unit) :=
  let* _ := set_cache StateCache.decided_idx idx in
  zoom storage (Storage.set_decided_idx idx).

Definition set_stopsign (ss : option StopSign) : M Self (StorageResult N) :=
  let* stopsign := get_stopsign in
  let* _ :=
    (if bool_decide (is_Some ss) && negb (bool_decide (is_Some stopsign)) then
       let* accepted_idx := get_accepted_idx in
       let* accepted_idx := lift (wadd usize_mod accepted_idx 1) in
       set_cache StateCache.accepted_idx accepted_idx
     else if negb (bool_decide (is_Some ss)) && bool_decide (is_Some stopsign) then
       let* accepted_idx := get_accepted_idx in
       let* accepted_idx := lift (wsub usize_mod accepted_idx 1) in
       set_cache StateCache.accepted_idx accepted_idx
     else ret tt) in
  let* _ := set_cache StateCache.stopsign ss in
  let? _ := zoom storage (Storage.set_stopsign ss) in
  let* accepted_idx := get_accepted_idx in
  ret (Ok accepted_idx).

End ops.

End InternalStorage.

(** ** Coherence of the cache *)

Section coherence.
Context {T Sn I : Type} `{Build, Snapshot T Sn, !Storage.t T Sn I, !Storage.Laws T Sn I}.
Import InternalStorage.
Implicit Types s : InternalStorage.t I T.
Implicit Types v : Storage.view T Sn.
Implicit Types c : StateCache.t T.

Definition view_of s : Storage.view T Sn := Storage.vw (storage s).

(** The index after the last entry of the log and the stop sign, if there is one. *)
Definition log_end (v : Storage.view T Sn) : N :=
  Storage.v_end v + match Storage.v_stopsign v with Some _ => 1 | None => 0 end.
(** The decided entries, without the stop sign. *)
Definition decided_entries (v : Storage.view T Sn) : N :=
  N.min (Storage.v_decided v) (Storage.v_end v).

Definition ballot_or_default (b : option Ballot.t) : Ballot.t :=
  match b with Some b => b | None => Ballot.default end.

(** The cache holds the values of the backend. *)
Record cached (c : StateCache.t T) (v : Storage.view T Sn) : Prop := {
  cached_promise : StateCache.promise c = ballot_or_default (Storage.v_promise v);
  cached_round : StateCache.accepted_round c = ballot_or_default (Storage.v_accepted_round v);
  cached_decided : StateCache.decided_idx c = Storage.v_decided v;
  cached_compacted : StateCache.compacted_idx c = Storage.v_compacted v;
  cached_stopsign : StateCache.stopsign c = Storage.v_stopsign v;
  cached_accepted : StateCache.accepted_idx c = log_end v
}.

(** The indices of the backend make sense together. *)
Record view_ok (v : Storage.view T Sn) : Prop := {
  base_compacted : Storage.v_base v = Storage.v_compacted v;
  compacted_decided : Storage.v_compacted v ≤ Storage.v_decided v;
  decided_accepted : Storage.v_decided v ≤ log_end v;
  end_fits : log_end v < usize_mod
}.

Definition coherent s : Prop := cached (state_cache s) (view_of s) ∧ view_ok (view_of s).

(** *** The backend calls *)

Lemma returns_write m ops s (Q : StorageResult unit → InternalStorage.t I T → Prop) :
  Storage.performs Storage.vw m ops → Storage.ops_pre (view_of s) ops →
  (∀ r i, Storage.vw i = (if is_ok r then Storage.apply_ops (view_of s) ops else view_of s) →
          Q r (mk i (state_cache s))) →
  returns (zoom storage m) s Q.
Proof.
  intros Hlaw Hpre HQ. destruct (Hlaw (storage s) Hpre) as (r & i & E & Hv). wp_zoom.
  eapply returns_intro; [done|]. apply HQ, Hv.
Qed.

Lemma returns_read {A} (m : M I (StorageResult A)) f s
    (Q : StorageResult A → InternalStorage.t I T → Prop) :
  Storage.reads Storage.vw m f →
  (∀ r, (∀ a, r = Ok a → a = f (view_of s)) → Q r s) →
  returns (zoom storage m) s Q.
Proof.
  intros Hlaw HQ. destruct (Hlaw (storage s)) as (r & E & Hr). wp_zoom.
  eapply returns_intro; [done|]. cbn. destruct s. by apply HQ.
Qed.

Lemma returns_get_entries from to s (Q : StorageResult (list T) → InternalStorage.t I T → Prop) :
  Storage.v_base (view_of s) ≤ from → Storage.v_base (view_of s) ≤ to →
  (∀ r, (∀ es, r = Ok es → es = Storage.slice (view_of s) from to) → Q r s) →
  returns (zoom storage (Storage.get_entries from to)) s Q.
Proof.
  intros Hf Ht HQ. destruct (Storage.get_entries_law from to (storage s) Hf Ht) as (r & E & Hr).
  wp_zoom. eapply returns_intro; [done|]. cbn. destruct s. by apply HQ.
Qed.

(** A computation that leaves the state as it is. *)
Lemma returns_decided_without_stopsign s (Q : N → InternalStorage.t I T → Prop) :
  coherent s → Q (decided_entries (view_of s)) s → returns get_decided_idx_without_stopsign s Q.
Proof.
  intros [Hc Hv] HQ. unfold get_decided_idx_without_stopsign, stopsign_is_decided,
    get_decided_idx. wp.
  unfold StateCache.stopsign_is_decided. rewrite (cached_stopsign _ _ Hc),
    (cached_decided _ _ Hc), (cached_accepted _ _ Hc).
  pose proof (decided_accepted _ Hv) as Hle. unfold decided_entries, log_end in *.
  destruct (Storage.v_stopsign (view_of s)) as [ss|] eqn:E; cbn [bool_decide].
  - rewrite bool_decide_eq_true_2 by eauto. cbn [andb].
    destruct (N.eqb_spec (Storage.v_decided (view_of s)) (Storage.v_end (view_of s) + 1)).
    + eapply returns_lift; [apply wsub_exact; lia|].
      by replace (Storage.v_decided _ - 1) with
        (N.min (Storage.v_decided (view_of s)) (Storage.v_end (view_of s))) by lia.
    + wp. by replace (N.min _ _) with (Storage.v_decided (view_of s)) in HQ by lia.
  - rewrite bool_decide_eq_false_2 by (by intros []). wp.
    by replace (N.min _ _) with (Storage.v_decided (view_of s)) in HQ by lia.
Qed.

(** Writing the same value to a field of the cache and of the backend. *)
Lemma cached_ballots c v :
  cached c v →
  ∀ b, cached (c <| StateCache.promise := b |>) (Storage.apply_op v (SetPromise b)) ∧
       cached (c <| StateCache.accepted_round := b |>) (Storage.apply_op v (SetAcceptedRound b)).
Proof. intros [] b. split; by constructor. Qed.

Lemma cached_set_decided c v i :
  cached c v →
  cached (c <| StateCache.decided_idx := i |>) (Storage.apply_op v (SetDecidedIndex i)).
Proof. intros []. by constructor. Qed.

Lemma cached_append c v es :
  cached c v →
  cached (c <| StateCache.accepted_idx := log_end v + len es |>)
    (Storage.apply_op v (AppendEntries es)).
Proof.
  intros []. constructor; cbn; try done. unfold log_end, Storage.v_end. cbn.
  autorewrite with len. lia.
Qed.

(** Trimming within the log keeps its end. *)
Lemma v_end_trim v i :
  Storage.v_base v ≤ i ≤ Storage.v_end v →
  Storage.v_end (Storage.apply_op v (Trim i)) = Storage.v_end v.
Proof. unfold Storage.v_end. cbn. autorewrite with len. lia. Qed.

Lemma cached_compact c v i :
  cached c v → Storage.v_base v ≤ i ≤ Storage.v_end v →
  cached (c <| StateCache.compacted_idx := i |>)
    (Storage.apply_ops v [Trim i; SetCompactedIdx i]).
Proof.
  intros [] Hi. pose proof (v_end_trim v i Hi) as Hend. constructor; cbn; try done.
  unfold log_end, Storage.v_end in *. cbn in *. lia.
Qed.

Lemma view_ok_compact v i :
  view_ok v → Storage.v_base v ≤ i → i ≤ decided_entries v →
  view_ok (Storage.apply_ops v [Trim i; SetCompactedIdx i]).
Proof.
  intros [] Hlo Hhi. unfold decided_entries in *.
  assert (Storage.v_base v ≤ i ≤ Storage.v_end v) as Hi by lia. pose proof (v_end_trim v i Hi).
  constructor; unfold log_end, Storage.v_end in *; cbn in *; lia.
Qed.

Lemma cached_snapshot c v sn : cached c v → cached c (Storage.apply_op v (SetSnapshot sn)).
Proof. intros []. by constructor. Qed.
Lemma view_ok_snapshot v sn : view_ok v → view_ok (Storage.apply_op v (SetSnapshot sn)).
Proof. intros []. by constructor. Qed.

Ltac read_backend law i :=
  let E := fresh "E" in
  destruct (law i) as ([?x|?e] & E & ?Hr); rewrite E; cbn;
  [|split; [done|]; do 4 eexists; split; [apply law|done]].

(** What [with] makes of a backend. *)
Lemma with_cases (i : I) (batch_size : N) :
  view_ok (Storage.vw i) →
  match InternalStorage.with_ i batch_size with
  | Val s => cached (state_cache s) (view_of s) ∧ storage s = i ∧
             StateCache.batched_entries (state_cache s) = [] ∧
             StateCache.batch_size (state_cache s) = batch_size
  | Panic f => f = ExpectErr ∧ ∃ A (m : M I (StorageResult A)) f e,
      Storage.reads Storage.vw m f ∧ m i = (Val (Err e), i)
  end.
Proof.
  intros Hv. unfold InternalStorage.with_, load_cache.
  unfold expect, set_cache, get_compacted_idx, get_stopsign, get_accepted_idx.
  cbv [bind zoom ret panic gets modify lift]. cbn.
  read_backend (Storage.get_promise_law) i. read_backend (Storage.get_decided_idx_law) i.
  read_backend (Storage.get_accepted_round_law) i. read_backend (Storage.get_compacted_idx_law) i.
  read_backend (Storage.get_stopsign_law) i. read_backend (Storage.get_log_len_law) i.
  repeat match goal with H : ∀ a, Ok ?y = Ok a → _ |- _ => specialize (H _ eq_refl) end. subst.
  pose proof (end_fits _ Hv) as Hend. pose proof (base_compacted _ Hv) as Hbase.
  unfold log_end, Storage.v_end in Hend. rewrite wadd_exact by lia. cbn.
  destruct (Storage.v_stopsign (Storage.vw i)) as [ss|] eqn:Ess.
  - rewrite bool_decide_eq_true_2 by eauto. cbn. rewrite wadd_exact by lia. cbn.
    split; [|done].
    constructor; unfold view_of, log_end, Storage.v_end; cbn; rewrite ?Ess; try done. lia.
  - rewrite bool_decide_eq_false_2 by (by intros []). split; [|done].
    constructor; unfold view_of, log_end, Storage.v_end; cbn; rewrite ?Ess; try done. lia.
Qed.

(** C23.  Recovery.  [InternalStorage::with] reads a backend whose indices make sense into a
    coherent state, with an empty batch and the backend untouched; the only panic is that of a read
    of the backend that fails. *)
Theorem with_recovers_coherent_state (i : I) (batch_size : N) :
  view_ok (Storage.vw i) →
  match InternalStorage.with_ i batch_size with
  | Val s => coherent s ∧ storage s = i ∧ StateCache.batched_entries (state_cache s) = [] ∧
             StateCache.batch_size (state_cache s) = batch_size
  | Panic f => f = ExpectErr ∧ ∃ A (m : M I (StorageResult A)) f e,
      Storage.reads Storage.vw m f ∧ m i = (Val (Err e), i)
  end.
Proof.
  intros Hv. pose proof (with_cases i batch_size Hv) as Hw.
  destruct (InternalStorage.with_ i batch_size) as [s|f]; [|done].
  destruct Hw as (Hc & Hi & Hrest). split; [|done]. split; [done|]. unfold view_of. by rewrite Hi.
Qed.

End coherence.

(** ** Appending *)

Section appending.
Context {T Sn I : Type} `{Build, Snapshot T Sn, !Storage.t T Sn I, !Storage.Laws T Sn I}.
Import InternalStorage.
Implicit Types s : InternalStorage.t I T.

(** The log with the entries that are still batched. *)
Definition log_and_batch s : list T :=
  Storage.v_log (view_of s) ++ StateCache.batched_entries (state_cache s).

Lemma view_ok_append (v : Storage.view T Sn) es :
  view_ok v → log_end v + len es < usize_mod →
  view_ok (Storage.apply_op v (AppendEntries es)).
Proof.
  intros []. unfold log_end, Storage.v_end in *. intros Hfits.
  constructor; unfold log_end, Storage.v_end; cbn; autorewrite with len; lia.
Qed.

(** Appending needs no more of the cache than its accepted index. *)
Lemma returns_append_accepted es s
    (Q : StorageResult N → InternalStorage.t I T → Prop) :
  StateCache.accepted_idx (state_cache s) = log_end (view_of s) →
  log_end (view_of s) + len es < usize_mod →
  (∀ i, Storage.vw i = Storage.apply_op (view_of s) (AppendEntries es) →
        Q (Ok (log_end (view_of s) + len es))
          (mk i ((state_cache s) <| StateCache.accepted_idx := log_end (view_of s) + len es |>))) →
  (∀ e i, Storage.vw i = view_of s → Q (Err e) (mk i (state_cache s))) →
  returns (append_entries_without_batching es) s Q.
Proof.
  intros Hacc Hfits HOk HErr. unfold append_entries_without_batching, get_accepted_idx,
    set_cache. wp.
  apply (returns_write _ [AppendEntries es]); [apply Storage.append_entries_law|done|].
  intros [[]|e] i Hi; cbn in Hi; [|by apply HErr]. wp.
  eapply returns_lift; [apply wadd_exact; cbn; by rewrite Hacc|]. cbn. rewrite Hacc. wp.
  by apply HOk.
Qed.

Lemma returns_append_without_batching es s
    (Q : StorageResult N → InternalStorage.t I T → Prop) :
  coherent s → log_end (view_of s) + len es < usize_mod →
  (∀ s', coherent s' → view_of s' = Storage.apply_op (view_of s) (AppendEntries es) →
         StateCache.batched_entries (state_cache s') = StateCache.batched_entries (state_cache s) →
         StateCache.batch_size (state_cache s') = StateCache.batch_size (state_cache s) →
         Q (Ok (log_end (view_of s'))) s') →
  (∀ e i, Storage.vw i = view_of s → Q (Err e) (mk i (state_cache s))) →
  returns (append_entries_without_batching es) s Q.
Proof.
  intros [Hc Hv] Hfits HOk HErr.
  pose proof (cached_append _ _ es Hc) as Hc'. pose proof (view_ok_append _ es Hv Hfits) as Hv'.
  apply returns_append_accepted; [apply Hc|done| |done].
  intros i Hi. rewrite <-Hi in Hc', Hv'.
  assert (Hend : log_end (view_of s) + len es = log_end (Storage.vw i))
    by (by rewrite <-(cached_accepted _ _ Hc')).
  rewrite Hend in *. by apply (HOk (mk i _)).
Qed.

(** Batching one proposal: the entries reach the log when the batch is full, in their order and
    behind the ones batched before; the accepted index is returned exactly then. *)
Lemma append_entries_step es s :
  coherent s →
  log_end (view_of s) + len (StateCache.batched_entries (state_cache s) ++ es) < usize_mod →
  returns (append_entries_and_get_accepted_idx es) s (λ r s',
    match r with
    | Ok o => coherent s' ∧ log_and_batch s' = log_and_batch s ++ es ∧
        Storage.v_base (view_of s') = Storage.v_base (view_of s) ∧
        if StateCache.batch_size (state_cache s) <=?
             len (StateCache.batched_entries (state_cache s) ++ es)
        then o = Some (log_end (view_of s')) ∧ StateCache.batched_entries (state_cache s') = []
        else o = None ∧ view_of s' = view_of s
    | Err _ => view_of s' = view_of s
    end).
Proof.
  intros Hcoh Hfits. unfold append_entries_and_get_accepted_idx. wp_zoom.
  eapply returns_intro; [apply StateCache.append_entries_spec|]. cbv beta.
  destruct Hcoh as [Hc Hv]. destruct (_ <=? _) eqn:E; wp.
  - apply returns_append_without_batching; [split; [by destruct Hc|done]|done|..].
    + intros s' Hcoh' Hvw Hb Hsz. wp. cbn in *. split_and!; try done.
      * unfold log_and_batch. rewrite Hvw, Hb. cbn. by rewrite app_nil_r, app_assoc.
      * by rewrite Hvw.
    + intros e i Hi. by wp.
  - cbn. split_and!; try done; [split; [by destruct Hc|done]|].
    unfold log_and_batch. cbn. by rewrite app_assoc.
Qed.

Lemma flush_batch_step s :
  coherent s →
  log_end (view_of s) + len (StateCache.batched_entries (state_cache s)) < usize_mod →
  returns flush_batch s (λ r s',
    match r with
    | Ok idx => coherent s' ∧ Storage.v_log (view_of s') = log_and_batch s ∧
        StateCache.batched_entries (state_cache s') = [] ∧ idx = log_end (view_of s')
    | Err _ => view_of s' = view_of s
    end).
Proof.
  intros [Hc Hv] Hfits. unfold flush_batch, StateCache.take_batched_entries. wp_zoom.
  apply returns_append_without_batching; [split; [by destruct Hc|done]|done|..].
  - intros s' Hcoh' Hvw Hb Hsz. split_and!; try done. by rewrite Hvw.
  - by intros e i Hi.
Qed.

(** Several proposals in a row, as long as the backend accepts them. *)
Fixpoint propose_all (ess : list (list T)) : M (InternalStorage.t I T) (StorageResult unit) :=
  match ess with
  | [] => ret (Ok tt)
  | es :: ess' => let? _ := append_entries_and_get_accepted_idx es in propose_all ess'
  end.

Lemma log_end_batch s :
  log_end (view_of s) + len (StateCache.batched_entries (state_cache s)) ≤
  Storage.v_base (view_of s) + len (log_and_batch s) + 1.
Proof.
  unfold log_end, Storage.v_end, log_and_batch. autorewrite with len.
  destruct (Storage.v_stopsign _); lia.
Qed.

(** C19.  Batching is invisible: whatever the batch size, any sequence of proposals followed by a
    flush leaves in the durable log the old log, what was batched before, and the proposed entries,
    in order and exactly once; the flush returns the index after the last one. *)
Theorem batched_log_is_proposed_log (ess : list (list T)) s :
  coherent s →
  Storage.v_base (view_of s) + len (log_and_batch s) + len (concat ess) + 1 < usize_mod →
  returns (let? _ := propose_all ess in flush_batch) s (λ r s',
    match r with
    | Ok idx => coherent s' ∧ Storage.v_log (view_of s') = log_and_batch s ++ concat ess ∧
        StateCache.batched_entries (state_cache s') = [] ∧ idx = log_end (view_of s')
    | Err _ => True
    end).
Proof.
  revert s. induction ess as [|es ess IH]; intros s Hcoh Hfits; cbn [propose_all concat] in *;
    pose proof (log_end_batch s); wp.
  - eapply returns_mono; [apply flush_batch_step; [done|rewrite len_nil in *; lia]|].
    intros [idx|e] s'; [|done]. by rewrite app_nil_r.
  - autorewrite with len in Hfits.
    eapply returns_mono; [apply append_entries_step; [done|autorewrite with len; lia]|].
    intros [o|e] s'; [|done]. intros (Hcoh' & Hlog & Hbase & _).
    assert (Hfits' : Storage.v_base (view_of s') + len (log_and_batch s') + len (concat ess) + 1
      < usize_mod) by (rewrite Hbase, Hlog; autorewrite with len; lia).
    specialize (IH s' Hcoh' Hfits'). apply returns_bind_ok_inv in IH.
    eapply returns_mono; [exact IH|]. cbv beta. rewrite Hlog, <-app_assoc.
    by intros [u|e] s''.
Qed.
End appending.

(** ** Reading *)

Section reading.
Context {T Sn I : Type} `{Build, Snapshot T Sn, !Storage.t T Sn I, !Storage.Laws T Sn I}.
Import InternalStorage.
Implicit Types s : InternalStorage.t I T.
Implicit Types v : Storage.view T Sn.

(** The reference: what a user sees at index [i] of the replicated log.  [None] if the index was
    compacted or if there is nothing yet. *)
Definition entry_at v (i : N) : option (LogEntry T) :=
  if i <? Storage.v_base v then None
  else match Storage.v_log v !! N.to_nat (i - Storage.v_base v) with
       | Some e => Some (if i <? Storage.v_decided v then Decided e else Undecided e)
       | None => if i =? Storage.v_end v
                 then (λ ss, StopSignEntry ss (Storage.v_decided v =? log_end v))
                        <$> Storage.v_stopsign v
                 else None
       end.

(** The indices [from, to). *)
Definition range (from to : N) : list N :=
  (λ k, from + N.of_nat k) <$> seq 0 (N.to_nat (to - from)).

Lemma range_snoc from to : from ≤ to → range from (to + 1) = range from to ++ [to].
Proof.
  intros Hle. unfold range. replace (N.to_nat (to + 1 - from)) with (N.to_nat (to - from) + 1)%nat
    by lia. rewrite seq_app, fmap_app. cbn. do 2 f_equal. lia.
Qed.

Lemma slice_inside v from to :
  Storage.v_base v ≤ from → from ≤ to → to ≤ Storage.v_end v →
  Storage.slice v from to =
  take (N.to_nat (to - from)) (drop (N.to_nat (from - Storage.v_base v)) (Storage.v_log v)).
Proof.
  intros Hb Hle He. unfold Storage.slice.
  by rewrite (proj2 (N.leb_le _ _) Hle), (proj2 (N.leb_le _ _) He).
Qed.

(** The entries of a slice, tagged as [create_read_log_entries] does. *)
Lemma tagged_slice v from to :
  Storage.v_base v ≤ from → from ≤ to → to ≤ Storage.v_end v →
  mapM (entry_at v) (range from to) =
  Some (imap (λ idx e, if N.of_nat idx + from <? Storage.v_decided v
                       then Decided e else Undecided e) (Storage.slice v from to)).
Proof.
  intros Hb Hle He. rewrite slice_inside by done. apply mapM_Some. unfold range.
  apply Forall2_same_length_lookup_2.
  { rewrite length_imap, length_fmap, length_seq, length_take, length_drop.
    unfold Storage.v_end, len in He. lia. }
  intros k i y. rewrite list_lookup_fmap, list_lookup_imap.
  destruct (seq _ _ !! k) as [k'|] eqn:Ek; [|done]. apply lookup_seq in Ek as [-> Hk]. cbn.
  intros [= <-]. rewrite lookup_take_lt by lia. rewrite lookup_drop.
  unfold entry_at. decide_cmp.
  replace (N.to_nat (from + N.of_nat k - Storage.v_base v))
    with (N.to_nat (from - Storage.v_base v) + k)%nat by lia.
  destruct (Storage.v_log v !! _) as [e|]; [|done]. cbn. intros [= <-].
  by rewrite (N.add_comm from).
Qed.

Lemma mapM_snoc {A B} (f : A → option B) l x ys y :
  mapM f l = Some ys → f x = Some y → mapM f (l ++ [x]) = Some (ys ++ [y]).
Proof.
  intros Hl Hx. apply mapM_Some. apply Forall2_app; [by apply mapM_Some|by repeat constructor].
Qed.

Lemma entry_at_stopsign v ss :
  Storage.v_stopsign v = Some ss →
  entry_at v (Storage.v_end v) = Some (StopSignEntry ss (Storage.v_decided v =? log_end v)).
Proof.
  intros Hss. unfold entry_at.
  assert (Storage.v_base v ≤ Storage.v_end v) by (unfold Storage.v_end; lia). decide_cmp.
  rewrite lookup_ge_None_2; [by rewrite Hss|]. unfold Storage.v_end, len. lia.
Qed.

Lemma stopsign_decided_cached s :
  coherent s → ∀ ss, Storage.v_stopsign (view_of s) = Some ss →
  StateCache.stopsign_is_decided (state_cache s) =
  (Storage.v_decided (view_of s) =? log_end (view_of s)).
Proof.
  intros [[] _] ss Hss. unfold StateCache.stopsign_is_decided.
  rewrite cached_stopsign0, Hss, cached_decided0, cached_accepted0.
  by rewrite bool_decide_eq_true_2 by eauto.
Qed.

(** The type of an index, on a coherent state. *)
Definition index_type v (i : N) : option IndexEntry :=
  if i <? Storage.v_base v then Some IdxCompacted
  else if i <? Storage.v_end v then Some IdxEntry
  else if i =? Storage.v_end v then IdxStopSign <$> Storage.v_stopsign v
  else None.

Lemma returns_entry_type i s (Q : StorageResult (option IndexEntry) → InternalStorage.t I T → Prop) :
  coherent s → i + 1 < usize_mod →
  Q (Ok (index_type (view_of s) i)) s →
  returns (get_entry_type i (Storage.v_compacted (view_of s)) (log_end (view_of s))) s Q.
Proof.
  intros [Hc Hv] Hi HQ. unfold get_entry_type, get_stopsign, index_type in *.
  rewrite <-(base_compacted _ Hv). destruct (i <? Storage.v_base (view_of s)); wp; [done|].
  eapply returns_lift; [by apply wadd_exact|]. cbv beta. unfold log_end in *.
  destruct (N.ltb_spec i (Storage.v_end (view_of s))) as [Hlt|Hge].
  - destruct (Storage.v_stopsign (view_of s)) as [ss|] eqn:Ess.
    + decide_cmp. by wp.
    + destruct (N.ltb_spec (i + 1) (Storage.v_end (view_of s) + 0)); [by wp|].
      decide_cmp. wp. by rewrite (cached_stopsign _ _ Hc), Ess; wp.
  - destruct (Storage.v_stopsign (view_of s)) as [ss|] eqn:Ess; cbn in HQ.
    + decide_cmp.
      destruct (N.eqb_spec i (Storage.v_end (view_of s))) as [->|Hne].
      * decide_cmp. wp. by rewrite (cached_stopsign _ _ Hc), Ess; wp.
      * decide_cmp. by wp.
    + decide_cmp. decide_cmp. wp.
      by destruct (i =? Storage.v_end (view_of s)).
Qed.

Lemma returns_read_entries from to s
    (Q : StorageResult (list (LogEntry T)) → InternalStorage.t I T → Prop) :
  coherent s → Storage.v_base (view_of s) ≤ from → Storage.v_base (view_of s) ≤ to →
  to ≤ Storage.v_end (view_of s) →
  (∀ l, mapM (entry_at (view_of s)) (range from to) = Some l → Q (Ok l) s) →
  (∀ e, Q (Err e) s) →
  returns (create_read_log_entries from to) s Q.
Proof.
  intros [Hc Hv] Hf Ht He HOk HErr. unfold create_read_log_entries, get_decided_idx, get_entries. wp.
  apply returns_get_entries; [done..|]. intros [es|e] Hes; [|done]. wp. apply HOk.
  rewrite (cached_decided _ _ Hc), (Hes _ eq_refl). destruct (N.le_gt_cases from to) as [Hle|Hgt].
  - by apply tagged_slice.
  - unfold range, Storage.slice. rewrite (proj2 (N.leb_gt _ _)) by done. cbn [andb imap].
    by replace (N.to_nat (to - from)) with 0%nat by lia.
Qed.

(** Outside of the log. *)
Lemma read_out_of_bounds (from to : N) s :
  coherent s → from + 1 < usize_mod → to < usize_mod →
  to = 0 ∨ log_end (view_of s) < to ∨ log_end (view_of s) ≤ from →
  returns (read (Included from) (Excluded to)) s (λ r s', r = Ok None ∧ s' = s).
Proof.
  intros Hcoh Hf Ht Hout. pose proof Hcoh as [Hc Hv]. set (v := view_of s) in *.
  unfold read, get_compacted_idx, get_accepted_idx. wp.
  destruct (N.eqb_spec to 0) as [->|Hto]; wp; [done|].
  rewrite (cached_compacted _ _ Hc), (cached_accepted _ _ Hc).
  apply returns_entry_type; [done|lia|]. fold v.
  destruct (index_type v (to - 1)) eqn:Eto; wp; [|done].
  apply returns_entry_type; [done|lia|]. fold v.
  assert (Hend : Storage.v_base v ≤ Storage.v_end v) by (unfold Storage.v_end; lia).
  assert (Hnone : index_type v from = None); [|rewrite Hnone; by wp].
  assert (Hge : log_end v ≤ from).
  { destruct Hout as [?|[Hout|?]]; [done| |done]. exfalso. revert Eto. unfold index_type.
    unfold log_end in Hout. destruct (Storage.v_stopsign v); decide_cmp; [done|].
    by destruct (_ =? _). }
  unfold index_type, log_end in *. destruct (Storage.v_stopsign v); decide_cmp; [done|].
  by destruct (from =? _).
Qed.

Lemma read_None (from to : N) s :
  coherent s → from + 1 < usize_mod → to < usize_mod →
  to = 0 ∨ log_end (view_of s) < to ∨ log_end (view_of s) ≤ from →
  read (Included from) (Excluded to) s = (Val (Ok None), s).
Proof.
  intros Hcoh Hf Ht Hout.
  by destruct (returns_elim _ _ _ (read_out_of_bounds from to s Hcoh Hf Ht Hout))
    as (r & s' & -> & -> & ->).
Qed.

(** Inside of the log. *)
Lemma read_in_bounds (from to : N) s :
  coherent s → to < usize_mod →
  0 < to → Storage.v_base (view_of s) ≤ from ≤ to - 1 → to ≤ log_end (view_of s) →
  returns (read (Included from) (Excluded to)) s (λ r s', s' = s ∧
    ∀ o, r = Ok o → o = mapM (entry_at (view_of s)) (range from to)).
Proof.
  intros Hcoh Ht Hpos Hft Hto. pose proof Hcoh as [Hc Hv]. set (v := view_of s) in *.
  unfold read, get_compacted_idx, get_accepted_idx. wp. decide_cmp. wp.
  rewrite (cached_compacted _ _ Hc), (cached_accepted _ _ Hc).
  apply returns_entry_type; [done|lia|]. fold v.
  unfold index_type at 1. decide_cmp.
  destruct (N.ltb_spec (to - 1) (Storage.v_end v)) as [Hin|Hstop].
  - wp. apply returns_entry_type; [done|lia|]. fold v. unfold index_type. decide_cmp. wp.
    apply returns_read_entries; fold v; [done|lia..| |].
    + intros l Hl. wp. split; [done|]. by intros o [= <-].
    + intros e. wp. done.
  - assert (∃ ss, Storage.v_stopsign v = Some ss ∧ to - 1 = Storage.v_end v) as (ss & Ess & Heq).
    { unfold log_end in Hto. destruct (Storage.v_stopsign v) as [ss|]; [|lia].
      exists ss. split; [done|lia]. }
    decide_cmp. rewrite Ess. cbn. wp.
    apply returns_entry_type; [done|lia|]. fold v. unfold index_type. decide_cmp.
    replace to with (Storage.v_end v + 1) by lia. rewrite range_snoc by lia. rewrite N.add_sub.
    destruct (N.ltb_spec from (Storage.v_end v)) as [Hlt|Hge].
    + wp. apply returns_read_entries; fold v; [done|lia..| |].
      * intros l Hl. unfold stopsign_is_decided. wp. split; [done|]. intros o [= <-].
        rewrite (stopsign_decided_cached _ Hcoh _ Ess). symmetry.
        by apply mapM_snoc, entry_at_stopsign.
      * intros e. wp. done.
    + decide_cmp. rewrite Ess. cbn. unfold stopsign_is_decided. wp.
      split; [done|]. intros o [= <-]. rewrite (stopsign_decided_cached _ Hcoh _ Ess).
      replace from with (Storage.v_end v) by lia. symmetry.
      unfold range. rewrite N.sub_diag.
      by apply (mapM_snoc _ [] _ []), entry_at_stopsign.
Qed.

(** An interval that ends before it starts, inside of the untrimmed log. *)
Lemma read_inverted (from to : N) s :
  coherent s → from + 1 < usize_mod → Storage.v_base (view_of s) < to → to ≤ from →
  from < Storage.v_end (view_of s) →
  returns (read (Included from) (Excluded to)) s (λ r s', s' = s ∧
    ∀ o, r = Ok o → o = mapM (entry_at (view_of s)) (range from to)).
Proof.
  intros Hcoh Hf Hb Hto He. pose proof Hcoh as [Hc Hv]. set (v := view_of s) in *.
  unfold read, get_compacted_idx, get_accepted_idx. wp. decide_cmp. wp.
  rewrite (cached_compacted _ _ Hc), (cached_accepted _ _ Hc).
  apply returns_entry_type; [done|lia|]. fold v. unfold index_type at 1. do 2 decide_cmp. wp.
  apply returns_entry_type; [done|lia|]. fold v. unfold index_type at 1. do 2 decide_cmp. wp.
  apply returns_read_entries; fold v; [done|lia..| |].
  - intros l Hl. wp. split; [done|]. by intros o [= <-].
  - intros e. wp. done.
Qed.

Lemma index_type_None v i : index_type v i = None ↔ log_end v ≤ i.
Proof.
  assert (Storage.v_base v ≤ Storage.v_end v) by (unfold Storage.v_end; lia).
  unfold index_type, log_end. destruct (N.ltb_spec i (Storage.v_base v)).
  { split; [done|]. destruct (Storage.v_stopsign v); lia. }
  destruct (N.ltb_spec i (Storage.v_end v)).
  { split; [done|]. destruct (Storage.v_stopsign v); lia. }
  destruct (N.eqb_spec i (Storage.v_end v)) as [->|]; destruct (Storage.v_stopsign v); cbn;
    (split; [try done; lia|]); intros ?; (done || lia).
Qed.

Lemma entry_type_eq i s :
  coherent s → i + 1 < usize_mod →
  get_entry_type i (Storage.v_compacted (view_of s)) (log_end (view_of s)) s =
  (Val (Ok (index_type (view_of s) i)), s).
Proof.
  intros Hcoh Hi.
  destruct (returns_elim _ s (λ r s', r = Ok (index_type (view_of s) i) ∧ s' = s)
    (returns_entry_type i s _ Hcoh Hi (conj eq_refl eq_refl))) as (r & s' & -> & -> & ->). done.
Qed.

(** An interval inside of the log that starts or ends among the compacted entries, or that goes
    backwards from the stop sign. *)
Lemma read_unimplemented (from to : N) s :
  coherent s → from < log_end (view_of s) → 0 < to ≤ log_end (view_of s) →
  from < Storage.v_base (view_of s) ∨ to ≤ Storage.v_base (view_of s) ∨
    (from = Storage.v_end (view_of s) ∧ to ≤ Storage.v_end (view_of s)) →
  read (Included from) (Excluded to) s = (Panic Unimplemented, s).
Proof.
  intros Hcoh Hf Hto Hcase. pose proof Hcoh as [Hc Hv]. set (v := view_of s) in *.
  pose proof (end_fits _ Hv) as Hfits. fold v in Hfits.
  unfold read, get_compacted_idx, get_accepted_idx, bind, gets, ret. decide_cmp.
  rewrite (cached_compacted _ _ Hc), (cached_accepted _ _ Hc). fold v.
  unfold bind_ok, bind. unfold v. rewrite !entry_type_eq by (done || fold v; lia). fold v.
  destruct (index_type v (to - 1)) as [tty|] eqn:Et; [|apply index_type_None in Et; lia].
  unfold v. rewrite entry_type_eq by (done || fold v; lia). fold v.
  destruct (index_type v from) as [fty|] eqn:Ef; [|apply index_type_None in Ef; lia].
  assert (Storage.v_base v ≤ Storage.v_end v) by (unfold Storage.v_end; lia).
  revert Et Ef. unfold index_type.
  destruct Hcase as [Hlt|[Hle|[-> Hle]]].
  - decide_cmp. intros _ [= <-]. by destruct tty.
  - decide_cmp. intros [= <-] _. by destruct fty.
  - destruct (N.ltb_spec (to - 1) (Storage.v_base v)); [intros [= <-] _; by destruct fty|].
    decide_cmp. decide_cmp. decide_cmp. intros [= <-] Hss.
    by destruct (Storage.v_stopsign v); [injection Hss as <-|].
Qed.

(** The interval that two bounds of the caller denote. *)
Definition first_index (b : Bound) : N :=
  match b with Included i => i | Excluded e => e + 1 | Unbounded => 0 end.

Definition end_index v (b : Bound) : N :=
  match b with Included i => i + 1 | Excluded e => e | Unbounded => log_end v end.

Lemma read_bounds start_bound end_bound s :
  coherent s → first_index start_bound < usize_mod →
  end_index (view_of s) end_bound < usize_mod →
  read start_bound end_bound s =
  read (Included (first_index start_bound)) (Excluded (end_index (view_of s) end_bound)) s.
Proof.
  intros [Hc _] Hf Ht. unfold read at 1. unfold bind at 1, lift, get_accepted_idx, gets, ret.
  destruct start_bound as [i|e|]; cbn [first_index] in *; try rewrite wadd_exact by done;
  (destruct end_bound as [j|k|]; cbn [end_index] in *; unfold bind at 1; try rewrite wadd_exact by done;
   [reflexivity..|]; by rewrite (cached_accepted _ _ Hc)).
Qed.

(** What a read of the indices from [from] up to [to], not included, is to answer, for every
    interval: nothing if the interval reaches beyond the log, or starts there, or ends at index 0;
    the code does not implement an interval that touches the compacted entries, nor one that goes
    backwards from the stop sign; of any other interval the entries are read, which are none if it
    is empty or ends before it starts. *)
Definition reference_read v (from to : N) : outcome (option (list (LogEntry T))) :=
  if (to =? 0) || (log_end v <? to) || (log_end v <=? from) then Val None
  else if (from <? Storage.v_base v) || (to <=? Storage.v_base v) ||
          ((from =? Storage.v_end v) && (to <=? Storage.v_end v)) then Panic Unimplemented
  else Val (mapM (entry_at v) (range from to)).

Lemma entries_inside v from to :
  Storage.v_base v ≤ from → Storage.v_base v ≤ to → to ≤ log_end v →
  is_Some (mapM (entry_at v) (range from to)).
Proof.
  intros Hf Hb Hto. destruct (N.le_gt_cases to from) as [Hle|Hlt].
  { unfold range. by replace (N.to_nat (to - from)) with 0%nat by lia. }
  destruct (N.le_gt_cases to (Storage.v_end v)) as [Hin|Hstop].
  { by rewrite tagged_slice by lia. }
  unfold log_end in Hto. destruct (Storage.v_stopsign v) as [ss|] eqn:Ess; [|lia].
  replace to with (Storage.v_end v + 1) by lia. rewrite range_snoc by lia.
  erewrite mapM_snoc; [done|apply tagged_slice; lia|by apply entry_at_stopsign].
Qed.

(** C17.  Reading, on every interval and for every kind of bounds.  [read] answers what the
    reference answers: [None] for an interval that reaches beyond the log, or starts there, or ends
    at index 0; a panic for an interval inside of the log that touches the compacted entries, or
    goes backwards from the stop sign; for any other interval, unless the backend fails, exactly
    the entries that the reference log shows at its indices, with the stop sign as the last one,
    and no entry if the interval is empty or ends before it starts.  No read changes the state. *)
Theorem read_is_reference_read start_bound end_bound s :
  coherent s → first_index start_bound + 1 < usize_mod →
  end_index (view_of s) end_bound < usize_mod →
  match reference_read (view_of s) (first_index start_bound) (end_index (view_of s) end_bound) with
  | Panic f => read start_bound end_bound s = (Panic f, s)
  | Val None => read start_bound end_bound s = (Val (Ok None), s)
  | Val (Some es) => returns (read start_bound end_bound) s (λ r s', s' = s ∧
      ∀ o, r = Ok o → o = Some es)
  end.
Proof.
  intros Hcoh Hf Ht.
  pose proof (read_bounds start_bound end_bound s Hcoh ltac:(lia) Ht) as Heq.
  unfold returns. rewrite Heq. clear Heq.
  set (from := first_index start_bound) in *. set (to := end_index _ end_bound) in *. clearbody from to.
  unfold reference_read. set (v := view_of s) in *.
  destruct (N.eqb_spec to 0); cbn [orb]; [by apply read_None; auto|].
  destruct (N.ltb_spec (log_end v) to); cbn [orb]; [by apply read_None; auto|].
  destruct (N.leb_spec (log_end v) from); [by apply read_None; auto|].
  destruct (N.ltb_spec from (Storage.v_base v)); cbn [orb].
  { apply read_unimplemented; fold v; auto; lia. }
  destruct (N.leb_spec to (Storage.v_base v)); cbn [orb].
  { apply read_unimplemented; fold v; auto; lia. }
  destruct (entries_inside v from to ltac:(done) ltac:(lia) ltac:(done)) as [es Hes].
  assert (Hback : from = Storage.v_end v ∧ to ≤ Storage.v_end v ∨
    (from ≤ to - 1 ∨ to ≤ from < Storage.v_end v)).
  { unfold log_end in *. destruct (Storage.v_stopsign v); lia. }
  destruct Hback as [[-> Hle]|Hrun].
  { rewrite N.eqb_refl, (proj2 (N.leb_le _ _) Hle). apply read_unimplemented; fold v; auto; lia. }
  rewrite (proj2 (andb_false_iff _ _)), Hes.
  - rewrite <-Hes. destruct Hrun; [apply read_in_bounds|apply read_inverted]; fold v; done || lia.
  - destruct (N.eqb_spec from (Storage.v_end v)); [right; apply N.leb_gt; lia|by left].
Qed.

(** Reading compacted entries does not return [None] or a [Trimmed] entry: if the
    end of the interval is inside the log and its start was compacted, the server panics. *)
Theorem read_compacted_panics (from to : N) s :
  coherent s → from < Storage.v_compacted (view_of s) → 0 < to ≤ log_end (view_of s) →
  read (Included from) (Excluded to) s = (Panic Unimplemented, s).
Proof.
  intros Hcoh Hf Hto. pose proof Hcoh as [_ Hv]. rewrite <-(base_compacted _ Hv) in Hf.
  assert (Storage.v_base (view_of s) ≤ log_end (view_of s)).
  { unfold log_end, Storage.v_end. destruct (Storage.v_stopsign _); lia. }
  apply read_unimplemented; auto; lia.
Qed.
End reading.

(** ** Compaction and synchronization *)

(** Snapshots form a homomorphism from logs: merging the snapshots of two consecutive parts is the
    snapshot of the whole. *)
Class SnapshotLaws (T Sn : Type) `{Snapshot T Sn} : Prop := {
  create_total (l : list T) : ∃ sn : Sn, create l = Val sn;
  merge_create (l k : list T) (a b : Sn) :
    create l = Val a → create k = Val b → merge a b = create (l ++ k)
}.

Section compaction.
Context {T Sn I : Type} `{Build, Snapshot T Sn, !Storage.t T Sn I, !Storage.Laws T Sn I}.
Import InternalStorage.
Implicit Types s : InternalStorage.t I T.
Implicit Types v : Storage.view T Sn.

(** Where [try_trim] and [try_snapshot] compact to when they are asked for index [i]: the stop sign
    is not compacted. *)
Definition compaction_target v (i : N) : N :=
  if i =? Storage.v_decided v then decided_entries v else i.

Lemma compaction_target_bounds v i :
  view_ok v → i ≤ Storage.v_decided v → compaction_target v i ≤ decided_entries v.
Proof.
  intros [] Hi. unfold compaction_target, decided_entries, log_end in *.
  destruct (N.eqb_spec i (Storage.v_decided v)); [lia|]. destruct (Storage.v_stopsign v); lia.
Qed.

Lemma returns_target i s (Q : StorageResult N → InternalStorage.t I T → Prop) :
  let v := view_of s in
  (Storage.v_decided v < i → Q (Err (CompactionError (UndecidedIndex (Storage.v_decided v)))) s) →
  (i ≤ Storage.v_decided v → Q (Ok (compaction_target v i)) s) →
  returns (match i ?= Storage.v_decided v with
           | Lt => ret (Ok i)
           | Eq => ret (Ok (decided_entries v))
           | Gt => ret (Err (CompactionError (UndecidedIndex (Storage.v_decided v))))
           end) s Q.
Proof.
  intros v HErr HOk. unfold compaction_target in HOk.
  destruct (N.compare_spec i (Storage.v_decided v)) as [->|Hlt|Hgt]; wp.
  - rewrite N.eqb_refl in HOk. by apply HOk.
  - rewrite (proj2 (N.eqb_neq _ _)) in HOk by lia. apply HOk. lia.
  - by apply HErr.
Qed.

(** What compacting to [k] does to the view. *)
Definition compacted_view v (k : N) : Storage.view T Sn :=
  v <| Storage.v_log ::= drop (N.to_nat (k - Storage.v_base v)) |>
    <| Storage.v_base := k |> <| Storage.v_compacted := k |>.

Lemma compacted_view_same v k :
  view_ok v → k = Storage.v_compacted v → compacted_view v k = v.
Proof.
  intros [Hb _ _ _] ->. unfold compacted_view. rewrite Hb, N.sub_diag. destruct v; cbn in *.
  by subst.
Qed.

(** The write shared by [try_trim] and [try_snapshot]. *)
Lemma returns_compact k (tail : list (StorageOp T Sn)) s :
  coherent s → Storage.v_base (view_of s) ≤ k ≤ decided_entries (view_of s) →
  tail = [] ∨ (∃ sn, tail = [SetSnapshot sn]) →
  returns (let? _ := zoom storage (Storage.write_atomically (Trim k :: SetCompactedIdx k :: tail)) in
           let* _ := set_cache StateCache.compacted_idx k in
           ret (Ok tt)) s (λ r s', coherent s' ∧
    view_of s' = if is_ok r then Storage.apply_ops (compacted_view (view_of s) k) tail
                 else view_of s).
Proof.
  intros [Hc Hv] Hk Htail. unfold set_cache. wp.
  assert (k ≤ Storage.v_end (view_of s)) by (unfold decided_entries in Hk; lia).
  pose proof (cached_compact _ _ k Hc ltac:(lia)) as Hc'.
  pose proof (view_ok_compact _ k Hv ltac:(lia) ltac:(lia)) as Hv'.
  apply (returns_write _ (Trim k :: SetCompactedIdx k :: tail)).
  { apply Storage.write_atomically_law. }
  { cbn. split_and!; [lia|done|]. by destruct Htail as [->|[sn ->]]. }
  intros [[]|e] w Hw; wp; cbn [is_ok] in *.
  - unfold coherent, view_of; cbn [storage state_cache]; cbn; rewrite Hw.
    destruct Htail as [->|[sn ->]]; cbn in *; (split; [split|]); try done;
      first [by apply (cached_snapshot _ _ sn Hc')|by apply (view_ok_snapshot _ sn Hv')].
  - unfold coherent, view_of. cbn. by rewrite Hw.
Qed.

(** Trimming.  An undecided index is refused, with the decided index in the error; otherwise
    the entries below the target, and only those, are dropped, together in the backend and the
    cache; a failed write changes neither, and trimming never moves backwards. *)
Theorem try_trim_spec (i : N) s :
  coherent s →
  returns (try_trim i) s (λ r s', coherent s' ∧
    let v := view_of s in
    if Storage.v_decided v <? i
    then r = Err (CompactionError (UndecidedIndex (Storage.v_decided v))) ∧ s' = s
    else view_of s' = if is_ok r
      then compacted_view v (N.max (Storage.v_compacted v) (compaction_target v i)) else v).
Proof.
  intros Hcoh. pose proof Hcoh as [Hc Hv]. set (v := view_of s) in *.
  unfold try_trim, get_decided_idx, get_compacted_idx. wp.
  apply returns_decided_without_stopsign; [done|]. wp. rewrite (cached_decided _ _ Hc).
  apply (returns_target i s); fold v; intros Hi; cbv iota; cbn zeta; decide_cmp; [done|].
  wp. rewrite (cached_compacted _ _ Hc). pose proof (compaction_target_bounds _ _ Hv Hi).
  destruct (N.ltb_spec (Storage.v_compacted v) (compaction_target v i)).
  - eapply returns_mono; [apply (returns_compact _ []); [done| |by left]|].
    { fold v. rewrite (base_compacted _ Hv). lia. }
    intros r s'. by rewrite N.max_r by lia.
  - wp. cbn [is_ok]. rewrite compacted_view_same; [done..|lia].
Qed.

(** *** Snapshots *)

Context `{!SnapshotLaws T Sn}.

(** The storage represents the replicated log [hist]: the entries that were compacted are in the
    snapshot, the others are in the log. *)
Definition represents (hist : list T) v : Prop :=
  Storage.v_base v ≤ len hist ∧
  Storage.v_log v = drop (N.to_nat (Storage.v_base v)) hist ∧
  match Storage.v_snapshot v with
  | Some sn => create (take (N.to_nat (Storage.v_base v)) hist) = Val sn
  | None => Storage.v_base v = 0
  end.

Lemma represents_end hist v : represents hist v → Storage.v_end v = len hist.
Proof. intros (Hb & Hlog & _). unfold Storage.v_end. rewrite Hlog, len_drop. lia. Qed.

Lemma take_slice {A} (l : list A) (i j : N) :
  i ≤ j →
  take (N.to_nat i) l ++ take (N.to_nat (j - i)) (drop (N.to_nat i) l) = take (N.to_nat j) l.
Proof.
  intros Hij. rewrite <-(take_drop (N.to_nat i) (take (N.to_nat j) l)) at 1.
  rewrite take_take, Nat.min_l by lia. f_equal. rewrite skipn_firstn_comm. f_equal. lia.
Qed.

(** The entries that [create_snapshot] summarises when it is asked for index [k]: those up to
    [k]; but if the log does not reach [k] the backend reads no entry, and what is left is
    the part that was compacted before. *)
Definition summarised (hist : list T) (k : N) v : list T :=
  take (N.to_nat (if k <=? Storage.v_end v then k else Storage.v_base v)) hist.

Lemma slice_beyond v from to : Storage.v_end v < to → Storage.slice v from to = [].
Proof. intros Hlt. unfold Storage.slice. by rewrite (proj2 (N.leb_gt _ _) Hlt), andb_false_r. Qed.

Lemma slice_summarised hist k v :
  represents hist v → Storage.v_base v ≤ k →
  take (N.to_nat (Storage.v_base v)) hist ++ Storage.slice v (Storage.v_base v) k =
  summarised hist k v.
Proof.
  intros (Hb & Hlog & Hsn) Hk. unfold summarised. destruct (N.leb_spec k (Storage.v_end v)).
  - rewrite slice_inside, N.sub_diag, drop_0, Hlog by lia. by apply take_slice.
  - by rewrite slice_beyond, app_nil_r.
Qed.

Lemma returns_create_summary k hist s (Q : StorageResult Sn → InternalStorage.t I T → Prop) :
  StateCache.compacted_idx (state_cache s) = Storage.v_base (view_of s) →
  represents hist (view_of s) → Storage.v_base (view_of s) ≤ k →
  (∀ sn, create (summarised hist k (view_of s)) = Val sn → Q (Ok sn) s) →
  (∀ e, Q (Err e) s) →
  returns (create_snapshot k) s Q.
Proof.
  intros Hc Hrep Hk HOk HErr. pose proof (slice_summarised _ _ _ Hrep Hk) as Hsum.
  unfold create_snapshot, get_compacted_idx. wp. rewrite Hc. set (v := view_of s) in *.
  decide_cmp. wp. apply returns_get_entries; [fold v; lia..|]. intros [es|e] Hes; [|by apply HErr].
  specialize (Hes _ eq_refl). fold v in Hes. subst es. wp.
  destruct (create_total (Storage.slice v (Storage.v_base v) k)) as [delta Hdelta].
  eapply returns_lift; [exact Hdelta|]. wp.
  apply (returns_read _ Storage.v_snapshot); [apply Storage.get_snapshot_law|].
  intros [o|e] Ho; [|by apply HErr]. rewrite (Ho _ eq_refl). fold v.
  destruct Hrep as (_ & _ & Hsn). destruct (Storage.v_snapshot v) as [old|]; wp.
  - destruct (create_total (summarised hist k v)) as [sn Hnew].
    eapply returns_lift; [|wp; by apply HOk].
    by rewrite (merge_create _ _ _ _ Hsn Hdelta), Hsum.
  - apply HOk. rewrite <-Hsum, <-Hdelta. by rewrite Hsn.
Qed.

(** [create_snapshot] makes the snapshot of the log up to its argument. *)
Lemma returns_create_snapshot k hist s (Q : StorageResult Sn → InternalStorage.t I T → Prop) :
  coherent s → represents hist (view_of s) →
  Storage.v_base (view_of s) ≤ k ≤ Storage.v_end (view_of s) →
  (∀ sn, create (take (N.to_nat k) hist) = Val sn → Q (Ok sn) s) →
  (∀ e, Q (Err e) s) →
  returns (create_snapshot k) s Q.
Proof.
  intros [Hc Hv] Hrep Hk HOk HErr. apply (returns_create_summary _ hist); [|done|lia| |done].
  - rewrite (cached_compacted _ _ Hc). symmetry. by apply base_compacted.
  - unfold summarised. by rewrite (proj2 (N.leb_le _ _)) by lia.
Qed.

(** The part of [try_snapshot] behind its checks. *)
Definition snapshot_to (k : N) : M (InternalStorage.t I T) (StorageResult unit) :=
  let? snapshot := create_snapshot k in
  let? _ := zoom storage (Storage.write_atomically
    [Trim k; SetCompactedIdx k; SetSnapshot (Some snapshot)]) in
  let* _ := set_cache StateCache.compacted_idx k in
  ret (Ok tt).

Lemma returns_snapshot_to k hist s :
  coherent s → represents hist (view_of s) →
  Storage.v_compacted (view_of s) ≤ k ≤ decided_entries (view_of s) →
  returns (snapshot_to k) s (λ r s', coherent s' ∧ represents hist (view_of s') ∧
    if is_ok r then Storage.v_compacted (view_of s') = k else view_of s' = view_of s).
Proof.
  intros Hcoh Hrep Hk. pose proof Hcoh as [Hc Hv]. set (v := view_of s) in *.
  pose proof (base_compacted _ Hv) as Hbase. pose proof Hk as Hk'. unfold decided_entries in Hk'.
  unfold snapshot_to. wp. apply (returns_create_snapshot _ hist); [done|done|fold v; lia|..].
  2:{ done. }
  intros sn Hsn. eapply returns_mono.
  { apply (returns_compact k [SetSnapshot (Some sn)]); [done|fold v; lia|by eauto]. }
  fold v. intros [[]|e] s' [Hcoh' Hview]; cbn [is_ok] in *; rewrite Hview; [|done].
  destruct Hrep as (Hb & Hlog & Hsnap). pose proof (represents_end hist v ltac:(done)) as Hend.
  split; [done|]. split; [|done]. split_and!; [cbn; lia|cbn|done].
  rewrite Hlog, drop_drop. f_equal. lia.
Qed.

(** C18.  Snapshots lose nothing.  If the snapshot and the log together represent a replicated
    log, they still do after [try_snapshot], whether it succeeds or fails; on success everything
    below the target is compacted; an undecided index is refused. *)
Theorem try_snapshot_represents (i : option N) hist s :
  coherent s → represents hist (view_of s) →
  let v := view_of s in
  let k := match i with Some i => compaction_target v i | None => decided_entries v end in
  returns (try_snapshot i) s (λ r s', coherent s' ∧ represents hist (view_of s') ∧
    if match i with Some i => Storage.v_decided v <? i | None => false end
    then r = Err (CompactionError (UndecidedIndex (Storage.v_decided v))) ∧ s' = s
    else if is_ok r then Storage.v_compacted (view_of s') = N.max (Storage.v_compacted v) k
    else view_of s' = v).
Proof.
  intros Hcoh Hrep v k. pose proof Hcoh as [Hc Hv]. fold v in Hc, Hv.
  unfold try_snapshot, get_decided_idx, get_compacted_idx. wp.
  apply returns_decided_without_stopsign; [done|]. wp. rewrite (cached_decided _ _ Hc). fold v.
  assert (Hmain : k ≤ decided_entries v →
    returns (if StateCache.compacted_idx (state_cache s) <? k then snapshot_to k else ret (Ok tt))
      s (λ r s', coherent s' ∧ represents hist (view_of s') ∧
        if is_ok r then Storage.v_compacted (view_of s') = N.max (Storage.v_compacted v) k
        else view_of s' = v)).
  { intros Hk. rewrite (cached_compacted _ _ Hc).
    destruct (N.ltb_spec (Storage.v_compacted v) k); wp.
    - eapply returns_mono; [apply (returns_snapshot_to k hist); [done..|fold v; lia]|]. fold v.
      intros r s' (? & ? & Hr). split_and!; [done..|]. destruct (is_ok r); [|done]. lia.
    - split_and!; [done..|]. cbn. fold v. lia. }
  destruct i as [i|]; [|wp; by apply Hmain].
  apply (returns_target i s); fold v; intros Hi; cbv iota; decide_cmp; [done|].
  wp. apply Hmain. by apply compaction_target_bounds.
Qed.

(** *** Synchronization with another server *)

(** The indices of a synchronization message fit the receiver: its entries start above what the
    receiver compacted and follow on what the receiver or the snapshot has, and the decided index
    is inside of the new log. *)
Definition sync_ok (decided : N) (sync : LogSync T Sn) v : Prop :=
  Storage.v_base v ≤ sync_idx sync ∧
  decided ≤ sync_idx sync + len (suffix sync) +
            match sync_stopsign sync with Some _ => 1 | None => 0 end ∧
  sync_idx sync + len (suffix sync) + 1 < usize_mod ∧
  match decided_snapshot sync with
  | Some _ => sync_idx sync ≤ decided
  | None => sync_idx sync ≤ Storage.v_end v ∧ Storage.v_compacted v ≤ decided
  end.

(** The index up to which the receiver makes the snapshot that a delta is merged into: the decided
    index of the message, without the receiver's own stop sign. *)
Definition delta_start (decided : N) v : N :=
  match Storage.v_stopsign v with
  | Some _ => if decided =? log_end v then decided - 1 else decided
  | None => decided
  end.

(** The entries [pre] that stand before the suffix of the message in the receiver's new log: the
    receiver's own, those of a complete snapshot, or, for a delta, those the receiver summarises
    at the new decided index followed by those of the delta. *)
Definition sync_prefix (hist : list T) (decided : N) (sync : LogSync T Sn) v (pre : list T) : Prop :=
  match decided_snapshot sync with
  | None => pre = take (N.to_nat (sync_idx sync)) hist
  | Some (Complete c) => create pre = Val c
  | Some (Delta d) => ∃ new, create new = Val d ∧
      pre = summarised hist (delta_start decided v) v ++ new
  end.

(** A delta becomes the complete snapshot [m] it is merged to. *)
Definition resolved (m : Sn) (sync : LogSync T Sn) : LogSync T Sn :=
  {| decided_snapshot := match decided_snapshot sync with
                         | Some (Delta _) => Some (Complete m)
                         | snapshot => snapshot
                         end;
     suffix := suffix sync; sync_idx := sync_idx sync; sync_stopsign := sync_stopsign sync |}.

(** The writes of [sync_log] for such a message, and the view they lead to. *)
Definition sync_ops (round : Ballot.t) (decided : N) (sync : LogSync T Sn)
    (stopsign : option StopSign) : list (StorageOp T Sn) :=
  [SetAcceptedRound round; SetDecidedIndex decided] ++
  match decided_snapshot sync with
  | Some (Complete c) => [Trim (sync_idx sync); SetCompactedIdx (sync_idx sync); SetSnapshot (Some c)]
  | _ => []
  end ++ [AppendOnPrefix (sync_idx sync) (suffix sync)] ++
  match sync_stopsign sync, stopsign with
  | Some ss, _ => [SetStopsign (Some ss)]
  | None, Some _ => [SetStopsign None]
  | None, None => []
  end.

Definition synced_view (round : Ballot.t) (decided : N) (sync : LogSync T Sn) v :
    Storage.view T Sn :=
  Storage.apply_ops v (sync_ops round decided sync (Storage.v_stopsign v)).

#[local] Arguments synced_view : simpl never.

Lemma synced_view_fields round decided sync v :
  let v' := synced_view round decided sync v in
  Storage.v_promise v' = Storage.v_promise v ∧
  Storage.v_accepted_round v' = Some round ∧ Storage.v_decided v' = decided ∧
  Storage.v_stopsign v' = sync_stopsign sync ∧
  match decided_snapshot sync with
  | Some (Complete c) =>
      Storage.v_base v' = sync_idx sync ∧ Storage.v_compacted v' = sync_idx sync ∧
      Storage.v_snapshot v' = Some c ∧ Storage.v_log v' = suffix sync
  | _ => Storage.v_base v' = Storage.v_base v ∧ Storage.v_compacted v' = Storage.v_compacted v ∧
      Storage.v_snapshot v' = Storage.v_snapshot v ∧
      Storage.v_log v' =
        take (N.to_nat (sync_idx sync - Storage.v_base v)) (Storage.v_log v) ++ suffix sync
  end.
Proof.
  unfold synced_view, sync_ops. destruct sync as [[[c|d]|] sfx idx [ss|]], v as [????? ? [old|] ?];
    cbn; rewrite ?N.sub_diag; cbn; done.
Qed.

Lemma sync_ops_pre round decided sync m v :
  sync_ok decided sync v →
  Storage.ops_pre v (sync_ops round decided (resolved m sync) (Storage.v_stopsign v)).
Proof.
  intros (Hlo & _ & _ & Hsnap). unfold Storage.v_end in Hsnap. unfold sync_ops.
  destruct sync as [[[c|d]|] sfx idx ss]; cbn in *; unfold Storage.v_end; cbn;
    split_and!; try done; try lia; destruct ss, (Storage.v_stopsign v); done.
Qed.

Lemma synced_view_ok round decided sync m v :
  view_ok v → sync_ok decided sync v →
  view_ok (synced_view round decided (resolved m sync) v) ∧
  Storage.v_end (synced_view round decided (resolved m sync) v) = sync_idx sync + len (suffix sync).
Proof.
  intros Hv (Hlo & Hdec & Hfits & Hsnap). pose proof (base_compacted _ Hv) as Hbase.
  destruct (synced_view_fields round decided (resolved m sync) v) as (_ & _ & Ed & Ess & Hrest).
  set (w := synced_view _ _ _ v) in *. clearbody w. cbn in Ess, Hrest.
  assert (Hend : Storage.v_end w = sync_idx sync + len (suffix sync)).
  { unfold Storage.v_end in *.
    destruct (decided_snapshot sync) as [[c|d]|]; destruct Hrest as (-> & _ & _ & ->);
      autorewrite with len; lia. }
  split; [|done].
  constructor; unfold log_end; rewrite ?Hend, ?Ed, ?Ess;
    destruct (decided_snapshot sync) as [[c|d]|]; destruct Hrest as (Eb & Ec & _ & _);
    destruct (sync_stopsign sync); lia.
Qed.

(** The transaction of [sync_log], run with the cache already set. *)
Lemma returns_sync_write round decided sync m s s1 :
  view_ok (view_of s) → sync_ok decided sync (view_of s) → storage s1 = storage s →
  cached (state_cache s1) (synced_view round decided (resolved m sync) (view_of s)) →
  returns (zoom storage (Storage.write_atomically
             (sync_ops round decided (resolved m sync) (Storage.v_stopsign (view_of s))))) s1
    (λ r s', match r with
     | Ok _ => coherent s' ∧ view_of s' = synced_view round decided (resolved m sync) (view_of s) ∧
        StateCache.accepted_idx (state_cache s') = log_end (view_of s')
     | Err _ => view_of s' = view_of s
     end).
Proof.
  intros Hv Hsync Hs1 Hc1. pose proof (sync_ops_pre round _ _ m _ Hsync) as Hpre.
  destruct (synced_view_ok round _ _ m _ Hv Hsync) as [Hv' _].
  assert (Hvs : view_of s1 = view_of s) by (unfold view_of; by rewrite Hs1).
  eapply returns_write; [apply Storage.write_atomically_law|by rewrite Hvs|]. rewrite Hvs.
  fold (synced_view round decided (resolved m sync) (view_of s)).
  intros [[]|e] w Hw; cbn [is_ok] in Hw; [|exact Hw].
  unfold coherent, view_of. cbn. rewrite Hw. split_and!; try done. by apply cached_accepted.
Qed.

(** The cache that [sync_log] sets is the one of the new log. *)
Lemma sync_cached round decided sync m v c0 c :
  cached c0 v → view_ok v → sync_ok decided sync v →
  StateCache.promise c = StateCache.promise c0 →
  StateCache.accepted_round c = round → StateCache.decided_idx c = decided →
  StateCache.compacted_idx c =
    Storage.v_compacted (synced_view round decided (resolved m sync) v) →
  StateCache.stopsign c = sync_stopsign sync →
  StateCache.accepted_idx c = sync_idx sync + len (suffix sync) +
    match sync_stopsign sync with Some _ => 1 | None => 0 end →
  cached c (synced_view round decided (resolved m sync) v).
Proof.
  intros Hc Hv Hok E1 E2 E3 E4 E5 E6. destruct (synced_view_ok round _ _ m _ Hv Hok) as [_ Hend].
  destruct (synced_view_fields round decided (resolved m sync) v) as (Ep & Er & Ed & Ess & _).
  constructor; unfold log_end;
    rewrite ?E1, ?E2, ?E3, ?E4, ?E5, ?E6, ?Ep, ?Er, ?Ed, ?Ess, ?Hend; try done.
  by apply cached_promise.
Qed.

(** The snapshot a delta is merged into is made when the new decided index is in the cache. *)
Lemma returns_delta_snapshot round decided hist new d s :
  coherent s → represents hist (view_of s) → Storage.v_base (view_of s) ≤ decided →
  create new = Val d →
  let s1 := s <| state_cache ::= λ c, c <| StateCache.accepted_round := round |> |>
              <| state_cache ::= λ c, c <| StateCache.decided_idx := decided |> |> in
  returns create_decided_snapshot s1 (λ r s', s' = s1 ∧ ∀ sn, r = Ok sn → ∃ m, merge sn d = Val m ∧
    create (summarised hist (delta_start decided (view_of s)) (view_of s) ++ new) = Val m).
Proof.
  intros [Hc Hv] Hrep Hbase Hnew s1. set (v := view_of s) in *. set (k := delta_start decided v).
  assert (Hk : Storage.v_base v ≤ k).
  { assert (Storage.v_base v ≤ Storage.v_end v) by (unfold Storage.v_end; lia).
    unfold k, delta_start, log_end. destruct (Storage.v_stopsign v); [|done].
    destruct (N.eqb_spec decided (Storage.v_end v + 1)); lia. }
  assert (Hcreate : returns (create_snapshot k) s1 (λ r s', s' = s1 ∧ ∀ sn, r = Ok sn →
    ∃ m, merge sn d = Val m ∧ create (summarised hist k v ++ new) = Val m)).
  { apply (returns_create_summary _ hist); [|done..| |done].
    - etrans; [apply (cached_compacted _ _ Hc)|symmetry; by apply base_compacted].
    - intros sn Hsn. split; [done|]. intros ? [= <-].
      destruct (create_total (summarised hist k v ++ new)) as [m Hm].
      exists m. by rewrite (merge_create _ _ _ _ Hsn Hnew). }
  unfold create_decided_snapshot, get_decided_idx_without_stopsign, stopsign_is_decided,
    get_decided_idx. wp. unfold StateCache.stopsign_is_decided. cbn.
  rewrite (cached_stopsign _ _ Hc), (cached_accepted _ _ Hc).
  assert (Ek : k = if bool_decide (is_Some (Storage.v_stopsign v)) && (decided =? log_end v)
                   then decided - 1 else decided).
  { unfold k, delta_start. by destruct (Storage.v_stopsign v). }
  destruct (bool_decide (is_Some (Storage.v_stopsign v)) && (decided =? log_end v)) eqn:E.
  - apply andb_true_iff in E as [[ss Ess]%bool_decide_eq_true_1 ->%N.eqb_eq].
    eapply returns_lift; [apply wsub_exact|by rewrite <-Ek].
    pose proof (end_fits _ Hv). unfold log_end in *. rewrite Ess in *. lia.
  - wp. by rewrite <-Ek.
Qed.

Lemma synced_view_compacted round decided sync m v :
  Storage.v_compacted (synced_view round decided (resolved m sync) v) =
  match decided_snapshot sync with
  | Some _ => sync_idx sync
  | None => Storage.v_compacted v
  end.
Proof.
  destruct (synced_view_fields round decided (resolved m sync) v) as (_ & _ & _ & _ & Hrest).
  cbn in Hrest. by destruct (decided_snapshot sync) as [[c|d]|]; destruct Hrest as (_ & ? & _).
Qed.

(** The view and the cache that [sync_log] leads to. *)
Lemma sync_log_spec round decided sync hist pre s :
  coherent s → represents hist (view_of s) → sync_ok decided sync (view_of s) →
  sync_prefix hist decided sync (view_of s) pre →
  returns (sync_log round decided (Some sync)) s (λ r s',
    match r with
    | Ok idx => coherent s' ∧ idx = log_end (view_of s') ∧ ∃ m,
        view_of s' = synced_view round decided (resolved m sync) (view_of s) ∧
        match decided_snapshot sync with
        | Some (Delta _) => create pre = Val m
        | _ => True
        end
    | Err _ => view_of s' = view_of s
    end).
Proof.
  intros [Hc Hv] Hrep Hok Hpre. unfold sync_prefix in Hpre.
  pose proof (λ m s1, returns_sync_write round decided sync m s s1 Hv Hok) as Hwrite.
  pose proof (λ m c, sync_cached round _ _ m _ _ c Hc Hv Hok) as Hcache.
  setoid_rewrite synced_view_compacted in Hcache.
  pose proof (λ new d, returns_delta_snapshot round decided hist new d s (conj Hc Hv) Hrep) as Hdelta.
  destruct Hok as (Hlo & _ & Hfits & Hsnap). pose proof (cached_stopsign _ _ Hc) as Hss.
  destruct (create_total []) as [m0 _]. set (v := view_of s) in *.
  unfold sync_log, set_cache, get_stopsign, get_accepted_idx. unfold resolved, sync_ops in *.
  cbn [decided_snapshot sync_idx suffix sync_stopsign] in *.
  destruct (decided_snapshot sync) as [[cs|d]|]; wp.
  2: destruct Hpre as (new & Hnew & ->); eapply returns_mono; [apply (Hdelta new d); [lia|done]|];
    intros [sn|e] s1 [-> Hm]; [|done]; destruct (Hm _ eq_refl) as (m & Hmerge & Hcreate); wp;
    eapply returns_lift; [exact Hmerge|]; wp; clear m0 Hm Hmerge; rename m into m0.
  all: specialize (Hwrite m0); specialize (Hcache m0); clear Hdelta;
    destruct s as [st c]; cbn [storage state_cache] in *; clearbody v.
  all: destruct (sync_stopsign sync) as [ss|]; wp;
    (eapply returns_lift; [by apply wadd_exact; lia|]); wp;
    try (eapply returns_lift; [by apply wadd_exact; cbn; lia|]; wp);
    cbn; rewrite ?Hss; try destruct (Storage.v_stopsign v) as [old|] eqn:Eold; cbn; wp.
  all: eapply returns_mono; [apply Hwrite; [done|]|].
  all: try (apply Hcache; cbn; rewrite ?Hss; try done; try lia; try apply (cached_compacted _ _ Hc)).
  all: intros [[]|e] w Hw; [|done]; destruct Hw as (? & ? & ?); split_and!; [done..|by exists m0].
Qed.

(** A snapshot with the entries behind it, and a prefix of the log with entries behind it. *)
Lemma represents_snapshot pre es m v :
  Storage.v_base v = len pre → Storage.v_log v = es → Storage.v_snapshot v = Some m →
  create pre = Val m → represents (pre ++ es) v.
Proof.
  intros Hb Hl Hs Hm. unfold represents. rewrite Hb, Hl, Hs. unfold len. rewrite Nat2N.id.
  split_and!; [rewrite length_app; lia|by rewrite drop_app_length|by rewrite take_app_length].
Qed.

Lemma represents_prefix hist es i v w :
  represents hist v → Storage.v_base v ≤ i ≤ Storage.v_end v →
  Storage.v_base w = Storage.v_base v → Storage.v_snapshot w = Storage.v_snapshot v →
  Storage.v_log w = take (N.to_nat (i - Storage.v_base v)) (Storage.v_log v) ++ es →
  represents (take (N.to_nat i) hist ++ es) w.
Proof.
  intros Hrep Hi Hb Hs Hl. pose proof (represents_end _ _ Hrep) as Hend.
  destruct Hrep as (Hle & Hlog & Hsn). unfold represents. rewrite Hb, Hs, Hl, Hlog.
  assert (Hlen : N.to_nat i = length (take (N.to_nat i) hist)).
  { rewrite length_take. unfold len in Hend. lia. }
  split_and!; [rewrite len_app, len_take; lia| |].
  - rewrite skipn_app, firstn_skipn_comm. rewrite <-Hlen.
    replace (N.to_nat (Storage.v_base v) - N.to_nat i)%nat with 0%nat by lia. rewrite drop_0.
    by replace (N.to_nat (Storage.v_base v) + N.to_nat (i - Storage.v_base v))%nat
      with (N.to_nat i) by lia.
  - destruct (Storage.v_snapshot v); [|done].
    by rewrite take_app_le, take_take, Nat.min_l by lia.
Qed.

(** C16.  Synchronization, for every message whose indices fit the receiver.  Let [pre] be the
    entries that stand before the suffix of the message: the receiver's own ones, those of a
    complete snapshot, or, for a delta, those of the delta behind what the receiver summarises at
    the new decided index: everything below that index if it has all of it, and otherwise only
    what it had compacted before.  After [sync_log] a snapshot of the message, complete or merged,
    is the snapshot of [pre], and the log is the suffix; and if [pre] reaches exactly to the index
    at which the suffix starts, the storage represents [pre] and the suffix behind it, so that
    whatever the message contradicts is gone.  (A delta that starts at a decided entry which the
    receiver has not compacted does not reach there: those entries are lost,
    [delta_sync_loses_decided_entries].)  The cache agrees with the backend; stop sign, decided
    index and round are those of the message; the promise is kept; the index returned is the end of
    the new log.  When [sync_log] fails, the backend is as it was. *)
Theorem sync_log_adopts_log (round : Ballot.t) (decided : N) (sync : LogSync T Sn) hist pre s :
  coherent s → represents hist (view_of s) → sync_ok decided sync (view_of s) →
  sync_prefix hist decided sync (view_of s) pre →
  returns (sync_log round decided (Some sync)) s (λ r s',
    match r with
    | Ok idx => coherent s' ∧
        (len pre = sync_idx sync → represents (pre ++ suffix sync) (view_of s')) ∧
        match decided_snapshot sync with
        | None => len pre = sync_idx sync
        | Some _ => Storage.v_base (view_of s') = sync_idx sync ∧
            Storage.v_log (view_of s') = suffix sync ∧
            ∃ m, Storage.v_snapshot (view_of s') = Some m ∧ create pre = Val m
        end ∧
        Storage.v_stopsign (view_of s') = sync_stopsign sync ∧
        Storage.v_decided (view_of s') = decided ∧
        Storage.v_accepted_round (view_of s') = Some round ∧
        Storage.v_promise (view_of s') = Storage.v_promise (view_of s) ∧
        idx = log_end (view_of s')
    | Err _ => view_of s' = view_of s
    end).
Proof.
  intros Hcoh Hrep Hok Hpre.
  eapply returns_mono; [by apply (sync_log_spec round decided sync hist pre)|].
  intros [idx|e] s'; [|done]. intros (Hcoh' & -> & m & Hw & Hm).
  destruct (synced_view_fields round decided (resolved m sync) (view_of s))
    as (Ep & Er & Ed & Ess & Hrest).
  rewrite <-Hw in *. cbn in Ess, Hrest. pose proof (represents_end _ _ Hrep) as Hend.
  destruct Hok as (Hlo & _ & _ & Hsnap). unfold sync_prefix in Hpre.
  destruct (decided_snapshot sync) as [[c|d]|].
  - destruct Hrest as (Eb & _ & Es & El). split_and!; [done| |done|done|by eauto|done..].
    intros Hlen. by apply (represents_snapshot _ _ c); [congruence|..].
  - destruct Hrest as (Eb & _ & Es & El). split_and!; [done| |done|done|by eauto|done..].
    intros Hlen. by apply (represents_snapshot _ _ m); [congruence|..].
  - destruct Hrest as (Eb & _ & Es & El). destruct Hsnap as [Hhi _]. subst pre.
    split_and!; [done| |rewrite len_take; lia|done..].
    intros _. by apply (represents_prefix _ _ _ (view_of s)).
Qed.
End compaction.

(** ** The state values *)

Section state_values.
Context {T Sn I : Type} `{Build, Snapshot T Sn, !Storage.t T Sn I, !Storage.Laws T Sn I}.
Import InternalStorage.
Implicit Types s : InternalStorage.t I T.

(** The cache is set before the backend: after a failed write it is ahead of the backend. *)
Lemma set_promise_spec (b : Ballot.t) s :
  coherent s →
  returns (set_promise b) s (λ r s',
    StateCache.promise (state_cache s') = b ∧
    if is_ok r then coherent s' ∧ view_of s' = Storage.apply_op (view_of s) (SetPromise b)
    else view_of s' = view_of s).
Proof.
  intros [Hc Hv]. unfold set_promise, set_cache. wp.
  apply (returns_write _ [SetPromise b]); [apply Storage.set_promise_law|done|].
  intros [[]|e] w Hw; cbn in *; (split; [done|]); [|done].
  unfold coherent, view_of. cbn. rewrite Hw. split; [|done].
  split; [apply (cached_ballots _ _ Hc b)|destruct Hv; by constructor].
Qed.

Lemma set_decided_idx_spec (i : N) s :
  coherent s → Storage.v_compacted (view_of s) ≤ i ≤ log_end (view_of s) →
  returns (set_decided_idx i) s (λ r s',
    StateCache.decided_idx (state_cache s') = i ∧
    if is_ok r then coherent s' ∧ view_of s' = Storage.apply_op (view_of s) (SetDecidedIndex i)
    else view_of s' = view_of s).
Proof.
  intros [Hc Hv] Hi. unfold set_decided_idx, set_cache. wp.
  apply (returns_write _ [SetDecidedIndex i]); [apply Storage.set_decided_idx_law|done|].
  intros [[]|e] w Hw; cbn in *; (split; [done|]); [|done].
  unfold coherent, view_of. cbn. rewrite Hw. split; [|done].
  split; [by apply (cached_set_decided _ _ i Hc)|]. destruct Hv, Hi. by constructor.
Qed.

(** A stop sign is counted in the accepted index exactly while it is stored, however
    often it is set, replaced or removed; the entries of the log are not touched. *)
Theorem set_stopsign_counts_once (ss : option StopSign) s :
  coherent s → Storage.v_decided (view_of s) ≤ Storage.v_end (view_of s) →
  Storage.v_end (view_of s) + 1 < usize_mod →
  returns (set_stopsign ss) s (λ r s',
    match r with
    | Ok idx => coherent s' ∧ view_of s' = Storage.apply_op (view_of s) (SetStopsign ss) ∧
                idx = Storage.v_end (view_of s) + match ss with Some _ => 1 | None => 0 end
    | Err _ => view_of s' = view_of s
    end).
Proof.
  intros [Hc Hv] Hdec Hfits.
  assert (Hwrite : ∀ s1, storage s1 = storage s →
    cached (state_cache s1) (Storage.apply_op (view_of s) (SetStopsign ss)) →
    returns (zoom storage (Storage.set_stopsign ss)) s1 (λ r s', match r with
      | Ok _ => coherent s' ∧ view_of s' = Storage.apply_op (view_of s) (SetStopsign ss) ∧
                StateCache.accepted_idx (state_cache s') =
                  Storage.v_end (view_of s) + match ss with Some _ => 1 | None => 0 end
      | Err _ => view_of s' = view_of s
      end)).
  { intros s1 Hs1 Hc1. apply (returns_write _ [SetStopsign ss]);
      [apply Storage.set_stopsign_law|done|].
    unfold view_of at 1 2. rewrite Hs1. fold (view_of s).
    intros [[]|e] w Hw; cbn [is_ok] in Hw; [|exact Hw].
    unfold coherent, view_of. cbn [storage state_cache]. cbn. rewrite Hw.
    split_and!; [done| |done|by rewrite (cached_accepted _ _ Hc1)].
    pose proof Hv as []. constructor; cbn; try done;
      unfold log_end, Storage.v_end, view_of in *; cbn in *; destruct ss; lia. }
  unfold set_stopsign, set_cache, get_stopsign, get_accepted_idx. wp.
  pose proof Hc as [? ? ? ? Hss Hacc]. rewrite Hss. unfold log_end in Hacc.
  destruct s as [st c]. cbn [storage state_cache] in *. revert Hacc.
  set (v := view_of _) in *. intros Hacc.
  destruct ss as [ss|], (Storage.v_stopsign v) as [old|]; cbn; wp;
    try (eapply returns_lift; [first [apply wadd_exact|apply wsub_exact]; cbn; lia|]; wp);
    (eapply returns_mono; [apply Hwrite; [done|]|by intros [[]|e]]);
    constructor; cbn; try done; unfold log_end, Storage.v_end in *; cbn; lia.
Qed.
End state_values.
