(* ===== verification/PersistentStorage.v ===== *)
(** * The persistent storage backend
    (crates/custom-paxos/omnipaxos_storage/src/persistent_storage.rs)

    [PersistentStorage.t] is the struct over a RocksDB database: the column family [log] holds one
    entry per index, under the index as eight bytes in big-endian order, and the default column
    family holds the other values.  RocksDB, bincode and zerocopy are interfaces with what their
    documentation promises.  [represents] relates the struct to the abstract state of a backend. *)

From S2P Require Import Prelude Util Codecs Ballots StorageApi.

(** ** Big-endian keys *)

Fixpoint be_bytes (w : nat) (n : N) : list N :=
  match w with O => [] | S w => (n / 256 ^ N.of_nat w) mod 256 :: be_bytes w n end.
(** [usize::to_be_bytes] and [usize::from_be_bytes] *)
Definition to_be_bytes (n : N) : list N := be_bytes 8 n.
Definition from_be_bytes (l : list N) : N := foldl (λ acc b, acc * 256 + b) 0 l.

(** The order of keys in RocksDB: bytewise. *)
Fixpoint bytes_ltb (a b : list N) : bool :=
  match a, b with
  | _, [] => false
  | [], _ :: _ => true
  | x :: a, y :: b => (x <? y) || ((x =? y) && bytes_ltb a b)
  end.

Lemma be_bytes_mod w n :
  n mod 256 ^ N.of_nat (S w) =
  (n / 256 ^ N.of_nat w) mod 256 * 256 ^ N.of_nat w + n mod 256 ^ N.of_nat w.
Proof.
  rewrite Nat2N.inj_succ, N.pow_succ_r', (N.mul_comm 256), N.Div0.mod_mul_r. lia.
Qed.

Lemma be_bytes_lt w a b :
  bytes_ltb (be_bytes w a) (be_bytes w b) = (a mod 256 ^ N.of_nat w <? b mod 256 ^ N.of_nat w).
Proof.
  induction w as [|w IH]; [cbn; by rewrite !N.mod_1_r|]. cbn [be_bytes bytes_ltb].
  rewrite IH, (be_bytes_mod w a), (be_bytes_mod w b).
  set (p := 256 ^ N.of_nat w). assert (Hp : p ≠ 0) by (by apply N.pow_nonzero).
  pose proof (N.mod_upper_bound a p Hp). pose proof (N.mod_upper_bound b p Hp).
  set (x := (a / p) mod 256). set (y := (b / p) mod 256).
  set (u := a mod p) in *. set (v := b mod p) in *. clearbody x y u v p.
  destruct (N.ltb_spec x y) as [Hxy|Hxy]; cbn [orb].
  - symmetry. apply N.ltb_lt. nia.
  - destruct (N.eqb_spec x y) as [->|Hne]; cbn [andb].
    + destruct (N.ltb_spec u v), (N.ltb_spec (y * p + u) (y * p + v)); lia || done.
    + symmetry. apply N.ltb_ge. nia.
Qed.

Lemma be_bytes_from w n acc :
  foldl (λ acc b, acc * 256 + b) acc (be_bytes w n) =
  acc * 256 ^ N.of_nat w + n mod 256 ^ N.of_nat w.
Proof.
  revert acc. induction w as [|w IH]; intros acc; cbn [be_bytes foldl].
  - cbn. rewrite N.mod_1_r. lia.
  - rewrite IH, be_bytes_mod, Nat2N.inj_succ, N.pow_succ_r'. lia.
Qed.

Lemma be_bytes_length w n : length (be_bytes w n) = w.
Proof. induction w; cbn; congruence. Qed.

(** Keys are ordered as the indices they encode, and decode to them. *)
Lemma key_lt a b : a < usize_mod → b < usize_mod →
  bytes_ltb (to_be_bytes a) (to_be_bytes b) = (a <? b).
Proof.
  intros Ha Hb. unfold to_be_bytes. rewrite be_bytes_lt. change (256 ^ N.of_nat 8) with usize_mod.
  by rewrite !N.mod_small.
Qed.
Lemma key_roundtrip a : a < usize_mod → from_be_bytes (to_be_bytes a) = a.
Proof.
  intros Ha. unfold from_be_bytes, to_be_bytes. rewrite be_bytes_from.
  change (256 ^ N.of_nat 8) with usize_mod. by rewrite N.mod_small.
Qed.
Lemma key_inj a b : a < usize_mod → b < usize_mod → to_be_bytes a = to_be_bytes b → a = b.
Proof. intros Ha Hb E. by rewrite <-(key_roundtrip a), E, key_roundtrip. Qed.

(** ** The libraries *)

(** The byte views of zerocopy *)
Class UsizeBytes (Bytes : Type) : Type := {
  as_bytes : N → Bytes;
  read_from : Bytes → option N
}.
Class UsizeBytesLaws (Bytes : Type) `{UsizeBytes Bytes} : Prop :=
  read_as_bytes n : n < usize_mod → read_from (as_bytes n) = Some n.

(** RocksDB: single operations, batches, and raw iterators over the column family [log]. *)
Inductive db_op (Bytes : Type) : Type :=
  | PutCf (key : list N) (value : Bytes)
  | DeleteRangeCf (from_key to_key : list N)
  | Put (name : string) (value : Bytes).
#[global] Arguments PutCf {Bytes}.
#[global] Arguments DeleteRangeCf {Bytes}.
#[global] Arguments Put {Bytes}.

Class RocksDB (D Bytes : Type) : Type := {
  db_write : list (db_op Bytes) → M D (result unit unit);
  db_single : db_op Bytes → M D (result unit unit);
  db_get : string → D → result (option Bytes) unit;
  iter_seek : list N → D → option (list N * Bytes);
  iter_next : list N → D → option (list N * Bytes);
  iter_seek_to_last : D → option (list N * Bytes)
}.

Record contents (Bytes : Type) : Type := mkContents {
  c_log : gmap (list N) Bytes;
  c_default : gmap string Bytes
}.
#[global] Arguments mkContents {Bytes}.
#[global] Arguments c_log {Bytes}.
#[global] Arguments c_default {Bytes}.

Definition in_range (from to key : list N) : bool := negb (bytes_ltb key from) && bytes_ltb key to.
Definition apply_db_op {Bytes} (c : contents Bytes) (op : db_op Bytes) : contents Bytes :=
  match op with
  | PutCf key v => mkContents (<[key := v]> (c_log c)) (c_default c)
  | DeleteRangeCf from to =>
      mkContents (filter (λ p, in_range from to p.1 = false) (c_log c)) (c_default c)
  | Put name v => mkContents (c_log c) (<[name := v]> (c_default c))
  end.

(** Writes are atomic; iterators follow the order of the keys. *)
Class RocksDBLaws (D Bytes : Type) `{RocksDB D Bytes} : Type := {
  db_contents : D → contents Bytes;
  db_write_law ops d : ∃ r d', db_write ops d = (Val r, d') ∧
    db_contents d' = if is_ok r then foldl apply_db_op (db_contents d) ops else db_contents d;
  db_single_law op d : ∃ r d', db_single op d = (Val r, d') ∧
    db_contents d' = if is_ok r then apply_db_op (db_contents d) op else db_contents d;
  db_get_law name d o : db_get name d = Ok o → o = c_default (db_contents d) !! name;
  iter_seek_law key d : match iter_seek key d with
    | Some (k, v) => c_log (db_contents d) !! k = Some v ∧ bytes_ltb k key = false ∧
        ∀ k', bytes_ltb k' key = false → bytes_ltb k' k = true → c_log (db_contents d) !! k' = None
    | None => ∀ k', bytes_ltb k' key = false → c_log (db_contents d) !! k' = None
    end;
  iter_next_law key d : match iter_next key d with
    | Some (k, v) => c_log (db_contents d) !! k = Some v ∧ bytes_ltb key k = true ∧
        ∀ k', bytes_ltb key k' = true → bytes_ltb k' k = true → c_log (db_contents d) !! k' = None
    | None => ∀ k', bytes_ltb key k' = true → c_log (db_contents d) !! k' = None
    end;
  iter_last_law d : match iter_seek_to_last d with
    | Some (k, v) => c_log (db_contents d) !! k = Some v ∧
        ∀ k', bytes_ltb k k' = true → c_log (db_contents d) !! k' = None
    | None => c_log (db_contents d) = ∅
    end
}.

(** ** The storage *)

Module PersistentStorage.

Record t (D Bytes : Type) : Type := mk {
  db : D;
  write_batch : list (db_op Bytes);
  next_log_key : N
}.
#[global] Arguments mk {D Bytes}.
#[global] Arguments db {D Bytes}.
#[global] Arguments write_batch {D Bytes}.
#[global] Arguments next_log_key {D Bytes}.
#[global] Instance settable_db {D Bytes} : Settable (@db D Bytes) := λ f r,
  mk (f (db r)) (write_batch r) (next_log_key r).
#[global] Instance settable_write_batch {D Bytes} : Settable (@write_batch D Bytes) := λ f r,
  mk (db r) (f (write_batch r)) (next_log_key r).
#[global] Instance settable_next_log_key {D Bytes} : Settable (@next_log_key D Bytes) := λ f r,
  mk (db r) (write_batch r) (f (next_log_key r)).

Definition NPROM : string := "NPROM".
Definition ACC : string := "ACC".
Definition DECIDE : string := "DECIDE".
Definition TRIM : string := "TRIM".
Definition STOPSIGN : string := "STOPSIGN".
Definition SNAPSHOT : string := "SNAPSHOT".

Section ops.
Context {T Sn D Bytes : Type} `{Build, RocksDB D Bytes, UsizeBytes Bytes, Bincode T Bytes,
  Bincode Ballot.t Bytes, Bincode (option StopSign) Bytes, Bincode (option Sn) Bytes}.
Abbreviation Self := (t D Bytes).

(** The [?] operator on the errors of the libraries, which are boxed. *)
Definition boxed {A} (r : result A unit) : StorageResult A :=
  match r with Ok a => Ok a | Err _ => Err BackendError end.
Definition call {A} (r : result A unit) : M Self (StorageResult A) := ret (boxed r).

(** [PersistentStorage::open], on the database that RocksDB has opened. *)
Definition open (d : D) : outcome Self :=
  let next :=
    match iter_seek_to_last d with
    | Some (key, _) =>
        if len key =? 8 then wadd usize_mod (from_be_bytes key) 1 else Panic AssertFailed
    | None =>
        match db_get TRIM d with
        | Err _ => Panic ExpectErr
        | Ok (Some bytes) => match read_from bytes with Some n => Val n | None => Panic UnwrapNone end
        | Ok None => Val 0
        end
    end in
  match next with
  | Val n => Val {| db := d; write_batch := []; next_log_key := n |}
  | Panic f => Panic f
  end.

(** *** Batches *)

Definition batch (op : db_op Bytes) : M Self unit :=
  modify (λ s, s <| write_batch ::= λ l, l ++ [op] |>).

Definition batch_append_entry (entry : T) : M Self (StorageResult unit) :=
  let* s := gets (λ s, s) in
  let? bytes := call (serialize entry) in
  let* _ := batch (PutCf (to_be_bytes (next_log_key s)) bytes) in
  let* n := lift (wadd usize_mod (next_log_key s) 1) in
  let* _ := modify (λ s, s <| next_log_key := n |>) in
  ret (Ok tt).

Fixpoint batch_append_entries (entries : list T) : M Self (StorageResult unit) :=
  match entries with
  | [] => ret (Ok tt)
  | entry :: entries => let? _ := batch_append_entry entry in batch_append_entries entries
  end.

Definition batch_append_on_prefix (from_idx : N) (entries : list T) : M Self (StorageResult unit) :=
  let* s := gets (λ s, s) in
  let* delete_idx := lift (wadd usize_mod from_idx (len entries)) in
  let* _ := when (delete_idx <? next_log_key s)
    (batch (DeleteRangeCf (to_be_bytes delete_idx) (to_be_bytes (next_log_key s)))) in
  let* _ := modify (λ s, s <| next_log_key := from_idx |>) in
  batch_append_entries entries.

Definition batch_put {A} `{Bincode A Bytes} (name : string) (a : A) : M Self (StorageResult unit) :=
  let? bytes := call (serialize a) in
  let* _ := batch (Put name bytes) in ret (Ok tt).
Definition batch_put_idx (name : string) (idx : N) : M Self (StorageResult unit) :=
  let* _ := batch (Put name (as_bytes idx)) in ret (Ok tt).

Definition batch_set_promise (n_prom : Ballot.t) : M Self (StorageResult unit) :=
  batch_put NPROM n_prom.
Definition batch_set_decided_idx (ld : N) : M Self (StorageResult unit) := batch_put_idx DECIDE ld.
Definition batch_set_accepted_round (na : Ballot.t) : M Self (StorageResult unit) := batch_put ACC na.
Definition batch_set_compacted_idx (trimmed_idx : N) : M Self (StorageResult unit) :=
  batch_put_idx TRIM trimmed_idx.
Definition batch_set_stopsign (ss : option StopSign) : M Self (StorageResult unit) :=
  batch_put STOPSIGN ss.
Definition batch_set_snapshot (snapshot : option Sn) : M Self (StorageResult unit) :=
  batch_put SNAPSHOT snapshot.

Definition batch_trim (trimmed_idx : N) : M Self (StorageResult unit) :=
  let* _ := batch (DeleteRangeCf (to_be_bytes 0) (to_be_bytes trimmed_idx)) in ret (Ok tt).

Definition batch_op (op : StorageOp T Sn) : M Self (StorageResult unit) :=
  match op with
  | AppendEntry entry => batch_append_entry entry
  | AppendEntries entries => batch_append_entries entries
  | AppendOnPrefix from_idx entries => batch_append_on_prefix from_idx entries
  | SetPromise bal => batch_set_promise bal
  | SetDecidedIndex idx => batch_set_decided_idx idx
  | SetAcceptedRound bal => batch_set_accepted_round bal
  | SetCompactedIdx idx => batch_set_compacted_idx idx
  | Trim idx => batch_trim idx
  | SetStopsign ss => batch_set_stopsign ss
  | SetSnapshot snap => batch_set_snapshot snap
  end.

Fixpoint batch_ops (ops : list (StorageOp T Sn)) : M Self (StorageResult unit) :=
  match ops with
  | [] => ret (Ok tt)
  | op :: ops => let? _ := batch_op op in batch_ops ops
  end.

(** [mem::take] empties the batch before RocksDB has written it. *)
Definition write_atomically (ops : list (StorageOp T Sn)) : M Self (StorageResult unit) :=
  let? _ := batch_ops ops in
  let* s := gets (λ s, s) in
  let* _ := modify (λ s, s <| write_batch := [] |>) in
  let* r := zoom db (db_write (write_batch s)) in
  call r.

(** *** Single writes *)

Definition write_one (op : db_op Bytes) : M Self (StorageResult unit) :=
  let* r := zoom db (db_single op) in call r.

Definition append_entry (entry : T) : M Self (StorageResult unit) :=
  let* s := gets (λ s, s) in
  let? bytes := call (serialize entry) in
  let? _ := write_one (PutCf (to_be_bytes (next_log_key s)) bytes) in
  let* n := lift (wadd usize_mod (next_log_key s) 1) in
  let* _ := modify (λ s, s <| next_log_key := n |>) in
  ret (Ok tt).

(** The loop of [append_entries]; its batch is a local variable. *)
Fixpoint append_loop (entries : list T) (acc : list (db_op Bytes)) :
    M Self (StorageResult (list (db_op Bytes))) :=
  match entries with
  | [] => ret (Ok acc)
  | entry :: entries =>
      let* s := gets (λ s, s) in
      let? bytes := call (serialize entry) in
      let* n := lift (wadd usize_mod (next_log_key s) 1) in
      let* _ := modify (λ s, s <| next_log_key := n |>) in
      append_loop entries (acc ++ [PutCf (to_be_bytes (next_log_key s)) bytes])
  end.
Definition append_entries (entries : list T) : M Self (StorageResult unit) :=
  let? ops := append_loop entries [] in
  let* r := zoom db (db_write ops) in
  call r.

Definition append_on_prefix (from_idx : N) (entries : list T) : M Self (StorageResult unit) :=
  let* s := gets (λ s, s) in
  let* delete_idx := lift (wadd usize_mod from_idx (len entries)) in
  let? _ := (if delete_idx <? next_log_key s
             then write_one (DeleteRangeCf (to_be_bytes delete_idx) (to_be_bytes (next_log_key s)))
             else ret (Ok tt)) in
  let* _ := modify (λ s, s <| next_log_key := from_idx |>) in
  append_entries entries.

Definition put {A} `{Bincode A Bytes} (name : string) (a : A) : M Self (StorageResult unit) :=
  let? bytes := call (serialize a) in write_one (Put name bytes).
Definition put_idx (name : string) (idx : N) : M Self (StorageResult unit) :=
  write_one (Put name (as_bytes idx)).
Definition set_promise (n_prom : Ballot.t) : M Self (StorageResult unit) := put NPROM n_prom.
Definition set_decided_idx (ld : N) : M Self (StorageResult unit) := put_idx DECIDE ld.
Definition set_accepted_round (na : Ballot.t) : M Self (StorageResult unit) := put ACC na.
Definition set_compacted_idx (idx : N) : M Self (StorageResult unit) := put_idx TRIM idx.
Definition set_stopsign (s : option StopSign) : M Self (StorageResult unit) := put STOPSIGN s.
Definition set_snapshot (snapshot : option Sn) : M Self (StorageResult unit) := put SNAPSHOT snapshot.
Definition trim (trimmed_idx : N) : M Self (StorageResult unit) :=
  write_one (DeleteRangeCf (to_be_bytes 0) (to_be_bytes trimmed_idx)).

(** *** Reads *)

(** The rest of the loop of [get_entries], with the iterator at [it]. *)
Fixpoint read_entries (n : nat) (it : option (list N * Bytes)) (d : D) : StorageResult (list T) :=
  match n with
  | O => Ok []
  | S n =>
      match it with
      | None => Err BackendError
      | Some (key, bytes) =>
          match deserialize bytes with
          | Err _ => Err BackendError
          | Ok entry =>
              match read_entries n (iter_next key d) d with
              | Ok entries => Ok (entry :: entries)
              | Err e => Err e
              end
          end
      end
  end.
Definition get_entries (from to : N) : M Self (StorageResult (list T)) :=
  let* s := gets (λ s, s) in
  if (next_log_key s <? to) || (to <=? from) then ret (Ok [])
  else ret (read_entries (N.to_nat (to - from)) (iter_seek (to_be_bytes from) (db s)) (db s)).

Definition get_suffix (from : N) : M Self (StorageResult (list T)) :=
  let* s := gets (λ s, s) in get_entries from (next_log_key s).

(** A stored value, or the default if there is none. *)
Definition get {A} `{Bincode A Bytes} (name : string) : M Self (StorageResult (option A)) :=
  let* s := gets (λ s, s) in
  let? found := call (db_get name (db s)) in
  match found with
  | Some bytes => let? a := call (deserialize bytes) in ret (Ok (Some a))
  | None => ret (Ok None)
  end.
Definition get_idx (name : string) : M Self (StorageResult N) :=
  let* s := gets (λ s, s) in
  let? found := call (db_get name (db s)) in
  match found with
  | Some bytes => ret (match read_from bytes with Some n => Ok n | None => Err BackendError end)
  | None => ret (Ok 0)
  end.
Definition get_promise : M Self (StorageResult (option Ballot.t)) := get NPROM.
Definition get_accepted_round : M Self (StorageResult (option Ballot.t)) := get ACC.
Definition get_decided_idx : M Self (StorageResult N) := get_idx DECIDE.
Definition get_compacted_idx : M Self (StorageResult N) := get_idx TRIM.
Definition get_stopsign : M Self (StorageResult (option StopSign)) :=
  let? found := get STOPSIGN in ret (Ok (mjoin found)).
Definition get_snapshot : M Self (StorageResult (option Sn)) :=
  let? found := get SNAPSHOT in ret (Ok (mjoin found)).

Definition get_log_len : M Self (StorageResult N) :=
  let* s := gets (λ s, s) in
  let? compacted := get_compacted_idx in
  let* n := lift (wsub usize_mod (next_log_key s) compacted) in
  ret (Ok n).
End ops.
End PersistentStorage.

(** ** The abstract state *)

Section refinement.
Context {T Sn D Bytes : Type} `{Build, RocksDB D Bytes, UsizeBytes Bytes, Bincode T Bytes,
  Bincode Ballot.t Bytes, Bincode (option StopSign) Bytes, Bincode (option Sn) Bytes,
  !RocksDBLaws D Bytes, !UsizeBytesLaws Bytes, !BincodeLaws T Bytes, !BincodeLaws Ballot.t Bytes,
  !BincodeLaws (option StopSign) Bytes, !BincodeLaws (option Sn) Bytes}.
Import Storage PersistentStorage.
Abbreviation Self := (PersistentStorage.t D Bytes).
Implicit Types s : Self.
Implicit Types c : contents Bytes.
Implicit Types v : view T Sn.

Definition stored {A} `{Bincode A Bytes} (name : string) (o : option A) c : Prop :=
  match o with
  | Some a => ∃ b, serialize a = Ok b ∧ c_default c !! name = Some b
  | None => c_default c !! name = None
  end.
Definition stored_idx (name : string) (n : N) c : Prop :=
  (c_default c !! name = None ∧ n = 0) ∨ (c_default c !! name = Some (as_bytes n) ∧ n < usize_mod).

Record values_of c v : Prop := {
  va_promise : stored NPROM (v_promise v) c;
  va_accepted : stored ACC (v_accepted_round v) c;
  va_decided : stored_idx DECIDE (v_decided v) c;
  va_compacted : stored_idx TRIM (v_compacted v) c;
  va_stopsign : ∃ o, stored STOPSIGN o c ∧ mjoin o = v_stopsign v;
  va_snapshot : ∃ o, stored SNAPSHOT o c ∧ mjoin o = v_snapshot v
}.

(** The entries from [v_base] on are under their indices, and nothing else is, except for what is
    left over below [lim] and about to be overwritten. *)
Record log_of (lim : N) c v : Prop := {
  lg_fits : v_end v < usize_mod;
  lg_entries j e : v_log v !! j = Some e →
    ∃ b, serialize e = Ok b ∧ c_log c !! to_be_bytes (v_base v + N.of_nat j) = Some b;
  lg_keys k : is_Some (c_log c !! k) →
    ∃ i, k = to_be_bytes i ∧ i < usize_mod ∧ v_base v ≤ i ∧ (i < v_end v ∨ i < lim)
}.

(** The next key is the index after the last entry; it may lag behind while the log is empty after
    more has been trimmed than there was, until a prefix is given. *)
Definition reaches (lag : bool) (next : N) v : Prop :=
  if lag then v_log v = [] ∧ next ≤ v_end v else next = v_end v.

Record shape (lag : bool) (lim : N) c (next : N) v : Prop := {
  sh_next : reaches lag next v;
  sh_log : log_of lim c v;
  sh_values : values_of c v
}.

(** What a storage stands for: nothing is in its batch. *)
Definition represents s v : Prop :=
  write_batch s = [] ∧ shape false 0 (db_contents (db s)) (next_log_key s) v.

(** Which operations the backend can perform: entries are put on an existing prefix, nothing is
    appended while the next key lags behind, and indices are machine integers. *)
Definition op_fits (lag : bool) v (op : StorageOp T Sn) : Prop :=
  match op with
  | AppendEntry _ => lag = false ∧ v_end v + 1 < usize_mod
  | AppendEntries es => lag = false ∧ v_end v + len es < usize_mod
  | AppendOnPrefix from_idx es => v_base v ≤ from_idx ≤ v_end v ∧ from_idx + len es < usize_mod
  | Trim idx => v_base v ≤ idx < usize_mod
  | SetDecidedIndex idx | SetCompactedIdx idx => idx < usize_mod
  | _ => True
  end.
Definition lag_after (lag : bool) v (op : StorageOp T Sn) : bool :=
  match op with
  | AppendOnPrefix _ _ => false
  | Trim idx => lag || (v_end v <? idx)
  | _ => lag
  end.
Fixpoint ops_fit (lag : bool) v (ops : list (StorageOp T Sn)) : Prop :=
  match ops with
  | [] => lag = false
  | op :: ops => op_fits lag v op ∧ ops_fit (lag_after lag v op) (apply_op v op) ops
  end.

(** *** The contents *)

Lemma values_of_log c c' v v' :
  values_of c v → c_default c' = c_default c →
  v_promise v' = v_promise v → v_accepted_round v' = v_accepted_round v →
  v_decided v' = v_decided v → v_compacted v' = v_compacted v → v_stopsign v' = v_stopsign v →
  v_snapshot v' = v_snapshot v → values_of c' v'.
Proof.
  intros [] E E1 E2 E3 E4 E5 E6. unfold stored, stored_idx in *.
  split; unfold stored, stored_idx; rewrite ?E, ?E1, ?E2, ?E3, ?E4, ?E5, ?E6; done.
Qed.

Lemma shape_put lim c next v e b :
  shape false lim c next v → v_end v + 1 < usize_mod → serialize e = Ok b →
  shape false lim (apply_db_op c (PutCf (to_be_bytes next) b)) (next + 1) (apply_op v (AppendEntry e)).
Proof.
  intros [-> [Hfits Hent Hkeys] Hval] Hroom He.
  assert (Hend : v_end (apply_op v (AppendEntry e)) = v_end v + 1).
  { unfold v_end. cbn. rewrite len_app, len_cons, len_nil. lia. }
  split; [done| |by eapply values_of_log]. split; rewrite ?Hend; [done|..].
  - cbn. intros j e' [Hj|[Hj Hj']]%lookup_app_Some.
    + destruct (Hent j e' Hj) as (b' & Hb' & Hl). exists b'. split; [done|].
      rewrite lookup_insert_ne; [done|]. apply lookup_lt_Some in Hj. unfold v_end, len in *.
      intros Heq%key_inj; lia.
    + apply list_lookup_singleton_Some in Hj' as [Hj' <-]. exists b. split; [done|].
      unfold v_end, len. replace (N.of_nat j) with (N.of_nat (length (v_log v))) by lia.
      apply lookup_insert_eq.
  - cbn. intros k [b' [[<- _]|[_ Hk]]%lookup_insert_Some].
    + exists (v_end v). split_and!; [done|lia|unfold v_end; lia|left; lia].
    + destruct (Hkeys k) as (i & -> & ? & ? & Hi); [by rewrite Hk|]. exists i.
      split_and!; [done..|]. destruct Hi; [left; lia|by right].
Qed.

(** A key survives the deletion of a range. *)
Lemma deleted_lookup c from to k b :
  c_log (apply_db_op c (DeleteRangeCf from to)) !! k = Some b ↔
  c_log c !! k = Some b ∧ in_range from to k = false.
Proof. cbn. by rewrite map_lookup_filter_Some. Qed.

Lemma key_in_range from to i :
  from < usize_mod → to < usize_mod → i < usize_mod →
  in_range (to_be_bytes from) (to_be_bytes to) (to_be_bytes i) = (from <=? i) && (i <? to).
Proof.
  intros Hf Ht Hi. unfold in_range. rewrite !key_lt by done.
  destruct (N.ltb_spec i from), (N.leb_spec from i), (N.ltb_spec i to); try done; lia.
Qed.

(** Cutting the log off at [from], up to entries that are about to be overwritten. *)
Definition cut (from : N) v : view T Sn :=
  v <| v_log ::= take (N.to_nat (from - v_base v)) |>.

Lemma cut_end from v : v_base v ≤ from ≤ v_end v → v_end (cut from v) = from.
Proof. unfold v_end, cut. cbn. autorewrite with len. unfold len. lia. Qed.

Lemma log_of_cut c v from lim :
  log_of 0 c v → v_base v ≤ from ≤ v_end v → v_end v ≤ lim → log_of lim c (cut from v).
Proof.
  intros [Hfits Hent Hkeys] Hfrom Hlim. split.
  - rewrite cut_end by done. lia.
  - intros j e [Hj _]%lookup_take_Some. by apply Hent.
  - intros k Hk. destruct (Hkeys k Hk) as (i & -> & Hi & Hbase & Hend). exists i.
    split_and!; [done..|right; lia].
Qed.

Lemma log_of_delete c v from lim next :
  log_of 0 c v → next = v_end v → v_base v ≤ from ≤ v_end v → from ≤ lim → lim < next →
  log_of lim (apply_db_op c (DeleteRangeCf (to_be_bytes lim) (to_be_bytes next))) (cut from v).
Proof.
  intros [Hfits Hent Hkeys] -> Hfrom Hlim Hnext. split.
  - rewrite cut_end by done. lia.
  - intros j e [Hj Hlt]%lookup_take_Some. destruct (Hent j e Hj) as (b & Hb & Hl). exists b.
    split; [done|]. apply deleted_lookup. split; [exact Hl|].
    change (v_base (cut from v)) with (v_base v). rewrite key_in_range by lia.
    apply andb_false_iff. left. apply N.leb_gt. lia.
  - intros k [b [Hk Hr]%deleted_lookup]. destruct (Hkeys k) as (i & -> & Hi & Hbase & Hend);
      [by rewrite Hk|]. exists i. split_and!; [done..|right].
    rewrite key_in_range in Hr by lia. apply andb_false_iff in Hr as [Hr%N.leb_gt|Hr%N.ltb_ge]; lia.
Qed.

Lemma shape_trim lag c next v idx :
  shape lag 0 c next v → v_base v ≤ idx < usize_mod →
  shape (lag_after lag v (Trim idx)) 0
    (apply_db_op c (DeleteRangeCf (to_be_bytes 0) (to_be_bytes idx))) next (apply_op v (Trim idx)).
Proof.
  intros [Hn [Hfits Hent Hkeys] Hval] Hidx.
  assert (Hend : v_end (apply_op v (Trim idx)) = N.max idx (v_end v)).
  { unfold v_end in *. cbn. autorewrite with len. lia. }
  split; [| |by eapply values_of_log].
  { unfold reaches in *. cbn [lag_after]. rewrite Hend. destruct lag; cbn [orb].
    - destruct Hn as [Hnil Hle]. split; [|lia]. cbn. by rewrite Hnil, drop_nil.
    - subst next. destruct (N.ltb_spec (v_end v) idx); [|lia]. split; [|lia]. cbn.
      apply drop_ge. unfold v_end, len in *. lia. }
  split; [rewrite Hend; lia|..].
  - intros j e Hj.
    change (v_log (apply_op v (Trim idx))) with (drop (N.to_nat (idx - v_base v)) (v_log v)) in Hj.
    rewrite lookup_drop in Hj. destruct (Hent _ e Hj) as (b & Hb & Hl). exists b. split; [done|].
    apply lookup_lt_Some in Hj. unfold v_end, len in *.
    apply deleted_lookup. change (v_base (apply_op v (Trim idx))) with idx.
    replace (idx + N.of_nat j) with (v_base v + N.of_nat (N.to_nat (idx - v_base v) + j)) by lia.
    split; [done|]. rewrite key_in_range by lia. apply andb_false_iff. right. apply N.ltb_ge. lia.
  - intros k [b [Hk Hr]%deleted_lookup]. destruct (Hkeys k) as (i & -> & Hi & Hbase & Hi');
      [by rewrite Hk|]. exists i. rewrite Hend. change (v_base (apply_op v (Trim idx))) with idx.
    rewrite key_in_range in Hr by lia. apply andb_false_iff in Hr as [Hr%N.leb_gt|Hr%N.ltb_ge]; [lia|].
    split_and!; [done..|destruct Hi'; [left; lia|lia]].
Qed.

(** Overwritten leftovers are gone. *)
Lemma shape_full lag lim c next v :
  shape lag lim c next v → lim ≤ v_end v → shape lag 0 c next v.
Proof.
  intros [Hn [Hf He Hk] Hv] Hlim. split; [done| |done]. split; [done..|].
  intros k Hs. destruct (Hk k Hs) as (i & ? & ? & ? & Hi). exists i.
  split_and!; [done..|left; lia].
Qed.

(** *** Writes

    [pending] is what the database holds once the batch is written. *)

Definition pending s : contents Bytes := foldl apply_db_op (db_contents (db s)) (write_batch s).
(** What survives in the database: the abstract state, whatever the struct says. *)
Definition durable (d : D) v : Prop := log_of 0 (db_contents d) v ∧ values_of (db_contents d) v.

Lemma represents_durable s v :
  represents s v ↔ write_batch s = [] ∧ next_log_key s = v_end v ∧ durable (db s) v.
Proof. split; [intros (? & [])|intros (? & ? & [])]; by split_and!. Qed.

(** [batch] operations leave the database alone and take the pending state to [v']. *)
Definition batches (lag : bool) (lim : N) s v' (r : StorageResult unit) s' : Prop :=
  db s' = db s ∧ (r = Ok tt → shape lag lim (pending s') (next_log_key s') v').

Lemma pending_batch s op f :
  pending (s <| write_batch ::= λ l, l ++ [op] |> <| next_log_key ::= f |>) =
  apply_db_op (pending s) op.
Proof. unfold pending. cbn. by rewrite foldl_app. Qed.
Lemma pending_batch' s op :
  pending (s <| write_batch ::= λ l, l ++ [op] |>) = apply_db_op (pending s) op.
Proof. unfold pending. cbn. by rewrite foldl_app. Qed.

Lemma append_none v : apply_op v (AppendEntries []) = v.
Proof. destruct v. cbn. unfold settable_v_log. cbn. by rewrite app_nil_r. Qed.
Lemma append_cons v e es :
  apply_op (apply_op v (AppendEntry e)) (AppendEntries es) = apply_op v (AppendEntries (e :: es)).
Proof. destruct v. cbn. unfold settable_v_log. cbn. by rewrite <-app_assoc. Qed.
Lemma append_cut v from es :
  apply_op (cut from v) (AppendEntries es) = apply_op v (AppendOnPrefix from es).
Proof. by destruct v. Qed.
Lemma append_end v es : v_end (apply_op v (AppendEntries es)) = v_end v + len es.
Proof. unfold v_end. cbn. autorewrite with len. lia. Qed.

Lemma batch_append_entry_spec lim s v e :
  shape false lim (pending s) (next_log_key s) v → v_end v + 1 < usize_mod →
  returns (batch_append_entry e) s (batches false lim s (apply_op v (AppendEntry e))).
Proof.
  intros Hsh Hroom. pose proof (sh_next _ _ _ _ _ Hsh) as Hn; cbn in Hn.
  unfold batch_append_entry, call, batch. wp.
  destruct (serialize e) as [b|] eqn:He; cbn [boxed]; [|by split]. wp.
  eapply returns_lift; [apply wadd_exact; lia|]. wp. split; [done|]. intros _.
  rewrite pending_batch. by apply shape_put.
Qed.

Lemma batch_append_entries_spec lim s v es :
  shape false lim (pending s) (next_log_key s) v → v_end v + len es < usize_mod →
  returns (batch_append_entries es) s (batches false lim s (apply_op v (AppendEntries es))).
Proof.
  revert s v. induction es as [|e es IH]; intros s v Hsh Hroom; cbn [batch_append_entries].
  - wp. rewrite append_none. by split.
  - rewrite len_cons in Hroom. wp. eapply returns_mono; [apply batch_append_entry_spec; [done|lia]|].
    intros [[]|] s1 [Hdb Hs1]; [|by split]. eapply returns_mono; [apply IH; [by apply Hs1|]|].
    + unfold v_end in *. cbn. autorewrite with len. lia.
    + intros r s2 [Hdb2 Hs2]. rewrite append_cons in Hs2. split; [congruence|done].
Qed.

(** What is put on a prefix from [v_base v] on makes up for the lag. *)
Lemma reaches_over lag next v n :
  reaches lag next v → v_base v ≤ n → if n <? next then next = v_end v else v_end v ≤ n.
Proof.
  unfold reaches. intros Hn Hb. destruct lag.
  - destruct Hn as [Hnil Hle]. assert (v_end v = v_base v) by (unfold v_end; rewrite Hnil, len_nil; lia).
    destruct (N.ltb_spec n next); lia.
  - subst next. by destruct (N.ltb_spec n (v_end v)).
Qed.

Lemma batch_append_on_prefix_spec lag s v from es :
  shape lag 0 (pending s) (next_log_key s) v → op_fits lag v (AppendOnPrefix from es) →
  returns (batch_append_on_prefix from es) s (batches false 0 s (apply_op v (AppendOnPrefix from es))).
Proof.
  intros [Hn Hlog Hval] [Hfrom Hfits]. unfold batch_append_on_prefix. wp.
  eapply returns_lift; [by apply wadd_exact|]. cbv beta. wp.
  rewrite <-append_cut.
  assert (Hgo : ∀ s', db s' = db s → shape false (from + len es) (pending s') from (cut from v) →
    returns (batch_append_entries es) (s' <| next_log_key := from |>)
      (batches false 0 s (apply_op (cut from v) (AppendEntries es)))).
  { intros s' Hdb Hsh. eapply returns_mono.
    - eapply batch_append_entries_spec; [exact Hsh|]. rewrite cut_end by done. lia.
    - intros r s'' [Hdb' Hs'']. split; [by rewrite Hdb'|]. intros Hr. eapply shape_full; [by apply Hs''|].
      rewrite append_end, cut_end by done. lia. }
  pose proof (reaches_over _ _ _ (from + len es) Hn ltac:(lia)) as Hover.
  destruct (N.ltb_spec (from + len es) (next_log_key s)) as [Hlt|Hge].
  - unfold batch. wp. apply Hgo; [done|]. rewrite pending_batch'. split; [unfold reaches; by rewrite cut_end|..].
    + apply log_of_delete; (done || lia).
    + by eapply values_of_log.
  - wp. apply Hgo; [done|]. split; [unfold reaches; by rewrite cut_end|..].
    + apply log_of_cut; (done || lia).
    + by eapply values_of_log.
Qed.

(** Values in the default column family. *)
Lemma shape_put_value lag lim c next v name b v' :
  shape lag lim c next v → v_log v' = v_log v → v_base v' = v_base v →
  values_of (apply_db_op c (Put name b)) v' → shape lag lim (apply_db_op c (Put name b)) next v'.
Proof.
  intros [Hn [Hf He Hk] _] El Eb Hval. assert (Ee : v_end v' = v_end v) by (unfold v_end; congruence).
  split; [unfold reaches in *; by rewrite Ee, El| |done]. split; rewrite ?Ee, ?El, ?Eb; done.
Qed.

Lemma stored_ne {A} `{Bincode A Bytes} name name' (o : option A) c b :
  name ≠ name' → stored name' o c → stored name' o (apply_db_op c (Put name b)).
Proof. intros Hne Hs. destruct o; cbn; by rewrite lookup_insert_ne. Qed.
Lemma stored_eq {A} `{Bincode A Bytes} name (a : A) c b :
  serialize a = Ok b → stored name (Some a) (apply_db_op c (Put name b)).
Proof. intros Hs. exists b. split; [done|]. apply lookup_insert_eq. Qed.
Lemma stored_idx_ne name name' n c b :
  name ≠ name' → stored_idx name' n c → stored_idx name' n (apply_db_op c (Put name b)).
Proof. intros Hne Hs. unfold stored_idx. cbn. by rewrite lookup_insert_ne. Qed.
Lemma stored_idx_eq name n c :
  n < usize_mod → stored_idx name n (apply_db_op c (Put name (as_bytes n))).
Proof. intros Hn. right. split; [|done]. apply lookup_insert_eq. Qed.

Lemma values_put c v name b v' :
  values_of c v →
  (if decide (name = NPROM) then stored NPROM (v_promise v') (apply_db_op c (Put name b))
   else v_promise v' = v_promise v) →
  (if decide (name = ACC) then stored ACC (v_accepted_round v') (apply_db_op c (Put name b))
   else v_accepted_round v' = v_accepted_round v) →
  (if decide (name = DECIDE) then stored_idx DECIDE (v_decided v') (apply_db_op c (Put name b))
   else v_decided v' = v_decided v) →
  (if decide (name = TRIM) then stored_idx TRIM (v_compacted v') (apply_db_op c (Put name b))
   else v_compacted v' = v_compacted v) →
  (if decide (name = STOPSIGN)
   then ∃ o, stored STOPSIGN o (apply_db_op c (Put name b)) ∧ mjoin o = v_stopsign v'
   else v_stopsign v' = v_stopsign v) →
  (if decide (name = SNAPSHOT)
   then ∃ o, stored SNAPSHOT o (apply_db_op c (Put name b)) ∧ mjoin o = v_snapshot v'
   else v_snapshot v' = v_snapshot v) →
  values_of (apply_db_op c (Put name b)) v'.
Proof.
  intros [Hp Ha Hd Hc (o1 & Ho1 & E1) (o2 & Ho2 & E2)] H1' H2' H3' H4' H5' H6'. split.
  - destruct (decide (name = NPROM)); [done|]. rewrite H1'. by apply stored_ne.
  - destruct (decide (name = ACC)); [done|]. rewrite H2'. by apply stored_ne.
  - destruct (decide (name = DECIDE)); [done|]. rewrite H3'. by apply stored_idx_ne.
  - destruct (decide (name = TRIM)); [done|]. rewrite H4'. by apply stored_idx_ne.
  - destruct (decide (name = STOPSIGN)); [done|]. exists o1. split; [by apply stored_ne|congruence].
  - destruct (decide (name = SNAPSHOT)); [done|]. exists o2. split; [by apply stored_ne|congruence].
Qed.

(** An operation is batched as one [Put]. *)
Lemma batch_put_spec {A} `{Bincode A Bytes} lag s v (a : A) name v' :
  shape lag 0 (pending s) (next_log_key s) v → v_log v' = v_log v → v_base v' = v_base v →
  (∀ b, serialize a = Ok b → values_of (apply_db_op (pending s) (Put name b)) v') →
  returns (batch_put name a) s (batches lag 0 s v').
Proof.
  intros Hsh El Eb Hval. unfold batch_put, call, batch. wp.
  destruct (serialize a) as [b|] eqn:Hs; cbn [boxed]; [|by split]. wp. split; [done|]. intros _.
  rewrite pending_batch'. eapply shape_put_value; eauto.
Qed.
Lemma batch_put_idx_spec lag s v n name v' :
  shape lag 0 (pending s) (next_log_key s) v → v_log v' = v_log v → v_base v' = v_base v →
  values_of (apply_db_op (pending s) (Put name (as_bytes n))) v' →
  returns (batch_put_idx name n) s (batches lag 0 s v').
Proof.
  intros Hsh El Eb Hval. unfold batch_put_idx, batch. wp. split; [done|]. intros _.
  rewrite pending_batch'. eapply shape_put_value; eauto.
Qed.
Lemma batch_trim_spec lag s v n :
  shape lag 0 (pending s) (next_log_key s) v → op_fits lag v (Trim n) →
  returns (batch_trim n) s (batches (lag_after lag v (Trim n)) 0 s (apply_op v (Trim n))).
Proof.
  intros Hsh Hfits. unfold batch_trim, batch. wp. split; [done|]. intros _.
  rewrite pending_batch'. by apply shape_trim.
Qed.

(** Every operation is batched as the specification says. *)
Lemma batch_op_spec lag s v op :
  shape lag 0 (pending s) (next_log_key s) v → op_fits lag v op →
  returns (batch_op op) s (batches (lag_after lag v op) 0 s (apply_op v op)).
Proof.
  intros Hsh Hfits. pose proof (sh_values _ _ _ _ _ Hsh) as Hval. destruct op; cbn [batch_op].
  - destruct Hfits as [-> ?]. by apply batch_append_entry_spec.
  - destruct Hfits as [-> ?]. by apply batch_append_entries_spec.
  - by eapply batch_append_on_prefix_spec.
  - eapply batch_put_spec; [done..|]. intros b Hb. eapply values_put; try done. by apply stored_eq.
  - eapply batch_put_idx_spec; [done..|]. eapply values_put; try done. by apply stored_idx_eq.
  - eapply batch_put_spec; [done..|]. intros b Hb. eapply values_put; try done. by apply stored_eq.
  - eapply batch_put_idx_spec; [done..|]. eapply values_put; try done. by apply stored_idx_eq.
  - by apply batch_trim_spec.
  - eapply batch_put_spec; [done..|]. intros b Hb. eapply values_put; try done.
    exists (Some s0). split; [by apply stored_eq|done].
  - eapply batch_put_spec; [done..|]. intros b Hb. eapply values_put; try done.
    exists (Some s0). split; [by apply stored_eq|done].
Qed.

Lemma batch_ops_spec lag s v ops :
  shape lag 0 (pending s) (next_log_key s) v → ops_fit lag v ops →
  returns (batch_ops ops) s (batches false 0 s (apply_ops v ops)).
Proof.
  revert lag s v. induction ops as [|op ops IH]; intros lag s v Hsh Hfits; cbn [batch_ops]; wp.
  { cbn in Hfits. subst lag. by split. }
  destruct Hfits as [Hop Hops]. eapply returns_mono; [by apply batch_op_spec|].
  intros [[]|] s1 [Hdb Hs1]; [|by split].
  eapply returns_mono; [eapply IH; [by apply Hs1|done]|].
  intros r s2 [Hdb2 Hs2]. split; [congruence|done].
Qed.

Lemma pending_none s : write_batch s = [] → pending s = db_contents (db s).
Proof. intros E. unfold pending. by rewrite E. Qed.

(** The result of a write: it is performed, or the database is as before. *)
Definition performed v' v (r : StorageResult unit) s' : Prop :=
  if is_ok r then represents s' v' else durable (db s') v.

Lemma write_atomically_spec s v ops :
  represents s v → ops_fit false v ops →
  returns (write_atomically ops) s (performed (apply_ops v ops) v).
Proof.
  intros Hrep Hfits. destruct (proj1 (represents_durable _ _) Hrep) as (Hb & Hn & Hd).
  destruct Hrep as [_ Hsh]. unfold write_atomically, call. wp.
  rewrite <-pending_none in Hsh by done.
  eapply returns_mono; [by eapply (batch_ops_spec false)|]. intros [[]|] s1 [Hdb Hs1].
  - wp. apply returns_zoom. destruct (db_write_law (write_batch s1) (db s1)) as (r & d & Hw & Hc).
    eapply returns_intro; [exact Hw|]. cbn. wp. unfold performed.
    destruct r as [[]|[]]; cbn in *.
    + split; [done|]. cbn. rewrite Hc. by apply Hs1.
    + unfold durable. by rewrite Hc, Hdb.
  - unfold performed. cbn. by rewrite Hdb.
Qed.

(** A single write that fails leaves the database and the struct as they were. *)
Lemma write_one_spec s v v' op :
  represents s v → shape false 0 (apply_db_op (db_contents (db s)) op) (next_log_key s) v' →
  returns (write_one op) s (λ r s', represents s' (if is_ok r then v' else v)).
Proof.
  intros [Hb Hsh] Hsh'. unfold write_one, call. wp. apply returns_zoom.
  destruct (db_single_law op (db s)) as (r & d & Hw & Hc). eapply returns_intro; [exact Hw|].
  cbn. wp. destruct r as [[]|[]]; cbn in *; (split; [done|]); cbn; by rewrite Hc.
Qed.

Lemma put_spec {A} `{Bincode A Bytes} s v (a : A) name v' :
  represents s v → v_log v' = v_log v → v_base v' = v_base v →
  (∀ b, serialize a = Ok b → values_of (apply_db_op (db_contents (db s)) (Put name b)) v') →
  returns (put name a) s (λ r s', represents s' (if is_ok r then v' else v)).
Proof.
  intros Hrep El Eb Hval. unfold put, call. wp. destruct (serialize a) as [b|] eqn:Ha; cbn [boxed]; [|done].
  apply write_one_spec; [done|]. eapply shape_put_value; [apply Hrep|done..|by apply Hval].
Qed.
Lemma put_idx_spec s v n name v' :
  represents s v → v_log v' = v_log v → v_base v' = v_base v →
  values_of (apply_db_op (db_contents (db s)) (Put name (as_bytes n))) v' →
  returns (put_idx name n) s (λ r s', represents s' (if is_ok r then v' else v)).
Proof.
  intros Hrep El Eb Hval. apply write_one_spec; [done|]. eapply shape_put_value; [apply Hrep|done..].
Qed.

Lemma append_entry_spec s v e :
  represents s v → op_fits false v (AppendEntry e) →
  returns (append_entry e) s (λ r s',
    represents s' (if is_ok r then apply_op v (AppendEntry e) else v)).
Proof.
  intros Hrep [_ Hfits]. destruct (proj1 (represents_durable _ _) Hrep) as (Hb & Hn & Hd).
  pose proof Hrep as [_ Hsh]. unfold append_entry, write_one, call. wp.
  destruct (serialize e) as [b|] eqn:He; cbn [boxed]; [|done]. wp. apply returns_zoom.
  destruct (db_single_law (PutCf (to_be_bytes (next_log_key s)) b) (db s)) as (r & d & Hw & Hc).
  eapply returns_intro; [exact Hw|]. cbn. destruct r as [[]|[]]; cbn in Hc |- *; wp.
  - eapply returns_lift; [apply wadd_exact; cbn in *; lia|]. wp. split; [done|]. cbn. rewrite Hc.
    by apply shape_put.
  - split; [done|]. cbn. by rewrite Hc.
Qed.

Lemma append_loop_spec lim c s v es acc :
  shape false lim (foldl apply_db_op c acc) (next_log_key s) v → v_end v + len es < usize_mod →
  returns (append_loop es acc) s (λ r s', db s' = db s ∧ write_batch s' = write_batch s ∧
    next_log_key s ≤ next_log_key s' ≤ next_log_key s + len es ∧
    ∀ ops, r = Ok ops →
      shape false lim (foldl apply_db_op c ops) (next_log_key s') (apply_op v (AppendEntries es))).
Proof.
  revert s v acc. induction es as [|e es IH]; intros s v acc Hsh Hroom; cbn [append_loop]; wp.
  - rewrite append_none, len_nil. split_and!; [done..|lia|lia|]. by intros ? [= <-].
  - pose proof (sh_next _ _ _ _ _ Hsh) as Hn; cbn in Hn. rewrite len_cons in Hroom |- *. unfold call. wp.
    destruct (serialize e) as [b|] eqn:He; cbn [boxed]; [|split_and!; done || lia]. wp.
    eapply returns_lift; [apply wadd_exact; lia|]. cbv beta. wp.
    eapply returns_mono.
    + eapply (IH _ (apply_op v (AppendEntry e))).
      * rewrite foldl_app. apply shape_put; [done|lia|done].
      * unfold v_end in *. cbn. autorewrite with len. lia.
    + intros r s' (Hdb & Hb & Hkey & Hops). rewrite append_cons in Hops. cbn in Hkey.
      split_and!; done || lia.
Qed.

Lemma append_entries_over lim s v es :
  write_batch s = [] → shape false lim (db_contents (db s)) (next_log_key s) v →
  v_end v + len es < usize_mod →
  returns (append_entries es) s (λ r s', write_batch s' = [] ∧
    next_log_key s ≤ next_log_key s' ≤ next_log_key s + len es ∧
    if is_ok r then shape false lim (db_contents (db s')) (next_log_key s') (apply_op v (AppendEntries es))
    else db_contents (db s') = db_contents (db s)).
Proof.
  intros Hb Hsh Hroom. unfold append_entries, call. wp.
  eapply returns_mono; [by apply (append_loop_spec lim (db_contents (db s)))|].
  intros [ops|] s1 (Hdb & Hb1 & Hkey & Hops); [|split_and!; [congruence|lia|lia|by cbn; rewrite Hdb]]. wp.
  apply returns_zoom. destruct (db_write_law ops (db s1)) as (r & d & Hw & Hc).
  eapply returns_intro; [exact Hw|]. cbn. wp. split_and!; [cbn; congruence|cbn; lia|cbn; lia|].
  destruct r as [[]|[]]; cbn in *; rewrite Hc, Hdb; [|done]. by apply Hops.
Qed.

(** A failed [append_entries] leaves the database as it was, but the key of the next entry has moved
    over entries that are not there. *)
Definition key_ahead (n : N) s v s' : Prop :=
  durable (db s') v ∧ write_batch s' = [] ∧
  next_log_key s ≤ next_log_key s' ≤ next_log_key s + n.

Lemma append_entries_result s v es :
  represents s v → op_fits false v (AppendEntries es) →
  returns (append_entries es) s (λ r s',
    if is_ok r then represents s' (apply_op v (AppendEntries es)) else key_ahead (len es) s v s').
Proof.
  intros Hrep [_ Hfits]. destruct (proj1 (represents_durable _ _) Hrep) as (Hb & Hn & Hd).
  destruct Hrep as [_ Hsh]. eapply returns_mono; [by apply (append_entries_over 0)|].
  intros r s' (Hb' & Hkey & Hr). unfold key_ahead, durable. destruct (is_ok r); [by split|].
  rewrite Hr. destruct Hd, Hkey. by split_and!.
Qed.

(** [append_on_prefix] is two writes: when the second one fails, the entries behind the new ones are
    gone already, and the key of the next entry is somewhere among the new ones. *)
Definition prefix_failed (from : N) (es : list T) v s' : Prop :=
  represents s' v ∨
  write_batch s' = [] ∧ from ≤ next_log_key s' ≤ from + len es ∧
  durable (db s') (if from + len es <? v_end v then cut (from + len es) v else v).

Lemma append_on_prefix_spec s v from es :
  represents s v → op_fits false v (AppendOnPrefix from es) →
  returns (append_on_prefix from es) s (λ r s',
    if is_ok r then represents s' (apply_op v (AppendOnPrefix from es))
    else prefix_failed from es v s').
Proof.
  intros Hrep [Hfrom Hfits]. destruct (proj1 (represents_durable _ _) Hrep) as (Hb & Hn & Hlog & Hval).
  unfold append_on_prefix. wp. eapply returns_lift; [by apply wadd_exact|]. cbv beta. wp.
  assert (Hgo : ∀ s', write_batch s' = [] →
    shape false (from + len es) (db_contents (db s')) from (cut from v) →
    returns (append_entries es) (s' <| next_log_key := from |>) (λ r s'',
      if is_ok r then represents s'' (apply_op v (AppendOnPrefix from es))
      else write_batch s'' = [] ∧ from ≤ next_log_key s'' ≤ from + len es ∧
        db_contents (db s'') = db_contents (db s'))).
  { intros s' Hb' Hsh. rewrite <-append_cut. eapply returns_mono.
    - eapply append_entries_over; [done|exact Hsh|]. rewrite cut_end by done. lia.
    - intros r s'' (Hb'' & Hkey & Hr). destruct (is_ok r); [|done]. split; [done|].
      eapply shape_full; [exact Hr|]. rewrite append_end, cut_end by done. lia. }
  unfold prefix_failed. rewrite <-Hn. destruct (N.ltb_spec (from + len es) (next_log_key s)) as [Hlt|Hge].
  - unfold write_one, call. wp. apply returns_zoom.
    destruct (db_single_law (DeleteRangeCf (to_be_bytes (from + len es))
      (to_be_bytes (next_log_key s))) (db s)) as (r & d & Hw & Hc).
    eapply returns_intro; [exact Hw|]. destruct r as [[]|[]]; cbn [boxed is_ok] in *; wp.
    + eapply returns_mono; [apply Hgo; [done|]|].
      * cbn. rewrite Hc. split; [unfold reaches; by rewrite cut_end|apply log_of_delete; (done || lia)|].
        by eapply values_of_log.
      * intros r s''. cbv beta. destruct (is_ok r); [done|]. intros (Hb'' & Hkey & Hr). right.
        split_and!; [done|lia|lia|]. unfold durable.
        cbn in Hr. rewrite Hr, Hc. split; [|by eapply values_of_log].
        assert (Hf : shape false (from + len es) (apply_db_op (db_contents (db s))
          (DeleteRangeCf (to_be_bytes (from + len es)) (to_be_bytes (next_log_key s))))
          (from + len es) (cut (from + len es) v)).
        { split; [unfold reaches; rewrite cut_end; lia|apply log_of_delete; (done || lia)|by eapply values_of_log]. }
        eapply shape_full in Hf as []; [done|]. rewrite cut_end; lia.
    + left. apply represents_durable. unfold durable. cbn. rewrite Hc. by split_and!.
  - wp. eapply returns_mono; [apply Hgo; [done|]|].
    + split; [unfold reaches; by rewrite cut_end|apply log_of_cut; (done || lia)|by eapply values_of_log].
    + intros r s''. cbv beta. destruct (is_ok r); [done|]. intros (Hb'' & Hkey & Hr). right.
      split_and!; [done|lia|lia|]. unfold durable. by rewrite Hr.
Qed.

(** *** Reads *)

Lemma get_spec {A} `{Bincode A Bytes, !BincodeLaws A Bytes} s name (o : option A) :
  stored name o (db_contents (db s)) →
  ∃ r, get name s = (Val r, s) ∧ ∀ a, r = Ok a → a = o.
Proof.
  intros Hs. unfold get, call, bind_ok, bind, gets, ret.
  destruct (db_get name (db s)) as [found|] eqn:Hg; cbn [boxed]; [|by eexists].
  apply db_get_law in Hg. destruct o as [a|].
  - destruct Hs as (b & Hb & Hl). rewrite Hl in Hg. subst found.
    rewrite (deserialize_serialize a b) by done. cbn [boxed]. eexists. split; [done|]. by intros ? [= <-].
  - cbn in Hs. rewrite Hs in Hg. subst found. eexists. split; [done|]. by intros ? [= <-].
Qed.

Lemma get_idx_spec s name n :
  stored_idx name n (db_contents (db s)) →
  ∃ r, get_idx name s = (Val r, s) ∧ ∀ a, r = Ok a → a = n.
Proof.
  intros Hs. unfold get_idx, call, bind_ok, bind, gets, ret.
  destruct (db_get name (db s)) as [found|] eqn:Hg; cbn [boxed]; [|by eexists].
  apply db_get_law in Hg. eexists. destruct Hs as [[Hl ->]|[Hl Hn]]; rewrite Hl in Hg; subst found.
  - split; [done|]. by intros ? [= <-].
  - rewrite read_as_bytes by done. split; [done|]. by intros ? [= <-].
Qed.

Lemma get_nested_spec {A} `{Bincode (option A) Bytes, !BincodeLaws (option A) Bytes} s name o :
  (∃ o', stored name o' (db_contents (db s)) ∧ mjoin o' = o) →
  ∃ r, (let? found := get (A := option A) name in ret (Ok (mjoin found))) s = (Val r, s) ∧
    ∀ a, r = Ok a → a = o.
Proof.
  intros (o' & Hs & <-). destruct (get_spec s name o' Hs) as (r & Hr & Ha).
  unfold bind_ok, bind. rewrite Hr. destruct r as [a|]; eexists; [|done]. split; [done|].
  intros ? [= <-]. by rewrite (Ha a).
Qed.

(** Where an iterator stands that looks for the first key that satisfies [P]. *)
Definition first_key (P : list N → bool) (it : option (list N * Bytes)) c : Prop :=
  match it with
  | Some (k, b) => c_log c !! k = Some b ∧ P k = true ∧
      ∀ k', P k' = true → bytes_ltb k' k = true → c_log c !! k' = None
  | None => ∀ k', P k' = true → c_log c !! k' = None
  end.

Lemma first_key_at P it c v i :
  log_of 0 c v → v_base v ≤ i < v_end v → first_key P it c → P (to_be_bytes i) = true →
  (∀ i', i' < usize_mod → P (to_be_bytes i') = true → i ≤ i') →
  ∃ e b, v_log v !! N.to_nat (i - v_base v) = Some e ∧ deserialize b = Ok e ∧
    it = Some (to_be_bytes i, b).
Proof.
  intros [Hfits Hent Hkeys] Hi Hit HP Hmin.
  destruct (lookup_lt_is_Some_2 (v_log v) (N.to_nat (i - v_base v))) as [e He].
  { unfold v_end, len in Hi. lia. }
  destruct (Hent _ e He) as (b & Hb & Hl).
  replace (v_base v + N.of_nat (N.to_nat (i - v_base v))) with i in Hl by lia.
  destruct it as [[k b']|]; cbn in Hit.
  - destruct Hit as (Hk & HPk & Hfirst). destruct (Hkeys k) as (i' & -> & Hi' & _); [by rewrite Hk|].
    assert (i' = i) as ->; [|exists e, b'; rewrite Hk in Hl; simplify_eq; split_and!; try done;
      by apply deserialize_serialize].
    destruct (N.lt_trichotomy i i') as [Hlt|[->|Hlt]]; [|done|].
    + rewrite Hfirst in Hl; [done..|]. rewrite key_lt by lia. by apply N.ltb_lt.
    + specialize (Hmin i' Hi' HPk). lia.
  - by rewrite Hit in Hl.
Qed.

Lemma read_entries_spec d v n i it P :
  log_of 0 (db_contents d) v → v_base v ≤ i → i + N.of_nat n ≤ v_end v →
  first_key P it (db_contents d) → P (to_be_bytes i) = true →
  (∀ i', i' < usize_mod → P (to_be_bytes i') = true → i ≤ i') →
  read_entries n it d = Ok (take n (drop (N.to_nat (i - v_base v)) (v_log v))).
Proof.
  intros Hlog. revert i it P. induction n as [|n IH]; intros i it P Hb He Hit HP Hmin; [done|].
  destruct (first_key_at P it (db_contents d) v i) as (e & b & Hl & Hd & ->); [done|lia|done..|].
  cbn [read_entries]. rewrite Hd. pose proof (lg_fits _ _ _ Hlog) as Hfits.
  rewrite (IH (i + 1) _ (λ k, bytes_ltb (to_be_bytes i) k)).
  - rewrite (drop_S _ _ _ Hl). cbn [take]. by replace (N.to_nat (i + 1 - v_base v))
      with (S (N.to_nat (i - v_base v))) by lia.
  - lia.
  - lia.
  - apply (iter_next_law (to_be_bytes i) d).
  - destruct n; rewrite key_lt by lia; apply N.ltb_lt; lia.
  - intros i' Hi'. rewrite key_lt by lia. intros ?%N.ltb_lt. lia.
Qed.

Lemma get_entries_spec s v from to :
  represents s v → v_base v ≤ from → get_entries from to s = (Val (Ok (slice v from to)), s).
Proof.
  intros (Hb & Hn & Hlog & _)%represents_durable Hfrom.
  unfold get_entries, bind, gets, ret, slice. rewrite Hn.
  destruct (N.ltb_spec (v_end v) to) as [Hto|Hto]; cbn [orb].
  { rewrite (proj2 (N.leb_gt to (v_end v))) by done. by rewrite andb_false_r. }
  rewrite (proj2 (N.leb_le to (v_end v))), andb_true_r by done.
  destruct (N.leb_spec to from) as [Hle|Hlt].
  { destruct (N.leb_spec from to); [|done]. by replace (to - from) with 0 by lia. }
  rewrite (proj2 (N.leb_le from to)) by lia. pose proof (lg_fits _ _ _ Hlog) as Hfits.
  rewrite (read_entries_spec _ v _ from _ (λ k, negb (bytes_ltb k (to_be_bytes from)))).
  - done.
  - done.
  - done.
  - lia.
  - pose proof (iter_seek_law (to_be_bytes from) (db s)) as Hseek.
    destruct (iter_seek _ _) as [[k b]|]; cbn; rewrite ?negb_true_iff; [destruct Hseek as (? & ? & Hs);
      split_and!; [done..|]|]; intros k' ?%negb_true_iff; auto.
  - rewrite key_lt by lia. apply negb_true_iff, N.ltb_ge. lia.
  - intros i' Hi'. rewrite key_lt by lia. intros ?%negb_true_iff%N.ltb_ge. lia.
Qed.

(** *** Opening *)

Lemma last_key d v :
  log_of 0 (db_contents d) v →
  match iter_seek_to_last d with
  | Some (k, _) => v_log v ≠ [] ∧ k = to_be_bytes (v_end v - 1)
  | None => v_log v = []
  end.
Proof.
  intros [Hfits Hent Hkeys]. pose proof (iter_last_law d) as Hlast.
  assert (Hin : ∀ i, v_base v ≤ i < v_end v → is_Some (c_log (db_contents d) !! to_be_bytes i)).
  { intros i Hi. destruct (lookup_lt_is_Some_2 (v_log v) (N.to_nat (i - v_base v))) as [e He].
    { unfold v_end, len in Hi. lia. }
    destruct (Hent _ e He) as (b & _ & Hl).
    replace (v_base v + N.of_nat (N.to_nat (i - v_base v))) with i in Hl by lia. by rewrite Hl. }
  destruct (iter_seek_to_last d) as [[k b]|].
  - destruct Hlast as [Hk Hlast]. destruct (Hkeys k) as (i & -> & Hi & Hbase & Hend); [by rewrite Hk|].
    assert (i < v_end v) as Hi' by lia. split.
    { intros Hnil. unfold v_end in Hi'. rewrite Hnil, len_nil in Hi'. lia. }
    f_equal. destruct (N.eq_dec i (v_end v - 1)) as [|Hne]; [done|]. exfalso.
    destruct (Hin (v_end v - 1)) as [b' Hb']; [lia|]. rewrite Hlast in Hb'; [done|].
    rewrite key_lt by lia. apply N.ltb_lt. lia.
  - destruct (v_log v) as [|e l] eqn:Hlog; [done|]. exfalso.
    destruct (Hin (v_base v)) as [b Hb]; [unfold v_end; rewrite Hlog, len_cons; lia|].
    by rewrite Hlast in Hb.
Qed.

Lemma open_spec d v :
  durable d v → v_compacted v = v_base v →
  match open d with
  | Val s => represents s v
  | Panic _ => is_ok (db_get TRIM d) = false
  end.
Proof.
  intros [Hlog Hval] Hbase. pose proof (last_key d v Hlog) as Hlast. unfold open.
  pose proof (lg_fits _ _ _ Hlog) as Hfits. destruct (iter_seek_to_last d) as [[k b]|].
  - destruct Hlast as [Hne ->]. unfold len at 1. unfold to_be_bytes at 1. rewrite be_bytes_length.
    cbn [N.eqb]. change (N.of_nat 8 =? 8) with true. cbv iota.
    assert (v_end v ≠ 0) by (unfold v_end; destruct (v_log v); [done|]; rewrite len_cons; lia).
    rewrite key_roundtrip, wadd_exact by lia. apply represents_durable. cbn.
    split_and!; [done|lia|done].
  - destruct (db_get TRIM d) as [found|] eqn:Hg; [|done]. apply db_get_law in Hg.
    assert (Hrep : represents (mk d [] (v_compacted v)) v).
    { apply represents_durable. split_and!; [done| |done]. cbn. unfold v_end. rewrite Hlast, len_nil. lia. }
    destruct (va_compacted _ _ Hval) as [[Hl E]|[Hl Hlt]]; rewrite Hl in Hg; subst found.
    + by rewrite E in Hrep.
    + by rewrite read_as_bytes.
Qed.

(** *** The contract *)

(** A write performs [ops], or reports an error and leaves the storage as [failed] says. *)
Definition writes (m : M Self (StorageResult unit)) (ops : list (StorageOp T Sn))
    (failed : Self → view T Sn → Self → Prop) : Prop :=
  ∀ s v, represents s v → ops_fit false v ops →
    returns m s (λ r s', if is_ok r then represents s' (apply_ops v ops) else failed s v s').
(** The storage still stands for the state before; or only what is in the database does. *)
Definition still s v s' : Prop := represents s' v.
Definition still_in_database s v s' : Prop := durable (db s') v.

Lemma writes_one m ops :
  (∀ s v, represents s v → ops_fit false v ops →
    returns m s (λ r s', represents s' (if is_ok r then apply_ops v ops else v))) →
  writes m ops still.
Proof.
  intros Hm s v Hrep Hfits. eapply returns_mono; [by apply Hm|]. intros r s'. cbv beta. by destruct (is_ok r).
Qed.

(** A read leaves the storage as it is and returns an error or what it stands for. *)
Definition reads {A} (m : M Self (StorageResult A)) (f : view T Sn → A) : Prop :=
  ∀ s v, represents s v → ∃ r, m s = (Val r, s) ∧ ∀ a, r = Ok a → a = f v.

Ltac put_value :=
  apply writes_one; intros s v Hrep Hfits; pose proof (sh_values _ _ _ _ _ (proj2 Hrep)) as Hval;
  first [eapply put_idx_spec; [done..|] | eapply put_spec; [done..|intros b Hb]];
  (eapply values_put; try done);
  first [by apply stored_eq | by apply stored_idx_eq; apply Hfits
        | eexists (Some _); split; [by apply stored_eq|done]].

(** C32.  Every write of the persistent storage that reports success has performed its operation on
    the abstract state.  What an error leaves behind depends on the write.  A single write leaves
    the storage standing for the state before.  A failed [append_entries] leaves the database as it
    was, but the key for the next entry may be ahead of the log by up to the number of entries.  A
    failed [write_atomically] leaves the database as it was, so that the state before is what is
    opened again; the struct may keep a batch and a key that are ahead.  [append_on_prefix] is two
    writes: either the first one failed and nothing has changed, or the second one did, and
    the entries from the end of the new ones on are gone from the database. *)
Theorem persistent_writes :
  (∀ ops, writes (write_atomically ops) ops still_in_database) ∧
  (∀ e, writes (append_entry e) [AppendEntry e] still) ∧
  (∀ es, writes (append_entries es) [AppendEntries es] (key_ahead (len es))) ∧
  (∀ n, writes (set_promise n) [SetPromise n] still) ∧
  (∀ n, writes (set_accepted_round n) [SetAcceptedRound n] still) ∧
  (∀ i, writes (set_decided_idx i) [SetDecidedIndex i] still) ∧
  (∀ i, writes (set_compacted_idx i) [SetCompactedIdx i] still) ∧
  (∀ ss, writes (set_stopsign ss) [SetStopsign ss] still) ∧
  (∀ sn, writes (set_snapshot sn) [SetSnapshot sn] still) ∧
  (∀ i, writes (trim i) [Trim i] still) ∧
  (∀ from es, writes (append_on_prefix from es) [AppendOnPrefix from es]
    (λ _ v s', prefix_failed from es v s')).
Proof.
  split_and!.
  - intros ops s v. apply write_atomically_spec.
  - intros e. apply writes_one. intros s v Hrep [Hfits _]. by apply append_entry_spec.
  - intros es s v Hrep [Hfits _]. by apply append_entries_result.
  - intros n. put_value.
  - intros n. put_value.
  - intros i. put_value.
  - intros i. put_value.
  - intros ss. put_value.
  - intros sn. put_value.
  - intros i. apply writes_one. intros s v Hrep [Hfits Hlag]. apply write_one_spec; [done|].
    cbn in Hfits. replace false with (lag_after false v (Trim i)) at 1 by (cbn; apply Hlag).
    by apply shape_trim; [apply Hrep|].
  - intros from es s v Hrep [Hfits _]. by apply append_on_prefix_spec.
Qed.

(** C33.  Every read of the persistent storage leaves it as it is, and returns an error of the database or
    what the abstract state says: for entries the requested part of the log, which cannot fail. *)
Theorem persistent_reads :
  reads get_promise v_promise ∧
  reads get_accepted_round v_accepted_round ∧
  reads get_decided_idx v_decided ∧
  reads get_compacted_idx v_compacted ∧
  reads get_stopsign v_stopsign ∧
  reads get_snapshot v_snapshot ∧
  (∀ from to s v, represents s v → v_base v ≤ from →
    get_entries from to s = (Val (Ok (slice v from to)), s)) ∧
  (∀ from s v, represents s v → v_base v ≤ from →
    get_suffix from s = (Val (Ok (slice v from (v_end v))), s)) ∧
  (∀ s v, represents s v → v_compacted v = v_base v →
    ∃ r, get_log_len s = (Val r, s) ∧ ∀ n, r = Ok n → n = len (v_log v)).
Proof.
  assert (Hval : ∀ s v, represents s v → values_of (db_contents (db s)) v) by (intros s v [_ []]; done).
  split_and!.
  - intros s v Hrep. by apply get_spec, Hval.
  - intros s v Hrep. by apply get_spec, Hval.
  - intros s v Hrep. by apply get_idx_spec, Hval.
  - intros s v Hrep. by apply get_idx_spec, Hval.
  - intros s v Hrep. by apply get_nested_spec, Hval.
  - intros s v Hrep. by apply get_nested_spec, Hval.
  - intros from to s v. apply get_entries_spec.
  - intros from s v Hrep Hfrom. unfold get_suffix, bind, gets.
    rewrite (sh_next _ _ _ _ _ (proj2 Hrep)). by apply get_entries_spec.
  - intros s v Hrep Hc. destruct (get_idx_spec s TRIM (v_compacted v)) as (r & Hr & Hn); [by apply Hval|].
    unfold get_log_len, get_compacted_idx, bind_ok, bind, gets. rewrite Hr.
    destruct r as [n|]; [|by eexists]. rewrite (Hn n), (sh_next _ _ _ _ _ (proj2 Hrep)) by done.
    unfold lift, v_end. rewrite wsub_exact by lia. eexists. split; [done|]. intros ? [= <-]. lia.
Qed.

(** C31.  Whatever becomes of a batch, the database opened again stands for the state after all its
    operations if the batch was reported as written, and for the state before otherwise; opening
    fails only if the database cannot be read. *)
Theorem batch_survives_restart s v ops :
  represents s v → ops_fit false v ops → v_compacted v = v_base v →
  v_compacted (apply_ops v ops) = v_base (apply_ops v ops) →
  returns (write_atomically ops) s (λ r s',
    match open (db s') with
    | Val s'' => represents s'' (if is_ok r then apply_ops v ops else v)
    | Panic _ => is_ok (db_get TRIM (db s')) = false
    end).
Proof.
  intros Hrep Hfits Hbase Hbase'. eapply returns_mono; [by apply write_atomically_spec|].
  intros r s'. unfold performed. destruct (is_ok r).
  - intros (_ & _ & Hd)%represents_durable. by apply open_spec.
  - intros Hd. by apply open_spec.
Qed.
End refinement.
