(* ===== verification/PersistentChecks.v ===== *)
(** * The persistent storage on a concrete database

    A RocksDB of finite maps whose writes succeed or fail as a script says, and a serializer that
    refuses one entry: the theorems of [PersistentStorage] at concrete inputs, and what a failed
    write leaves behind in a storage that is used on. *)

From S2P Require Import Prelude Util Codecs Ballots StorageApi PersistentStorage.

(** ** Bytes *)

Inductive blob : Type :=
  | BEntry (n : N)
  | BUsize (n : N)
  | BBallot (b : Ballot.t)
  | BStopSign (ss : option StopSign)
  | BSnapshot (sn : option N).

(** The entry 13 cannot be serialized. *)
#[export] Instance entry_bincode : Bincode N blob := {|
  serialize n := if n =? 13 then Err tt else Ok (BEntry n);
  deserialize b := match b with BEntry n => Ok n | _ => Err tt end
|}.
#[export] Instance ballot_bincode : Bincode Ballot.t blob := {|
  serialize n := Ok (BBallot n);
  deserialize b := match b with BBallot n => Ok n | _ => Err tt end
|}.
#[export] Instance stopsign_bincode : Bincode (option StopSign) blob := {|
  serialize n := Ok (BStopSign n);
  deserialize b := match b with BStopSign n => Ok n | _ => Err tt end
|}.
#[export] Instance snapshot_bincode : Bincode (option N) blob := {|
  serialize n := Ok (BSnapshot n);
  deserialize b := match b with BSnapshot n => Ok n | _ => Err tt end
|}.
#[export] Instance usize_blob : UsizeBytes blob := {|
  as_bytes := BUsize;
  read_from b := match b with BUsize n => Some n | _ => None end
|}.
#[export] Instance entry_bincode_laws : BincodeLaws N blob.
Proof. intros a b. cbn. destruct (a =? 13); [done|]. by intros [= <-]. Qed.
#[export] Instance ballot_bincode_laws : BincodeLaws Ballot.t blob.
Proof. by intros a b [= <-]. Qed.
#[export] Instance stopsign_bincode_laws : BincodeLaws (option StopSign) blob.
Proof. by intros a b [= <-]. Qed.
#[export] Instance snapshot_bincode_laws : BincodeLaws (option N) blob.
Proof. by intros a b [= <-]. Qed.
#[export] Instance usize_blob_laws : UsizeBytesLaws blob.
Proof. done. Qed.

(** ** The database *)

(** The contents, and whether each of the next writes succeeds. *)
Record database : Type := mkDatabase {
  d_contents : contents blob;
  d_script : list bool
}.

Definition run_ops (ops : list (db_op blob)) : M database (result unit unit) := λ d,
  match d_script d with
  | false :: script => (Val (Err tt), mkDatabase (d_contents d) script)
  | script => (Val (Ok tt), mkDatabase (foldl apply_db_op (d_contents d) ops) (tail script))
  end.

(** The entry of a list that [R] puts before all the others which satisfy [P]. *)
Definition best {V} (R : list N → list N → bool) (P : list N → bool) (l : list (list N * V)) :
    option (list N * V) :=
  foldr (λ kv acc,
    if P kv.1 then
      match acc with
      | Some kv' => if R kv.1 kv'.1 then Some kv else acc
      | None => Some kv
      end
    else acc) None l.

Lemma bytes_ltb_irrefl a : bytes_ltb a a = false.
Proof. induction a as [|x a IH]; [done|]. cbn. by rewrite N.ltb_irrefl, N.eqb_refl, IH. Qed.
Lemma bytes_ltb_trans a b c :
  bytes_ltb a b = true → bytes_ltb b c = true → bytes_ltb a c = true.
Proof.
  revert b c. induction a as [|x a IH]; intros [|y b] [|z c]; cbn; try done.
  rewrite !orb_true_iff, !andb_true_iff, !N.ltb_lt, !N.eqb_eq.
  intros [?|[-> ?]] [?|[? ?]]; [left; lia|left; lia|left; lia|right]. split; [done|by eapply IH].
Qed.

Lemma best_spec {V} R P (l : list (list N * V)) :
  (∀ a, R a a = false) → (∀ a b c, R a b = true → R b c = true → R a c = true) →
  match best R P l with
  | Some kv => kv ∈ l ∧ P kv.1 = true ∧ ∀ kv', kv' ∈ l → P kv'.1 = true → R kv'.1 kv.1 = false
  | None => ∀ kv', kv' ∈ l → P kv'.1 = false
  end.
Proof.
  intros Hirr Htrans. induction l as [|kv l IH]; cbn [best foldr].
  { intros kv' []%elem_of_nil. }
  fold (best R P l). destruct (P kv.1) eqn:HP.
  - destruct (best R P l) as [kv0|].
    + destruct IH as (Hin & HP0 & Hmin). destruct (R kv.1 kv0.1) eqn:HR; split_and!; try done.
      * by left.
      * intros kv' [->|Hkv']%elem_of_cons HP'; [done|].
        destruct (R kv'.1 kv.1) eqn:HR'; [|done]. rewrite <-(Hmin kv') by done. symmetry.
        by eapply Htrans.
      * by right.
      * intros kv' [->|Hkv']%elem_of_cons HP'; [done|by apply Hmin].
    + split_and!; [by left|done|]. intros kv' [->|Hkv']%elem_of_cons HP'; [done|].
      by rewrite IH in HP'.
  - destruct (best R P l) as [kv0|].
    + destruct IH as (Hin & HP0 & Hmin). split_and!; [by right|done|].
      intros kv' [->|Hkv']%elem_of_cons HP'; [congruence|by apply Hmin].
    + intros kv' [->|Hkv']%elem_of_cons; [done|by apply IH].
Qed.

Definition entries_of (d : database) : list (list N * blob) := map_to_list (c_log (d_contents d)).

#[export] Instance database_rocksdb : RocksDB database blob := {|
  db_write := run_ops;
  db_single op := run_ops [op];
  db_get name d := Ok (c_default (d_contents d) !! name);
  iter_seek key d := best bytes_ltb (λ k, negb (bytes_ltb k key)) (entries_of d);
  iter_next key d := best bytes_ltb (λ k, bytes_ltb key k) (entries_of d);
  iter_seek_to_last d := best (λ a b, bytes_ltb b a) (λ _, true) (entries_of d)
|}.

Lemma best_first P d :
  first_key P (best bytes_ltb P (entries_of d)) (d_contents d).
Proof.
  pose proof (best_spec bytes_ltb P (entries_of d) bytes_ltb_irrefl bytes_ltb_trans) as Hbest.
  destruct (best bytes_ltb P (entries_of d)) as [[k b]|]; cbn.
  - destruct Hbest as (Hin%elem_of_map_to_list & HP & Hmin). split_and!; [done..|].
    intros k' HP' Hlt. destruct (c_log (d_contents d) !! k') as [b'|] eqn:Hk'; [|done].
    specialize (Hmin (k', b')). cbn in Hmin. rewrite Hmin in Hlt; [done|by apply elem_of_map_to_list|done].
  - intros k' HP'. destruct (c_log (d_contents d) !! k') as [b'|] eqn:Hk'; [|done].
    specialize (Hbest (k', b')). cbn in Hbest. rewrite Hbest in HP'; [done|by apply elem_of_map_to_list].
Qed.

Lemma run_ops_spec ops d : ∃ r d', run_ops ops d = (Val r, d') ∧
  d_contents d' = if is_ok r then foldl apply_db_op (d_contents d) ops else d_contents d.
Proof. unfold run_ops. destruct (d_script d) as [|[] script]; by do 2 eexists. Qed.

#[export] Instance database_laws : RocksDBLaws database blob.
Proof.
  refine {| db_contents := d_contents |}.
  - apply run_ops_spec.
  - intros op. apply (run_ops_spec [op]).
  - by intros name d o [= <-].
  - intros key d. pose proof (best_first (λ k, negb (bytes_ltb k key)) d) as Hfirst. cbn.
    destruct (best _ _ _) as [[k b]|]; cbn in Hfirst; setoid_rewrite negb_true_iff in Hfirst; done.
  - intros key d. apply (best_first (λ k, bytes_ltb key k) d).
  - intros d. cbn.
    pose proof (best_spec (λ a b, bytes_ltb b a) (λ _, true) (entries_of d) bytes_ltb_irrefl) as Hbest.
    destruct (best _ _ _) as [[k b]|]; cbn in Hbest.
    + destruct Hbest as (Hin%elem_of_map_to_list & _ & Hmin); [eauto using bytes_ltb_trans|].
      split; [done|]. intros k' Hlt.
      destruct (c_log (d_contents d) !! k') as [b'|] eqn:Hk'; [|done].
      specialize (Hmin (k', b')). cbn in Hmin.
      rewrite Hmin in Hlt; [done|by apply elem_of_map_to_list|done].
    + apply map_empty. intros k'. destruct (c_log (d_contents d) !! k') as [b'|] eqn:Hk'; [|done].
      exfalso. discriminate (Hbest ltac:(eauto using bytes_ltb_trans) (k', b')).
      by apply elem_of_map_to_list.
Defined.

(** ** Witnesses *)

#[local] Existing Instance dev_build.
Import Storage PersistentStorage.

Definition empty_view : view N N := mkView [] 0 None None 0 0 None None.
(** A new database; [script] says which writes succeed. *)
Definition fresh (script : list bool) : database := mkDatabase (mkContents ∅ ∅) script.

Lemma fresh_represents script : represents (mk (fresh script) [] 0) empty_view.
Proof.
  apply represents_durable. split_and!; [done..|]. split.
  - split; [done| |].
    + intros j e Hj. done.
    + intros k Hk. cbn in Hk. rewrite lookup_empty in Hk. by apply is_Some_None in Hk.
  - split; cbn; try (by left); try done; by exists None.
Qed.

(** The last ones adopt a snapshot that reaches beyond the log. *)
Definition some_ops : list (StorageOp N N) :=
  [AppendEntries [7; 8; 9]; AppendOnPrefix 1 [5]; SetDecidedIndex 5; Trim 5; SetCompactedIdx 5;
   SetSnapshot (Some 4); AppendOnPrefix 5 [8]].

Lemma some_ops_fit : ops_fit false empty_view some_ops.
Proof. repeat split; vm_compute; done. Qed.

(** A batch, and writes that fail. *)
Lemma persistent_writes_witness :
  returns (write_atomically some_ops) (mk (fresh []) [] 0) (λ r s',
    if is_ok r then represents s' (apply_ops empty_view some_ops) else durable (db s') empty_view) ∧
  returns (append_entry 7) (mk (fresh [false]) [] 0) (λ r s',
    represents s' (if is_ok r then apply_ops empty_view [AppendEntry 7] else empty_view)) ∧
  returns (append_entries [7; 8]) (mk (fresh [false]) [] 0) (λ r s',
    if is_ok r then represents s' (apply_ops empty_view [AppendEntries [7; 8]])
    else durable (db s') empty_view ∧ next_log_key s' ≤ 2) ∧
  returns (append_on_prefix 0 [7]) (mk (fresh [false]) [] 0) (λ r s',
    if is_ok r then represents s' (apply_ops empty_view [AppendOnPrefix 0 [7]])
    else prefix_failed 0 [7] empty_view s').
Proof.
  destruct (persistent_writes (T := N) (Sn := N) (D := database) (Bytes := blob))
    as (Hbatch & Hentry & Hentries & _ & _ & _ & _ & _ & _ & _ & Hprefix).
  split_and!.
  - apply Hbatch; [apply fresh_represents|apply some_ops_fit].
  - eapply returns_mono; [apply Hentry; [apply fresh_represents|by split]|].
    intros r s'. cbv beta. by destruct (is_ok r).
  - eapply returns_mono; [apply Hentries; [apply fresh_represents|by repeat split]|].
    intros r s'. cbv beta. destruct (is_ok r); [done|]. intros (? & _ & _ & ?). by split.
  - apply Hprefix; [apply fresh_represents|by repeat split].
Defined.

Lemma batch_survives_restart_witness :
  returns (write_atomically some_ops) (mk (fresh [true]) [] 0) (λ r s',
    match open (db s') with
    | Val s'' => represents s'' (if is_ok r then apply_ops empty_view some_ops else empty_view)
    | Panic _ => is_ok (db_get TRIM (db s')) = false
    end).
Proof.
  apply batch_survives_restart; [apply fresh_represents|apply some_ops_fit|done|done].
Defined.

Definition loaded : t database blob := (write_atomically some_ops (mk (fresh []) [] 0)).2.
Lemma loaded_represents : represents loaded (apply_ops empty_view some_ops).
Proof.
  assert (Hok : (write_atomically some_ops (mk (fresh []) [] 0)).1 = Val (Ok tt))
    by (vm_compute; reflexivity).
  pose proof (write_atomically_spec _ _ _ (fresh_represents []) some_ops_fit) as Hspec.
  unfold returns, loaded in *.
  destruct (write_atomically some_ops (mk (fresh []) [] 0)) as [[r|f] s']; [|done].
  by injection Hok as ->.
Qed.

Lemma persistent_reads_witness :
  get_entries 5 6 loaded = (Val (Ok [8]), loaded).
Proof.
  pose proof (proj2 (proj2 (proj2 (proj2 (proj2 (proj2 (persistent_reads (T := N) (Sn := N)
    (D := database) (Bytes := blob)))))))) as [Hentries _].
  refine (Hentries 5 6 _ (apply_ops empty_view some_ops) _ _); [apply loaded_represents|done].
Defined.

(** ** A storage that is used on after a failed write *)

(** The write of the first entry fails, and the number of entries counts it nevertheless: the
    second one goes to index 1, and a read of index 0 finds it there. *)
Theorem failed_append_shifts_the_log :
  match (let* r1 := append_entries (T := N) [7] in
         let* r2 := append_entries (T := N) [8] in
         let* l := get_log_len in
         let* e := get_entries 0 1 in
         let* e' := get_entries 0 2 in
         ret (r1, r2, l, e, e')) (mk (fresh [false]) [] 0) with
  | (Val x, _) => x = (Err BackendError, Ok tt, Ok 2, Ok [8], Err BackendError)
  | (Panic _, _) => False
  end.
Proof. vm_compute. reflexivity. Qed.

(** An operation of a batch that failed is performed with the next batch. *)
Theorem failed_batch_is_written_later :
  match (let* r1 := write_atomically (Sn := N) [SetDecidedIndex 5; AppendEntry 13] in
         let* r2 := write_atomically (T := N) (Sn := N) [SetCompactedIdx 0] in
         let* d := get_decided_idx in
         ret (r1, r2, d)) (mk (fresh []) [] 0) with
  | (Val x, _) => x = (Err BackendError, Ok tt, Ok 5)
  | (Panic _, _) => False
  end.
Proof. vm_compute. reflexivity. Qed.

(** More is trimmed than there is, and no prefix follows: the next key stays behind the compacted
    index, and the length of the log cannot be computed. *)
Example trim_beyond_the_end :
  match (let* _ := append_entries (T := N) [7] in
         let* _ := write_atomically (T := N) (Sn := N) [Trim 3; SetCompactedIdx 3] in
         let* l := get_log_len in
         ret l) (mk (fresh []) [] 0) with
  | (o, s) => o = Panic Overflow ∧ next_log_key s = 1
  end.
Proof. vm_compute. done. Qed.
