(* ===== verification/StorageChecks.v ===== *)
(** * Concrete storages

    A server with the in-memory backend, entries [N] and snapshots that are lists of entries: the
    instances that show the hypotheses of the storage theorems can hold, and runs of the model. *)

From S2P Require Import Prelude Util Ballots StorageApi MemoryStorage InternalStorage.

(** A hasher that adds up what it is fed. *)
#[export] Instance sum_hasher : Hasher N := {|
  hasher_new := 0;
  write_usize := λ n h, h + n;
  write_isize := λ z h, h + Z.to_N z;
  write_str := λ str h, h + N.of_nat (String.length str);
  finish := id
|}.
#[export] Instance N_hash : Hash N := λ H _ n h, write_usize n h.

#[export] Instance list_snapshot (T : Type) : Snapshot T (list T) := {|
  create := λ l, Val l;
  merge := λ a b, Val (a ++ b);
  use_snapshots := true
|}.
#[export] Instance list_snapshot_laws T : SnapshotLaws T (list T).
Proof. split; [intros l; by exists l|]. by intros l k a b [= <-] [= <-]. Qed.

Abbreviation Backend := (MemoryStorage.t N (list N)).
Abbreviation Server := (InternalStorage.t Backend N).

#[export] Existing Instance dev_build.

(** The backend after operations, and the server that recovers from it. *)
Definition backend_with (ops : list (StorageOp N (list N))) : Backend :=
  (MemoryStorage.write_atomically ops MemoryStorage.default).2.
Definition server_with (batch_size : N) (ops : list (StorageOp N (list N))) : Server :=
  InternalStorage.mk (backend_with ops)
    (InternalStorage.load_cache
      (InternalStorage.mk (backend_with ops) (StateCache.new batch_size))).2
      .(InternalStorage.state_cache).

Ltac check_coherent :=
  repeat split; first [reflexivity | vm_compute; congruence | idtac].

(** Three entries, two of them decided; batches of two. *)
Definition three_entries : Server := Eval cbv in
  server_with 2 [AppendEntries [10; 11; 12]; SetDecidedIndex 2].
Lemma three_entries_coherent : coherent three_entries.
Proof. check_coherent. Qed.

(** Three entries, the first one in the snapshot, and a decided stop sign. *)
Definition stop_sign : StopSign := StopSign_with Config.ClusterConfig.default None.
Definition stopped : Server := Eval cbv in
  server_with 2 [AppendEntries [10; 11; 12]; SetDecidedIndex 4; SetStopsign (Some stop_sign);
                 Trim 1; SetCompactedIdx 1; SetSnapshot (Some [10])].
Lemma stopped_coherent : coherent stopped.
Proof. check_coherent. Qed.

Lemma memory_storage_reads_witness :
  (let? _ := MemoryStorage.write_atomically
      [AppendEntries [10; 11; 12]; Trim 1; AppendOnPrefix 2 [13; 14]] in
   MemoryStorage.get_entries 1 3) (MemoryStorage.default (T := N) (Sn := list N))
  = (Val (Ok [11; 13]), backend_with [AppendEntries [10; 11; 12]; Trim 1; AppendOnPrefix 2 [13; 14]]).
Proof.
  apply (memory_storage_reads_abstract_log [AppendEntries [10; 11; 12]; Trim 1;
    AppendOnPrefix 2 [13; 14]] 1 3); [|vm_compute; congruence..].
  cbn. repeat split; vm_compute; congruence.
Defined.

Lemma memory_get_entries_trimmed_witness :
  MemoryStorage.get_entries 0 2 (backend_with [AppendEntries [10; 11]; Trim 1]) =
  (Panic Overflow, backend_with [AppendEntries [10; 11]; Trim 1]).
Proof.
  etrans; [apply memory_get_entries_trimmed|reflexivity]; repeat split; vm_compute; congruence.
Defined.

Lemma with_recovers_witness :
  match InternalStorage.with_ (backend_with [AppendEntries [10]]) 2 with
  | Val s => coherent s
  | Panic f => f = ExpectErr
  end.
Proof.
  pose proof (with_recovers_coherent_state (backend_with [AppendEntries [10]]) 2) as Hw.
  destruct (InternalStorage.with_ _ _); apply Hw; repeat split; vm_compute; congruence.
Defined.

Lemma batched_log_witness :
  returns (let? _ := propose_all [[20]; [21; 22]; [23]] in InternalStorage.flush_batch)
    three_entries (λ r s', match r with
    | Ok idx => coherent s' ∧ Storage.v_log (view_of s') = [10; 11; 12; 20; 21; 22; 23] ∧
        StateCache.batched_entries (InternalStorage.state_cache s') = [] ∧
        idx = log_end (view_of s')
    | Err _ => True
    end).
Proof.
  eapply returns_mono.
  { apply (batched_log_is_proposed_log [[20]; [21; 22]; [23]] three_entries);
      [apply three_entries_coherent|vm_compute; reflexivity]. }
  intros [idx|e] s'; [|done]. intros (Hc & Hlog & Hb & Hidx). split_and!; [done| |done..].
  etrans; [exact Hlog|vm_compute; reflexivity].
Defined.

(** The run itself, for comparison with the specification. *)
Example batched_log_run :
  (let? _ := propose_all [[20]; [21; 22]; [23]] in InternalStorage.flush_batch) three_entries =
  (Val (Ok 7), three_entries
     <| InternalStorage.storage ::= λ m, m <| MemoryStorage.log :=
          [10; 11; 12; 20; 21; 22; 23] |> |>
     <| InternalStorage.state_cache ::= λ c, c <| StateCache.accepted_idx := 7 |> |>).
Proof. reflexivity. Qed.

(** The reference read of a concrete log is evaluated. *)
Ltac reads_as H res :=
  match type of H with
  | match ?r with _ => _ end => replace r with res in H
      by (vm_compute; reflexivity); exact H
  end.

Lemma read_is_reference_read_witness :
  returns (InternalStorage.read (Excluded 0) Unbounded) stopped (λ r s', s' = stopped ∧
    ∀ o, r = Ok o →
         o = Some [Decided 11; Decided 12; StopSignEntry stop_sign true]) ∧
  InternalStorage.read Unbounded (Included 2) stopped = (Panic Unimplemented, stopped) ∧
  InternalStorage.read (Included 3) (Included 2) stopped = (Panic Unimplemented, stopped) ∧
  returns (InternalStorage.read (Included 2) (Excluded 2)) stopped (λ r s', s' = stopped ∧
    ∀ o, r = Ok o → o = Some []) ∧
  InternalStorage.read (Included 1) (Excluded 5) stopped = (Val (Ok None), stopped).
Proof.
  split_and!.
  - pose proof (read_is_reference_read (Excluded 0) Unbounded stopped stopped_coherent eq_refl eq_refl) as H.
    reads_as H (Val (Some [Decided 11; Decided 12; StopSignEntry stop_sign true])).
  - pose proof (read_is_reference_read Unbounded (Included 2) stopped stopped_coherent eq_refl eq_refl) as H.
    reads_as H (Panic (A := option (list (LogEntry N))) Unimplemented).
  - pose proof (read_is_reference_read (Included 3) (Included 2) stopped stopped_coherent eq_refl eq_refl) as H.
    reads_as H (Panic (A := option (list (LogEntry N))) Unimplemented).
  - pose proof (read_is_reference_read (Included 2) (Excluded 2) stopped stopped_coherent eq_refl eq_refl) as H.
    reads_as H (Val (Some ([] : list (LogEntry N)))).
  - pose proof (read_is_reference_read (Included 1) (Excluded 5) stopped stopped_coherent eq_refl eq_refl) as H.
    reads_as H (Val (None : option (list (LogEntry N)))).
Defined.

Lemma read_compacted_panics_witness :
  InternalStorage.read (Included 0) (Excluded 2) stopped = (Panic Unimplemented, stopped).
Proof.
  apply (read_compacted_panics 0 2 stopped); [apply stopped_coherent|vm_compute..];
    repeat split; congruence.
Defined.

Lemma try_trim_spec_witness :
  returns (InternalStorage.try_trim 4) stopped (λ r s', coherent s' ∧
    view_of s' = if is_ok r then compacted_view (view_of stopped) 3 else view_of stopped).
Proof.
  eapply returns_mono; [apply (try_trim_spec 4 stopped), stopped_coherent|].
  intros r s' [Hc Hv]. split; [done|]. etrans; [exact Hv|vm_compute; by destruct r].
Defined.

Lemma stopped_represents : represents [10; 11; 12] (view_of stopped).
Proof. repeat split; vm_compute; congruence. Qed.

Lemma try_snapshot_witness :
  returns (InternalStorage.try_snapshot None) stopped (λ r s',
    coherent s' ∧ represents [10; 11; 12] (view_of s') ∧
    if is_ok r then Storage.v_compacted (view_of s') = 3 else view_of s' = view_of stopped).
Proof.
  eapply returns_mono; [apply (try_snapshot_represents None [10; 11; 12] stopped);
    [apply stopped_coherent|apply stopped_represents]|].
  intros r s' (Hc & Hr & Hk). split_and!; [done..|]. destruct (is_ok r); [|done].
  etrans; [exact Hk|vm_compute; reflexivity].
Defined.

(** The log of another server that disagrees with the last entry, which is not decided. *)
Definition other_log : LogSync N (list N) :=
  {| decided_snapshot := None; suffix := [30; 31]; sync_idx := 2; sync_stopsign := None |}.

Lemma three_represents : represents [10; 11; 12] (view_of three_entries).
Proof. repeat split; vm_compute; congruence. Qed.

(** The decided entries compacted to a snapshot, and a delta for the entries behind them. *)
Definition snapshotted : Server := Eval cbv in (InternalStorage.try_snapshot None three_entries).2.

Lemma snapshotted_coherent : coherent snapshotted.
Proof. check_coherent. Qed.

Lemma snapshotted_represents : represents [10; 11; 12] (view_of snapshotted).
Proof. repeat split; vm_compute; congruence. Qed.

Definition following_delta : LogSync N (list N) :=
  {| decided_snapshot := Some (Delta [30; 31; 32]); suffix := [33]; sync_idx := 5;
     sync_stopsign := Some stop_sign |}.

(** A Delta snapshot for the entries from the receiver's decided index on.  [sync_log] sets the
    decided index of the cache before it makes the snapshot of its own decided entries, so that the
    snapshot is asked for entries the receiver does not have; the backend returns none, and the
    decided entries 10 and 11 are in neither the snapshot nor the log afterwards. *)
Definition delta_sync : LogSync N (list N) :=
  {| decided_snapshot := Some (Delta [30; 31; 32]); suffix := []; sync_idx := 5;
     sync_stopsign := None |}.

(** A log without a snapshot, a delta that follows what was compacted, and one that does not: the
    backend has its snapshot [30; 31; 32] at index 5, and represents no log of five entries. *)
Lemma sync_log_adopts_witness :
  returns (InternalStorage.sync_log Ballot.default 3 (Some other_log)) three_entries (λ r s',
    match r with
    | Ok idx => coherent s' ∧ represents [10; 11; 30; 31] (view_of s') ∧
        Storage.v_stopsign (view_of s') = None ∧ Storage.v_decided (view_of s') = 3 ∧
        Storage.v_accepted_round (view_of s') = Some Ballot.default ∧
        Storage.v_promise (view_of s') = None ∧ idx = log_end (view_of s')
    | Err _ => view_of s' = view_of three_entries
    end) ∧
  returns (InternalStorage.sync_log Ballot.default 6 (Some following_delta)) snapshotted (λ r s',
    ∀ idx, r = Ok idx → represents [10; 11; 30; 31; 32; 33] (view_of s')) ∧
  returns (InternalStorage.sync_log Ballot.default 5 (Some delta_sync)) three_entries (λ r s',
    ∀ idx, r = Ok idx → Storage.v_base (view_of s') = 5 ∧
      ∃ m, Storage.v_snapshot (view_of s') = Some m ∧ create [30; 31; 32] = Val m).
Proof.
  split_and!.
  - eapply returns_mono; [apply (sync_log_adopts_log Ballot.default 3 other_log [10; 11; 12]
      [10; 11] three_entries); [apply three_entries_coherent|apply three_represents|..]|].
    { repeat split; vm_compute; congruence. }
    { reflexivity. }
    intros [idx|e] s'; [|done]. intros (? & Hrep & _ & ? & ? & ? & Hp & ?). split_and!; try done.
    apply Hrep. reflexivity.
  - eapply returns_mono; [apply (sync_log_adopts_log Ballot.default 6 following_delta [10; 11; 12]
      [10; 11; 30; 31; 32] snapshotted); [apply snapshotted_coherent|apply snapshotted_represents|..]|].
    { repeat split; vm_compute; congruence. }
    { exists [30; 31; 32]. split; reflexivity. }
    intros r s' Hr idx ->. destruct Hr as (_ & Hrep & _). apply Hrep. reflexivity.
  - eapply returns_mono; [apply (sync_log_adopts_log Ballot.default 5 delta_sync [10; 11; 12]
      [30; 31; 32] three_entries); [apply three_entries_coherent|apply three_represents|..]|].
    { repeat split; vm_compute; congruence. }
    { exists [30; 31; 32]. split; reflexivity. }
    intros r s' Hr idx ->. destruct Hr as (_ & _ & (Hb & _ & Hm) & _). by split.
Defined.

Lemma set_stopsign_witness :
  returns (InternalStorage.set_stopsign (Some stop_sign)) three_entries (λ r s',
    match r with
    | Ok idx => coherent s' ∧
        view_of s' = Storage.apply_op (view_of three_entries) (SetStopsign (Some stop_sign)) ∧
        idx = 4
    | Err _ => view_of s' = view_of three_entries
    end).
Proof.
  eapply returns_mono; [apply (set_stopsign_counts_once (Some stop_sign) three_entries);
    [apply three_entries_coherent|vm_compute; congruence|vm_compute; reflexivity]|].
  intros [idx|e] s'; [|done]. intros (? & ? & Hi). split_and!; try done.
Defined.

Theorem delta_sync_loses_decided_entries :
  Storage.v_decided (view_of three_entries) = 2 ∧
  represents [10; 11; 12] (view_of three_entries) ∧
  let r := InternalStorage.sync_log Ballot.default 5 (Some delta_sync) three_entries in
  r.1 = Val (Ok 5) ∧
  Storage.v_snapshot (view_of r.2) = Some [30; 31; 32] ∧ Storage.v_log (view_of r.2) = [].
Proof. repeat split; vm_compute; congruence. Qed.
