(* ===== verification/Messages.v ===== *)
(** * Messages (crates/custom-paxos/omnipaxos/src/messages.rs) *)

From S2P Require Import Prelude Util Ballots Time StorageApi.

(** ** Ballot leader election *)

Record HeartbeatRequest : Type := mkHeartbeatRequest { req_round : N }.

Record HeartbeatReply : Type := mkHeartbeatReply {
  round : N;
  ballot : Ballot.t;
  leader : Ballot.t;
  happy : bool
}.

Inductive HeartbeatMsg : Type :=
  | Request (req : HeartbeatRequest)
  | Reply (rep : HeartbeatReply).

Record BLEMessage : Type := mkBLEMessage {
  ble_from : NodeId;
  ble_to : NodeId;
  ble_msg : HeartbeatMsg
}.

(** ** Log replication *)

Record PrepareReq : Type := mkPrepareReq { prep_n : Ballot.t }.

Record Promise (T Sn : Type) : Type := mkPromise {
  prom_n : Ballot.t;
  n_accepted : Ballot.t;
  prom_decided_idx : N;
  prom_accepted_idx : N;
  log_sync : option (LogSync T Sn)
}.

(** In [Ack entry hash speculation last_idx], the speculation is [None] unless this server
    speculates, [Some None] if the entry returns nothing, [Some (Some None)] if it reads a key that
    is not there, and [Some (Some (Some v))] if it reads [v]. *)
Inductive PaxosMsg (T : Type) : Type :=
  | Ack (entry : T) (hash : N) (speculation : option (option (option string))) (last_idx : N)
  | Confirm (entry : T) (last_idx : N)
  | NewDeadline (id : N) (deadline : SystemTime)
  | SyncReq
  | SyncAnswer (time : SystemTime).
#[global] Arguments Ack {T}.
#[global] Arguments Confirm {T}.
#[global] Arguments NewDeadline {T}.
#[global] Arguments SyncReq {T}.
#[global] Arguments SyncAnswer {T}.

Record PaxosMessage (T : Type) : Type := mkPaxosMessage {
  from : NodeId;
  to : NodeId;
  msg : PaxosMsg T
}.
#[global] Arguments mkPaxosMessage {T}.
#[global] Arguments from {T}.
#[global] Arguments to {T}.
#[global] Arguments msg {T}.

Inductive Message (T : Type) : Type :=
  | SequencePaxosMsg (p : PaxosMessage T)
  | BLE (b : BLEMessage).
#[global] Arguments SequencePaxosMsg {T}.
#[global] Arguments BLE {T}.

Definition get_sender {T} (self : Message T) : NodeId :=
  match self with SequencePaxosMsg p => from p | BLE b => ble_from b end.
Definition get_receiver {T} (self : Message T) : NodeId :=
  match self with SequencePaxosMsg p => to p | BLE b => ble_to b end.
