(* ===== verification/Ble.v ===== *)
(** * Ballot leader election
    (crates/custom-paxos/omnipaxos/src/ballot_leader_election.rs)

    [Ble] is the component of one server; [Cluster] runs one per server against a network that may
    reorder, duplicate and lose messages. *)

From S2P Require Import Prelude Util Ballots Config Messages.

(** The [(Role, Phase)] of sequence_paxos/mod.rs. *)
Inductive Phase : Type := Prepare | Accept | Recover | NoPhase.
Inductive Role : Type := Follower | Leader.
#[export] Instance Phase_eq_dec : EqDecision Phase.
Proof. solve_decision. Defined.
#[export] Instance Role_eq_dec : EqDecision Role.
Proof. solve_decision. Defined.

Definition INITIAL_ROUND : N := 1.
Definition RECOVERY_ROUND : N := 0.

Module Ble.

Record t : Type := mk {
  configuration_id : ConfigurationId;
  pid : NodeId;
  peers : list NodeId;
  hb_round : N;
  heartbeat_replies : list HeartbeatReply;
  prev_replies : list HeartbeatReply;
  current_ballot : Ballot.t;
  leader : Ballot.t;
  happy : bool;
  quorum : Quorum.t;
  outgoing : list BLEMessage
}.
#[global] Instance settable_configuration_id : Settable configuration_id := λ f r,
  mk (f (configuration_id r)) (pid r) (peers r) (hb_round r) (heartbeat_replies r)
    (prev_replies r) (current_ballot r) (leader r) (happy r) (quorum r) (outgoing r).
#[global] Instance settable_pid : Settable pid := λ f r,
  mk (configuration_id r) (f (pid r)) (peers r) (hb_round r) (heartbeat_replies r)
    (prev_replies r) (current_ballot r) (leader r) (happy r) (quorum r) (outgoing r).
#[global] Instance settable_peers : Settable peers := λ f r,
  mk (configuration_id r) (pid r) (f (peers r)) (hb_round r) (heartbeat_replies r)
    (prev_replies r) (current_ballot r) (leader r) (happy r) (quorum r) (outgoing r).
#[global] Instance settable_hb_round : Settable hb_round := λ f r,
  mk (configuration_id r) (pid r) (peers r) (f (hb_round r)) (heartbeat_replies r)
    (prev_replies r) (current_ballot r) (leader r) (happy r) (quorum r) (outgoing r).
#[global] Instance settable_heartbeat_replies : Settable heartbeat_replies := λ f r,
  mk (configuration_id r) (pid r) (peers r) (hb_round r) (f (heartbeat_replies r))
    (prev_replies r) (current_ballot r) (leader r) (happy r) (quorum r) (outgoing r).
#[global] Instance settable_prev_replies : Settable prev_replies := λ f r,
  mk (configuration_id r) (pid r) (peers r) (hb_round r) (heartbeat_replies r)
    (f (prev_replies r)) (current_ballot r) (leader r) (happy r) (quorum r) (outgoing r).
#[global] Instance settable_current_ballot : Settable current_ballot := λ f r,
  mk (configuration_id r) (pid r) (peers r) (hb_round r) (heartbeat_replies r) (prev_replies r)
    (f (current_ballot r)) (leader r) (happy r) (quorum r) (outgoing r).
#[global] Instance settable_leader : Settable leader := λ f r,
  mk (configuration_id r) (pid r) (peers r) (hb_round r) (heartbeat_replies r) (prev_replies r)
    (current_ballot r) (f (leader r)) (happy r) (quorum r) (outgoing r).
#[global] Instance settable_happy : Settable happy := λ f r,
  mk (configuration_id r) (pid r) (peers r) (hb_round r) (heartbeat_replies r) (prev_replies r)
    (current_ballot r) (leader r) (f (happy r)) (quorum r) (outgoing r).
#[global] Instance settable_quorum : Settable quorum := λ f r,
  mk (configuration_id r) (pid r) (peers r) (hb_round r) (heartbeat_replies r) (prev_replies r)
    (current_ballot r) (leader r) (happy r) (f (quorum r)) (outgoing r).
#[global] Instance settable_outgoing : Settable outgoing := λ f r,
  mk (configuration_id r) (pid r) (peers r) (hb_round r) (heartbeat_replies r) (prev_replies r)
    (current_ballot r) (leader r) (happy r) (quorum r) (f (outgoing r)).

Section ops.
Context `{Build}.

Definition new_hb_round : M t unit :=
  let* _ := modify (λ s, s <| prev_replies := heartbeat_replies s |>
                           <| heartbeat_replies := [] |>) in
  let* self := gets id in
  let* round := lift (wadd u32_mod (hb_round self) 1) in
  let* _ := modify (λ s, s <| hb_round := round |>) in
  mfor (peers self) (λ peer,
    modify (λ s, s <| outgoing ::= λ l, l ++
      [{| ble_from := pid s; ble_to := peer;
          ble_msg := Request {| req_round := hb_round s |} |}] |>)).

Definition with_ (config : BLEConfig) (recovered_leader : option Ballot.t) : outcome t :=
  let config_id := ble_configuration_id config in
  let pid := ble_pid config in
  let peers := ble_peers config in
  let num_nodes := len peers + 1 in
  let quorum := Quorum.with_ (ble_flexible_quorum config) num_nodes in
  let initial_ballot := Ballot.with_ config_id INITIAL_ROUND (ble_priority config) pid in
  let '(initial_ballot, initial_leader) :=
    match recovered_leader with
    | Some b => if bool_decide (b ≠ Ballot.default)
                then (initial_ballot <| Ballot.n := RECOVERY_ROUND |>, b)
                else (initial_ballot, initial_ballot)
    | None => (initial_ballot, initial_ballot)
    end in
  let ble := {|
    configuration_id := config_id; pid := pid; peers := peers; hb_round := 0;
    heartbeat_replies := []; prev_replies := []; current_ballot := initial_ballot;
    leader := initial_leader; happy := true; quorum := quorum; outgoing := []
  |} in
  let (r, ble) := new_hb_round ble in
  match r with Val _ => Val ble | Panic f => Panic f end.

Definition set_priority (p : N) : M t unit :=
  modify (λ s, s <| current_ballot ::= λ b, b <| Ballot.priority := p |> |>).

Definition outgoing_mut (f : list BLEMessage → list BLEMessage) : M t unit :=
  modify (λ s, s <| outgoing ::= f |>).

Definition handle_request (from : NodeId) (req : HeartbeatRequest) : M t unit :=
  modify (λ s, s <| outgoing ::= λ l, l ++
    [{| ble_from := pid s; ble_to := from;
        ble_msg := Reply {| round := req_round req; ballot := current_ballot s;
                            Messages.leader := leader s; Messages.happy := happy s |} |}] |>).

Definition handle_reply (rep : HeartbeatReply) : M t unit :=
  let* self := gets id in
  if (round rep =? hb_round self) &&
     (Ballot.config_id (ballot rep) =? configuration_id self)
  then modify (λ s, s <| heartbeat_replies ::= λ l, l ++ [rep] |>)
  else ret tt.

Definition handle (m : BLEMessage) : M t unit :=
  match ble_msg m with
  | Request req => handle_request (ble_from m) req
  | Reply rep => handle_reply rep
  end.

Definition update_leader : M t unit :=
  let* self := gets id in
  match Ballot.iter_max (ballot <$> heartbeat_replies self) with
  | Some max =>
      if Ballot.ltb (leader self) max then modify (λ s, s <| leader := max |>) else ret tt
  | None => ret tt
  end.

(** The new value of [happy]. *)
Definition is_happy (seq_paxos_state : Role * Phase) (self : t) : bool :=
  if bool_decide (leader self = current_ballot self) then
    let potential_followers :=
      len (filter (λ r, Ballot.leb (Messages.leader r) (current_ballot self))
                  (heartbeat_replies self)) in
    let can_form_quorum :=
      match seq_paxos_state with
      | (Leader, Accept) => Quorum.is_accept_quorum (quorum self) (potential_followers + 1)
      | _ => Quorum.is_prepare_quorum (quorum self) (potential_followers + 1)
      end in
    if can_form_quorum then true
    else existsb (λ r, Ballot.ltb (current_ballot self) (Messages.leader r) && Messages.happy r)
           (heartbeat_replies self)
  else existsb (λ r, bool_decide (ballot r = leader self) && Messages.happy r)
         (heartbeat_replies self).

Definition update_happiness (seq_paxos_state : Role * Phase) : M t unit :=
  modify (λ s, s <| happy := is_happy seq_paxos_state s |>).

Definition check_takeover : M t unit :=
  let* self := gets id in
  if negb (happy self) then
    let all_neighbors_unhappy := forallb (λ r, negb (Messages.happy r)) (heartbeat_replies self) in
    let im_quorum_connected :=
      Quorum.is_prepare_quorum (quorum self) (len (heartbeat_replies self) + 1) in
    if all_neighbors_unhappy && im_quorum_connected then
      let* n := lift (wadd u32_mod (Ballot.n (leader self)) 1) in
      let* _ := modify (λ s, s <| current_ballot ::= λ b, b <| Ballot.n := n |> |>) in
      let* _ := modify (λ s, s <| leader := current_ballot s |>) in
      modify (λ s, s <| happy := true |>)
    else ret tt
  else ret tt.

Definition hb_timeout (seq_paxos_state : Role * Phase) (seq_paxos_promise : Ballot.t) :
    M t (option Ballot.t) :=
  let* _ := update_leader in
  let* _ := update_happiness seq_paxos_state in
  let* _ := check_takeover in
  let* _ := new_hb_round in
  let* self := gets id in
  let* _ :=
    (if Ballot.ltb (leader self) seq_paxos_promise then
       let* _ := modify (λ s, s <| leader := seq_paxos_promise |>) in
       let* _ := (if Ballot.pid seq_paxos_promise =? pid self
                  then modify (λ s, s <| current_ballot := seq_paxos_promise |>)
                  else ret tt) in
       modify (λ s, s <| happy := true |>)
     else ret tt) in
  let* self := gets id in
  if bool_decide (leader self = current_ballot self)
  then ret (Some (current_ballot self)) else ret None.

Definition get_current_ballot (self : t) : Ballot.t := current_ballot self.
Definition get_ballots (self : t) : list HeartbeatReply := prev_replies self.

End ops.

End Ble.

(** ** One server *)

Section local.
Context `{Build}.
Import Ble.
Implicit Types s : Ble.t.

(** A server owns its ballot, has never been ahead of the leader it follows, and has only counted
    replies to its current round from its own configuration. *)
Record ble_ok s : Prop := {
  ok_pid : Ballot.pid (current_ballot s) = pid s;
  ok_config : Ballot.config_id (current_ballot s) = configuration_id s;
  ok_round : Ballot.n (current_ballot s) ≤ Ballot.n (leader s);
  ok_replies : ∀ r, r ∈ heartbeat_replies s →
    round r = hb_round s ∧ Ballot.config_id (ballot r) = configuration_id s
}.

(** The fields that never change. *)
Definition same_server s s' : Prop :=
  pid s' = pid s ∧ configuration_id s' = configuration_id s ∧ peers s' = peers s ∧
  quorum s' = quorum s.

(** The messages that open a heartbeat round. *)
Definition round_requests s (r : N) : list BLEMessage :=
  (λ peer, {| ble_from := pid s; ble_to := peer; ble_msg := Request {| req_round := r |} |})
    <$> peers s.

Lemma push_requests (ps : list NodeId) s :
  mfor ps (λ peer, modify (λ s, s <| outgoing ::= λ l, l ++
    [{| ble_from := pid s; ble_to := peer;
        ble_msg := Request {| req_round := hb_round s |} |}] |>)) s =
  (Val tt, s <| outgoing ::= λ l, l ++ ((λ peer, {| ble_from := pid s; ble_to := peer;
     ble_msg := Request {| req_round := hb_round s |} |}) <$> ps) |>).
Proof.
  revert s. induction ps as [|peer ps IH]; intros s; cbn [mfor]; destruct s.
  - unfold settable_outgoing. cbn. unfold settable_outgoing. cbn. by rewrite app_nil_r.
  - unfold bind, modify. etrans; [apply IH|]. cbn. unfold settable_outgoing. cbn.
    by rewrite <-app_assoc.
Qed.

Lemma new_hb_round_eq s :
  hb_round s + 1 < u32_mod →
  new_hb_round s = (Val tt,
    s <| prev_replies := heartbeat_replies s |> <| heartbeat_replies := [] |>
      <| hb_round := hb_round s + 1 |>
      <| outgoing ::= λ l, l ++ round_requests s (hb_round s + 1) |>).
Proof.
  intros Hr. unfold new_hb_round, bind, modify at 1 2, gets, lift, id. cbn.
  rewrite wadd_exact by done. cbn. apply push_requests.
Qed.

Lemma returns_update_leader s (Q : unit → Ble.t → Prop) :
  (∀ l, Ballot.le (leader s) l → (∀ r, r ∈ heartbeat_replies s → Ballot.le (ballot r) l) →
        (l = leader s ∨ ∃ r, r ∈ heartbeat_replies s ∧ l = ballot r) →
        Q tt (s <| leader := l |>)) →
  returns update_leader s Q.
Proof.
  intros HQ. unfold update_leader. wp. unfold id. pose proof (iter_max_spec (ballot <$> heartbeat_replies s)) as Hmax.
  assert (Hsame : s <| leader := leader s |> = s) by by destruct s.
  destruct (Ballot.iter_max _) as [m|].
  - destruct Hmax as [Hin Hmax]. apply list_elem_of_fmap in Hin as (r & -> & Hin).
    assert (Hall : ∀ r', r' ∈ heartbeat_replies s → Ballot.le (ballot r') (ballot r)).
    { intros r' Hr'. apply Hmax, list_elem_of_fmap. eauto. }
    destruct (Ballot.ltb (leader s) (ballot r)) eqn:E; wp.
    + apply HQ; eauto with ballot.
    + rewrite <-Hsame. apply HQ; [done| |by left]. intros r' Hr'. etrans; [by apply Hall|].
      by apply ballot_not_lt.
  - wp. rewrite <-Hsame. apply fmap_nil_inv in Hmax. apply HQ; [done| |by left].
    rewrite Hmax. set_solver.
Qed.

(** What must hold for a server to declare itself leader of a new round. *)
Definition may_take_over (replies : list HeartbeatReply) (q : Quorum.t) : Prop :=
  (∀ r, r ∈ replies → Messages.happy r = false) ∧
  Quorum.is_prepare_quorum q (len replies + 1) = true.

Lemma returns_check_takeover s (Q : unit → Ble.t → Prop) :
  Ballot.n (leader s) + 1 < u32_mod →
  Q tt s →
  (happy s = false → may_take_over (heartbeat_replies s) (quorum s) →
   let b := (current_ballot s) <| Ballot.n := Ballot.n (leader s) + 1 |> in
   Q tt (s <| current_ballot := b |> <| leader := b |> <| happy := true |>)) →
  returns check_takeover s Q.
Proof.
  intros Hn HQ Htake. unfold check_takeover. wp. unfold id.
  destruct (happy s) eqn:Eh; cbn [negb]; wp; [done|].
  destruct (forallb _ _ && _) eqn:E; wp; [|done].
  apply andb_true_iff in E as [Eall Eq]. eapply returns_lift; [by apply wadd_exact|]. wp.
  assert (Hm : may_take_over (heartbeat_replies s) (quorum s)).
  { split; [|done]. intros r Hr. rewrite forallb_forall in Eall.
    specialize (Eall r). rewrite negb_true_iff in Eall. by apply Eall, list_elem_of_In. }
  specialize (Htake eq_refl Hm). destruct s; cbn in *. done.
Qed.

(** *** The end of a heartbeat round *)

Record timeout_result s (promise : Ballot.t) (r : option Ballot.t) s' : Prop := {
  tr_same : same_server s s';
  tr_round : hb_round s' = hb_round s + 1;
  tr_replies : heartbeat_replies s' = [] ∧ prev_replies s' = heartbeat_replies s;
  tr_outgoing : outgoing s' = outgoing s ++ round_requests s (hb_round s + 1);
  tr_leader_mono : Ballot.le (leader s) (leader s');
  tr_leader_replies : ∀ r, r ∈ heartbeat_replies s → Ballot.le (ballot r) (leader s');
  tr_leader_promise : Ballot.le promise (leader s');
  tr_leader_from : leader s' ∈ leader s :: promise :: current_ballot s' ::
                                (ballot <$> heartbeat_replies s);
  tr_current :
    current_ballot s' = current_ballot s ∨
    (current_ballot s' = promise ∧ Ballot.pid promise = pid s) ∨
    (may_take_over (heartbeat_replies s) (quorum s) ∧
     Ballot.n (leader s) < Ballot.n (current_ballot s') ∧
     (∀ r, r ∈ heartbeat_replies s → Ballot.lt (ballot r) (current_ballot s')) ∧
     Ballot.pid (current_ballot s') = Ballot.pid (current_ballot s) ∧
     Ballot.config_id (current_ballot s') = Ballot.config_id (current_ballot s));
  tr_current_round : Ballot.n (current_ballot s) ≤ Ballot.n (current_ballot s')
                       ≤ Ballot.n (leader s');
  tr_elected : r = if bool_decide (leader s' = current_ballot s') then Some (current_ballot s') else None
}.

(** The state after [update_leader], [update_happiness] and [check_takeover]. *)
Record after_takeover s s1 : Prop := {
  at_same : same_server s s1;
  at_round : hb_round s1 = hb_round s;
  at_replies : heartbeat_replies s1 = heartbeat_replies s;
  at_outgoing : outgoing s1 = outgoing s;
  at_mono : Ballot.le (leader s) (leader s1);
  at_mono_replies : ∀ r, r ∈ heartbeat_replies s → Ballot.le (ballot r) (leader s1);
  at_from : leader s1 ∈ leader s :: current_ballot s1 :: (ballot <$> heartbeat_replies s);
  at_current : current_ballot s1 = current_ballot s ∨
    (may_take_over (heartbeat_replies s) (quorum s) ∧
     Ballot.n (leader s) < Ballot.n (current_ballot s1) ∧
     (∀ r, r ∈ heartbeat_replies s → Ballot.lt (ballot r) (current_ballot s1)) ∧
     Ballot.pid (current_ballot s1) = Ballot.pid (current_ballot s) ∧
     Ballot.config_id (current_ballot s1) = Ballot.config_id (current_ballot s));
  at_current_round : Ballot.n (current_ballot s) ≤ Ballot.n (current_ballot s1)
                       ≤ Ballot.n (leader s1)
}.

Definition finish_timeout (promise : Ballot.t) : M Ble.t (option Ballot.t) :=
  let* _ := new_hb_round in
  let* self := gets id in
  let* _ :=
    (if Ballot.ltb (leader self) promise then
       let* _ := modify (λ s, s <| leader := promise |>) in
       let* _ := (if Ballot.pid promise =? pid self
                  then modify (λ s, s <| current_ballot := promise |>)
                  else ret tt) in
       modify (λ s, s <| happy := true |>)
     else ret tt) in
  let* self := gets id in
  if bool_decide (leader self = current_ballot self)
  then ret (Some (current_ballot self)) else ret None.

Lemma returns_finish_timeout s s1 promise :
  after_takeover s s1 → hb_round s + 1 < u32_mod →
  returns (finish_timeout promise) s1 (timeout_result s promise).
Proof.
  intros [Hsame Hrd Hrep Hout Hm Hmr Hfrom Hcur Hcr] Hround. unfold finish_timeout. wp.
  eapply returns_intro; [apply new_hb_round_eq; by rewrite Hrd|]. cbn beta. wp. unfold id.
  assert (Hreq : round_requests s1 (hb_round s1 + 1) = round_requests s (hb_round s + 1)).
  { unfold round_requests. by destruct Hsame as (-> & _ & -> & _); rewrite Hrd. }
  assert (Hpid : pid s1 = pid s) by apply Hsame.
  destruct s1 as [c p ps r hr pr cb l h q out]. cbn in *.
  destruct (Ballot.ltb l promise) eqn:Elt; cbn.
  - assert (Hlp : Ballot.le l promise) by by apply ballot_lt_le.
    assert (Hnlp : Ballot.n l ≤ Ballot.n promise) by ballot_order.
    destruct (N.eqb_spec (Ballot.pid promise) p) as [Epid|Epid]; wp; apply returns_if_ret;
      constructor; cbn; rewrite ?Hrep, ?Hout, ?Hreq; try done; try lia; try (by etrans);
      try (intros r1 Hr; etrans; [by apply Hmr|done]); set_solver.
  - apply ballot_not_lt in Elt. wp. apply returns_if_ret.
    constructor; cbn; rewrite ?Hrep, ?Hout, ?Hreq; try done; set_solver.
Qed.

Lemma hb_timeout_result s state promise :
  hb_round s + 1 < u32_mod →
  (∀ r, r ∈ heartbeat_replies s → Ballot.n (ballot r) + 1 < u32_mod) →
  Ballot.n (leader s) + 1 < u32_mod →
  Ballot.n (current_ballot s) ≤ Ballot.n (leader s) →
  returns (hb_timeout state promise) s (timeout_result s promise).
Proof.
  intros Hround Hreplies Hleader Hcur. unfold hb_timeout. fold (finish_timeout promise). wp.
  apply returns_update_leader. intros l Hl Hlr Hfrom. unfold update_happiness. wp.
  assert (Hln : Ballot.n l + 1 < u32_mod).
  { destruct Hfrom as [->|(r & Hr & ->)]; [done|by apply Hreplies]. }
  assert (Hin : l ∈ leader s :: (ballot <$> heartbeat_replies s)).
  { destruct Hfrom as [->|(r & Hr & ->)]; [set_solver|]. right. by apply list_elem_of_fmap_2. }
  assert (Hnl : Ballot.n (leader s) ≤ Ballot.n l) by ballot_order.
  apply returns_check_takeover; [done| |].
  - apply returns_finish_timeout; [|done]. constructor; cbn; try done; [set_solver|by left|lia].
  - intros _ Hm. apply returns_finish_timeout; [|done].
    assert (Hlt : ∀ b, Ballot.le b l →
      Ballot.lt b ((current_ballot s) <| Ballot.n := Ballot.n l + 1 |>)).
    { intros b Hb. eapply ballot_le_lt_trans; [exact Hb|]. ballot_order. }
    constructor; cbn; try done.
    + by apply ballot_lt_le, Hlt.
    + intros r Hr. by apply ballot_lt_le, Hlt, Hlr.
    + set_solver.
    + right. split_and!; try done; [cbn; lia|]. intros r Hr. by apply Hlt, Hlr.
    + lia.
Qed.

(** C21.  The end of a heartbeat round.  The leader a server follows never goes down and is at
    least every ballot it heard of and its promise.  The server only reports a leader that is itself,
    with its own ballot.  Its own ballot changes only to its promise, or by a takeover: then a
    prepare quorum answered in this round, nobody who answered was happy, and the new ballot beats
    the leader it followed and every ballot it heard of. *)
Theorem hb_timeout_correct s state promise :
  ble_ok s →
  hb_round s + 1 < u32_mod → Ballot.n (leader s) + 1 < u32_mod →
  (∀ r, r ∈ heartbeat_replies s → Ballot.n (ballot r) + 1 < u32_mod) →
  (Ballot.pid promise = pid s → Ballot.config_id promise = configuration_id s) →
  returns (hb_timeout state promise) s (λ r s',
    ble_ok s' ∧ Ballot.le (leader s) (leader s') ∧ Ballot.le promise (leader s') ∧
    (∀ rep, rep ∈ heartbeat_replies s → Ballot.le (ballot rep) (leader s')) ∧
    (∀ b, r = Some b ↔ b = current_ballot s' ∧ b = leader s') ∧
    Ballot.pid (current_ballot s') = pid s ∧
    (current_ballot s' ≠ current_ballot s → current_ballot s' ≠ promise →
     (∀ rep, rep ∈ heartbeat_replies s → Messages.happy rep = false ∧
             Ballot.lt (ballot rep) (current_ballot s')) ∧
     Quorum.is_prepare_quorum (quorum s) (len (heartbeat_replies s) + 1) = true ∧
     Ballot.lt (leader s) (current_ballot s'))).
Proof.
  intros [Hpid Hconf Hn Hrep] Hround Hl Hr Hprom.
  eapply returns_mono; [by apply hb_timeout_result|]. intros r s' [].
  destruct tr_same0 as (Hsp & Hsc & _ & _), tr_replies0 as [Hnil _].
  assert (Hpc : Ballot.pid (current_ballot s') = pid s ∧
    Ballot.config_id (current_ballot s') = configuration_id s).
  { destruct tr_current0 as [->|[[-> Hp]|(_ & _ & _ & -> & ->)]]; auto. }
  destruct Hpc as [Hp Hc]. split_and!; try done.
  - split; [congruence|congruence|lia|]. rewrite Hnil. set_solver.
  - intros b. rewrite tr_elected0. case_bool_decide; naive_solver.
  - intros Hne Hnp. destruct tr_current0 as [?|[[? _]|([Hh Hq] & Hlt & Hrl & _)]]; [done..|].
    split_and!; [|done|ballot_order]. intros rep Hin. split; [by apply Hh|by apply Hrl].
Qed.

(** A reply is counted exactly when it belongs to the current round and the configuration; requests
    are answered with the current state; neither changes the leader or the ballot. *)
Lemma handle_spec m s :
  handle m s = (Val tt,
    match ble_msg m with
    | Request req => s <| outgoing ::= λ l, l ++
        [{| ble_from := pid s; ble_to := ble_from m;
            ble_msg := Reply {| round := req_round req; ballot := current_ballot s;
                                Messages.leader := leader s; Messages.happy := happy s |} |}] |>
    | Reply rep =>
        if (round rep =? hb_round s) && (Ballot.config_id (ballot rep) =? configuration_id s)
        then s <| heartbeat_replies ::= λ l, l ++ [rep] |> else s
    end).
Proof.
  unfold handle. destruct (ble_msg m) as [req|rep]; [done|].
  unfold handle_reply, bind, gets, id. by destruct (_ && _).
Qed.

Lemma handle_ok m s s' : handle m s = (Val tt, s') → ble_ok s → ble_ok s'.
Proof.
  rewrite handle_spec. intros [= <-] [Hpid Hconf Hn Hrep].
  destruct (ble_msg m) as [req|rep]; [by constructor|].
  destruct (_ && _) eqn:E; [|by constructor]. constructor; try done. cbn.
  intros r [Hin|Hin]%elem_of_app; [by apply Hrep|]. apply list_elem_of_singleton in Hin as ->. lia.
Qed.

(** A fresh server. *)
Lemma with_fresh config s :
  with_ config None = Val s →
  ble_ok s ∧ pid s = ble_pid config ∧ leader s = current_ballot s ∧ heartbeat_replies s = [] ∧
  outgoing s = round_requests s 1.
Proof.
  unfold with_. rewrite new_hb_round_eq by done. intros [= <-]. cbn. split_and!; try done.
  constructor; try done. cbn. set_solver.
Qed.
End local.

(** ** A cluster *)

Module Cluster.

Record t : Type := mk {
  nodes : gmap NodeId Ble.t;
  net : list BLEMessage
}.

Section cluster.
Context `{Build}.
Implicit Types c : t.

(** A ballot of a server of the cluster that is not ahead of the server's own ballot. *)
Definition owned c (b : Ballot.t) : Prop :=
  ∃ s, nodes c !! Ballot.pid b = Some s ∧ Ballot.n b ≤ Ballot.n (Ble.current_ballot s).

(** The ballots that a message carries. *)
Definition msg_ballots (m : BLEMessage) : list Ballot.t :=
  match ble_msg m with
  | Request _ => []
  | Reply rep => [ballot rep; leader rep]
  end.

(** Everywhere a ballot can be: as a leader or a ballot, in a reply, on the way. *)
Definition node_ballots (s : Ble.t) : list Ballot.t :=
  [Ble.current_ballot s; Ble.leader s] ++ (ballot <$> Ble.heartbeat_replies s) ++
  (leader <$> Ble.heartbeat_replies s) ++ (Ble.outgoing s ≫= msg_ballots).

Definition occurs c (b : Ballot.t) : Prop :=
  (∃ p s, nodes c !! p = Some s ∧ b ∈ node_ballots s) ∨ (∃ m, m ∈ net c ∧ b ∈ msg_ballots m).

(** The steps.  A promise comes from the log replication of the same server, which only promises
    ballots of servers that became leader with them.  Round numbers are 32 bits wide; the steps
    are those of runs in which they do not overflow. *)
Inductive step : t → t → Prop :=
  | step_timeout c p s state promise r s' :
      nodes c !! p = Some s →
      owned c promise ∨ promise = Ballot.default →
      (Ballot.pid promise = p → Ballot.config_id promise = Ble.configuration_id s) →
      Ble.hb_round s + 1 < u32_mod → Ballot.n (Ble.leader s) + 1 < u32_mod →
      (∀ rep, rep ∈ Ble.heartbeat_replies s → Ballot.n (ballot rep) + 1 < u32_mod) →
      Ble.hb_timeout state promise s = (Val r, s') →
      step c (mk (<[p := s']> (nodes c)) (net c))
  | step_handle c p s m s' :
      nodes c !! p = Some s → m ∈ net c → ble_to m = p →
      Ble.handle m s = (Val tt, s') →
      step c (mk (<[p := s']> (nodes c)) (net c))
  | step_priority c p s prio s' :
      nodes c !! p = Some s →
      Ble.set_priority prio s = (Val tt, s') →
      step c (mk (<[p := s']> (nodes c)) (net c))
  | step_send c p s s' :
      nodes c !! p = Some s →
      Ble.outgoing_mut (λ _, []) s = (Val tt, s') →
      step c (mk (<[p := s']> (nodes c)) (net c ++ Ble.outgoing s)).

Definition initial c : Prop :=
  net c = [] ∧
  ∀ p s, nodes c !! p = Some s →
    p ≠ 0 ∧ ∃ config, ble_pid config = p ∧ Ble.with_ config None = Val s.

Inductive reachable : t → Prop :=
  | reachable_initial c : initial c → reachable c
  | reachable_step c c' : reachable c → step c c' → reachable c'.

(** The invariant: every server owns its ballot, and every ballot anywhere has an owner that is
    not behind it. *)
Record inv c : Prop := {
  inv_ok p s : nodes c !! p = Some s → p ≠ 0 ∧ Ble.pid s = p ∧ ble_ok s;
  inv_owned b : occurs c b → owned c b
}.

(** Replacing a server by one that is not behind it keeps ballots owned. *)
Lemma owned_mono c p s s' net' b :
  nodes c !! p = Some s → Ballot.n (Ble.current_ballot s) ≤ Ballot.n (Ble.current_ballot s') →
  owned c b → owned (mk (<[p := s']> (nodes c)) net') b.
Proof.
  intros Hp Hle (t & Ht & Hb). unfold owned. cbn. destruct (decide (p = Ballot.pid b)) as [->|Hne].
  - exists s'. rewrite lookup_insert_eq. split; [done|]. simplify_eq. lia.
  - exists t. by rewrite lookup_insert_ne.
Qed.

(** The steps of one server: enough to look at the ballots it has afterwards. *)
Lemma inv_update c p s s' net' :
  inv c → nodes c !! p = Some s →
  Ble.pid s' = p → ble_ok s' →
  Ballot.n (Ble.current_ballot s) ≤ Ballot.n (Ble.current_ballot s') →
  (∀ m, m ∈ net' → m ∈ net c ∨ m ∈ Ble.outgoing s) →
  (∀ b, b ∈ node_ballots s' → owned c b ∨ b = Ble.current_ballot s') →
  inv (mk (<[p := s']> (nodes c)) net').
Proof.
  intros [Hok Hown] Hp Hpid Hs' Hle Hnet Hballots. destruct (Hok _ _ Hp) as (Hp0 & _ & _).
  assert (Hmono : ∀ b, owned c b → owned (mk (<[p := s']> (nodes c)) net') b)
    by (intros b; by apply (owned_mono c p s)).
  split.
  - intros q t. cbn. intros [[<- <-]|[Hne Hq]]%lookup_insert_Some; [done|]. by apply Hok.
  - intros b [(q & t & Hq & Hb)|(m & Hm & Hb)]; cbn in *.
    + apply lookup_insert_Some in Hq as [[<- <-]|[Hne Hq]].
      * destruct (Hballots b Hb) as [Ho| ->]; [by apply Hmono|].
        exists s'. cbn. rewrite (ok_pid _ Hs'), Hpid, lookup_insert_eq. by split.
      * apply Hmono, Hown. left. eauto.
    + apply Hmono, Hown. destruct (Hnet m Hm) as [Hin|Hin]; [right; eauto|].
      left. exists p, s. split; [done|]. unfold node_ballots.
      do 3 (apply elem_of_app; right). apply list_elem_of_bind. eauto.
Qed.

Lemma node_owned c p s b : inv c → nodes c !! p = Some s → b ∈ node_ballots s → owned c b.
Proof. intros [_ Hown] Hp Hb. apply Hown. left. eauto. Qed.

Lemma elem_node_ballots (s : Ble.t) b :
  b ∈ node_ballots s ↔
  b = Ble.current_ballot s ∨ b = Ble.leader s ∨
  (∃ rep, rep ∈ Ble.heartbeat_replies s ∧ (b = ballot rep ∨ b = leader rep)) ∨
  (∃ m, m ∈ Ble.outgoing s ∧ b ∈ msg_ballots m).
Proof.
  unfold node_ballots. rewrite !elem_of_app, !list_elem_of_fmap, list_elem_of_bind, !elem_of_cons.
  set_solver.
Qed.

(** A timeout adds no ballot but the promise and the server's own. *)
Lemma timeout_ballots s promise r s' b :
  timeout_result s promise r s' → b ∈ node_ballots s' →
  b ∈ node_ballots s ∨ (b = promise ∧ Ballot.le (Ble.leader s) promise) ∨
  b = Ble.current_ballot s'.
Proof.
  intros [] Hb. rewrite elem_node_ballots in Hb |- *. destruct tr_replies0 as [Hnil _].
  rewrite Hnil, tr_outgoing0 in Hb.
  destruct Hb as [->|[->|[(rep & Hin & _)|(m & Hin & Hb)]]]; [by auto| |set_solver|].
  - rewrite !elem_of_cons, list_elem_of_fmap in tr_leader_from0.
    destruct tr_leader_from0 as [->|[Heq|[->|(rep & -> & Hrep)]]]; [by auto| |by auto|].
    + rewrite Heq in *. auto.
    + left. right; right; left. eauto.
  - apply elem_of_app in Hin as [Hin|Hin]; [left; eauto 10|].
    unfold round_requests in Hin. apply list_elem_of_fmap in Hin as (peer & -> & _). set_solver.
Qed.

(** Handling a message adds only ballots that the server or the message has. *)
Lemma handle_ballots m s s' b :
  Ble.handle m s = (Val tt, s') → b ∈ node_ballots s' → b ∈ node_ballots s ∨ b ∈ msg_ballots m.
Proof.
  rewrite handle_spec. intros [= <-] Hb. rewrite elem_node_ballots in Hb |- *.
  unfold msg_ballots at 2. destruct (ble_msg m) as [req|rep]; cbn in Hb.
  - destruct Hb as [?|[?|[?|(m' & [Hin|Hin]%elem_of_app & Hb)]]]; eauto 10.
    apply list_elem_of_singleton in Hin as ->. set_solver.
  - destruct (_ && _); cbn in Hb; [|by left].
    destruct Hb as [?|[?|[(r & [Hin|Hin]%elem_of_app & Hb)|?]]]; eauto 10.
    apply list_elem_of_singleton in Hin as ->. right. set_solver.
Qed.

Lemma inv_timeout c s promise r s' :
  inv c → nodes c !! Ble.pid s = Some s → owned c promise ∨ promise = Ballot.default →
  (Ballot.pid promise = Ble.pid s → Ballot.config_id promise = Ble.configuration_id s) →
  timeout_result s promise r s' →
  inv (mk (<[Ble.pid s := s']> (nodes c)) (net c)).
Proof.
  intros Hinv Hs Hprom Hconf Htr. pose proof Hinv as [Hok Hown].
  destruct (Hok _ _ Hs) as (Hp0 & _ & Hble). pose proof Htr as [].
  destruct tr_same0 as (Hpid & Hcfg & _). destruct tr_replies0 as [Hnil _].
  apply (inv_update c (Ble.pid s) s); try done; [|lia|by left|].
  - destruct Hble as [Hp Hc _ _].
    split; rewrite ?Hnil; [|  |lia|set_solver];
      destruct tr_current0 as [->|[[-> ?]|(_ & _ & _ & ? & ?)]]; try congruence.
    rewrite Hcfg. by apply Hconf.
  - intros b Hb. destruct (timeout_ballots _ _ _ _ _ Htr Hb) as [Hin|[[-> Hle]| ->]]; [..|by right].
    + left. by eapply node_owned.
    + left. destruct Hprom as [?| ->]; [done|]. exfalso.
      destruct (node_owned c (Ble.pid s) s (Ble.leader s) Hinv Hs) as (t & Ht & _);
        [apply elem_node_ballots; by auto|].
      destruct (Hok _ _ Ht) as [Hne _]. apply Hne. unfold Ballot.default in Hle. ballot_order.
Qed.

Lemma inv_step c c' : inv c → step c c' → inv c'.
Proof.
  intros Hinv Hstep. pose proof Hinv as [Hok Hown].
  destruct Hstep as [c p s state promise r s' Hs Hprom Hconf Hround Hlead Hreps E
    |c p s m s' Hs Hm Hto E|c p s prio s' Hs E|c p s s' Hs E];
    destruct (Hok _ _ Hs) as (Hp0 & Hpid & Hble).
  - subst p. apply (inv_timeout c s promise r); try done.
    destruct (returns_elim _ _ _
      (hb_timeout_result s state promise Hround Hreps Hlead (ok_round _ Hble))) as (r1 & s1 & E1 & ?).
    rewrite E in E1. by simplify_eq.
  - assert (Hcur : Ble.current_ballot s' = Ble.current_ballot s ∧ Ble.pid s' = Ble.pid s).
    { pose proof (handle_spec m s) as E'. rewrite E in E'. injection E' as ->.
      by destruct (ble_msg m); [|destruct (_ && _)]. }
    destruct Hcur as [Hcur Hpid']. apply (inv_update c p s); try done;
      [congruence|by eapply handle_ok|by rewrite Hcur|by left|].
    intros b Hb. left. destruct (handle_ballots _ _ _ _ E Hb); [by eapply node_owned|].
    apply Hown. right. eauto.
  - injection E as <-. apply (inv_update c p s); try done; [by destruct Hble|by left|].
    intros b. rewrite elem_node_ballots. cbn. intros [->|Hb]; [by right|].
    left. eapply node_owned; [done..|]. apply elem_node_ballots. by right.
  - injection E as <-. apply (inv_update c p s); try done; [by destruct Hble| |].
    + intros m. rewrite elem_of_app. tauto.
    + intros b. rewrite elem_node_ballots. cbn. intros Hb. left.
      eapply node_owned; [done..|]. apply elem_node_ballots. set_solver.
Qed.

Lemma inv_initial c : initial c → inv c.
Proof.
  intros [Hnet Hnodes]. split.
  - intros p s Hp. destruct (Hnodes _ _ Hp) as (Hp0 & config & <- & E).
    destruct (with_fresh _ _ E) as (? & ? & _). done.
  - intros b [(p & s & Hp & Hb)|(m & Hm & _)]; [|rewrite Hnet in Hm; set_solver].
    destruct (Hnodes _ _ Hp) as (Hp0 & config & Hcp & E).
    destruct (with_fresh _ _ E) as (Hok & Hpid & Hl & Hreps & Hout).
    rewrite elem_node_ballots, Hreps, Hout, Hl in Hb.
    assert (b = Ble.current_ballot s) as ->.
    { destruct Hb as [?|[?|[(rep & Hin & _)|(m & Hin & Hb)]]]; [done|done|set_solver|].
      apply list_elem_of_fmap in Hin as (peer & -> & _). set_solver. }
    exists s. rewrite (ok_pid _ Hok), Hpid, Hcp. by split.
Qed.

Lemma reachable_inv c : reachable c → inv c.
Proof. induction 1; eauto using inv_initial, inv_step. Qed.

(** C22.  No ballot is made up: in a cluster of freshly started servers, whatever messages are
    reordered, duplicated or lost, every ballot that a server follows, has heard of or that is on
    the way is a ballot of a server of the cluster whose own round has reached it. *)
Theorem every_ballot_has_an_owner c b : reachable c → occurs c b → owned c b.
Proof. intros Hc. apply inv_owned. by apply reachable_inv. Qed.

(** C20.  A takeover is in a new round: when a heartbeat timeout moves a server to a ballot
    that is not its promise, nobody in the cluster has ever heard of a ballot of this server in
    that round, or in a later one. *)
Theorem takeover_ballot_is_fresh c p s state promise r s' b :
  reachable c → nodes c !! p = Some s →
  Ble.hb_round s + 1 < u32_mod → Ballot.n (Ble.leader s) + 1 < u32_mod →
  (∀ rep, rep ∈ Ble.heartbeat_replies s → Ballot.n (ballot rep) + 1 < u32_mod) →
  Ble.hb_timeout state promise s = (Val r, s') →
  Ble.current_ballot s' ≠ Ble.current_ballot s → Ble.current_ballot s' ≠ promise →
  occurs c b → Ballot.pid b = p →
  Ballot.n b < Ballot.n (Ble.current_ballot s').
Proof.
  intros Hc Hs Hround Hlead Hreps E Hne Hnp Hb Hpb.
  pose proof (reachable_inv c Hc) as [Hok Hown]. destruct (Hok _ _ Hs) as (_ & Hpid & Hble).
  destruct (returns_elim _ _ _
    (hb_timeout_result s state promise Hround Hreps Hlead (ok_round _ Hble))) as (r1 & s1 & E1 & Htr).
  rewrite E in E1. simplify_eq.
  destruct (Hown b Hb) as (t & Ht & Hle). simplify_eq. destruct Htr.
  destruct tr_current0 as [?|[[? _]|(_ & Hlt & _)]]; [done..|].
  pose proof (ok_round _ Hble). lia.
Qed.
End cluster.
End Cluster.
