(* ===== verification/BleChecks.v ===== *)
(** * Runs of the leader election

    An executable scheduler for [Cluster], and the concrete runs that show that the hypotheses of
    the theorems can hold. *)

From S2P Require Import Prelude Util Ballots Config Messages Ble.

#[export] Existing Instance dev_build.

Inductive action : Type :=
  | ATimeout (p : NodeId)                (* a heartbeat timeout with nothing promised *)
  | AHandle (p : NodeId) (i : nat)       (* the i-th message that was ever sent *)
  | ASend (p : NodeId).

Definition exec (a : action) (c : Cluster.t) : option Cluster.t :=
  match a with
  | ATimeout p =>
      s ← Cluster.nodes c !! p;
      if (Ble.hb_round s + 1 <? u32_mod) && (Ballot.n (Ble.leader s) + 1 <? u32_mod) &&
         forallb (λ rep, Ballot.n (ballot rep) + 1 <? u32_mod) (Ble.heartbeat_replies s) &&
         negb (p =? 0)
      then match Ble.hb_timeout (Follower, NoPhase) Ballot.default s with
           | (Val _, s') => Some (Cluster.mk (<[p := s']> (Cluster.nodes c)) (Cluster.net c))
           | _ => None
           end
      else None
  | AHandle p i =>
      s ← Cluster.nodes c !! p;
      m ← Cluster.net c !! i;
      if ble_to m =? p
      then Some (Cluster.mk (<[p := (Ble.handle m s).2]> (Cluster.nodes c)) (Cluster.net c))
      else None
  | ASend p =>
      s ← Cluster.nodes c !! p;
      Some (Cluster.mk (<[p := (Ble.outgoing_mut (λ _, []) s).2]> (Cluster.nodes c))
              (Cluster.net c ++ Ble.outgoing s))
  end.

Definition exec_all (acts : list action) (c : Cluster.t) : option Cluster.t :=
  foldl (λ oc a, oc ≫= exec a) (Some c) acts.

Lemma exec_step a c c' : exec a c = Some c' → Cluster.step c c'.
Proof.
  destruct a as [p|p i|p]; cbn; intros E.
  - apply bind_Some in E as (s & Hs & E). destruct (_ && _) eqn:Eb; [|done].
    rewrite !andb_true_iff, forallb_forall in Eb. destruct Eb as (((Hr & Hl) & Hall) & Hp).
    destruct (Ble.hb_timeout _ _ s) as [[r|f] s'] eqn:Et; simplify_eq.
    eapply Cluster.step_timeout; try done; [by right|cbn; lia|lia|lia|].
    intros rep Hin. apply list_elem_of_In, Hall in Hin. lia.
  - apply bind_Some in E as (s & Hs & E). apply bind_Some in E as (m & Hm & E).
    destruct (N.eqb_spec (ble_to m) p) as [Hto|]; simplify_eq.
    eapply Cluster.step_handle; [done|by eapply list_elem_of_lookup_2|done|].
    by rewrite handle_spec.
  - apply bind_Some in E as (s & Hs & E). simplify_eq. by eapply Cluster.step_send.
Qed.

Lemma exec_all_reachable acts c c' :
  Cluster.reachable c → exec_all acts c = Some c' → Cluster.reachable c'.
Proof.
  revert c'. induction acts as [|a acts IH] using rev_ind; intros c' Hc E.
  - by injection E as <-.
  - unfold exec_all in E. rewrite foldl_app in E. cbn in E.
    apply bind_Some in E as (c1 & E1 & E2).
    eapply Cluster.reachable_step; [by apply (IH c1)|by eapply exec_step].
Qed.

(** ** Two servers *)

Definition config_of (p : NodeId) : BLEConfig :=
  BLEConfig_from {|
    OmniPaxosConfig.cluster_config := {|
      ClusterConfig.configuration_id := 1; ClusterConfig.nodes := [1; 2];
      ClusterConfig.flexible_quorum := None |};
    OmniPaxosConfig.server_config := ServerConfig.default <| ServerConfig.pid := p |> |}.
Definition server (p : NodeId) : Ble.t := Eval vm_compute in
  match Ble.with_ (config_of p) None with
  | Val s => s
  | Panic _ => Ble.mk 0 0 [] 0 [] [] Ballot.default Ballot.default false (Quorum.Majority 0) []
  end.
Definition two_servers : Cluster.t := Cluster.mk {[1 := server 1; 2 := server 2]} [].

Lemma two_servers_initial : Cluster.initial two_servers.
Proof.
  split; [done|]. intros p s. cbn.
  intros [[<- <-]|[_ [<- <-]%lookup_singleton_Some]]%lookup_insert_Some;
    (split; [done|]); [by exists (config_of 1)|by exists (config_of 2)].
Qed.

(** Both time out without a quorum and turn unhappy; then server 1 hears this from server 2. *)
Definition both_unhappy : list action :=
  [ATimeout 1; ATimeout 2; ASend 1; AHandle 2 1; ASend 2; AHandle 1 4].
Definition unhappy_cluster : Cluster.t := Eval vm_compute in
  match exec_all both_unhappy two_servers with Some c => c | None => two_servers end.

Lemma unhappy_reachable : Cluster.reachable unhappy_cluster.
Proof.
  apply (exec_all_reachable both_unhappy two_servers);
    [apply Cluster.reachable_initial, two_servers_initial|].
  vm_compute. reflexivity.
Qed.

Definition server1 : Ble.t := Eval vm_compute in
  match Cluster.nodes unhappy_cluster !! 1 with Some s => s | None => server 1 end.

Lemma hb_timeout_correct_witness :
  returns (Ble.hb_timeout (Follower, NoPhase) Ballot.default) server1 (λ r s',
    ble_ok s' ∧ Ballot.le (Ble.leader server1) (Ble.leader s')).
Proof.
  eapply returns_mono.
  - apply (hb_timeout_correct server1 (Follower, NoPhase) Ballot.default).
    + split; cbn; try done. intros r Hr. apply list_elem_of_singleton in Hr as ->. done.
    + done.
    + done.
    + intros r Hr. cbn in Hr. apply list_elem_of_singleton in Hr as ->. done.
    + done.
  - cbn. tauto.
Defined.

Lemma every_ballot_has_an_owner_witness :
  Cluster.owned unhappy_cluster (Ble.leader server1).
Proof.
  apply Cluster.every_ballot_has_an_owner; [apply unhappy_reachable|].
  left. exists 1, server1. split; [reflexivity|]. apply Cluster.elem_node_ballots. by right; left.
Defined.

(** Server 1 takes over in round 2. *)
Definition server1_leader : Ble.t := Eval vm_compute in
  (Ble.hb_timeout (Follower, NoPhase) Ballot.default server1).2.
Example takeover_run :
  Ble.hb_timeout (Follower, NoPhase) Ballot.default server1 =
  (Val (Some (Ballot.with_ 1 2 0 1)), server1_leader).
Proof. vm_compute. reflexivity. Qed.

Lemma takeover_ballot_is_fresh_witness :
  Ballot.n (Ble.current_ballot server1) < Ballot.n (Ble.current_ballot server1_leader).
Proof.
  apply (Cluster.takeover_ballot_is_fresh unhappy_cluster 1 server1 (Follower, NoPhase)
    Ballot.default (Some (Ballot.with_ 1 2 0 1)) server1_leader (Ble.current_ballot server1)).
  - apply unhappy_reachable.
  - reflexivity.
  - reflexivity.
  - reflexivity.
  - intros r Hr. cbn in Hr. apply list_elem_of_singleton in Hr as ->. reflexivity.
  - vm_compute. reflexivity.
  - discriminate.
  - discriminate.
  - left. exists 1, server1. split; [reflexivity|]. apply Cluster.elem_node_ballots. by left.
  - reflexivity.
Defined.
