(* ===== verification/Collections.v ===== *)
(** * Library structures the sources are built on

    [std::collections::BinaryHeap], whose choice among equal keys is not specified, and the oneshot
    channels of tokio.  Both are interfaces with the behaviour their documentation promises; a list
    and a finite map implement them for the concrete runs. *)

From S2P Require Import Prelude.

(** ** Heaps

    A heap is the list of its elements, in no particular order; [heap_pop key] takes out an element
    with the smallest key ([Reverse] and the reversed order of [StoredRequest] make the maximum of
    the source a minimum here), and [peek] shows the element that [pop] would take. *)

Class BinaryHeap : Type := {
  heap_pop : ∀ {A : Type}, (A → Z) → list A → option (A * list A)
}.
Class BinaryHeapLaws `{BinaryHeap} : Prop := {
  heap_pop_none {A} (key : A → Z) (l : list A) : heap_pop key l = None ↔ l = [];
  heap_pop_some {A} (key : A → Z) (l : list A) x l' :
    heap_pop key l = Some (x, l') → l ≡ₚ x :: l' ∧ ∀ y, y ∈ l → (key x ≤ key y)%Z
}.

Definition heap_peek `{BinaryHeap} {A} (key : A → Z) (l : list A) : option A :=
  fst <$> heap_pop key l.
Definition heap_push {A} (x : A) (l : list A) : list A := x :: l.

(** An implementation: the first of the least elements. *)
Fixpoint list_pop {A} (key : A → Z) (l : list A) : option (A * list A) :=
  match l with
  | [] => None
  | x :: l' =>
      match list_pop key l' with
      | None => Some (x, [])
      | Some (y, l'') => if (key x <=? key y)%Z then Some (x, l') else Some (y, x :: l'')
      end
  end.
Definition list_heap : BinaryHeap := {| heap_pop := @list_pop |}.

Lemma list_pop_none {A} (key : A → Z) l : list_pop key l = None ↔ l = [].
Proof.
  split; [|by intros ->]. destruct l as [|x l]; [done|]. cbn.
  destruct (list_pop key l) as [[y l'']|]; [by destruct (_ <=? _)%Z|done].
Qed.
Lemma list_pop_some {A} (key : A → Z) l x l' :
  list_pop key l = Some (x, l') → l ≡ₚ x :: l' ∧ ∀ y, y ∈ l → (key x ≤ key y)%Z.
Proof.
  revert x l'. induction l as [|z l IH]; [done|]. cbn. intros x l'.
  destruct (list_pop key l) as [[y l'']|] eqn:E.
  - destruct (IH y l'' eq_refl) as [Hp Hmin].
    destruct (Z.leb_spec (key z) (key y)) as [Hle|Hlt]; intros [= <- <-].
    + split; [done|]. intros w [->|Hw]%elem_of_cons; [done|]. specialize (Hmin w Hw). lia.
    + split; [rewrite Hp; constructor|]. intros w [->|Hw]%elem_of_cons; [lia|by apply Hmin].
  - apply list_pop_none in E as ->. intros [= <- <-]. split; [done|].
    intros w [->|Hw]%elem_of_cons; [done|set_solver].
Qed.
Lemma list_heap_laws : @BinaryHeapLaws list_heap.
Proof.
  split; intros A key l; [apply list_pop_none|apply list_pop_some].
Qed.

(** ** Oneshot channels

    A channel has one sender and one receiver.  The receiver waits until a value was sent, or until
    the sender was dropped.  [peek] is the abstract state that the laws are about. *)

Inductive chan_state (V : Type) : Type :=
  | Open
  | Sent (v : V)
  | Dropped.
#[global] Arguments Open {V}.
#[global] Arguments Sent {V} v.
#[global] Arguments Dropped {V}.

Class Oneshot (V : Type) : Type := {
  chans : Type;
  chan : Type;
  chan_eq_dec : EqDecision chan;
  no_chans : chans;
  channel : chans → chan * chans;
  send : chan → V → chans → chans;
  drop_sender : chan → chans → chans;
  peek : chan → chans → option (chan_state V)
}.
#[global] Arguments chans V {_}.
#[global] Arguments chan V {_}.
#[export] Existing Instance chan_eq_dec.

Class OneshotLaws (V : Type) `{Oneshot V} : Prop := {
  peek_none c : peek c no_chans = None;
  channel_fresh cs : peek (channel cs).1 cs = None;
  peek_channel cs c : peek c (channel cs).2 = if decide (c = (channel cs).1) then Some Open
                                              else peek c cs;
  peek_send c v cs c' : peek c' (send c v cs) =
    if decide (c' = c) then match peek c cs with Some Open => Some (Sent v) | o => o end
    else peek c' cs;
  peek_drop c cs c' : peek c' (drop_sender c cs) =
    if decide (c' = c) then match peek c cs with Some Open => Some Dropped | o => o end
    else peek c' cs
}.

(** An implementation: channels are numbered. *)
Section map_oneshot.
Context {V : Type}.

Definition set_open (c : N) (st : chan_state V) (cs : gmap N (chan_state V)) :
    gmap N (chan_state V) :=
  match cs !! c with Some Open => <[c := st]> cs | _ => cs end.

Definition map_oneshot : Oneshot V := {|
  chans := gmap N (chan_state V);
  chan := N;
  no_chans := ∅;
  channel := λ cs, let c := fresh (dom cs) in (c, <[c := Open]> cs);
  send := λ c v, set_open c (Sent v);
  drop_sender := λ c, set_open c Dropped;
  peek := λ c cs, cs !! c
|}.

Lemma map_oneshot_laws : @OneshotLaws V map_oneshot.
Proof.
  split; cbn.
  - intros c. apply lookup_empty.
  - intros cs. apply not_elem_of_dom, is_fresh.
  - intros cs c. case_decide; subst; by simplify_map_eq.
  - intros c v cs c'. unfold set_open. destruct (cs !! c) as [[]|] eqn:E; case_decide; subst;
      by simplify_map_eq.
  - intros c cs c'. unfold set_open. destruct (cs !! c) as [[]|] eqn:E; case_decide; subst;
      by simplify_map_eq.
Qed.
End map_oneshot.
