(* ===== verification/Clock.v ===== *)
(** * The simulated clock of a server (crates/custom-paxos/omnipaxos/src/clock.rs)

    A clock ticks every millisecond, by a step that is off by the configured drift in a random
    direction; it notifies the deadlines it passes, and asks the master for the time every
    [sync_freq] ticks.  The random bit and the readings of the system clock are arguments.  The
    field [offset] is never read and is left out; [outgoing] is the address of the shared vector
    that the [Arc] points to. *)

From S2P Require Import Prelude Util Time Collections.

(** The mutex, the address of an [Arc<Mutex<Vec<_>>>]. *)
Definition addr := N.

Module Clock.

Record t (Ch Cs : Type) : Type := mk {
  id : N;
  master : NodeId;
  drift : Duration;
  uncertainty : Duration;
  sync_freq : N;
  logical_time : SystemTime;
  counter : N;
  deadlines : list SystemTime;
  database : gmap SystemTime Ch;
  outgoing : addr;
  timers : Cs                  (* the memory behind the channels of [database] *)
}.
#[global] Arguments mk {Ch Cs}.
#[global] Arguments id {Ch Cs}.
#[global] Arguments master {Ch Cs}.
#[global] Arguments drift {Ch Cs}.
#[global] Arguments uncertainty {Ch Cs}.
#[global] Arguments sync_freq {Ch Cs}.
#[global] Arguments logical_time {Ch Cs}.
#[global] Arguments counter {Ch Cs}.
#[global] Arguments deadlines {Ch Cs}.
#[global] Arguments database {Ch Cs}.
#[global] Arguments outgoing {Ch Cs}.
#[global] Arguments timers {Ch Cs}.
#[global] Instance settable_id {Ch} {Cs} : Settable (@id Ch Cs) := λ f r,
  mk (f (id r)) (master r) (drift r) (uncertainty r) (sync_freq r) (logical_time r) (counter r)
    (deadlines r) (database r) (outgoing r) (timers r).
#[global] Instance settable_master {Ch} {Cs} : Settable (@master Ch Cs) := λ f r,
  mk (id r) (f (master r)) (drift r) (uncertainty r) (sync_freq r) (logical_time r) (counter r)
    (deadlines r) (database r) (outgoing r) (timers r).
#[global] Instance settable_drift {Ch} {Cs} : Settable (@drift Ch Cs) := λ f r,
  mk (id r) (master r) (f (drift r)) (uncertainty r) (sync_freq r) (logical_time r) (counter r)
    (deadlines r) (database r) (outgoing r) (timers r).
#[global] Instance settable_uncertainty {Ch} {Cs} : Settable (@uncertainty Ch Cs) := λ f r,
  mk (id r) (master r) (drift r) (f (uncertainty r)) (sync_freq r) (logical_time r) (counter r)
    (deadlines r) (database r) (outgoing r) (timers r).
#[global] Instance settable_sync_freq {Ch} {Cs} : Settable (@sync_freq Ch Cs) := λ f r,
  mk (id r) (master r) (drift r) (uncertainty r) (f (sync_freq r)) (logical_time r) (counter r)
    (deadlines r) (database r) (outgoing r) (timers r).
#[global] Instance settable_logical_time {Ch} {Cs} : Settable (@logical_time Ch Cs) := λ f r,
  mk (id r) (master r) (drift r) (uncertainty r) (sync_freq r) (f (logical_time r)) (counter r)
    (deadlines r) (database r) (outgoing r) (timers r).
#[global] Instance settable_counter {Ch} {Cs} : Settable (@counter Ch Cs) := λ f r,
  mk (id r) (master r) (drift r) (uncertainty r) (sync_freq r) (logical_time r) (f (counter r))
    (deadlines r) (database r) (outgoing r) (timers r).
#[global] Instance settable_deadlines {Ch} {Cs} : Settable (@deadlines Ch Cs) := λ f r,
  mk (id r) (master r) (drift r) (uncertainty r) (sync_freq r) (logical_time r) (counter r)
    (f (deadlines r)) (database r) (outgoing r) (timers r).
#[global] Instance settable_database {Ch} {Cs} : Settable (@database Ch Cs) := λ f r,
  mk (id r) (master r) (drift r) (uncertainty r) (sync_freq r) (logical_time r) (counter r)
    (deadlines r) (f (database r)) (outgoing r) (timers r).
#[global] Instance settable_outgoing {Ch} {Cs} : Settable (@outgoing Ch Cs) := λ f r,
  mk (id r) (master r) (drift r) (uncertainty r) (sync_freq r) (logical_time r) (counter r)
    (deadlines r) (database r) (f (outgoing r)) (timers r).
#[global] Instance settable_timers {Ch} {Cs} : Settable (@timers Ch Cs) := λ f r,
  mk (id r) (master r) (drift r) (uncertainty r) (sync_freq r) (logical_time r) (counter r)
    (deadlines r) (database r) (outgoing r) (f (timers r)).

Section ops.
Context `{Build, BinaryHeap, Oneshot unit}.
Abbreviation Self := (t (chan unit) (chans unit)).

Definition new (id : N) (mas : NodeId) (drift uncertainty : Duration) (sync_freq : N)
    (outgoing : addr) (now : SystemTime) : Self := {|
  id := id; master := mas; drift := drift; uncertainty := uncertainty; sync_freq := sync_freq;
  logical_time := now; counter := 0; deadlines := []; database := ∅; outgoing := outgoing;
  timers := no_chans
|}.

Definition set_outgoing (outgoing' : addr) : M Self unit :=
  modify (λ c, c <| outgoing := outgoing' |>).

(** The body of the [while] loop, as long as there is fuel; the result are the senders that the
    loop spawned a task for. *)
Fixpoint process_deadlines_loop (fuel : nat) (fired : list (chan unit)) :
    M Self (list (chan unit)) :=
  match fuel with
  | O => ret fired
  | S fuel' =>
      let* c := gets (λ c, c) in
      if match heap_peek (λ d, d) (deadlines c) with
         | Some deadline => (deadline <? logical_time c)%Z
         | None => false
         end
      then
        let* popped := unwrap (heap_pop (λ d, d) (deadlines c)) in
        let deadline := popped.1 in
        let* _ := modify (λ c, c <| deadlines := popped.2 |>) in
        match database c !! deadline with
        | Some sender =>
            let* _ := modify (λ c, c <| database ::= delete deadline |>) in
            process_deadlines_loop fuel' (fired ++ [sender])
        | None => process_deadlines_loop fuel' fired
        end
      else ret fired
  end.
Definition process_deadlines : M Self (list (chan unit)) :=
  let* c := gets (λ c, c) in
  process_deadlines_loop (S (length (deadlines c))) [].

(** One iteration of [tick_fn]: whether to resynchronize, and the senders to fire. *)
Definition tick (gen_bool : bool) : M Self (bool * list (chan unit)) :=
  let* c := gets (λ c, c) in
  let* n := lift (wadd u32_mod (counter c) 1) in
  let* _ := modify (λ c, c <| counter := n |>) in
  let step := from_millis 1 in
  let* d := (if gen_bool then lift (duration_add step (drift c))
             else ret (duration_saturating_sub step (drift c))) in
  let* now := lift (time_add (logical_time c) d) in
  let* _ := modify (λ c, c <| logical_time := now |>) in
  let* fired := process_deadlines in
  let* c := gets (λ c, c) in
  if sync_freq c <=? counter c then
    let* _ := modify (λ c, c <| counter := 0 |>) in
    ret (true, fired)
  else ret (false, fired).

Definition get_time : M Self SystemTime := gets logical_time.

Definition new_deadline : M Self SystemTime :=
  let* logical_time := gets logical_time in
  lift (time_add logical_time (from_millis 20)).

Definition get_uncertainty : M Self Duration :=
  let* state := gets (λ c, c) in
  let* d := lift (duration_mul (counter state) (drift state)) in
  lift (duration_add (uncertainty state) d).

Definition resync (real_time : SystemTime) : M Self unit :=
  let* _ := modify (λ c, c <| logical_time := real_time |>) in
  let* _ := modify (λ c, c <| counter := 0 |>) in
  modify (λ c, c <| uncertainty := 0 |>).

(** The end of [sync_with_master], when the master's time has arrived: [t0] and [t1] are the system
    times before and after. *)
Definition finish_sync (t0 t1 leader_time : SystemTime) : M Self unit :=
  let* rtt := expect (ret (duration_since t1 t0)) in
  let owd := duration_div rtt 2 in
  let* corrected := lift (time_add leader_time owd) in
  resync corrected.

(** [add_deadline]: an entry that the insertion replaces is dropped, and its sender with it. *)
Definition add_deadline (deadline : SystemTime) : M Self (chan unit) :=
  let* c := gets (λ c, c) in
  let '(ch, cs) := channel (timers c) in
  let* _ := modify (λ c, c <| timers := cs |>) in
  let* _ := modify (λ c, c <| deadlines ::= heap_push deadline |>) in
  let* _ := match database c !! deadline with
            | Some old => modify (λ c, c <| timers ::= drop_sender old |>)
            | None => ret tt
            end in
  let* _ := modify (λ c, c <| database ::= <[deadline := ch]> |>) in
  ret ch.

End ops.

End Clock.

(** ** Deadlines *)

Section deadlines.
Context `{Build, BinaryHeap, !BinaryHeapLaws, Oneshot unit}.
Abbreviation ClockState := (Clock.t (chan unit) (chans unit)).
Implicit Types c : ClockState.
Import Clock.

(** The deadlines the clock has passed. *)
Definition due c (d : SystemTime) : Prop := d ∈ deadlines c ∧ (d < logical_time c)%Z.
#[global] Instance due_dec c d : Decision (due c d).
Proof. unfold due. apply _. Defined.

Definition processed c (fired fired' : list (chan unit)) c' : Prop :=
  (∀ d, d ∈ deadlines c' ↔ d ∈ deadlines c ∧ (logical_time c ≤ d)%Z) ∧
  (∀ d, due c d → database c' !! d = None) ∧
  (∀ d, ¬ due c d → database c' !! d = database c !! d) ∧
  (∀ ch, ch ∈ fired' ↔ ch ∈ fired ∨ ∃ d, due c d ∧ database c !! d = Some ch) ∧
  c' <| deadlines := deadlines c |> <| database := database c |> = c.

Lemma process_loop_done fuel fired c :
  (∀ d, d ∈ deadlines c → (logical_time c ≤ d)%Z) →
  process_deadlines_loop fuel fired c = (Val fired, c).
Proof.
  intros Hnone. destruct fuel as [|fuel]; [done|]. cbn. unfold bind, gets, heap_peek.
  destruct (heap_pop _ _) as [[d rest]|] eqn:E; cbn; [|done].
  destruct (Z.ltb_spec d (logical_time c)) as [Hlt|]; [|done].
  apply heap_pop_some in E as [Hp _]. exfalso.
  assert (d ∈ deadlines c) as Hd by (rewrite Hp; left). specialize (Hnone d Hd). lia.
Qed.

(** One iteration. *)
Lemma process_loop_step fuel fired c d rest :
  heap_pop (λ d, d) (deadlines c) = Some (d, rest) → (d < logical_time c)%Z →
  process_deadlines_loop (S fuel) fired c =
  process_deadlines_loop fuel
    (fired ++ match database c !! d with Some ch => [ch] | None => [] end)
    (c <| deadlines := rest |> <| database ::= delete d |>).
Proof.
  intros E Hlt. cbn [process_deadlines_loop]. unfold bind at 1, gets, heap_peek. rewrite E. cbn.
  rewrite (proj2 (Z.ltb_lt _ _) Hlt). unfold bind, ret, modify. cbn.
  destruct (database c !! d) as [ch|] eqn:Ed; [done|]. rewrite app_nil_r. f_equal.
  destruct c. cbn in *. unfold settable_database. cbn. f_equal. by rewrite delete_id.
Qed.

Lemma processed_none fired c :
  (∀ d, d ∈ deadlines c → (logical_time c ≤ d)%Z) → processed c fired fired c.
Proof.
  intros Hnone. assert (Hno : ∀ d, ¬ due c d).
  { intros d [Hin Hlt]. specialize (Hnone d Hin). lia. }
  split_and!; [naive_solver|naive_solver|done|naive_solver|by destruct c].
Qed.

Lemma processed_step fired fired' c c' d rest :
  heap_pop (λ d, d) (deadlines c) = Some (d, rest) → (d < logical_time c)%Z →
  let c1 := c <| deadlines := rest |> <| database ::= delete d |> in
  processed c1 (fired ++ match database c !! d with Some ch => [ch] | None => [] end) fired' c' →
  processed c fired fired' c'.
Proof.
  intros E Hlt c1 (Hd & Hnone & Hsame & Hfired & Hrest).
  pose proof (heap_pop_some _ _ _ _ E) as [Hp _].
  assert (Hin : ∀ x, x ∈ deadlines c ↔ x = d ∨ x ∈ rest)
    by (intros x; rewrite Hp; apply elem_of_cons).
  assert (Hdb : ∀ x, database c1 !! x = if decide (d = x) then None else database c !! x).
  { intros x. cbn. case_decide; subst; by simplify_map_eq. }
  unfold processed, due in *. change (deadlines c1) with rest in *.
  change (logical_time c1) with (logical_time c) in *. split_and!.
  - intros x. rewrite Hd, Hin. naive_solver lia.
  - intros x [[->|Hx]%Hin Hxlt]; [|by apply Hnone].
    destruct (decide (d ∈ rest)); [by apply Hnone|]. rewrite Hsame, Hdb by tauto.
    by rewrite decide_True.
  - intros x Hx. rewrite Hin in Hx. rewrite Hsame, Hdb by tauto.
    rewrite decide_False; [done|]. intros ->. tauto.
  - intros ch. rewrite Hfired, elem_of_app.
    setoid_rewrite Hin. setoid_rewrite Hdb.
    assert (Hfst : ∀ x, database c !! x = Some ch →
      ch ∈ match database c !! x with Some ch => [ch] | None => [] end)
      by (intros x ->; left).
    split.
    + intros [[Hf|Hf]|(x & [Hx Hxlt] & Hch)]; [by left| |].
      * destruct (database c !! d) as [ch'|] eqn:Ed; [|set_solver].
        apply list_elem_of_singleton in Hf as ->. right. exists d. auto.
      * right. exists x. case_decide; [done|]. auto.
    + intros [Hf|(x & [[->|Hx] Hxlt] & Hch)]; [by left; left| |].
      * left; right. apply Hfst, Hch.
      * destruct (decide (d = x)) as [->|Hne]; [left; right; apply Hfst, Hch|].
        right. exists x. by rewrite decide_False.
  - destruct c, c'. by injection Hrest as <- <- <- <- <- <- <- <- <-.
Qed.

Lemma process_loop_spec fuel fired c :
  (length (deadlines c) < fuel)%nat →
  returns (process_deadlines_loop fuel fired) c (λ fired' c', processed c fired fired' c').
Proof.
  revert fired c. induction fuel as [|fuel IH]; intros fired c Hfuel; [lia|].
  destruct (heap_pop (λ d, d) (deadlines c)) as [[d rest]|] eqn:E.
  2:{ apply heap_pop_none in E. assert (∀ d, d ∈ deadlines c → (logical_time c ≤ d)%Z) as Hno
        by (rewrite E; by intros d ?%elem_of_nil).
      eapply returns_intro; [by apply process_loop_done|by apply processed_none]. }
  pose proof (heap_pop_some _ _ _ _ E) as [Hp Hmin].
  destruct (Z.lt_ge_cases d (logical_time c)) as [Hlt|Hge].
  - unfold returns. rewrite (process_loop_step fuel fired c d rest E Hlt).
    eapply returns_mono; [apply IH|].
    + apply Permutation_length in Hp. change (length rest < fuel)%nat.
      unfold SystemTime in *. cbn in Hp. lia.
    + intros fired' c'. by apply (processed_step fired fired' c c' d rest).
  - assert (∀ d, d ∈ deadlines c → (logical_time c ≤ d)%Z) as Hno
      by (intros d' Hd'; specialize (Hmin d' Hd'); cbv beta in Hmin; lia).
    eapply returns_intro; [by apply process_loop_done|by apply processed_none].
Qed.

Lemma process_deadlines_frame c :
  returns process_deadlines c (λ _ c',
    c' <| deadlines := deadlines c |> <| database := database c |> = c).
Proof.
  unfold process_deadlines. wp. eapply returns_mono; [apply process_loop_spec; lia|].
  by intros fired c' (_ & _ & _ & _ & Hrest).
Qed.

(** C24.  Deadlines.  Processing terminates; it removes exactly the deadlines that the clock
    has passed, in the heap and in the database, fires exactly the senders registered for them, and
    touches nothing else. *)
Theorem process_deadlines_fires_exactly_due c :
  returns process_deadlines c (λ fired c',
    (∀ d, d ∈ deadlines c' ↔ d ∈ deadlines c ∧ (logical_time c ≤ d)%Z) ∧
    (∀ d, database c' !! d = if decide (due c d) then None else database c !! d) ∧
    (∀ ch, ch ∈ fired ↔ ∃ d, due c d ∧ database c !! d = Some ch) ∧
    logical_time c' = logical_time c ∧ timers c' = timers c ∧ counter c' = counter c).
Proof.
  unfold process_deadlines. wp. eapply returns_mono; [apply process_loop_spec; lia|].
  intros fired c' (Hd & Hnone & Hsame & Hfired & Hrest). split_and!; [done| | | | |].
  - intros d. case_decide; auto.
  - intros ch. rewrite Hfired. split; [intros [?%elem_of_nil|?]|]; tauto.
  - by rewrite <-Hrest.
  - by rewrite <-Hrest.
  - by rewrite <-Hrest.
Qed.
End deadlines.

Section timers.
Context `{Build, BinaryHeap, Oneshot unit, !OneshotLaws unit}.
Abbreviation ClockState := (Clock.t (chan unit) (chans unit)).
Implicit Types c : ClockState.
Import Clock.

(** Each deadline of the heap has one open channel in the database. *)
Record clock_sync c : Prop := {
  sync_nodup : NoDup (deadlines c);
  sync_dom d : d ∈ deadlines c ↔ is_Some (database c !! d);
  sync_open d ch : database c !! d = Some ch → peek ch (timers c) = Some Open
}.

(** Registering a deadline.  The waiter gets a new open channel.  If the deadline is
    not registered yet, heap and database stay in step and nobody else is affected.  If it is,
    the earlier waiter's sender is dropped: two requests with one deadline cannot both be
    notified. *)
Theorem add_deadline_registers (deadline : SystemTime) c :
  clock_sync c →
  returns (add_deadline deadline) c (λ ch c',
    database c' = <[deadline := ch]> (database c) ∧ peek ch (timers c) = None ∧
    peek ch (timers c') = Some Open ∧ logical_time c' = logical_time c ∧
    match database c !! deadline with
    | None => clock_sync c' ∧
              ∀ ch', ch' ≠ ch → peek ch' (timers c') = peek ch' (timers c)
    | Some old => old ≠ ch ∧ peek old (timers c') = Some Dropped
    end).
Proof.
  intros [Hnd Hdom Hopen]. unfold add_deadline. wp.
  pose proof (channel_fresh (timers c)) as Hfresh. pose proof (peek_channel (timers c)) as Hpeek.
  destruct (channel (timers c)) as [ch cs]. cbn in Hfresh, Hpeek. wp.
  assert (Hne : ∀ d old, database c !! d = Some old → old ≠ ch).
  { intros d old Hold ->. rewrite (Hopen _ _ Hold) in Hfresh. done. }
  destruct (database c !! deadline) as [old|] eqn:Eold; wp; cbn; split_and!; try done.
  - rewrite peek_drop, decide_False by (apply not_eq_sym; by eapply Hne).
    rewrite Hpeek. by rewrite decide_True.
  - by eapply Hne.
  - rewrite peek_drop, decide_True by done. rewrite Hpeek.
    rewrite decide_False by (by eapply Hne). by rewrite (Hopen _ _ Eold).
  - rewrite Hpeek. by rewrite decide_True.
  - split; cbn.
    + constructor; [|done]. rewrite Hdom, Eold. by intros [].
    + intros d. unfold heap_push. rewrite elem_of_cons, Hdom. rewrite lookup_insert_is_Some.
      destruct (decide (deadline = d)); naive_solver.
    + intros d ch' [[<- <-]|[Hd Hch']]%lookup_insert_Some; rewrite Hpeek; [by rewrite decide_True|].
      rewrite decide_False by (by eapply Hne). by eapply Hopen.
  - intros ch' Hch'. rewrite Hpeek. by rewrite decide_False.
Qed.
End timers.

(** ** Drift and uncertainty *)

Section drift.
Context `{Build, BinaryHeap, !BinaryHeapLaws, Oneshot unit}.
Abbreviation ClockState := (Clock.t (chan unit) (chans unit)).
Implicit Types c : ClockState.
Import Clock.

Definition ms : Z := 1000000.

(** Some iterations of the loop of [tick_fn]. *)
Fixpoint ticks (bits : list bool) : M ClockState (list bool) :=
  match bits with
  | [] => ret []
  | b :: bits' =>
      let* r := tick b in
      let* rs := ticks bits' in
      ret (r.1 :: rs)
  end.

(** A clock that can run for [k] milliseconds without leaving the range of its types. *)
Definition fits c (k : nat) : Prop :=
  counter c < sync_freq c ∧ sync_freq c < u32_mod ∧
  (from_millis 1 + drift c < duration_limit) ∧
  (logical_time c + Z.of_nat k * Z.of_N (from_millis 1 + drift c) < time_limit)%Z.

Lemma tick_spec b c k :
  fits c (S k) →
  returns (tick b) c (λ r c',
    fits c' k ∧ drift c' = drift c ∧ sync_freq c' = sync_freq c ∧ uncertainty c' = uncertainty c ∧
    r.1 = (counter c + 1 =? sync_freq c) ∧
    counter c' = (if counter c + 1 =? sync_freq c then 0 else counter c + 1) ∧
    (Z.abs (logical_time c' - (logical_time c + ms)) ≤ Z.of_N (drift c))%Z).
Proof.
  intros (Hcount & Hfreq & Hdur & Htime). unfold tick. wp.
  eapply returns_lift; [apply wadd_exact; lia|]. cbv beta. wp.
  assert (Hd : ∃ d, (if b then lift (duration_add (from_millis 1) (drift c))
    else ret (duration_saturating_sub (from_millis 1) (drift c))) = (ret d : M ClockState N) ∧
    d ≤ from_millis 1 + drift c ∧
    (Z.abs (Z.of_N d - ms) ≤ Z.of_N (drift c))%Z).
  { destruct b; eexists; (split; [|split]).
    - unfold ret, lift. by rewrite duration_add_exact.
    - lia.
    - unfold from_millis, ms. lia.
    - reflexivity.
    - unfold duration_saturating_sub. lia.
    - unfold duration_saturating_sub, from_millis, ms. lia. }
  destruct Hd as (d & -> & Hdle & Hdabs). wp.
  eapply returns_lift; [apply time_add_exact; cbn; nia|]. cbv beta. wp.
  eapply returns_mono; [apply process_deadlines_frame|].
  intros fired c' Hrest. destruct c as [cid cm cdr cu cf cl cn cds cdb co ct], c'. cbn in *.
  injection Hrest as -> -> -> -> -> -> -> -> ->. wp. cbn.
  destruct (N.eqb_spec (cn + 1) cf) as [<-|Hne].
  - decide_cmp. wp. cbn. unfold fits. cbn. split_and!; try done; try lia; nia.
  - decide_cmp. wp. cbn. unfold fits. cbn. split_and!; try done; try lia; nia.
Qed.

(** What the clock reports for its uncertainty, when nothing overflows. *)
Lemma get_uncertainty_eq c :
  uncertainty c + counter c * drift c < duration_limit →
  get_uncertainty c = (Val (uncertainty c + counter c * drift c), c).
Proof.
  intros Hlt. unfold get_uncertainty, bind, gets, lift.
  rewrite duration_mul_exact by lia. by rewrite duration_add_exact.
Qed.

Lemma counter_succ_mod n k m :
  n < m → (n + (1 + k)) mod m = ((if n + 1 =? m then 0 else n + 1) + k) mod m.
Proof.
  intros Hlt. destruct (N.eqb_spec (n + 1) m) as [<-|Hne]; [|f_equal; lia].
  replace (n + (1 + k)) with (0 + k + 1 * (n + 1)) by lia. by rewrite N.Div0.mod_add.
Qed.

(** Some ticks: the drift adds up, the counter goes round, and a resynchronization is due when it
    comes back to 0. *)
Lemma ticks_spec bits c :
  fits c (length bits) →
  returns (ticks bits) c (λ rs c',
    let k := Z.of_nat (length bits) in
    (Z.abs (logical_time c' - (logical_time c + k * ms)) ≤ k * Z.of_N (drift c))%Z ∧
    drift c' = drift c ∧ uncertainty c' = uncertainty c ∧ sync_freq c' = sync_freq c ∧
    counter c' = (counter c + len bits) mod sync_freq c ∧
    (counter c + len bits < sync_freq c → ∀ r, r ∈ rs → r = false)).
Proof.
  revert c. induction bits as [|b bits IH]; intros c Hfits; cbn [ticks length] in *; wp.
  - rewrite len_nil. destruct Hfits as [Hcount _]. split_and!; [lia|done..| |].
    + rewrite N.mod_small; lia.
    + by intros _ r ?%elem_of_nil.
  - assert (Hcount : counter c < sync_freq c) by apply Hfits.
    eapply returns_mono; [by apply tick_spec|].
    intros r c1 (Hf & Hd & Hq & Hu & Hr & Hc & Habs).
    wp. eapply returns_mono; [by apply IH|]. intros rs c2 (Habs2 & Hd2 & Hu2 & Hq2 & Hc2 & Hrs). wp.
    rewrite Hd in *. rewrite len_cons. split_and!; [|congruence..| |].
    + unfold ms in *. nia.
    + rewrite Hc2, Hc, Hq. replace (len bits + 1) with (1 + len bits) by lia.
      by rewrite counter_succ_mod.
    + intros Hlt. rewrite Hq, Hc in Hrs. rewrite (proj2 (N.eqb_neq _ _)) in Hrs, Hr by lia.
      intros r' [->|Hin]%elem_of_cons; [done|]. apply Hrs; [lia|done].
Qed.

(** C25.  The drift bound and the reported uncertainty.  After [k] ticks the clock is at most [k]
    times the drift away from the time that has passed, whatever the random bits are, and
    [get_uncertainty] answers the initial uncertainty plus the drift of the ticks since the
    counter was last 0.  While no resynchronization was due the answer is an upper bound of the
    error: if the clock was within its reported uncertainty of a reference time at the
    beginning, it is within what it reports of that reference time after the ticks. *)
Theorem ticks_within_uncertainty bits c :
  fits c (length bits) →
  uncertainty c + sync_freq c * drift c < duration_limit →
  returns (let* rs := ticks bits in let* u := get_uncertainty in ret (rs, u)) c (λ r c',
    let '(rs, u) := r in
    let k := Z.of_nat (length bits) in
    (Z.abs (logical_time c' - (logical_time c + k * ms)) ≤ k * Z.of_N (drift c))%Z ∧
    drift c' = drift c ∧ uncertainty c' = uncertainty c ∧
    u = uncertainty c + (counter c + len bits) mod sync_freq c * drift c ∧
    (counter c + len bits < sync_freq c →
     u = uncertainty c + (counter c + len bits) * drift c ∧
     (∀ asked, asked ∈ rs → asked = false) ∧
     ∀ T : Z, (Z.abs (logical_time c - T) ≤ Z.of_N (uncertainty c + counter c * drift c))%Z →
       (Z.abs (logical_time c' - (T + k * ms)) ≤ Z.of_N u)%Z)).
Proof.
  intros Hfits Hdur. assert (Hcount : counter c < sync_freq c) by apply Hfits.
  wp. eapply returns_mono; [by apply ticks_spec|].
  intros rs c' (Habs & Hd & Hu & Hq & Hc & Hrs). cbv zeta in Habs.
  pose proof (N.mod_upper_bound (counter c + len bits) (sync_freq c) ltac:(lia)) as Hmod.
  wp. eapply returns_intro; [apply get_uncertainty_eq; rewrite Hd, Hu, Hc; nia|]. wp.
  rewrite Hd, Hu, Hc. split_and!; [done..|]. intros Hlt. rewrite N.mod_small by done.
  split_and!; [done|auto|]. intros T HT. unfold len in *. nia.
Qed.

(** Synchronization with the master.  If the master read its clock at some moment between
    the two local readings, the corrected time is off by at most half the round trip (and the
    rounding of the division); but the clock then reports an uncertainty of zero. *)
Theorem finish_sync_error (t0 ts t1 leader_time : SystemTime) c :
  (t0 ≤ ts ≤ t1)%Z → (leader_time + (t1 - t0) < time_limit)%Z →
  let master_now := (leader_time + (t1 - ts))%Z in
  returns (let* _ := finish_sync t0 t1 leader_time in get_uncertainty) c (λ u c',
    (2 * Z.abs (logical_time c' - master_now) ≤ t1 - t0 + 1)%Z ∧ u = 0).
Proof.
  intros Hts Hlim mn. unfold finish_sync. wp. unfold duration_since.
  rewrite (proj2 (Z.leb_le _ _)) by lia. wp. unfold duration_div.
  assert (Hdiv : (Z.to_N (t1 - t0) = 2 * (Z.to_N (t1 - t0) / 2) + Z.to_N (t1 - t0) mod 2)%N)
    by apply N.Div0.div_mod.
  pose proof (N.mod_upper_bound (Z.to_N (t1 - t0)) 2 ltac:(done)) as Hmod.
  set (owd := Z.to_N (t1 - t0) / 2) in *. set (m := Z.to_N (t1 - t0) mod 2) in *.
  eapply returns_lift; [apply time_add_exact; lia|]. unfold resync. wp.
  eapply returns_intro; [apply get_uncertainty_eq; cbn; unfold duration_limit; lia|]. cbn.
  split; [|done]. subst mn. lia.
Qed.
End drift.
