(* ===== verification/ClockChecks.v ===== *)
(** * Concrete clocks *)

From S2P Require Import Prelude Util Time Collections Clock.

#[export] Existing Instances list_heap list_heap_laws dev_build.
#[export] Existing Instances map_oneshot map_oneshot_laws.

Abbreviation ClockState := (Clock.t (chan unit) (chans unit)).

(** A clock at time zero with a drift of 10 microseconds, that resynchronizes every 4 ticks. *)
Definition clock : ClockState := Clock.new 1 2 (from_micros 10) 0 4 0 0%Z.

(** Two deadlines, one of them in the first millisecond. *)
Definition with_deadlines : ClockState := Eval vm_compute in
  let c := ((let* _ := Clock.add_deadline 500000%Z in Clock.add_deadline 5000000%Z) clock).2 in
  c <| Clock.logical_time := 1000000%Z |>.

Lemma clock_is_synced : clock_sync clock.
Proof.
  split; cbn; [constructor| |].
  - intros d. rewrite lookup_empty. split; [by intros ?%elem_of_nil|by intros []].
  - intros d ch. by rewrite lookup_empty.
Qed.

Lemma add_deadline_registers_witness :
  returns (Clock.add_deadline 500000%Z) clock (λ ch c', clock_sync c' ∧ peek ch (Clock.timers c') = Some Open).
Proof.
  eapply returns_mono; [apply (add_deadline_registers 500000%Z clock), clock_is_synced|].
  intros ch c' (_ & _ & Hopen & _ & Hsync).
  change (Clock.database clock !! 500000%Z) with (@None (chan unit)) in Hsync.
  split; [apply Hsync|exact Hopen].
Defined.

(** Two requests with one deadline: the first waiter is told that the sender is gone, the heap has
    the deadline twice and the database once. *)
Example equal_deadlines_drop_a_waiter :
  ((let* first := Clock.add_deadline 500000%Z in
   let* second := Clock.add_deadline 500000%Z in
   let* c := gets (λ c, c) in
   ret (peek first (Clock.timers c), peek second (Clock.timers c), Clock.deadlines c))
    clock).1 = Val (Some Dropped, Some Open, [500000%Z; 500000%Z]).
Proof. vm_compute. reflexivity. Qed.

Lemma process_deadlines_witness :
  returns Clock.process_deadlines with_deadlines (λ fired c',
    ∀ d, d ∈ Clock.deadlines c' ↔ d ∈ Clock.deadlines with_deadlines ∧ (1000000 ≤ d)%Z).
Proof.
  eapply returns_mono; [apply process_deadlines_fires_exactly_due|].
  intros fired c' [Hd _]. exact Hd.
Defined.

Example process_deadlines_run :
  (Clock.process_deadlines with_deadlines).1 = Val [0%N] ∧
  Clock.deadlines (Clock.process_deadlines with_deadlines).2 = [5000000%Z].
Proof. vm_compute. done. Qed.

Lemma clock_fits : fits clock 3.
Proof. unfold fits. vm_compute. done. Qed.

Lemma ticks_within_uncertainty_witness :
  returns (let* rs := ticks [true; true; false] in let* u := Clock.get_uncertainty in ret (rs, u))
    clock (λ r c',
    (Z.abs (Clock.logical_time c' - 3000000) ≤ 30000)%Z ∧ r.2 = 30000 ∧
    (Z.abs (Clock.logical_time c' - 3000000) ≤ Z.of_N r.2)%Z).
Proof.
  eapply returns_mono; [apply (ticks_within_uncertainty [true; true; false] clock)|].
  - apply clock_fits.
  - vm_compute. reflexivity.
  - intros [rs u] c' (Habs & _ & _ & Hu & Hsync). split; [exact Habs|]. split; [exact Hu|].
    destruct Hsync as (_ & _ & Hsync); [vm_compute; reflexivity|].
    apply (Hsync 0%Z). vm_compute. discriminate.
Defined.

Lemma finish_sync_error_witness :
  returns (let* _ := Clock.finish_sync 0%Z 1000%Z 5000%Z in Clock.get_uncertainty) clock (λ u c',
    (2 * Z.abs (Clock.logical_time c' - 6000) ≤ 1001)%Z ∧ u = 0).
Proof. apply (finish_sync_error 0%Z 0%Z 1000%Z 5000%Z clock); [done|vm_compute; reflexivity]. Defined.

(** The tick that asks for a resynchronization resets the counter, although the answer has not come
    yet: the clock is 40 microseconds off, and reports an uncertainty of zero. *)
Theorem uncertainty_forgotten_before_resync :
  ((let* rs := ticks [true; true; true; true] in
   let* u := Clock.get_uncertainty in
   let* now := Clock.get_time in
   ret (rs, u, now)) clock).1 =
  Val ([false; false; false; true], 0, (4 * 1000000 + 40000)%Z).
Proof. vm_compute. reflexivity. Qed.
