(* ===== verification/Buffers.v ===== *)
(** * The early and late buffers (crates/custom-paxos/omnipaxos/src/buffers.rs)

    Requests wait in [early] until the waiter task takes them out in the order of their deadlines;
    a follower puts requests that arrive after their turn into [late], the leader gives them a new
    deadline.  A function here is what one task does while it holds the lock; [Replica] interleaves
    them.  [channels] is the memory behind the oneshot channels. *)

From Stdlib Require Import Sorted.
From S2P Require Import Prelude Util Time StorageApi Collections.

Module Buffers.

Record t (R Ch Cs : Type) : Type := mk {
  early : list R;
  notifiers : gmap N Ch;
  late : gmap N R;
  last_released_deadline : option SystemTime;
  channels : Cs
}.
#[global] Arguments mk {R Ch Cs}.
#[global] Arguments early {R Ch Cs}.
#[global] Arguments notifiers {R Ch Cs}.
#[global] Arguments late {R Ch Cs}.
#[global] Arguments last_released_deadline {R Ch Cs}.
#[global] Arguments channels {R Ch Cs}.
#[global] Instance settable_early {R} {Ch} {Cs} : Settable (@early R Ch Cs) := λ f r,
  mk (f (early r)) (notifiers r) (late r) (last_released_deadline r) (channels r).
#[global] Instance settable_notifiers {R} {Ch} {Cs} : Settable (@notifiers R Ch Cs) := λ f r,
  mk (early r) (f (notifiers r)) (late r) (last_released_deadline r) (channels r).
#[global] Instance settable_late {R} {Ch} {Cs} : Settable (@late R Ch Cs) := λ f r,
  mk (early r) (notifiers r) (f (late r)) (last_released_deadline r) (channels r).
#[global] Instance settable_last_released_deadline {R} {Ch} {Cs} : Settable (@last_released_deadline R Ch Cs) := λ f r,
  mk (early r) (notifiers r) (late r) (f (last_released_deadline r)) (channels r).
#[global] Instance settable_channels {R} {Ch} {Cs} : Settable (@channels R Ch Cs) := λ f r,
  mk (early r) (notifiers r) (late r) (last_released_deadline r) (f (channels r)).

Section ops.
Context {R : Type} `{Request R, BinaryHeap, Oneshot R}.
Abbreviation Self := (t R (chan R) (chans R)).

(** [StoredRequest] in the heap [early]: [Ord] (reversed, since [BinaryHeap] takes out a maximum) and
    [PartialEq]. *)
Definition StoredRequest_cmp (self other : R) : comparison :=
  (get_deadline other ?= get_deadline self)%Z.
Definition StoredRequest_eq (self other : R) : bool := (get_deadline self =? get_deadline other)%Z.

(** The order and the equality agree, and a maximum is a request with the least deadline, which is
    what [heap_pop get_deadline] takes out. *)
Lemma StoredRequest_cmp_eq a b : StoredRequest_cmp a b = Eq ↔ StoredRequest_eq a b = true.
Proof. unfold StoredRequest_cmp, StoredRequest_eq. rewrite Z.compare_eq_iff, Z.eqb_eq. naive_solver. Qed.
Lemma stored_maximum r l l' :
  `{BinaryHeapLaws} → heap_pop get_deadline l = Some (r, l') →
  ∀ r', r' ∈ l → StoredRequest_cmp r' r ≠ Gt.
Proof.
  intros Hlaws [_ Hmin]%heap_pop_some r' Hr'. specialize (Hmin r' Hr').
  unfold StoredRequest_cmp. by apply Z.compare_le_iff.
Qed.

Definition new : Self := {|
  early := []; notifiers := ∅; late := ∅; last_released_deadline := None; channels := no_chans
|}.

(** Storing a sender drops the one it replaces. *)
Definition set_notifier (id : N) (tx : chan R) : M Self unit :=
  let* b := gets (λ b, b) in
  let* _ := match notifiers b !! id with
            | Some old => modify (λ b, b <| channels ::= drop_sender old |>)
            | None => ret tt
            end in
  modify (λ b, b <| notifiers ::= <[id := tx]> |>).

(** Whether the turn of a request has not passed yet. *)
Definition eligible (r : R) (b : Self) : bool :=
  match last_released_deadline b with
  | None => true
  | Some last => (last <? get_deadline r)%Z
  end.

(** [clock_deadline] is what [clock.new_deadline()] returns while the lock is held. *)
Definition insert (r : R) (im_leader : bool) (clock_deadline : outcome SystemTime) :
    M Self (chan R * option SystemTime) :=
  let* b := gets (λ b, b) in
  let '(ch, cs) := channel (channels b) in
  let* _ := modify (λ b, b <| channels := cs |>) in
  let* _ := set_notifier (get_id r) ch in
  let* new_deadline :=
    (if eligible r b then
       let* _ := modify (λ b, b <| early ::= heap_push r |>) in
       ret None
     else if im_leader then
       let* new_deadline := lift clock_deadline in
       let* _ := modify (λ b, b <| early ::= heap_push (set_deadline new_deadline r) |>) in
       ret (Some new_deadline)
     else
       let* _ := modify (λ b, b <| late ::= <[get_id r := r]> |>) in
       ret None) in
  ret (ch, new_deadline).

Definition free_from_late (id : N) (new_deadline : SystemTime) : M Self unit :=
  let* b := gets (λ b, b) in
  match late b !! id with
  | Some r =>
      let* _ := modify (λ b, b <| late ::= delete id |>) in
      modify (λ b, b <| early ::= heap_push (set_deadline new_deadline r) |>)
  | None => ret tt
  end.

(** The inner loop of [waiter]: the first request and its notifier, if there is a request. *)
Definition waiter_pop : M Self (option (option (chan R) * R)) :=
  let* b := gets (λ b, b) in
  match heap_pop get_deadline (early b) with
  | Some (req, rest) =>
      let* _ := modify (λ b, b <| early := rest |>) in
      let* _ := modify (λ b, b <| last_released_deadline := Some (get_deadline req) |>) in
      let sender := notifiers b !! get_id req in
      let* _ := modify (λ b, b <| notifiers ::= delete (get_id req) |>) in
      ret (Some (sender, req))
  | None => ret None
  end.

(** The end of an iteration of [waiter], when the clock has notified it ([Ok]) or dropped its
    deadline. *)
Definition waiter_notify (sender : option (chan R)) (req : R) (notified : result unit unit) :
    M Self unit :=
  match notified, sender with
  | Err _, Some sender => modify (λ b, b <| channels ::= drop_sender sender |>)
  | Err _, None => ret tt
  | Ok _, Some sender => modify (λ b, b <| channels ::= send sender req |>)
  | Ok _, None => ret tt
  end.

End ops.

End Buffers.

(** ** What is in the buffers *)

Section contents.
Context {R : Type} `{Request R, !RequestLaws R, BinaryHeap, !BinaryHeapLaws, Oneshot R,
  !OneshotLaws R}.
Abbreviation BuffersState := (Buffers.t R (chan R) (chans R)).
Implicit Types b : BuffersState.
Import Buffers.

(** The identifiers of the requests that wait. *)
Definition waiting b (id : N) : Prop :=
  (∃ r, r ∈ early b ∧ get_id r = id) ∨ is_Some (late b !! id).

(** Every request that waits is in one buffer, once, and has one open channel; the requests of
    [late] are under their identifiers. *)
Record buffers_ok b : Prop := {
  early_nodup : NoDup (get_id <$> early b);
  late_ids id r : late b !! id = Some r → get_id r = id;
  disjoint r : r ∈ early b → late b !! get_id r = None;
  notified id : waiting b id ↔ is_Some (notifiers b !! id);
  notifier_open id ch : notifiers b !! id = Some ch → peek ch (channels b) = Some Open;
  notifier_inj id id' ch : notifiers b !! id = Some ch → notifiers b !! id' = Some ch → id = id'
}.

Lemma new_ok : buffers_ok new.
Proof.
  split; cbn; try done.
  - constructor.
  - intros id. unfold waiting. cbn. rewrite !lookup_empty. split.
    + intros [(r & Hr & _)|Hl]; [by apply elem_of_nil in Hr|by apply is_Some_None in Hl].
    + intros Hl. by apply is_Some_None in Hl.
Qed.

Lemma elem_of_push (x : R) l y : y ∈ heap_push x l ↔ y = x ∨ y ∈ l.
Proof. apply elem_of_cons. Qed.

(** Putting one more request into [early] with an open channel of its own. *)
Lemma push_early_ok b r ch cs :
  buffers_ok b → ¬ waiting b (get_id r) → peek ch (channels b) = None →
  (∀ c, peek c cs = if decide (c = ch) then Some Open else peek c (channels b)) →
  buffers_ok (b <| channels := cs |> <| notifiers ::= <[get_id r := ch]> |>
                <| early ::= heap_push r |>).
Proof.
  intros [Hnd Hids Hdis Hnot Hopen Hinj] Hfresh Hch Hcs. split; cbn.
  - constructor; [|done]. rewrite list_elem_of_fmap. intros (r' & Hid & Hr').
    apply Hfresh. left. eauto.
  - done.
  - intros r'. rewrite elem_of_push. intros [->|Hr']; [|by apply Hdis].
    apply eq_None_not_Some. intros Hl. apply Hfresh. by right.
  - intros id. rewrite lookup_insert_is_Some, <-Hnot. unfold waiting. cbn.
    setoid_rewrite elem_of_push. destruct (decide (get_id r = id)); naive_solver.
  - intros id c [[<- <-]|[Hne Hc]]%lookup_insert_Some; rewrite Hcs.
    + by rewrite decide_True.
    + rewrite decide_False; [by eapply Hopen|]. intros ->. by rewrite (Hopen _ _ Hc) in Hch.
  - intros id id' c Hi Hi'. apply lookup_insert_Some in Hi, Hi'.
    assert (Hno : ∀ i, notifiers b !! i ≠ Some ch) by (intros i Hi1; by rewrite (Hopen _ _ Hi1) in Hch).
    destruct Hi as [[? ?]|[? ?]], Hi' as [[? ?]|[? ?]]; subst; naive_solver.
Qed.

Lemma push_late_ok b r ch cs :
  buffers_ok b → ¬ waiting b (get_id r) → peek ch (channels b) = None →
  (∀ c, peek c cs = if decide (c = ch) then Some Open else peek c (channels b)) →
  buffers_ok (b <| channels := cs |> <| notifiers ::= <[get_id r := ch]> |>
                <| late ::= <[get_id r := r]> |>).
Proof.
  intros [Hnd Hids Hdis Hnot Hopen Hinj] Hfresh Hch Hcs. split; cbn.
  - done.
  - intros id r' [[<- <-]|[_ Hr']]%lookup_insert_Some; [done|by apply Hids].
  - intros r' Hr'. rewrite lookup_insert_ne; [by apply Hdis|]. intros Heq. apply Hfresh. left. eauto.
  - intros id. rewrite lookup_insert_is_Some, <-Hnot. unfold waiting. cbn.
    rewrite lookup_insert_is_Some. destruct (decide (get_id r = id)); naive_solver.
  - intros id c [[<- <-]|[Hne Hc]]%lookup_insert_Some; rewrite Hcs.
    + by rewrite decide_True.
    + rewrite decide_False; [by eapply Hopen|]. intros ->. by rewrite (Hopen _ _ Hc) in Hch.
  - intros id id' c Hi Hi'. apply lookup_insert_Some in Hi, Hi'.
    assert (Hno : ∀ i, notifiers b !! i ≠ Some ch) by (intros i Hi1; by rewrite (Hopen _ _ Hi1) in Hch).
    destruct Hi as [[? ?]|[? ?]], Hi' as [[? ?]|[? ?]]; subst; naive_solver.
Qed.

(** Where a request ends up: the decision of [insert]. *)
Inductive placement : Type := InEarly | InEarlyAt (d : SystemTime) | InLate.
Definition place b (r : R) (im_leader : bool) (d : SystemTime) : placement :=
  match last_released_deadline b with
  | Some last => if (last <? get_deadline r)%Z then InEarly
                 else if im_leader then InEarlyAt d else InLate
  | None => InEarly
  end.

(** Inserting a request that does not wait yet.  The caller gets a new open channel and the
    buffers stay consistent.  A request whose deadline is after the last released one goes to
    [early] unchanged; otherwise the leader puts it there with the clock's new deadline, and
    returns this deadline, and a follower keeps it in [late]. *)
Theorem insert_places_request r im_leader d b :
  buffers_ok b → ¬ waiting b (get_id r) →
  returns (insert r im_leader (Val d)) b (λ res b',
    buffers_ok b' ∧ notifiers b' = <[get_id r := res.1]> (notifiers b) ∧
    peek res.1 (channels b) = None ∧ peek res.1 (channels b') = Some Open ∧
    last_released_deadline b' = last_released_deadline b ∧
    match place b r im_leader d with
    | InEarly => res.2 = None ∧ early b' = r :: early b ∧ late b' = late b
    | InEarlyAt d => res.2 = Some d ∧ early b' = set_deadline d r :: early b ∧ late b' = late b
    | InLate => res.2 = None ∧ early b' = early b ∧ late b' = <[get_id r := r]> (late b)
    end).
Proof.
  intros Hok Hfresh. pose proof (channel_fresh (channels b)) as Hch.
  pose proof (peek_channel (channels b)) as Hcs.
  assert (Hnone : notifiers b !! get_id r = None).
  { apply eq_None_not_Some. by rewrite <-(notified _ Hok). }
  pose proof (push_early_ok b r _ _ Hok Hfresh Hch Hcs) as Hearly.
  pose proof (push_early_ok b (set_deadline d r) (channel (channels b)).1
    (channel (channels b)).2 Hok ltac:(by rewrite get_id_set_deadline) Hch Hcs) as Hearlyd.
  pose proof (push_late_ok b r _ _ Hok Hfresh Hch Hcs) as Hlate.
  rewrite get_id_set_deadline in Hearlyd.
  assert (Hopen : peek (channel (channels b)).1 (channel (channels b)).2 = Some Open)
    by (rewrite Hcs; by rewrite decide_True).
  unfold insert, set_notifier, place, eligible. wp. destruct b as [ea no la lr chs].
  cbn [channels early notifiers late last_released_deadline] in *.
  destruct (channel chs) as [ch cs]. cbn in *. wp. cbn. rewrite Hnone. wp. cbn.
  destruct lr as [last|]; [|wp; by split_and!].
  destruct (last <? get_deadline r)%Z; [wp; by split_and!|].
  destruct im_leader; wp; [|by split_and!].
  eapply returns_lift; [done|]. wp. by split_and!.
Qed.

(** *** Releasing *)

Lemma pop_early b req rest :
  buffers_ok b → heap_pop get_deadline (early b) = Some (req, rest) →
  (early b ≡ₚ req :: rest) ∧ (get_id req ∉ (get_id <$> rest)) ∧
  (∀ r, r ∈ early b → (get_deadline req ≤ get_deadline r)%Z).
Proof.
  intros Hok Hpop. destruct (heap_pop_some _ _ _ _ Hpop) as [Hp Hmin]. split_and!; [done| |done].
  pose proof (early_nodup _ Hok) as Hnd. rewrite Hp in Hnd. cbn in Hnd.
  by apply NoDup_cons in Hnd as [? _].
Qed.

(** The waiter takes out a request with the least deadline, together with its notifier,
    which is there and open; nothing else leaves the buffers.  So the warning that notifiers and
    early buffer are not synchronized is never reached. *)
Theorem waiter_pop_takes_least b :
  buffers_ok b →
  returns waiter_pop b (λ res b',
    match res with
    | None => early b = [] ∧ b' = b
    | Some (sender, req) =>
        buffers_ok b' ∧ (early b ≡ₚ req :: early b') ∧ late b' = late b ∧
        (∀ r, r ∈ early b → (get_deadline req ≤ get_deadline r)%Z) ∧
        last_released_deadline b' = Some (get_deadline req) ∧
        (∃ ch, sender = Some ch ∧ notifiers b !! get_id req = Some ch ∧
               peek ch (channels b') = Some Open ∧
               notifiers b' = delete (get_id req) (notifiers b)) ∧
        ¬ waiting b' (get_id req)
    end).
Proof.
  intros Hok. unfold waiter_pop. wp.
  destruct (heap_pop get_deadline (early b)) as [[req rest]|] eqn:Hpop; wp.
  2:{ split; [|done]. by apply heap_pop_none in Hpop. }
  destruct (pop_early _ _ _ Hok Hpop) as (Hp & Hnotin & Hmin).
  assert (Hin : req ∈ early b) by (rewrite Hp; left).
  destruct (proj1 (notified _ Hok (get_id req)) ltac:(left; eauto)) as [ch Hch].
  destruct Hok as [Hnd Hids Hdis Hnot Hopen Hinj].
  assert (Hnw : ¬ ((∃ r, r ∈ rest ∧ get_id r = get_id req) ∨ is_Some (late b !! get_id req))).
  { intros [(r & Hr & Hid)|Hl].
    - apply Hnotin. rewrite <-Hid. by apply list_elem_of_fmap_2.
    - rewrite (Hdis _ Hin) in Hl. by destruct Hl. }
  split_and!; try done; [|by exists ch; split_and!; try done; eapply Hopen].
  split; cbn; [|done| |..].
  - rewrite Hp in Hnd. cbn in Hnd. by apply NoDup_cons in Hnd as [_ ?].
  - intros r Hr. apply Hdis. rewrite Hp. by right.
  - intros id. rewrite lookup_delete_is_Some, <-Hnot. unfold waiting. cbn. split.
    + intros Hw. split; [intros <-; by apply Hnw|].
      destruct Hw as [(r & Hr & Hid)|?]; [left; exists r; rewrite Hp; by split; [right|]|by right].
    + intros [Hne [(r & Hr & Hid)|?]]; [|by right]. left. exists r. split; [|done].
      rewrite Hp in Hr. apply elem_of_cons in Hr as [->|?]; [|done]. done.
  - intros id c [_ Hc]%lookup_delete_Some. by eapply Hopen.
  - intros id id' c [_ Hc]%lookup_delete_Some [_ Hc']%lookup_delete_Some. by eapply Hinj.
Qed.
End contents.

(** ** The order of release *)

Section order.
Context {R : Type} `{Request R, !RequestLaws R, BinaryHeap, !BinaryHeapLaws, Oneshot R,
  !OneshotLaws R}.
Abbreviation BuffersState := (Buffers.t R (chan R) (chans R)).
Implicit Types b : BuffersState.
Import Buffers.

Lemma free_from_late_ok id d b :
  buffers_ok b →
  returns (free_from_late id d) b (λ _ b', buffers_ok b' ∧
    last_released_deadline b' = last_released_deadline b ∧ notifiers b' = notifiers b ∧
    match late b !! id with
    | Some r => late b' = delete id (late b) ∧ early b' = set_deadline d r :: early b
    | None => b' = b
    end).
Proof.
  intros [Hnd Hids Hdis Hnot Hopen Hinj]. unfold free_from_late. wp.
  destruct (late b !! id) as [r|] eqn:Hl; wp; [|by split_and!].
  pose proof (Hids _ _ Hl) as Hid. split_and!; try done. split; cbn; try done.
  - rewrite get_id_set_deadline, Hid. constructor; [|done].
    rewrite list_elem_of_fmap. intros (r' & Hid' & Hr'). specialize (Hdis r' Hr').
    by rewrite <-Hid', Hl in Hdis.
  - intros i r' [_ Hr']%lookup_delete_Some. by apply Hids.
  - intros r'. rewrite elem_of_push. intros [->|Hr'].
    + rewrite get_id_set_deadline, Hid. apply lookup_delete_eq.
    + destruct (decide (id = get_id r')) as [->|Hne]; [apply lookup_delete_eq|].
      rewrite lookup_delete_ne by done. by apply Hdis.
  - intros i. rewrite <-Hnot. unfold waiting. cbn. setoid_rewrite elem_of_push.
    rewrite lookup_delete_is_Some. split.
    + intros [(r' & [->|Hr'] & Hi)|[_ Hi]]; [|left; eauto|by right].
      right. rewrite get_id_set_deadline in Hi. subst i. rewrite Hid, Hl. eauto.
    + intros [(r' & Hr' & Hi)|Hi]; [left; eauto|].
      destruct (decide (id = i)) as [<-|Hne]; [|by right].
      left. exists (set_deadline d r). rewrite get_id_set_deadline. auto.
Qed.

(** A deadline that is not before the last one released. *)
Definition not_released_yet b (d : SystemTime) : Prop :=
  ∀ last, last_released_deadline b = Some last → (last ≤ d)%Z.

(** The request that is put into [early] with a deadline that has been passed already, if [r] is put
    there with the new deadline [d].  Only the deadlines that clients ask for are compared with the
    last one released; those that the leader makes are not. *)
Definition put_behind b (r : R) (d : SystemTime) : list R :=
  match last_released_deadline b with
  | Some last => if (d <? last)%Z then [set_deadline d r] else []
  | None => []
  end.

Definition behind_of_insert b (r : R) (im_leader : bool) (clock_deadline : outcome SystemTime) :
    list R :=
  match clock_deadline with
  | Val d => if negb (eligible r b) && im_leader then put_behind b r d else []
  | Panic _ => []
  end.

Definition behind_of_free b (id : N) (d : SystemTime) : list R :=
  match late b !! id with Some r => put_behind b r d | None => [] end.

(** What happens to the buffers, in any order and whatever the clock answers: [rel] are the
    requests that the waiter takes out, in the order in which it does, and [behind] the requests
    that get a new deadline which has been passed already. *)
Inductive trace : BuffersState → list R → list R → BuffersState → Prop :=
  | trace_done b : trace b [] [] b
  | trace_insert b r im_leader clock_deadline res b1 rel behind b2 :
      insert r im_leader clock_deadline b = (res, b1) →
      trace b1 rel behind b2 →
      trace b rel (behind_of_insert b r im_leader clock_deadline ++ behind) b2
  | trace_free b id d res b1 rel behind b2 :
      free_from_late id d b = (res, b1) →
      trace b1 rel behind b2 → trace b rel (behind_of_free b id d ++ behind) b2
  | trace_notify b sender req notified res b1 rel behind b2 :
      waiter_notify sender req notified b = (res, b1) →
      trace b1 rel behind b2 → trace b rel behind b2
  | trace_pop b sender req b1 rel behind b2 :
      waiter_pop b = (Val (Some (sender, req)), b1) →
      trace b1 rel behind b2 → trace b (req :: rel) behind b2.

(** Whatever waits for its release with a deadline that was passed is one of [known]. *)
Definition in_time b (known : list R) : Prop :=
  ∀ r, r ∈ early b → not_released_yet b (get_deadline r) ∨ r ∈ known.

Lemma put_in_time b b1 r d known :
  in_time b known → last_released_deadline b1 = last_released_deadline b →
  early b1 = heap_push (set_deadline d r) (early b) → in_time b1 (put_behind b r d ++ known).
Proof.
  intros Hb Hl He x. rewrite He, elem_of_push, elem_of_app. unfold not_released_yet, put_behind.
  rewrite Hl. intros [->|Hx].
  - rewrite get_set_deadline. destruct (last_released_deadline b) as [last|]; [|by left].
    destruct (Z.ltb_spec d last); [right; left; left|left; intros ? [= <-]; done].
  - destruct (Hb x Hx); auto.
Qed.

Lemma push_in_time b b1 r known :
  in_time b known → last_released_deadline b1 = last_released_deadline b →
  early b1 = heap_push r (early b) → eligible r b = true → in_time b1 known.
Proof.
  intros Hb Hl He Hr x. rewrite He, elem_of_push. unfold not_released_yet. rewrite Hl.
  intros [->|Hx]; [|by apply Hb]. left. intros last Hlast. unfold eligible in Hr.
  rewrite Hlast in Hr. lia.
Qed.

Lemma same_in_time b b1 known :
  in_time b known → last_released_deadline b1 = last_released_deadline b → early b1 = early b →
  in_time b1 known.
Proof. unfold in_time, not_released_yet. by intros Hb -> ->. Qed.

Lemma insert_in_time r im_leader clock_deadline res b b1 known :
  in_time b known → insert r im_leader clock_deadline b = (res, b1) →
  in_time b1 (behind_of_insert b r im_leader clock_deadline ++ known) ∧
  last_released_deadline b1 = last_released_deadline b.
Proof.
  intros Hb. unfold insert, set_notifier, behind_of_insert, bind, gets, modify, lift.
  destruct (channel (channels b)) as [ch cs].
  destruct (notifiers _ !! get_id r) as [old|], (eligible r b) eqn:Er, im_leader, clock_deadline;
    cbn; intros [= _ <-]; (split; [|done]);
    first [by apply (put_in_time b)|by apply (push_in_time b _ r)|by apply (same_in_time b)].
Qed.

Lemma free_in_time id d res b b1 known :
  in_time b known → free_from_late id d b = (res, b1) →
  in_time b1 (behind_of_free b id d ++ known) ∧ last_released_deadline b1 = last_released_deadline b.
Proof.
  intros Hb. unfold free_from_late, behind_of_free, bind, gets, modify.
  destruct (late b !! id); cbn; intros [= _ <-]; (split; [|done]);
    [by apply (put_in_time b)|done].
Qed.

(** The order in which requests are released: none before the one released just before it,
    unless it got its deadline when that had been passed. *)
Definition in_order (behind : list R) (r1 r2 : R) : Prop :=
  (get_deadline r1 ≤ get_deadline r2)%Z ∨ r2 ∈ behind.

Lemma Sorted_in_order behind behind' rel :
  behind ⊆ behind' → Sorted (in_order behind) rel → Sorted (in_order behind') rel.
Proof.
  intros Hsub. induction 1 as [|r rel _ IH Hd]; constructor; [done|].
  destruct Hd; constructor. unfold in_order in *. naive_solver.
Qed.

Lemma trace_sorted b rel behind b' known :
  trace b rel behind b' → in_time b known →
  Sorted (in_order behind) rel ∧
  ∀ r, head rel = Some r → not_released_yet b (get_deadline r) ∨ r ∈ known ++ behind.
Proof.
  intros Ht. revert known. induction Ht as [b|b r l d res b1 rel behind b2 E _ IH
    |b id d res b1 rel behind b2 E _ IH|b sender req notified res b1 rel behind b2 E _ IH
    |b sender req b1 rel behind b2 E _ IH]; intros known Hb.
  - split; [constructor|done].
  - destruct (insert_in_time _ _ _ _ _ _ _ Hb E) as [Hb1 Hl]. destruct (IH _ Hb1) as [Hs Hhead].
    split; [eapply Sorted_in_order; [|done]; set_solver|].
    intros x Hx. unfold not_released_yet in *. rewrite <-Hl. destruct (Hhead x Hx); set_solver.
  - destruct (free_in_time _ _ _ _ _ _ Hb E) as [Hb1 Hl]. destruct (IH _ Hb1) as [Hs Hhead].
    split; [eapply Sorted_in_order; [|done]; set_solver|].
    intros x Hx. unfold not_released_yet in *. rewrite <-Hl. destruct (Hhead x Hx); set_solver.
  - destruct notified, sender; injection E as _ <-; by apply IH.
  - revert E. unfold waiter_pop, bind, gets.
    destruct (heap_pop get_deadline (early b)) as [[req' rest]|] eqn:Hpop; cbn; [|done].
    intros [= _ -> <-]. destruct (heap_pop_some _ _ _ _ Hpop) as [Hp Hmin].
    destruct (IH []) as [Hs Hhead].
    { intros x Hx. left. intros last [= <-]. apply Hmin. rewrite Hp. by right. }
    split.
    + constructor; [done|]. destruct rel as [|r rel]; constructor.
      destruct (Hhead r eq_refl) as [Hr|Hr]; [left; by apply Hr|by right].
    + intros r [= <-]. rewrite elem_of_app. destruct (Hb req); [rewrite Hp; left|auto..].
Qed.

(** C28.  Deadline order.  From an empty buffer on, whatever arrives in whatever order and whenever
    the waiter runs, the waiter takes the requests out in the order of their deadlines, with one
    exception: a request can come out after one with a later deadline if the leader gave it a new
    deadline, at its arrival or for a late request, which was before the last one released
    already; [insert] and [free_from_late] do not compare it.  If that never happens, the
    deadlines of the released requests are sorted. *)
Theorem released_in_deadline_order rel behind b' :
  trace new rel behind b' →
  Sorted (in_order behind) rel ∧ (behind = [] → Sorted Z.le (get_deadline <$> rel)).
Proof.
  intros Ht. destruct (trace_sorted _ _ _ _ [] Ht) as [Hs _]; [by intros r Hr%elem_of_nil|].
  split; [done|]. intros ->. clear Ht.
  induction Hs as [|r rel _ IH Hd]; cbn; constructor; [done|].
  destruct Hd as [|r' rel [Hle|Hr]]; constructor; [done|]. by apply elem_of_nil in Hr.
Qed.
End order.
