(* ===== verification/SequencePaxos.v ===== *)
(** * A replica (crates/custom-paxos/omnipaxos/src/sequence_paxos/, LeaderState of util.rs)

    [SequencePaxos.t] is the struct together with the memory it shares with its tasks: an [Arc]
    field holds the shared object itself, except the vectors of outgoing messages, which are shared
    under an address.  [task] lists the points at which a task of the replica can be waiting; what
    a task does from one of them up to the next is one atomic step, because it holds the lock of
    the object it works on.  [run_task] is that step; the tasks run in any order. *)

From Stdlib Require Import Strings.Byte.
From S2P Require Import Prelude Util Ballots Config Time StorageApi InternalStorage Messages Ble.
From S2P Require Import Collections Clock Buffers.

(** [util::LeaderState] *)
Record LeaderState : Type := mkLeaderState {
  n_leader : Ballot.t;
  max_pid : N;
  ls_quorum : Quorum.t
}.
Definition LeaderState_with (n_leader : Ballot.t) (max_pid : N) (quorum : Quorum.t) :
    LeaderState := {| n_leader := n_leader; max_pid := max_pid; ls_quorum := quorum |}.

(** [ProposeErr] of omni_paxos.rs. *)
Inductive ProposeErr (T : Type) : Type :=
  | PendingReconfigEntry (entry : T)
  | PendingReconfigConfig (config : ClusterConfig.t) (metadata : option (list byte))
  | ConfigErr (err : ConfigError) (config : ClusterConfig.t)
      (metadata : option (list byte)).
#[global] Arguments PendingReconfigEntry {T}.
#[global] Arguments PendingReconfigConfig {T}.
#[global] Arguments ConfigErr {T}.

(** What a proposal answers speculatively: see [Ack]. *)
Definition speculation := option (option (option string)).

(** ** Tasks *)

Inductive task (T Ch TCh : Type) : Type :=
  (* handle_new_proposal *)
  | InsertEntry (entry : T) (im_leader : bool) (spec : speculation)
  | Announce (rx : Ch) (new_deadline : SystemTime) (entry_id : N) (spec : speculation)
  | AwaitRelease (rx : Ch) (spec : speculation)
  | AppendLog (req : T) (spec : speculation)
  | PushAck (req : T) (hash : N) (spec : speculation) (accepted_idx : N)
  (* Buffers::waiter *)
  | Waiter
  | WaiterArm (sender : option Ch) (req : T)
  | WaiterAwait (sender : option Ch) (req : T) (notifier : TCh)
  (* handle_execution, handle_new_deadline, handle_resync_answer, handle_resync_request *)
  | DecideIdx (accepted_idx : N)
  | FreeFromLate (id : N) (new_deadline : SystemTime)
  | SendMasterTime (t : SystemTime)
  | SendHoldingClock (t : SystemTime)
  | AnswerSync (to : NodeId)
  (* Clock *)
  | TickFn
  | FireDeadline (sender : TCh)
  | SyncWithMaster
  | ReadOwnTime (t0 : SystemTime)
  | AwaitMasterTime (t0 : SystemTime)
  | FinishSync (t0 t1 leader_time : SystemTime).
#[global] Arguments InsertEntry {T Ch TCh}.
#[global] Arguments Announce {T Ch TCh}.
#[global] Arguments AwaitRelease {T Ch TCh}.
#[global] Arguments AppendLog {T Ch TCh}.
#[global] Arguments PushAck {T Ch TCh}.
#[global] Arguments Waiter {T Ch TCh}.
#[global] Arguments WaiterArm {T Ch TCh}.
#[global] Arguments WaiterAwait {T Ch TCh}.
#[global] Arguments DecideIdx {T Ch TCh}.
#[global] Arguments FreeFromLate {T Ch TCh}.
#[global] Arguments SendMasterTime {T Ch TCh}.
#[global] Arguments AnswerSync {T Ch TCh}.
#[global] Arguments TickFn {T Ch TCh}.
#[global] Arguments FireDeadline {T Ch TCh}.
#[global] Arguments SyncWithMaster {T Ch TCh}.
#[global] Arguments SendHoldingClock {T Ch TCh}.
#[global] Arguments ReadOwnTime {T Ch TCh}.
#[global] Arguments AwaitMasterTime {T Ch TCh}.
#[global] Arguments FinishSync {T Ch TCh}.

Module SequencePaxos.

Record t (St Bu Cl Vec Task : Type) : Type := mk {
  internal_storage : St;
  buffers : Bu;
  clock : Cl;
  pid : NodeId;
  peers : list NodeId;
  state : Role * Phase;
  outgoing : addr;
  outgoing_clients : addr;
  leader_state : LeaderState;
  latest_accepted_meta : option (Ballot.t * N);
  (* the memory behind the addresses, the channel of the master's time, and the spawned tasks *)
  vectors : gmap addr Vec;
  master_times : list SystemTime;
  tasks : list Task
}.
#[global] Arguments mk {St Bu Cl Vec Task}.
#[global] Arguments internal_storage {St Bu Cl Vec Task}.
#[global] Arguments buffers {St Bu Cl Vec Task}.
#[global] Arguments clock {St Bu Cl Vec Task}.
#[global] Arguments pid {St Bu Cl Vec Task}.
#[global] Arguments peers {St Bu Cl Vec Task}.
#[global] Arguments state {St Bu Cl Vec Task}.
#[global] Arguments outgoing {St Bu Cl Vec Task}.
#[global] Arguments outgoing_clients {St Bu Cl Vec Task}.
#[global] Arguments leader_state {St Bu Cl Vec Task}.
#[global] Arguments latest_accepted_meta {St Bu Cl Vec Task}.
#[global] Arguments vectors {St Bu Cl Vec Task}.
#[global] Arguments master_times {St Bu Cl Vec Task}.
#[global] Arguments tasks {St Bu Cl Vec Task}.
#[global] Instance settable_internal_storage {St} {Bu} {Cl} {Vec} {Task} : Settable (@internal_storage St Bu Cl Vec Task) := λ f r,
  mk (f (internal_storage r)) (buffers r) (clock r) (pid r) (peers r) (state r) (outgoing r)
    (outgoing_clients r) (leader_state r) (latest_accepted_meta r) (vectors r) (master_times r)
    (tasks r).
#[global] Instance settable_buffers {St} {Bu} {Cl} {Vec} {Task} : Settable (@buffers St Bu Cl Vec Task) := λ f r,
  mk (internal_storage r) (f (buffers r)) (clock r) (pid r) (peers r) (state r) (outgoing r)
    (outgoing_clients r) (leader_state r) (latest_accepted_meta r) (vectors r) (master_times r)
    (tasks r).
#[global] Instance settable_clock {St} {Bu} {Cl} {Vec} {Task} : Settable (@clock St Bu Cl Vec Task) := λ f r,
  mk (internal_storage r) (buffers r) (f (clock r)) (pid r) (peers r) (state r) (outgoing r)
    (outgoing_clients r) (leader_state r) (latest_accepted_meta r) (vectors r) (master_times r)
    (tasks r).
#[global] Instance settable_pid {St} {Bu} {Cl} {Vec} {Task} : Settable (@pid St Bu Cl Vec Task) := λ f r,
  mk (internal_storage r) (buffers r) (clock r) (f (pid r)) (peers r) (state r) (outgoing r)
    (outgoing_clients r) (leader_state r) (latest_accepted_meta r) (vectors r) (master_times r)
    (tasks r).
#[global] Instance settable_peers {St} {Bu} {Cl} {Vec} {Task} : Settable (@peers St Bu Cl Vec Task) := λ f r,
  mk (internal_storage r) (buffers r) (clock r) (pid r) (f (peers r)) (state r) (outgoing r)
    (outgoing_clients r) (leader_state r) (latest_accepted_meta r) (vectors r) (master_times r)
    (tasks r).
#[global] Instance settable_state {St} {Bu} {Cl} {Vec} {Task} : Settable (@state St Bu Cl Vec Task) := λ f r,
  mk (internal_storage r) (buffers r) (clock r) (pid r) (peers r) (f (state r)) (outgoing r)
    (outgoing_clients r) (leader_state r) (latest_accepted_meta r) (vectors r) (master_times r)
    (tasks r).
#[global] Instance settable_outgoing {St} {Bu} {Cl} {Vec} {Task} : Settable (@outgoing St Bu Cl Vec Task) := λ f r,
  mk (internal_storage r) (buffers r) (clock r) (pid r) (peers r) (state r) (f (outgoing r))
    (outgoing_clients r) (leader_state r) (latest_accepted_meta r) (vectors r) (master_times r)
    (tasks r).
#[global] Instance settable_outgoing_clients {St} {Bu} {Cl} {Vec} {Task} : Settable (@outgoing_clients St Bu Cl Vec Task) := λ f r,
  mk (internal_storage r) (buffers r) (clock r) (pid r) (peers r) (state r) (outgoing r)
    (f (outgoing_clients r)) (leader_state r) (latest_accepted_meta r) (vectors r)
    (master_times r) (tasks r).
#[global] Instance settable_leader_state {St} {Bu} {Cl} {Vec} {Task} : Settable (@leader_state St Bu Cl Vec Task) := λ f r,
  mk (internal_storage r) (buffers r) (clock r) (pid r) (peers r) (state r) (outgoing r)
    (outgoing_clients r) (f (leader_state r)) (latest_accepted_meta r) (vectors r)
    (master_times r) (tasks r).
#[global] Instance settable_latest_accepted_meta {St} {Bu} {Cl} {Vec} {Task} : Settable (@latest_accepted_meta St Bu Cl Vec Task) := λ f r,
  mk (internal_storage r) (buffers r) (clock r) (pid r) (peers r) (state r) (outgoing r)
    (outgoing_clients r) (leader_state r) (f (latest_accepted_meta r)) (vectors r)
    (master_times r) (tasks r).
#[global] Instance settable_vectors {St} {Bu} {Cl} {Vec} {Task} : Settable (@vectors St Bu Cl Vec Task) := λ f r,
  mk (internal_storage r) (buffers r) (clock r) (pid r) (peers r) (state r) (outgoing r)
    (outgoing_clients r) (leader_state r) (latest_accepted_meta r) (f (vectors r))
    (master_times r) (tasks r).
#[global] Instance settable_master_times {St} {Bu} {Cl} {Vec} {Task} : Settable (@master_times St Bu Cl Vec Task) := λ f r,
  mk (internal_storage r) (buffers r) (clock r) (pid r) (peers r) (state r) (outgoing r)
    (outgoing_clients r) (leader_state r) (latest_accepted_meta r) (vectors r)
    (f (master_times r)) (tasks r).
#[global] Instance settable_tasks {St} {Bu} {Cl} {Vec} {Task} : Settable (@tasks St Bu Cl Vec Task) := λ f r,
  mk (internal_storage r) (buffers r) (clock r) (pid r) (peers r) (state r) (outgoing r)
    (outgoing_clients r) (leader_state r) (latest_accepted_meta r) (vectors r) (master_times r)
    (f (tasks r)).

Section ops.
Context {T Sn I : Type} `{Build, StorageApi.Request T, Snapshot T Sn, !Storage.t T Sn I, BinaryHeap, Oneshot T,
  Oneshot unit}.

Abbreviation Task := (task T (chan T) (chan unit)).
Abbreviation Self := (t (InternalStorage.t I T) (Buffers.t T (chan T) (chans T))
  (Clock.t (chan unit) (chans unit)) (list (Message T)) Task).

(** [tokio::spawn] *)
Definition spawn (tk : Task) : M Self unit := modify (λ s, s <| tasks ::= λ l, l ++ [tk] |>).

(** [push] on the vector at an address. *)
Definition push_at (a : addr) (m : Message T) : M Self unit :=
  modify (λ s, s <| vectors ::= partial_alter (λ o,
    Some (match o with Some l => l ++ [m] | None => [m] end)) a |>).
Definition vec_at (s : Self) (a : addr) : list (Message T) :=
  match vectors s !! a with Some l => l | None => [] end.

(** [with]: the addresses of the two new vectors are chosen by the caller; the clock and its
    [TickFn] task were made before. *)
Definition with_ (config : SequencePaxosConfig) (storage : I)
    (clock : Clock.t (chan unit) (chans unit)) (outgoing outgoing_clients : addr) :
    outcome Self :=
  let pid := sp_pid config in
  let peers := sp_peers config in
  let num_nodes := len peers + 1 in
  let quorum := Quorum.with_ (sp_flexible_quorum config) num_nodes in
  match iter_max_N peers with
  | None => Panic UnwrapNone
  | Some max_peer_pid =>
      let max_pid := N.max max_peer_pid pid in
      match (expect Storage.get_promise storage).1 with
      | Panic f => Panic f
      | Val promise =>
          let '(state, leader) :=
            match promise with
            | Some b => ((Follower, Recover), b)
            | None => ((Follower, NoPhase), Ballot.default)
            end in
          match InternalStorage.with_ storage (sp_batch_size config) with
          | Panic f => Panic f
          | Val internal_storage =>
              let paxos := {|
                internal_storage := internal_storage; buffers := Buffers.new; clock := clock;
                pid := pid; peers := peers; state := state;
                outgoing := outgoing; outgoing_clients := outgoing_clients;
                leader_state := LeaderState_with leader max_pid quorum;
                latest_accepted_meta := None;
                vectors := {[outgoing := []; outgoing_clients := []]};
                master_times := []; tasks := [Waiter; TickFn]
              |} in
              let (r, paxos) :=
                expect (zoom SequencePaxos.internal_storage (InternalStorage.set_promise leader)) paxos in
              match r with Val _ => Val paxos | Panic f => Panic f end
          end
      end
  end.

(** *** The calls of the server's main loop *)

Definition get_state (self : Self) : Role * Phase := state self.

Definition get_promise : M Self Ballot.t := zoom internal_storage InternalStorage.get_promise.

(** [take_outgoing_msgs] and [take_outgoing_client_msgs]: the new contents of the user's buffer. *)
Definition take_vector (a : addr) (buffer : list (Message T)) : M Self (list (Message T)) :=
  let* self := gets (λ s, s) in
  let* buffer :=
    (match buffer with
     | [] =>
         let* _ := modify (λ s, s <| vectors ::= <[a := []]> |>) in
         ret (vec_at self a)
     | _ =>
         let* _ := modify (λ s, s <| vectors ::= <[a := []]> |>) in
         ret (buffer ++ vec_at self a)
     end) in
  let* _ := modify (λ s, s <| latest_accepted_meta := None |>) in
  ret buffer.
Definition take_outgoing_msgs (buffer : list (Message T)) : M Self (list (Message T)) :=
  let* self := gets (λ s, s) in take_vector (outgoing self) buffer.
Definition take_outgoing_client_msgs (buffer : list (Message T)) : M Self (list (Message T)) :=
  let* self := gets (λ s, s) in take_vector (outgoing_clients self) buffer.

(** [handle_execution]: [e] is the closure that executes an entry.  It runs on the state of the
    server, not of the replica, so that the model returns the entry for which it is called. *)
Definition handle_execution (entry : T) (accepted_idx : N) : M Self (option T) :=
  let* self := gets (λ s, s) in
  let executed := match state self with (Follower, _) => Some entry | _ => None end in
  let* _ := spawn (DecideIdx accepted_idx) in
  ret executed.

Definition handle_new_deadline (id : N) (new_deadline : SystemTime) : M Self unit :=
  spawn (FreeFromLate id new_deadline).
Definition handle_resync_answer (t : SystemTime) : M Self unit := spawn (SendMasterTime t).
Definition handle_resync_request (from : NodeId) : M Self unit := spawn (AnswerSync from).

(** [handle]: the entry to execute, if there is one. *)
Definition handle (m : PaxosMessage T) : M Self (option T) :=
  match msg m with
  | Ack _ _ _ _ => ret None
  | Confirm c accepted_idx => handle_execution c accepted_idx
  | NewDeadline entry_id new_deadline =>
      let* _ := handle_new_deadline entry_id new_deadline in ret None
  | SyncAnswer t => let* _ := handle_resync_answer t in ret None
  | SyncReq => let* _ := handle_resync_request (from m) in ret None
  end.

(** [handle_new_proposal], with the answer of the closure [speculate]: it is called only by the
    leader. *)
Definition handle_new_proposal (entry : T) (im_leader : bool)
    (speculate : T → option (option string)) : M Self unit :=
  let spec := if im_leader then Some (speculate entry) else None in
  spawn (InsertEntry entry im_leader spec).

Definition propose_entry (entry : T) (speculate : T → option (option string)) : M Self unit :=
  let* self := gets (λ s, s) in
  match state self with
  | (Follower, _) => handle_new_proposal entry false speculate
  | (Leader, _) => handle_new_proposal entry true speculate
  end.

Definition accepted_reconfiguration : M Self bool :=
  let* ss := zoom internal_storage InternalStorage.get_stopsign in
  ret (bool_decide (is_Some ss)).

Definition is_reconfigured : M Self (option StopSign) :=
  let* ss := zoom internal_storage InternalStorage.get_stopsign in
  let* decided := zoom internal_storage InternalStorage.stopsign_is_decided in
  match ss with
  | Some ss => if decided then ret (Some ss) else ret None
  | None => ret None
  end.

Definition append (entry : T) (speculate : T → option (option string)) :
    M Self (result unit (ProposeErr T)) :=
  let* stopped := accepted_reconfiguration in
  if stopped then ret (Err (PendingReconfigEntry entry))
  else let* _ := propose_entry entry speculate in ret (Ok tt).

(** [reconfigure]: a valid reconfiguration is accepted and nothing is done about it. *)
Definition reconfigure (new_config : ClusterConfig.t)
    (metadata : option (list byte)) : M Self (result unit (ProposeErr T)) :=
  let* stopped := accepted_reconfiguration in
  if stopped then ret (Err (PendingReconfigConfig new_config metadata)) else ret (Ok tt).

Definition get_current_leader : M Self NodeId :=
  let* promise := get_promise in ret (Ballot.pid promise).

Definition reconnected (other : NodeId) : M Self unit :=
  let* self := gets (λ s, s) in
  if other =? pid self then ret tt
  else
    let* leader := get_current_leader in
    if other =? leader then modify (λ s, s <| state := (Follower, Recover) |>) else ret tt.

Definition become_follower : M Self unit :=
  modify (λ s, s <| state ::= λ st, (Follower, st.2) |>).

Definition handle_leader (n : Ballot.t) : M Self unit :=
  let* self := gets (λ s, s) in
  let* stale :=
    (if Ballot.leb n (n_leader (leader_state self)) then ret true
     else let* promise := get_promise in ret (Ballot.leb n promise)) in
  if stale then ret tt
  else if pid self =? Ballot.pid n then
    let* _ := modify (λ s, s <| leader_state ::= λ ls,
      LeaderState_with n (max_pid ls) (ls_quorum ls) |>) in
    let* _ := expect (zoom internal_storage InternalStorage.flush_batch) in
    let* _ := expect (zoom internal_storage (InternalStorage.set_promise n)) in
    modify (λ s, s <| state := (Leader, Prepare) |>)
  else become_follower.

(** [create_log_sync] is not called in the repository; its reads are done one after the other. *)
Definition create_log_sync (common_prefix_idx other_logs_decided_idx : N) :
    M Self (LogSync T Sn) :=
  let* decided_idx := zoom internal_storage InternalStorage.get_decided_idx in
  let* r :=
    (if use_snapshots (T := T) (Sn := Sn) && (common_prefix_idx <? decided_idx) then
       let* delta := expect (zoom internal_storage
         (InternalStorage.create_diff_snapshot other_logs_decided_idx)) in
       let* suffix := expect (zoom internal_storage (InternalStorage.get_suffix decided_idx)) in
       ret (delta.1, suffix, delta.2)
     else
       let* suffix := expect (zoom internal_storage
         (InternalStorage.get_suffix common_prefix_idx)) in
       ret (None, suffix, common_prefix_idx)) in
  let* ss := zoom internal_storage InternalStorage.get_stopsign in
  ret {| decided_snapshot := r.1.1; suffix := r.1.2; sync_idx := r.2; sync_stopsign := ss |}.

(** *** The tasks *)

(** What the environment decides at a step: the random bit of the clock and the system time. *)
Record env : Type := mkEnv { gen_bool : bool; now : SystemTime }.

(** [poll] on a receiver: the value, the error of a dropped sender, or nothing yet. *)
Definition poll {V} `{Oneshot V} (ch : chan V) (cs : chans V) : option (result V unit) :=
  match peek ch cs with
  | Some (Sent v) => Some (Ok v)
  | Some Dropped => Some (Err tt)
  | _ => None
  end.

(** The capacity of the channel of the master's time. *)
Definition master_capacity : N := 100.

(** A task that waits for room in that channel holds the lock of the clock. *)
Definition clock_free (s : Self) : bool :=
  forallb (λ tk, match tk with SendHoldingClock _ => false | _ => true end) (tasks s).

(** The step of a task: [None] if it has to wait, otherwise the tasks it goes on with. *)
Definition run_task (e : env) (tk : Task) (s : Self) : option (M Self (list Task)) :=
  match tk with
  | InsertEntry entry im_leader spec =>
      if clock_free s || negb im_leader || Buffers.eligible entry (buffers s) then Some (
        let clock_deadline := (Clock.new_deadline (clock s)).1 in
        let entry_id := get_id entry in
        let* r := zoom buffers (Buffers.insert entry im_leader clock_deadline) in
        match r.2 with
        | Some new_deadline => ret [Announce r.1 new_deadline entry_id spec]
        | None => ret [AwaitRelease r.1 spec]
        end)
      else None
  | Announce rx new_deadline entry_id spec => Some (
      let* _ := mfor (peers s) (λ peer,
        push_at (outgoing s) (SequencePaxosMsg
          {| from := pid s; to := peer; msg := NewDeadline entry_id new_deadline |})) in
      ret [AwaitRelease rx spec])
  | AwaitRelease rx spec =>
      match poll rx (Buffers.channels (buffers s)) with
      | Some (Ok req) => Some (ret [AppendLog req spec])
      | Some (Err _) => Some (ret [])
      | None => None
      end
  | AppendLog req spec => Some (
      let* idx := expect (zoom internal_storage
        (InternalStorage.append_entries_and_get_accepted_idx [req])) in
      let* accepted_idx := unwrap idx in
      let* hash := zoom internal_storage (zoom InternalStorage.storage Storage.history_hash) in
      ret [PushAck req hash spec accepted_idx])
  | PushAck req hash spec accepted_idx => Some (
      let* _ := push_at (outgoing_clients s) (SequencePaxosMsg
        {| from := pid s; to := client_id req; msg := Ack req hash spec accepted_idx |}) in
      ret [])
  | Waiter => Some (
      let* r := zoom buffers Buffers.waiter_pop in
      match r with
      | Some (sender, req) => ret [WaiterArm sender req]
      | None => ret [Waiter]
      end)
  | WaiterArm sender req =>
      if clock_free s then Some (
        let* notifier := zoom clock (Clock.add_deadline (get_deadline req)) in
        ret [WaiterAwait sender req notifier])
      else None
  | WaiterAwait sender req notifier =>
      match poll notifier (Clock.timers (clock s)) with
      | Some notified => Some (
          let* _ := zoom buffers (Buffers.waiter_notify sender req notified) in
          ret [Waiter])
      | None => None
      end
  | DecideIdx accepted_idx => Some (
      let* _ := expect (zoom internal_storage (InternalStorage.set_decided_idx accepted_idx)) in
      ret [])
  | FreeFromLate id new_deadline => Some (
      let* _ := zoom buffers (Buffers.free_from_late id new_deadline) in
      ret [])
  | SendMasterTime t =>
      if clock_free s then Some (
        if len (master_times s) <? master_capacity
        then let* _ := modify (λ s, s <| master_times ::= λ l, l ++ [t] |>) in ret []
        else ret [SendHoldingClock t])
      else None
  | SendHoldingClock t =>
      if len (master_times s) <? master_capacity
      then Some (let* _ := modify (λ s, s <| master_times ::= λ l, l ++ [t] |>) in ret [])
      else None
  | AnswerSync to =>
      if clock_free s then Some (
        let* time := zoom clock Clock.get_time in
        let* _ := push_at (outgoing s) (SequencePaxosMsg
          {| from := 1; to := to; msg := SyncAnswer time |}) in
        ret [])
      else None
  | TickFn =>
      if clock_free s then Some (
        let* r := zoom clock (Clock.tick (gen_bool e)) in
        ret (TickFn :: (FireDeadline <$> r.2) ++ (if r.1 then [SyncWithMaster] else [])))
      else None
  | FireDeadline sender => Some (
      let* _ := modify (λ s, s <| clock ::= λ c, c <| Clock.timers ::= send sender tt |> |>) in
      ret [])
  | SyncWithMaster =>
      if clock_free s then Some (
        if Clock.master (clock s) =? 1 then ret [ReadOwnTime (now e)]
        else
          let* _ := push_at (Clock.outgoing (clock s)) (SequencePaxosMsg
            {| from := Clock.master (clock s); to := 1; msg := SyncReq |}) in
          ret [AwaitMasterTime (now e)])
      else None
  | ReadOwnTime t0 =>
      if clock_free s then Some (
        let* leader_time := zoom clock Clock.get_time in
        ret [FinishSync t0 (now e) leader_time])
      else None
  | AwaitMasterTime t0 =>
      match master_times s with
      | leader_time :: rest => Some (
          let* _ := modify (λ s, s <| master_times := rest |>) in
          ret [FinishSync t0 (now e) leader_time])
      | [] => None
      end
  | FinishSync t0 t1 leader_time =>
      if clock_free s then Some (
        let* _ := zoom clock (Clock.finish_sync t0 t1 leader_time) in
        ret [])
      else None
  end.

(** The scheduler lets the task at position [i] take a step.  A task that panics is gone; what it
    did before stays. *)
Definition schedule (e : env) (i : nat) (s : Self) : option Self :=
  match tasks s !! i with
  | None => None
  | Some tk =>
      match run_task e tk s with
      | None => None
      | Some m =>
          let s0 := s <| tasks ::= λ l, take i l ++ drop (S i) l |> in
          let (r, s1) := m s0 in
          Some match r with
               | Val more => s1 <| tasks ::= λ l, l ++ more |>
               | Panic _ => s1
               end
      end
  end.

End ops.
End SequencePaxos.
