(* ===== verification/Replica.v ===== *)
(** * What a replica guarantees

    The invariants of [SequencePaxos] under every interleaving of its tasks with the calls of the
    server's main loop. *)

From S2P Require Import Prelude Util Ballots Config Time StorageApi InternalStorage Messages Ble.
From S2P Require Import Collections Clock Buffers SequencePaxos.

(** The history hash of a backend is a function of its log. *)
Class HistoryHash (T Sn I : Type) `{!Storage.t T Sn I, !Storage.Laws T Sn I} : Type := {
  log_hash : list T → N;
  history_hash_law i : Storage.history_hash i = (Val (log_hash (Storage.v_log (Storage.vw i))), i)
}.

Module Replica.
Import SequencePaxos.

Section replica.
Context {T Sn I : Type} `{Build, StorageApi.Request T, Snapshot T Sn, !Storage.t T Sn I,
  !Storage.Laws T Sn I, !HistoryHash T Sn I, BinaryHeap, Oneshot T, Oneshot unit}.

Abbreviation Task := (task T (chan T) (chan unit)).
Abbreviation Self := (t (InternalStorage.t I T) (Buffers.t T (chan T) (chans T))
  (Clock.t (chan unit) (chans unit)) (list (Message T)) Task).
Implicit Types s : Self.

(** The log of a replica. *)
Definition log s : list T := Storage.v_log (view_of (internal_storage s)).

(** ** The transitions *)

(** A step of a task, or a call of the main loop. *)
Inductive step : Self → Self → Prop :=
  | step_task s e i s' : schedule e i s = Some s' → step s s'
  | step_append s entry speculate r s' :
      append entry speculate s = (Val r, s') → step s s'
  | step_handle s m r s' : handle m s = (Val r, s') → step s s'
  | step_take s buffer r s' : take_outgoing_msgs buffer s = (Val r, s') → step s s'
  | step_take_client s buffer r s' :
      take_outgoing_client_msgs buffer s = (Val r, s') → step s s'
  | step_leader s n s' : handle_leader n s = (Val tt, s') → step s s'
  | step_reconnected s p s' : reconnected p s = (Val tt, s') → step s s'.

(** Runs, as long as the log fits into memory. *)
Inductive steps s : Self → Prop :=
  | steps_refl : steps s s
  | steps_step s1 s' : steps s s1 → len (log s1) < isize_max → step s1 s' → steps s s'.

(** ** Acknowledgements *)

(** An acknowledgement is about the entry at its position of the log, and about everything before
    it. *)
Definition ack_true (l : list T) (req : T) (hash : N) (idx : N) : Prop :=
  1 ≤ idx ≤ len l ∧ l !! N.to_nat (idx - 1) = Some req ∧
  hash = log_hash (take (N.to_nat idx) l).

Definition acks_in (tk : Task) : option (T * N * N) :=
  match tk with PushAck req hash _ idx => Some (req, hash, idx) | _ => None end.
Definition acks_of (m : Message T) : option (T * N * N) :=
  match m with
  | SequencePaxosMsg p => match msg p with Ack req hash _ idx => Some (req, hash, idx) | _ => None end
  | BLE _ => None
  end.

(** The acknowledgements that were sent or are about to be. *)
Definition has_ack s (a : T * N * N) : Prop :=
  (∃ tk, tk ∈ tasks s ∧ acks_in tk = Some a) ∨
  (∃ addr m, m ∈ vec_at s addr ∧ acks_of m = Some a).

(** What the log needs: no batching, no trimming and no reconfiguration, and a cache that knows
    the end of the log. *)
Record log_ok (st : InternalStorage.t I T) : Prop := {
  lo_accepted : StateCache.accepted_idx (InternalStorage.state_cache st) = log_end (view_of st);
  lo_base : Storage.v_base (view_of st) = 0;
  lo_stop : Storage.v_stopsign (view_of st) = None;
  lo_batch : StateCache.batch_size (InternalStorage.state_cache st) = 1;
  lo_empty : StateCache.batched_entries (InternalStorage.state_cache st) = []
}.

Record inv s : Prop := {
  inv_log : log_ok (internal_storage s);
  inv_acks req hash idx : has_ack s (req, hash, idx) → ack_true (log s) req hash idx
}.

Lemma ack_true_prefix l l' req hash idx :
  l `prefix_of` l' → ack_true l req hash idx → ack_true l' req hash idx.
Proof.
  intros [k ->] ((Hlo & Hhi) & Hget & Hhash). unfold ack_true. rewrite len_app.
  split_and!; [lia|lia| |].
  - by apply lookup_app_l_Some.
  - rewrite Hhash, take_app_le; [done|]. unfold len in Hhi. lia.
Qed.

(** ** Computations that leave the log alone *)

(** The storage is untouched and no acknowledgement appears. *)
Definition quiet_rel s s' : Prop :=
  internal_storage s' = internal_storage s ∧ (∀ a, has_ack s' a → has_ack s a).
Definition quiet {A} (m : M Self A) : Prop := ∀ s, quiet_rel s (m s).2.

Lemma quiet_rel_refl s : quiet_rel s s.
Proof. by split. Qed.
Lemma quiet_rel_trans s1 s2 s3 : quiet_rel s1 s2 → quiet_rel s2 s3 → quiet_rel s1 s3.
Proof. intros [E12 H12] [E23 H23]. split; [congruence|auto]. Qed.

Lemma quiet_ret {A} (a : A) : quiet (ret a).
Proof. intros s. apply quiet_rel_refl. Qed.
Lemma quiet_lift {A} (o : outcome A) : quiet (lift o).
Proof. intros s. apply quiet_rel_refl. Qed.
Lemma quiet_gets {A} (f : Self → A) : quiet (gets f).
Proof. intros s. apply quiet_rel_refl. Qed.
Lemma quiet_bind {A B} (m : M Self A) (k : A → M Self B) :
  quiet m → (∀ a, quiet (k a)) → quiet (bind m k).
Proof.
  intros Hm Hk s. unfold bind. specialize (Hm s). destruct (m s) as [[a|f] s1]; [|done].
  eapply quiet_rel_trans; [exact Hm|apply Hk].
Qed.
Lemma quiet_mfor {A} (l : list A) (body : A → M Self unit) :
  (∀ x, quiet (body x)) → quiet (mfor l body).
Proof. intros Hb. induction l; cbn; [apply quiet_ret|]. apply quiet_bind; auto. Qed.
Lemma quiet_buffers {A} (m : M (Buffers.t T (chan T) (chans T)) A) : quiet (zoom buffers m).
Proof. intros s. unfold zoom. destruct (m _) as [o b]. by split. Qed.
Lemma quiet_clock {A} (m : M (Clock.t (chan unit) (chans unit)) A) : quiet (zoom clock m).
Proof. intros s. unfold zoom. destruct (m _) as [o b]. by split. Qed.
Lemma quiet_modify (f : Self → Self) :
  (∀ s, internal_storage (f s) = internal_storage s ∧ vectors (f s) = vectors s ∧
        tasks (f s) = tasks s) → quiet (modify f).
Proof.
  intros Hf s. cbn. destruct (Hf s) as (E1 & E2 & E3). split; [done|].
  unfold has_ack, vec_at. by rewrite E2, E3.
Qed.
Lemma vec_at_push s a (m : Message T) b :
  vec_at (push_at a m s).2 b = if decide (b = a) then vec_at s a ++ [m] else vec_at s b.
Proof.
  unfold push_at, modify, vec_at. cbn. case_decide as Hd; [subst b|].
  - rewrite lookup_partial_alter_eq. by destruct (vectors s !! a).
  - by rewrite lookup_partial_alter_ne.
Qed.
Lemma quiet_push a (m : Message T) : acks_of m = None → quiet (push_at a m).
Proof.
  intros Hm s. split; [done|]. intros x [Htk|(b & m' & Hin & Hx)]; [by left|].
  rewrite vec_at_push in Hin. case_decide; [subst b|right; eauto].
  apply elem_of_app in Hin as [Hin|Hin]; [right; eauto|].
  apply list_elem_of_singleton in Hin as ->. congruence.
Qed.
Lemma quiet_spawn tk : acks_in tk = None → quiet (spawn tk).
Proof.
  intros Htk s. split; [done|]. cbn. intros x [(tk' & Hin & Hx)|?]; [|by right].
  apply elem_of_app in Hin as [Hin|Hin]; [left; eauto|].
  apply list_elem_of_singleton in Hin as ->. congruence.
Qed.
(** Reading from the storage. *)
Lemma quiet_read {A} (f : InternalStorage.t I T → A) : quiet (zoom internal_storage (gets f)).
Proof. intros [s]. by split. Qed.

Lemma quiet_inv s s' : inv s → quiet_rel s s' → inv s' ∧ log s' = log s.
Proof.
  intros [Hlog Hacks] [E Hq]. unfold log in *. split; [|by rewrite E].
  split; [by rewrite E|]. intros req hash idx Ha. unfold log. rewrite E. by apply Hacks, Hq.
Qed.

(** ** Computations on the storage that leave the log alone *)

(** The log stays, and what [log_ok] says of the cache. *)
Definition same_log (st st' : InternalStorage.t I T) : Prop :=
  Storage.v_log (view_of st') = Storage.v_log (view_of st) ∧ (log_ok st → log_ok st').

Lemma inv_storage s st' :
  inv s → same_log (internal_storage s) st' →
  let s' := s <| internal_storage := st' |> in inv s' ∧ log s' = log s.
Proof.
  intros [Hlog Hacks] [E Hok]. split; [|exact E]. split; [by apply Hok|].
  intros req hash idx Ha. unfold log. cbn. rewrite E. by apply Hacks.
Qed.

Lemma set_decided_same_log i st : same_log st (InternalStorage.set_decided_idx i st).2.
Proof.
  unfold InternalStorage.set_decided_idx, InternalStorage.set_cache, bind, modify, zoom. cbn.
  destruct (Storage.set_decided_idx_law i (InternalStorage.storage st)) as (r & w & E & Hw);
    [done|]. rewrite E. cbn. unfold same_log, view_of. cbn. rewrite Hw.
  split; [by destruct (is_ok r)|]. intros [Ha Hb Hs Hz He]. unfold view_of in *.
  split; unfold view_of; cbn; rewrite ?Hw; destruct (is_ok r); done.
Qed.

Lemma set_promise_same_log n st : same_log st (InternalStorage.set_promise n st).2.
Proof.
  unfold InternalStorage.set_promise, InternalStorage.set_cache, bind, modify, zoom. cbn.
  destruct (Storage.set_promise_law n (InternalStorage.storage st)) as (r & w & E & Hw);
    [done|]. rewrite E. cbn. unfold same_log, view_of. cbn. rewrite Hw.
  split; [by destruct (is_ok r)|]. intros [Ha Hb Hs Hz He]. unfold view_of in *.
  split; unfold view_of; cbn; rewrite ?Hw; destruct (is_ok r); done.
Qed.

(** ** The steps that write the log *)

Lemma log_ok_end st : log_ok st → log_end (view_of st) = len (Storage.v_log (view_of st)).
Proof. intros []. unfold log_end, Storage.v_end. rewrite lo_base0, lo_stop0. lia. Qed.

Lemma append_one req st :
  log_ok st → len (Storage.v_log (view_of st)) < isize_max →
  returns (InternalStorage.append_entries_and_get_accepted_idx [req]) st (λ r st',
    log_ok st' ∧
    match r with
    | Ok o => Storage.v_log (view_of st') = Storage.v_log (view_of st) ++ [req] ∧
              o = Some (len (Storage.v_log (view_of st')))
    | Err _ => Storage.v_log (view_of st') = Storage.v_log (view_of st)
    end).
Proof.
  intros Hok Hlen. pose proof (log_ok_end _ Hok) as Hend. destruct Hok.
  unfold InternalStorage.append_entries_and_get_accepted_idx. wp_zoom.
  eapply returns_intro; [apply StateCache.append_entries_spec|]. cbv beta.
  rewrite lo_empty0, lo_batch0. change (1 <=? len ([] ++ [req])) with true. cbv iota. wp.
  apply returns_append_accepted; cbn; [done| | |].
  - change (log_end (view_of st) + 1 < usize_mod). lia.
  - intros i Hi. wp. unfold view_of in *. cbn in *. rewrite Hi. cbn. split; [|split; [done|]].
    + split; unfold view_of; cbn; rewrite ?Hi; try done. cbn.
      unfold log_end, Storage.v_end in *. cbn. autorewrite with len. lia.
    + f_equal. unfold log_end, Storage.v_end in *. cbn. autorewrite with len in *. lia.
  - intros e i Hi. wp. unfold view_of in *. cbn in *. rewrite Hi. split; [|done].
    split; unfold view_of; cbn; rewrite ?Hi; done.
Qed.

Lemma flush_empty st :
  log_ok st → len (Storage.v_log (view_of st)) < usize_mod →
  returns InternalStorage.flush_batch st (λ r st',
    log_ok st' ∧ Storage.v_log (view_of st') = Storage.v_log (view_of st)).
Proof.
  intros Hok Hlen. pose proof (log_ok_end _ Hok) as Hend. destruct Hok.
  unfold InternalStorage.flush_batch, StateCache.take_batched_entries. wp_zoom.
  unfold id. rewrite lo_empty0. apply returns_append_accepted; cbn; [done| | |].
  - change (log_end (view_of st) + len (@nil T) < usize_mod). rewrite len_nil. lia.
  - intros i Hi. unfold view_of in *. cbn in *. rewrite Hi. cbn. rewrite app_nil_r. split; [|done].
    split; unfold view_of; cbn; rewrite ?Hi; try done. cbn.
    unfold log_end, Storage.v_end. cbn. by rewrite app_nil_r, N.add_0_r.
  - intros e i Hi. unfold view_of in *. cbn in *. rewrite Hi. split; [|done].
    split; unfold view_of; cbn; rewrite ?Hi; done.
Qed.

(** A step keeps the invariant, and the log only grows. *)
Definition grows s s' : Prop := inv s' ∧ log s `prefix_of` log s'.

Lemma grows_refl s : inv s → grows s s.
Proof. by split. Qed.
Lemma grows_trans s1 s2 s3 : grows s1 s2 → (inv s2 → grows s2 s3) → grows s1 s3.
Proof. intros [Hi1 Hl1] H23. destruct (H23 Hi1) as [Hi Hl]. split; [done|by etrans]. Qed.
Lemma quiet_grows s s' : inv s → quiet_rel s s' → grows s s'.
Proof. intros Hs Hq. destruct (quiet_inv _ _ Hs Hq) as [Hi Hl]. split; [done|by rewrite Hl]. Qed.
Lemma storage_grows s st' :
  inv s → same_log (internal_storage s) st' → grows s (s <| internal_storage := st' |>).
Proof. intros Hs Hst. destruct (inv_storage _ _ Hs Hst) as [Hi Hl]. split; [done|by rewrite Hl]. Qed.

(** Replacing the storage by one whose log is longer. *)
Lemma inv_longer s st' :
  inv s → log_ok st' → log s `prefix_of` Storage.v_log (view_of st') →
  grows s (s <| internal_storage := st' |>).
Proof.
  intros [_ Hacks] Hok Hpre. split; [|done]. split; [done|].
  intros req hash idx Ha. eapply ack_true_prefix; [exact Hpre|by apply Hacks].
Qed.

(** New tasks, whose acknowledgements are true. *)
Lemma inv_tasks s more :
  inv s → (∀ tk req hash idx, tk ∈ more → acks_in tk = Some (req, hash, idx) →
    ack_true (log s) req hash idx) →
  grows s (s <| tasks ::= λ l, l ++ more |>).
Proof.
  intros [Hlog Hacks] Hmore. split; [|done]. split; [done|]. intros req hash idx Ha.
  destruct Ha as [(tk & Hin & Ha)|Ha]; [|apply Hacks; by right]. cbn in Hin.
  apply elem_of_app in Hin as [Hin|Hin]; [apply Hacks; left; eauto|eauto].
Qed.

Lemma quiet_remove_task i s : quiet_rel s (s <| tasks ::= λ l, take i l ++ drop (S i) l |>).
Proof.
  split; [done|]. intros a [(tk & Hin & Ha)|Ha]; [|by right]. left. exists tk. split; [|done].
  cbn in Hin. apply elem_of_app in Hin as [Hin|Hin].
  - rewrite <-(take_drop i (tasks s)). apply elem_of_app. by left.
  - rewrite <-(take_drop (S i) (tasks s)). apply elem_of_app. by right.
Qed.

(** What a task leaves behind: the state, and the tasks it goes on with. *)
Definition good (m : M Self (list Task)) : Prop := ∀ s, inv s → len (log s) < isize_max →
  grows s (m s).2 ∧
  ∀ more, (m s).1 = Val more → ∀ tk req hash idx, tk ∈ more →
    acks_in tk = Some (req, hash, idx) → ack_true (log (m s).2) req hash idx.

(** A task that is quiet and does not acknowledge. *)
Lemma good_quiet (m : M Self (list Task)) :
  quiet m → (∀ s more s', m s = (Val more, s') → ∀ tk, tk ∈ more → acks_in tk = None) → good m.
Proof.
  intros Hq Hno s Hs _. split; [by apply quiet_grows|]. intros more Hm tk req hash idx Hin Ha.
  rewrite (Hno s more (m s).2) in Ha; [done| |done]. by rewrite <-Hm, <-surjective_pairing.
Qed.

Ltac quiet :=
  repeat first [apply quiet_ret | apply quiet_bind; [|intros ?] | apply quiet_buffers
    | apply quiet_clock | by apply quiet_push | by apply quiet_spawn
    | apply quiet_mfor; intros ? | apply quiet_read | apply quiet_gets | apply quiet_lift
    | by apply quiet_modify | case_match].

(** The tasks a computation ends with, when it does not panic. *)
Lemma no_acks_bind {A} (m : M Self A) (k : A → M Self (list Task)) :
  (∀ a s more s', k a s = (Val more, s') → ∀ tk, tk ∈ more → acks_in tk = None) →
  ∀ s more s', bind m k s = (Val more, s') → ∀ tk, tk ∈ more → acks_in tk = None.
Proof. intros Hk s more s'. unfold bind. destruct (m s) as [[a|f] s1]; [apply Hk|done]. Qed.
Lemma no_acks_ret (l : list Task) :
  (∀ tk, tk ∈ l → acks_in tk = None) →
  ∀ s more s', ret l s = (Val more, s') → ∀ tk, tk ∈ more → acks_in tk = None.
Proof. by intros Hl s more s' [= <- <-]. Qed.

Ltac no_acks :=
  repeat first [apply no_acks_bind; intros ? | case_match | apply no_acks_ret];
  intros ?; rewrite ?elem_of_cons, ?elem_of_app, ?list_elem_of_fmap; set_solver.

(** A computation that only writes the storage, and keeps the log. *)
Lemma good_storage {A} (m : M (InternalStorage.t I T) (StorageResult A)) :
  (∀ st, same_log st (m st).2) →
  good (let* _ := expect (zoom internal_storage m) in ret []).
Proof.
  intros Hm s Hs _. unfold expect, bind, zoom. specialize (Hm (internal_storage s)).
  destruct (m (internal_storage s)) as [[[a|e]|f] st]; cbn in *;
    (split; [by apply (storage_grows s st)|]); [intros more [= <-]|done..].
  by intros tk req hash idx Hin%elem_of_nil.
Qed.

Lemma good_append req spec :
  good (let* idx := expect (zoom internal_storage
          (InternalStorage.append_entries_and_get_accepted_idx [req])) in
        let* accepted_idx := unwrap idx in
        let* hash := zoom internal_storage (zoom InternalStorage.storage Storage.history_hash) in
        ret [PushAck req hash spec accepted_idx]).
Proof.
  intros s Hs Hlen.
  destruct (returns_elim _ _ _ (append_one req _ (inv_log _ Hs) Hlen)) as (r & st & E & Hok & Hr).
  unfold expect, bind, zoom, ret. rewrite E. destruct r as [o|e]; cbn.
  - destruct Hr as [Hl ->]. cbn. rewrite history_hash_law. cbn.
    assert (Est : st <| InternalStorage.storage := InternalStorage.storage st |> = st)
      by by destruct st.
    cbn in Est. rewrite Est. split.
    + apply (inv_longer s st); [done..|]. rewrite Hl. by apply prefix_app_r.
    + intros more [= <-] tk req' hash' idx' Hin Ha. apply list_elem_of_singleton in Hin as ->.
      injection Ha as <- <- <-. unfold log. cbn.
      change (Storage.vw (InternalStorage.storage st)) with (view_of st). rewrite Hl.
      unfold ack_true. rewrite len_app, len_cons, len_nil. split_and!; [lia|lia| |].
      * apply lookup_app_Some. right. unfold len. split; [lia|].
        by replace (_ - _)%nat with 0%nat by lia.
      * f_equal. symmetry. apply take_ge. rewrite length_app. cbn. unfold len. lia.
  - split; [|done]. apply (inv_longer s st); [done..|]. by rewrite Hr.
Qed.

Lemma push_ack_grows s req hash spec idx to :
  inv s → ack_true (log s) req hash idx →
  grows s (push_at (outgoing_clients s) (SequencePaxosMsg
    {| from := pid s; to := to; msg := Ack req hash spec idx |}) s).2.
Proof.
  intros [Hlog Hacks] Ha. split; [|done]. split; [done|]. intros req' hash' idx' [Htk|Hv].
  { apply Hacks. by left. }
  destruct Hv as (a & m & Hin & Hm). rewrite vec_at_push in Hin.
  case_decide; [subst a|apply Hacks; right; eauto].
  apply elem_of_app in Hin as [Hin|Hin]; [apply Hacks; right; eauto|].
  apply list_elem_of_singleton in Hin as ->. by injection Hm as <- <- <-.
Qed.

(** Every task is good, once its own acknowledgement is true. *)
Lemma run_task_good e tk s m :
  run_task e tk s = Some m → acks_in tk = None → good m.
Proof.
  intros Hm Htk. destruct tk; try discriminate Htk; cbn in Hm;
    repeat match type of Hm with
    | (if ?b then _ else _) = _ => destruct b; [|discriminate Hm]
    | match ?o with _ => _ end = _ => destruct o; try discriminate Hm
    end; injection Hm as <-;
    first [apply good_append | apply good_storage; intros; apply set_decided_same_log
          |apply good_quiet; [quiet|no_acks]].
Qed.

Lemma schedule_grows e i s s' :
  inv s → len (log s) < isize_max → schedule e i s = Some s' → grows s s'.
Proof.
  intros Hs Hlen. unfold schedule. destruct (tasks s !! i) as [tk|] eqn:Htk; [|done].
  destruct (run_task e tk s) as [m|] eqn:Hrun; [|done]. cbv zeta.
  pose proof (quiet_remove_task i s) as Hq.
  set (s0 := s <| tasks ::= λ l, take i l ++ drop (S i) l |>) in *. intros E.
  destruct (quiet_inv _ _ Hs Hq) as [Hs0 Hl0].
  assert (Hin : tk ∈ tasks s) by by eapply list_elem_of_lookup_2.
  eapply (grows_trans s s0); [by apply quiet_grows|intros _].
  destruct (acks_in tk) as [[[req hash] idx]|] eqn:Hack.
  - destruct tk; try discriminate Hack. injection Hack as -> -> ->. cbn in Hrun.
    injection Hrun as <-. unfold bind, push_at, modify in E. cbn in E. injection E as <-.
    assert (Ht : ack_true (log s0) req hash idx).
    { rewrite Hl0. apply (inv_acks _ Hs). left. by eexists. }
    pose proof (push_ack_grows s0 req hash spec idx (client_id req) Hs0 Ht) as Hg.
    unfold push_at, modify in Hg. cbn in Hg.
    eapply grows_trans; [exact Hg|]. intros Hs1. apply (inv_tasks _ []); [done|].
    intros tk' ? ? ? Hin'. by apply elem_of_nil in Hin'.
  - destruct (run_task_good e tk s m Hrun Hack s0 Hs0 ltac:(by rewrite Hl0)) as [Hg Hmore].
    destruct (m s0) as [r s1]. cbn in Hg, Hmore. injection E as <-.
    destruct r as [more|f]; [|exact Hg].
    eapply grows_trans; [exact Hg|]. intros Hs1. apply inv_tasks; [done|].
    intros tk' req hash idx Hin' Ha. by eapply Hmore.
Qed.

Lemma quiet_take_vector a buffer : quiet (take_vector a buffer).
Proof.
  unfold take_vector. apply quiet_bind; [apply quiet_gets|intros self].
  apply quiet_bind; [|intros ?; apply quiet_bind; [by apply quiet_modify|intros ?; apply quiet_ret]].
  assert (Hclear : quiet (modify (λ s, s <| vectors ::= <[a := []]> |>))).
  { intros s. split; [done|]. intros x [?|(b & m & Hin & Hx)]; [by left|]. right.
    exists b, m. split; [|done]. unfold vec_at in *. cbn in Hin.
    destruct (decide (a = b)) as [->|Hne].
    - rewrite lookup_insert_eq in Hin. by apply elem_of_nil in Hin.
    - by rewrite lookup_insert_ne in Hin. }
  destruct buffer; (apply quiet_bind; [exact Hclear|intros ?; apply quiet_ret]).
Qed.

(** Computations that write the storage and keep the log. *)
Definition keeps {A} (m : M Self A) : Prop := ∀ s, inv s → len (log s) < usize_mod →
  inv (m s).2 ∧ log (m s).2 = log s.

Lemma keeps_quiet {A} (m : M Self A) : quiet m → keeps m.
Proof. intros Hq s Hs _. by apply (quiet_inv s). Qed.
Lemma keeps_bind {A B} (m : M Self A) (k : A → M Self B) :
  keeps m → (∀ a, keeps (k a)) → keeps (bind m k).
Proof.
  intros Hm Hk s Hs Hlen. unfold bind. destruct (Hm s Hs Hlen) as [Hs1 Hl1].
  destruct (m s) as [[a|f] s1]; [|done]. cbn in *.
  destruct (Hk a s1 Hs1 ltac:(by rewrite Hl1)) as [Hs2 Hl2]. split; [done|congruence].
Qed.
Lemma keeps_expect {A E} (m : M Self (result A E)) : keeps m → keeps (expect m).
Proof.
  intros Hm. apply keeps_bind; [done|]. intros [a|e]; apply keeps_quiet; [apply quiet_ret|].
  intros s. apply quiet_rel_refl.
Qed.
Lemma keeps_flush : keeps (zoom internal_storage InternalStorage.flush_batch).
Proof.
  intros s Hs Hlen.
  destruct (returns_elim _ _ _ (flush_empty _ (inv_log _ Hs) Hlen)) as (r & st & E & Hok & Hl).
  unfold zoom. rewrite E. cbn. apply inv_storage; [done|]. by split.
Qed.
Lemma keeps_promise n : keeps (zoom internal_storage (InternalStorage.set_promise n)).
Proof.
  intros s Hs _. pose proof (set_promise_same_log n (internal_storage s)) as Hp. unfold zoom.
  destruct (InternalStorage.set_promise n _) as [o st]. cbn in *. by apply inv_storage.
Qed.

Lemma handle_leader_keeps n : keeps (handle_leader n).
Proof.
  unfold handle_leader, get_promise, become_follower. apply keeps_bind; [apply keeps_quiet; quiet|].
  intros self. apply keeps_bind; [apply keeps_quiet; quiet|]. intros stale.
  destruct stale; [apply keeps_quiet; quiet|].
  destruct (_ =? _); [|apply keeps_quiet; quiet].
  apply keeps_bind; [apply keeps_quiet; quiet|]. intros _.
  apply keeps_bind; [apply keeps_expect, keeps_flush|]. intros _.
  apply keeps_bind; [apply keeps_expect, keeps_promise|]. intros _. apply keeps_quiet; quiet.
Qed.

Lemma append_keeps entry speculate : keeps (append entry speculate).
Proof.
  apply keeps_quiet.
  unfold append, accepted_reconfiguration, propose_entry, handle_new_proposal. quiet.
Qed.
Lemma handle_keeps m : keeps (handle m).
Proof.
  apply keeps_quiet. unfold handle, handle_execution, handle_new_deadline, handle_resync_answer,
    handle_resync_request. quiet.
Qed.
Lemma take_keeps buffer : keeps (take_outgoing_msgs buffer).
Proof.
  apply keeps_quiet. unfold take_outgoing_msgs. apply quiet_bind; [apply quiet_gets|intros ?].
  apply quiet_take_vector.
Qed.
Lemma take_client_keeps buffer : keeps (take_outgoing_client_msgs buffer).
Proof.
  apply keeps_quiet. unfold take_outgoing_client_msgs.
  apply quiet_bind; [apply quiet_gets|intros ?]. apply quiet_take_vector.
Qed.
Lemma reconnected_keeps p : keeps (reconnected p).
Proof. apply keeps_quiet. unfold reconnected, get_current_leader, get_promise. quiet. Qed.

Lemma step_grows s s' : step s s' → inv s → len (log s) < isize_max → grows s s'.
Proof.
  intros Hstep Hs Hmax. assert (Hlen : len (log s) < usize_mod) by lia.
  assert (Hk : ∀ A (m : M Self A), keeps m → grows s (m s).2).
  { intros A m Hm. destruct (Hm s Hs Hlen) as [Hi Hl]. split; [done|by rewrite Hl]. }
  destruct Hstep as [s e i s' E|s entry speculate r s' E|s m r s' E|s buffer r s' E
    |s buffer r s' E|s n s' E|s p s' E]; [by eapply schedule_grows|..];
    apply (f_equal snd) in E; cbn [snd] in E; subst s'; apply Hk;
    auto using append_keeps, handle_keeps, take_keeps, take_client_keeps, handle_leader_keeps,
      reconnected_keeps.
Qed.

(** A replica that was just made, over a backend that has never been trimmed or stopped. *)
Lemma initial_inv config (storage : I) clk out outc s :
  view_ok (Storage.vw storage) → sp_batch_size config = 1 →
  Storage.v_base (Storage.vw storage) = 0 → Storage.v_stopsign (Storage.vw storage) = None →
  with_ config storage clk out outc = Val s → inv s ∧ log s = Storage.v_log (Storage.vw storage).
Proof.
  intros Hv Hbatch Hbase Hstop. unfold with_.
  destruct (iter_max_N (sp_peers config)); [|done].
  destruct (expect Storage.get_promise storage).1 as [promise|]; [|done].
  destruct (match promise with Some b => _ | None => _ end) as [st leader].
  pose proof (with_cases storage (sp_batch_size config) Hv) as Hw.
  destruct (InternalStorage.with_ storage (sp_batch_size config)) as [ist|]; [|done].
  destruct Hw as (Hc & Hst & Hb & Hsz).
  assert (Hok : log_ok ist).
  { split; [by apply cached_accepted|..]; unfold view_of; rewrite ?Hst; try done. by rewrite Hsz. }
  match goal with |- context [expect _ ?x] => set (s0 := x) end.
  assert (Hs0 : inv s0).
  { split; [done|]. intros req hash idx [(tk & Hin & Ha)|(a & m & Hin & Ha)].
    - subst s0. cbn in Hin. apply elem_of_cons in Hin as [->|Hin]; [done|].
      by apply list_elem_of_singleton in Hin as ->.
    - exfalso. subst s0. unfold vec_at in Hin. cbn in Hin.
      destruct (decide (a = out)) as [->|]; [rewrite lookup_insert_eq in Hin; cbn in Hin; by apply elem_of_nil in Hin|].
      rewrite lookup_insert_ne in Hin by done.
      destruct (decide (a = outc)) as [->|]; [rewrite lookup_singleton_eq in Hin; cbn in Hin; by apply elem_of_nil in Hin|].
      rewrite lookup_singleton_ne in Hin by done. cbn in Hin. by apply elem_of_nil in Hin. }
  assert (Hl0 : log s0 = Storage.v_log (Storage.vw storage)).
  { unfold log, view_of. cbn. by rewrite Hst. }
  assert (Hlen : len (log s0) < usize_mod).
  { rewrite Hl0. pose proof (end_fits _ Hv) as Hend. unfold log_end, Storage.v_end in Hend. lia. }
  destruct (keeps_expect _ (keeps_promise leader) s0 Hs0 Hlen) as [Hi Hl].
  destruct (expect _ s0) as [[u|f] s1]; [|done]. intros [= <-]. cbn in *. split; [done|congruence].
Qed.

Lemma steps_grow s s' : steps s s' → inv s → grows s s'.
Proof.
  intros Hsteps Hs. induction Hsteps as [|s1 s' _ IH Hlen Hstep]; [by apply grows_refl|].
  eapply grows_trans; [exact IH|]. intros Hs1. by apply step_grows.
Qed.

(** C27.  The log of a replica only grows: whatever the tasks and the main loop do, in
    whatever order, and whichever of them panic, an entry keeps its position. *)
Theorem log_is_append_only s s' : inv s → steps s s' → log s `prefix_of` log s'.
Proof. intros Hs Hsteps. by apply (steps_grow s s'). Qed.

(** C39.  Acknowledgements tell the truth.  A replica is started with a batch size of one on a
    backend that was never trimmed or stopped.  Then, at any later time, every acknowledgement that
    waits to be sent carries the position of its entry in the log, and the hash of the log up to
    and including this entry. *)
Theorem acknowledgements_are_true config (storage : I) clk out outc s s' a p req hash spec idx :
  view_ok (Storage.vw storage) → sp_batch_size config = 1 →
  Storage.v_base (Storage.vw storage) = 0 → Storage.v_stopsign (Storage.vw storage) = None →
  with_ config storage clk out outc = Val s → steps s s' →
  SequencePaxosMsg p ∈ vec_at s' a → msg p = Ack req hash spec idx →
  1 ≤ idx ≤ len (log s') ∧ log s' !! N.to_nat (idx - 1) = Some req ∧
  hash = log_hash (take (N.to_nat idx) (log s')).
Proof.
  intros Hv Hbatch Hbase Hstop E Hsteps Hin Hmsg.
  destruct (initial_inv _ _ _ _ _ _ Hv Hbatch Hbase Hstop E) as [Hs _].
  destruct (steps_grow _ _ Hsteps Hs) as [[_ Hacks] _]. apply (Hacks req hash idx).
  right. exists a, (SequencePaxosMsg p). split; [done|]. cbn. by rewrite Hmsg.
Qed.
End replica.
End Replica.
