(* ===== verification/Acks.v ===== *)
(** * The acknowledgements of a replica

    What a replica hands to its server for the proxy, over a whole run: every position of the log is
    acknowledged at most once, and truthfully.  [System] composes this with the proxy. *)

From S2P Require Import Prelude Util Ballots Config Time StorageApi InternalStorage Messages Ble.
From S2P Require Import Collections Clock Buffers SequencePaxos Replica.

Module Acks.
Import SequencePaxos Replica.

Section acks.
Context {T Sn I : Type} `{Build, StorageApi.Request T, Snapshot T Sn, !Storage.t T Sn I,
  !Storage.Laws T Sn I, !HistoryHash T Sn I, BinaryHeap, Oneshot T, Oneshot unit}.

Abbreviation Task := (task T (chan T) (chan unit)).
Abbreviation Self := (t (InternalStorage.t I T) (Buffers.t T (chan T) (chans T))
  (Clock.t (chan unit) (chans unit)) (list (Message T)) Task).
Implicit Types s : Self.

(** The positions that tasks and messages acknowledge. *)
Definition task_idx (tk : Task) : option N := snd <$> acks_in tk.
Definition msg_idx (m : Message T) : option N := snd <$> acks_of m.
Definition pending s : list N :=
  omap task_idx (tasks s) ++ omap msg_idx (vec_at s (outgoing_clients s)).

(** Runs, with the messages that [take_outgoing_client_msgs] has handed to the server. *)
Inductive sends (s0 : Self) : list (Message T) → Self → Prop :=
  | sends_start : sends s0 [] s0
  | sends_step out s s' :
      sends s0 out s → len (log s) < isize_max → step s s' → sends s0 out s'
  | sends_take out s r s' :
      sends s0 out s → len (log s) < isize_max →
      take_outgoing_client_msgs [] s = (Val r, s') → sends s0 (out ++ r) s'.

Lemma sends_steps s0 out s : sends s0 out s → steps s0 s.
Proof.
  induction 1 as [|out s s' _ IH Hlen Hs|out s r s' _ IH Hlen E]; [constructor|..].
  - by eapply steps_step.
  - eapply steps_step; [done..|]. by eapply step_take_client.
Qed.

(** ** Computations that acknowledge nothing *)

Definition frugal_rel s s' : Prop :=
  outgoing_clients s' = outgoing_clients s ∧ pending s' ⊆+ pending s.
Definition frugal {A} (m : M Self A) : Prop := ∀ s, frugal_rel s (m s).2.

Lemma frugal_rel_refl s : frugal_rel s s.
Proof. by split. Qed.
Lemma frugal_rel_trans s1 s2 s3 : frugal_rel s1 s2 → frugal_rel s2 s3 → frugal_rel s1 s3.
Proof. intros [E12 H12] [E23 H23]. split; [congruence|by etrans]. Qed.

Lemma frugal_ret {A} (a : A) : frugal (ret a).
Proof. intros s. apply frugal_rel_refl. Qed.
Lemma frugal_lift {A} (o : outcome A) : frugal (lift o).
Proof. intros s. apply frugal_rel_refl. Qed.
Lemma frugal_gets {A} (f : Self → A) : frugal (gets f).
Proof. intros s. apply frugal_rel_refl. Qed.
Lemma frugal_bind {A B} (m : M Self A) (k : A → M Self B) :
  frugal m → (∀ a, frugal (k a)) → frugal (bind m k).
Proof.
  intros Hm Hk s. unfold bind. specialize (Hm s). destruct (m s) as [[a|f] s1]; [|done].
  eapply frugal_rel_trans; [exact Hm|apply Hk].
Qed.
Lemma frugal_mfor {A} (l : list A) (body : A → M Self unit) :
  (∀ x, frugal (body x)) → frugal (mfor l body).
Proof. intros Hb. induction l; cbn; [apply frugal_ret|]. apply frugal_bind; auto. Qed.
Lemma frugal_expect {A E} (m : M Self (result A E)) : frugal m → frugal (expect m).
Proof. intros Hm. apply frugal_bind; [done|]. intros [a|e] s; apply frugal_rel_refl. Qed.
Lemma frugal_storage {A} (m : M (InternalStorage.t I T) A) : frugal (zoom internal_storage m).
Proof. intros s. unfold zoom. by destruct (m _). Qed.
Lemma frugal_buffers {A} (m : M (Buffers.t T (chan T) (chans T)) A) : frugal (zoom buffers m).
Proof. intros s. unfold zoom. by destruct (m _). Qed.
Lemma frugal_clock {A} (m : M (Clock.t (chan unit) (chans unit)) A) : frugal (zoom clock m).
Proof. intros s. unfold zoom. by destruct (m _). Qed.
Lemma frugal_unwrap {A} (o : option A) : frugal (unwrap o).
Proof. by destruct o; intros s; apply frugal_rel_refl. Qed.
Lemma frugal_modify (f : Self → Self) :
  (∀ s, outgoing_clients (f s) = outgoing_clients s ∧ vectors (f s) = vectors s ∧
        tasks (f s) = tasks s) → frugal (modify f).
Proof.
  intros Hf s. cbn. destruct (Hf s) as (E1 & E2 & E3). split; [done|].
  unfold pending, vec_at. by rewrite E1, E2, E3.
Qed.
Lemma frugal_push a (m : Message T) : acks_of m = None → frugal (push_at a m).
Proof.
  intros Hm s. split; [done|]. unfold pending. rewrite vec_at_push. cbn.
  case_decide as Ha; [|done]. rewrite omap_app, <-Ha. cbn. unfold msg_idx at 2. rewrite Hm. cbn.
  by rewrite app_nil_r.
Qed.
Lemma frugal_spawn tk : acks_in tk = None → frugal (spawn tk).
Proof.
  intros Htk s. split; [done|]. unfold pending. cbn. rewrite omap_app. cbn.
  unfold task_idx at 2. rewrite Htk. cbn. by rewrite app_nil_r.
Qed.
Lemma frugal_take a buffer : frugal (take_vector a buffer).
Proof.
  unfold take_vector. apply frugal_bind; [apply frugal_gets|intros self].
  apply frugal_bind; [|intros ?; apply frugal_bind; [by apply frugal_modify|intros ?; apply frugal_ret]].
  assert (Hclear : frugal (modify (λ s, s <| vectors ::= <[a := []]> |>))).
  { intros s. split; [done|]. unfold pending, vec_at. cbn. apply submseteq_app; [done|].
    destruct (decide (a = outgoing_clients s)) as [->|Hne].
    - rewrite lookup_insert_eq. apply submseteq_nil_l.
    - by rewrite lookup_insert_ne. }
  destruct buffer; (apply frugal_bind; [exact Hclear|intros ?; apply frugal_ret]).
Qed.

Lemma frugal_panic {A} f : frugal (panic (A := A) f).
Proof. intros s. apply frugal_rel_refl. Qed.

Ltac frugal_step :=
  lazymatch goal with
  | |- frugal (ret _) => apply frugal_ret
  | |- frugal (take_vector _ _) => apply frugal_take
  | |- frugal (bind _ _) => apply frugal_bind; [|intros ?]
  | |- frugal (expect _) => apply frugal_expect
  | |- frugal (zoom internal_storage _) => apply frugal_storage
  | |- frugal (zoom buffers _) => apply frugal_buffers
  | |- frugal (zoom clock _) => apply frugal_clock
  | |- frugal (push_at _ _) => by apply frugal_push
  | |- frugal (spawn _) => by apply frugal_spawn
  | |- frugal (mfor _ _) => apply frugal_mfor; intros ?
  | |- frugal (unwrap _) => apply frugal_unwrap
  | |- frugal (gets _) => apply frugal_gets
  | |- frugal (lift _) => apply frugal_lift
  | |- frugal (panic _) => apply frugal_panic
  | |- frugal (modify _) => by apply frugal_modify
  | |- frugal (when _ _) => unfold when
  | |- frugal (match _ with _ => _ end) => case_match
  end.
Ltac frugal := repeat frugal_step.

(** The tasks that a computation ends with. *)
Definition unacked (m : M Self (list Task)) : Prop :=
  ∀ s more s', m s = (Val more, s') → omap task_idx more = [].
Lemma unacked_bind {A} (m : M Self A) (k : A → M Self (list Task)) :
  (∀ a, unacked (k a)) → unacked (bind m k).
Proof. intros Hk s more s' E. apply bind_val_inv in E as (a & s1 & _ & E). by eapply Hk. Qed.
Lemma unacked_ret (l : list Task) : omap task_idx l = [] → unacked (ret l).
Proof. by intros Hl s more s' [= <- <-]. Qed.
Lemma omap_fire (l : list (chan unit)) : omap task_idx (FireDeadline <$> l) = [].
Proof. by induction l. Qed.

Definition appends (tk : Task) : bool := match tk with AppendLog _ _ => true | _ => false end.

Lemma run_task_frugal e tk s m :
  run_task e tk s = Some m → acks_in tk = None → frugal m ∧ (appends tk = false → unacked m).
Proof.
  intros Hm Htk. destruct tk; try discriminate Htk; cbn in Hm;
    repeat match type of Hm with
    | (if ?b then _ else _) = _ => destruct b; [|discriminate Hm]
    | match ?o with _ => _ end = _ => destruct o; try discriminate Hm
    end; injection Hm as <-; (split; [frugal|]); intros Happ; try discriminate Happ;
    repeat first [apply unacked_bind; intros ? | case_match | apply unacked_ret]; try done.
  - cbn. by rewrite omap_app, omap_fire.
  - cbn. by rewrite omap_app, omap_fire.
Qed.

(** ** Every position is acknowledged once *)

(** What has been acknowledged: the messages that the server has got, and what is pending. *)
Record unique (out : list (Message T)) s : Prop := {
  unique_nodup : NoDup (omap msg_idx out ++ pending s);
  unique_bound i : i ∈ omap msg_idx out ++ pending s → i ≤ len (log s)
}.

Lemma NoDup_submultiset {A} (l k : list A) : l ⊆+ k → NoDup k → NoDup l.
Proof. intros [r ->]%submseteq_Permutation [? _]%NoDup_app. done. Qed.

Lemma unique_frugal out s s' :
  unique out s → frugal_rel s s' → len (log s) ≤ len (log s') → unique out s'.
Proof.
  intros [Hnd Hb] [_ Hsub] Hlen.
  assert (Hs : omap msg_idx out ++ pending s' ⊆+ omap msg_idx out ++ pending s)
    by by apply submseteq_app.
  split; [by eapply NoDup_submultiset|]. intros i Hi. etrans; [apply Hb|exact Hlen].
  by eapply elem_of_submseteq.
Qed.

Lemma prefix_len {A} (l k : list A) : l `prefix_of` k → len l ≤ len k.
Proof. intros [z ->]. rewrite len_app. lia. Qed.

Lemma remove_task_pending s i tk :
  tasks s !! i = Some tk →
  pending s ≡ₚ option_list (task_idx tk) ++
    pending (s <| tasks ::= λ l, take i l ++ drop (S i) l |>).
Proof.
  intros Htk. unfold pending. change (vec_at (s <| tasks ::= _ |>)) with (vec_at s). cbn.
  rewrite <-(take_drop_middle _ _ _ Htk) at 1. rewrite !omap_app. cbn.
  destruct (task_idx tk); cbn; [|done]. rewrite <-!app_assoc. cbn. by rewrite <-Permutation_middle.
Qed.

Lemma more_tasks_pending s more :
  pending (s <| tasks ::= λ l, l ++ more |>) ≡ₚ omap task_idx more ++ pending s.
Proof.
  unfold pending. change (vec_at (s <| tasks ::= _ |>)) with (vec_at s). cbn.
  rewrite omap_app. solve_Permutation.
Qed.

(** The tasks a computation goes on with, when they acknowledge nothing. *)
Lemma unique_more out s more :
  unique out s → omap task_idx more = [] → unique out (s <| tasks ::= λ l, l ++ more |>).
Proof.
  intros Hu Hno. eapply unique_frugal; [done| |done]. split; [done|].
  by rewrite more_tasks_pending, Hno.
Qed.

(** [AppendLog]: the entry is the last one of the longer log. *)
Lemma append_log_task req spec s0 r s1 :
  inv s0 → len (log s0) < isize_max →
  (let* idx := expect (zoom internal_storage
      (InternalStorage.append_entries_and_get_accepted_idx [req])) in
   let* accepted_idx := unwrap idx in
   let* hash := zoom internal_storage (zoom InternalStorage.storage Storage.history_hash) in
   ret [PushAck req hash spec accepted_idx]) s0 = (Val r, s1) →
  omap task_idx r = [len (log s1)] ∧ len (log s0) < len (log s1).
Proof.
  intros Hs Hlen.
  destruct (returns_elim _ _ _ (append_one req _ (inv_log _ Hs) Hlen)) as (a & st & E & Hok & Hr).
  unfold expect, bind, zoom, ret. rewrite E. destruct a as [o|e]; cbn; [|done].
  destruct Hr as [Hl ->]. cbn. rewrite history_hash_law. cbn. intros [= <- <-]. cbn.
  assert (Est : st <| InternalStorage.storage := InternalStorage.storage st |> = st)
    by by destruct st.
  cbn in Est. unfold log. cbn. rewrite Est, Hl. split; [done|]. rewrite len_app, len_cons. lia.
Qed.

Lemma unique_schedule out e i s s' :
  inv s → len (log s) < isize_max → unique out s → schedule e i s = Some s' → unique out s'.
Proof.
  intros Hs Hlen Hu Hsched. pose proof (schedule_grows _ _ _ _ Hs Hlen Hsched) as [_ Hgrow].
  apply prefix_len in Hgrow. revert Hsched. unfold schedule.
  destruct (tasks s !! i) as [tk|] eqn:Htk; [|done].
  destruct (run_task e tk s) as [m|] eqn:Hrun; [|done]. cbv zeta.
  pose proof (remove_task_pending s i tk Htk) as Hperm.
  pose proof (quiet_remove_task i s) as Hquiet.
  set (s0 := s <| tasks ::= λ l, take i l ++ drop (S i) l |>) in *.
  destruct (quiet_inv _ _ Hs Hquiet) as [Hs0 Hl0]. intros E.
  destruct (acks_in tk) as [[[req hash] idx]|] eqn:Hack.
  - (* the acknowledgement moves from the task to the vector *)
    destruct tk; try discriminate Hack. injection Hack as -> -> ->. cbn in Hrun.
    injection Hrun as <-. unfold bind, ret in E. set (msg := SequencePaxosMsg _) in E.
    assert (Hv : pending (push_at (outgoing_clients s) msg s0).2 ≡ₚ idx :: pending s0).
    { unfold pending. rewrite vec_at_push. cbn. rewrite decide_True by done. rewrite !omap_app. cbn.
      solve_Permutation. }
    cbn in E. injection E as <-. destruct Hu as [Hnd Hb].
    assert (Hp : pending s ≡ₚ pending ((push_at (outgoing_clients s) msg s0).2
      <| tasks ::= λ l, l ++ [] |>)) by by rewrite more_tasks_pending, Hv, Hperm.
    split; [by rewrite <-Hp|]. intros k. rewrite <-Hp. intros Hk. apply Hb in Hk. lia.
  - destruct (run_task_frugal e tk s m Hrun Hack) as [Hf Hno].
    assert (Hu0 : unique out s0).
    { eapply unique_frugal; [done| |by rewrite Hl0]. split; [done|]. rewrite Hperm.
      unfold task_idx. by rewrite Hack. }
    specialize (Hf s0). destruct (m s0) as [[more|f] s1] eqn:Em; injection E as <-.
    2:{ by eapply unique_frugal; [done..|rewrite Hl0]. }
    assert (Hu1 : unique out s1) by (by eapply unique_frugal; [done..|rewrite Hl0]).
    destruct (appends tk) eqn:Happ; [|by apply unique_more; [|eapply Hno]].
    destruct tk; try discriminate Happ. cbn in Hrun. injection Hrun as <-.
    apply append_log_task in Em as [Hmore Hlt]; [|done|by rewrite Hl0].
    assert (Hin : len (log s1) ∉ omap msg_idx out ++ pending s1).
    { intros Hin. destruct Hf as [_ Hsub].
      assert (Hin0 : len (log s1) ∈ omap msg_idx out ++ pending s0).
      { eapply elem_of_submseteq; [exact Hin|by apply submseteq_app]. }
      apply (unique_bound _ _ Hu0) in Hin0. lia. }
    pose proof (more_tasks_pending s1 more) as Hp. rewrite Hmore in Hp.
    assert (Hq : omap msg_idx out ++ pending (s1 <| tasks ::= λ l, l ++ more |>) ≡ₚ
      len (log s1) :: omap msg_idx out ++ pending s1) by (rewrite Hp; solve_Permutation).
    split; [rewrite Hq|intros k; rewrite Hq].
    + apply NoDup_cons. split; [done|apply Hu1].
    + intros [->|Hk]%elem_of_cons; [done|]. by apply (unique_bound _ _ Hu1).
Qed.

Lemma take_pending s r s' :
  take_outgoing_client_msgs [] s = (Val r, s') →
  pending s ≡ₚ omap msg_idx r ++ pending s' ∧ log s' = log s.
Proof.
  unfold take_outgoing_client_msgs, take_vector, bind, gets, modify, ret. cbn. intros [= <- <-].
  split; [|done]. unfold pending, vec_at. cbn. rewrite lookup_insert_eq. cbn.
  rewrite app_nil_r. apply Permutation_app_comm.
Qed.

Lemma unique_sends s0 out s :
  inv s0 → unique [] s0 → sends s0 out s → unique out s.
Proof.
  intros Hi Hu Hs. assert (Hinv : ∀ out s, sends s0 out s → inv s).
  { intros o x Hx. by apply (steps_grow s0 x (sends_steps _ _ _ Hx)). }
  induction Hs as [|out s s' Hs IH Hlen Hstep|out s r s' Hs IH Hlen E]; [done|..].
  - pose proof (Hinv _ _ Hs) as Hsi.
    destruct (step_grows _ _ Hstep Hsi Hlen) as [_ Hgrow%prefix_len].
    destruct Hstep as [s e i s' E|s entry speculate r s' E|s m r s' E|s buffer r s' E
      |s buffer r s' E|s n s' E|s p s' E]; [by eapply unique_schedule|..];
      (eapply unique_frugal; [exact IH| |exact Hgrow]); apply (f_equal snd) in E; cbn [snd] in E;
      subst s'.
    + revert s Hgrow IH Hs Hlen Hsi. intros s _ _ _ _ _. revert s. change (frugal (append entry speculate)).
      unfold append, accepted_reconfiguration, propose_entry, handle_new_proposal. frugal.
    + generalize s. change (frugal (handle m)). unfold handle, handle_execution,
        handle_new_deadline, handle_resync_answer, handle_resync_request. frugal.
    + generalize s. change (frugal (take_outgoing_msgs buffer)). unfold take_outgoing_msgs. frugal.
    + generalize s. change (frugal (take_outgoing_client_msgs buffer)).
      unfold take_outgoing_client_msgs. frugal.
    + generalize s. change (frugal (handle_leader n)).
      unfold handle_leader, get_promise, become_follower. frugal.
    + generalize s. change (frugal (reconnected p)).
      unfold reconnected, get_current_leader, get_promise. frugal.
  - destruct (take_pending _ _ _ E) as [Hp Hl]. destruct IH as [Hnd Hb].
    assert (Hperm : omap msg_idx (out ++ r) ++ pending s' ≡ₚ omap msg_idx out ++ pending s).
    { by rewrite omap_app, <-app_assoc, Hp. }
    split; [by rewrite Hperm|]. intros i. rewrite Hperm, Hl. apply Hb.
Qed.

(** A replica that was just made. *)
Definition started (s : Self) : Prop := ∃ config (storage : I) clk out outc,
  view_ok (Storage.vw storage) ∧ sp_batch_size config = 1 ∧
  Storage.v_base (Storage.vw storage) = 0 ∧ Storage.v_stopsign (Storage.vw storage) = None ∧
  with_ config storage clk out outc = Val s.

Lemma with_pending config (storage : I) clk out outc s :
  with_ config storage clk out outc = Val s → pending s = [].
Proof.
  unfold with_. destruct (iter_max_N (sp_peers config)); [|done].
  destruct (expect Storage.get_promise storage).1 as [promise|]; [|done].
  destruct (match promise with Some b => _ | None => _ end) as [st leader].
  destruct (InternalStorage.with_ storage (sp_batch_size config)) as [ist|]; [|done].
  match goal with |- context [expect _ ?x] => set (s0 := x) end.
  assert (Hs0 : pending s0 = []).
  { subst s0. unfold pending, vec_at. cbn. destruct (decide (out = outc)) as [->|Hne].
    - by rewrite lookup_insert_eq.
    - by rewrite lookup_insert_ne, lookup_singleton_eq. }
  assert (Hf : frugal (expect (zoom internal_storage (InternalStorage.set_promise leader)))) by frugal.
  specialize (Hf s0). destruct (expect _ s0) as [[u|f] s1]; [|done]. intros [= <-].
  destruct Hf as [_ Hf]. cbn [snd] in Hf. clearbody s0. rewrite Hs0 in Hf. by apply submseteq_nil_r in Hf.
Qed.

Lemma started_inv s : started s → inv s ∧ unique [] s.
Proof.
  intros (config & storage & clk & out & outc & Hv & Hbatch & Hbase & Hstop & E).
  split; [by apply (initial_inv _ _ _ _ _ _ Hv Hbatch Hbase Hstop E)|].
  pose proof (with_pending _ _ _ _ _ _ E) as Hp. split; rewrite Hp; cbn; [constructor|].
  intros i Hi. by apply elem_of_nil in Hi.
Qed.

(** What the server was handed is true of the log, now and later. *)
Lemma sends_true s0 out s :
  inv s0 → sends s0 out s →
  ∀ m req hash idx, m ∈ out → acks_of m = Some (req, hash, idx) → ack_true (log s) req hash idx.
Proof.
  intros Hi Hs. assert (Hinv : ∀ out s, sends s0 out s → inv s).
  { intros o x Hx. by apply (steps_grow s0 x (sends_steps _ _ _ Hx)). }
  induction Hs as [|out s s' Hs IH Hlen Hstep|out s r s' Hs IH Hlen E]; intros m req hash idx Hm Ha.
  - by apply elem_of_nil in Hm.
  - destruct (step_grows _ _ Hstep (Hinv _ _ Hs) Hlen) as [_ Hpre].
    eapply ack_true_prefix; [exact Hpre|by eapply IH].
  - destruct (take_pending _ _ _ E) as [_ Hl]. rewrite Hl. apply elem_of_app in Hm as [Hm|Hm];
      [by eapply IH|]. apply (inv_acks _ (Hinv _ _ Hs)). right.
    exists (outgoing_clients s), m. split; [|done].
    revert E. unfold take_outgoing_client_msgs, take_vector, bind, gets, modify, ret. cbn.
    by intros [= <- _].
Qed.

(** C7.  One acknowledgement per position.  In every run of a replica, whatever its tasks do in
    whatever order, the acknowledgements that it has handed to its server are about different
    positions of the log, and each of them is true. *)
Theorem each_position_is_acknowledged_once s0 out s :
  started s0 → sends s0 out s →
  NoDup (omap msg_idx out) ∧
  ∀ m req hash idx, m ∈ out → acks_of m = Some (req, hash, idx) → ack_true (log s) req hash idx.
Proof.
  intros Hst Hs. destruct (started_inv _ Hst) as [Hi Hu]. split; [|by eapply sends_true].
  pose proof (unique_nodup _ _ (unique_sends _ _ _ Hi Hu Hs)) as Hnd.
  by apply NoDup_app in Hnd as (? & _ & _).
Qed.
End acks.
End Acks.
