(* ===== verification/OmniPaxos.v ===== *)
(** * The OmniPaxos server (crates/custom-paxos/omnipaxos/src/omni_paxos.rs)

    The leader election and the replica of one server, behind the calls that the application
    makes. *)

From Stdlib Require Import Strings.Byte.
From S2P Require Import Prelude Util Ballots Config Time StorageApi InternalStorage Messages Ble.
From S2P Require Import Collections Clock Buffers SequencePaxos.

Module OmniPaxos.

Record t (Sp : Type) : Type := mk {
  seq_paxos : Sp;
  ble : Ble.t;
  election_clock : LogicalClock.t
}.
#[global] Arguments mk {Sp}.
#[global] Arguments seq_paxos {Sp}.
#[global] Arguments ble {Sp}.
#[global] Arguments election_clock {Sp}.
#[global] Instance settable_seq_paxos {Sp} : Settable (@seq_paxos Sp) := λ f r,
  mk (f (seq_paxos r)) (ble r) (election_clock r).
#[global] Instance settable_ble {Sp} : Settable (@ble Sp) := λ f r,
  mk (seq_paxos r) (f (ble r)) (election_clock r).
#[global] Instance settable_election_clock {Sp} : Settable (@election_clock Sp) := λ f r,
  mk (seq_paxos r) (ble r) (f (election_clock r)).

Section ops.
Context {T Sn I : Type} `{Build, StorageApi.Request T, Snapshot T Sn, !Storage.t T Sn I, BinaryHeap,
  Oneshot T, Oneshot unit}.

Abbreviation Replica := (SequencePaxos.t (InternalStorage.t I T)
  (Buffers.t T (chan T) (chans T)) (Clock.t (chan unit) (chans unit)) (list (Message T))
  (task T (chan T) (chan unit))).
Abbreviation Self := (t Replica).

(** [OmniPaxosConfig::build]; see [SequencePaxos.with_] for the clock and the addresses. *)
Definition build (self : OmniPaxosConfig.t) (storage : I)
    (clock : Clock.t (chan unit) (chans unit)) (outgoing outgoing_clients : addr) :
    outcome (result Self ConfigError) :=
  match (OmniPaxosConfig.validate self).1 with
  | Panic f => Panic f
  | Val (Err e) => Val (Err e)
  | Val (Ok _) =>
      match (expect Storage.get_promise storage).1 with
      | Panic f => Panic f
      | Val recovered_leader =>
          match Ble.with_ (BLEConfig_from self) recovered_leader with
          | Panic f => Panic f
          | Val ble =>
              match SequencePaxos.with_ (SequencePaxosConfig_from self) storage clock
                      outgoing outgoing_clients with
              | Panic f => Panic f
              | Val seq_paxos => Val (Ok {|
                  seq_paxos := seq_paxos;
                  ble := ble;
                  election_clock := LogicalClock.with_
                    (ServerConfig.election_tick_timeout (OmniPaxosConfig.server_config self))
                |})
              end
          end
      end
  end.

Definition build_for_server (self : ClusterConfig.t) (server_config : ServerConfig.t) (storage : I)
    (clock : Clock.t (chan unit) (chans unit)) (outgoing outgoing_clients : addr) :
    outcome (result Self ConfigError) :=
  build {| OmniPaxosConfig.cluster_config := self; OmniPaxosConfig.server_config := server_config |}
    storage clock outgoing outgoing_clients.

Definition get_promise : M Self Ballot.t := zoom seq_paxos SequencePaxos.get_promise.

(** The leader, and whether it is in the accept phase. *)
Definition get_current_leader : M Self (option (NodeId * bool)) :=
  let* promise := get_promise in
  let promised_pid := Ballot.pid promise in
  if promised_pid =? 0 then ret None
  else
    let* self := gets (λ s, s) in
    let is_accepted := bool_decide ((SequencePaxos.get_state (seq_paxos self)).2 = Accept) in
    ret (Some (promised_pid, is_accepted)).

Definition take_outgoing_messages (buffer : list (Message T)) : M Self (list (Message T)) :=
  let* buffer := zoom seq_paxos (SequencePaxos.take_outgoing_msgs buffer) in
  let* self := gets (λ s, s) in
  let* _ := zoom ble (Ble.outgoing_mut (λ _, [])) in
  ret (buffer ++ (BLE <$> Ble.outgoing (ble self))).

Definition take_client_outgoing_messages (buffer : list (Message T)) : M Self (list (Message T)) :=
  zoom seq_paxos (SequencePaxos.take_outgoing_client_msgs buffer).

Definition storage_call {A} (m : M (InternalStorage.t I T) A) : M Self A :=
  zoom seq_paxos (zoom SequencePaxos.internal_storage m).

Definition read (idx : N) : M Self (option (LogEntry T)) :=
  let* next := lift (wadd usize_mod idx 1) in
  let* r := expect (storage_call (InternalStorage.read (Included idx) (Excluded next))) in
  match r with
  | Some v => ret (last v)
  | None => ret None
  end.

Definition read_entries (start_bound end_bound : Bound) : M Self (option (list (LogEntry T))) :=
  expect (storage_call (InternalStorage.read start_bound end_bound)).

Definition read_decided_suffix (from_idx : N) : M Self (option (list (LogEntry T))) :=
  expect (storage_call (InternalStorage.read_decided_suffix from_idx)).

(** [handle_incoming]: the entry to execute, if there is one. *)
Definition handle_incoming (m : Message T) : M Self (option T) :=
  match m with
  | SequencePaxosMsg p => zoom seq_paxos (SequencePaxos.handle p)
  | BLE b => let* _ := zoom ble (Ble.handle b) in ret None
  end.

Definition is_reconfigured : M Self (option StopSign) :=
  zoom seq_paxos SequencePaxos.is_reconfigured.

Definition append (entry : T) (speculate : T → option (option string)) :
    M Self (result unit (ProposeErr T)) :=
  zoom seq_paxos (SequencePaxos.append entry speculate).

Definition reconfigure (new_configuration : ClusterConfig.t)
    (metadata : option (list byte)) : M Self (result unit (ProposeErr T)) :=
  let* valid := lift (ClusterConfig.validate new_configuration).1 in
  match valid with
  | Err config_error => ret (Err (ConfigErr config_error new_configuration metadata))
  | Ok _ => zoom seq_paxos (SequencePaxos.reconfigure new_configuration metadata)
  end.

Definition reconnected (pid : NodeId) : M Self unit :=
  zoom seq_paxos (SequencePaxos.reconnected pid).

Definition election_timeout : M Self unit :=
  let* self := gets (λ s, s) in
  let* promise := zoom seq_paxos SequencePaxos.get_promise in
  let* new_leader := zoom ble
    (Ble.hb_timeout (SequencePaxos.get_state (seq_paxos self)) promise) in
  match new_leader with
  | Some new_leader => zoom seq_paxos (SequencePaxos.handle_leader new_leader)
  | None => ret tt
  end.

Definition tick : M Self unit :=
  let* timeout := zoom election_clock LogicalClock.tick_and_check_timeout in
  if timeout then election_timeout else ret tt.

Definition try_become_leader : M Self unit :=
  let* self := gets (λ s, s) in
  let my_ballot := Ble.get_current_ballot (ble self) in
  let* promise := zoom seq_paxos SequencePaxos.get_promise in
  let* n := lift (wadd u32_mod (Ballot.n promise) 1) in
  zoom seq_paxos (SequencePaxos.handle_leader (my_ballot <| Ballot.n := n |>)).

Definition set_priority (p : N) : M Self unit := zoom ble (Ble.set_priority p).

End ops.
End OmniPaxos.

(** ** Leadership *)

Section leadership.
Context {T Sn I : Type} `{Build, StorageApi.Request T, Snapshot T Sn, !Storage.t T Sn I, BinaryHeap,
  Oneshot T, Oneshot unit}.
Import OmniPaxos.

Abbreviation Replica := (SequencePaxos.t (InternalStorage.t I T)
  (Buffers.t T (chan T) (chans T)) (Clock.t (chan unit) (chans unit)) (list (Message T))
  (task T (chan T) (chan unit))).
Abbreviation Server := (OmniPaxos.t Replica).
Implicit Types s : Server.

(** The promise of a replica, as it is cached. *)
Definition promise (r : Replica) : Ballot.t :=
  StateCache.promise (InternalStorage.state_cache (SequencePaxos.internal_storage r)).

(** A replica has promised nothing, or its own ballot. *)
Definition own_promise (r : Replica) : Prop :=
  Ballot.pid (promise r) = 0 ∨ Ballot.pid (promise r) = SequencePaxos.pid r.
Definition is_leader (r : Replica) : Prop := (SequencePaxos.state r).1 = Leader.

(** The state a computation of the replica may not move: who it is, whom it has promised, and
    that it leads. *)
Definition loyal_rel (r r' : Replica) : Prop :=
  SequencePaxos.pid r' = SequencePaxos.pid r ∧
  (own_promise r → own_promise r' ∧ (is_leader r → is_leader r')).
Definition loyal {A} (m : M Replica A) : Prop := ∀ r, loyal_rel r (m r).2.

Lemma loyal_rel_refl r : loyal_rel r r.
Proof. by split. Qed.
Lemma loyal_rel_trans r1 r2 r3 : loyal_rel r1 r2 → loyal_rel r2 r3 → loyal_rel r1 r3.
Proof. intros [E12 L12] [E23 L23]. split; [congruence|tauto]. Qed.

Lemma loyal_bind {A B} (m : M Replica A) (k : A → M Replica B) :
  loyal m → (∀ a, loyal (k a)) → loyal (bind m k).
Proof.
  intros Hm Hk r. unfold bind. specialize (Hm r). destruct (m r) as [[a|f] r1]; [|done].
  eapply loyal_rel_trans; [exact Hm|apply Hk].
Qed.
Lemma loyal_pure {A} (m : M Replica A) : (∀ r, (m r).2 = r) → loyal m.
Proof. intros Hm r. rewrite Hm. apply loyal_rel_refl. Qed.
Lemma loyal_mfor {A} (l : list A) (body : A → M Replica unit) :
  (∀ x, loyal (body x)) → loyal (mfor l body).
Proof. intros Hb. induction l; cbn; [by apply loyal_pure|]. apply loyal_bind; auto. Qed.

(** What does not touch the promise and the state is loyal. *)
Lemma loyal_frame {A} (m : M Replica A) :
  (∀ r, SequencePaxos.pid (m r).2 = SequencePaxos.pid r ∧ promise (m r).2 = promise r ∧
        SequencePaxos.state (m r).2 = SequencePaxos.state r) → loyal m.
Proof.
  intros Hf r. destruct (Hf r) as (Ep & Epr & Est). split; [done|].
  unfold own_promise, is_leader. by rewrite Ep, Epr, Est.
Qed.
Lemma loyal_storage {A} (m : M (InternalStorage.t I T) A) :
  (∀ st, StateCache.promise (InternalStorage.state_cache (m st).2) =
         StateCache.promise (InternalStorage.state_cache st)) →
  loyal (zoom SequencePaxos.internal_storage m).
Proof.
  intros Hm. apply loyal_frame. intros r. unfold zoom, promise. specialize (Hm (SequencePaxos.internal_storage r)).
  destruct (m _) as [o st]. done.
Qed.

(** Operations of the storage that do not set the promise. *)
Definition same_promise {A} (m : M (InternalStorage.t I T) A) : Prop := ∀ st,
  StateCache.promise (InternalStorage.state_cache (m st).2) =
  StateCache.promise (InternalStorage.state_cache st).

Lemma same_promise_bind {A B} (m : M (InternalStorage.t I T) A) (k : A → M _ B) :
  same_promise m → (∀ a, same_promise (k a)) → same_promise (bind m k).
Proof.
  intros Hm Hk st. unfold bind. specialize (Hm st). destruct (m st) as [[a|f] st1]; [|done].
  by rewrite (Hk a st1).
Qed.
Lemma same_promise_bind_ok {A B} (m : M (InternalStorage.t I T) (StorageResult A))
    (k : A → M _ (StorageResult B)) :
  same_promise m → (∀ a, same_promise (k a)) → same_promise (bind_ok m k).
Proof. intros Hm Hk. apply same_promise_bind; [done|]. intros [a|e]; [apply Hk|done]. Qed.
Lemma same_promise_backend {A} (m : M I A) : same_promise (zoom InternalStorage.storage m).
Proof. intros st. unfold zoom. by destruct (m _). Qed.

Ltac same_promise :=
  repeat first [apply same_promise_bind_ok; [|intros ?] | apply same_promise_bind; [|intros ?]
    | apply same_promise_backend | done | case_match].

Lemma append_same_promise es : same_promise (InternalStorage.append_entries_and_get_accepted_idx es).
Proof.
  unfold InternalStorage.append_entries_and_get_accepted_idx,
    InternalStorage.append_entries_without_batching, InternalStorage.get_accepted_idx,
    InternalStorage.set_cache. apply same_promise_bind; [|intros ?; same_promise].
  intros st. unfold zoom. rewrite StateCache.append_entries_spec. done.
Qed.
Lemma flush_same_promise : same_promise InternalStorage.flush_batch.
Proof.
  unfold InternalStorage.flush_batch, InternalStorage.append_entries_without_batching,
    InternalStorage.get_accepted_idx, InternalStorage.set_cache. same_promise.
Qed.
Lemma decided_same_promise i : same_promise (InternalStorage.set_decided_idx i).
Proof. unfold InternalStorage.set_decided_idx, InternalStorage.set_cache. same_promise. Qed.
Lemma history_hash_same_promise :
  same_promise (zoom InternalStorage.storage Storage.history_hash).
Proof. apply same_promise_backend. Qed.

Lemma loyal_expect {A E} (m : M Replica (result A E)) : loyal m → loyal (expect m).
Proof. intros Hm. apply loyal_bind; [done|]. intros [a|e]; by apply loyal_pure. Qed.
Lemma loyal_unwrap {A} (o : option A) : loyal (unwrap o).
Proof. by destruct o; apply loyal_pure. Qed.
Lemma loyal_get_promise : loyal SequencePaxos.get_promise.
Proof. by apply loyal_storage. Qed.

Lemma loyal_buffers {A} (m : M (Buffers.t T (chan T) (chans T)) A) :
  loyal (zoom SequencePaxos.buffers m).
Proof. apply loyal_frame. intros r. unfold zoom. by destruct (m _). Qed.
Lemma loyal_clock {A} (m : M (Clock.t (chan unit) (chans unit)) A) :
  loyal (zoom SequencePaxos.clock m).
Proof. apply loyal_frame. intros r. unfold zoom. by destruct (m _). Qed.

Ltac loyal :=
  repeat first [apply loyal_bind; [|intros ?] | apply loyal_mfor; intros ?
    | apply loyal_expect | apply loyal_unwrap | apply loyal_get_promise
    | apply loyal_storage; first [apply append_same_promise | apply flush_same_promise
        | apply decided_same_promise | apply history_hash_same_promise | done]
    | by apply loyal_pure
    | apply loyal_buffers | apply loyal_clock | by apply loyal_frame
    | case_match].

Lemma loyal_run_task e tk r m : SequencePaxos.run_task e tk r = Some m → loyal m.
Proof.
  intros Hm. destruct tk; cbn in Hm;
    repeat match type of Hm with
    | (if ?b then _ else _) = _ => destruct b; [|discriminate Hm]
    | match ?o with _ => _ end = _ => destruct o; try discriminate Hm
    end; injection Hm as <-; loyal.
Qed.

Lemma loyal_schedule e i r r' : SequencePaxos.schedule e i r = Some r' → loyal_rel r r'.
Proof.
  unfold SequencePaxos.schedule. destruct (_ !! i) as [tk|]; [|done].
  destruct (SequencePaxos.run_task e tk r) as [m|] eqn:Hm; [|done]. cbv zeta.
  set (r0 := r <| SequencePaxos.tasks ::= λ l, take i l ++ drop (S i) l |>).
  pose proof (loyal_run_task _ _ _ _ Hm r0) as Hl. destruct (m r0) as [o r1]. intros [= <-].
  cbn in Hl. destruct o; exact Hl.
Qed.

(** *** Becoming leader with one's own ballot *)

Definition loyal_for (p : NodeId) {A} (m : M Replica A) : Prop :=
  ∀ r, SequencePaxos.pid r = p → loyal_rel r (m r).2.

Lemma loyal_for_loyal p {A} (m : M Replica A) : loyal m → loyal_for p m.
Proof. intros Hm r _. apply Hm. Qed.
Lemma loyal_for_bind p {A B} (m : M Replica A) (k : A → M Replica B) :
  loyal_for p m → (∀ a, loyal_for p (k a)) → loyal_for p (bind m k).
Proof.
  intros Hm Hk r Hp. unfold bind. specialize (Hm r Hp). destruct (m r) as [[a|f] r1]; [|done].
  eapply loyal_rel_trans; [exact Hm|]. apply Hk. destruct Hm as [Hpid _]. cbn in Hpid. congruence.
Qed.
Lemma loyal_for_gets p {B} (k : Replica → M Replica B) :
  (∀ self, SequencePaxos.pid self = p → loyal_for p (k self)) →
  loyal_for p (bind (gets (λ r, r)) k).
Proof. intros Hk r Hp. unfold bind, gets. by apply Hk. Qed.

Lemma loyal_set_promise n :
  loyal_for (Ballot.pid n) (zoom SequencePaxos.internal_storage (InternalStorage.set_promise n)).
Proof.
  intros r Hp. unfold zoom.
  assert (Hn : ∀ st : InternalStorage.t I T,
    StateCache.promise (InternalStorage.state_cache (InternalStorage.set_promise n st).2) = n).
  { intros st. unfold InternalStorage.set_promise, InternalStorage.set_cache, bind, modify, zoom.
    cbn. by destruct (Storage.set_promise n _) as [o i]. }
  specialize (Hn (SequencePaxos.internal_storage r)).
  destruct (InternalStorage.set_promise n _) as [o st]. cbn in *. split; [done|]. intros _.
  split; [|done]. right. unfold promise. cbn. by rewrite Hn.
Qed.

(** [handle_leader] when the election reports this server. *)
Lemma loyal_handle_leader n : loyal_for (Ballot.pid n) (SequencePaxos.handle_leader n).
Proof.
  unfold SequencePaxos.handle_leader. apply loyal_for_gets. intros self Hself.
  apply loyal_for_bind; [apply loyal_for_loyal; loyal|]. intros stale.
  destruct stale; [by apply loyal_for_loyal, loyal_pure|]. rewrite Hself, N.eqb_refl.
  apply loyal_for_bind; [by apply loyal_for_loyal, loyal_frame|]. intros _.
  apply loyal_for_bind; [apply loyal_for_loyal, loyal_expect, loyal_storage, flush_same_promise|].
  intros _. apply loyal_for_bind; [|intros _].
  - apply loyal_for_bind; [apply loyal_set_promise|].
    intros [u|e]; by apply loyal_for_loyal, loyal_pure.
  - intros r _. by split.
Qed.

(** A server is never told by its peers to follow somebody else. *)
Lemma loyal_reconnected other r :
  other ≠ 0 → own_promise r → (SequencePaxos.reconnected other r).2 = r.
Proof.
  intros Hne Hown. unfold SequencePaxos.reconnected, bind, gets.
  destruct (N.eqb_spec other (SequencePaxos.pid r)) as [->|Hneq]; [done|].
  unfold SequencePaxos.get_current_leader, SequencePaxos.get_promise, bind, zoom,
    InternalStorage.get_promise, gets. cbn.
  assert (Hr : SequencePaxos.settable_internal_storage
    (λ _ : InternalStorage.t I T, SequencePaxos.internal_storage r) r = r) by by destruct r.
  rewrite Hr. fold (promise r). destruct Hown as [->| ->].
  - by rewrite (proj2 (N.eqb_neq _ _)).
  - by rewrite (proj2 (N.eqb_neq _ _)).
Qed.

(** *** The leader election of the server *)

Definition own_ballot (b : Ble.t) : Prop := Ballot.pid (Ble.current_ballot b) = Ble.pid b.
(** The election keeps its identity and its own ballot, even if it panics. *)
Definition own_rel (b b' : Ble.t) : Prop :=
  Ble.pid b' = Ble.pid b ∧ (own_ballot b → own_ballot b').
Definition keeps_own (p : NodeId) {A} (m : M Ble.t A) : Prop := ∀ b,
  Ble.pid b = p → own_rel b (m b).2.

Lemma own_rel_refl b : own_rel b b.
Proof. by split. Qed.
Lemma keeps_own_bind p {A B} (m : M Ble.t A) (k : A → M Ble.t B) :
  keeps_own p m → (∀ a, keeps_own p (k a)) → keeps_own p (bind m k).
Proof.
  intros Hm Hk b Hp. unfold bind. specialize (Hm b Hp). destruct (m b) as [[a|f] b1]; [|done].
  destruct Hm as [Ep Hb]. cbn in Ep. destruct (Hk a b1) as [Ep' Hb']; [congruence|].
  split; [congruence|auto].
Qed.
Lemma keeps_own_gets p {B} (k : Ble.t → M Ble.t B) :
  (∀ self, Ble.pid self = p → keeps_own p (k self)) → keeps_own p (bind (gets id) k).
Proof. intros Hk b Hp. unfold bind, gets, id. by apply Hk. Qed.
Lemma keeps_own_mfor p {A} (l : list A) (body : A → M Ble.t unit) :
  (∀ x, keeps_own p (body x)) → keeps_own p (mfor l body).
Proof.
  intros Hb. induction l; cbn; [intros b _; apply own_rel_refl|]. apply keeps_own_bind; auto.
Qed.
Lemma keeps_own_if p {A} (c : bool) (m1 m2 : M Ble.t A) :
  (c = true → keeps_own p m1) → keeps_own p m2 → keeps_own p (if c then m1 else m2).
Proof. by destruct c; auto. Qed.
Lemma keeps_own_current p pr :
  Ballot.pid pr = p → keeps_own p (modify (λ b, b <| Ble.current_ballot := pr |>)).
Proof. intros Hpr b Hp. split; [done|]. intros _. unfold own_ballot. cbn. congruence. Qed.

Ltac keeps_own :=
  repeat first [apply keeps_own_gets; intros ? ? | apply keeps_own_bind; [|intros ?]
    | apply keeps_own_mfor; intros ? | apply keeps_own_if; [intros ?|]
    | by intros ? ?; apply own_rel_refl | by intros ? ?; split
    | apply keeps_own_current; lia | case_match].

Lemma handle_keeps_own p m : keeps_own p (Ble.handle m).
Proof. unfold Ble.handle, Ble.handle_request, Ble.handle_reply. keeps_own. Qed.

Lemma hb_timeout_keeps_own p state pr : keeps_own p (Ble.hb_timeout state pr).
Proof.
  unfold Ble.hb_timeout, Ble.update_leader, Ble.update_happiness, Ble.check_takeover,
    Ble.new_hb_round. keeps_own.
Qed.

(** A timeout that reports a leader reports the server's own ballot. *)
Lemma hb_timeout_reports_current state pr b n b' :
  Ble.hb_timeout state pr b = (Val (Some n), b') → n = Ble.current_ballot b'.
Proof.
  unfold Ble.hb_timeout. intros E.
  do 6 (apply bind_val_inv in E as (? & ? & _ & E)). apply bind_val_inv in E as (self & b1 & Es & E).
  injection Es as -> <-. revert E. by case_bool_decide; intros [= <- <-].
Qed.

(** *** The server *)

(** The calls of the application and the steps of the tasks.  [try_become_leader] and the calls
    that only read are included; a peer's identifier is never 0. *)
Inductive server_step : Server → Server → Prop :=
  | server_task s e i r' :
      SequencePaxos.schedule e i (seq_paxos s) = Some r' →
      server_step s (s <| seq_paxos := r' |>)
  | server_tick s r s' : tick s = (r, s') → server_step s s'
  | server_try s r s' : try_become_leader s = (r, s') → server_step s s'
  | server_append s entry f r s' : append entry f s = (r, s') → server_step s s'
  | server_incoming s m r s' : handle_incoming m s = (r, s') → server_step s s'
  | server_take s buffer r s' : take_outgoing_messages buffer s = (r, s') → server_step s s'
  | server_take_client s buffer r s' :
      take_client_outgoing_messages buffer s = (r, s') → server_step s s'
  | server_priority s p r s' : set_priority p s = (r, s') → server_step s s'
  | server_reconfigure s c md r s' : reconfigure c md s = (r, s') → server_step s s'
  | server_reconnected s p r s' : p ≠ 0 → reconnected p s = (r, s') → server_step s s'.

Inductive server_steps s : Server → Prop :=
  | server_steps_refl : server_steps s s
  | server_steps_step s1 s' : server_steps s s1 → server_step s1 s' → server_steps s s'.

Definition loyal_server s : Prop :=
  own_promise (seq_paxos s) ∧ own_ballot (ble s) ∧ Ble.pid (ble s) = SequencePaxos.pid (seq_paxos s).

Definition server_rel s s' : Prop :=
  loyal_server s → loyal_server s' ∧ (is_leader (seq_paxos s) → is_leader (seq_paxos s')).

Lemma server_rel_sp {A} (m : M Replica A) s :
  loyal_rel (seq_paxos s) (m (seq_paxos s)).2 → server_rel s (zoom seq_paxos m s).2.
Proof.
  intros [Hpid Hl] (Hp & Hb & Hbp). destruct (Hl Hp) as [Hp' Hlead].
  unfold zoom. destruct (m (seq_paxos s)) as [o r]. cbn in *. split; [|done].
  split_and!; [done|done|]. cbn. congruence.
Qed.
Lemma server_rel_ble {A} (m : M Ble.t A) s :
  own_rel (ble s) (m (ble s)).2 → server_rel s (zoom ble m s).2.
Proof.
  intros [Hpid Hl] (Hp & Hb & Hbp). unfold zoom. destruct (m (ble s)) as [o b]. cbn in *.
  split; [|done]. split_and!; [done|by apply Hl|cbn; congruence].
Qed.
Lemma server_rel_bind {A B} (m : M Server A) (k : A → M Server B) s :
  server_rel s (m s).2 → (∀ a s1, m s = (Val a, s1) → server_rel s1 (k a s1).2) →
  server_rel s (bind m k s).2.
Proof.
  intros Hm Hk. unfold bind. destruct (m s) as [[a|f] s1]; [|done]. cbn in Hm.
  specialize (Hk a s1 eq_refl). unfold server_rel in *. tauto.
Qed.
Lemma server_rel_refl s : server_rel s s.
Proof. done. Qed.

Lemma server_rel_handle_leader n s :
  (loyal_server s → Ballot.pid n = SequencePaxos.pid (seq_paxos s)) →
  server_rel s (zoom seq_paxos (SequencePaxos.handle_leader n) s).2.
Proof.
  intros Hn Hs. apply (server_rel_sp (SequencePaxos.handle_leader n)); [|done].
  by apply loyal_handle_leader; rewrite Hn.
Qed.

Lemma server_rel_election s : server_rel s (election_timeout s).2.
Proof.
  unfold election_timeout. apply server_rel_bind; [apply server_rel_refl|].
  intros self s1 [= <- <-]. apply server_rel_bind.
  { by apply server_rel_sp, loyal_get_promise. }
  intros pr s2 _. apply server_rel_bind.
  { apply server_rel_ble. by apply (hb_timeout_keeps_own (Ble.pid (ble s2))). }
  intros [n|] s3 E; [|apply server_rel_refl].
  apply server_rel_handle_leader. intros (_ & Hb & Hpid). unfold zoom in E.
  destruct (Ble.hb_timeout _ _ _) as [o b] eqn:Eb. simplify_eq.
  rewrite (hb_timeout_reports_current _ _ _ _ _ Eb). cbn in *. unfold own_ballot in Hb. congruence.
Qed.

Lemma server_rel_try s : server_rel s (try_become_leader s).2.
Proof.
  intros Hs. pose proof Hs as (_ & Hb & Hpid). revert Hs.
  change (server_rel s (try_become_leader s).2).
  unfold try_become_leader, bind at 1, gets.
  pose proof (loyal_get_promise (seq_paxos s)) as Hp.
  assert (Eid : ∀ r : Replica, (SequencePaxos.get_promise r).2 = r).
  { intros r. unfold SequencePaxos.get_promise, zoom, InternalStorage.get_promise, gets.
    by destruct r. }
  unfold bind at 1, zoom at 1. specialize (Eid (seq_paxos s)).
  destruct (SequencePaxos.get_promise (seq_paxos s)) as [[pr|f] r]; cbn in Eid; subst r.
  2:{ cbn. intros Hs. by destruct s. }
  assert (Es : s <| seq_paxos := seq_paxos s |> = s) by by destruct s. cbn in Es. cbn. rewrite Es.
  unfold bind, lift. destruct (wadd u32_mod _ 1) as [n|f]; [|done].
  apply server_rel_handle_leader. intros _. unfold own_ballot, Ble.get_current_ballot in *.
  cbn. congruence.
Qed.

Lemma server_step_rel s s' : server_step s s' → server_rel s s'.
Proof.
  intros Hstep.
  destruct Hstep as [s e i r' E|s r s' E|s r s' E|s entry f r s' E|s m r s' E|s buffer r s' E
    |s buffer r s' E|s p r s' E|s c md r s' E|s p r s' Hp E];
    try (apply (f_equal snd) in E; cbn [snd] in E; subst s').
  - intros Hs. apply loyal_schedule in E. revert Hs.
    apply (server_rel_sp (λ _, (Val tt, r')) s E).
  - unfold tick. apply server_rel_bind; [by unfold zoom; destruct (LogicalClock.tick_and_check_timeout _)|].
    intros [] s1 _; [apply server_rel_election|apply server_rel_refl].
  - apply server_rel_try.
  - apply server_rel_sp. revert s. intros s. generalize (seq_paxos s).
    change (loyal (SequencePaxos.append entry f)). unfold SequencePaxos.append,
      SequencePaxos.accepted_reconfiguration, SequencePaxos.propose_entry,
      SequencePaxos.handle_new_proposal, SequencePaxos.spawn. loyal.
  - destruct m as [p|b]; cbn [handle_incoming].
    + apply server_rel_sp. generalize (seq_paxos s). change (loyal (SequencePaxos.handle p)).
      unfold SequencePaxos.handle, SequencePaxos.handle_execution,
        SequencePaxos.handle_new_deadline, SequencePaxos.handle_resync_answer,
        SequencePaxos.handle_resync_request, SequencePaxos.spawn. loyal.
    + apply server_rel_bind; [|intros; apply server_rel_refl].
      apply server_rel_ble. by apply (handle_keeps_own (Ble.pid (ble s))).
  - unfold take_outgoing_messages. apply server_rel_bind.
    { apply server_rel_sp. generalize (seq_paxos s).
      change (loyal (SequencePaxos.take_outgoing_msgs buffer)).
      unfold SequencePaxos.take_outgoing_msgs, SequencePaxos.take_vector. loyal. }
    intros b s1 _. apply server_rel_bind; [apply server_rel_refl|]. intros self s2 [= <- <-].
    apply server_rel_bind; [by apply server_rel_ble|]. intros; apply server_rel_refl.
  - apply server_rel_sp. generalize (seq_paxos s).
    change (loyal (SequencePaxos.take_outgoing_client_msgs buffer)).
    unfold SequencePaxos.take_outgoing_client_msgs, SequencePaxos.take_vector. loyal.
  - by apply server_rel_ble.
  - unfold reconfigure. apply server_rel_bind; [apply server_rel_refl|].
    intros v s1 _. destruct v; [|apply server_rel_refl]. apply server_rel_sp.
    generalize (seq_paxos s1). change (loyal (SequencePaxos.reconfigure c md)).
    unfold SequencePaxos.reconfigure, SequencePaxos.accepted_reconfiguration. loyal.
  - intros Hs. pose proof Hs as (Hown & _). unfold reconnected, zoom.
    pose proof (loyal_reconnected p (seq_paxos s) Hp Hown) as Er.
    destruct (SequencePaxos.reconnected p (seq_paxos s)) as [o r0]. cbn in Er. subst r0.
    by destruct s.
Qed.

(** Once a leader, always a leader.  A server that was started without a promise in its
    storage, and has become leader, leads in every later state: whatever messages arrive, whatever
    the election reports and whichever peers reconnect, nothing makes it a follower again, and it
    never promises a ballot of another server. *)
Theorem leader_never_steps_down s s' :
  loyal_server s → server_steps s s' → is_leader (seq_paxos s) →
  is_leader (seq_paxos s') ∧ own_promise (seq_paxos s').
Proof.
  intros Hs Hsteps Hl. enough (loyal_server s' ∧ is_leader (seq_paxos s')) as [(? & _) ?] by done.
  induction Hsteps as [|s1 s' _ IH Hstep]; [done|]. destruct IH as [Hs1 Hl1].
  destruct (server_step_rel _ _ Hstep Hs1). auto.
Qed.
End leadership.
