(* ===== verification/Kv.v ===== *)
(** * Commands, messages and databases of the key-value store
    (src/src/common.rs, src/src/server/database.rs, and the snapshots of
    src/crates/custom-paxos/examples/kv_store/src/kv.rs)

    The replicated entry [Command.t], with the [Request] and [Hash] implementations that the
    replica needs, the messages between clients, proxies and servers, and the database that a
    server executes commands on. *)

From S2P Require Import Prelude Util Ballots Config Time StorageApi MemoryStorage InternalStorage.
From S2P Require Import Messages Replica.

Definition CommandId := N.
Definition ClientId := N.
(** [Timestamp] is an [i64]. *)
Definition Timestamp := Z.

(** ** Commands *)

Module KVCommand.
Inductive t : Type :=
  | Put (key value : string)
  | Delete (key : string)
  | Get (key : string).
End KVCommand.
#[export] Instance KVCommand_eq_dec : EqDecision KVCommand.t.
Proof. solve_decision. Defined.

Module Command.
Record t : Type := mk {
  client_id : ClientId;
  coordinator_id : NodeId;
  id : CommandId;
  private_id : CommandId;
  deadline : SystemTime;
  kv_cmd : KVCommand.t
}.
#[global] Instance settable_client_id : Settable client_id := λ f r,
  mk (f (client_id r)) (coordinator_id r) (id r) (private_id r) (deadline r) (kv_cmd r).
#[global] Instance settable_coordinator_id : Settable coordinator_id := λ f r,
  mk (client_id r) (f (coordinator_id r)) (id r) (private_id r) (deadline r) (kv_cmd r).
#[global] Instance settable_id : Settable id := λ f r,
  mk (client_id r) (coordinator_id r) (f (id r)) (private_id r) (deadline r) (kv_cmd r).
#[global] Instance settable_private_id : Settable private_id := λ f r,
  mk (client_id r) (coordinator_id r) (id r) (f (private_id r)) (deadline r) (kv_cmd r).
#[global] Instance settable_deadline : Settable deadline := λ f r,
  mk (client_id r) (coordinator_id r) (id r) (private_id r) (f (deadline r)) (kv_cmd r).
#[global] Instance settable_kv_cmd : Settable kv_cmd := λ f r,
  mk (client_id r) (coordinator_id r) (id r) (private_id r) (deadline r) (f (kv_cmd r)).
End Command.
#[export] Instance Command_eq_dec : EqDecision Command.t.
Proof. solve_decision. Defined.

(** [#[derive(Hash)]]: the discriminant, then the fields. *)
#[export] Instance KVCommand_hash : Hash KVCommand.t := λ H _ c state,
  match c with
  | KVCommand.Put key value => write_str value (write_str key (write_isize 0 state))
  | KVCommand.Delete key => write_str key (write_isize 1 state)
  | KVCommand.Get key => write_str key (write_isize 2 state)
  end.

(** [impl Hash for Command] *)
#[export] Instance Command_hash : Hash Command.t := λ H _ c state,
  hash (Command.kv_cmd c) (write_usize (Command.id c) state).

(** [impl Request for Command] *)
#[export] Instance Command_request : StorageApi.Request Command.t := {|
  get_deadline := Command.deadline;
  set_deadline := λ d c, c <| Command.deadline := d |>;
  get_id := Command.private_id;
  client_id := Command.client_id
|}.
#[export] Instance Command_request_laws : RequestLaws Command.t.
Proof. by split. Qed.

(** [type Snapshot = NoSnapshot]: what the derive macro [Entry] chooses. *)
Definition Command_snapshot : Snapshot Command.t NoSnapshot := NoSnapshot_snapshot Command.t.

(** ** Messages *)

Module RegistrationMessage.
Inductive t : Type :=
  | NodeRegister (id : NodeId)
  | ClientRegister.
End RegistrationMessage.

(** What a proxy remembers of a hash: how many acknowledgements it has counted, and what the
    leader speculated, once the leader's acknowledgement has arrived. *)
Definition ack_info : Type := N * option (option (option string)).

Module PRCommand.
Inductive t : Type :=
  | Put (key : N) (val : ack_info)
  | Delete (key : N)
  | Get (key : N).
End PRCommand.

Module ClusterMessage.
Inductive t : Type :=
  | OmniPaxosMessage (m : Message Command.t)
  | LeaderStartSignal (start_time : Timestamp).
End ClusterMessage.

Module ClientMessage.
Inductive t : Type :=
  | Append (id : CommandId) (cmd : KVCommand.t)
  | Ack (cmd : Command.t) (last_idx : N).
End ClientMessage.

Module ServerMessage.
Inductive t : Type :=
  | Write (id : CommandId)
  | Read (id : CommandId) (res : option string)
  | Ack (cmd : Command.t) (hash : N) (suspect : option (option (option string))) (last_idx : N)
  | StartSignal (ts : Timestamp).

Definition command_id (self : t) : outcome CommandId :=
  match self with
  | Write id => Val id
  | Read id _ => Val id
  | Ack c _ _ _ => Val (Command.id c)
  | StartSignal _ => Panic Unimplemented
  end.
End ServerMessage.

(** ** The database of a server *)

Module Database.
Record t : Type := mk { db : gmap string string }.
#[global] Instance settable_db : Settable db := λ f r, mk (f (db r)).

Definition new : t := {| db := ∅ |}.

(** [None]: the command returns nothing; [Some None]: it reads a key that is not there. *)
Definition handle_command (command : KVCommand.t) (self : t) : option (option string) * t :=
  match command with
  | KVCommand.Put key value => (None, self <| db ::= <[key := value]> |>)
  | KVCommand.Delete key => (None, self <| db ::= delete key |>)
  | KVCommand.Get key => (Some (db self !! key), self)
  end.

(** The database after a sequence of commands. *)
Definition execute_all (l : list KVCommand.t) (self : t) : t :=
  foldl (λ d c, (handle_command c d).2) self l.
End Database.

(** *** Reads see the last write *)

(** What the last command of [l] that writes [key] makes of it, if there is one. *)
Fixpoint last_write (key : string) (l : list KVCommand.t) : option (option string) :=
  match l with
  | [] => None
  | c :: l' =>
      match last_write key l' with
      | Some w => Some w
      | None =>
          match c with
          | KVCommand.Put k v => if decide (k = key) then Some (Some v) else None
          | KVCommand.Delete k => if decide (k = key) then Some None else None
          | KVCommand.Get _ => None
          end
      end
  end.

Lemma execute_all_lookup key l d :
  Database.db (Database.execute_all l d) !! key = default (Database.db d !! key) (last_write key l).
Proof.
  revert d. induction l as [|c l IH]; intros d; [done|]. cbn [Database.execute_all foldl].
  fold (Database.execute_all l). change (foldl _ ?x l) with (Database.execute_all l x). rewrite IH.
  cbn. destruct (last_write key l) as [w|]; [done|]. cbn.
  destruct c as [k v|k|k]; cbn; [| |done]; case_decide; subst; by simplify_map_eq.
Qed.

Lemma execute_all_app l k d :
  Database.execute_all (l ++ k) d = Database.execute_all k (Database.execute_all l d).
Proof. apply foldl_app. Qed.

(** A [Get] that is executed after a sequence of commands returns what the last [Put]
    or [Delete] of its key left, or the value the key had before, and changes nothing. *)
Theorem database_reads_last_write key l d :
  Database.handle_command (KVCommand.Get key) (Database.execute_all l d) =
  (Some (default (Database.db d !! key) (last_write key l)), Database.execute_all l d).
Proof. cbn. by rewrite execute_all_lookup. Qed.

(** *** Executing a sequence twice

    A follower executes a command when the proxy confirms it, and the decided log again when it
    handles the decided entries.  The second run repairs the database: writing a sequence again is
    idempotent as a whole. *)

Lemma last_write_app key l k :
  last_write key (l ++ k) =
  match last_write key k with Some w => Some w | None => last_write key l end.
Proof.
  induction l as [|c l IH]; cbn; [by destruct (last_write key k)|]. rewrite IH.
  by destruct (last_write key k).
Qed.

Lemma last_write_elem key c l :
  c ∈ l → is_Some (last_write key [c]) → is_Some (last_write key l).
Proof.
  intros (l1 & l2 & ->)%list_elem_of_split Hc.
  change (l1 ++ c :: l2) with (l1 ++ ([c] ++ l2)). rewrite !last_write_app.
  by destruct (last_write key l2), (last_write key [c]); [..|destruct Hc].
Qed.

Lemma Database_ext d d' : Database.db d = Database.db d' → d = d'.
Proof. destruct d, d'. by intros [= ->]. Qed.

(** C30.  A replay repairs the database.  If every command of the decided sequence [l] has
    been executed before, in any order and any number of times ([m]), executing [l] from the state
    this left gives the same database as executing [l] once from the start. *)
Theorem replay_repairs_database l m d :
  (∀ c, c ∈ m → c ∈ l) →
  Database.execute_all l (Database.execute_all m d) = Database.execute_all l d.
Proof.
  intros Hsub. apply Database_ext, map_eq. intros key. rewrite !execute_all_lookup.
  destruct (last_write key l) as [w|] eqn:El; [done|]. cbn.
  assert (Hm : ∀ m', (∀ c, c ∈ m' → c ∈ l) → last_write key m' = None).
  2:{ by rewrite Hm. }
  assert (Hl : ∀ c, c ∈ l → last_write key [c] = None).
  { intros c Hc. apply eq_None_not_Some. intros Hw%(last_write_elem _ _ _ Hc). by rewrite El in Hw; destruct Hw. }
  induction m' as [|c m' IH]; intros Hin; [done|]. cbn. rewrite IH by set_solver.
  apply (Hl c). set_solver.
Qed.

(** A read in between sees the state of an execution that was too early. *)
Example early_execution_is_visible :
  let log := [KVCommand.Put "x" "1"; KVCommand.Get "x"; KVCommand.Put "x" "2"] in
  let once := Database.execute_all (take 1 log) Database.new in
  let late := Database.execute_all log once in
  (Database.handle_command (KVCommand.Get "x") once).1 = Some (Some "1"%string) ∧
  (Database.handle_command (KVCommand.Get "x") late).1 = Some (Some "2"%string).
Proof. by split. Qed.

(** ** The hash of a log of commands *)

Section log_hash.
Context {H : Type} `{Hasher H, Build}.

(** [MemoryStorage::history_hash] *)
Definition history_hash_of {T} `{Hash T} (l : list T) : N :=
  finish (H := H) (foldl (λ hasher entry, hash entry hasher) hasher_new l).

(** What the hash of a command depends on. *)
Definition hashed_part (c : Command.t) : CommandId * KVCommand.t := (Command.id c, Command.kv_cmd c).

Lemma history_hash_parts (l l' : list Command.t) :
  hashed_part <$> l = hashed_part <$> l' → history_hash_of l = history_hash_of l'.
Proof.
  unfold history_hash_of. intros E. f_equal. generalize (hasher_new (H := H)) as h.
  revert l' E. induction l as [|c l IH]; intros [|c' l'] E h; try done.
  cbn in E. injection E as Eid Ecmd El. cbn [foldl].
  replace (hash c' h) with (hash c h); [by apply IH|].
  unfold hash, Command_hash. by rewrite Eid, Ecmd.
Qed.

(** Servers that have logged the same commands in the same order compute the same
    history hash, although each has given the commands its own private identifiers, deadlines,
    coordinator and client numbers. *)
Theorem history_hash_ignores_local_fields
    (a b : MemoryStorage.t Command.t NoSnapshot) :
  hashed_part <$> MemoryStorage.log a = hashed_part <$> MemoryStorage.log b →
  (MemoryStorage.history_hash (H := H) a).1 = (MemoryStorage.history_hash (H := H) b).1.
Proof.
  intros E. unfold MemoryStorage.history_hash, bind, gets, ret. cbn. f_equal.
  by apply history_hash_parts.
Qed.
End log_hash.

(** The in-memory backend hashes its log. *)
#[export] Instance memory_history_hash {T Sn H} `{Build, Hasher H, Hash T} :
    HistoryHash T Sn (MemoryStorage.t T Sn) := {|
  log_hash := history_hash_of;
  history_hash_law i := eq_refl
|}.

(** ** Snapshots of a key-value log *)

Module KeyValue.
Record t : Type := mk { key : string; value : N }.
End KeyValue.

Module KVSnapshot.
Record t : Type := mk { snapshotted : gmap string N }.

Definition create (entries : list KeyValue.t) : t :=
  {| snapshotted := foldl (λ m e, <[KeyValue.key e := KeyValue.value e]> m) ∅ entries |}.

(** The delta is moved out of its map, in an order that is not specified. *)
Definition merge (self delta : t) : t :=
  {| snapshotted := foldl (λ m kv, <[kv.1 := kv.2]> m) (snapshotted self)
                      (map_to_list (snapshotted delta)) |}.
End KVSnapshot.

#[export] Instance KVSnapshot_snapshot : Snapshot KeyValue.t KVSnapshot.t := {|
  create := λ entries, Val (KVSnapshot.create entries);
  merge := λ self delta, Val (KVSnapshot.merge self delta);
  use_snapshots := true
|}.

Lemma foldl_insert_union (l : list (string * N)) (m : gmap string N) :
  NoDup l.*1 → foldl (λ m kv, <[kv.1 := kv.2]> m) m l = list_to_map l ∪ m.
Proof.
  revert m. induction l as [|[k v] l IH]; intros m Hnd; cbn; [by rewrite map_empty_union|].
  cbn in Hnd. apply NoDup_cons in Hnd as [Hk Hnd].
  rewrite IH by done. rewrite <-insert_union_l.
  rewrite insert_union_r; [done|]. by apply not_elem_of_list_to_map_1.
Qed.

Lemma merge_union a b :
  KVSnapshot.snapshotted (KVSnapshot.merge a b) =
  KVSnapshot.snapshotted b ∪ KVSnapshot.snapshotted a.
Proof.
  unfold KVSnapshot.merge. cbn. rewrite foldl_insert_union; [|apply NoDup_fst_map_to_list].
  by rewrite list_to_map_to_list.
Qed.

Lemma create_lookup l (m : gmap string N) :
  foldl (λ m e, <[KeyValue.key e := KeyValue.value e]> m) m l =
  foldl (λ m e, <[KeyValue.key e := KeyValue.value e]> m) ∅ l ∪ m.
Proof.
  revert m. induction l as [|e l IH]; intros m; cbn; [by rewrite map_empty_union|].
  rewrite IH, (IH (<[_ := _]> ∅)). rewrite <-map_union_assoc. f_equal.
  rewrite insert_empty. apply insert_union_singleton_l.
Qed.

Lemma kv_merge_create l k :
  KVSnapshot.merge (KVSnapshot.create l) (KVSnapshot.create k) = KVSnapshot.create (l ++ k).
Proof.
  pose proof (merge_union (KVSnapshot.create l) (KVSnapshot.create k)) as E.
  destruct (KVSnapshot.merge _ _) as [m]. cbn in E. unfold KVSnapshot.create. f_equal.
  rewrite E, foldl_app. symmetry. apply create_lookup.
Qed.

(** Snapshots of a key-value log are what the storage layer expects of snapshots. *)
#[export] Instance KVSnapshot_laws : SnapshotLaws KeyValue.t KVSnapshot.t.
Proof.
  split; [intros l; by eexists|]. intros l k a b [= <-] [= <-]. cbn. by rewrite kv_merge_create.
Qed.

(** Merging the snapshot of a continuation into the snapshot of a log gives the snapshot
    of the whole log. *)
Theorem kv_snapshots_compose l k :
  KVSnapshot.merge (KVSnapshot.create l) (KVSnapshot.create k) = KVSnapshot.create (l ++ k).
Proof. apply kv_merge_create. Qed.

(** ** Concrete instances *)

Definition cmd (n : N) (c : KVCommand.t) (deadline : SystemTime) : Command.t := {|
  Command.client_id := 1; Command.coordinator_id := 1; Command.id := n; Command.private_id := n;
  Command.deadline := deadline; Command.kv_cmd := c
|}.
