(* ===== verification/ReplicaChecks.v ===== *)
(** * Runs of a replica

    A replica of a three-server cluster that stores [Command]s in the in-memory backend, an
    executable scheduler for it, and the runs that show that the hypotheses of the theorems on
    buffers, replicas and servers can hold. *)

From Stdlib Require Import Sorted.
From S2P Require Import Prelude Util Ballots Config Time StorageApi MemoryStorage InternalStorage.
From S2P Require Import StorageChecks Messages Ble Collections Clock Buffers SequencePaxos Replica.
From S2P Require Import OmniPaxos Kv.

#[export] Existing Instances list_heap list_heap_laws dev_build map_oneshot map_oneshot_laws.

Abbreviation CommandBackend := (MemoryStorage.t Command.t NoSnapshot).
Abbreviation CommandReplica := (SequencePaxos.t (InternalStorage.t CommandBackend Command.t)
  (Buffers.t Command.t (chan Command.t) (chans Command.t)) (Clock.t (chan unit) (chans unit))
  (list (Message Command.t)) (task Command.t (chan Command.t) (chan unit))).

(** ** The scheduler *)

Inductive action : Type :=
  | ATask (e : SequencePaxos.env) (i : nat)
  | AAppend (c : Command.t)
  | AHandle (m : PaxosMessage Command.t)
  | ALeader (n : Ballot.t).

Definition exec (a : action) (s : CommandReplica) : option CommandReplica :=
  if len (Replica.log s) <? isize_max then
    match a with
    | ATask e i => SequencePaxos.schedule e i s
    | AAppend c => match SequencePaxos.append c (λ _, None) s with (Val _, s') => Some s' | _ => None end
    | AHandle m => match SequencePaxos.handle m s with (Val _, s') => Some s' | _ => None end
    | ALeader n => match SequencePaxos.handle_leader n s with (Val _, s') => Some s' | _ => None end
    end
  else None.

Definition exec_all (acts : list action) (s : CommandReplica) : option CommandReplica :=
  foldl (λ os a, os ≫= exec a) (Some s) acts.

Lemma exec_all_snoc acts a s : exec_all (acts ++ [a]) s = exec_all acts s ≫= exec a.
Proof. unfold exec_all. by rewrite foldl_app. Qed.

Lemma exec_steps acts s s' : exec_all acts s = Some s' → Replica.steps s s'.
Proof.
  revert s'. induction acts as [|a acts IH] using rev_ind; intros s' E.
  - injection E as <-. constructor.
  - rewrite exec_all_snoc in E. apply bind_Some in E as (s1 & E1 & E).
    unfold exec in E. destruct (N.ltb_spec (len (Replica.log s1)) isize_max) as [Hlen|]; [|done].
    eapply Replica.steps_step; [by apply IH|done|]. destruct a as [e i|c|m|n].
    + by eapply Replica.step_task.
    + destruct (SequencePaxos.append _ _ s1) as [[r|f] s2] eqn:Ea; simplify_eq.
      by eapply Replica.step_append.
    + destruct (SequencePaxos.handle _ s1) as [[r|f] s2] eqn:Ea; simplify_eq.
      by eapply Replica.step_handle.
    + destruct (SequencePaxos.handle_leader _ s1) as [[[]|f] s2] eqn:Ea; simplify_eq.
      by eapply Replica.step_leader.
Qed.

(** ** A replica *)

Definition config (pid batch_size : N) : OmniPaxosConfig.t := {|
  OmniPaxosConfig.cluster_config := {|
    ClusterConfig.configuration_id := 1; ClusterConfig.nodes := [1; 2; 3];
    ClusterConfig.flexible_quorum := None |};
  OmniPaxosConfig.server_config := ServerConfig.default <| ServerConfig.pid := pid |>
    <| ServerConfig.batch_size := batch_size |>
|}.
Definition clock_of (pid : N) : Clock.t (chan unit) (chans unit) :=
  Clock.new pid 1 (from_micros 10) 0 4 1 0%Z.
Definition server_of (pid batch_size : N) : OmniPaxos.t CommandReplica :=
  match OmniPaxos.build (config pid batch_size) MemoryStorage.default (clock_of pid) 1 2 with
  | Val (Ok s) => s
  | _ => OmniPaxos.mk (SequencePaxos.mk
      (InternalStorage.mk MemoryStorage.default (StateCache.new 0)) Buffers.new (clock_of pid) 0 []
      (Follower, NoPhase) 0 0 (LeaderState_with Ballot.default 0 (Quorum.Majority 0)) None ∅ [] [])
      (Ble.mk 0 0 [] 0 [] [] Ballot.default Ballot.default false (Quorum.Majority 0) [])
      (LogicalClock.with_ 0)
  end.
Definition server1 : OmniPaxos.t CommandReplica := Eval vm_compute in server_of 1 1.
Definition replica : CommandReplica := OmniPaxos.seq_paxos server1.

Example server1_builds :
  OmniPaxos.build (config 1 1) (MemoryStorage.default : CommandBackend) (clock_of 1) 1 2 =
  Val (Ok server1).
Proof. vm_compute. reflexivity. Qed.

Definition put (n : N) (deadline : Z) : Command.t :=
  cmd n (KVCommand.Put "k" "v") deadline.
Definition e0 : SequencePaxos.env := {| SequencePaxos.gen_bool := true; SequencePaxos.now := 0%Z |}.
Definition task0 : action := ATask e0 0.

(** One request goes through: the tasks are [Waiter] and [TickFn], then [InsertEntry]; the waiter
    arms the clock, two ticks pass the deadline, and the entry is appended and acknowledged. *)
Definition one_request : list action :=
  [AAppend (put 7 500000%Z); ATask e0 2;          (* insert; tasks: Waiter, TickFn, AwaitRelease *)
   task0;                                       (* pop;    TickFn, AwaitRelease, WaiterArm *)
   ATask e0 2;                                  (* arm;    TickFn, AwaitRelease, WaiterAwait *)
   task0;                                       (* tick;   AwaitRelease, WaiterAwait, TickFn, Fire *)
   ATask e0 3;                                  (* fire;   AwaitRelease, WaiterAwait, TickFn *)
   ATask e0 1;                                  (* notify; AwaitRelease, TickFn, Waiter *)
   task0;                                       (* TickFn, Waiter, AppendLog *)
   ATask e0 2; ATask e0 2].
Definition after_one : CommandReplica := Eval vm_compute in
  match exec_all one_request replica with Some s => s | None => replica end.

Example one_request_run :
  exec_all one_request replica = Some after_one ∧
  Replica.log after_one = [put 7 500000%Z] ∧
  SequencePaxos.vec_at after_one 2 =
    [SequencePaxosMsg (mkPaxosMessage 1 1 (Ack (put 7 500000%Z) 9 None 1))].
Proof. vm_compute. done. Qed.

Lemma default_view_ok : view_ok (Storage.vw (MemoryStorage.default : CommandBackend)).
Proof. repeat split; vm_compute; congruence. Qed.

Lemma after_one_reachable : Replica.steps replica after_one.
Proof. apply (exec_steps one_request). vm_compute. reflexivity. Qed.

Lemma replica_inv : Replica.inv replica.
Proof.
  apply (Replica.initial_inv (SequencePaxosConfig_from (config 1 1))
    (MemoryStorage.default : CommandBackend) (clock_of 1) 1 2);
    [apply default_view_ok|reflexivity..|vm_compute; reflexivity].
Qed.

Lemma log_is_append_only_witness : Replica.log replica `prefix_of` Replica.log after_one.
Proof. apply Replica.log_is_append_only; [apply replica_inv|apply after_one_reachable]. Defined.

Lemma acknowledgements_are_true_witness :
  1 ≤ 1 ≤ len (Replica.log after_one) ∧
  Replica.log after_one !! N.to_nat (1 - 1) = Some (put 7 500000%Z) ∧
  9 = log_hash (T := Command.t) (Sn := NoSnapshot) (I := CommandBackend)
        (take (N.to_nat 1) (Replica.log after_one)).
Proof.
  apply (Replica.acknowledgements_are_true (SequencePaxosConfig_from (config 1 1))
    (MemoryStorage.default : CommandBackend) (clock_of 1) 1 2 replica after_one 2
    (mkPaxosMessage 1 1 (Ack (put 7 500000%Z) 9 None 1)) (put 7 500000%Z) 9 None 1).
  - apply default_view_ok.
  - reflexivity.
  - reflexivity.
  - reflexivity.
  - vm_compute. reflexivity.
  - apply after_one_reachable.
  - vm_compute. left.
  - reflexivity.
Defined.

(** ** Races and batching *)

(** Two requests are released in the order of their deadlines, but each is appended by its own
    task, which takes the lock of the storage only after its release. *)
Definition two_requests : list action :=
  [AAppend (put 1 500000%Z); AAppend (put 2 900000%Z); ATask e0 2; ATask e0 2;
   (* Waiter, TickFn, AwaitRelease 1, AwaitRelease 2 *)
   task0; ATask e0 3; task0; ATask e0 4; ATask e0 2;
   (* AwaitRelease 1, AwaitRelease 2, TickFn, Waiter *)
   ATask e0 3; ATask e0 3; ATask e0 2; ATask e0 4; ATask e0 2;
   (* AwaitRelease 1, AwaitRelease 2, TickFn, Waiter: both are released *)
   ATask e0 1; ATask e0 3; ATask e0 3;          (* the second one is appended *)
   task0; ATask e0 2; ATask e0 2].
Theorem append_race_breaks_deadline_order :
  (Replica.log <$> exec_all two_requests replica) = Some [put 2 900000%Z; put 1 500000%Z] ∧
  (get_deadline (put 1 500000%Z) < get_deadline (put 2 900000%Z))%Z.
Proof. vm_compute. done. Qed.

(** With batches of two, the task that appends the first entry of a batch panics: its entry waits
    in the batch and is never acknowledged. *)
Definition batching_replica : CommandReplica := Eval vm_compute in
  OmniPaxos.seq_paxos (server_of 1 2).
Definition until_append : list action := take 8 one_request.
Definition before_append : CommandReplica := Eval vm_compute in
  match exec_all until_append batching_replica with Some s => s | None => batching_replica end.
Definition after_append : CommandReplica := Eval vm_compute in
  match SequencePaxos.schedule e0 2 before_append with Some s => s | None => before_append end.
Theorem batching_panics_and_loses_the_ack :
  exec_all until_append batching_replica = Some before_append ∧
  SequencePaxos.tasks before_append = [TickFn; Waiter; AppendLog (put 7 500000%Z) None] ∧
  SequencePaxos.schedule e0 2 before_append = Some after_append ∧
  SequencePaxos.tasks after_append = [TickFn; Waiter] ∧ Replica.log after_append = [] ∧
  SequencePaxos.vec_at after_append 2 = [] ∧
  StateCache.batched_entries
    (InternalStorage.state_cache (SequencePaxos.internal_storage after_append)) = [put 7 500000%Z].
Proof. split_and!; vm_compute; reflexivity. Qed.

(** ** The buffers *)

Abbreviation CommandBuffers := (Buffers.t Command.t (chan Command.t) (chans Command.t)).

Lemma insert_places_request_witness :
  returns (Buffers.insert (put 1 5%Z) true (Val 9%Z)) (Buffers.new : CommandBuffers) (λ res b',
    res.2 = None ∧ Buffers.early b' = [put 1 5%Z] ∧ buffers_ok b').
Proof.
  eapply returns_mono.
  { apply (insert_places_request (put 1 5%Z) true 9%Z Buffers.new); [apply new_ok|].
    intros [(r & Hr & _)|Hl]; [by apply elem_of_nil in Hr|by apply is_Some_None in Hl]. }
  intros res b' (Hok & _ & _ & _ & _ & H1 & H2 & _). split_and!; done.
Defined.

(** A buffer with two requests, the later one first. *)
Definition two_waiting : CommandBuffers := Eval vm_compute in
  ((let* _ := Buffers.insert (put 2 9%Z) false (Val 0%Z) in
    Buffers.insert (put 1 5%Z) false (Val 0%Z)) Buffers.new).2.
Lemma two_waiting_ok : buffers_ok two_waiting.
Proof.
  split.
  - vm_compute. repeat constructor; rewrite ?list_elem_of_singleton; try done. by intros ?%elem_of_nil.
  - intros id r. change (Buffers.late two_waiting) with (∅ : gmap N Command.t).
    by rewrite lookup_empty.
  - done.
  - intros id. unfold waiting. cbn [Buffers.early Buffers.notifiers two_waiting]. split.
    + intros [(r & Hr & <-)|Hl]; [|by apply is_Some_None in Hl].
      apply elem_of_cons in Hr as [->|Hr]; [by exists 1|].
      apply list_elem_of_singleton in Hr as ->. by exists 0.
    + intros [ch Hch]. left. destruct (decide (id = 1)) as [->|]; [|destruct (decide (id = 2)) as [->|]].
      * exists (put 1 5%Z). split; [left|done].
      * exists (put 2 9%Z). split; [right; left|done].
      * exfalso. change (({[1 := 1; 2 := 0]} : gmap N N) !! id = Some ch) in Hch. by simplify_map_eq.
  - intros id ch Hch. change (({[1 := 1; 2 := 0]} : gmap N N) !! id = Some ch) in Hch.
    apply lookup_insert_Some in Hch as [[_ <-]|[_ [_ <-]%lookup_singleton_Some]]; by vm_compute.
  - intros id id' ch Hch Hch'. change (({[1 := 1; 2 := 0]} : gmap N N) !! id = Some ch) in Hch.
    change (({[1 := 1; 2 := 0]} : gmap N N) !! id' = Some ch) in Hch'.
    apply lookup_insert_Some in Hch as [[? ?]|[_ [? ?]%lookup_singleton_Some]];
      apply lookup_insert_Some in Hch' as [[? ?]|[_ [? ?]%lookup_singleton_Some]]; congruence.
Qed.

Lemma waiter_pop_takes_least_witness :
  returns Buffers.waiter_pop two_waiting (λ res b',
    match res with
    | Some (_, req) => buffers_ok b' ∧ (get_deadline req ≤ 5)%Z
    | None => False
    end).
Proof.
  eapply returns_mono; [apply (waiter_pop_takes_least two_waiting), two_waiting_ok|].
  intros [[sender req]|] b'; [|by intros []].
  intros (Hok & _ & _ & Hmin & _). split; [done|]. apply (Hmin (put 1 5%Z)). left.
Defined.

(** Running the steps of a trace. *)
Definition no_requests : CommandBuffers := Buffers.new.

Lemma insert_runs (b : CommandBuffers) r im_leader d rel behind behind' b' :
  trace (Buffers.insert r im_leader (Val d) b).2 rel behind b' →
  behind_of_insert b r im_leader (Val d) ++ behind = behind' → trace b rel behind' b'.
Proof. intros Ht <-. by eapply trace_insert; [apply surjective_pairing|]. Qed.

Lemma pop_runs (b : CommandBuffers) req rel behind b' :
  (snd <$> match (Buffers.waiter_pop b).1 with Val o => o | Panic _ => None end) = Some req →
  trace (Buffers.waiter_pop b).2 rel behind b' → trace b (req :: rel) behind b'.
Proof.
  intros Hreq Ht. destruct (Buffers.waiter_pop b) as [[[[sender r]|]|] b1] eqn:E; cbn in *; try done.
  injection Hreq as ->. by eapply trace_pop.
Qed.

(** Two requests in the wrong order; and a request that comes to the leader after its turn, when a
    request with a later deadline than the leader's clock gives out has been taken already. *)
Lemma put_in_order : ∃ b, trace no_requests [put 1 5%Z; put 2 9%Z] [] b.
Proof.
  eexists. apply (insert_runs _ (put 2 9%Z) false 0%Z _ []); [|vm_compute; reflexivity].
  apply (insert_runs _ (put 1 5%Z) false 0%Z _ []); [|vm_compute; reflexivity].
  do 2 (apply pop_runs; [vm_compute; reflexivity|]). apply trace_done.
Qed.

Theorem leader_deadline_breaks_release_order :
  ∃ b, trace no_requests [put 1 100%Z; put 2 60%Z] [put 2 60%Z] b.
Proof.
  eexists. apply (insert_runs _ (put 1 100%Z) true 0%Z _ [put 2 60%Z]); [|vm_compute; reflexivity].
  apply pop_runs; [vm_compute; reflexivity|].
  apply (insert_runs _ (put 2 50%Z) true 60%Z _ []); [|vm_compute; reflexivity].
  apply pop_runs; [vm_compute; reflexivity|]. apply trace_done.
Qed.

Lemma released_in_deadline_order_witness :
  Sorted Z.le (get_deadline <$> [put 1 5%Z; put 2 9%Z]) ∧
  Sorted (in_order [put 2 60%Z]) [put 1 100%Z; put 2 60%Z].
Proof.
  split.
  - destruct put_in_order as [b Hb].
    destruct (released_in_deadline_order _ _ _ Hb) as [_ Hsorted]. by apply Hsorted.
  - destruct leader_deadline_breaks_release_order as [b Hb].
    by destruct (released_in_deadline_order _ _ _ Hb) as [Hsorted _].
Defined.

(** ** Leadership *)

Definition leading : OmniPaxos.t CommandReplica := Eval vm_compute in
  (OmniPaxos.try_become_leader server1).2.
Definition after_confirm : OmniPaxos.t CommandReplica := Eval vm_compute in
  (OmniPaxos.handle_incoming (SequencePaxosMsg (mkPaxosMessage 2 1 (Confirm (put 1 5%Z) 1)))
    leading).2.

Lemma leader_never_steps_down_witness :
  is_leader (OmniPaxos.seq_paxos after_confirm) ∧ own_promise (OmniPaxos.seq_paxos after_confirm).
Proof.
  apply (leader_never_steps_down leading after_confirm).
  - split; [by right|]. by split.
  - eapply server_steps_step; [apply server_steps_refl|].
    apply (server_incoming leading
      (SequencePaxosMsg (mkPaxosMessage 2 1 (Confirm (put 1 5%Z) 1))) (Val None)).
    vm_compute. reflexivity.
  - reflexivity.
Defined.
