(* ===== verification/Proxy.v ===== *)
(** * The proxy (src/src/proxy/)

    A proxy forwards the requests of its clients to every server, counts the acknowledgements per
    history hash, and confirms a hash once a quorum of servers, the leader among them, has
    acknowledged it.

    The state is the [Proxy] together with the channels between its tasks.  An [event] is what one
    task does between two points at which it waits: the listener ([EAccept]), the handler of a
    connection ([EClientMsg], [EClientEnd], [EHandler]) and the actor of a server ([EConnect],
    [EActorWrite], [EActorRead], [EDeliver]).  The handler takes the lock of the database three
    times for one acknowledgement, so that handlers interleave there. *)

From S2P Require Import Prelude Util Time StorageApi Messages Collections Kv.

Definition NETWORK_BATCH_SIZE : N := 100.

(** ** Configuration *)

Record Nodes : Type := mkNodes { node_id : NodeId; address : string; listening_port : N }.
Record ProxyConfig : Type := mkProxyConfig {
  location : option string;
  proxy_id : N;
  listen_address : string;
  listen_port : N;
  fault_tolerance : N;
  clients : list ClientId;
  nodes : list Nodes
}.

(** ** The database of acknowledgements *)

Module ProxyDatabase.
Record t : Type := mk { db : gmap N ack_info; quorum : N }.
#[global] Instance settable_db : Settable db := λ f r, mk (f (db r)) (quorum r).
#[global] Instance settable_quorum : Settable quorum := λ f r, mk (db r) (f (quorum r)).

Definition new (q : N) : t := {| db := ∅; quorum := q |}.

Definition handle_command (command : PRCommand.t) (self : t) : option (option ack_info) * t :=
  match command with
  | PRCommand.Put key val => (None, self <| db ::= <[key := val]> |>)
  | PRCommand.Delete key => (None, self <| db ::= delete key |>)
  | PRCommand.Get key => (Some (db self !! key), self)
  end.
End ProxyDatabase.

(** ** The proxy *)

(** An acknowledgement that a handler is working on. *)
Record ack : Type := mkAck {
  ack_cmd : Command.t;
  ack_hash : N;
  ack_suspect : option (option (option string));
  ack_idx : N
}.
Definition ack_message (a : ack) : ServerMessage.t :=
  ServerMessage.Ack (ack_cmd a) (ack_hash a) (ack_suspect a) (ack_idx a).

(** Where the handler of a connection is: in [select!], forwarding a message of the client, or
    between the steps of an acknowledgement; [info] is the new counter and speculation. *)
Inductive handler : Type :=
  | Idle
  | Forwarding (todo : list N) (m : ClientMessage.t)
  | Counted (a : ack) (info : ack_info)
  | Stored (a : ack) (info : ack_info)
  | Confirming (todo : list N) (a : ack) (info : ack_info)
  | Replying (a : ack) (info : ack_info)
  | Deleting (a : ack)
  | ForwardingSignal (ts : Timestamp)
  | Stopped.

(** Where the actor of a server is. *)
Inductive actor : Type :=
  | Connecting
  | Connected
  | Delivering (m : ServerMessage.t).

(** The order in which a [HashMap] visits its keys is not specified. *)
Class KeysIter : Type := { keys_iter : gset N → list N }.
Class KeysIterLaws `{KeysIter} : Prop := { keys_iter_elements X : keys_iter X ≡ₚ elements X }.
Definition elements_iter : KeysIter := {| keys_iter := elements |}.
Lemma elements_iter_laws : @KeysIterLaws elements_iter.
Proof. by split. Qed.

Module Proxy.

Record t : Type := mk {
  config : ProxyConfig;
  db : ProxyDatabase.t;
  (* the listener: the receivers it still has, the counter, and whether the process runs *)
  server_receivers : gset N;
  counter : N;
  running : bool;
  (* the channels from the actors to the handlers, and from the handlers to the actors *)
  to_handler : gmap N (list ServerMessage.t);
  to_actor : gmap N (list ClientMessage.t);
  handlers : gmap N handler;
  actors : gmap N actor
}.
#[global] Instance settable_config : Settable config := λ f r,
  mk (f (config r)) (db r) (server_receivers r) (counter r) (running r) (to_handler r)
    (to_actor r) (handlers r) (actors r).
#[global] Instance settable_db : Settable db := λ f r,
  mk (config r) (f (db r)) (server_receivers r) (counter r) (running r) (to_handler r)
    (to_actor r) (handlers r) (actors r).
#[global] Instance settable_server_receivers : Settable server_receivers := λ f r,
  mk (config r) (db r) (f (server_receivers r)) (counter r) (running r) (to_handler r)
    (to_actor r) (handlers r) (actors r).
#[global] Instance settable_counter : Settable counter := λ f r,
  mk (config r) (db r) (server_receivers r) (f (counter r)) (running r) (to_handler r)
    (to_actor r) (handlers r) (actors r).
#[global] Instance settable_running : Settable running := λ f r,
  mk (config r) (db r) (server_receivers r) (counter r) (f (running r)) (to_handler r)
    (to_actor r) (handlers r) (actors r).
#[global] Instance settable_to_handler : Settable to_handler := λ f r,
  mk (config r) (db r) (server_receivers r) (counter r) (running r) (f (to_handler r))
    (to_actor r) (handlers r) (actors r).
#[global] Instance settable_to_actor : Settable to_actor := λ f r,
  mk (config r) (db r) (server_receivers r) (counter r) (running r) (to_handler r)
    (f (to_actor r)) (handlers r) (actors r).
#[global] Instance settable_handlers : Settable handlers := λ f r,
  mk (config r) (db r) (server_receivers r) (counter r) (running r) (to_handler r) (to_actor r)
    (f (handlers r)) (actors r).
#[global] Instance settable_actors : Settable actors := λ f r,
  mk (config r) (db r) (server_receivers r) (counter r) (running r) (to_handler r) (to_actor r)
    (handlers r) (f (actors r)).

Section ops.
Context `{Build, KeysIter}.

(** [Proxy::new] and the beginning of [run], which makes the channels and spawns the actors. *)
Definition new (config : ProxyConfig) : outcome t :=
  match wsub usize_mod (len (nodes config)) (fault_tolerance config) with
  | Panic f => Panic f
  | Val quorum =>
      let ids := N.of_nat <$> seq 0 (length (nodes config)) in
      Val {| config := config; db := ProxyDatabase.new quorum;
             server_receivers := list_to_set ids; counter := 0; running := true;
             to_handler := list_to_map ((λ i, (i, [])) <$> ids);
             to_actor := list_to_map ((λ i, (i, [])) <$> ids);
             handlers := ∅;
             actors := list_to_map ((λ i, (i, Connecting)) <$> ids) |}
  end.

(** ** Events and what can be seen of them *)

Inductive event : Type :=
  | EAccept                                          (* listener.accept() *)
  | EClientMsg (i : N) (m : ClientMessage.t)         (* reader.next(), on connection i *)
  | EClientEnd (i : N)
  | EHandler (i : N) (socket_ok : bool)              (* the handler of connection i goes on *)
  | EConnect (j : N)                                 (* the actor of server j *)
  | EActorWrite (j : N) (socket_ok : bool)
  | EActorRead (j : N) (m : option ServerMessage.t)
  | EDeliver (j : N).

Inductive label : Type :=
  | Accepted (i : N)
  | Took (i : N) (a : ack)                           (* handler i takes an acknowledgement *)
  | Forwarded (i j : N) (m : ClientMessage.t)        (* handler i sends on the channel of actor j *)
  | Confirmed (i j : N) (a : ack)
  | Replied (i : N) (m : ServerMessage.t)            (* handler i writes to its client *)
  | ReadFrom (j : N) (m : ServerMessage.t)           (* actor j reads from its server *)
  | WrittenTo (j : N) (m : ClientMessage.t).

Definition go (i : N) (h : handler) (s : t) : t := s <| handlers ::= <[i := h]> |>.

(** A handler that returns or panics drops its receiver. *)
Definition stop (i : N) (s : t) : t :=
  go i Stopped (s <| to_handler ::= delete i |>).

(** The servers that a message is fanned out to. *)
Definition servers (s : t) : list N := keys_iter (dom (to_actor s)).

(** [sender.send(m).await]: nothing happens while the channel is full. *)
Inductive sent : Type := SentOk (s : t) | SendErr | Full.
Definition send_to_actor (j : N) (m : ClientMessage.t) (s : t) : sent :=
  match to_actor s !! j with
  | None => SendErr
  | Some q => if len q <? NETWORK_BATCH_SIZE
              then SentOk (s <| to_actor ::= <[j := q ++ [m]]> |>) else Full
  end.

(** The counter and the speculation after one more acknowledgement. *)
Definition count_ack (stored : option ack_info) (suspect : option (option (option string))) :
    outcome ack_info :=
  match stored with
  | Some (counter, stored_leader_spec) =>
      match wadd usize_mod counter 1 with
      | Panic f => Panic f
      | Val n => Val (n, match stored_leader_spec with Some _ => stored_leader_spec | None => suspect end)
      end
  | None => Val (1, suspect)
  end.

(** The handler takes the next message of its server. *)
Definition receive (i : N) (s : t) : option (t * list label) :=
  match to_handler s !! i with
  | Some (serv_res :: q) =>
      let s := s <| to_handler ::= <[i := q]> |> in
      match serv_res with
      | ServerMessage.Ack cmd hash suspect last_idx =>
          let a := mkAck cmd hash suspect last_idx in
          let (r, db') := ProxyDatabase.handle_command (PRCommand.Get hash) (db s) in
          let s := s <| db := db' |> in
          match count_ack (match r with Some (Some stored) => Some stored | _ => None end) suspect with
          | Val info => Some (go i (Counted a info) s, [Took i a])
          | Panic _ => Some (stop i s, [Took i a])
          end
      | ServerMessage.StartSignal ts => Some (go i (ForwardingSignal ts) s, [])
      | _ => Some (s, [])
      end
  | _ => None
  end.

(** [run] up to the next point where the handler waits. *)
Definition handler_step (i : N) (socket_ok : bool) (s : t) : option (t * list label) :=
  match handlers s !! i with
  | Some Idle => receive i s
  | Some (Forwarding [] _) => Some (go i Idle s, [])
  | Some (Forwarding (j :: todo) m) =>
      match send_to_actor j m s with
      | SentOk s' => Some (go i (Forwarding todo m) s', [Forwarded i j m])
      | SendErr => Some (go i (Forwarding todo m) s, [])
      | Full => None
      end
  | Some (Counted a info) =>
      let (_, db') := ProxyDatabase.handle_command (PRCommand.Put (ack_hash a) info) (db s) in
      Some (go i (Stored a info) (s <| db := db' |>), [])
  | Some (Stored a info) =>
      if (ProxyDatabase.quorum (db s) <=? info.1) && bool_decide (is_Some info.2)
      then Some (go i (Confirming (servers s) a info) s, [])
      else Some (go i Idle s, [])
  | Some (Confirming (j :: todo) a info) =>
      match send_to_actor j (ClientMessage.Ack (ack_cmd a) (ack_idx a)) s with
      | SentOk s' => Some (go i (Confirming todo a info) s', [Confirmed i j a])
      | SendErr => Some (stop i s, [])
      | Full => None
      end
  | Some (Confirming [] a info) => Some (go i (Replying a info) s, [])
  | Some (Replying a info) =>
      if socket_ok then Some (go i (Deleting a) s, [Replied i (ack_message a)])
      else Some (stop i s, [])
  | Some (Deleting a) =>
      let (_, db') := ProxyDatabase.handle_command (PRCommand.Delete (ack_hash a)) (db s) in
      Some (go i Idle (s <| db := db' |>), [])
  | Some (ForwardingSignal ts) =>
      if socket_ok then Some (go i Idle s, [Replied i (ServerMessage.StartSignal ts)])
      else Some (stop i s, [])
  | Some Stopped | None => None
  end.

Definition set_actor (j : N) (a : actor) (s : t) : t := s <| actors ::= <[j := a]> |>.

(** [None]: the event cannot happen in this state. *)
Definition exec (e : event) (s : t) : option (t * list label) :=
  if negb (running s) then None else
  match e with
  | EAccept =>
      match wadd usize_mod (counter s) 1 with
      | Panic _ => Some (s <| running := false |>, [])
      | Val c =>
          let s := s <| counter := c |> in
          if bool_decide (c ∈ server_receivers s)
          then Some (go c Idle (s <| server_receivers ::= λ X, X ∖ {[c]} |>), [Accepted c])
          else (* remove(&counter).unwrap() *) Some (s <| running := false |>, [])
      end
  | EClientMsg i m =>
      match handlers s !! i with
      | Some Idle => Some (go i (Forwarding (servers s) m) s, [])
      | _ => None
      end
  | EClientEnd i =>
      match handlers s !! i with
      | Some Idle => Some (stop i s, [])
      | _ => None
      end
  | EHandler i socket_ok => handler_step i socket_ok s
  | EConnect j =>
      match actors s !! j with
      | Some Connecting => Some (set_actor j Connected s, [])
      | _ => None
      end
  | EActorWrite j socket_ok =>
      match actors s !! j, to_actor s !! j with
      | Some Connected, Some (m :: q) =>
          let s := s <| to_actor ::= <[j := q]> |> in
          if socket_ok then Some (s, [WrittenTo j m]) else Some (set_actor j Connecting s, [])
      | _, _ => None
      end
  | EActorRead j m =>
      match actors s !! j with
      | Some Connected =>
          match m with
          | Some m => Some (set_actor j (Delivering m) s, [ReadFrom j m])
          | None => Some (set_actor j Connecting s, [])
          end
      | _ => None
      end
  | EDeliver j =>
      match actors s !! j with
      | Some (Delivering m) =>
          match to_handler s !! j with
          | None => Some (set_actor j Connected s, [])
          | Some q => if len q <? NETWORK_BATCH_SIZE
                      then Some (set_actor j Connected (s <| to_handler ::= <[j := q ++ [m]]> |>), [])
                      else None
          end
      | _ => None
      end
  end.

(** A run, with the trace of its labels. *)
Inductive run (s0 : t) : list label → t → Prop :=
  | run_start : run s0 [] s0
  | run_event tr s e s' ls : run s0 tr s → exec e s = Some (s', ls) → run s0 (tr ++ ls) s'.

(** The same, for execution. *)
Fixpoint exec_all (es : list event) (s : t) : option (t * list label) :=
  match es with
  | [] => Some (s, [])
  | e :: es => '(s1, l1) ← exec e s; '(s2, l2) ← exec_all es s1; Some (s2, l1 ++ l2)
  end.

Lemma exec_all_run es s0 tr s s' ls :
  run s0 tr s → exec_all es s = Some (s', ls) → run s0 (tr ++ ls) s'.
Proof.
  revert tr s ls. induction es as [|e es IH]; intros tr s ls Hr; cbn.
  - intros [= <- <-]. by rewrite app_nil_r.
  - destruct (exec e s) as [[s1 l1]|] eqn:E1; [|done]. cbn.
    destruct (exec_all es s1) as [[s2 l2]|] eqn:E2; [|done]. cbn. intros [= <- <-].
    rewrite app_assoc. eapply IH; [|done]. by eapply run_event.
Qed.
End ops.
End Proxy.

(** ** Confirmations are backed by a quorum *)

Section safety.
Context `{Build, KeysIter}.
Import Proxy.
Implicit Types s : Proxy.t.
Implicit Types tr : list label.

(** How many acknowledgements of a hash the handlers have taken, of all connections. *)
Definition is_took (h : N) (l : label) : bool :=
  match l with Took _ a => ack_hash a =? h | _ => false end.
Definition took tr (h : N) : N := len (List.filter (is_took h) tr).
Definition leader_took tr (h : N) : Prop :=
  ∃ i a x, Took i a ∈ tr ∧ ack_hash a = h ∧ ack_suspect a = Some x.

(** A counter and a speculation are backed by what was taken. *)
Definition backed tr (h : N) (info : ack_info) : Prop :=
  info.1 ≤ took tr h ∧ (is_Some info.2 → leader_took tr h).

Definition reaches (q : N) (info : ack_info) : Prop := q ≤ info.1 ∧ is_Some info.2.

Definition handler_ok (q : N) tr (i : N) (h : handler) : Prop :=
  match h with
  | Counted a info | Stored a info => backed tr (ack_hash a) info ∧ Took i a ∈ tr
  | Confirming _ a info | Replying a info =>
      backed tr (ack_hash a) info ∧ Took i a ∈ tr ∧ reaches q info
  | _ => True
  end.

(** [l] confirms the acknowledgement [a] of handler [i], to a server or to the client. *)
Definition settles (l : label) (i : N) (a : ack) : Prop :=
  match l with
  | Confirmed k _ b => k = i ∧ b = a
  | Replied k m => k = i ∧ m = ack_message a
  | _ => False
  end.

Record counts (q : N) tr s : Prop := {
  counts_quorum : ProxyDatabase.quorum (db s) = q;
  counts_db h info : ProxyDatabase.db (db s) !! h = Some info → backed tr h info;
  counts_handlers i h : handlers s !! i = Some h → handler_ok q tr i h;
  counts_settled l i a : l ∈ tr → settles l i a →
    Took i a ∈ tr ∧ q ≤ took tr (ack_hash a) ∧ leader_took tr (ack_hash a)
}.

Lemma took_app tr ls h : took (tr ++ ls) h = took tr h + took ls h.
Proof. unfold took. by rewrite List.filter_app, len_app. Qed.
Lemma leader_took_app tr ls h : leader_took tr h → leader_took (tr ++ ls) h.
Proof. intros (i & a & x & Hin & ? & ?). exists i, a, x. rewrite elem_of_app. auto. Qed.
Lemma backed_app tr ls h info : backed tr h info → backed (tr ++ ls) h info.
Proof.
  intros [Hc Hs]. split; [rewrite took_app; lia|]. intros Hi. by apply leader_took_app, Hs.
Qed.
Lemma handler_ok_app q tr ls i h : handler_ok q tr i h → handler_ok q (tr ++ ls) i h.
Proof.
  destruct h; cbn; rewrite ?elem_of_app; intros; try done;
    intuition auto using backed_app.
Qed.

(** One event: the database and the handlers stay backed by the longer trace, and its labels do not
    confirm what is not. *)
Lemma counts_step q tr s ls s' :
  counts q tr s →
  ProxyDatabase.quorum (db s') = q →
  (∀ h info, ProxyDatabase.db (db s') !! h = Some info →
     ProxyDatabase.db (db s) !! h = Some info ∨ backed (tr ++ ls) h info) →
  (∀ i h, handlers s' !! i = Some h → handlers s !! i = Some h ∨ handler_ok q (tr ++ ls) i h) →
  (∀ l i a, l ∈ ls → settles l i a →
     ∃ h, handlers s !! i = Some h ∧ ∃ todo info, h = Confirming todo a info ∨ h = Replying a info) →
  counts q (tr ++ ls) s'.
Proof.
  intros [Hq Hdb Hh Hc] Hq' Hdb' Hh' Hc'. split.
  - done.
  - intros h info [Hi|Hi]%Hdb'; [by apply backed_app, Hdb|done].
  - intros i h [Hi|Hi]%Hh'; [by apply handler_ok_app, Hh|done].
  - intros l i a [Hin|Hin]%elem_of_app Hset.
    + destruct (Hc l i a Hin Hset) as (? & ? & ?). rewrite elem_of_app, took_app.
      split_and!; [by left|lia|by apply leader_took_app].
    + destruct (Hc' l i a Hin Hset) as (h & Hi & todo & info & Heq). apply Hh in Hi.
      assert (Hi' : handler_ok q tr i (Replying a info)) by (by destruct Heq as [->| ->]).
      destruct Hi' as ([Hn Hl] & Ht & [Hr Hs]). rewrite elem_of_app, took_app.
      split_and!; [by left|lia|by apply leader_took_app, Hl].
Qed.

(** Only handler [i] moved. *)
Lemma go_handlers i h s k h' :
  handlers (go i h s) !! k = Some h' → handlers s !! k = Some h' ∨ k = i ∧ h' = h.
Proof. cbn. intros [[<- <-]|[_ ?]]%lookup_insert_Some; auto. Qed.

Lemma count_ack_backed tr stored a i info h :
  ack_hash a = h → (∀ info, stored = Some info → backed tr h info) →
  count_ack stored (ack_suspect a) = Val info → backed (tr ++ [Took i a]) h info.
Proof.
  intros Hh Hst. assert (Ht : took [Took i a] h = 1).
  { unfold took. cbn. by rewrite Hh, N.eqb_refl. }
  assert (Hlead : is_Some (ack_suspect a) → leader_took (tr ++ [Took i a]) h).
  { intros [x Hx]. exists i, a, x. rewrite elem_of_app, list_elem_of_singleton. auto. }
  unfold count_ack. destruct stored as [[n sp]|].
  - destruct (Hst _ eq_refl) as [Hn Hs]. cbn in *.
    destruct (wadd usize_mod n 1) as [n'|] eqn:E; [|done].
    assert (Hn' : n' ≤ n + 1).
    { revert E. unfold wadd, wrapping. destruct (_ <? _); [by intros [= <-]|].
      destruct overflow_checks; [done|]. intros [= <-]. pose proof (N.Div0.mod_le (n + 1) usize_mod). lia. }
    intros [= <-]. split; cbn; [rewrite took_app; lia|].
    destruct sp; [|done]. intros _. by apply leader_took_app, Hs.
  - intros [= <-]. split; cbn; [rewrite took_app; lia|done].
Qed.

Lemma send_frame j m s s' : send_to_actor j m s = SentOk s' →
  db s' = db s ∧ handlers s' = handlers s ∧ dom (to_actor s') = dom (to_actor s) ∧
  to_handler s' = to_handler s ∧ actors s' = actors s ∧ server_receivers s' = server_receivers s ∧
  counter s' = counter s ∧ running s' = running s.
Proof.
  unfold send_to_actor. destruct (to_actor s !! j) as [q|] eqn:E; [|done].
  destruct (_ <? _); [|done]. intros [= <-]. cbn. split_and!; try done.
  rewrite dom_insert_L. apply elem_of_dom_2 in E. set_solver.
Qed.

Ltac counts_easy Hc :=
  eapply (counts_step _ _ _ _ _ Hc);
    [exact (counts_quorum _ _ _ Hc)
    |by auto
    |intros k ? Hk; (try apply go_handlers in Hk as [Hk|[-> ->]]); (try by left); right
    |intros ? ? ? Hin Hset; first [by apply elem_of_nil in Hin
                                  |apply list_elem_of_singleton in Hin as ->; by destruct Hset]].

Lemma counts_receive q tr i s s' ls :
  counts q tr s → receive i s = Some (s', ls) → counts q (tr ++ ls) s'.
Proof.
  intros Hc. unfold receive. destruct (to_handler s !! i) as [[|m rest]|]; [done| |done].
  destruct m as [id|id r|cmd hash suspect idx|ts]; cbn; try (intros [= <- <-]; counts_easy Hc; done).
  pose proof (count_ack_backed tr (ProxyDatabase.db (db s) !! hash) (mkAck cmd hash suspect idx) i)
    as Hb. cbn in Hb.
  replace (match ProxyDatabase.db (db s) !! hash with Some stored => Some stored | None => None end)
    with (ProxyDatabase.db (db s) !! hash) by by destruct (_ !! hash).
  destruct (count_ack _ suspect) as [info|f]; intros [= <- <-].
  - specialize (Hb info hash eq_refl (counts_db _ _ _ Hc hash) eq_refl).
    counts_easy Hc. cbn. split; [done|]. apply elem_of_app. right. by left.
  - counts_easy Hc. done.
Qed.

Lemma counts_handler_step q tr i ok s s' ls :
  counts q tr s → handler_step i ok s = Some (s', ls) → counts q (tr ++ ls) s'.
Proof.
  intros Hc. unfold handler_step. destruct (handlers s !! i) as [h|] eqn:Eh; [|done].
  pose proof (counts_handlers _ _ _ Hc i h Eh) as Hh.
  destruct h as [|todo m|a info|a info|todo a info|a info|a|ts|]; cbn in Hh.
  - by apply counts_receive.
  - destruct todo as [|j todo]; [intros [= <- <-]; by counts_easy Hc|].
    destruct (send_to_actor j m s) as [s1| |] eqn:Es; [|intros [= <- <-]; by counts_easy Hc|done].
    destruct (send_frame _ _ _ _ Es) as (E1 & E2 & _). intros [= <- <-].
    eapply counts_step; [done|cbn; rewrite E1; apply Hc|cbn; rewrite E1; auto| |].
    + intros k h' Hk. apply go_handlers in Hk as [Hk|[-> ->]]; [left; by rewrite <-E2|by right].
    + by intros ? ? ? ->%list_elem_of_singleton.
  - intros [= <- <-]. destruct Hh as [Hb Ht]. eapply counts_step; [done|by apply Hc| | |].
    + cbn. intros h info' [[<- <-]|[_ ?]]%lookup_insert_Some; [right; by apply backed_app|by left].
    + intros k h' Hk. apply go_handlers in Hk as [Hk|[-> ->]]; [by left|right].
      apply handler_ok_app. by split.
    + by intros ? ? ? Hin%elem_of_nil.
  - destruct Hh as [Hb Ht]. destruct (_ && _) eqn:E; intros [= <- <-]; counts_easy Hc; [|done].
    apply andb_true_iff in E as [Hq Hs%bool_decide_eq_true]. apply N.leb_le in Hq.
    rewrite (counts_quorum _ _ _ Hc) in Hq. apply handler_ok_app. by split_and!.
  - destruct Hh as (Hb & Ht & Hr). destruct todo as [|j todo].
    { intros [= <- <-]. counts_easy Hc. apply handler_ok_app. by split_and!. }
    destruct (send_to_actor _ _ s) as [s1| |] eqn:Es; [|intros [= <- <-]; by counts_easy Hc|done].
    destruct (send_frame _ _ _ _ Es) as (E1 & E2 & _). intros [= <- <-].
    eapply counts_step; [done|cbn; rewrite E1; apply Hc|cbn; rewrite E1; auto| |].
    + intros k h' Hk. apply go_handlers in Hk as [Hk|[-> ->]]; [left; by rewrite <-E2|right].
      apply handler_ok_app. by split_and!.
    + intros l i' a' ->%list_elem_of_singleton [<- <-]. eexists. split; [exact Eh|].
      eexists _, _. by left.
  - destruct ok; intros [= <- <-]; [|by counts_easy Hc].
    eapply counts_step; [done|by apply Hc|by auto| |].
    + intros k h' Hk. apply go_handlers in Hk as [Hk|[-> ->]]; [by left|by right].
    + intros l i' a' ->%list_elem_of_singleton [<- Ha]. assert (a' = a) as ->.
      { destruct a, a'. by injection Ha as <- <- <- <-. }
      eexists. split; [exact Eh|]. exists [], info. by right.
  - intros [= <- <-]. eapply counts_step; [done|by apply Hc| | |].
    + cbn. intros h info' [_ ?]%lookup_delete_Some. by left.
    + intros k h' Hk. apply go_handlers in Hk as [Hk|[-> ->]]; [by left|by right].
    + by intros ? ? ? Hin%elem_of_nil.
  - destruct ok; intros [= <- <-]; by counts_easy Hc.
  - done.
Qed.

Lemma counts_exec q tr e s s' ls :
  counts q tr s → exec e s = Some (s', ls) → counts q (tr ++ ls) s'.
Proof.
  intros Hc. unfold exec. destruct (negb (running s)); [done|]. destruct e.
  - destruct (wadd usize_mod (counter s) 1) as [c|f]; [|intros [= <- <-]; by counts_easy Hc].
    cbv zeta. case_bool_decide; intros [= <- <-]; by counts_easy Hc.
  - destruct (handlers s !! i) as [[]|]; try done. intros [= <- <-]. by counts_easy Hc.
  - destruct (handlers s !! i) as [[]|]; try done. intros [= <- <-]. by counts_easy Hc.
  - by apply counts_handler_step.
  - destruct (actors s !! j) as [[]|]; try done. intros [= <- <-]. by counts_easy Hc.
  - destruct (actors s !! j) as [[]|]; try done. destruct (to_actor s !! j) as [[|m' rest]|]; try done.
    destruct socket_ok; intros [= <- <-]; by counts_easy Hc.
  - destruct (actors s !! j) as [[]|]; try done. destruct m; intros [= <- <-]; by counts_easy Hc.
  - destruct (actors s !! j) as [[]|]; try done. destruct (to_handler s !! j) as [rest|];
      [destruct (_ <? _); [|done]|]; intros [= <- <-]; by counts_easy Hc.
Qed.

Lemma counts_new cfg s : new cfg = Val s → counts (ProxyDatabase.quorum (db s)) [] s.
Proof.
  unfold new. destruct (wsub _ _ _) as [q|f]; [|done]. intros [= <-].
  split; cbn; try done; intros *; rewrite ?lookup_empty; try done. by intros ?%elem_of_nil.
Qed.

Lemma counts_run q tr s0 s : counts q [] s0 → run s0 tr s → counts q tr s.
Proof. intros Hc. induction 1; [done|]. by eapply counts_exec. Qed.

(** Confirmations are backed by a quorum.  Whatever the handlers, the actors and the network do, in
    whatever order: when a handler confirms an acknowledgement to a server, it has taken this
    acknowledgement from its own server, and the handlers together have taken at least as many
    acknowledgements of its hash as the quorum asks for, one of them with the speculation of the
    leader.  (Handlers that race may lose counts, so more may be needed.) *)
Theorem confirm_needs_quorum cfg s0 tr s i j a :
  new cfg = Val s0 → run s0 tr s → Confirmed i j a ∈ tr →
  Took i a ∈ tr ∧
  ProxyDatabase.quorum (db s0) ≤ took tr (ack_hash a) ∧ leader_took tr (ack_hash a).
Proof.
  intros Hnew Hr Hin. pose proof (counts_run _ _ _ _ (counts_new _ _ Hnew) Hr) as Hc.
  by apply (counts_settled _ _ _ Hc (Confirmed i j a)).
Qed.
End safety.

(** ** Connections and receivers

    The listener gives the n-th connection the receiver of the server at index n of the
    configuration, and the indices start at 0: nobody reads from the first server. *)

Section connections.
Context `{Build, KeysIter}.
Import Proxy.
Implicit Types s : Proxy.t.
Implicit Types tr : list label.

Definition is_accepted (l : label) : bool := match l with Accepted _ => true | _ => false end.

Record layout (n : N) tr s : Prop := {
  layout_counter : running s = true → counter s = len (List.filter is_accepted tr);
  layout_bound : running s = true → counter s < N.max 1 n;
  layout_receivers c : running s = true →
    c ∈ server_receivers s ↔ c < n ∧ (c = 0 ∨ counter s < c);
  layout_handlers i : is_Some (handlers s !! i) → 1 ≤ i < n
}.

Lemma elem_of_ids n c : c ∈ (list_to_set (N.of_nat <$> seq 0 n) : gset N) ↔ c < N.of_nat n.
Proof.
  rewrite elem_of_list_to_set, list_elem_of_fmap. setoid_rewrite elem_of_seq. split.
  - intros (k & -> & Hk). lia.
  - intros Hc. exists (N.to_nat c). lia.
Qed.

Lemma layout_new cfg s : new cfg = Val s → layout (len (nodes cfg)) [] s.
Proof.
  unfold new. destruct (wsub _ _ _) as [q|f]; [|done]. intros [= <-]. split; cbn.
  - done.
  - lia.
  - intros c _. rewrite elem_of_ids. unfold len. lia.
  - intros i. rewrite lookup_empty. by intros [].
Qed.

(** An event other than [EAccept] does not change who listens to whom. *)
Lemma layout_frame n tr s ls s' :
  layout n tr s → running s' = running s → counter s' = counter s →
  server_receivers s' = server_receivers s → List.filter is_accepted ls = [] →
  (∀ i, is_Some (handlers s' !! i) → is_Some (handlers s !! i)) → layout n (tr ++ ls) s'.
Proof.
  intros [H1 H2 H3 H4] E1 E2 E3 E4 Hh. split; rewrite ?E1, ?E2, ?E3; auto.
  intros Hr. rewrite List.filter_app, E4, app_nil_r. auto.
Qed.

Lemma go_dom i h s : is_Some (handlers s !! i) →
  ∀ k, is_Some (handlers (go i h s) !! k) → is_Some (handlers s !! k).
Proof. intros Hi k. cbn. rewrite lookup_insert_is_Some. intros [<-|[_ ?]]; done. Qed.

Ltac layout_easy Hl := apply (layout_frame _ _ _ _ _ Hl); try done.

Lemma layout_handler_step n tr i ok s s' ls :
  layout n tr s → handler_step i ok s = Some (s', ls) → layout n (tr ++ ls) s'.
Proof.
  intros Hl. unfold handler_step. destruct (handlers s !! i) as [h|] eqn:Eh; [|done].
  assert (Hi : is_Some (handlers s !! i)) by by rewrite Eh.
  assert (Hgo : ∀ h', layout n (tr ++ []) (go i h' s)).
  { intros h'. layout_easy Hl. by apply go_dom. }
  assert (Hstop : layout n (tr ++ []) (stop i s)).
  { layout_easy Hl. by apply go_dom. }
  assert (Hsend : ∀ j m s1 h' l, send_to_actor j m s = SentOk s1 → is_accepted l = false →
    layout n (tr ++ [l]) (go i h' s1)).
  { intros j m s1 h' l Es Hacc. destruct (send_frame _ _ _ _ Es) as (_ & E2 & _ & _ & _ & E5 & E6 & E7).
    layout_easy Hl; cbn; [by rewrite Hacc|]. rewrite E2. by apply (go_dom i h' s). }
  destruct h as [|[|j todo] m|a info|a info|[|j todo] a info|a info|a|ts|]; cbn.
  - unfold receive. destruct (to_handler s !! i) as [[|m rest]|]; [done| |done].
    destruct m as [id|id r|cmd hash suspect idx|ts]; cbn;
      [..|destruct (count_ack _ _)|]; intros [= <- <-]; layout_easy Hl; by apply (go_dom i _ s).
  - intros [= <- <-]. apply Hgo.
  - destruct (send_to_actor j m s) as [s1| |] eqn:Es; intros [= <- <-]; [|apply Hgo].
    by eapply Hsend.
  - intros [= <- <-]. layout_easy Hl. by apply (go_dom i _ s).
  - destruct (_ && _); intros [= <- <-]; apply Hgo.
  - intros [= <- <-]. apply Hgo.
  - destruct (send_to_actor _ _ s) as [s1| |] eqn:Es; intros [= <- <-]; [|apply Hstop].
    by eapply Hsend.
  - destruct ok; intros [= <- <-]; [|apply Hstop]. layout_easy Hl. by apply go_dom.
  - intros [= <- <-]. layout_easy Hl. by apply (go_dom i _ s).
  - destruct ok; intros [= <- <-]; [|apply Hstop]. layout_easy Hl. by apply go_dom.
  - done.
Qed.

(** What [EAccept] does. *)
Lemma accept_spec n tr s :
  n < usize_mod → layout n tr s → running s = true →
  exec EAccept s = Some (
    if counter s + 1 <? n
    then (go (counter s + 1) Idle (s <| counter := counter s + 1 |>
            <| server_receivers ::= λ X, X ∖ {[counter s + 1]} |>), [Accepted (counter s + 1)])
    else (s <| counter := counter s + 1 |> <| running := false |>, [])).
Proof.
  intros Hn Hl Hr. pose proof (layout_bound _ _ _ Hl Hr) as Hb.
  unfold exec. rewrite Hr. cbn [negb]. cbv iota. rewrite wadd_exact by lia. cbv zeta.
  pose proof (layout_receivers _ _ _ Hl (counter s + 1) Hr) as Hc.
  destruct (N.ltb_spec (counter s + 1) n) as [Hlt|Hge].
  - rewrite bool_decide_true; [done|]. cbn. rewrite Hc. lia.
  - rewrite bool_decide_false; [done|]. cbn. rewrite Hc. lia.
Qed.

Lemma layout_exec n tr e s s' ls :
  n < usize_mod → layout n tr s → exec e s = Some (s', ls) → layout n (tr ++ ls) s'.
Proof.
  intros Hn Hl. destruct (running s) eqn:Hr; [|unfold exec; by rewrite Hr].
  assert (Hgo : ∀ i h, is_Some (handlers s !! i) → layout n (tr ++ []) (go i h s)).
  { intros i h Hi. layout_easy Hl. by apply go_dom. }
  destruct (match e with EAccept => true | _ => false end) eqn:He.
  { destruct e; try done. rewrite (accept_spec n tr s Hn Hl Hr). clear He.
    pose proof (layout_counter _ _ _ Hl Hr) as Hc. pose proof (layout_bound _ _ _ Hl Hr) as Hb.
    destruct (N.ltb_spec (counter s + 1) n) as [Hlt|Hge]; intros [= <- <-]; split; cbn; try done.
    - intros _. rewrite List.filter_app, len_app. cbn. rewrite len_cons, len_nil. lia.
    - intros _. lia.
    - intros c _. rewrite elem_of_difference, (layout_receivers _ _ _ Hl c Hr), elem_of_singleton. lia.
    - intros i. rewrite lookup_insert_is_Some. intros [<-|[_ Hi]]; [lia|].
      by apply (layout_handlers _ _ _ Hl).
    - apply (layout_handlers _ _ _ Hl). }
  unfold exec. rewrite Hr. cbn [negb]. cbv iota. destruct e; try done; clear He.
  - destruct (handlers s !! i) as [[]|] eqn:Eh; try done. intros [= <- <-]. apply Hgo. by rewrite Eh.
  - destruct (handlers s !! i) as [[]|] eqn:Eh; try done. intros [= <- <-]. layout_easy Hl.
    apply (go_dom i Stopped s). by rewrite Eh.
  - by apply layout_handler_step.
  - destruct (actors s !! j) as [[]|]; try done. intros [= <- <-]. by layout_easy Hl.
  - destruct (actors s !! j) as [[]|]; try done. destruct (to_actor s !! j) as [[|m' rest]|]; try done.
    destruct socket_ok; intros [= <- <-]; by layout_easy Hl.
  - destruct (actors s !! j) as [[]|]; try done. destruct m; intros [= <- <-]; by layout_easy Hl.
  - destruct (actors s !! j) as [[]|]; try done. destruct (to_handler s !! j) as [rest|];
      [destruct (_ <? _); [|done]|]; intros [= <- <-]; by layout_easy Hl.
Qed.

Lemma layout_run cfg s0 tr s :
  len (nodes cfg) < usize_mod → new cfg = Val s0 → run s0 tr s → layout (len (nodes cfg)) tr s.
Proof.
  intros Hn Hnew. induction 1; [by apply layout_new|]. by eapply layout_exec.
Qed.

(** A proxy of n servers takes n-1 connections.  While it runs, the connection after the
    k-th one gets the receiver of the server at index k+1 if there is such a server; otherwise
    [remove(&counter).unwrap()] panics and the whole process ends. *)
Theorem last_connection_kills_the_proxy cfg s0 tr s :
  len (nodes cfg) < usize_mod → new cfg = Val s0 → run s0 tr s → running s = true →
  let k := len (List.filter is_accepted tr) in
  ∃ s' ls, exec EAccept s = Some (s', ls) ∧
    if k + 1 <? len (nodes cfg)
    then ls = [Accepted (k + 1)] ∧ running s' = true ∧ handlers s' !! (k + 1) = Some Idle
    else ls = [] ∧ running s' = false.
Proof.
  intros Hn Hnew Hr Hrun. pose proof (layout_run _ _ _ _ Hn Hnew Hr) as Hl.
  rewrite <-(layout_counter _ _ _ Hl Hrun). cbv zeta.
  rewrite (accept_spec _ _ _ Hn Hl Hrun).
  destruct (_ <? _); do 2 eexists; (split; [reflexivity|]); [|done].
  split_and!; [done|exact Hrun|]. cbn. apply lookup_insert_eq.
Qed.
End connections.

(** *** The first server of the configuration *)

Section first_server.
Context `{Build, KeysIter}.
Import Proxy.
Implicit Types s : Proxy.t.
Implicit Types tr : list label.

(** Whether a message is the acknowledgement of a leader. *)
Definition speculative (m : ServerMessage.t) : bool :=
  match m with ServerMessage.Ack _ _ (Some _) _ => true | _ => false end.

(** Every message that is under way or was taken was read from its server. *)
Record delivered tr s : Prop := {
  delivered_queue i q m : to_handler s !! i = Some q → m ∈ q → ReadFrom i m ∈ tr;
  delivered_actor i m : actors s !! i = Some (Delivering m) → ReadFrom i m ∈ tr;
  delivered_took i a : Took i a ∈ tr → ReadFrom i (ack_message a) ∈ tr
}.

Definition is_took_any (l : label) : bool := match l with Took _ _ => true | _ => false end.

Lemma delivered_step tr s ls s' :
  delivered tr s →
  (∀ i q m, to_handler s' !! i = Some q → m ∈ q → ReadFrom i m ∈ tr ++ ls) →
  (∀ i m, actors s' !! i = Some (Delivering m) → ReadFrom i m ∈ tr ++ ls) →
  (∀ i a, Took i a ∈ ls → ReadFrom i (ack_message a) ∈ tr) → delivered (tr ++ ls) s'.
Proof.
  intros [Hq Ha Ht] Hq' Ha' Ht'. split; [done..|].
  intros i a [Hin|Hin]%elem_of_app; apply elem_of_app; left; auto.
Qed.

(** Nothing is added to the channels to the handlers, and no actor starts to deliver. *)
Lemma delivered_frame tr s ls s' :
  delivered tr s → actors s' = actors s →
  (∀ i q', to_handler s' !! i = Some q' → ∃ q, to_handler s !! i = Some q ∧ ∀ m, m ∈ q' → m ∈ q) →
  (∀ i a, Took i a ∈ ls → ReadFrom i (ack_message a) ∈ tr) → delivered (tr ++ ls) s'.
Proof.
  intros Hd Ea Hq Ht. eapply delivered_step; [done|..|done].
  - intros i q' m E Hm. destruct (Hq i q' E) as (q & E' & Hin). apply elem_of_app. left.
    eapply delivered_queue; eauto.
  - intros i m. rewrite Ea. intros E. apply elem_of_app. left. by eapply delivered_actor.
Qed.

Lemma same_queues s : ∀ i q', to_handler s !! i = Some q' →
  ∃ q, to_handler s !! i = Some q ∧ ∀ m, m ∈ q' → m ∈ q.
Proof. eauto. Qed.
Lemma stop_queues s k : ∀ i q', delete k (to_handler s) !! i = Some q' →
  ∃ q, to_handler s !! i = Some q ∧ ∀ m, m ∈ q' → m ∈ q.
Proof. intros i q' [_ ?]%lookup_delete_Some. eauto. Qed.

Ltac no_took := intros ? ? Hin; first [by apply elem_of_nil in Hin
  | by apply list_elem_of_singleton in Hin].
Ltac delivered_easy Hd :=
  match type of Hd with delivered _ ?s =>
    apply (delivered_frame _ _ _ _ Hd);
      [done|first [exact (same_queues s)|exact (stop_queues s _)]|no_took]
  end.

Lemma delivered_receive tr i s s' ls :
  delivered tr s → receive i s = Some (s', ls) → delivered (tr ++ ls) s'.
Proof.
  intros Hd. unfold receive. destruct (to_handler s !! i) as [[|m rest]|] eqn:Eq; [done| |done].
  assert (Hq : ∀ k q', <[i:=rest]> (to_handler s) !! k = Some q' →
    ∃ q, to_handler s !! k = Some q ∧ ∀ m, m ∈ q' → m ∈ q).
  { intros k q' [[<- <-]|[_ ?]]%lookup_insert_Some; [|eauto].
    exists (m :: rest). split; [done|]. intros m' Hin. by right. }
  assert (Hm : ReadFrom i m ∈ tr) by (eapply delivered_queue; [done..|left]).
  destruct m as [id|id r|cmd hash suspect idx|ts]; cbn.
  - intros [= <- <-]. apply (delivered_frame _ _ _ _ Hd); [done..|no_took].
  - intros [= <- <-]. apply (delivered_frame _ _ _ _ Hd); [done..|no_took].
  - destruct (count_ack _ _); intros [= <- <-]; apply (delivered_frame _ _ _ _ Hd); try done.
    + intros k b Hin%list_elem_of_singleton. by injection Hin as -> ->.
    + cbn. intros k q' [_ E]%lookup_delete_Some. by apply Hq.
    + intros k b Hin%list_elem_of_singleton. by injection Hin as -> ->.
  - intros [= <- <-]. apply (delivered_frame _ _ _ _ Hd); [done..|no_took].
Qed.

Lemma delivered_handler_step tr i ok s s' ls :
  delivered tr s → handler_step i ok s = Some (s', ls) → delivered (tr ++ ls) s'.
Proof.
  intros Hd. unfold handler_step. destruct (handlers s !! i) as [h|]; [|done].
  assert (Hsend : ∀ j m s1 h' l, send_to_actor j m s = SentOk s1 → is_took_any l = false →
    delivered (tr ++ [l]) (go i h' s1)).
  { intros j m s1 h' l Es Hl. destruct (send_frame _ _ _ _ Es) as (_ & _ & _ & E4 & E5 & _).
    apply (delivered_frame _ _ _ _ Hd); cbn; [done|rewrite E4; apply same_queues|].
    intros k a Hin%list_elem_of_singleton. by subst l. }
  destruct h as [|[|j todo] m|a info|a info|[|j todo] a info|a info|a|ts|]; cbn.
  - by apply delivered_receive.
  - intros [= <- <-]. delivered_easy Hd.
  - destruct (send_to_actor j m s) as [s1| |] eqn:Es; intros [= <- <-];
      [by eapply Hsend|delivered_easy Hd].
  - intros [= <- <-]. delivered_easy Hd.
  - destruct (_ && _); intros [= <- <-]; delivered_easy Hd.
  - intros [= <- <-]. delivered_easy Hd.
  - destruct (send_to_actor _ _ s) as [s1| |] eqn:Es; intros [= <- <-];
      [by eapply Hsend|delivered_easy Hd].
  - destruct ok; intros [= <- <-]; delivered_easy Hd.
  - intros [= <- <-]. delivered_easy Hd.
  - destruct ok; intros [= <- <-]; delivered_easy Hd.
  - done.
Qed.

Lemma set_actor_delivering j h s i m :
  actors (set_actor j h s) !! i = Some (Delivering m) →
  actors s !! i = Some (Delivering m) ∨ i = j ∧ h = Delivering m.
Proof. cbn. intros [[<- <-]|[_ ?]]%lookup_insert_Some; auto. Qed.

Lemma delivered_exec tr e s s' ls :
  delivered tr s → exec e s = Some (s', ls) → delivered (tr ++ ls) s'.
Proof.
  intros Hd.
  assert (Hset : ∀ j h s1 l, delivered (tr ++ l) s1 → (∀ m, h = Delivering m → ReadFrom j m ∈ tr ++ l) →
    delivered (tr ++ l) (set_actor j h s1)).
  { intros j h s1 l [H1 H2 H3] Hh. split; [done| |done].
    intros i m [?|[-> ->]]%set_actor_delivering; auto. }
  unfold exec. destruct (negb (running s)); [done|]. destruct e.
  - destruct (wadd usize_mod (counter s) 1) as [c|f]; [|intros [= <- <-]; delivered_easy Hd].
    cbv zeta. case_bool_decide; intros [= <- <-]; delivered_easy Hd.
  - destruct (handlers s !! i) as [[]|]; try done. intros [= <- <-]. delivered_easy Hd.
  - destruct (handlers s !! i) as [[]|]; try done. intros [= <- <-]. delivered_easy Hd.
  - by apply delivered_handler_step.
  - destruct (actors s !! j) as [[]|]; try done. intros [= <- <-].
    apply Hset; [delivered_easy Hd|done].
  - destruct (actors s !! j) as [[]|]; try done. destruct (to_actor s !! j) as [[|m' rest]|]; try done.
    destruct socket_ok; intros [= <- <-]; [delivered_easy Hd|]. apply Hset; [delivered_easy Hd|done].
  - destruct (actors s !! j) as [[]|]; try done. destruct m as [m|]; intros [= <- <-].
    + apply Hset; [delivered_easy Hd|]. intros m' [= <-]. apply elem_of_app. right. by left.
    + apply Hset; [delivered_easy Hd|done].
  - destruct (actors s !! j) as [[| |m]|] eqn:Ea; try done.
    pose proof (delivered_actor _ _ Hd _ _ Ea) as Hm.
    destruct (to_handler s !! j) as [rest|] eqn:Eq;
      [destruct (_ <? _); [|done]|]; intros [= <- <-]; (apply Hset; [|done]); [|delivered_easy Hd].
    eapply delivered_step; [done|..|no_took]; cbn.
    + intros i q m' [[<- <-]|[_ E]]%lookup_insert_Some Hin; apply elem_of_app; left;
        [|by eapply delivered_queue].
      apply elem_of_app in Hin as [Hin|Hin]; [|by apply list_elem_of_singleton in Hin as ->].
      by eapply delivered_queue.
    + intros i m' E. apply elem_of_app. left. by eapply delivered_actor.
Qed.

Lemma list_to_map_const {V} (v : V) (ids : list N) i x :
  (list_to_map ((λ i, (i, v)) <$> ids) : gmap N V) !! i = Some x → x = v.
Proof.
  intros Hin%elem_of_list_to_map_2. apply list_elem_of_fmap in Hin as (k & [= -> ->] & _). done.
Qed.

Lemma delivered_new cfg s : new cfg = Val s → delivered [] s.
Proof.
  unfold new. destruct (wsub _ _ _) as [q|f]; [|done]. intros [= <-]. split; cbn.
  - intros i q' m ->%list_to_map_const Hin. by apply elem_of_nil in Hin.
  - by intros i m E%list_to_map_const.
  - by intros i a Hin%elem_of_nil.
Qed.

(** Handlers have the numbers of servers that are not the first. *)
Record heard n tr s : Prop := {
  heard_layout : layout n tr s;
  heard_took i a : Took i a ∈ tr → i ≠ 0
}.

(** Only the handler of a connection takes an acknowledgement. *)
Lemma exec_took e s s' ls i a :
  exec e s = Some (s', ls) → Took i a ∈ ls → is_Some (handlers s !! i).
Proof.
  intros E Hin.
  revert E. unfold exec. destruct (negb (running s)); [done|]. destruct e.
  - destruct (wadd _ _ _); [cbv zeta; case_bool_decide|]; intros [= _ <-];
      first [by apply list_elem_of_singleton in Hin|by apply elem_of_nil in Hin].
  - destruct (handlers s !! i0) as [[]|]; try done. intros [= _ <-]. by apply elem_of_nil in Hin.
  - destruct (handlers s !! i0) as [[]|]; try done. intros [= _ <-]. by apply elem_of_nil in Hin.
  - unfold handler_step. destruct (handlers s !! i0) as [h|] eqn:Eh; [|done].
    assert (Hnil : ls = [] → is_Some (handlers s !! i)) by (intros ->; by apply elem_of_nil in Hin).
    destruct h as [|[|j todo] m|a' info|a' info|[|j todo] a' info|a' info|a'|ts|];
      try (intros [= _ <-]; by apply Hnil); try done.
    + unfold receive. destruct (to_handler s !! i0) as [[|m rest]|]; [done| |done].
      destruct m; cbn; try (intros [= _ <-]; by apply Hnil).
      destruct (count_ack _ _); intros [= _ <-]; apply list_elem_of_singleton in Hin;
        injection Hin as -> _; by rewrite Eh.
    + destruct (send_to_actor j m s); intros [= _ <-]; [by apply list_elem_of_singleton in Hin|].
      by apply Hnil.
    + destruct (_ && _); intros [= _ <-]; by apply Hnil.
    + destruct (send_to_actor _ _ s); intros [= _ <-]; [by apply list_elem_of_singleton in Hin|].
      by apply Hnil.
    + destruct socket_ok; intros [= _ <-]; [by apply list_elem_of_singleton in Hin|by apply Hnil].
    + destruct socket_ok; intros [= _ <-]; [by apply list_elem_of_singleton in Hin|by apply Hnil].
  - destruct (actors s !! j) as [[]|]; try done. intros [= _ <-]. by apply elem_of_nil in Hin.
  - destruct (actors s !! j) as [[]|]; try done. destruct (to_actor s !! j) as [[|m' rest]|]; try done.
    destruct socket_ok; intros [= _ <-];
      first [by apply list_elem_of_singleton in Hin|by apply elem_of_nil in Hin].
  - destruct (actors s !! j) as [[]|]; try done. destruct m; intros [= _ <-];
      first [by apply list_elem_of_singleton in Hin|by apply elem_of_nil in Hin].
  - destruct (actors s !! j) as [[]|]; try done. destruct (to_handler s !! j) as [rest|];
      [destruct (_ <? _); [|done]|]; intros [= _ <-]; by apply elem_of_nil in Hin.
Qed.

Lemma heard_exec n tr e s s' ls :
  n < usize_mod → heard n tr s → exec e s = Some (s', ls) → heard n (tr ++ ls) s'.
Proof.
  intros Hn [Hl Ht] E. split; [by eapply layout_exec|].
  intros i a [Hin|Hin]%elem_of_app; [by eapply Ht|].
  pose proof (layout_handlers _ _ _ Hl i (exec_took _ _ _ _ _ _ E Hin)). lia.
Qed.

Lemma heard_run cfg s0 tr s :
  len (nodes cfg) < usize_mod → new cfg = Val s0 → run s0 tr s →
  heard (len (nodes cfg)) tr s ∧ delivered tr s.
Proof.
  intros Hn Hnew. induction 1 as [|tr s e s' ls _ [IHh IHd] E].
  - split; [split; [by apply layout_new|by intros ? ? ?%elem_of_nil]|by eapply delivered_new].
  - split; [by eapply heard_exec|by eapply delivered_exec].
Qed.

(** C11.  A leader that is the first server of the configuration is never heard.  If only
    the server at index 0 speculates, nothing is ever confirmed, and no client gets an answer
    to a request. *)
Theorem leader_at_index_0_is_never_heard cfg s0 tr s :
  len (nodes cfg) < usize_mod → new cfg = Val s0 → run s0 tr s →
  (∀ j m, ReadFrom j m ∈ tr → speculative m = true → j = 0) →
  ∀ i j a, Confirmed i j a ∉ tr.
Proof.
  intros Hn Hnew Hr Hspec i j a Hin.
  pose proof (counts_run _ _ _ _ (counts_new _ _ Hnew) Hr) as Hc.
  destruct (counts_settled _ _ _ Hc _ i a Hin (conj eq_refl eq_refl)) as (_ & _ & (k & b & x & Hk & _ & Hx)).
  destruct (heard_run _ _ _ _ Hn Hnew Hr) as [Hh Hd].
  apply (heard_took _ _ _ Hh k b Hk). apply (Hspec k (ack_message b)).
  - by apply (delivered_took _ _ Hd).
  - unfold ack_message. cbn. by rewrite Hx.
Qed.

(** *** Back pressure

    The channel of the first server fills up, because nobody reads it.  Its actor then waits for
    room in it forever, and stops taking messages from the handlers. *)

Definition to_first (l : label) : bool :=
  match l with Forwarded _ 0 _ | Confirmed _ 0 _ => true | _ => false end.
Definition sent_to_first tr : N := len (List.filter to_first tr).

(** The actor of the first server waits for room, and has [k] messages to write to its server. *)
Definition stuck (k : N) s : Prop :=
  (∃ q, to_handler s !! 0 = Some q ∧ NETWORK_BATCH_SIZE ≤ len q) ∧
  (∃ m, actors s !! 0 = Some (Delivering m)) ∧
  (∃ q, to_actor s !! 0 = Some q ∧ len q = k) ∧ k ≤ NETWORK_BATCH_SIZE.

Lemma stuck_frame k s s' :
  stuck k s → to_handler s' !! 0 = to_handler s !! 0 → actors s' !! 0 = actors s !! 0 →
  to_actor s' !! 0 = to_actor s !! 0 → stuck k s'.
Proof. unfold stuck. by intros ? -> -> ->. Qed.

Lemma stuck_send j m k s s1 l :
  stuck k s → send_to_actor j m s = SentOk s1 → to_first l = (j =? 0) →
  stuck (k + sent_to_first [l]) s1.
Proof.
  intros (Hh & Ha & (q & Hq & Hk) & Hle). unfold send_to_actor, sent_to_first. cbn. intros E ->.
  destruct (to_actor s !! j) as [qj|] eqn:Ej; [|done].
  destruct (N.ltb_spec (len qj) NETWORK_BATCH_SIZE) as [Hlt|]; [|done]. injection E as <-.
  split_and!; [done|done|..]; cbn.
  - destruct (N.eqb_spec j 0) as [->|Hne].
    + rewrite lookup_insert_eq. eexists; split; [done|]. rewrite Hq in Ej. injection Ej as <-.
      autorewrite with len. lia.
    + rewrite lookup_insert_ne by done. exists q. split; [done|]. autorewrite with len. lia.
  - destruct (N.eqb_spec j 0) as [->|Hne]; autorewrite with len; [|lia].
    rewrite Hq in Ej. injection Ej as <-. lia.
Qed.

Lemma stuck_handler_step n tr k i ok s s' ls :
  layout n tr s → stuck k s → handler_step i ok s = Some (s', ls) →
  stuck (k + sent_to_first ls) s'.
Proof.
  intros Hl Hs. unfold handler_step. destruct (handlers s !! i) as [h|] eqn:Eh; [|done].
  assert (Hi : i ≠ 0).
  { pose proof (layout_handlers _ _ _ Hl i ltac:(by rewrite Eh)). lia. }
  assert (Hsame : ∀ ls, sent_to_first ls = 0 → stuck (k + sent_to_first ls) s)
    by (intros ? ->; by rewrite N.add_0_r).
  assert (Hgo : ∀ h' s1 ls, stuck (k + sent_to_first ls) s1 →
    stuck (k + sent_to_first ls) (go i h' s1)) by (intros; by eapply stuck_frame).
  assert (Hstop : ∀ ls, sent_to_first ls = 0 → stuck (k + sent_to_first ls) (stop i s)).
  { intros l Hl0. apply Hgo. eapply stuck_frame; [by apply Hsame|..]; [|done..]. cbn.
    by rewrite lookup_delete_ne. }
  destruct h as [|[|j todo] m|a info|a info|[|j todo] a info|a info|a|ts|]; cbn.
  - unfold receive. destruct (to_handler s !! i) as [[|m rest]|] eqn:Eq; [done| |done].
    assert (Hr : ∀ ls d, sent_to_first ls = 0 → stuck (k + sent_to_first ls)
      (s <| to_handler ::= <[i := rest]> |> <| db := d |>)).
    { intros l d Hl0. eapply stuck_frame; [by apply Hsame|..]; [|done..]. cbn.
      by rewrite lookup_insert_ne. }
    destruct m as [id|id r|cmd hash suspect idx|ts]; cbn;
      [..|destruct (count_ack _ _)|]; intros [= <- <-];
      try (by apply (Hr _ (db s))); try (apply Hgo; by apply Hr).
    apply Hgo. eapply stuck_frame; [by apply (Hr _ (db s))|..]; [|done..]. cbn.
    by rewrite lookup_delete_ne.
  - intros [= <- <-]. by apply Hgo, Hsame.
  - destruct (send_to_actor j m s) as [s1| |] eqn:Es; intros [= <- <-];
      [|by apply Hgo, Hsame]. apply Hgo. eapply stuck_send; [done..|]. by destruct j.
  - intros [= <- <-]. apply Hgo. eapply stuck_frame; [by apply Hsame|done..].
  - destruct (_ && _); intros [= <- <-]; by apply Hgo, Hsame.
  - intros [= <- <-]. by apply Hgo, Hsame.
  - destruct (send_to_actor _ _ s) as [s1| |] eqn:Es; intros [= <- <-];
      [|by apply Hstop]. apply Hgo. eapply stuck_send; [done..|]. by destruct j.
  - destruct ok; intros [= <- <-]; [by apply Hgo, Hsame|by apply Hstop].
  - intros [= <- <-]. apply Hgo. eapply stuck_frame; [by apply Hsame|done..].
  - destruct ok; intros [= <- <-]; [by apply Hgo, Hsame|by apply Hstop].
  - done.
Qed.

Lemma stuck_exec n tr k e s s' ls :
  n < usize_mod → layout n tr s → stuck k s → exec e s = Some (s', ls) →
  stuck (k + sent_to_first ls) s'.
Proof.
  intros Hn Hl Hs. destruct (running s) eqn:Hr; [|unfold exec; by rewrite Hr].
  assert (Hsame : stuck (k + 0) s) by by rewrite N.add_0_r.
  destruct (match e with EAccept => true | _ => false end) eqn:He.
  { destruct e; try done. rewrite (accept_spec n tr s Hn Hl Hr).
    destruct (_ <? _); intros [= <- <-]; by eapply stuck_frame. }
  pose proof Hs as (Hh & (m0 & Ha) & _ & _).
  assert (Hact : ∀ j h h' s1, actors s !! j = Some h → h ≠ Delivering m0 → stuck (k + 0) s1 →
    stuck (k + 0) (set_actor j h' s1)).
  { intros j h h' s1 Ej Hne Hs1. eapply stuck_frame; [done|done| |done]. cbn.
    apply lookup_insert_ne. intros ->. congruence. }
  unfold exec. rewrite Hr. cbn [negb]. cbv iota. destruct e; try done; clear He.
  - destruct (handlers s !! i) as [[]|]; try done. intros [= <- <-]. by eapply stuck_frame.
  - destruct (handlers s !! i) as [[]|] eqn:Eh; try done. intros [= <- <-].
    eapply stuck_frame; [done| |done..]. cbn. apply lookup_delete_ne.
    pose proof (layout_handlers _ _ _ Hl i ltac:(by rewrite Eh)). lia.
  - by eapply stuck_handler_step.
  - destruct (actors s !! j) as [[]|] eqn:Ej; try done. intros [= <- <-]. by eapply Hact.
  - destruct (actors s !! j) as [[]|] eqn:Ej; try done.
    destruct (to_actor s !! j) as [[|m' rest]|] eqn:Eq; try done.
    assert (Hj : j ≠ 0) by (intros ->; congruence).
    assert (Hs1 : stuck (k + 0) (s <| to_actor ::= <[j := rest]> |>)).
    { eapply stuck_frame; [done..|]. cbn. by rewrite lookup_insert_ne. }
    destruct socket_ok; intros [= <- <-]; [done|by eapply Hact].
  - destruct (actors s !! j) as [[]|] eqn:Ej; try done. destruct m; intros [= <- <-]; by eapply Hact.
  - destruct (actors s !! j) as [[| |m]|] eqn:Ej; try done.
    assert (Hj : j = 0 → ∃ q, to_handler s !! j = Some q ∧ NETWORK_BATCH_SIZE ≤ len q)
      by by intros ->.
    assert (Hj0 : j ≠ 0 → ∀ s1, stuck (k + 0) s1 → stuck (k + 0) (set_actor j Connected s1)).
    { intros Hne s1 Hs1. eapply stuck_frame; [done|done| |done]. cbn. by apply lookup_insert_ne. }
    destruct (to_handler s !! j) as [rest|] eqn:Eq.
    + destruct (N.ltb_spec (len rest) NETWORK_BATCH_SIZE) as [Hlt|]; [|done]. intros [= <- <-].
      apply Hj0; [intros ->; destruct (Hj eq_refl) as (q & [= <-] & ?); lia|].
      eapply stuck_frame; [done| |done..]. cbn. apply lookup_insert_ne. intros ->.
      destruct (Hj eq_refl) as (q & [= <-] & ?). lia.
    + intros [= <- <-]. apply Hj0; [|done]. intros ->. by destruct (Hj eq_refl) as (q & ? & _).
Qed.

(** C29.  Back pressure stalls the proxy.  Once the channel of the first server is full and its actor has
    read one more message, the handlers together send at most as many further messages to this
    server as its other channel has room for, in every continuation; a handler sends each message
    to every server, so they all stop. *)
Theorem unread_server_stalls_the_proxy cfg s0 tr s tr' s' k :
  len (nodes cfg) < usize_mod → new cfg = Val s0 → run s0 tr s → stuck k s → run s tr' s' →
  k + sent_to_first tr' ≤ NETWORK_BATCH_SIZE ∧ stuck (k + sent_to_first tr') s'.
Proof.
  intros Hn Hnew Hr Hs Hr'. enough (Hst : stuck (k + sent_to_first tr') s').
  { split; [apply Hst|done]. }
  enough (layout (len (nodes cfg)) (tr ++ tr') s' ∧ stuck (k + sent_to_first tr') s') by tauto.
  induction Hr' as [|tr' s1 e s' ls _ [IHl IHs] E].
  - rewrite app_nil_r. split; [by eapply layout_run|]. by rewrite N.add_0_r.
  - split; [rewrite app_assoc; by eapply layout_exec|].
    replace (k + sent_to_first (tr' ++ ls)) with (k + sent_to_first tr' + sent_to_first ls)
      by (unfold sent_to_first; rewrite List.filter_app, len_app; lia).
    by eapply stuck_exec.
Qed.
End first_server.

(** ** One acknowledgement, undisturbed *)

Section undisturbed.
Context `{Build, KeysIter, !KeysIterLaws}.
Import Proxy.
Implicit Types s : Proxy.t.

(** The handler of connection [i] takes [n] steps in a row. *)
Definition handler_runs (i : N) (n : nat) s s' (ls : list label) : Prop :=
  exec_all (replicate n (EHandler i true)) s = Some (s', ls).

Lemma runs_done i s : handler_runs i 0 s s [].
Proof. done. Qed.
Lemma runs_step i n s s1 s2 l1 l2 :
  running s = true → handler_step i true s = Some (s1, l1) → handler_runs i n s1 s2 l2 →
  handler_runs i (S n) s s2 (l1 ++ l2).
Proof.
  unfold handler_runs. intros Hr E1 E2. cbn [replicate exec_all].
  unfold exec at 1. rewrite Hr. cbn [negb]. cbv iota. rewrite E1. cbn. by rewrite E2.
Qed.
Lemma runs_app i n1 n2 s s1 s2 l1 l2 :
  handler_runs i n1 s s1 l1 → handler_runs i n2 s1 s2 l2 → handler_runs i (n1 + n2) s s2 (l1 ++ l2).
Proof.
  unfold handler_runs. revert s l1. induction n1 as [|n1 IH]; intros s l1; cbn.
  - by intros [= <- <-].
  - destruct (exec (EHandler i true) s) as [[s' l']|]; [|done]. cbn.
    destruct (exec_all (replicate n1 _) s') as [[s'' l'']|] eqn:E; [|done]. cbn.
    intros [= <- <-] E2. rewrite (IH s' l'' E E2). cbn. by rewrite app_assoc.
Qed.

(** Every channel to an actor has room. *)
Definition roomy (q : list ClientMessage.t) : Prop := len q < NETWORK_BATCH_SIZE.

(** Sending a confirmation to all servers of [todo]. *)
Lemma runs_confirm i a info todo s :
  running s = true → handlers s !! i = Some (Confirming todo a info) → NoDup todo →
  (∀ j, j ∈ todo → ∃ q, to_actor s !! j = Some q ∧ roomy q) →
  ∃ s', handler_runs i (length todo) s s' ((λ j, Confirmed i j a) <$> todo) ∧
    handlers s' !! i = Some (Confirming [] a info) ∧ running s' = true ∧
    db s' = db s ∧ to_handler s' = to_handler s ∧
    ∀ j, to_actor s' !! j = (if decide (j ∈ todo)
      then (λ q, q ++ [ClientMessage.Ack (ack_cmd a) (ack_idx a)]) <$> to_actor s !! j
      else to_actor s !! j).
Proof.
  revert s. induction todo as [|j todo IH]; intros s Hr Hh Hnd Hroom.
  { exists s. split_and!; try done. }
  apply NoDup_cons in Hnd as [Hj Hnd]. destruct (Hroom j) as (q & Hq & Hlen); [by left|].
  set (m := ClientMessage.Ack (ack_cmd a) (ack_idx a)).
  set (s1 := go i (Confirming todo a info) (s <| to_actor ::= <[j := q ++ [m]]> |>)).
  destruct (IH s1) as (s' & Hruns & Hh' & Hr' & Hdb & Hto & Hact); try done.
  { cbn. apply lookup_insert_eq. }
  { intros k Hk. cbn. rewrite lookup_insert_ne by (intros ->; done). apply Hroom. by right. }
  exists s'. split_and!; try done.
  - cbn [length fmap list_fmap]. change (Confirmed i j a :: ?l) with ([Confirmed i j a] ++ l).
    eapply runs_step; [done| |exact Hruns]. unfold handler_step. rewrite Hh.
    unfold send_to_actor. rewrite Hq. fold m. unfold roomy in Hlen.
    by rewrite (proj2 (N.ltb_lt _ _) Hlen).
  - intros k. rewrite Hact. subst s1. cbn. destruct (decide (k = j)) as [->|Hne].
    + rewrite lookup_insert_eq, decide_False by done. rewrite decide_True by by left.
      by rewrite Hq.
    + rewrite lookup_insert_ne by done. repeat case_decide; set_solver.
Qed.

(** What a handler that is not disturbed makes of the stored counter. *)
Definition next_info (stored : option ack_info) (suspect : option (option (option string))) :
    ack_info :=
  match stored with
  | Some (n, Some spec) => (n + 1, Some spec)
  | Some (n, None) => (n + 1, suspect)
  | None => (1, suspect)
  end.
Definition confirms (q : N) (info : ack_info) : bool :=
  (q <=? info.1) && bool_decide (is_Some info.2).

Lemma count_ack_next stored suspect :
  (∀ info, stored = Some info → info.1 + 1 < usize_mod) →
  count_ack stored suspect = Val (next_info stored suspect).
Proof.
  intros Hb. unfold count_ack. destruct stored as [[n [spec|]]|]; [..|done];
    rewrite wadd_exact; try done; by apply (Hb _ eq_refl).
Qed.

Lemma elem_of_servers s j : j ∈ servers s ↔ is_Some (to_actor s !! j).
Proof. unfold servers. by rewrite keys_iter_elements, elem_of_elements, elem_of_dom. Qed.
Lemma servers_nodup s : NoDup (servers s).
Proof. unfold servers. rewrite keys_iter_elements. apply NoDup_elements. Qed.

(** The acknowledgement is taken, counted and stored. *)
Definition stored_state (i : N) (a : ack) (q : list ServerMessage.t) (info : ack_info) s : Proxy.t :=
  go i (Stored a info) (go i (Counted a info) (s <| to_handler ::= <[i := q]> |>)
    <| db ::= λ d, d <| ProxyDatabase.db ::= <[ack_hash a := info]> |> |>).

Lemma runs_count i a q s :
  running s = true → handlers s !! i = Some Idle → to_handler s !! i = Some (ack_message a :: q) →
  (∀ info, ProxyDatabase.db (db s) !! ack_hash a = Some info → info.1 + 1 < usize_mod) →
  handler_runs i 2 s
    (stored_state i a q (next_info (ProxyDatabase.db (db s) !! ack_hash a) (ack_suspect a)) s)
    [Took i a].
Proof.
  intros Hr Hh Hq Hb. set (info := next_info _ _).
  change [Took i a] with ([Took i a] ++ ([] ++ [])).
  eapply (runs_step _ _ _ (go i (Counted a info) (s <| to_handler ::= <[i := q]> |>))); [done|..].
  - unfold handler_step. rewrite Hh. unfold receive. rewrite Hq. destruct a as [cmd hash suspect idx].
    cbn in *. replace (match ProxyDatabase.db (db s) !! hash with Some stored => Some stored
      | None => None end) with (ProxyDatabase.db (db s) !! hash) by by destruct (_ !! hash).
    by rewrite count_ack_next.
  - eapply runs_step; [done| |apply runs_done]. unfold handler_step. cbn.
    by rewrite lookup_insert_eq.
Qed.

(** From the stored counter on: nothing more, or the confirmations, the reply and the deletion. *)
Lemma runs_no_quorum i a info s :
  running s = true → handlers s !! i = Some (Stored a info) →
  confirms (ProxyDatabase.quorum (db s)) info = false → handler_runs i 1 s (go i Idle s) [].
Proof.
  intros Hr Hh Hc. change (@nil label) with (@nil label ++ []).
  eapply runs_step; [done| |apply runs_done]. unfold handler_step. rewrite Hh.
  unfold confirms in Hc. by rewrite Hc.
Qed.

Lemma runs_quorum i a info s :
  running s = true → handlers s !! i = Some (Stored a info) →
  confirms (ProxyDatabase.quorum (db s)) info = true →
  (∀ j q', to_actor s !! j = Some q' → roomy q') →
  ∃ n s', handler_runs i n s s'
      (((λ j, Confirmed i j a) <$> servers s) ++ [Replied i (ack_message a)]) ∧
    handlers s' !! i = Some Idle ∧ to_handler s' = to_handler s ∧
    ProxyDatabase.db (db s') = delete (ack_hash a) (ProxyDatabase.db (db s)) ∧
    to_actor s' = (λ q, q ++ [ClientMessage.Ack (ack_cmd a) (ack_idx a)]) <$> to_actor s.
Proof.
  intros Hr Hh Hc Hroom. set (s3 := go i (Confirming (servers s) a info) s).
  destruct (runs_confirm i a info (servers s) s3) as (s4 & H4 & Hh4 & Hr4 & Hdb & Hto & Hact);
    [done|apply lookup_insert_eq|apply servers_nodup| |].
  { intros j [q' Hq']%elem_of_servers. eexists. split; [exact Hq'|]. by apply (Hroom j). }
  set (s5 := go i (Replying a info) s4). set (s6 := go i (Deleting a) s5).
  set (s7 := go i Idle (s6 <| db ::= λ d, d <| ProxyDatabase.db ::= delete (ack_hash a) |> |>)).
  exists (1 + (length (servers s) + 3))%nat, s7. split_and!.
  - change (?l ++ ?r) with ([] ++ (l ++ r)).
    eapply (runs_step _ _ _ s3); [done| |eapply runs_app; [exact H4|]].
    + unfold handler_step. rewrite Hh. unfold confirms in Hc. by rewrite Hc.
    + change [Replied i (ack_message a)] with
        ([] ++ ([Replied i (ack_message a)] ++ ([] ++ @nil label))).
      eapply (runs_step _ _ _ s5); [done|unfold handler_step; by rewrite Hh4|].
      eapply (runs_step _ _ _ s6); [done|unfold handler_step; cbn; by rewrite lookup_insert_eq|].
      eapply (runs_step _ _ _ s7); [done|unfold handler_step; cbn; by rewrite lookup_insert_eq|].
      apply runs_done.
  - apply lookup_insert_eq.
  - exact Hto.
  - cbn. by rewrite Hdb.
  - apply map_eq. intros j. rewrite lookup_fmap. etrans; [apply Hact|].
    case_decide as Hd; [done|]. rewrite elem_of_servers in Hd. apply eq_None_not_Some in Hd.
    cbn. by rewrite Hd.
Qed.

(** C10.  Counting, undisturbed.  A handler that waits, with an acknowledgement next in its
    channel and room in the channels to the servers, gets back to waiting.  If no other task
    interferes, the counter of the hash is one higher, or 1 for a new hash, and the first
    speculation is kept.  If this makes a quorum with a speculation, every server gets exactly one
    confirmation, the client gets the acknowledgement, and the hash is forgotten; otherwise nothing
    is sent. *)
Theorem undisturbed_ack_is_counted i a q s :
  running s = true → handlers s !! i = Some Idle → to_handler s !! i = Some (ack_message a :: q) →
  (∀ info, ProxyDatabase.db (db s) !! ack_hash a = Some info → info.1 + 1 < usize_mod) →
  (∀ j q', to_actor s !! j = Some q' → roomy q') →
  let info := next_info (ProxyDatabase.db (db s) !! ack_hash a) (ack_suspect a) in
  ∃ n s' ls, handler_runs i n s s' ls ∧
    handlers s' !! i = Some Idle ∧ to_handler s' = <[i := q]> (to_handler s) ∧
    if confirms (ProxyDatabase.quorum (db s)) info
    then ProxyDatabase.db (db s') = delete (ack_hash a) (ProxyDatabase.db (db s)) ∧
         to_actor s' = (λ q, q ++ [ClientMessage.Ack (ack_cmd a) (ack_idx a)]) <$> to_actor s ∧
         ls = [Took i a] ++ ((λ j, Confirmed i j a) <$> servers s) ++ [Replied i (ack_message a)]
    else ProxyDatabase.db (db s') = <[ack_hash a := info]> (ProxyDatabase.db (db s)) ∧
         to_actor s' = to_actor s ∧ ls = [Took i a].
Proof.
  intros Hr Hh Hq Hb Hroom info. pose proof (runs_count i a q s Hr Hh Hq Hb) as H2.
  fold info in H2. set (s2 := stored_state i a q info s) in *.
  assert (Hh2 : handlers s2 !! i = Some (Stored a info)) by apply lookup_insert_eq.
  destruct (confirms (ProxyDatabase.quorum (db s)) info) eqn:Ec.
  - destruct (runs_quorum i a info s2) as (n & s' & H4 & Hh4 & Hto & Hdb & Hact); [done..|].
    exists (2 + n)%nat, s'. eexists. split_and!; [by eapply runs_app|done..| |done|done].
    rewrite Hdb. cbn. apply delete_insert_eq.
  - exists (2 + 1)%nat, (go i Idle s2), ([Took i a] ++ []).
    split_and!; try done; [|apply lookup_insert_eq].
    eapply runs_app; [exact H2|]. by eapply runs_no_quorum.
Qed.
End undisturbed.
