(* ===== verification/System.v ===== *)
(** * The proxy and the replicas together

    What the proxy confirms is in the logs of a quorum of replicas, at the same position after the
    same commands.  This composes the counting of the proxy (Proxy.v) with what the replicas put
    into their acknowledgements (Replica.v, Acks.v); the servers hand the acknowledgements on, and
    the network may lose and reorder them. *)

From S2P Require Import Prelude Util Ballots Config Time StorageApi InternalStorage Messages Ble.
From S2P Require Import Collections Clock Buffers SequencePaxos Replica Acks Kv Proxy.

(** ** Every acknowledgement that the proxy takes is one that it has read *)

Section accounted.
Context `{Build, KeysIter}.
Import Proxy.
Implicit Types s : Proxy.t.
Implicit Types tr ls : list label.

Definition took_by (i : N) (l : label) : option ServerMessage.t :=
  match l with Took k a => if k =? i then Some (ack_message a) else None | _ => None end.
Definition read_by (i : N) (l : label) : option ServerMessage.t :=
  match l with ReadFrom k m => if k =? i then Some m else None | _ => None end.

(** What is on its way from the socket of a server to the handler. *)
Definition delivering (i : N) s : list ServerMessage.t :=
  match actors s !! i with Some (Delivering m) => [m] | _ => [] end.
Definition queued (i : N) s : list ServerMessage.t := default [] (to_handler s !! i).
Definition flight (i : N) s : list ServerMessage.t := queued i s ++ delivering i s.

Definition accounted tr s : Prop := ∀ i,
  omap (took_by i) tr ++ flight i s ⊆+ omap (read_by i) tr.
Definition balanced s ls s' : Prop := ∀ i,
  omap (took_by i) ls ++ flight i s' ⊆+ flight i s ++ omap (read_by i) ls.

Lemma accounted_step tr s ls s' :
  accounted tr s → balanced s ls s' → accounted (tr ++ ls) s'.
Proof.
  intros Ha Hb i. rewrite !omap_app, <-app_assoc. etrans; [apply submseteq_app; [reflexivity|apply Hb]|].
  rewrite app_assoc. by apply submseteq_app.
Qed.

(** Nothing new is under way. *)
Lemma balanced_frame s ls s' :
  actors s' = actors s → (∀ i, queued i s' ⊆+ queued i s) →
  (∀ i, omap (took_by i) ls = []) → balanced s ls s'.
Proof.
  intros Ea Hq Hl i. rewrite Hl. cbn. unfold flight, delivering. rewrite Ea.
  rewrite <-app_assoc. apply submseteq_app; [apply Hq|]. by apply submseteq_inserts_r.
Qed.

Lemma queued_delete i s k :
  default [] (delete k (to_handler s) !! i) ⊆+ queued i s.
Proof.
  unfold queued. destruct (decide (k = i)) as [->|Hk].
  - rewrite lookup_delete_eq. apply submseteq_nil_l.
  - by rewrite lookup_delete_ne.
Qed.

Lemma balanced_receive i s s' ls : receive i s = Some (s', ls) → balanced s ls s'.
Proof.
  unfold receive. destruct (to_handler s !! i) as [[|m rest]|] eqn:Eq; [done| |done].
  assert (Hq : ∀ k, queued k s =
    (if i =? k then [m] else []) ++ default [] (<[i:=rest]> (to_handler s) !! k)).
  { intros k. unfold queued. destruct (N.eqb_spec i k) as [->|Hk].
    - by rewrite Eq, lookup_insert_eq.
    - by rewrite lookup_insert_ne. }
  assert (Hle : ∀ k, default [] (<[i:=rest]> (to_handler s) !! k) ⊆+ queued k s).
  { intros k. rewrite Hq. by apply submseteq_inserts_l. }
  destruct m as [id|id r|cmd hash suspect idx|ts]; cbn;
    [intros [= <- <-]; by apply balanced_frame..| |intros [= <- <-]; by apply balanced_frame].
  assert (Hmap : ∀ k, omap (took_by k) [Took i (mkAck cmd hash suspect idx)] =
    if i =? k then [ServerMessage.Ack cmd hash suspect idx] else []).
  { intros k. cbn. by destruct (i =? k). }
  destruct (count_ack _ _); intros [= <- <-] k; rewrite Hmap; unfold flight, delivering, queued;
    cbn [actors to_handler go stop settable_to_handler settable_handlers settable_db settable_actors];
    cbn; rewrite app_nil_r.
  - fold (queued k s). rewrite Hq, <-app_assoc. done.
  - fold (queued k s). rewrite Hq, <-app_assoc. apply submseteq_app; [done|].
    apply submseteq_app; [|done]. destruct (decide (i = k)) as [->|Hk].
    + rewrite lookup_delete_eq. apply submseteq_nil_l.
    + by rewrite lookup_delete_ne.
Qed.

Lemma balanced_handler_step i ok s s' ls :
  handler_step i ok s = Some (s', ls) → balanced s ls s'.
Proof.
  unfold handler_step. destruct (handlers s !! i) as [h|]; [|done].
  assert (Hgo : ∀ s1 h' l, actors s1 = actors s → to_handler s1 = to_handler s →
    (∀ k, took_by k l = None) → balanced s [l] (go i h' s1)).
  { intros s1 h' l Ea Eq Hl. apply balanced_frame; [done| |].
    - intros k. unfold queued. cbn. by rewrite Eq.
    - intros k. cbn. by rewrite Hl. }
  assert (Hnil : ∀ s1 h', actors s1 = actors s → to_handler s1 = to_handler s →
    balanced s [] (go i h' s1)).
  { intros s1 h' Ea Eq. apply balanced_frame; [done| |done]. intros k. unfold queued. cbn. by rewrite Eq. }
  assert (Hstop : balanced s [] (stop i s)).
  { apply balanced_frame; [done| |done]. intros k. apply queued_delete. }
  assert (Hsend : ∀ j m s1 h' l, send_to_actor j m s = SentOk s1 → (∀ k, took_by k l = None) →
    balanced s [l] (go i h' s1)).
  { intros j m s1 h' l Es Hl. destruct (send_frame _ _ _ _ Es) as (_ & _ & _ & E4 & E5 & _).
    by apply Hgo. }
  destruct h as [|[|j todo] m|a info|a info|[|j todo] a info|a info|a|ts|]; cbn.
  - apply balanced_receive.
  - intros [= <- <-]. by apply Hnil.
  - destruct (send_to_actor j m s) as [s1| |] eqn:Es; intros [= <- <-]; [|by apply Hnil].
    by eapply Hsend.
  - intros [= <- <-]. by apply Hnil.
  - destruct (_ && _); intros [= <- <-]; by apply Hnil.
  - intros [= <- <-]. by apply Hnil.
  - destruct (send_to_actor _ _ s) as [s1| |] eqn:Es; intros [= <- <-]; [|done]. by eapply Hsend.
  - destruct ok; intros [= <- <-]; [by apply Hgo|done].
  - intros [= <- <-]. by apply Hnil.
  - destruct ok; intros [= <- <-]; [by apply Hgo|done].
  - done.
Qed.

(** An actor moves; nothing else changes. *)
Lemma balanced_actor j x m ls s s1 :
  actors s1 = actors s → to_handler s1 = to_handler s →
  (∀ i, omap (took_by i) ls = []) →
  (match x with Delivering m' => [m'] | _ => [] end) = m →
  (∀ i, omap (read_by i) ls = if j =? i then m else []) →
  balanced s ls (set_actor j x s1).
Proof.
  intros Ea Eq Ht Hx Hr i. rewrite Ht, Hr. cbn. unfold flight, delivering, queued. cbn.
  rewrite Ea, Eq.
  destruct (N.eqb_spec j i) as [->|Hj].
  - rewrite lookup_insert_eq, <-app_assoc, <-Hx. apply submseteq_app; [done|].
    by apply submseteq_inserts_l.
  - rewrite lookup_insert_ne by done. by rewrite app_nil_r.
Qed.

Lemma balanced_exec e s s' ls : exec e s = Some (s', ls) → balanced s ls s'.
Proof.
  assert (Hact : ∀ j x s1, (match x with Delivering m => False | _ => True end) →
    actors s1 = actors s → to_handler s1 = to_handler s → balanced s [] (set_actor j x s1)).
  { intros j x s1 Hx Ea Eq. apply (balanced_actor j x []); [done..|by destruct x|].
    intros k. by destruct (j =? k). }
  unfold exec. destruct (negb (running s)); [done|]. destruct e.
  - destruct (wadd usize_mod (counter s) 1) as [c|f];
      [cbv zeta; case_bool_decide|]; intros [= <- <-]; by apply balanced_frame.
  - destruct (handlers s !! i) as [[]|]; try done. intros [= <- <-]. by apply balanced_frame.
  - destruct (handlers s !! i) as [[]|]; try done. intros [= <- <-]. apply balanced_frame; [done| |done].
    intros k. apply queued_delete.
  - apply balanced_handler_step.
  - destruct (actors s !! j) as [[]|]; try done. intros [= <- <-]. by apply (Hact j).
  - destruct (actors s !! j) as [[]|]; try done. destruct (to_actor s !! j) as [[|m' rest]|]; try done.
    destruct socket_ok; intros [= <- <-]; [by apply balanced_frame|by apply (Hact j)].
  - destruct (actors s !! j) as [[]|]; try done. destruct m as [m|]; intros [= <- <-].
    + apply (balanced_actor j _ [m]); [done..|]. intros k. cbn. by destruct (j =? k).
    + by apply (Hact j).
  - destruct (actors s !! j) as [[| |m]|] eqn:Ea; try done.
    destruct (to_handler s !! j) as [rest|] eqn:Eq; [destruct (_ <? _); [|done]|]; intros [= <- <-].
    + intros k. unfold flight, delivering, queued. cbn. rewrite app_nil_r.
      destruct (decide (j = k)) as [->|Hk].
      * by rewrite !lookup_insert_eq, Ea, Eq, app_nil_r.
      * by rewrite !lookup_insert_ne.
    + by apply (Hact j).
Qed.

Lemma accounted_run cfg s0 tr s : new cfg = Val s0 → run s0 tr s → accounted tr s.
Proof.
  intros Hnew. induction 1 as [|tr s e s' ls _ IH E].
  - intros i. revert Hnew. unfold new. destruct (wsub _ _ _) as [q|f]; [|done]. intros [= <-].
    unfold flight, queued, delivering. cbn.
    match goal with |- default [] ?o ++ _ ⊆+ _ => destruct o as [x|] eqn:Ex end;
      [apply list_to_map_const in Ex as ->|];
      (match goal with |- context [match ?o with _ => _ end] => destruct o as [y|] eqn:Ey end;
        [apply list_to_map_const in Ey as ->|]); done.
  - eapply accounted_step; [done|]. by eapply balanced_exec.
Qed.
End accounted.

(** ** Distinct servers *)

(** The server whose acknowledgement of a hash was taken. *)
Definition taker (h : N) (l : Proxy.label) : option N :=
  match l with Proxy.Took i a => if ack_hash a =? h then Some i else None | _ => None end.
Definition ack_with (h : N) (m : ServerMessage.t) : option N :=
  match m with
  | ServerMessage.Ack _ hash _ idx => if hash =? h then Some idx else None
  | _ => None
  end.

Lemma took_takers (tr : list Proxy.label) h : took tr h = len (omap (taker h) tr).
Proof.
  unfold took. induction tr as [|l tr IH]; [done|].
  destruct l as [| i a | | | | |]; try exact IH. cbn. destruct (_ =? h); [|exact IH].
  rewrite !len_cons. by rewrite IH.
Qed.

Lemma taker_elem (tr : list Proxy.label) h i : i ∈ omap (taker h) tr → ∃ a, Proxy.Took i a ∈ tr ∧ ack_hash a = h.
Proof.
  intros (l & Hin & Hl)%list_elem_of_omap. destruct l as [| k a | | | | |]; try done. cbn in Hl.
  destruct (N.eqb_spec (ack_hash a) h); [|done]. injection Hl as ->. by exists a.
Qed.

Lemma took_by_elem (tr : list Proxy.label) i a : Proxy.Took i a ∈ tr → ack_message a ∈ omap (took_by i) tr.
Proof.
  intros Hin. apply list_elem_of_omap. exists (Proxy.Took i a). split; [done|]. cbn.
  by rewrite N.eqb_refl.
Qed.

(** If no server's acknowledgement of the hash is taken twice, the servers are different. *)
Lemma takers_nodup (tr : list Proxy.label) h :
  (∀ i, (length (omap (ack_with h) (omap (took_by i) tr)) ≤ 1)%nat) → NoDup (omap (taker h) tr).
Proof.
  induction tr as [|l tr IH]; intros Hone; [constructor|].
  assert (Htr : ∀ i, (length (omap (ack_with h) (omap (took_by i) tr)) ≤ 1)%nat).
  { intros i. specialize (Hone i). cbn in Hone. destruct (took_by i l) as [m|]; [|done]. cbn in Hone.
    destruct (ack_with h m); cbn in *; lia. }
  specialize (IH Htr). destruct l as [| i a | | | | |]; try exact IH. cbn.
  destruct (N.eqb_spec (ack_hash a) h) as [Hh|]; [|exact IH]. constructor; [|exact IH].
  intros (b & Hin & Hb)%taker_elem. specialize (Hone i). cbn in Hone. rewrite N.eqb_refl in Hone.
  cbn in Hone. rewrite Hh, N.eqb_refl in Hone. cbn in Hone.
  assert (Hm : ack_idx b ∈ omap (ack_with h) (omap (took_by i) tr)).
  { apply list_elem_of_omap. exists (ack_message b). split; [by apply took_by_elem|]. cbn.
    by rewrite Hb, N.eqb_refl. }
  destruct (omap (ack_with h) (omap (took_by i) tr)); [by apply elem_of_nil in Hm|]. cbn in Hone. lia.
Qed.

Lemma nodup_same {A} (l : list A) : NoDup l → (∀ x y, x ∈ l → y ∈ l → x = y) → (length l ≤ 1)%nat.
Proof.
  intros Hnd Hs. destruct l as [|x [|y l]]; cbn; [lia..|]. exfalso.
  apply NoDup_cons in Hnd as [Hx _]. apply Hx. rewrite (Hs x y); [left|left|right; left].
Qed.

Lemma omap_submseteq {A B} (f : A → option B) (l k : list A) : l ⊆+ k → omap f l ⊆+ omap f k.
Proof.
  intros [r ->]%submseteq_Permutation. rewrite omap_app. by apply submseteq_inserts_r.
Qed.

(** ** The composition *)

Section system.
Context {Sn I : Type} `{Build, KeysIter, StorageApi.Request Command.t, Snapshot Command.t Sn,
  !Storage.t Command.t Sn I, !Storage.Laws Command.t Sn I, !HistoryHash Command.t Sn I, BinaryHeap,
  Oneshot Command.t, Oneshot unit}.
Import Proxy.

Abbreviation Replica := (SequencePaxos.t (InternalStorage.t I Command.t)
  (Buffers.t Command.t (chan Command.t) (chans Command.t)) (Clock.t (chan unit) (chans unit))
  (list (Message Command.t)) (task Command.t (chan Command.t) (chan unit))).

(** What a server makes of a message for the proxy (see [Server.send_outgoing_msgs]). *)
Definition server_ack (m : Message Command.t) : option ServerMessage.t :=
  match m with
  | SequencePaxosMsg p =>
      match msg p with
      | Ack cmd hash spec idx => Some (ServerMessage.Ack cmd hash spec idx)
      | _ => None
      end
  | BLE _ => None
  end.
Definition is_ack (m : ServerMessage.t) : option ServerMessage.t :=
  match m with ServerMessage.Ack _ _ _ _ => Some m | _ => None end.

(** The runs of the replicas behind a proxy, and what of them has reached it. *)
Record behind (n : N) (tr : list label) (final : N → Replica) : Prop := {
  behind_runs k : k < n → ∃ init out, Acks.started init ∧ Acks.sends init out (final k) ∧
    omap is_ack (omap (read_by k) tr) ⊆+ omap server_ack out;
  behind_hash k k' x y : k < n → k' < n →
    x `prefix_of` Replica.log (final k) → y `prefix_of` Replica.log (final k') →
    log_hash x = log_hash y → hashed_part <$> x = hashed_part <$> y
}.

Implicit Types tr : list label.
Implicit Types final : N → Replica.

Lemma ack_with_is_ack h (l : list ServerMessage.t) :
  omap (ack_with h) (omap is_ack l) = omap (ack_with h) l.
Proof.
  induction l as [|m l IH]; [done|]. destruct m; cbn; rewrite ?IH; done.
Qed.

(** What was taken with a hash is among what the replica has sent with it. *)
Lemma taken_was_sent cfg p0 tr p h k (out : list (Message Command.t)) :
  new cfg = Val p0 → run p0 tr p →
  omap is_ack (omap (read_by k) tr) ⊆+ omap server_ack out →
  omap (ack_with h) (omap (took_by k) tr) ⊆+ omap (ack_with h) (omap server_ack out).
Proof.
  intros Hnew Hr Hsent. etrans; [|by apply omap_submseteq].
  rewrite ack_with_is_ack. apply omap_submseteq.
  etrans; [|by eapply (accounted_run _ _ _ _ Hnew Hr k)]. by apply submseteq_inserts_r.
Qed.

Lemma sent_idx h (out : list (Message Command.t)) :
  omap (ack_with h) (omap server_ack out) `sublist_of` omap Acks.msg_idx out.
Proof.
  induction out as [|m out IH]; [constructor|]. destruct m as [[f t [req hash spec idx| | | |]]|];
    cbn; try exact IH. destruct (hash =? h); by constructor.
Qed.

Lemma sent_elem h (out : list (Message Command.t)) idx :
  idx ∈ omap (ack_with h) (omap server_ack out) →
  ∃ m req, m ∈ out ∧ Replica.acks_of m = Some (req, h, idx).
Proof.
  intros (a & (m & Hm & Ha)%list_elem_of_omap & Hidx)%list_elem_of_omap.
  destruct m as [[f t [req hash spec idx'| | | |]]|]; try done. injection Ha as <-. cbn in Hidx.
  destruct (N.eqb_spec hash h) as [->|]; [|done]. injection Hidx as ->. by exists (SequencePaxosMsg
    {| from := f; to := t; msg := Ack req h spec idx |}), req.
Qed.

Lemma taken_once n cfg p0 tr p final k h :
  new cfg = Val p0 → run p0 tr p → behind n tr final → k < n →
  (length (omap (ack_with h) (omap (took_by k) tr)) ≤ 1)%nat.
Proof.
  intros Hnew Hr Hb Hk. destruct (behind_runs _ _ _ Hb k Hk) as (init & out & Hst & Hs & Hsent).
  pose proof (taken_was_sent _ _ _ _ h k _ Hnew Hr Hsent) as Hsub.
  destruct (Acks.started_inv _ Hst) as [Hi Hu].
  pose proof (Acks.unique_nodup _ _ (Acks.unique_sends _ _ _ Hi Hu Hs)) as Hnd.
  apply NoDup_app in Hnd as (Hnd & _ & _). apply nodup_same.
  { eapply Acks.NoDup_submultiset; [exact Hsub|]. eapply Acks.NoDup_submultiset; [apply sublist_submseteq, sent_idx|done]. }
  assert (Htrue : ∀ x, x ∈ omap (ack_with h) (omap (took_by k) tr) →
    1 ≤ x ≤ len (Replica.log (final k)) ∧
    h = log_hash (take (N.to_nat x) (Replica.log (final k)))).
  { intros x Hx. eapply elem_of_submseteq in Hx as (m & req & Hm & Ha)%sent_elem; [|exact Hsub].
    by destruct (Acks.sends_true _ _ _ Hi Hs m req h x Hm Ha) as (? & _ & ?). }
  intros x y [Hx Ex]%Htrue [Hy Ey]%Htrue.
  assert (E : hashed_part <$> take (N.to_nat x) (Replica.log (final k)) =
    hashed_part <$> take (N.to_nat y) (Replica.log (final k))).
  { apply (behind_hash _ _ _ Hb k k); [done..|apply prefix_take|apply prefix_take|congruence]. }
  apply (f_equal length) in E. rewrite !length_fmap, !length_take in E. unfold len in *. lia.
Qed.

(** The servers whose acknowledgement of a hash the proxy has taken. *)
Definition acknowledgers tr (h : N) : gset N := list_to_set (omap (taker h) tr).

Lemma took_in_layout n cfg p0 tr p i a :
  len (nodes cfg) = n → n < usize_mod → new cfg = Val p0 → run p0 tr p → Took i a ∈ tr → i < n.
Proof.
  intros <- Hn Hnew. induction 1 as [|tr s e s' ls Hr IH E]; [by intros ?%elem_of_nil|].
  intros [Hin|Hin]%elem_of_app; [by apply IH|].
  pose proof (layout_run _ _ _ _ Hn Hnew Hr) as Hl.
  pose proof (layout_handlers _ _ _ Hl i (exec_took _ _ _ _ _ _ E Hin)). lia.
Qed.

(** What the proxy has taken has been read from the connection. *)
Lemma took_was_read cfg p0 tr p k b :
  new cfg = Val p0 → run p0 tr p → Took k b ∈ tr →
  ack_message b ∈ omap is_ack (omap (read_by k) tr).
Proof.
  intros Hnew Hr Hk. apply list_elem_of_omap. exists (ack_message b). split; [|done].
  eapply elem_of_submseteq; [|etrans; [|by apply (accounted_run _ _ _ _ Hnew Hr k)];
    by apply submseteq_inserts_r].
  by apply took_by_elem.
Qed.
(** What a replica has handed out for the proxy is true of its log. *)
Lemma sent_is_true init out (r : Replica) b :
  Acks.started init → Acks.sends init out r → ack_message b ∈ omap server_ack out →
  Replica.ack_true (Replica.log r) (ack_cmd b) (ack_hash b) (ack_idx b).
Proof.
  intros [Hinv _]%Acks.started_inv Hs (m & Hm & Ha)%list_elem_of_omap.
  eapply (Acks.sends_true _ _ _ Hinv Hs m); [done|].
  destruct m as [[f t [req hash spec idx'| | | |]]|]; try done. by injection Ha as -> -> -> ->.
Qed.

(** What a taken acknowledgement says of the log of its server. *)
Lemma took_is_true cfg p0 tr p final :
  len (nodes cfg) < usize_mod → new cfg = Val p0 → run p0 tr p → behind (len (nodes cfg)) tr final →
  ∀ k b, Took k b ∈ tr →
    Replica.ack_true (Replica.log (final k)) (ack_cmd b) (ack_hash b) (ack_idx b).
Proof.
  intros Hn Hnew Hr Hb k b Hk. pose proof (took_in_layout _ _ _ _ _ _ _ eq_refl Hn Hnew Hr Hk) as Hlt.
  destruct (behind_runs _ _ _ Hb k Hlt) as (init & out & Hst & Hs & Hsent).
  eapply sent_is_true; [done..|]. eapply elem_of_submseteq; [|exact Hsent]. by eapply took_was_read.
Qed.

(** What the proxy confirms is replicated.  Whatever the proxy, the replicas and the
    network between them do: when the proxy confirms an acknowledgement, there is a set of servers,
    at least as many as the quorum asks for, one of them having acknowledged as leader, whose
    logs all hold the confirmed command at the acknowledged position, and before it the same
    commands as every other log of the set, as far as the history hash has no collisions among
    their prefixes. *)
Theorem confirmed_prefix_is_replicated cfg p0 tr p final l i a :
  len (nodes cfg) < usize_mod → new cfg = Val p0 → run p0 tr p →
  behind (len (nodes cfg)) tr final → l ∈ tr → settles l i a →
  ∃ Q : gset N,
    ProxyDatabase.quorum (db p0) ≤ N.of_nat (size Q) ∧ i ∈ Q ∧
    (∃ k b, k ∈ Q ∧ Took k b ∈ tr ∧ ack_hash b = ack_hash a ∧ is_Some (ack_suspect b)) ∧
    Replica.log (final i) !! N.to_nat (ack_idx a - 1) = Some (ack_cmd a) ∧
    ∀ k, k ∈ Q → k < len (nodes cfg) ∧ 1 ≤ ack_idx a ≤ len (Replica.log (final k)) ∧
      hashed_part <$> take (N.to_nat (ack_idx a)) (Replica.log (final k)) =
      hashed_part <$> take (N.to_nat (ack_idx a)) (Replica.log (final i)).
Proof.
  intros Hn Hnew Hr Hb Hc Hset.
  pose proof (counts_run _ _ _ _ (counts_new _ _ Hnew) Hr) as Hcounts.
  destruct (counts_settled _ _ _ Hcounts l i a Hc Hset) as (Hi & Hq & (lk & lb & x & Hlk & Hlh & Hlx)).
  assert (Hlt : ∀ k b, Took k b ∈ tr → k < len (nodes cfg)) by (intros; by eapply took_in_layout).
  assert (Htrue := took_is_true _ _ _ _ _ Hn Hnew Hr Hb).
  exists (acknowledgers tr (ack_hash a)). split_and!.
  - unfold acknowledgers. rewrite size_list_to_set; [by rewrite took_takers in Hq|].
    apply takers_nodup. intros k. destruct (decide (k < len (nodes cfg))) as [Hk|Hk];
      [by eapply taken_once|].
    assert (omap (took_by k) tr = []) as ->; [|cbn; lia].
    destruct (omap (took_by k) tr) as [|m rest] eqn:E; [done|]. exfalso.
    assert (Hm : m ∈ omap (took_by k) tr) by (rewrite E; left).
    apply list_elem_of_omap in Hm as ([| k' b | | | | |] & Hin & Hm); try done. cbn in Hm.
    destruct (N.eqb_spec k' k) as [->|]; [|done]. by apply Hk, (Hlt k b).
  - apply elem_of_list_to_set, list_elem_of_omap. exists (Took i a). split; [done|]. cbn.
    by rewrite N.eqb_refl.
  - exists lk, lb. split_and!; [|done..|by rewrite Hlx]. apply elem_of_list_to_set, list_elem_of_omap.
    exists (Took lk lb). split; [done|]. cbn. by rewrite Hlh, N.eqb_refl.
  - by apply (Htrue i a).
  - intros k (b & Hk & Hh)%elem_of_list_to_set%taker_elem.
    destruct (Htrue i a Hi) as (Hri & _ & Ehi). destruct (Htrue k b Hk) as (Hrk & _ & Ehk).
    assert (E : hashed_part <$> take (N.to_nat (ack_idx b)) (Replica.log (final k)) =
      hashed_part <$> take (N.to_nat (ack_idx a)) (Replica.log (final i))).
    { apply (behind_hash _ _ _ Hb k i); [by eapply Hlt|by eapply Hlt|apply prefix_take..|congruence]. }
    assert (Eidx : ack_idx b = ack_idx a).
    { apply (f_equal length) in E. rewrite !length_fmap, !length_take in E. unfold len in *. lia. }
    rewrite Eidx in E, Hrk. split_and!; [by eapply Hlt|lia..|done].
Qed.

(** *** One history *)

(** A quorum of the replicas have these commands at the start of their logs. *)
Definition backed (n q : N) final (h : list (CommandId * KVCommand.t)) : Prop :=
  ∃ Q : gset N, q ≤ N.of_nat (size Q) ∧
    ∀ k, k ∈ Q → k < n ∧ h `prefix_of` hashed_part <$> Replica.log (final k).

(** Two quorums have a replica in common. *)
Lemma backed_chain n q final h h' :
  n < 2 * q → backed n q final h → backed n q final h' → h `prefix_of` h' ∨ h' `prefix_of` h.
Proof.
  intros Hq (Q & HQ & Hh) (Q' & HQ' & Hh').
  destruct (decide (Q ∩ Q' = ∅)) as [Hd|(k & [Hk Hk']%elem_of_intersection)%set_choose_L].
  - exfalso. assert (Hsub : Q ∪ Q' ⊆ list_to_set (N.of_nat <$> seq 0 (N.to_nat n))).
    { intros k Hk. apply elem_of_list_to_set, list_elem_of_fmap. exists (N.to_nat k).
      assert (k < n) by (apply elem_of_union in Hk as [?%Hh|?%Hh']; tauto).
      split; [lia|]. apply elem_of_seq. lia. }
    apply subseteq_size in Hsub. rewrite size_union, size_list_to_set in Hsub by
      (done || (apply NoDup_fmap_2; [apply _|apply NoDup_seq])) || set_solver.
    rewrite length_fmap, length_seq in Hsub. lia.
  - destruct (Hh k Hk) as [_ Hp]. destruct (Hh' k Hk') as [_ Hp']. by eapply prefix_weak_total.
Qed.

Lemma ack_message_inj a b : ack_message a = ack_message b → a = b.
Proof. destruct a, b. by intros [= <- <- <- <-]. Qed.
Lemma settles_unique l i a i' a' : settles l i a → settles l i' a' → i' = i ∧ a' = a.
Proof.
  destruct l as [| | |k j b|k m| |]; try done; cbn; [by intros [<- <-] [<- <-]|].
  intros [<- ->] [<- Ha]. split; [done|]. symmetry. by apply ack_message_inj.
Qed.
Lemma settled_dec l : (∃ i a, settles l i a) ∨ ∀ i a, ¬ settles l i a.
Proof.
  destruct l as [| | |k j b|k m| |]; try by (right; intros ? ? []).
  - left. by exists k, b.
  - destruct m as [| |cmd hash suspect idx|]; try by (right; intros ? ? [_ ?]).
    left. by exists k, (mkAck cmd hash suspect idx).
Qed.

(** What a confirmation says of a history. *)
Definition confirmed_in (n q : N) final (h : list (CommandId * KVCommand.t)) (l : label) : Prop :=
  ∀ i a, settles l i a →
    backed n q final (take (N.to_nat (ack_idx a)) h) ∧ 1 ≤ ack_idx a ∧
    h !! N.to_nat (ack_idx a - 1) = Some (hashed_part (ack_cmd a)).

Lemma confirmed_in_prefix n q final h h' l :
  h `prefix_of` h' → confirmed_in n q final h l → confirmed_in n q final h' l.
Proof.
  intros [k ->] Hc i a Hset. destruct (Hc i a Hset) as (Hb & Hi & Hl).
  split_and!; [|done|by apply lookup_app_l_Some]. apply lookup_lt_Some in Hl as Hlt.
  by rewrite take_app_le by lia.
Qed.

Lemma confirmed_here cfg p0 tr p final l :
  len (nodes cfg) < usize_mod → new cfg = Val p0 → run p0 tr p →
  behind (len (nodes cfg)) tr final → l ∈ tr →
  let q := ProxyDatabase.quorum (db p0) in
  ∃ h, (h = [] ∨ backed (len (nodes cfg)) q final h) ∧ confirmed_in (len (nodes cfg)) q final h l.
Proof.
  intros Hn Hnew Hr Hb Hin q. destruct (settled_dec l) as [(i & a & Hset)|Hnone].
  2: { exists []. split; [by left|]. intros i a Hset. by destruct (Hnone i a). }
  destruct (confirmed_prefix_is_replicated _ _ _ _ _ _ _ _ Hn Hnew Hr Hb Hin Hset)
    as (Q & HQ & Hi & _ & Hl & Hall).
  exists (hashed_part <$> take (N.to_nat (ack_idx a)) (Replica.log (final i))).
  destruct (Hall i Hi) as (_ & Hidx & _).
  assert (Hbk : backed (len (nodes cfg)) q final
    (hashed_part <$> take (N.to_nat (ack_idx a)) (Replica.log (final i)))).
  { exists Q. split; [done|]. intros k Hk. destruct (Hall k Hk) as (Hlt & _ & <-).
    split; [done|]. rewrite fmap_take. apply prefix_take. }
  split; [by right|]. intros i' a' Hset'. destruct (settles_unique _ _ _ _ _ Hset Hset') as [-> ->].
  split_and!; [|lia|].
  - rewrite firstn_all2; [done|]. rewrite length_fmap, length_take. lia.
  - rewrite list_lookup_fmap, lookup_take_lt by lia. by rewrite Hl.
Qed.

(** All confirmations are about one history. *)
Lemma confirmed_history cfg p0 tr p final :
  len (nodes cfg) < usize_mod → new cfg = Val p0 → run p0 tr p →
  behind (len (nodes cfg)) tr final → 2 * fault_tolerance cfg < len (nodes cfg) →
  ∃ h, ∀ l, l ∈ tr →
    confirmed_in (len (nodes cfg)) (len (nodes cfg) - fault_tolerance cfg) final h l.
Proof.
  intros Hn Hnew Hr Hb Hf. set (n := len (nodes cfg)) in *. set (q := n - fault_tolerance cfg).
  assert (Hq : ProxyDatabase.quorum (db p0) = q).
  { revert Hnew. unfold new. rewrite wsub_exact by lia. by intros [= <-]. }
  assert (Hhere : ∀ l, l ∈ tr → ∃ h, (h = [] ∨ backed n q final h) ∧ confirmed_in n q final h l).
  { intros l Hl. rewrite <-Hq. by eapply confirmed_here. }
  cut (∃ h, (h = [] ∨ backed n q final h) ∧ ∀ l, l ∈ tr → confirmed_in n q final h l);
    [intros (h & _ & ?); by exists h|].
  clear Hr Hb. induction tr as [|l tr IH].
  { exists []. split; [by left|]. by intros l ?%elem_of_nil. }
  destruct IH as (h1 & Hb1 & Hc1); [intros; apply Hhere; by right|].
  destruct (Hhere l) as (h2 & Hb2 & Hc2); [left|].
  assert (Hchain : h1 `prefix_of` h2 ∨ h2 `prefix_of` h1).
  { destruct Hb1 as [->|Hb1]; [left; apply prefix_nil|]. destruct Hb2 as [->|Hb2]; [right; apply prefix_nil|].
    apply (backed_chain n q final); [lia|done..]. }
  destruct Hchain as [Hp|Hp]; [exists h2|exists h1]; (split; [done|]);
    intros l' [->|Hl']%elem_of_cons; try done; try by apply Hc1.
  - eapply confirmed_in_prefix; [done|by apply Hc1].
  - by eapply confirmed_in_prefix.
Qed.
End system.
