(* ===== verification/ProxyChecks.v ===== *)
(** * Runs of the proxy

    The proxy of build_scripts/proxy-1-config.toml: three servers, a fault tolerance of one.  The
    runs show that the hypotheses of the theorems can hold, and what races and the numbering of the
    receivers do. *)

From S2P Require Import Prelude Util Time StorageApi Messages Collections Kv Proxy.

#[export] Existing Instances elements_iter elements_iter_laws dev_build.

Definition node (i : N) : Nodes := {| node_id := i; address := "s"; listening_port := 8000 |}.
Definition proxy_config : ProxyConfig := {|
  location := Some "proxy-1"%string; proxy_id := 10; listen_address := "0.0.0.0";
  listen_port := 8080; fault_tolerance := 1; clients := [1; 2]; nodes := [node 1; node 2; node 3]
|}.
Definition proxy0 : Proxy.t := Eval vm_compute in
  match Proxy.new proxy_config with
  | Val s => s
  | Panic _ => Proxy.mk proxy_config (ProxyDatabase.new 0) ∅ 0 false ∅ ∅ ∅ ∅
  end.
Lemma proxy0_new : Proxy.new proxy_config = Val proxy0.
Proof. vm_compute. reflexivity. Qed.

Definition the_cmd : Command.t := cmd 0 (KVCommand.Put "k" "v") 5%Z.
Definition leader_ack : ack := mkAck the_cmd 77 (Some None) 1.
Definition follower_ack : ack := mkAck the_cmd 77 None 1.

Import Proxy.

(** The final state and the trace of a run of the proxy. *)
Definition outcome_of (es : list event) : Proxy.t * list label :=
  match exec_all es proxy0 with Some r => r | None => (proxy0, []) end.
Lemma outcome_run es : is_Some (exec_all es proxy0) → run proxy0 (outcome_of es).2 (outcome_of es).1.
Proof.
  intros [[s ls] E]. unfold outcome_of. rewrite E. apply (exec_all_run es proxy0 [] proxy0); [|done].
  apply run_start.
Qed.

(** Two clients connect; the servers at the indices 1 and 2 are connected and acknowledge. *)
Definition connected : list event := [EAccept; EAccept; EConnect 0; EConnect 1; EConnect 2].
Definition delivered_acks : list event := connected ++
  [EActorRead 1 (Some (ack_message leader_ack)); EDeliver 1;
   EActorRead 2 (Some (ack_message follower_ack)); EDeliver 2].
Definition handler (i : N) (n : nat) : list event := replicate n (EHandler i true).

Definition confirmed_run : list event := delivered_acks ++ handler 1 3 ++ handler 2 6.
Definition confirmed_state : Proxy.t := Eval vm_compute in (outcome_of confirmed_run).1.
Definition confirmed_trace : list label := Eval vm_compute in (outcome_of confirmed_run).2.
Lemma confirmed_runs : run proxy0 confirmed_trace confirmed_state.
Proof. apply (outcome_run confirmed_run). vm_compute. by eexists. Qed.

Lemma confirm_needs_quorum_witness :
  Took 2 follower_ack ∈ confirmed_trace ∧
  ProxyDatabase.quorum (db proxy0) ≤ took confirmed_trace 77 ∧ leader_took confirmed_trace 77.
Proof.
  apply (confirm_needs_quorum proxy_config proxy0 confirmed_trace confirmed_state 2 0 follower_ack);
    [apply proxy0_new|apply confirmed_runs|].
  unfold confirmed_trace. set_solver.
Defined.

Lemma proxy_small : len (nodes proxy_config) < usize_mod.
Proof. vm_compute. reflexivity. Qed.

Lemma last_connection_kills_the_proxy_witness :
  ∃ s' ls, exec EAccept confirmed_state = Some (s', ls) ∧ ls = [] ∧ running s' = false.
Proof.
  destruct (last_connection_kills_the_proxy proxy_config proxy0 confirmed_trace confirmed_state)
    as (s' & ls & E & Hk); [apply proxy_small|apply proxy0_new|apply confirmed_runs|reflexivity|].
  exists s', ls. split; [exact E|exact Hk].
Defined.

(** The leader is server 1, as in build_scripts/cluster-config.toml: index 0 of the proxy. *)
Definition leader_first_run : list event := connected ++
  [EActorRead 0 (Some (ack_message leader_ack)); EDeliver 0;
   EActorRead 1 (Some (ack_message follower_ack)); EDeliver 1;
   EActorRead 2 (Some (ack_message follower_ack)); EDeliver 2] ++ handler 1 3 ++ handler 2 3.
Definition leader_first_state : Proxy.t := Eval vm_compute in (outcome_of leader_first_run).1.
Definition leader_first_trace : list label := Eval vm_compute in (outcome_of leader_first_run).2.
Lemma leader_first_runs : run proxy0 leader_first_trace leader_first_state.
Proof. apply (outcome_run leader_first_run). vm_compute. by eexists. Qed.

Lemma leader_at_index_0_is_never_heard_witness :
  ~ (∃ i j a, Confirmed i j a ∈ leader_first_trace).
Proof.
  intros (i & j & a & Hc). revert i j a Hc.
  apply (leader_at_index_0_is_never_heard proxy_config proxy0 leader_first_trace
    leader_first_state); [apply proxy_small|apply proxy0_new|apply leader_first_runs|].
  intros j m Hin Hs. unfold leader_first_trace in Hin.
  repeat (apply elem_of_cons in Hin as [Heq|Hin]; [by simplify_eq|]). by apply elem_of_nil in Hin.
Defined.

(** A quorum has acknowledged, but without the leader nothing was sent, and the handlers wait. *)
Example leader_first_outcome :
  handlers leader_first_state !! 1 = Some Idle ∧ handlers leader_first_state !! 2 = Some Idle ∧
  ProxyDatabase.db (db leader_first_state) !! 77 = Some (2, None) ∧
  to_handler leader_first_state !! 0 = Some [ack_message leader_ack].
Proof. vm_compute. done. Qed.

(** Both handlers read the counter before one of them writes it: one count is lost, and with it the
    speculation of the leader.  A quorum has acknowledged, and the hash is never confirmed. *)
Theorem racing_handlers_lose_a_count :
  let r := outcome_of (delivered_acks ++ [EHandler 1 true; EHandler 2 true] ++
                       handler 1 2 ++ handler 2 2) in
  took r.2 77 = 2 ∧ ProxyDatabase.quorum (db r.1) = 2 ∧
  ProxyDatabase.db (db r.1) !! 77 = Some (1, None) ∧
  handlers r.1 !! 1 = Some Idle ∧ handlers r.1 !! 2 = Some Idle ∧
  List.filter (λ l, match l with Confirmed _ _ _ => true | _ => false end) r.2 = [].
Proof. vm_compute. done. Qed.

(** An acknowledgement that arrives after the confirmation starts a counter that is never removed. *)
Example late_ack_starts_a_new_count :
  let r := outcome_of (confirmed_run ++ handler 2 3 ++
    [EActorRead 1 (Some (ack_message leader_ack)); EDeliver 1] ++ handler 1 3) in
  ProxyDatabase.db (db r.1) !! 77 = Some (1, Some None).
Proof. vm_compute. reflexivity. Qed.

(** The leader has answered a read, and a follower completes the quorum: the proxy has the result, and
    sends the client the acknowledgement of the follower, which has none. *)
Definition read_ack : ack := mkAck (cmd 0 (KVCommand.Get "k") 5%Z) 77 (Some (Some (Some "v"%string))) 1.
Definition read_seconded : ack := mkAck (cmd 0 (KVCommand.Get "k") 5%Z) 77 None 1.
Theorem reply_without_the_result :
  let evs := connected ++
    [EActorRead 1 (Some (ack_message read_ack)); EDeliver 1;
     EActorRead 2 (Some (ack_message read_seconded)); EDeliver 2] ++ handler 1 3 ++ handler 2 3 in
  let r := outcome_of (evs ++ handler 2 5) in
  handlers (outcome_of evs).1 !! 2 =
    Some (Confirming (servers proxy0) read_seconded (2, Some (Some (Some "v"%string)))) ∧
  List.filter (λ l, match l with Replied _ _ => true | _ => false end) r.2 =
    [Replied 2 (ack_message read_seconded)].
Proof. vm_compute. done. Qed.

(** The client on connection 1 has sent the request, and the handler of connection 2 completes the quorum:
    it answers its own client, and the client that has asked hears nothing. *)
Theorem reply_to_another_client :
  let r := outcome_of (connected ++ EClientMsg 1 (ClientMessage.Append 0 (KVCommand.Get "k")) :: handler 1 4 ++
    [EActorRead 1 (Some (ack_message read_ack)); EDeliver 1;
     EActorRead 2 (Some (ack_message read_seconded)); EDeliver 2] ++ handler 1 3 ++ handler 2 9) in
  List.filter (λ l, match l with Replied _ _ => true | _ => false end) r.2 =
    [Replied 2 (ack_message read_seconded)] ∧
  handlers r.1 !! 1 = Some Idle ∧ handlers r.1 !! 2 = Some Idle ∧ ProxyDatabase.db (db r.1) = ∅.
Proof. vm_compute. done. Qed.

(** The channel of the first server is full after 100 messages. *)
Definition stuck_run : list event := connected ++
  concat (replicate 100 [EActorRead 0 (Some (ack_message leader_ack)); EDeliver 0]) ++
  [EActorRead 0 (Some (ack_message leader_ack))].
Definition stuck_state : Proxy.t := (outcome_of stuck_run).1.
Lemma stuck_stuck : stuck 0 stuck_state.
Proof.
  split_and!.
  - eexists. split; vm_compute; [reflexivity|discriminate].
  - eexists. vm_compute. reflexivity.
  - eexists. split; vm_compute; reflexivity.
  - vm_compute. discriminate.
Qed.

Lemma unread_server_stalls_the_proxy_witness :
  0 + sent_to_first [] ≤ NETWORK_BATCH_SIZE ∧ stuck (0 + sent_to_first []) stuck_state.
Proof.
  apply (unread_server_stalls_the_proxy proxy_config proxy0 (outcome_of stuck_run).2 stuck_state
    [] stuck_state 0); [apply proxy_small|apply proxy0_new| |apply stuck_stuck|apply run_start].
  apply (outcome_run stuck_run). vm_compute. by eexists.
Defined.

(** The second acknowledgement of the run above, before handler 2 takes it. *)
Definition before_second : Proxy.t := Eval vm_compute in
  (outcome_of (delivered_acks ++ handler 1 3)).1.
Lemma undisturbed_ack_is_counted_witness :
  ∃ n s' ls, handler_runs 2 n before_second s' ls ∧ handlers s' !! 2 = Some Idle ∧
    ProxyDatabase.db (db s') = ∅ ∧
    ls = [Took 2 follower_ack] ++ ((λ j, Confirmed 2 j follower_ack) <$> servers before_second) ++
         [Replied 2 (ack_message follower_ack)].
Proof.
  destruct (undisturbed_ack_is_counted 2 follower_ack [] before_second)
    as (n & s' & ls & Hr & Hh & _ & Hq).
  - reflexivity.
  - vm_compute. reflexivity.
  - vm_compute. reflexivity.
  - intros info Hi. change (ProxyDatabase.db (db before_second) !! ack_hash follower_ack)
      with (Some (1, Some (@None (option string)))) in Hi. injection Hi as <-. vm_compute. reflexivity.
  - intros j q Hj. assert (Hall : map_Forall (λ _ q, (len q <? NETWORK_BATCH_SIZE) = true)
      (to_actor before_second)) by (apply map_Forall_to_list; vm_compute; repeat constructor).
    specialize (Hall j q Hj). cbn in Hall. unfold roomy. lia.
  - exists n, s', ls. split; [exact Hr|]. split; [exact Hh|]. destruct Hq as (Hdb & _ & Hls).
    split; [|exact Hls]. etrans; [exact Hdb|]. vm_compute. reflexivity.
Defined.
