(* ===== verification/SystemChecks.v ===== *)
(** * A run of the whole system

    Two replicas, the second server as leader, put the same request into their logs; the proxy takes
    both acknowledgements and confirms.  The run shows that the hypotheses of [System] can hold. *)

From S2P Require Import Prelude Util Ballots Config Time StorageApi MemoryStorage InternalStorage.
From S2P Require Import StorageChecks Messages Ble Collections Clock Buffers SequencePaxos Replica.
From S2P Require Import OmniPaxos Kv ReplicaChecks Acks Proxy ProxyChecks System.

Lemma steps_sends (s s' : CommandReplica) : Replica.steps s s' → Acks.sends s [] s'.
Proof. induction 1; [constructor|]. by eapply Acks.sends_step. Qed.

Lemma server_started pid : pid ∈ [1; 2; 3] →
  Acks.started (OmniPaxos.seq_paxos (server_of pid 1)).
Proof.
  intros Hpid. exists (SequencePaxosConfig_from (config pid 1)), MemoryStorage.default,
    (clock_of pid), 1, 2. split_and!; [apply default_view_ok|reflexivity..|].
  repeat (apply elem_of_cons in Hpid as [->|Hpid]; [vm_compute; reflexivity|]).
  by apply elem_of_nil in Hpid.
Qed.

(** ** One server *)

Definition one_ack : Message Command.t :=
  SequencePaxosMsg (mkPaxosMessage 1 1 (Ack (put 7 500000%Z) 9 None 1)).
Definition taken_one : CommandReplica := Eval vm_compute in
  (SequencePaxos.take_outgoing_client_msgs [] after_one).2.
Lemma one_sends : Acks.sends replica [one_ack] taken_one.
Proof.
  apply (Acks.sends_take replica [] after_one [one_ack] taken_one).
  - apply steps_sends, after_one_reachable.
  - vm_compute. reflexivity.
  - vm_compute. reflexivity.
Qed.

Lemma each_position_is_acknowledged_once_witness :
  NoDup (omap Acks.msg_idx [one_ack]) ∧
  Replica.ack_true (Sn := NoSnapshot) (I := CommandBackend) (Replica.log taken_one) (put 7 500000%Z) 9 1.
Proof.
  destruct (Acks.each_position_is_acknowledged_once replica [one_ack] taken_one) as [Hnd Ht].
  - exact (server_started 1 (list_elem_of_here _ _)).
  - exact one_sends.
  - split; [exact Hnd|]. apply (Ht one_ack); [left|reflexivity].
Defined.

(** ** The other server leads *)

Definition replica2 : CommandReplica := Eval vm_compute in OmniPaxos.seq_paxos (server_of 2 1).
Definition lead_one_request : list action := ALeader (Ballot.with_ 1 1 0 2) :: one_request.
Definition after_lead : CommandReplica := Eval vm_compute in
  match exec_all lead_one_request replica2 with Some s => s | None => replica2 end.
Definition lead_ack : Message Command.t :=
  SequencePaxosMsg (mkPaxosMessage 2 1 (Ack (put 7 500000%Z) 9 (Some None) 1)).
Definition taken_lead : CommandReplica := Eval vm_compute in
  (SequencePaxos.take_outgoing_client_msgs [] after_lead).2.
Lemma lead_sends : Acks.sends replica2 [lead_ack] taken_lead.
Proof.
  apply (Acks.sends_take replica2 [] after_lead [lead_ack] taken_lead).
  - apply steps_sends, (exec_steps lead_one_request). vm_compute. reflexivity.
  - vm_compute. reflexivity.
  - vm_compute. reflexivity.
Qed.

(** ** The proxy: the leader is at the index 1, the other server at the index 2 *)

Definition final (k : N) : CommandReplica :=
  if k =? 1 then taken_lead else if k =? 2 then taken_one else replica.
Definition ack_from_lead : ack := mkAck (put 7 500000%Z) 9 (Some None) 1.
Definition ack_from_one : ack := mkAck (put 7 500000%Z) 9 None 1.
Definition system_run : list Proxy.event := connected ++
  [Proxy.EActorRead 1 (Some (ack_message ack_from_lead)); Proxy.EDeliver 1;
   Proxy.EActorRead 2 (Some (ack_message ack_from_one)); Proxy.EDeliver 2]
  ++ handler 1 3 ++ handler 2 6.
Definition system_state : Proxy.t := Eval vm_compute in (outcome_of system_run).1.
Definition system_trace : list Proxy.label := Eval vm_compute in (outcome_of system_run).2.
Lemma system_runs : Proxy.run proxy0 system_trace system_state.
Proof. apply (outcome_run system_run). vm_compute. by eexists. Qed.

Lemma small_cases (k : N) (P : N → Prop) : k < 3 → P 0 → P 1 → P 2 → P k.
Proof. intros Hk H0 H1 H2. assert (k = 0 ∨ k = 1 ∨ k = 2) as [->|[->| ->]] by lia; done. Qed.

Lemma prefix_of_one {A} (x : list A) (a : A) : x `prefix_of` [a] → x = [] ∨ x = [a].
Proof.
  intros [z E]. destruct x as [|b x]; [by left|right]. injection E as <- E.
  symmetry in E. apply app_nil in E as [-> _]. done.
Qed.

Lemma system_behind : behind 3 system_trace final.
Proof.
  split.
  - intros k Hk. revert k Hk. intros k Hk. apply (small_cases k); [done|..].
    + exists replica, []. split_and!; [exact (server_started 1 (list_elem_of_here _ _))|constructor|].
      vm_compute. constructor.
    + exists replica2, [lead_ack].
      split_and!; [exact (server_started 2 (list_elem_of_further _ _ _ (list_elem_of_here _ _)))
                  |exact lead_sends|].
      vm_compute. reflexivity.
    + exists replica, [one_ack].
      split_and!; [exact (server_started 1 (list_elem_of_here _ _))|exact one_sends|].
      vm_compute. reflexivity.
  - assert (Hlog : ∀ k, k < 3 → ∀ x, x `prefix_of` Replica.log (final k) →
      x = [] ∨ x = [put 7 500000%Z]).
    { intros k Hk x. apply (small_cases k); [done|..].
      - change (x `prefix_of` [] → x = [] ∨ x = [put 7 500000%Z]). intros ->%prefix_nil_inv. by left.
      - apply prefix_of_one.
      - apply prefix_of_one. }
    intros k k' x y Hk Hk' Hx Hy E.
    destruct (Hlog k Hk x Hx) as [->| ->], (Hlog k' Hk' y Hy) as [->| ->];
      [reflexivity|vm_compute in E; discriminate E|vm_compute in E; discriminate E|reflexivity].
Qed.

Lemma confirmed_prefix_is_replicated_witness :
  ∃ Q : gset N, 2 ≤ N.of_nat (size Q) ∧ 2 ∈ Q ∧
    Replica.log (final 2) !! N.to_nat (1 - 1) = Some (put 7 500000%Z) ∧
    ∀ k, k ∈ Q → hashed_part <$> take (N.to_nat 1) (Replica.log (final k)) =
      hashed_part <$> take (N.to_nat 1) (Replica.log (final 2)).
Proof.
  destruct (confirmed_prefix_is_replicated proxy_config proxy0 system_trace system_state final
    (Proxy.Confirmed 2 0 ack_from_one) 2 ack_from_one) as (Q & Hq & Hin & _ & Hl & Hall).
  - apply proxy_small.
  - apply proxy0_new.
  - apply system_runs.
  - exact system_behind.
  - unfold system_trace. set_solver.
  - split; reflexivity.
  - exists Q. split; [exact Hq|]. split; [exact Hin|]. split; [exact Hl|].
    intros k Hk. apply (Hall k Hk).
Defined.
