(* ===== verification/Client.v ===== *)
(** * The benchmark client (src/src/client/)

    The state of a client and one function per branch of its event loop; the timers of the loop and
    the random choice between reads and writes are decided by the environment.  Sockets and files
    are left out; the tasks of a connection are in Connections.v. *)

From stdpp Require Import pretty.
From S2P Require Import Prelude Util Ballots Time StorageApi Messages Kv.

(** ** Configuration (configs.rs) *)

(** [f64] is only compared with random numbers. *)
Class Float : Type := { float : Type; float_gt : float → float → bool }.

Record RequestInterval `{Float} : Type := mkRequestInterval {
  duration_sec : N;
  requests_per_sec : N;
  read_ratio : float
}.
Definition get_read_ratio `{Float} (self : RequestInterval) : float := read_ratio self.
Definition get_interval_duration `{Float} (self : RequestInterval) : Duration :=
  from_secs (duration_sec self).
Definition get_request_delay `{Float} (self : RequestInterval) : outcome Duration :=
  if requests_per_sec self =? 0 then Val (from_secs 999999)
  else
    let delay_ms := 1000 / requests_per_sec self in
    if delay_ms =? 0 then Panic AssertFailed else Val (from_millis delay_ms).

(** [tokio::time::interval] panics if the period is zero. *)
Definition interval (period : Duration) : outcome Duration :=
  if period =? 0 then Panic AssertFailed else Val period.

Record ClientConfig `{Float} : Type := mkClientConfig {
  cl_location : string;
  server_id : NodeId;
  server_address : string;
  requests : list RequestInterval;
  sync_time : option Timestamp;
  summary_filepath : string;
  output_filepath : string
}.

(** ** Collected data (data_collection.rs) *)

Record RequestData : Type := mkRequestData {
  request_time : Timestamp;
  write : bool;
  response_time : option Timestamp
}.
#[global] Instance settable_response_time : Settable response_time := λ f r,
  mkRequestData (request_time r) (write r) (f (response_time r)).
(** [#[derive(Default)]] *)
Definition RequestData_default : RequestData :=
  {| request_time := 0%Z; write := false; response_time := None |}.

Module ClientData.
Record t : Type := mk { request_data : list RequestData; response_count : N }.
#[global] Instance settable_request_data : Settable request_data := λ f r,
  mk (f (request_data r)) (response_count r).
#[global] Instance settable_response_count : Settable response_count := λ f r,
  mk (request_data r) (f (response_count r)).

Section ops.
Context `{Build}.

Definition new : t := {| request_data := []; response_count := 0 |}.

(** [now] is [Utc::now().timestamp_millis()]. *)
Definition new_request (is_write : bool) (now : Timestamp) (self : t) : t :=
  self <| request_data ::= λ l, l ++
    [{| request_time := now; write := is_write; response_time := None |}] |>.

(** [Vec::resize] *)
Definition vec_resize {A} (n : N) (x : A) (l : list A) : list A :=
  take (N.to_nat n) l ++ replicate (N.to_nat n - length l) x.

(** [self.request_data[command_id]] is in bounds after the [resize]. *)
Definition new_response (command_id : CommandId) (now : Timestamp) : M t unit :=
  let* size := lift (wadd usize_mod command_id 1) in
  let* _ := modify (λ s, s <| request_data ::= vec_resize size RequestData_default |>) in
  let* s := gets (λ s, s) in
  let* data := (match request_data s !! N.to_nat command_id with
                | Some data => ret data
                | None => panic OutOfBounds
                end) in
  let* _ := modify (λ s, s <| request_data ::=
    <[N.to_nat command_id := data <| response_time := Some now |>]> |>) in
  let* n := lift (wadd usize_mod (response_count s) 1) in
  modify (λ s, s <| response_count := n |>).

Definition get_response_count (self : t) : N := response_count self.
Definition request_count (self : t) : N := len (request_data self).
End ops.
End ClientData.

(** ** The network of the client (network.rs) *)

Module ClientNetwork.
(** [server_connections]: at the index of a server the messages put into the channel to it. *)
Abbreviation t := (list (option (list ClientMessage.t))).

Section ops.
Context `{Build}.

(** An attempt to connect to a server: it is refused, or established, and then the registration is
    sent or not. *)
Inductive attempt : Type := Refused | Established (registered : bool).
(** [get_server_connection]: connecting is retried, registering is not; [None]: it still tries. *)
Fixpoint get_server_connection (attempts : list attempt) : option (outcome unit) :=
  match attempts with
  | [] => None
  | Refused :: attempts => get_server_connection attempts
  | Established true :: _ => Some (Val tt)
  | Established false :: _ => Some (Panic ExpectErr)
  end.

(** What becomes of a finished task: its server gets its slot, or the client panics with it. *)
Definition connected (connected_server_id : NodeId) (result : outcome unit) : M t unit :=
  match result with
  | Val _ =>
      let* s := gets (λ s, s) in
      match s !! N.to_nat connected_server_id with
      | Some _ => modify (λ s, <[N.to_nat connected_server_id := Some []]> s)
      | None => panic OutOfBounds
      end
  | Panic _ => panic ExplicitPanic
  end.
(** [finished_tasks]: what [join_all] returns when all the tasks have ended. *)
Definition initialize_connections (servers : list NodeId) (finished_tasks : list (outcome unit)) :
    M t unit :=
  mfor (zip servers finished_tasks) (λ p, connected p.1 p.2).

Definition new (servers : list NodeId) (finished_tasks : list (outcome unit)) : outcome t :=
  match iter_max_N servers with
  | None => Panic UnwrapNone
  | Some max_server_id =>
      match wadd usize_mod max_server_id 1 with
      | Panic f => Panic f
      | Val n =>
          match initialize_connections servers finished_tasks (replicate (N.to_nat n) None) with
          | (Val _, s) => Val s
          | (Panic f, _) => Panic f
          end
      end
  end.

Definition shutdown (s : t) : t := replicate (length s) None.

(** However often a connection is refused, the client connects; it does not survive a registration that
    cannot be sent. *)
Lemma get_server_connection_retries n registered rest :
  get_server_connection (replicate n Refused ++ Established registered :: rest) =
  Some (if registered then Val tt else Panic ExpectErr).
Proof. induction n; [by destruct registered|done]. Qed.
Lemma unregistered_client_panics servers finished_tasks s :
  Exists (λ p, ∃ f, p.2 = Panic f) (zip servers finished_tasks) →
  ∃ f s', initialize_connections servers finished_tasks s = (Panic f, s').
Proof.
  unfold initialize_connections. intros Hex. revert s.
  induction Hex as [[i o] l [f Ho]|[i o] l _ IH]; intros s; cbn [mfor].
  - cbn in Ho. subst o. by exists ExplicitPanic, s.
  - unfold bind. destruct (connected _ _ s) as [[u|f] s1]; [apply IH|by exists f, s1].
Qed.

Lemma new_one server_id :
  server_id + 1 < usize_mod →
  new [server_id] [Val tt] = Val (replicate (N.to_nat server_id) None ++ [Some []]).
Proof.
  intros Hid. unfold new. cbn. rewrite wadd_exact by done.
  unfold initialize_connections, connected, bind, gets, modify, ret. cbn.
  replace (N.to_nat (server_id + 1)) with (N.to_nat server_id + 1)%nat by lia.
  rewrite replicate_add. cbn.
  assert (Hlen : N.to_nat server_id = length (replicate (N.to_nat server_id) (@None (list ClientMessage.t))))
    by by rewrite length_replicate.
  rewrite lookup_app_r, length_replicate, Nat.sub_diag by (rewrite length_replicate; lia). cbn.
  f_equal. rewrite Hlen at 1. by rewrite insert_app_r_alt, length_replicate, Nat.sub_diag by lia.
Qed.
End ops.
End ClientNetwork.

(** ** The client (client.rs, network.rs) *)

Module Client.

(** [outgoing_messages] of the connection at each index of [server_connections]; a message is in
    the channel once [send] returns. *)
Record t : Type := mk {
  id : ClientId;
  server_connections : list (option (list ClientMessage.t));
  client_data : ClientData.t;
  active_server : NodeId;
  final_request_count : option N;
  next_request_id : N
}.
#[global] Instance settable_id : Settable id := λ f r,
  mk (f (id r)) (server_connections r) (client_data r) (active_server r) (final_request_count r)
    (next_request_id r).
#[global] Instance settable_server_connections : Settable server_connections := λ f r,
  mk (id r) (f (server_connections r)) (client_data r) (active_server r) (final_request_count r)
    (next_request_id r).
#[global] Instance settable_client_data : Settable client_data := λ f r,
  mk (id r) (server_connections r) (f (client_data r)) (active_server r) (final_request_count r)
    (next_request_id r).
#[global] Instance settable_active_server : Settable active_server := λ f r,
  mk (id r) (server_connections r) (client_data r) (f (active_server r)) (final_request_count r)
    (next_request_id r).
#[global] Instance settable_final_request_count : Settable final_request_count := λ f r,
  mk (id r) (server_connections r) (client_data r) (active_server r) (f (final_request_count r))
    (next_request_id r).
#[global] Instance settable_next_request_id : Settable next_request_id := λ f r,
  mk (id r) (server_connections r) (client_data r) (active_server r) (final_request_count r)
    (f (next_request_id r)).

Section ops.
Context `{Build, Float}.

(** [Client::new] once the only server is connected: there are slots up to its identifier. *)
Definition new (config : ClientConfig) : t := {|
  id := server_id config;
  server_connections := replicate (N.to_nat (server_id config)) None ++ [Some []];
  client_data := ClientData.new;
  active_server := server_id config;
  final_request_count := None;
  next_request_id := 0
|}.

(** [Network::send]; [closed] says whether the channel of the connection is closed. *)
Definition send (to : NodeId) (msg : ClientMessage.t) (closed : bool) : M t unit :=
  let* s := gets (λ s, s) in
  match server_connections s !! N.to_nat to with
  | Some (Some sent) =>
      if closed then modify (λ s, s <| server_connections ::= <[N.to_nat to := None]> |>)
      else modify (λ s, s <| server_connections ::= <[N.to_nat to := Some (sent ++ [msg])]> |>)
  | Some None => ret tt
  | None => ret tt
  end.

Definition handle_server_message (msg : ServerMessage.t) (now : Timestamp) : M t unit :=
  match msg with
  | ServerMessage.StartSignal _ => ret tt
  | server_response =>
      let* cmd_id := lift (ServerMessage.command_id server_response) in
      zoom client_data (ClientData.new_response cmd_id now)
  end.

(** [to_string] prints a number in decimal. *)
Definition request_of (n : N) (is_write : bool) : KVCommand.t :=
  let key := pretty n in if is_write then KVCommand.Put key key else KVCommand.Get key.

Definition send_request (is_write : bool) (now : Timestamp) (closed : bool) : M t unit :=
  let* s := gets (λ s, s) in
  let cmd := request_of (next_request_id s) is_write in
  let request := ClientMessage.Append (next_request_id s) cmd in
  let* _ := send (active_server s) request closed in
  let* _ := modify (λ s, s <| client_data ::= ClientData.new_request is_write now |>) in
  let* n := lift (wadd usize_mod (next_request_id s) 1) in
  modify (λ s, s <| next_request_id := n |>).

Definition run_finished (s : t) : bool :=
  match final_request_count s with
  | Some count => count <=? ClientData.request_count (client_data s)
  | None => false
  end.

(** *** The start *)

(** [wait_until_sync_time]: the new [sync_time] and how long it sleeps. *)
Definition wait_until_sync_time (scheduled_start_utc_ms now : Timestamp) :
    outcome (Timestamp * option Duration) :=
  let d := (scheduled_start_utc_ms - now)%Z in
  match (if (-(2 ^ 63) <=? d)%Z && (d <? 2 ^ 63)%Z then Val d
         else if overflow_checks then Panic Overflow
         else Val ((d + 2 ^ 63) mod 2 ^ 64 - 2 ^ 63)%Z) with
  | Val milliseconds_until_sync => Val (milliseconds_until_sync,
      if (0 <? milliseconds_until_sync)%Z then Some (from_millis (Z.to_N milliseconds_until_sync))
      else None)
  | Panic f => Panic f
  end.

(** The first message that the client receives; [None]: the channel is closed. *)
Definition await_start_signal (first : option ServerMessage.t) (now : Timestamp) :
    outcome (Timestamp * option Duration) :=
  match first with
  | Some (ServerMessage.StartSignal start_time) => wait_until_sync_time start_time now
  | _ => Panic ExplicitPanic
  end.

(** *** The event loop

    The variables of [run] next to the client: the intervals to come, and the settings of the
    current one. *)
Record loop : Type := mkLoop {
  client : t;
  intervals : list RequestInterval;
  current_read_ratio : float;
  request_delay : Duration
}.

(** The branches of [select!]. *)
Inductive branch : Type :=
  | ServerMessage_ (msg : ServerMessage.t) (now : Timestamp)
  | RequestTick (random : float) (now : Timestamp) (closed : bool)
  | NextInterval.

Definition settable_loop_client (f : t → t) (l : loop) : loop :=
  mkLoop (f (client l)) (intervals l) (current_read_ratio l) (request_delay l).
#[export] Instance settable_client : Settable client := settable_loop_client.

(** The start of the loop; [None]: there is no interval, and the client ends at once. *)
Definition start (config : ClientConfig) : outcome (option loop) :=
  match requests config with
  | [] => Val None
  | first_interval :: rest =>
      match get_request_delay first_interval with
      | Panic f => Panic f
      | Val delay =>
          match interval delay, interval (get_interval_duration first_interval) with
          | Panic f, _ | _, Panic f => Panic f
          | Val delay, Val _ =>
              Val (Some (mkLoop (new config) rest (get_read_ratio first_interval) delay))
          end
      end
  end.

(** One iteration; whether the loop goes on.  A disabled branch changes nothing. *)
Definition iteration (b : branch) : M loop bool :=
  match b with
  | ServerMessage_ msg now =>
      let* _ := zoom client (handle_server_message msg now) in
      let* l := gets (λ l, l) in
      ret (negb (run_finished (client l)))
  | RequestTick random now closed =>
      let* l := gets (λ l, l) in
      match final_request_count (client l) with
      | None =>
          let is_write := float_gt random (current_read_ratio l) in
          let* _ := zoom client (send_request is_write now closed) in ret true
      | Some _ => ret true
      end
  | NextInterval =>
      let* l := gets (λ l, l) in
      match intervals l with
      | new_interval :: rest =>
          let* _ := lift (interval (get_interval_duration new_interval)) in
          let* delay := lift (get_request_delay new_interval) in
          let* delay := lift (interval delay) in
          let* _ := modify (λ l, mkLoop (client l) rest (read_ratio new_interval) delay) in
          ret true
      | [] =>
          let* _ := modify (λ l, l <| client ::= λ c, c <| final_request_count :=
            Some (ClientData.request_count (client_data c)) |> |>) in
          let* l := gets (λ l, l) in
          ret (negb (run_finished (client l)))
      end
  end.

(** The loop has gone on through these branches. *)
Inductive runs (l0 : loop) : list branch → loop → Prop :=
  | runs_start : runs l0 [] l0
  | runs_branch bs l b l' :
      runs l0 bs l → iteration b l = (Val true, l') → runs l0 (bs ++ [b]) l'.
End ops.
End Client.

(** ** Delays *)

(** The delay between requests.  A rate of at most 1000 requests per second is met from above,
    within a millisecond per request; a higher rate fails the assertion. *)
Theorem request_delay_meets_rate `{Float} (i : RequestInterval) :
  requests_per_sec i ≠ 0 →
  match get_request_delay i with
  | Val d => requests_per_sec i ≤ 1000 ∧ d ≠ 0 ∧ requests_per_sec i * d ≤ from_secs 1 ∧
             from_secs 1 < requests_per_sec i * (d + from_millis 1)
  | Panic f => f = AssertFailed ∧ 1000 < requests_per_sec i
  end.
Proof.
  intros Hne. unfold get_request_delay, from_secs, from_millis.
  rewrite (proj2 (N.eqb_neq _ _) Hne). set (r := requests_per_sec i) in *.
  pose proof (N.Div0.div_mod 1000 r) as Hd. pose proof (N.mod_upper_bound 1000 r Hne) as Hm.
  cbv zeta. destruct (N.eqb_spec (1000 / r) 0) as [E|E].
  - split; [done|]. rewrite E in Hd. lia.
  - set (q := 1000 / r) in *. split_and!; nia.
Qed.

(** A client starts at the scheduled time, or at once if that is over; the clock of the client is
    [now] when the signal arrives. *)
Lemma starts_at_scheduled_time `{Build} (start_time now : Timestamp) :
  (0 <= start_time < 2 ^ 62)%Z → (0 <= now < 2 ^ 62)%Z →
  ∃ sleep, Client.await_start_signal (Some (ServerMessage.StartSignal start_time)) now =
    Val ((start_time - now)%Z, sleep) ∧
  (now * 1000000 + Z.of_N (default 0%N sleep) = Z.max now start_time * 1000000)%Z.
Proof.
  intros Hs Hn. unfold Client.await_start_signal, Client.wait_until_sync_time.
  rewrite (proj2 (Z.leb_le _ _)), (proj2 (Z.ltb_lt _ _)) by lia. cbn [andb]. cbv iota beta.
  eexists. split; [done|]. destruct (Z.ltb_spec 0 (start_time - now)); cbn; [|lia].
  unfold from_millis. lia.
Qed.

(** ** Responses *)

Section responses.
Context `{Build}.
Import ClientData.

Lemma resize_length {A} n (x : A) l : len (vec_resize n x l) = n.
Proof. unfold vec_resize, len. rewrite length_app, length_take, length_replicate. lia. Qed.
Lemma resize_lookup {A} n (x : A) l k :
  (k < N.to_nat n)%nat → (k < length l)%nat → vec_resize n x l !! k = l !! k.
Proof.
  intros Hn Hl. unfold vec_resize. rewrite lookup_app_l by (rewrite length_take; lia).
  by apply lookup_take_lt.
Qed.

(** A response is recorded with its request, and every request that was sent after it is
    forgotten: the vector of requests ends with the one that was answered last. *)
Theorem new_response_forgets_later_requests id now (s : ClientData.t) :
  id + 1 < usize_mod → response_count s + 1 < usize_mod →
  returns (new_response id now) s (λ _ s',
    request_count s' = id + 1 ∧ response_count s' = response_count s + 1 ∧
    (∀ d, request_data s !! N.to_nat id = Some d →
          request_data s' !! N.to_nat id = Some (d <| response_time := Some now |>)) ∧
    (∀ k, (k < N.to_nat id)%nat → (k < length (request_data s))%nat →
          request_data s' !! k = request_data s !! k) ∧
    (∀ k, (N.to_nat id < k)%nat → request_data s' !! k = None)).
Proof.
  intros Hid Hcount. unfold new_response. wp. eapply returns_lift; [by apply wadd_exact|]. wp.
  cbn. set (l := vec_resize (id + 1) RequestData_default (request_data s)).
  assert (Hlen : len l = id + 1) by apply resize_length. unfold len in Hlen.
  destruct (lookup_lt_is_Some_2 l (N.to_nat id)) as [d Hd]; [lia|]. rewrite Hd. wp.
  eapply returns_lift; [by apply wadd_exact|]. wp. cbn. unfold request_count. cbn. fold l.
  split_and!; [unfold len; rewrite length_insert; lia|done|..].
  - intros d' Hd'. rewrite list_lookup_insert_eq by lia. f_equal.
    assert (Hlt := lookup_lt_Some _ _ _ Hd').
    unfold l in Hd. rewrite resize_lookup in Hd by lia. congruence.
  - intros k Hk Hkl. rewrite list_lookup_insert_ne by lia. apply resize_lookup; lia.
  - intros k Hk. apply lookup_ge_None. rewrite length_insert. lia.
Qed.
End responses.

(** ** Runs of the client *)

Section runs.
Context `{Build, Float}.
Import Client.

(** The messages in the channel to the server, as long as it is open. *)
Definition in_channel (c : t) : option (list ClientMessage.t) :=
  mjoin (server_connections c !! N.to_nat (active_server c)).
(** The requests with the identifiers from 0 on. *)
Definition numbered (ws : list bool) : list ClientMessage.t :=
  imap (λ k w, ClientMessage.Append (N.of_nat k) (request_of (N.of_nat k) w)) ws.

Record client_ok (n : N) (c : t) : Prop := {
  ok_final : final_request_count c = None;
  ok_next : next_request_id c ≤ n;
  ok_sent sent : in_channel c = Some sent →
    ∃ ws, sent = numbered ws ∧ len ws = next_request_id c
}.

Lemma numbered_snoc ws w :
  numbered (ws ++ [w]) =
  numbered ws ++ [ClientMessage.Append (len ws) (request_of (len ws) w)].
Proof. unfold numbered. rewrite imap_app. cbn. by rewrite Nat.add_0_r. Qed.

Lemma client_ok_new config : client_ok 0 (new config).
Proof.
  split; cbn; [done..|]. intros sent. unfold in_channel. cbn.
  rewrite lookup_app_r by by rewrite length_replicate.
  rewrite length_replicate, Nat.sub_diag. intros [= <-]. by exists [].
Qed.

Lemma returns_val {S A} (m : M S A) s Q a s' : returns m s Q → m s = (Val a, s') → Q a s'.
Proof. unfold returns. by intros ? E; rewrite E in *. Qed.

Lemma send_request_ok n is_write now closed c :
  n + 1 < usize_mod → client_ok n c →
  returns (send_request is_write now closed) c (λ _ c', client_ok (n + 1) c').
Proof.
  intros Hn [Hf Hnext Hsent]. unfold send_request, send. wp.
  unfold in_channel in Hsent. set (a := N.to_nat (active_server c)) in *.
  assert (Hend : ∀ c', final_request_count c' = None → next_request_id c' = next_request_id c →
    (∀ sent, in_channel c' = Some sent → ∃ ws, sent = numbered ws ∧ len ws = next_request_id c + 1) →
    client_ok (n + 1) (c' <| client_data ::= ClientData.new_request is_write now |>
      <| next_request_id := next_request_id c + 1 |>)).
  { intros c' H1 H2 H3. split; cbn; [done|lia|exact H3]. }
  destruct (server_connections c !! a) as [[sent|]|] eqn:Ea; [destruct closed|..]; wp;
    (eapply returns_lift; [apply wadd_exact; lia|]; wp).
  - apply Hend; [done..|]. unfold in_channel. cbn. fold a.
    by rewrite list_lookup_insert_eq by by eapply lookup_lt_Some.
  - apply Hend; [done..|]. unfold in_channel. cbn. fold a.
    rewrite list_lookup_insert_eq by by eapply lookup_lt_Some. cbn. intros ? [= <-].
    destruct (Hsent sent) as (ws & -> & Hlen); [done|]. exists (ws ++ [is_write]).
    rewrite numbered_snoc, Hlen, len_app. split; [done|]. rewrite Hlen. done.
  - apply Hend; [done..|]. unfold in_channel. fold a. by rewrite Ea.
  - apply Hend; [done..|]. unfold in_channel. fold a. by rewrite Ea.
Qed.

(** A message of the server only touches the collected data. *)
Lemma handle_server_message_frame msg now (c : t) :
  ∃ d, (handle_server_message msg now c).2 = c <| client_data := d |>.
Proof.
  assert (Hresp : ∀ id, ∃ d, (bind (lift (Val id)) (λ cmd_id,
    zoom client_data (ClientData.new_response cmd_id now)) c).2 = c <| client_data := d |>).
  { intros id. unfold bind, lift, zoom.
    destruct (ClientData.new_response id now (client_data c)) as [o d]. by exists d. }
  destruct msg; try apply Hresp. exists (client_data c). by destruct c.
Qed.

Lemma runs_ok config l0 bs l :
  start config = Val (Some l0) → runs l0 bs l → len bs < usize_mod → client_ok (len bs) (client l).
Proof.
  intros Hstart. induction 1 as [|bs l b l' _ IH E]; intros Hlen.
  - revert Hstart. unfold start. destruct (requests config) as [|i rest]; [done|].
    destruct (get_request_delay i); [|done].
    destruct (interval _); [|done]. destruct (interval _); [|done]. intros [= <-].
    apply client_ok_new.
  - rewrite len_app, len_cons, len_nil in *. specialize (IH ltac:(lia)).
    destruct IH as [Hf Hnext Hsent]. destruct b as [msg now|random now closed|].
    + apply bind_val_inv in E as (u & l1 & E1 & E2).
      apply bind_val_inv in E2 as (l2 & l3 & [= <- <-] & E3). injection E3 as _ <-.
      destruct (handle_server_message_frame msg now (client l)) as [d Hd]. revert E1. unfold zoom.
      destruct (handle_server_message msg now (client l)) as [o c]. cbn in Hd. subst c.
      intros [= _ <-]. split; [done|cbn; lia|exact Hsent].
    + apply bind_val_inv in E as (x1 & l2 & [= <- <-] & E). rewrite Hf in E.
      apply bind_val_inv in E as (u & l3 & E1 & E2). injection E2 as <-.
      revert E1. unfold zoom. match goal with |- context [send_request ?w now closed (client l)] =>
        destruct (send_request w now closed (client l)) as [o c] eqn:Es end.
      intros [= -> <-]. cbn. rewrite N.add_0_r.
      eapply (returns_val _ _ _ _ _ (send_request_ok (len bs) _ now closed (client l) ltac:(lia) _) Es).
      Unshelve. by split.
    + apply bind_val_inv in E as (x1 & l2 & [= <- <-] & E).
      destruct (intervals l) as [|i rest].
      * apply bind_val_inv in E as (u & l3 & [= _ <-] & E2).
        apply bind_val_inv in E2 as (x2 & l4 & [= <- <-] & E3). exfalso. revert E3. cbn.
        unfold run_finished. cbn. by rewrite N.leb_refl.
      * apply bind_val_inv in E as (u & l3 & E1 & E). injection E1 as _ <-.
        apply bind_val_inv in E as (d & l4 & E1 & E). injection E1 as _ <-.
        apply bind_val_inv in E as (d' & l5 & E1 & E). injection E1 as _ <-.
        injection E as <-. split; [done|cbn; lia|exact Hsent].
Qed.

(** Requests are numbered.  As long as its connection is open, the requests that a client
    has sent are numbered from 0 in the order of sending, each with a key of its own; so no [Get]
    of a client ever asks for a key that the same client writes. *)
Theorem client_never_reads_its_writes config l0 bs l sent k1 k2 key v :
  start config = Val (Some l0) → runs l0 bs l → len bs < usize_mod →
  in_channel (client l) = Some sent →
  sent !! k1 = Some (ClientMessage.Append (N.of_nat k1) (KVCommand.Put key v)) →
  sent !! k2 ≠ Some (ClientMessage.Append (N.of_nat k2) (KVCommand.Get key)) ∧
  (∃ ws, sent = numbered ws ∧ len ws = next_request_id (client l)).
Proof.
  intros Hstart Hr Hlen Hsent Hput. pose proof (runs_ok _ _ _ _ Hstart Hr Hlen) as Hok.
  destruct (ok_sent _ _ Hok _ Hsent) as (ws & -> & Hws). split; [|eauto].
  unfold numbered in *. rewrite !list_lookup_imap in *.
  destruct (ws !! k1) as [w1|] eqn:E1, (ws !! k2) as [w2|] eqn:E2; cbn in *; try done.
  unfold request_of in *. intros Hget. destruct w1, w2; try done.
  injection Hput as Hkey _. injection Hget as Hkey'. subst key.
  apply (inj pretty) in Hkey'. assert (k2 = k1) by lia. congruence.
Qed.

(** A client does not wait for responses.  When its last interval is over, the client counts
    the requests it remembers and compares the number with itself, so that the loop ends at once,
    however many responses are missing. *)
Theorem client_ends_with_its_last_interval config l0 bs l :
  start config = Val (Some l0) → runs l0 bs l → len bs < usize_mod → intervals l = [] →
  final_request_count (client l) = None ∧
  ∃ l', iteration NextInterval l = (Val false, l') ∧
        ClientData.response_count (client_data (client l')) =
        ClientData.response_count (client_data (client l)).
Proof.
  intros Hstart Hr Hlen Hi. split; [apply (ok_final _ _ (runs_ok _ _ _ _ Hstart Hr Hlen))|].
  eexists. split; [|shelve]. unfold iteration, bind, gets, modify, ret. rewrite Hi. cbn.
  unfold run_finished. cbn. rewrite N.leb_refl. reflexivity.
  Unshelve. done.
Qed.
End runs.
