(* ===== verification/Network.v ===== *)
(** * The network of a server (src/src/server/network.rs)

    Connections to the other servers and to the clients.  A connection is the unbounded channel to
    its writer task; that task is in Connections.v, and here it may close the channel at any time.
    Connections arrive in any order ([NewConnection]). *)

From S2P Require Import Prelude Util Time StorageApi Messages Kv.

(** [PeerConnection] and [ClientConnection]; [closed]: the writer task has gone. *)
Record Connection (Msg : Type) : Type := mkConnection {
  outgoing_messages : list Msg;
  closed : bool
}.
#[global] Arguments mkConnection {Msg}.
#[global] Arguments outgoing_messages {Msg}.
#[global] Arguments closed {Msg}.
#[global] Instance settable_outgoing_messages {Msg} : Settable (@outgoing_messages Msg) := λ f r,
  mkConnection (f (outgoing_messages r)) (closed r).
#[global] Instance settable_closed {Msg} : Settable (@closed Msg) := λ f r,
  mkConnection (outgoing_messages r) (f (closed r)).

Definition connection_new {Msg} : Connection Msg := {| outgoing_messages := []; closed := false |}.

(** [UnboundedSender::send] *)
Definition connection_send {Msg} (msg : Msg) (c : Connection Msg) : result (Connection Msg) unit :=
  if closed c then Err tt else Ok (c <| outgoing_messages ::= λ l, l ++ [msg] |>).

(** A handshake on a new TCP connection: [handle_incoming_connection] and, for the peers this
    server connects to, [spawn_peer_connectors]. *)
Inductive NewConnection : Type :=
  | ToPeer (peer_id : NodeId)
  | ToClient (client_id : ClientId).

Module Network.

Record t : Type := mk {
  peers : list NodeId;
  peer_connections : list (option (Connection ClusterMessage.t));
  client_connections : gmap ClientId (Connection ServerMessage.t);
  max_client_id : ClientId
}.
#[global] Instance settable_peers : Settable peers := λ f r,
  mk (f (peers r)) (peer_connections r) (client_connections r) (max_client_id r).
#[global] Instance settable_peer_connections : Settable peer_connections := λ f r,
  mk (peers r) (f (peer_connections r)) (client_connections r) (max_client_id r).
#[global] Instance settable_client_connections : Settable client_connections := λ f r,
  mk (peers r) (peer_connections r) (f (client_connections r)) (max_client_id r).
#[global] Instance settable_max_client_id : Settable max_client_id := λ f r,
  mk (peers r) (peer_connections r) (client_connections r) (f (max_client_id r)).

Section ops.
Context `{Build}.

(** The network before its connections are made; [node_addrs] is zipped with [nodes]. *)
Definition unconnected (id : NodeId) (nodes : list NodeId) (node_addrs : list string) : t :=
  let peer_addresses := filter (λ p, p.1 ≠ id) (zip nodes node_addrs) in
  let peers := peer_addresses.*1 in {|
  peers := peers; peer_connections := replicate (length peers) None;
  client_connections := ∅; max_client_id := 0
|}.

(** The peers that a server connects to itself: [spawn_peer_connectors]. *)
Definition peers_to_connect_to (my_id : NodeId) (peers : list NodeId) : list NodeId :=
  filter (λ peer_id, peer_id < my_id) peers.

(** [Iterator::position] *)
Fixpoint position (id : NodeId) (l : list NodeId) : option nat :=
  match l with
  | [] => None
  | p :: l' => if p =? id then Some O else S <$> position id l'
  end.
Definition cluster_id_to_idx (id : NodeId) (self : t) : option nat := position id (peers self).

(** The registration of a client, in [handle_incoming_connection]. *)
Definition register (m : RegistrationMessage.t) : M t NewConnection :=
  match m with
  | RegistrationMessage.NodeRegister node_id => ret (ToPeer node_id)
  | RegistrationMessage.ClientRegister =>
      let* s := gets (λ s, s) in
      let* next_client_id := lift (wadd u64_mod (max_client_id s) 1) in
      let* _ := modify (λ s, s <| max_client_id := next_client_id |>) in
      ret (ToClient next_client_id)
  end.

(** One iteration of [initialize_connections]; whether all connections are there. *)
Definition connect (num_clients : N) (new_connection : NewConnection) : M t bool :=
  let* _ := (match new_connection with
             | ToPeer peer_id =>
                 let* s := gets (λ s, s) in
                 let* peer_idx := unwrap (cluster_id_to_idx peer_id s) in
                 modify (λ s, s <| peer_connections ::= <[peer_idx := Some connection_new]> |>)
             | ToClient client_id =>
                 modify (λ s, s <| client_connections ::= <[client_id := connection_new]> |>)
             end) in
  let* s := gets (λ s, s) in
  let all_clients_connected := num_clients <=? N.of_nat (size (client_connections s)) in
  let all_cluster_connected :=
    forallb (λ c, match c with Some _ => true | None => false end) (peer_connections s) in
  ret (all_clients_connected && all_cluster_connected).

(** [initialize_connections], on the connections in the order of their arrival; [false]: it still
    waits for more of them. *)
Fixpoint initialize_connections (num_clients : N) (new_connections : list NewConnection) : M t bool :=
  match new_connections with
  | [] => ret false
  | c :: cs =>
      let* all_connected := connect num_clients c in
      if all_connected then ret true else initialize_connections num_clients cs
  end.

Definition send_to_cluster (to : NodeId) (msg : ClusterMessage.t) : M t unit :=
  let* s := gets (λ s, s) in
  match cluster_id_to_idx to s with
  | Some idx =>
      let* slot := (match peer_connections s !! idx with
                    | Some slot => ret slot
                    | None => panic OutOfBounds
                    end) in
      match slot with
      | Some connection =>
          match connection_send msg connection with
          | Ok connection => modify (λ s, s <| peer_connections ::= <[idx := Some connection]> |>)
          | Err _ => modify (λ s, s <| peer_connections ::= <[idx := None]> |>)
          end
      | None => ret tt
      end
  | None => ret tt
  end.

Definition send_to_client (to : ClientId) (msg : ServerMessage.t) : M t unit :=
  let* s := gets (λ s, s) in
  match client_connections s !! to with
  | Some connection =>
      match connection_send msg connection with
      | Ok connection => modify (λ s, s <| client_connections ::= <[to := connection]> |>)
      | Err _ => modify (λ s, s <| client_connections ::= delete to |>)
      end
  | None => ret tt
  end.

Definition shutdown : M t unit :=
  let* s := gets (λ s, s) in
  let* _ := modify (λ s, s <| client_connections := ∅ |>) in
  let* _ := modify (λ s, s <| peer_connections := [] |>) in
  mfor (peers s) (λ _, modify (λ s, s <| peer_connections ::= λ l, l ++ [None] |>)).
End ops.
End Network.

(** ** Well-formedness and routing *)

Section network.
Context `{Build}.
Import Network.
Implicit Types s : Network.t.

(** Every peer has a slot. *)
Definition network_ok s : Prop := length (peer_connections s) = length (peers s).

Lemma position_bound id l i : position id l = Some i → (i < length l)%nat.
Proof.
  revert i. induction l as [|p l IH]; intros i; cbn; [done|].
  destruct (p =? id); [intros [= <-]; lia|]. destruct (position id l); [|done].
  intros [= <-]. specialize (IH _ eq_refl). lia.
Qed.
Lemma position_lookup id l i : position id l = Some i → l !! i = Some id.
Proof.
  revert i. induction l as [|p l IH]; intros i; cbn; [done|].
  destruct (N.eqb_spec p id) as [->|]; [by intros [= <-]|].
  destruct (position id l); [|done]. intros [= <-]. cbn. by apply IH.
Qed.
Lemma position_in id l : id ∈ l ↔ is_Some (position id l).
Proof.
  induction l as [|p l IH]; cbn; [split; [by intros ?%elem_of_nil|by intros []]|].
  rewrite elem_of_cons, IH. destruct (N.eqb_spec p id) as [->|Hne]; [split; [eauto|by left]|].
  destruct (position id l); cbn; split; naive_solver.
Qed.

(** What the connection to a peer has sent. *)
Definition peer_outbox s (id : NodeId) : option (list ClusterMessage.t) :=
  idx ← cluster_id_to_idx id s; slot ← peer_connections s !! idx; c ← slot;
  if closed c then None else Some (outgoing_messages c).
Definition client_outbox s (id : ClientId) : option (list ServerMessage.t) :=
  c ← client_connections s !! id; if closed c then None else Some (outgoing_messages c).

(** Routing.  A message to a peer is put on the connection to this peer if there is one that is
    open, and on no other connection; sending never panics. *)
Theorem send_to_cluster_routes to msg s :
  network_ok s →
  returns (send_to_cluster to msg) s (λ _ s', network_ok s' ∧
    client_connections s' = client_connections s ∧
    ∀ id, peer_outbox s' id = if decide (id = to) then (λ l, l ++ [msg]) <$> peer_outbox s id
                              else peer_outbox s id).
Proof.
  intros Hok. unfold send_to_cluster. wp. unfold peer_outbox, cluster_id_to_idx.
  destruct (position to (peers s)) as [idx|] eqn:Ep.
  2:{ wp. split_and!; [done..|]. intros id. case_decide; [subst|done]. by rewrite Ep. }
  pose proof (position_bound _ _ _ Ep) as Hlt.
  destruct (lookup_lt_is_Some_2 (peer_connections s) idx) as [slot Hslot]; [by rewrite Hok|].
  rewrite Hslot. wp.
  assert (Hother : ∀ (slot' : option (Connection ClusterMessage.t)) id i,
    position id (peers s) = Some i → id ≠ to →
    <[idx := slot']> (peer_connections s) !! i = peer_connections s !! i).
  { intros slot' id i Ei Hne. apply list_lookup_insert_ne. intros ->.
    apply Hne. apply position_lookup in Ei, Ep. congruence. }
  destruct slot as [c|]; wp.
  2:{ split_and!; [done..|]. intros id. case_decide; [subst|done]. rewrite Ep. cbn. by rewrite Hslot. }
  unfold connection_send. destruct (closed c) eqn:Ec; wp; unfold network_ok; cbn;
    rewrite length_insert; split_and!; try done; intros id; case_decide as Hd.
  - subst id. rewrite Ep. cbn. rewrite list_lookup_insert_eq by (rewrite Hok; lia). rewrite Hslot. cbn. by rewrite Ec.
  - destruct (position id (peers s)) as [i|] eqn:Ei; [|done]. cbn. by rewrite (Hother _ id i).
  - subst id. rewrite Ep. cbn. rewrite list_lookup_insert_eq by (rewrite Hok; lia). rewrite Hslot. cbn. by rewrite Ec.
  - destruct (position id (peers s)) as [i|] eqn:Ei; [|done]. cbn. by rewrite (Hother _ id i).
Qed.

Lemma send_to_client_spec to msg s :
  returns (send_to_client to msg) s (λ _ s', peers s' = peers s ∧
    peer_connections s' = peer_connections s ∧
    ∀ id, client_outbox s' id = if decide (id = to) then (λ l, l ++ [msg]) <$> client_outbox s id
                                else client_outbox s id).
Proof.
  unfold send_to_client. wp. unfold client_outbox.
  destruct (client_connections s !! to) as [c|] eqn:Ec; wp.
  2:{ split_and!; [done..|]. intros id. case_decide; [subst|done]. by rewrite Ec. }
  unfold connection_send. destruct (closed c) eqn:Ecl; wp; split_and!; try done; intros id;
    cbn; case_decide; subst.
  - rewrite lookup_delete_eq, Ec. cbn. by rewrite Ecl.
  - by rewrite lookup_delete_ne.
  - rewrite lookup_insert_eq, Ec. cbn. by rewrite Ecl.
  - by rewrite lookup_insert_ne.
Qed.

(** *** The start *)

Lemma unconnected_ok id nodes addrs : network_ok (unconnected id nodes addrs).
Proof. unfold network_ok. cbn. by rewrite length_replicate. Qed.

Lemma unconnected_peers id nodes addrs p :
  length nodes = length addrs → p ∈ peers (unconnected id nodes addrs) ↔ p ∈ nodes ∧ p ≠ id.
Proof.
  intros Hlen. cbn. rewrite list_elem_of_fmap. split.
  - intros ([n a] & -> & [Hne Hin]%list_elem_of_filter). split; [|done].
    by apply elem_of_zip_l in Hin.
  - intros [(i & Hi)%list_elem_of_lookup Hne]. apply lookup_lt_Some in Hi as Hlt.
    destruct (lookup_lt_is_Some_2 addrs i) as [a Ha]; [lia|]. exists (p, a). split; [done|].
    apply list_elem_of_filter. split; [done|]. apply list_elem_of_lookup. exists i.
    by rewrite lookup_zip_with, Hi, Ha.
Qed.

(** Of two servers exactly one connects to the other, if every node of the configuration has an
    address. *)
Lemma one_of_two_connects nodes addrs a b :
  length nodes = length addrs → a ∈ nodes → b ∈ nodes → a ≠ b →
  b ∈ peers_to_connect_to a (peers (unconnected a nodes addrs)) ↔
  a ∉ peers_to_connect_to b (peers (unconnected b nodes addrs)).
Proof.
  intros Hlen Ha Hb Hne. unfold peers_to_connect_to.
  rewrite !list_elem_of_filter, !unconnected_peers by done.
  destruct (decide (b < a)); split; intros; naive_solver lia.
Qed.

Definition peer_connected s (id : NodeId) : Prop :=
  ∃ idx c, cluster_id_to_idx id s = Some idx ∧ peer_connections s !! idx = Some (Some c).

(** What [initialize_connections] waits for. *)
Definition fully_connected (num_clients : N) s : Prop :=
  num_clients ≤ N.of_nat (size (client_connections s)) ∧ ∀ p, p ∈ peers s → peer_connected s p.

Lemma all_connected_spec s :
  network_ok s →
  forallb (λ c, match c with Some _ => true | None => false end) (peer_connections s) = true ↔
  ∀ i, (i < length (peers s))%nat → ∃ c, peer_connections s !! i = Some (Some c).
Proof.
  intros Hok. rewrite forallb_forall. split.
  - intros Hf i Hi. rewrite <-Hok in Hi. destruct (lookup_lt_is_Some_2 _ _ Hi) as [[c|] Hc]; [eauto|].
    by specialize (Hf None ltac:(by eapply list_elem_of_In, list_elem_of_lookup_2)).
  - intros Hall c (i & Hi)%list_elem_of_In%list_elem_of_lookup.
    destruct (Hall i) as [c' Hc]; [rewrite <-Hok; by eapply lookup_lt_Some|].
    by rewrite Hi in Hc; injection Hc as ->.
Qed.

Lemma connect_cases num_clients c s :
  NoDup (peers s) → network_ok s → (∀ p, c = ToPeer p → p ∈ peers s) →
  ∃ b s', connect num_clients c s = (Val b, s') ∧ network_ok s' ∧ peers s' = peers s ∧
    max_client_id s' = max_client_id s ∧
    client_connections s' = match c with
      | ToPeer _ => client_connections s
      | ToClient id => <[id := connection_new]> (client_connections s)
      end ∧
    (∀ q, peer_connected s' q ↔ peer_connected s q ∨ c = ToPeer q) ∧
    (b = true ↔ fully_connected num_clients s').
Proof.
  intros Hnd Hok Hp.
  assert (Hpos : ∀ i q, peers s !! i = Some q → position q (peers s) = Some i).
  { intros i q Hi. destruct (proj1 (position_in q (peers s))) as [j Hj]; [by eapply list_elem_of_lookup_2|].
    rewrite Hj. f_equal. eapply NoDup_lookup; [done|by apply position_lookup|done]. }
  assert (Hend : ∀ s', network_ok s' → peers s' = peers s →
    (num_clients <=? N.of_nat (size (client_connections s'))) &&
     forallb (λ c, match c with Some _ => true | None => false end) (peer_connections s') = true ↔
    fully_connected num_clients s').
  { intros s' Hok' Hpeers. unfold fully_connected. rewrite andb_true_iff, N.leb_le, all_connected_spec, Hpeers by done.
    apply and_iff_compat_l. unfold peer_connected, cluster_id_to_idx. rewrite Hpeers. split.
    - intros Hall p [i Hi]%position_in. destruct (Hall i (position_bound _ _ _ Hi)) as [x Hx].
      by exists i, x.
    - intros Hall i [q Hq]%lookup_lt_is_Some_2.
      destruct (Hall q) as (j & x & Hj & Hx); [by eapply list_elem_of_lookup_2|].
      rewrite (Hpos _ _ Hq) in Hj. injection Hj as <-. eauto. }
  destruct c as [p|id].
  - destruct (proj1 (position_in p (peers s)) (Hp p eq_refl)) as [i Hi].
    unfold connect, bind, gets, modify, ret, unwrap, cluster_id_to_idx. rewrite Hi.
    eexists _, _. split; [reflexivity|].
    assert (Hok' : network_ok (s <| peer_connections ::= <[i:=Some connection_new]> |>))
      by (unfold network_ok; cbn; by rewrite length_insert).
    split_and!; try done; [|by apply Hend].
    intros q. unfold peer_connected, cluster_id_to_idx. cbn.
    pose proof (position_bound _ _ _ Hi) as Hlt. rewrite <-Hok in Hlt. split.
    + intros (j & x & Hj & Hx). destruct (decide (j = i)) as [->|Hne].
      * right. apply position_lookup in Hi, Hj. congruence.
      * left. rewrite list_lookup_insert_ne in Hx by done. eauto.
    + intros [(j & x & Hj & Hx)|[= <-]].
      * exists j. destruct (decide (j = i)) as [->|Hne].
        -- rewrite list_lookup_insert_eq by done. eauto.
        -- rewrite list_lookup_insert_ne by done. eauto.
      * exists i. rewrite list_lookup_insert_eq by done. eauto.
  - unfold connect, bind, gets, modify, ret. eexists _, _. split; [reflexivity|].
    split_and!; try done; [|by apply Hend]. intros q. split; [by left|by intros [?|?]].
Qed.

Lemma connect_step num_clients c s :
  network_ok s → (∀ p, c = ToPeer p → p ∈ peers s) →
  returns (connect num_clients c) s (λ r s', network_ok s' ∧ peers s' = peers s ∧
    (r = true → num_clients ≤ N.of_nat (size (client_connections s')) ∧
                ∀ p, p ∈ peers s' → peer_connected s' p)).
Proof.
  intros Hok Hp. unfold connect.
  assert (Hall : ∀ s', network_ok s' →
    forallb (λ c, match c with Some _ => true | None => false end) (peer_connections s') = true →
    ∀ p, p ∈ peers s' → peer_connected s' p).
  { intros s' Hok' Hf p [idx Hidx]%position_in. pose proof (position_bound _ _ _ Hidx) as Hlt.
    destruct (lookup_lt_is_Some_2 (peer_connections s') idx) as [slot Hslot]; [by rewrite Hok'|].
    rewrite forallb_forall in Hf. destruct slot as [con|]; [by exists idx, con|].
    exfalso. by specialize (Hf None ltac:(by eapply list_elem_of_In, list_elem_of_lookup_2)). }
  assert (Hend : ∀ s', network_ok s' → peers s' = peers s → network_ok s' ∧ peers s' = peers s ∧
    ((num_clients <=? N.of_nat (size (client_connections s'))) &&
     forallb (λ c, match c with Some _ => true | None => false end) (peer_connections s') = true →
     num_clients ≤ N.of_nat (size (client_connections s')) ∧
     ∀ p, p ∈ peers s' → peer_connected s' p)).
  { intros s' Hok' Hp'. split_and!; [done..|]. intros [Hn Hf]%andb_true_iff.
    split; [by apply N.leb_le|by apply Hall]. }
  destruct c as [p|cl]; wp.
  - destruct (proj1 (position_in p (peers s)) (Hp p eq_refl)) as [idx Hidx].
    unfold cluster_id_to_idx. rewrite Hidx. wp. apply Hend; [|done].
    unfold network_ok. cbn. by rewrite length_insert.
  - by apply Hend.
Qed.

(** A server starts connected.  When [initialize_connections] ends, as many clients as
    configured and every peer are connected; until then it neither panics nor ends, if only
    configured peers connect. *)
Theorem initialize_connects_everybody num_clients cs s :
  network_ok s → (∀ p, ToPeer p ∈ cs → p ∈ peers s) →
  returns (initialize_connections num_clients cs) s (λ r s', network_ok s' ∧
    peers s' = peers s ∧
    (r = true → num_clients ≤ N.of_nat (size (client_connections s')) ∧
                ∀ p, p ∈ peers s' → peer_connected s' p)).
Proof.
  revert s. induction cs as [|c cs IH]; intros s Hok Hp; cbn [initialize_connections]; wp.
  { split_and!; done. }
  eapply returns_mono.
  { apply (connect_step num_clients c s); [done|]. intros p ->. apply Hp. left. }
  intros r s' (Hok' & Hpeers & Hr). cbv beta. destruct r; wp; [by split_and!|].
  eapply returns_mono; [apply IH; [done|]|].
  - intros p Hin. rewrite Hpeers. apply Hp. by right.
  - cbn. intros r s'' (? & Hpe & ?). split_and!; [done|congruence|done].
Qed.

(** The clients of a server are numbered from 1. *)
Lemma register_client s :
  max_client_id s + 1 < u64_mod →
  register RegistrationMessage.ClientRegister s =
  (Val (ToClient (max_client_id s + 1)), s <| max_client_id := max_client_id s + 1 |>).
Proof. intros Hlt. unfold register, bind, gets, lift. by rewrite wadd_exact. Qed.
End network.
