(* ===== verification/Framing.v ===== *)
(** * Framed connections and their handshake (src/src/common.rs, module utils; network.rs)

    A TCP stream is framed twice: for the registration message, and, after [into_inner] has taken the
    stream back, for the messages of the connection.  A framed half is what it does to bytes: the
    items in what has arrived, or the bytes of a message. *)

From S2P Require Import Prelude Util Codecs Messages Kv.

Section framing.
Context `{LengthDelimited, Bincode RegistrationMessage.t bytes, Bincode ClusterMessage.t bytes,
  Bincode ServerMessage.t bytes, Bincode ClientMessage.t bytes}.

(** The two halves of a stream. *)
Definition From_ (Msg : Type) : Type := bytes → list (result Msg unit).
Definition To_ (Msg : Type) : Type := Msg → option bytes.

Definition RegistrationConnection : Type := From_ RegistrationMessage.t * To_ RegistrationMessage.t.
Definition frame_registration_connection : RegistrationConnection := (items RegistrationMessage.t, encode).

Definition FromNodeConnection : Type := From_ ClusterMessage.t.
Definition ToNodeConnection : Type := To_ ClusterMessage.t.
Definition frame_cluster_connection : FromNodeConnection * ToNodeConnection :=
  (items ClusterMessage.t, encode).

Definition FromServerConnection : Type := From_ ServerMessage.t.
Definition ToServerConnection : Type := To_ ClientMessage.t.
Definition frame_clients_connection : FromServerConnection * ToServerConnection :=
  (items ServerMessage.t, encode).

Definition FromClientConnection : Type := From_ ClientMessage.t.
Definition ToClientConnection : Type := To_ ServerMessage.t.
Definition frame_servers_connection : FromClientConnection * ToClientConnection :=
  (items ClientMessage.t, encode).

(** [handle_incoming_connection] up to [into_inner]: [n] of the bytes of the stream have been read into
    the buffer when the first message is found there.  [into_inner] gives back the socket without the
    buffer.  The result is the message and the bytes that the new connection will see. *)
Definition read_registration (stream : bytes) (n : nat) :
    option (result RegistrationMessage.t unit * bytes) :=
  (λ r, (r, drop n stream)) <$> head (frame_registration_connection.1 (take n stream)).
End framing.

Section handshake.
Context `{LengthDelimitedLaws, Bincode RegistrationMessage.t bytes,
  !BincodeLaws RegistrationMessage.t bytes}.

(** The handler waits for the whole handshake, and identifies the connection by it.  All that was read
    together with it is lost. *)
Lemma registration_takes_the_buffer m f rest n :
  encode m = Some f → (n ≤ length (f ++ rest))%nat →
  read_registration (f ++ rest) n =
  if decide (length f ≤ n)%nat then Some (Ok m, drop (n - length f) rest) else None.
Proof.
  intros Ef Hn. unfold read_registration, frame_registration_connection. cbn [fst]. unfold items.
  destruct (decide _) as [Hle|Hlt].
  - rewrite take_app_ge, drop_app_ge by lia.
    by destruct (frames_first m f (take (n - length f) rest) _ Ef (le_n _)) as (fuel & _ & ->).
  - rewrite take_app_le by lia. rewrite (frames_incomplete m f); [done..|apply prefix_take|].
    intros E%(f_equal length). rewrite length_take in E. lia.
Qed.
End handshake.
