(* ===== verification/Startup.v ===== *)
(** * Starting a cluster (src/src/server/network.rs, src/src/client/network.rs)

    Every server runs a listener, a handler per incoming connection, a connector per peer with a
    smaller identifier, and its main task, which waits in [initialize_connections] until everybody is
    connected.  An [event] is what one of these tasks does from one wait to the next, or what the TCP
    connections between them do.  Operations that can fail ([ok]) are retried or not as in the
    source: a connector tries to connect once a second, but a handshake it cannot send ends it. *)

From S2P Require Import Prelude Util Time StorageApi Messages Kv Network.

(** The capacity of the channel of new connections. *)
Definition CONNECTION_CHANNEL : N := 30.

Inductive listener : Type := Unbound | Listening | Closed.
(** Where a task of [spawn_peer_connectors] is: connecting, connected, the handshake sent, the
    connection handed to the main task; [Gone]: the handshake could not be sent. *)
Inductive connector : Type := Trying | Open | Registered | Reported | Gone.
(** What the acceptor of a connection finds on it. *)
Inductive handshake : Type := Waiting | Sent | Ended.
#[export] Instance listener_eq_dec : EqDecision listener.
Proof. solve_decision. Defined.
#[export] Instance connector_eq_dec : EqDecision connector.
Proof. solve_decision. Defined.
#[export] Instance handshake_eq_dec : EqDecision handshake.
Proof. solve_decision. Defined.
#[export] Instance NewConnection_eq_dec : EqDecision NewConnection.
Proof. solve_decision. Defined.

(** [incoming]: the connections from peers whose handshake has not been read, and whether the
    listener has accepted them.  The connections of clients are alike, so that they are counted:
    clients that have not connected yet, connections in the backlog of the listener, and handlers.
    [identified]: handlers that have read a handshake and wait for room in [channel].  [ready]:
    [initialize_connections] has returned. *)
Record server : Type := mkServer {
  network : Network.t;
  listens : listener;
  connectors : gmap NodeId connector;
  incoming : gmap NodeId (bool * handshake);
  clients_left : nat;
  client_backlog : nat;
  client_handlers : nat;
  identified : list NewConnection;
  channel : list NewConnection;
  ready : bool
}.
#[global] Instance settable_network : Settable network := λ f r,
  mkServer (f (network r)) (listens r) (connectors r) (incoming r) (clients_left r)
    (client_backlog r) (client_handlers r) (identified r) (channel r) (ready r).
#[global] Instance settable_listens : Settable listens := λ f r,
  mkServer (network r) (f (listens r)) (connectors r) (incoming r) (clients_left r)
    (client_backlog r) (client_handlers r) (identified r) (channel r) (ready r).
#[global] Instance settable_connectors : Settable connectors := λ f r,
  mkServer (network r) (listens r) (f (connectors r)) (incoming r) (clients_left r)
    (client_backlog r) (client_handlers r) (identified r) (channel r) (ready r).
#[global] Instance settable_incoming : Settable incoming := λ f r,
  mkServer (network r) (listens r) (connectors r) (f (incoming r)) (clients_left r)
    (client_backlog r) (client_handlers r) (identified r) (channel r) (ready r).
#[global] Instance settable_clients_left : Settable clients_left := λ f r,
  mkServer (network r) (listens r) (connectors r) (incoming r) (f (clients_left r))
    (client_backlog r) (client_handlers r) (identified r) (channel r) (ready r).
#[global] Instance settable_client_backlog : Settable client_backlog := λ f r,
  mkServer (network r) (listens r) (connectors r) (incoming r) (clients_left r)
    (f (client_backlog r)) (client_handlers r) (identified r) (channel r) (ready r).
#[global] Instance settable_client_handlers : Settable client_handlers := λ f r,
  mkServer (network r) (listens r) (connectors r) (incoming r) (clients_left r) (client_backlog r)
    (f (client_handlers r)) (identified r) (channel r) (ready r).
#[global] Instance settable_identified : Settable identified := λ f r,
  mkServer (network r) (listens r) (connectors r) (incoming r) (clients_left r) (client_backlog r)
    (client_handlers r) (f (identified r)) (channel r) (ready r).
#[global] Instance settable_channel : Settable channel := λ f r,
  mkServer (network r) (listens r) (connectors r) (incoming r) (clients_left r) (client_backlog r)
    (client_handlers r) (identified r) (f (channel r)) (ready r).
#[global] Instance settable_ready : Settable ready := λ f r,
  mkServer (network r) (listens r) (connectors r) (incoming r) (clients_left r) (client_backlog r)
    (client_handlers r) (identified r) (channel r) (f (ready r)).

Definition cluster : Type := NodeId → server.
Definition set_server (i : NodeId) (s : server) (σ : cluster) : cluster :=
  λ j, if decide (j = i) then s else σ j.

Inductive event : Type :=
  | Bind (i : NodeId) (ok : bool)
  | Connect (i p : NodeId) (ok : bool)
  | Handshake (i p : NodeId) (ok : bool)
  | Report (i p : NodeId)
  | Accept (i p : NodeId)
  | Identify (i p : NodeId)
  | Deliver (i : NodeId) (k : nat)
  | ConnectClient (i : NodeId)
  | AcceptClient (i : NodeId)
  | IdentifyClient (i : NodeId)
  | Receive (i : NodeId).

Section startup.
Context `{Build} (nodes : list NodeId) (node_addrs : list string) (num_clients : NodeId → N).

Definition start_server (my_id : NodeId) : server :=
  let network := Network.unconnected my_id nodes node_addrs in {|
  network := network; listens := Unbound;
  connectors := list_to_map ((λ p, (p, Trying)) <$> Network.peers_to_connect_to my_id (Network.peers network));
  incoming := ∅; clients_left := N.to_nat (num_clients my_id); client_backlog := 0; client_handlers := 0;
  identified := []; channel := []; ready := false
|}.
Definition start_cluster : cluster := start_server.

(** [connection_sender.send(new_connection).await.unwrap()]: waits while the channel is full; when the
    receiver is gone the sending task panics, which ends this task only. *)
Definition send_new_connection (c : NewConnection) (s : server) : option server :=
  if ready s then Some s
  else if len (channel s) <? CONNECTION_CHANNEL then Some (s <| channel ::= λ l, l ++ [c] |>) else None.

(** The listener. *)
Definition bind_listener (ok : bool) (s : server) : option server :=
  match listens s with
  | Unbound => Some (s <| listens := if ok then Listening else Closed |>)
  | _ => None
  end.
Definition accept (p : NodeId) (s : server) : option server :=
  match listens s, incoming s !! p with
  | Listening, Some (false, h) => Some (s <| incoming ::= <[p := (true, h)]> |>)
  | _, _ => None
  end.
Definition accept_client (s : server) : option server :=
  match listens s, client_backlog s with
  | Listening, S n => Some (s <| client_backlog := n |> <| client_handlers ::= S |>)
  | _, _ => None
  end.

(** [handle_incoming_connection]: reading the handshake. *)
Definition identify_with (m : RegistrationMessage.t) (s : server) : option server :=
  match Network.register m (network s) with
  | (Val c, n) => Some (s <| network := n |> <| identified ::= λ l, l ++ [c] |>)
  | (Panic _, n) => Some (s <| network := n |>)
  end.
Definition identify (p : NodeId) (s : server) : option server :=
  match incoming s !! p with
  | Some (true, Sent) => identify_with (RegistrationMessage.NodeRegister p) (s <| incoming ::= delete p |>)
  | Some (true, Ended) => Some (s <| incoming ::= delete p |>)
  | _ => None
  end.
Definition identify_client (s : server) : option server :=
  match client_handlers s with
  | S n => identify_with RegistrationMessage.ClientRegister (s <| client_handlers := n |>)
  | O => None
  end.
Definition deliver (k : nat) (s : server) : option server :=
  c ← identified s !! k; send_new_connection c (s <| identified ::= delete k |>).

(** A client connects and sends its handshake ([get_server_connection] of the client). *)
Definition connect_client (s : server) : option server :=
  match listens s, clients_left s with
  | Listening, S n => Some (s <| clients_left := n |> <| client_backlog ::= S |>)
  | _, _ => None
  end.

(** The main task.  When everybody is connected, the listener is aborted, with the connections that it
    has not accepted, and the receiver of the channel is dropped. *)
Definition receive (num_clients : N) (s : server) : option server :=
  match ready s, channel s with
  | false, c :: cs =>
      match Network.connect num_clients c (network s) with
      | (Val false, n) => Some (s <| network := n |> <| channel := cs |>)
      | (Val true, n) => Some (s <| network := n |> <| channel := [] |> <| ready := true |>
          <| listens := Closed |> <| client_backlog := 0%nat |>
          <| incoming ::= filter (λ x, x.2.1 = true) |>)
      | (Panic _, _) => None
      end
  | _, _ => None
  end.

(** The connector of [i] for [p]. *)
Definition connect_peer (i p : NodeId) (ok : bool) (σ : cluster) : option cluster :=
  match connectors (σ i) !! p, listens (σ p) with
  | Some Trying, Listening =>
      Some (if ok then
        set_server i ((σ i) <| connectors ::= <[p := Open]> |>)
          (set_server p ((σ p) <| incoming ::= <[i := (false, Waiting)]> |>) σ)
      else σ)
  | _, _ => None
  end.
Definition send_handshake (i p : NodeId) (ok : bool) (σ : cluster) : option cluster :=
  match connectors (σ i) !! p with
  | Some Open => Some (
      set_server i ((σ i) <| connectors ::= <[p := if ok then Registered else Gone]> |>)
        (set_server p ((σ p) <| incoming ::= alter (λ x, (x.1, if ok then Sent else Ended)) i |>) σ))
  | _ => None
  end.
Definition report (p : NodeId) (s : server) : option server :=
  match connectors s !! p with
  | Some Registered => send_new_connection (ToPeer p) (s <| connectors ::= <[p := Reported]> |>)
  | _ => None
  end.

Definition on (i : NodeId) (f : server → option server) (σ : cluster) : option cluster :=
  s ← f (σ i); Some (set_server i s σ).
Definition exec (e : event) (σ : cluster) : option cluster :=
  match e with
  | Bind i ok => on i (bind_listener ok) σ
  | Connect i p ok => connect_peer i p ok σ
  | Handshake i p ok => send_handshake i p ok σ
  | Report i p => on i (report p) σ
  | Accept i p => on i (accept p) σ
  | Identify i p => on i (identify p) σ
  | Deliver i k => on i (deliver k) σ
  | ConnectClient i => on i connect_client σ
  | AcceptClient i => on i accept_client σ
  | IdentifyClient i => on i identify_client σ
  | Receive i => on i (receive (num_clients i)) σ
  end.
Fixpoint run (es : list event) (σ : cluster) : option cluster :=
  match es with [] => Some σ | e :: es => σ ← exec e σ; run es σ end.

(** The events of this cluster, and those in which nothing fails. *)
Definition of_cluster (e : event) : Prop :=
  match e with
  | Connect i p _ | Handshake i p _ | Report i p | Accept i p | Identify i p => i ∈ nodes ∧ p ∈ nodes
  | Bind i _ | Deliver i _ | ConnectClient i | AcceptClient i | IdentifyClient i | Receive i => i ∈ nodes
  end.
Definition succeeds (e : event) : bool :=
  match e with Bind _ ok | Connect _ _ ok | Handshake _ _ ok => ok | _ => true end.
(** Only connecting is retried. *)
Definition recoverable (e : event) : bool :=
  match e with Bind _ ok | Handshake _ _ ok => ok | _ => true end.
End startup.

(** ** The invariant *)

Definition to_client (c : NewConnection) : option ClientId :=
  match c with ToClient id => Some id | ToPeer _ => None end.
(** The connections on their way to the main task; [known]: this peer is connected, or about to be. *)
Definition pending (s : server) : list NewConnection := identified s ++ channel s.
Definition known (s : server) (q : NodeId) : Prop :=
  ToPeer q ∈ pending s ∨ peer_connected (network s) q.
Definition handshake_of (s : server) (q : NodeId) : option handshake := snd <$> incoming s !! q.
Definition client_ids (s : server) : list ClientId :=
  omap to_client (pending s) ++ (map_to_list (Network.client_connections (network s))).*1.

Section invariant.
Context `{Build} (nodes : list NodeId) (node_addrs : list string) (num_clients : NodeId → N).
Context (Hnodes : NoDup nodes) (Haddrs : length nodes = length node_addrs)
  (Hclients : ∀ i, num_clients i < u64_mod).
Implicit Types s : server.
Implicit Types σ : cluster.
#[local] Abbreviation exec := (exec num_clients).
#[local] Abbreviation run := (run num_clients).

Definition counted (i : NodeId) s : Prop :=
  N.to_nat (num_clients i) =
    (clients_left s + client_backlog s + client_handlers s + N.to_nat (Network.max_client_id (network s)))%nat ∧
  client_ids s ≡ₚ N.of_nat <$> seq 1 (N.to_nat (Network.max_client_id (network s))).

(** What holds of every server: the clients are numbered from 1 in the order in which they are
    identified, each of them is on its way or connected; the main task waits as long as somebody is
    missing. *)
Record server_ok (i : NodeId) s : Prop := {
  so_peers p : p ∈ Network.peers (network s) ↔ p ∈ nodes ∧ p ≠ i;
  so_nodup : NoDup (Network.peers (network s));
  so_network : network_ok (network s);
  so_pending p : ToPeer p ∈ pending s → p ∈ nodes ∧ p ≠ i;
  so_incoming (p : NodeId) x : incoming s !! p = Some x → p ∈ nodes ∧ i < p;
  so_connectors (p : NodeId) c : connectors s !! p = Some c → p < i;
  so_ready : if ready s
    then fully_connected (num_clients i) (network s) ∧ channel s = [] ∧ listens s = Closed
    else ¬ fully_connected (num_clients i) (network s) ∨
         (num_clients i = 0 ∧ Network.peers (network s) = []);
  so_counted : counted i s
}.

(** What holds of the connection from [i] to [p]: where its connector is, whether each end knows of the
    other, and the handshake that [p] will read. *)
Definition pair_ok (c : option connector) (i_knows p_knows : Prop) (h : option handshake) : Prop :=
  match c with
  | None => False
  | Some Trying => ¬ i_knows ∧ ¬ p_knows ∧ h = None
  | Some Open => ¬ i_knows ∧ ¬ p_knows ∧ h = Some Waiting
  | Some Registered => ¬ i_knows ∧ (h = Some Sent ∨ p_knows)
  | Some Reported => i_knows ∧ (h = Some Sent ∨ p_knows)
  | Some Gone => ¬ i_knows ∧ ¬ p_knows ∧ h ≠ Some Sent
  end.
#[local] Instance pair_ok_proper c : Proper (iff ==> iff ==> eq ==> iff) (pair_ok c).
Proof. intros k k' Hk l l' Hl h h' ->. destruct c as [[]|]; cbn; by rewrite ?Hk, ?Hl. Qed.
Definition pairs_ok σ : Prop := ∀ i p : NodeId, i ∈ nodes → p ∈ nodes → p < i →
  pair_ok (connectors (σ i) !! p) (known (σ i) p) (known (σ p) i) (handshake_of (σ p) i).
Definition cluster_ok σ : Prop := (∀ i, i ∈ nodes → server_ok i (σ i)) ∧ pairs_ok σ.

(** *** The start *)

Lemma client_ids_start i : client_ids (start_server nodes node_addrs num_clients i) = [].
Proof. unfold client_ids. cbn. by rewrite map_to_list_empty. Qed.

Lemma unconnected_nobody i q : ¬ peer_connected (Network.unconnected i nodes node_addrs) q.
Proof.
  intros (j & c & _ & Hc). cbn in Hc. by apply lookup_replicate in Hc as [Hc _].
Qed.

Lemma unconnected_nodup i : NoDup (Network.peers (Network.unconnected i nodes node_addrs)).
Proof.
  cbn. assert (Hz : NoDup (zip nodes node_addrs).*1) by (rewrite fst_zip by lia; done).
  revert Hz. generalize (zip nodes node_addrs). intros l. induction l as [|[a b] l IH]; [done|].
  rewrite fmap_cons, NoDup_cons. intros [Ha Hl]. rewrite filter_cons. case_decide; [|auto].
  rewrite fmap_cons, NoDup_cons. split; [|auto]. intros Hin. apply Ha.
  apply list_elem_of_fmap in Hin as (x & Hx & Hin). apply list_elem_of_filter in Hin as [_ Hin].
  rewrite Hx. by apply list_elem_of_fmap_2.
Qed.

Lemma start_connectors i p :
  connectors (start_server nodes node_addrs num_clients i) !! p =
  if decide (p ∈ nodes ∧ p < i) then Some Trying else None.
Proof.
  cbn [connectors start_server]. set (l := Network.peers_to_connect_to _ _).
  assert (Hl : p ∈ l ↔ p ∈ nodes ∧ p < i).
  { unfold l, Network.peers_to_connect_to. rewrite list_elem_of_filter, unconnected_peers by done.
    split; [intros [? [? _]]; done|]. intros [? ?]. split_and!; [done..|lia]. }
  destruct (decide (p ∈ nodes ∧ p < i)) as [Hp|Hp]; rewrite <-Hl in Hp.
  - apply elem_of_list_to_map_1.
    + rewrite <-list_fmap_compose. change (NoDup (id <$> l)). rewrite list_fmap_id. apply NoDup_filter, unconnected_nodup.
    + apply list_elem_of_fmap. eauto.
  - apply not_elem_of_list_to_map_1. rewrite <-list_fmap_compose. change (p ∉ id <$> l). by rewrite list_fmap_id.
Qed.

Lemma start_cluster_ok : cluster_ok (start_cluster nodes node_addrs num_clients).
Proof.
  split.
  - intros i Hi. constructor; cbn [network start_server start_cluster ready pending identified channel].
    + intros p. by apply unconnected_peers.
    + apply unconnected_nodup.
    + apply unconnected_ok.
    + by intros p ?%elem_of_nil.
    + done.
    + intros p c Hc. unfold start_cluster in Hc. rewrite start_connectors in Hc. case_decide; naive_solver.
    + destruct (decide (num_clients i = 0)) as [H0|H0].
      2: { left. intros [Hn _]. cbn in Hn. rewrite map_size_empty in Hn. lia. }
      destruct (Network.peers _) as [|p l] eqn:Hp; [by right|left]. intros [_ Hall].
      apply (unconnected_nobody i p), Hall. rewrite Hp. by left.
    + split; [cbn; lia|]. unfold start_cluster. by rewrite client_ids_start.
  - intros i p Hi Hp Hlt. unfold start_cluster. rewrite start_connectors, decide_True by done.
    cbn. unfold known, pending. cbn. split_and!; [..|done]; intros [?%elem_of_nil|?%unconnected_nobody]; done.
Qed.
(** *** Steps of one server *)

Lemma full_clients i s :
  counted i s → fully_connected (num_clients i) (network s) →
  clients_left s = 0%nat ∧ client_backlog s = 0%nat ∧ client_handlers s = 0%nat ∧
  omap to_client (pending s) = [].
Proof.
  intros [Hc Hids] [Hn _]. pose proof (Permutation_length Hids) as Hl.
  unfold client_ids in Hl. rewrite length_app, !length_fmap, length_map_to_list, length_seq in Hl.
  split_and!; [lia..|]. apply length_zero_iff_nil. lia.
Qed.
Lemma full_known i s q :
  server_ok i s → fully_connected (num_clients i) (network s) → q ∈ nodes → q ≠ i →
  peer_connected (network s) q.
Proof. intros Hok [_ Hall] Hq Hne. apply Hall, (so_peers _ _ Hok). done. Qed.

(** A step that the peers do not see: nobody new is known, and a handshake disappears only if its sender
    is connected. *)
Record quiet (i : NodeId) s s' : Prop := {
  q_ok : server_ok i s';
  q_connectors : connectors s' = connectors s;
  q_known q : q ∈ nodes → q ≠ i → known s' q ↔ known s q;
  q_handshake q : q ∈ nodes → q ≠ i → handshake_of s' q = handshake_of s q ∨ known s' q
}.

Lemma set_server_eq i s σ : set_server i s σ i = s.
Proof. unfold set_server. by rewrite decide_True. Qed.
Lemma set_server_ne i j s σ : j ≠ i → set_server i s σ j = σ j.
Proof. intros Hne. unfold set_server. by rewrite decide_False. Qed.

Lemma set_server_ok j s' σ :
  cluster_ok σ → j ∈ nodes → server_ok j s' →
  (∀ (p : NodeId) k h, p ∈ nodes → p < j →
    pair_ok (connectors (σ j) !! p) (known (σ j) p) k h → pair_ok (connectors s' !! p) (known s' p) k h) →
  (∀ (i : NodeId) c k, i ∈ nodes → j < i →
    pair_ok c k (known (σ j) i) (handshake_of (σ j) i) → pair_ok c k (known s' i) (handshake_of s' i)) →
  cluster_ok (set_server j s' σ).
Proof.
  intros [Hok Hpairs] Hj Hs' Hout Hin. split.
  - intros i Hi. destruct (decide (i = j)) as [->|Hne]; [by rewrite set_server_eq|].
    rewrite set_server_ne by done. by apply Hok.
  - intros i p Hi Hp Hlt. specialize (Hpairs i p Hi Hp Hlt).
    destruct (decide (i = j)) as [->|Hij], (decide (p = j)) as [->|Hpj]; [lia|..];
      rewrite ?set_server_eq, ?set_server_ne by done; auto.
Qed.

Lemma quiet_ok j s' σ :
  cluster_ok σ → j ∈ nodes → quiet j (σ j) s' → cluster_ok (set_server j s' σ).
Proof.
  intros Hσ Hj [Hok Hc Hk Hh]. apply set_server_ok; [done..| |].
  - intros p k h Hp Hlt. rewrite Hc. specialize (Hk p Hp ltac:(lia)).
    destruct (connectors (σ j) !! p) as [[]|]; cbn; tauto.
  - intros i c k Hi Hlt. specialize (Hk i Hi ltac:(lia)). destruct (Hh i Hi ltac:(lia)) as [->|Hknown];
      destruct c as [[]|]; cbn; tauto.
Qed.

Lemma pending_quiet i s s' :
  server_ok i s → network s' = network s → connectors s' = connectors s → ready s' = ready s →
  (ready s = true → listens s' = Closed ∧ channel s' = []) → pending s' ≡ₚ pending s →
  (∀ q, handshake_of s' q = handshake_of s q) →
  (clients_left s' + client_backlog s' + client_handlers s' =
   clients_left s + client_backlog s + client_handlers s)%nat →
  quiet i s s'.
Proof.
  intros Hok Hn Hc Hr Hl Hp Hh Hcl.
  assert (Hknown : ∀ q, known s' q ↔ known s q) by (intros q; unfold known; by rewrite Hn, Hp).
  constructor; [|done|auto|auto]. destruct Hok as [? ? ? Hpe Hi Hco Hre [Hcli Hids]]. constructor; rewrite ?Hn; try done.
  - intros p. rewrite Hp. apply Hpe.
  - intros p x Hx. specialize (Hh p). unfold handshake_of in Hh. rewrite Hx in Hh.
    destruct (incoming s !! p) eqn:E; [by eapply Hi|done].
  - rewrite Hc. apply Hco.
  - rewrite Hr. destruct (ready s); [|done]. destruct Hre as (? & _ & _). destruct (Hl eq_refl). auto.
  - split; [by rewrite Hn, Hcli, Hcl|]. unfold client_ids. by rewrite Hn, Hp.
Qed.
Lemma ready_not_listening i s : server_ok i s → listens s ≠ Closed → ready s = false.
Proof. intros Hok Hl. pose proof (so_ready _ _ Hok) as Hr. destruct (ready s); naive_solver. Qed.

Lemma bind_quiet i ok s s' : server_ok i s → bind_listener ok s = Some s' → quiet i s s'.
Proof.
  intros Hok. unfold bind_listener. destruct (listens s) eqn:El; [|done..]. intros [= <-].
  assert (Hr : ready s = false) by (eapply ready_not_listening; [done|by rewrite El]).
  apply pending_quiet; try done. by rewrite Hr.
Qed.
Lemma accept_quiet i p s s' : server_ok i s → accept p s = Some s' → quiet i s s'.
Proof.
  intros Hok. unfold accept. destruct (listens s) eqn:El; [done| |done].
  assert (Hr : ready s = false) by (eapply ready_not_listening; [done|by rewrite El]).
  destruct (incoming s !! p) as [[[] h]|] eqn:E; [done| |done]. intros [= <-].
  apply pending_quiet; try done; [by rewrite Hr|]. intros q. unfold handshake_of. cbn.
  destruct (decide (q = p)) as [->|]; [by rewrite lookup_insert_eq, E|by rewrite lookup_insert_ne].
Qed.
Lemma accept_client_quiet i s s' : server_ok i s → accept_client s = Some s' → quiet i s s'.
Proof.
  intros Hok. unfold accept_client. destruct (listens s) eqn:El; [done| |done].
  assert (Hr : ready s = false) by (eapply ready_not_listening; [done|by rewrite El]).
  destruct (client_backlog s) as [|n] eqn:E; [done|]. intros [= <-].
  apply pending_quiet; try done; [by rewrite Hr|]. cbn. lia.
Qed.
Lemma connect_client_quiet i s s' : server_ok i s → connect_client s = Some s' → quiet i s s'.
Proof.
  intros Hok. unfold connect_client. destruct (listens s) eqn:El; [done| |done].
  assert (Hr : ready s = false) by (eapply ready_not_listening; [done|by rewrite El]).
  destruct (clients_left s) as [|n] eqn:E; [done|]. intros [= <-].
  apply pending_quiet; try done; [by rewrite Hr|]. cbn. lia.
Qed.

Lemma deliver_quiet i k s s' : server_ok i s → deliver k s = Some s' → quiet i s s'.
Proof.
  intros Hok. unfold deliver, send_new_connection. destruct (identified s !! k) as [c|] eqn:Ek; [|done]. cbn.
  pose proof (delete_Permutation _ _ _ Ek) as Hperm. pose proof (so_ready _ _ Hok) as Hready.
  destruct (ready s) eqn:Hr.
  - intros [= <-]. destruct Hready as (Hfull & Hch & Hcl).
    destruct (full_clients _ _ (so_counted _ _ Hok) Hfull) as (_ & _ & _ & Hids).
    assert (Hpend : pending s ≡ₚ c :: delete k (identified s) ++ channel s)
      by (unfold pending; by rewrite Hperm at 1).
    assert (Hnone : to_client c = None ∧ omap to_client (delete k (identified s) ++ channel s) = []).
    { assert (Hlen : omap to_client (c :: delete k (identified s) ++ channel s) ≡ₚ [])
        by (by rewrite <-Hids, Hpend). apply Permutation_nil_r in Hlen. cbn in Hlen.
      destruct (to_client c); [done|auto]. }
    assert (Hknown : ∀ q, q ∈ nodes → q ≠ i → known (s <| identified ::= delete k |>) q ↔ known s q).
    { intros q Hq Hne. pose proof (full_known _ _ _ Hok Hfull Hq Hne). unfold known. split; right; done. }
    constructor; [|done|done|auto]. destruct Hok as [? ? ? Hpe Hi Hco Hre [Hcli Hid]]. constructor; try done.
    + intros p Hp. apply Hpe. rewrite Hpend. right. apply Hp.
    + split; [done|]. unfold client_ids in *. unfold pending in *. cbn. rewrite (proj2 Hnone). rewrite Hids in Hid. done.
  - destruct (len (channel s) <? CONNECTION_CHANNEL); [|done]. intros [= <-].
    apply pending_quiet; try done; [by rewrite Hr|]. unfold pending. cbn. rewrite Hperm at 2.
    by rewrite app_assoc, Permutation_app_comm.
Qed.
Lemma identify_client_quiet i s s' : server_ok i s → identify_client s = Some s' → quiet i s s'.
Proof.
  intros Hok. unfold identify_client, identify_with. destruct (client_handlers s) as [|n] eqn:En; [done|].
  destruct (so_counted _ _ Hok) as [Hcount Hids]. specialize (Hclients i). rewrite En in Hcount.
  cbn [network]. rewrite register_client by (cbn; lia). intros [= <-].
  set (m := Network.max_client_id (network s) + 1).
  assert (Hpend : pending (s <| client_handlers := n |>
      <| network := (network s) <| Network.max_client_id := m |> |>
      <| identified ::= λ l, l ++ [ToClient m] |>) ≡ₚ ToClient m :: pending s)
    by (unfold pending; cbn; rewrite <-app_assoc; symmetry; apply Permutation_middle).
  constructor; [|done| |auto].
  - destruct Hok as [? ? ? Hpe Hi Hco Hre _]. constructor; try done.
    + intros p. rewrite Hpend. intros [?|?]%elem_of_cons; [done|auto].
    + split; [cbn; lia|]. unfold client_ids in *. rewrite Hpend. cbn. rewrite Hids.
      replace (N.to_nat m) with (S (N.to_nat (Network.max_client_id (network s)))) by lia.
      rewrite seq_S, fmap_app, Permutation_app_comm. cbn.
      by replace (N.of_nat (S (N.to_nat _))) with m by lia.
  - intros q _ _. unfold known. rewrite Hpend, elem_of_cons. unfold peer_connected, Network.cluster_id_to_idx. cbn.
    naive_solver.
Qed.

(** The two steps that make a peer known. *)
Lemma learn_ok i p s s' :
  server_ok i s → p ∈ nodes → p ≠ i → network s' = network s → ready s' = ready s → listens s' = listens s →
  (pending s' ≡ₚ ToPeer p :: pending s ∨ (ready s = true ∧ pending s' = pending s)) →
  (ready s = true → channel s' = channel s) →
  (∀ q x, incoming s' !! q = Some x → ∃ x, incoming s !! q = Some x) →
  (∀ q c, connectors s' !! q = Some c → ∃ c, connectors s !! q = Some c) →
  clients_left s' = clients_left s → client_backlog s' = client_backlog s →
  client_handlers s' = client_handlers s →
  server_ok i s' ∧ known s' p ∧ ∀ q, q ≠ p → known s' q ↔ known s q.
Proof.
  intros Hok Hp Hne Hn Hr Hl Hpend Hch Hinc Hcon Hc1 Hc2 Hc3.
  assert (Hready : ready s = true → known s p).
  { intros Htrue. right. eapply full_known; [done| |done..].
    pose proof (so_ready _ _ Hok) as Hf. rewrite Htrue in Hf. apply Hf. }
  split_and!.
  - destruct Hok as [? ? ? Hpe Hi Hco Hre [Hcli Hids]]. constructor; rewrite ?Hn; try done.
    + intros q. destruct Hpend as [->|[_ ->]]; [|apply Hpe]. intros [[= ->]|?]%elem_of_cons; auto.
    + intros q x Hx. destruct (Hinc _ _ Hx). by eapply Hi.
    + intros q c Hx. destruct (Hcon _ _ Hx). by eapply Hco.
    + rewrite Hr. destruct (ready s); [|done]. rewrite Hch, Hl by done. done.
    + unfold counted, client_ids. rewrite Hn, Hc1, Hc2, Hc3. split; [done|].
      destruct Hpend as [->|[_ ->]]; done.
  - destruct Hpend as [Hpend|[Htrue Hpend]]; unfold known; rewrite Hn, Hpend; [left; by left|by apply Hready].
  - intros q Hq. unfold known. rewrite Hn. destruct Hpend as [->| [_ ->]]; [|done].
    rewrite elem_of_cons. naive_solver.
Qed.
(** Taking a connection from the channel, up to what happens when it was the last one. *)
Lemma receive_connects i s c cs :
  server_ok i s → channel s = c :: cs → ∃ b n,
    Network.connect (num_clients i) c (network s) = (Val b, n) ∧
    (b = true ↔ fully_connected (num_clients i) n) ∧
    Network.peers n = Network.peers (network s) ∧ network_ok n ∧
    let s' := s <| network := n |> <| channel := cs |> in
    counted i s' ∧ (∀ q, known s' q ↔ known s q).
Proof.
  intros Hok Hch. assert (Hpend : pending s ≡ₚ c :: identified s ++ cs)
    by (unfold pending; rewrite Hch; symmetry; apply Permutation_middle).
  destruct (connect_cases (num_clients i) c (network s)) as (b & n & Hrun & Hn & Hpeers & Hmax & Hconn & Hpc & Hb).
  { apply (so_nodup _ _ Hok). } { apply (so_network _ _ Hok). }
  { intros p ->. apply (so_peers _ _ Hok), (so_pending _ _ Hok). rewrite Hpend. by left. }
  exists b, n. split_and!; try done. destruct (so_counted _ _ Hok) as [Hcount Hids]. split.
  - split; cbn; [by rewrite Hmax|]. rewrite Hmax, <-Hids.
    assert (Hnd : NoDup (client_ids s)) by (rewrite Hids; apply NoDup_fmap_2; [apply _|apply NoDup_seq]).
    unfold client_ids in *. rewrite Hpend in *. unfold pending. cbn. rewrite Hconn.
    destruct c as [p|id]; cbn in *; [done|].
    apply NoDup_cons in Hnd as [Hnew _]. rewrite map_to_list_insert.
    + cbn. symmetry. apply Permutation_middle.
    + apply eq_None_not_Some. intros [x Hx]. apply Hnew, elem_of_app. right.
      apply list_elem_of_fmap. exists (id, x). split; [done|]. by apply elem_of_map_to_list.
  - intros q. unfold known. rewrite Hpend. unfold pending. cbn. rewrite Hpc, elem_of_cons. naive_solver.
Qed.

Lemma receive_quiet i s s' : server_ok i s → receive (num_clients i) s = Some s' → quiet i s s'.
Proof.
  intros Hok. unfold receive. pose proof (so_ready _ _ Hok) as Hready.
  destruct (ready s) eqn:Hr; [done|]. destruct (channel s) as [|c cs] eqn:Hch; [done|].
  destruct (receive_connects i s c cs Hok Hch) as (b & n & -> & Hb & Hpeers & Hn & Hcounted & Hknown).
  assert (Hpe : ∀ p, ToPeer p ∈ identified s ++ cs → p ∈ nodes ∧ p ≠ i).
  { intros p Hp. apply (so_pending _ _ Hok). unfold pending. rewrite Hch, !elem_of_app, elem_of_cons in *. tauto. }
  destruct b; intros [= <-].
  - assert (Hfull : fully_connected (num_clients i) n) by (by apply Hb).
    destruct (full_clients _ _ Hcounted Hfull) as (_ & Hbl & _ & Hids).
    assert (Hkn : ∀ q, q ∈ nodes → q ≠ i → peer_connected n q).
    { intros q Hq Hne. apply Hfull. rewrite Hpeers. by apply (so_peers _ _ Hok). }
    assert (Hids' : omap to_client (identified s ++ []) = []).
    { unfold pending in Hids. cbn in Hids. rewrite omap_app in Hids |- *. apply app_eq_nil in Hids as [-> _]. done. }
    constructor; [|done| |].
    + destruct Hok as [? ? ? _ Hi Hco _ _], Hcounted as [Hcount Hid]. constructor; cbn; rewrite ?Hpeers; try done.
      * intros p Hp. apply Hpe. unfold pending in Hp. cbn in Hp. rewrite app_nil_r in Hp.
        apply elem_of_app. by left.
      * intros p x Hx. apply map_lookup_filter_Some in Hx as [Hx _]. by eapply Hi.
      * split; [cbn in *; lia|]. unfold client_ids, pending in *. cbn in *. rewrite Hids'. by rewrite Hids in Hid.
    + intros q Hq Hne. rewrite <-Hknown. split; intros _; right; cbn; auto.
    + intros q Hq Hne. right. right. cbn. auto.
  - constructor; [|done|auto|auto]. destruct Hok as [? ? ? _ Hi Hco _ _]. constructor; cbn; rewrite ?Hpeers; try done.
    rewrite Hr. left. intros Hf. by apply Hb in Hf.
Qed.
(** *** Steps of the cluster *)

Lemma identify_ok j p s' σ :
  cluster_ok σ → j ∈ nodes → identify p (σ j) = Some s' → cluster_ok (set_server j s' σ).
Proof.
  intros Hσ Hj. pose proof (proj1 Hσ j Hj) as Hok. unfold identify, identify_with.
  destruct (incoming (σ j) !! p) as [[[] h]|] eqn:Ep; [|done..].
  destruct (so_incoming _ _ Hok p _ Ep) as [Hp Hne].
  assert (p ≠ j) by lia.
  assert (Hh : handshake_of (σ j) p = Some h) by (unfold handshake_of; by rewrite Ep).
  assert (Hother : ∀ q, q ≠ p → snd <$> delete p (incoming (σ j)) !! q = handshake_of (σ j) q)
    by (intros q Hq; by rewrite lookup_delete_ne).
  destruct h; [done| |]; cbn; intros [= <-].
  - match goal with |- cluster_ok (set_server j ?s _) => set (s' := s) end.
    destruct (learn_ok j p (σ j) s') as (Hok' & Hkp & Hkq); try done.
    { left. unfold pending. cbn. rewrite <-app_assoc. symmetry. apply Permutation_middle. }
    { cbn. intros q x Hx. apply lookup_delete_Some in Hx as [_ Hx]. eauto. }
    { cbn. eauto. }
    apply set_server_ok; [done..| |].
    + intros q k h Hq Hlt. by rewrite Hkq by lia.
    + intros i c k Hi Hlt. destruct (decide (i = p)) as [->|Hip].
      * rewrite Hh. destruct c as [[]|]; cbn; naive_solver.
      * rewrite (Hkq i Hip). unfold handshake_of at 2. cbn. by rewrite Hother.
  - apply set_server_ok; [done|done| |done|].
    + destruct Hok. constructor; try done. cbn. intros q x Hx. apply lookup_delete_Some in Hx as [_ Hx]. eauto.
    + intros i c k Hi Hlt. destruct (decide (i = p)) as [->|Hip].
      * rewrite Hh. unfold handshake_of. cbn. rewrite lookup_delete_eq. destruct c as [[]|]; cbn; naive_solver.
      * unfold handshake_of at 2. cbn. by rewrite Hother.
Qed.
Lemma report_ok (j p : NodeId) s' σ :
  cluster_ok σ → j ∈ nodes → p ∈ nodes → report p (σ j) = Some s' → cluster_ok (set_server j s' σ).
Proof.
  intros Hσ Hj Hp. pose proof (proj1 Hσ j Hj) as Hok. unfold report, send_new_connection.
  destruct (connectors (σ j) !! p) as [[]|] eqn:Ec; [done..| |done|done|done].
  pose proof (so_connectors _ _ Hok _ _ Ec) as Hlt. assert (Hne : p ≠ j) by lia.
  pose proof (proj2 Hσ j p Hj Hp Hlt) as Hpair. rewrite Ec in Hpair. destruct Hpair as [Hunknown _].
  cbn. pose proof (so_ready _ _ Hok) as Hready. destruct (ready (σ j)) eqn:Hr.
  { destruct Hunknown. right. by eapply full_known; [done|apply Hready|..]. }
  destruct (len _ <? _); [|done]. intros [= <-].
  match goal with |- cluster_ok (set_server j ?s _) => set (s' := s) end.
  destruct (learn_ok j p (σ j) s') as (Hok' & Hkp & Hkq); try done.
  { left. unfold pending. cbn. rewrite app_assoc, Permutation_app_comm. done. }
  { cbn. by rewrite Hr. }
  { cbn. eauto. }
  { cbn. intros q c. destruct (decide (q = p)) as [->|]; [|rewrite lookup_insert_ne by done]; eauto. }
  apply set_server_ok; [done..| |].
  - intros q k h Hq Hqj. cbn. destruct (decide (q = p)) as [->|Hqp].
    + rewrite Ec, lookup_insert_eq. cbn. tauto.
    + by rewrite lookup_insert_ne, (Hkq q Hqp).
  - intros i c k Hi Hji. by rewrite (Hkq i ltac:(lia)).
Qed.

(** A step of both ends of the connection from [i] to [p]. *)
Lemma update_pair_ok (i p : NodeId) si sp σ :
  cluster_ok σ → i ∈ nodes → p ∈ nodes → p < i → server_ok i si → server_ok p sp →
  (∀ q, q ≠ p → connectors si !! q = connectors (σ i) !! q) → (∀ q, known si q ↔ known (σ i) q) →
  (∀ q, handshake_of si q = handshake_of (σ i) q) →
  (∀ q, connectors sp !! q = connectors (σ p) !! q) → (∀ q, known sp q ↔ known (σ p) q) →
  (∀ q, q ≠ i → handshake_of sp q = handshake_of (σ p) q) →
  pair_ok (connectors si !! p) (known (σ i) p) (known (σ p) i) (handshake_of sp i) →
  cluster_ok (set_server i si (set_server p sp σ)).
Proof.
  intros [Hok Hpairs] Hi Hp Hlt Hsi Hsp Hci Hki Hhi Hcp Hkp Hhp Hpair. split.
  - intros j Hj. destruct (decide (j = i)) as [->|Hji]; [by rewrite set_server_eq|].
    rewrite set_server_ne by done. destruct (decide (j = p)) as [->|Hjp]; [by rewrite set_server_eq|].
    rewrite set_server_ne by done. by apply Hok.
  - intros a b Ha Hb Hab. specialize (Hpairs a b Ha Hb Hab).
    assert (Hset : ∀ j, set_server i si (set_server p sp σ) j =
      if decide (j = i) then si else if decide (j = p) then sp else σ j) by done.
    rewrite !Hset. repeat case_decide; subst; try lia; try done;
      rewrite ?Hki, ?Hkp, ?Hhi, ?Hcp, ?Hci, ?Hhp by done; done.
Qed.

Lemma connect_peer_ok (i p : NodeId) ok σ σ' :
  cluster_ok σ → i ∈ nodes → p ∈ nodes → connect_peer i p ok σ = Some σ' → cluster_ok σ'.
Proof.
  intros Hσ Hi Hp. unfold connect_peer.
  destruct (connectors (σ i) !! p) as [[]|] eqn:Ec; [|done..].
  destruct (listens (σ p)); [done| |done]. intros [= <-]. destruct ok; [|done].
  pose proof (proj1 Hσ i Hi) as Hoki. pose proof (proj1 Hσ p Hp) as Hokp.
  pose proof (so_connectors _ _ Hoki _ _ Ec) as Hlt. pose proof (proj2 Hσ i p Hi Hp Hlt) as Hpair.
  rewrite Ec in Hpair. destruct Hpair as (Hk1 & Hk2 & _).
  apply update_pair_ok; try done; cbn.
  - destruct Hoki. constructor; try done. cbn. intros q c.
    destruct (decide (q = p)) as [->|]; [|rewrite lookup_insert_ne by done]; eauto.
  - destruct Hokp. constructor; try done. cbn. intros q x.
    destruct (decide (q = i)) as [->|]; [|rewrite lookup_insert_ne by done]; eauto.
  - intros q Hq. by rewrite lookup_insert_ne.
  - intros q Hq. unfold handshake_of. cbn. by rewrite lookup_insert_ne.
  - unfold handshake_of. cbn. by rewrite !lookup_insert_eq.
Qed.

Lemma send_handshake_ok (i p : NodeId) ok σ σ' :
  cluster_ok σ → i ∈ nodes → p ∈ nodes → send_handshake i p ok σ = Some σ' → cluster_ok σ'.
Proof.
  intros Hσ Hi Hp. unfold send_handshake.
  destruct (connectors (σ i) !! p) as [[]|] eqn:Ec; [done| |done..]. intros [= <-].
  pose proof (proj1 Hσ i Hi) as Hoki. pose proof (proj1 Hσ p Hp) as Hokp.
  pose proof (so_connectors _ _ Hoki _ _ Ec) as Hlt. pose proof (proj2 Hσ i p Hi Hp Hlt) as Hpair.
  rewrite Ec in Hpair. destruct Hpair as (Hk1 & Hk2 & Hh). unfold handshake_of in Hh.
  destruct (incoming (σ p) !! i) as [[a h]|] eqn:Einc; [|done]. injection Hh as ->.
  apply update_pair_ok; try done; cbn.
  - destruct Hoki. constructor; try done. cbn. intros q c.
    destruct (decide (q = p)) as [->|]; [|rewrite lookup_insert_ne by done]; eauto.
  - destruct Hokp. constructor; try done. cbn. intros q x.
    destruct (decide (q = i)) as [->|]; [|rewrite lookup_alter_ne by done]; eauto.
  - intros q Hq. by rewrite lookup_insert_ne.
  - intros q Hq. unfold handshake_of. cbn. by rewrite lookup_alter_ne.
  - unfold handshake_of. cbn. rewrite lookup_insert_eq, lookup_alter_eq, Einc. destruct ok; cbn; naive_solver.
Qed.

Lemma exec_ok e σ σ' : of_cluster nodes e → cluster_ok σ → exec e σ = Some σ' → cluster_ok σ'.
Proof.
  intros He Hσ. assert (Hon : ∀ j f, j ∈ nodes → (∀ s', f (σ j) = Some s' → quiet j (σ j) s') →
    on j f σ = Some σ' → cluster_ok σ').
  { intros j f Hj Hf. unfold on. destruct (f (σ j)) as [s'|] eqn:Es; [|done]. cbn. intros [= <-].
    apply quiet_ok; auto. }
  pose proof (λ j Hj, proj1 Hσ j Hj) as Hok. destruct e; cbn in He |- *.
  - apply Hon; [done|]. intros s'. apply bind_quiet; auto.
  - apply connect_peer_ok; tauto.
  - apply send_handshake_ok; tauto.
  - destruct He as [Hi Hp]. unfold on. destruct (report p (σ i)) eqn:E; [|done]. cbn. intros [= <-].
    by eapply report_ok.
  - destruct He as [Hi Hp]. apply Hon; [done|]. intros s'. apply accept_quiet; auto.
  - destruct He as [Hi Hp]. unfold on. destruct (identify p (σ i)) eqn:E; [|done]. cbn. intros [= <-].
    by eapply identify_ok.
  - apply Hon; [done|]. intros s'. apply deliver_quiet; auto.
  - apply Hon; [done|]. intros s'. apply connect_client_quiet; auto.
  - apply Hon; [done|]. intros s'. apply accept_client_quiet; auto.
  - apply Hon; [done|]. intros s'. apply identify_client_quiet; auto.
  - apply Hon; [done|]. intros s'. apply receive_quiet; auto.
Qed.
Lemma run_ok es σ σ' : Forall (of_cluster nodes) es → cluster_ok σ → run es σ = Some σ' → cluster_ok σ'.
Proof.
  intros Hes. revert σ. induction Hes as [|e es He Hes IH]; intros σ Hσ; cbn; [by intros [= <-]|].
  destruct (exec e σ) as [σ1|] eqn:E; [|done]. cbn. apply IH. by eapply exec_ok.
Qed.

(** *** What a step does not change *)

Lemma on_inv i f σ σ' : on i f σ = Some σ' → ∃ s', f (σ i) = Some s' ∧ σ' = set_server i s' σ.
Proof. unfold on. destruct (f (σ i)) as [s'|]; [|done]. cbn. intros [= <-]. eauto. Qed.

Lemma identify_with_connectors m s s' :
  identify_with m s = Some s' → connectors s' = connectors s ∧ listens s' = listens s ∧ ready s' = ready s.
Proof. unfold identify_with. destruct (Network.register _ _) as [[c|f] n]; by intros [= <-]. Qed.
Lemma send_connectors c s s' :
  send_new_connection c s = Some s' → connectors s' = connectors s ∧ listens s' = listens s ∧ ready s' = ready s.
Proof.
  unfold send_new_connection. destruct (ready s) eqn:Hr; [by intros [= <-]|].
  destruct (len _ <? _); by intros [= <-].
Qed.

(** The state of a server as far as its connectors, listener and main task go: a step of this server
    other than those of a connector keeps the connectors; once closed, a listener stays closed. *)
Lemma server_step e i f s s' :
  match e with
  | Bind j ok => j = i ∧ f = bind_listener ok
  | Accept j p => j = i ∧ f = accept p
  | Identify j p => j = i ∧ f = identify p
  | Deliver j k => j = i ∧ f = deliver k
  | ConnectClient j => j = i ∧ f = connect_client
  | AcceptClient j => j = i ∧ f = accept_client
  | IdentifyClient j => j = i ∧ f = identify_client
  | Receive j => j = i ∧ f = receive (num_clients j)
  | _ => False
  end → f s = Some s' →
  connectors s' = connectors s ∧
  (recoverable e = true → (ready s = false → listens s ≠ Closed) → ready s' = false → listens s' ≠ Closed).
Proof.
  destruct e; try done; intros [-> ->].
  - unfold bind_listener. destruct (listens s); [|done..]. intros [= <-]. cbn. by destruct ok.
  - unfold accept. destruct (listens s) eqn:E, (incoming s !! p) as [[[] h]|]; try done.
    intros [= <-]. cbn. by rewrite E.
  - unfold identify. destruct (incoming s !! p) as [[[] []]|]; try done; [|by intros [= <-]].
    intros (-> & -> & ->)%identify_with_connectors. done.
  - unfold deliver. destruct (identified s !! k); [|done]. cbn. intros (-> & -> & ->)%send_connectors. done.
  - unfold connect_client. destruct (listens s) eqn:E, (clients_left s); try done. intros [= <-]. cbn. by rewrite E.
  - unfold accept_client. destruct (listens s) eqn:E, (client_backlog s); try done. intros [= <-]. cbn. by rewrite E.
  - unfold identify_client. destruct (client_handlers s); [done|].
    intros (-> & -> & ->)%identify_with_connectors. done.
  - unfold receive. destruct (ready s) eqn:Er, (channel s); try done.
    destruct (Network.connect _ _ _) as [[[]|] net]; [..|done]; intros [= <-]; [done|]. cbn. rewrite Er. auto.
Qed.

(** *** A handshake that is lost *)

Lemma gone_stays e (i p : NodeId) σ σ' :
  exec e σ = Some σ' → connectors (σ i) !! p = Some Gone → connectors (σ' i) !! p = Some Gone.
Proof.
  intros He Hgone.
  assert (Hset : ∀ j s, (j = i → connectors s !! p = Some Gone) → connectors (set_server j s σ i) !! p = Some Gone).
  { intros j s Hs. destruct (decide (i = j)) as [->|]; [rewrite set_server_eq; auto|by rewrite set_server_ne]. }
  assert (Hon : ∀ j f, on j f σ = Some σ' →
    (∀ s s', f s = Some s' → connectors s' = connectors s) → connectors (σ' i) !! p = Some Gone).
  { intros j f (s' & Hf & ->)%on_inv Hc. apply Hset. intros ->. by rewrite (Hc _ _ Hf). }
  assert (Hstep := server_step e). destruct e as [j ok|j q ok|j q ok|j q|j q|j q|j k|j|j|j|j]; cbn in He.
  all: try (apply (Hon _ _ He); intros s s' Hf; by apply (Hstep _ _ _ _ (conj eq_refl eq_refl) Hf)).
  - unfold connect_peer in He. destruct (connectors (σ j) !! q) as [[]|] eqn:Ec; [|done..].
    destruct (listens (σ q)); [done| |done]. injection He as <-. destruct ok; [|done].
    unfold set_server. repeat case_decide; subst; cbn; try done.
    rewrite lookup_insert_ne; [done|]. intros ->. congruence.
  - unfold send_handshake in He. destruct (connectors (σ j) !! q) as [[]|] eqn:Ec; [done| |done..].
    injection He as <-. unfold set_server. repeat case_decide; subst; cbn; try done;
    (rewrite lookup_insert_ne; [done|]; intros ->; congruence).
  - apply on_inv in He as (s' & Hf & ->). apply Hset. intros ->. unfold report in Hf.
    destruct (connectors (σ i) !! q) as [[]|] eqn:Ec; try done.
    apply send_connectors in Hf as (-> & _). cbn. rewrite lookup_insert_ne; [done|]. intros ->. congruence.
Qed.
(** C40.  A handshake that is lost.  When the connector of [i] cannot send its handshake to [p], it gives up.
    Whatever happens afterwards, neither [i] nor [p] ever finishes [initialize_connections]: both wait
    for each other for ever. *)
Theorem lost_handshake_is_final es es' (i p : NodeId) σ :
  Forall (of_cluster nodes) (es ++ Handshake i p false :: es') →
  run (es ++ Handshake i p false :: es') (start_cluster nodes node_addrs num_clients) = Some σ →
  ready (σ i) = false ∧ ready (σ p) = false.
Proof.
  intros Hes Hrun. assert (Hok : cluster_ok σ) by (eapply run_ok; [done|apply start_cluster_ok|done]).
  apply Forall_app in Hes as [_ [[Hi Hp] _]%Forall_cons].
  assert (Hgone : connectors (σ i) !! p = Some Gone).
  { revert Hrun. generalize (start_cluster nodes node_addrs num_clients) as σ0.
    assert (Hstay : ∀ l σ1, connectors (σ1 i) !! p = Some Gone → run l σ1 = Some σ →
      connectors (σ i) !! p = Some Gone).
    { induction l as [|e l IH]; intros σ1 H1; cbn; [by intros [= <-]|].
      destruct (exec e σ1) eqn:E; [|done]. cbn. apply IH. by eapply gone_stays. }
    induction es as [|e es IH]; intros σ0; cbn [app Startup.run].
    - cbn. unfold send_handshake. destruct (connectors (σ0 i) !! p) as [[]|]; [done| |done..].
      cbn. apply Hstay. rewrite set_server_eq. cbn. by rewrite lookup_insert_eq.
    - destruct (exec e σ0); [|done]. cbn. apply IH. }
  pose proof (so_connectors _ _ (proj1 Hok i Hi) _ _ Hgone) as Hlt.
  pose proof (proj2 Hok i p Hi Hp Hlt) as Hpair. rewrite Hgone in Hpair. destruct Hpair as (Hip & Hpi & _).
  assert (Hready : ∀ a b, a ∈ nodes → b ∈ nodes → a ≠ b → ¬ known (σ a) b → ready (σ a) = false).
  { intros a b Ha Hb Hne Hk. pose proof (so_ready _ _ (proj1 Hok a Ha)) as Hr.
    destruct (ready (σ a)); [|done]. destruct Hk. right.
    eapply full_known; [by apply Hok|apply Hr|done|congruence]. }
  split; [by apply (Hready i p); [..|lia|]|by apply (Hready p i); [..|lia|]].
Qed.

(** *** Progress *)

(** Nothing has failed for good. *)
Definition alive σ : Prop := ∀ i, i ∈ nodes →
  (ready (σ i) = false → listens (σ i) ≠ Closed) ∧ ∀ p, connectors (σ i) !! p ≠ Some Gone.

Lemma alive_step e σ σ' : recoverable e = true → exec e σ = Some σ' → alive σ → alive σ'.
Proof.
  intros Hrec He Hal.
  assert (Hset : ∀ σ j s, alive σ → (j ∈ nodes → (ready s = false → listens s ≠ Closed) ∧
      ∀ p, connectors s !! p ≠ Some Gone) → alive (set_server j s σ)).
  { intros σ0 j s H0 Hs i Hi. destruct (decide (i = j)) as [->|]; [rewrite set_server_eq; auto|].
    rewrite set_server_ne by done. auto. }
  assert (Hstep := server_step e). destruct e as [j ok|j q ok|j q ok|j q|j q|j q|j k|j|j|j|j]; cbn in He.
  all: try (apply on_inv in He as (s' & Hf & ->); apply Hset; [done|]; intros Hj;
    destruct (Hstep _ _ _ _ (conj eq_refl eq_refl) Hf) as [-> Hl]; destruct (Hal j Hj); auto).
  - unfold connect_peer in He. destruct (connectors (σ j) !! q) as [[]|] eqn:Ec; [|done..].
    destruct (listens (σ q)); [done| |done]. injection He as <-. destruct ok; [|done].
    apply Hset; [apply Hset; [done|]|]; intros Hj; destruct (Hal _ Hj) as [Hl Hc]; [done|]. split; [done|].
    cbn. intros p. destruct (decide (p = q)) as [->|]; [by rewrite lookup_insert_eq|by rewrite lookup_insert_ne].
  - unfold send_handshake in He. destruct (connectors (σ j) !! q) as [[]|] eqn:Ec; [done| |done..].
    injection He as <-. cbn in Hrec. subst ok.
    apply Hset; [apply Hset; [done|]|]; intros Hj; destruct (Hal _ Hj) as [Hl Hc]; [done|]. split; [done|].
    cbn. intros p. destruct (decide (p = q)) as [->|]; [by rewrite lookup_insert_eq|by rewrite lookup_insert_ne].
  - apply on_inv in He as (s' & Hf & ->). apply Hset; [done|]. intros Hj. destruct (Hal _ Hj) as [Hl Hc].
    unfold report in Hf. destruct (connectors (σ j) !! q) as [[]|]; try done.
    apply send_connectors in Hf as (-> & -> & ->). split; [done|]. cbn. intros p.
    destruct (decide (p = q)) as [->|]; [by rewrite lookup_insert_eq|by rewrite lookup_insert_ne].
Qed.

(** The events that can happen next, one of each kind. *)
Definition candidates : list event :=
  i ← nodes; [Bind i true; Deliver i 0; ConnectClient i; AcceptClient i; IdentifyClient i; Receive i] ++
    (p ← nodes; [Connect i p true; Handshake i p true; Report i p; Accept i p; Identify i p]).
Lemma candidates_1 i : i ∈ nodes →
  ∀ e, e ∈ [Bind i true; Deliver i 0; ConnectClient i; AcceptClient i; IdentifyClient i; Receive i] → e ∈ candidates.
Proof. intros Hi e He. apply list_elem_of_bind. exists i. split; [|done]. apply elem_of_app. by left. Qed.
Lemma candidates_2 i p : i ∈ nodes → p ∈ nodes →
  ∀ e, e ∈ [Connect i p true; Handshake i p true; Report i p; Accept i p; Identify i p] → e ∈ candidates.
Proof.
  intros Hi Hp e He. apply list_elem_of_bind. exists i. split; [|done]. apply elem_of_app. right.
  apply list_elem_of_bind. eauto.
Qed.
Lemma candidates_ok e : e ∈ candidates → of_cluster nodes e ∧ succeeds e = true.
Proof.
  intros (i & [He|(p & He & Hp)%list_elem_of_bind]%elem_of_app & Hi)%list_elem_of_bind;
    repeat (apply elem_of_cons in He as [->|He]; [done|]); by apply elem_of_nil in He.
Qed.
(** *** A cluster that cannot go on is connected *)

Section stuck.
Context σ (Hok : cluster_ok σ) (Hal : alive σ) (Hstuck : ∀ e, e ∈ candidates → exec e σ = None).

Lemma stuck_on i f : on i f σ = None → f (σ i) = None.
Proof. unfold on. by destruct (f (σ i)). Qed.
Lemma stuck_server i : i ∈ nodes →
  bind_listener true (σ i) = None ∧ deliver 0 (σ i) = None ∧ connect_client (σ i) = None ∧
  accept_client (σ i) = None ∧ identify_client (σ i) = None ∧ receive (num_clients i) (σ i) = None.
Proof.
  intros Hi. split_and!; apply stuck_on.
  - apply (Hstuck (Bind i true)), (candidates_1 i); set_solver.
  - apply (Hstuck (Deliver i 0)), (candidates_1 i); set_solver.
  - apply (Hstuck (ConnectClient i)), (candidates_1 i); set_solver.
  - apply (Hstuck (AcceptClient i)), (candidates_1 i); set_solver.
  - apply (Hstuck (IdentifyClient i)), (candidates_1 i); set_solver.
  - apply (Hstuck (Receive i)), (candidates_1 i); set_solver.
Qed.

Lemma stuck_listens i : i ∈ nodes → listens (σ i) = if ready (σ i) then Closed else Listening.
Proof.
  intros Hi. destruct (stuck_server i Hi) as [Hbind _]. pose proof (so_ready _ _ (proj1 Hok i Hi)) as Hr.
  destruct (Hal i Hi) as [Hl _]. unfold bind_listener in Hbind.
  destruct (ready (σ i)); [by destruct Hr as (_ & _ & ?)|]. specialize (Hl eq_refl). by destruct (listens (σ i)).
Qed.
Lemma stuck_channel i : i ∈ nodes → channel (σ i) = [].
Proof.
  intros Hi. destruct (stuck_server i Hi) as (_ & _ & _ & _ & _ & Hrec).
  pose proof (so_ready _ _ (proj1 Hok i Hi)) as Hr. unfold receive in Hrec.
  destruct (ready (σ i)); [by destruct Hr as (_ & ? & _)|].
  destruct (channel (σ i)) as [|c cs] eqn:Hch; [done|].
  destruct (receive_connects i (σ i) c cs (proj1 Hok i Hi) Hch) as (b & n & Hc & _).
  rewrite Hc in Hrec. by destruct b.
Qed.
Lemma stuck_channel_send c i : i ∈ nodes → ∀ s, channel s = channel (σ i) → send_new_connection c s ≠ None.
Proof.
  intros Hi s Hs. unfold send_new_connection. rewrite Hs, (stuck_channel i Hi). by destruct (ready s).
Qed.
Lemma stuck_identified i : i ∈ nodes → identified (σ i) = [].
Proof.
  intros Hi. destruct (stuck_server i Hi) as (_ & Hdel & _). unfold deliver in Hdel.
  destruct (identified (σ i)) as [|c l] eqn:E; [done|]. cbn in Hdel. by apply (stuck_channel_send _ i Hi) in Hdel.
Qed.
Lemma stuck_known i q : i ∈ nodes → known (σ i) q → peer_connected (network (σ i)) q.
Proof.
  intros Hi [Hq|Hq]; [|done]. unfold pending in Hq.
  rewrite stuck_identified, stuck_channel in Hq by done. by apply elem_of_nil in Hq.
Qed.

(** Both ends of every connection are connected, unless the main task of the acceptor has returned. *)
Lemma stuck_pair (i p : NodeId) : i ∈ nodes → p ∈ nodes → p < i →
  peer_connected (network (σ i)) p ∧ peer_connected (network (σ p)) i.
Proof.
  intros Hi Hp Hlt. pose proof (proj2 Hok i p Hi Hp Hlt) as Hpair.
  assert (Hstep : ∀ e, e ∈ [Connect i p true; Handshake i p true; Report i p] → exec e σ = None)
    by (intros e He; apply Hstuck, (candidates_2 i p); set_solver).
  assert (Hin : ∀ e, e ∈ [Accept p i; Identify p i] → exec e σ = None)
    by (intros e He; apply Hstuck, (candidates_2 p i); set_solver).
  pose proof (Hstep (Connect i p true) ltac:(set_solver)) as Hconnect.
  pose proof (Hstep (Handshake i p true) ltac:(set_solver)) as Hshake.
  pose proof (stuck_on _ _ (Hstep (Report i p) ltac:(set_solver))) as Hreport.
  cbn in Hconnect, Hshake. unfold connect_peer, send_handshake, report in *.
  destruct (connectors (σ i) !! p) as [[]|] eqn:Ec; [| |by apply (stuck_channel_send _ i Hi) in Hreport| | |done].
  - rewrite (stuck_listens p Hp) in Hconnect. pose proof (so_ready _ _ (proj1 Hok p Hp)) as Hr.
    destruct (ready (σ p)); [|done]. destruct Hpair as (_ & Hk & _). destruct Hk. right.
    eapply full_known; [by apply Hok|apply Hr|done|lia].
  - done.
  - destruct Hpair as [Hk Hh]. split; [by apply stuck_known|]. destruct Hh as [Hh|Hh]; [|by apply stuck_known].
    unfold handshake_of in Hh. destruct (incoming (σ p) !! i) as [[a h]|] eqn:Einc; [|done]. injection Hh as ->.
    pose proof (stuck_on _ _ (Hin (Accept p i) ltac:(set_solver))) as Hacc.
    pose proof (stuck_on _ _ (Hin (Identify p i) ltac:(set_solver))) as Hid.
    unfold accept, identify, identify_with in Hacc, Hid. rewrite Einc in Hacc, Hid. destruct a; [by cbn in Hid|].
    rewrite (stuck_listens p Hp) in Hacc. pose proof (so_ready _ _ (proj1 Hok p Hp)) as Hr.
    destruct (ready (σ p)); [|done]. eapply full_known; [by apply Hok|apply Hr|done|lia].
  - destruct (Hal i Hi) as [_ Hgone]. by destruct (Hgone p).
Qed.

Lemma stuck_ready i : i ∈ nodes → num_clients i ≠ 0 ∨ Network.peers (network (σ i)) ≠ [] → ready (σ i) = true.
Proof.
  intros Hi Hsome. pose proof (so_ready _ _ (proj1 Hok i Hi)) as Hr. pose proof (stuck_listens i Hi) as Hl.
  destruct (ready (σ i)) eqn:Er; [done|]. exfalso. destruct Hr as [Hr|[? ?]]; [apply Hr|naive_solver].
  destruct (stuck_server i Hi) as (_ & _ & Hcc & Hac & Hic & _).
  unfold connect_client in Hcc. rewrite Hl in Hcc. destruct (clients_left (σ i)) eqn:E1; [|done].
  unfold accept_client in Hac. rewrite Hl in Hac. destruct (client_backlog (σ i)) eqn:E2; [|done].
  unfold identify_client, identify_with in Hic. destruct (client_handlers (σ i)) eqn:E3.
  2: { by destruct (Network.register _ _) as [[c|f] x]. }
  split.
  - destruct (so_counted _ _ (proj1 Hok i Hi)) as [Hc Hids]. rewrite E1, E2, E3 in Hc.
    apply Permutation_length in Hids. unfold client_ids, pending in Hids.
    rewrite stuck_identified, stuck_channel in Hids by done. cbn in Hids.
    rewrite !length_fmap, length_map_to_list, length_seq in Hids. lia.
  - intros p [Hp Hne]%(so_peers _ _ (proj1 Hok i Hi)).
    destruct (decide (p < i)); [by apply (stuck_pair i p)|]. apply (stuck_pair p i); [done..|].
    pose proof (N.lt_trichotomy p i). naive_solver.
Qed.
End stuck.
(** *** Every step that succeeds brings the end closer *)

Definition sum (f : NodeId → nat) : nat := foldr (λ p n, f p + n)%nat 0%nat nodes.
Lemma sum_change f g i : i ∈ nodes → (∀ j, j ≠ i → f j = g j) → (sum f + g i = sum g + f i)%nat.
Proof.
  unfold sum. revert Hnodes. generalize nodes as l. clear. intros l Hl. induction Hl as [|p l Hp Hl IH]; [by intros ?%elem_of_nil|].
  intros Hi Hfg. cbn. apply elem_of_cons in Hi as [->|Hi].
  - assert (Heq : foldr (λ p n, f p + n)%nat 0%nat l = foldr (λ p n, g p + n)%nat 0%nat l).
    { clear IH Hl. induction l as [|q l IHl]; [done|]. cbn. rewrite not_elem_of_cons in Hp.
      rewrite Hfg, IHl by naive_solver. done. }
    lia.
  - rewrite (Hfg p) by (intros ->; done). specialize (IH Hi Hfg). lia.
Qed.
Lemma sum_le f g : (∀ i, (f i ≤ g i)%nat) → (sum f ≤ sum g)%nat.
Proof.
  intros Hfg. unfold sum. clear Hnodes Haddrs. induction nodes as [|p l IH]; [done|]. cbn. specialize (Hfg p). lia.
Qed.

Definition connector_weight (c : option connector) : nat :=
  match c with Some Trying => 8 | Some Open => 3 | Some Registered => 2 | _ => 0 end.
Definition incoming_weight (x : option (bool * handshake)) : nat :=
  match x with Some (false, _) => 4 | Some (true, _) => 3 | None => 0 end.
Definition connectors_weight (m : gmap NodeId connector) : nat := sum (λ p, connector_weight (m !! p)).
Definition incomings_weight (m : gmap NodeId (bool * handshake)) : nat := sum (λ p, incoming_weight (m !! p)).
Definition listener_weight (l : listener) : nat := match l with Unbound => 1 | _ => 0 end.
(** An upper bound of the steps that are left for a server. *)
Definition weight s : nat :=
  (listener_weight (listens s) + connectors_weight (connectors s) + incomings_weight (incoming s) +
   5 * clients_left s + 4 * client_backlog s + 3 * client_handlers s +
   2 * length (identified s) + length (channel s))%nat.
Definition remaining σ : nat := sum (λ i, weight (σ i)).

Lemma connectors_insert m p c : p ∈ nodes →
  (connectors_weight (<[p:=c]> m) + connector_weight (m !! p) = connectors_weight m + connector_weight (Some c))%nat.
Proof.
  intros Hp. unfold connectors_weight.
  rewrite (sum_change _ (λ q, connector_weight (m !! q)) p Hp); [by rewrite lookup_insert_eq|].
  intros j Hj. by rewrite lookup_insert_ne.
Qed.
Lemma incomings_update (m m' : gmap NodeId (bool * handshake)) p : p ∈ nodes → (∀ q, q ≠ p → m' !! q = m !! q) →
  (incomings_weight m' + incoming_weight (m !! p) = incomings_weight m + incoming_weight (m' !! p))%nat.
Proof.
  intros Hp Heq. unfold incomings_weight.
  apply (sum_change (λ q, incoming_weight (m' !! q)) (λ q, incoming_weight (m !! q)) p Hp).
  intros j Hj. by rewrite Heq.
Qed.
Lemma incomings_le m m' : (∀ q, (incoming_weight (m' !! q) ≤ incoming_weight (m !! q))%nat) →
  (incomings_weight m' ≤ incomings_weight m)%nat.
Proof. intros Hle. by apply sum_le. Qed.

Lemma send_weight c s s' :
  send_new_connection c s = Some s' → (weight s' ≤ weight s + 1)%nat.
Proof.
  unfold send_new_connection, weight. destruct (ready s); [intros [= <-]; lia|].
  destruct (len _ <? _); [|done]. intros [= <-]. cbn. rewrite length_app. cbn. lia.
Qed.
Lemma identify_with_weight m s s' :
  identify_with m s = Some s' → (weight s' ≤ weight s + 2)%nat.
Proof.
  unfold identify_with, weight. destruct (Network.register _ _) as [[c|f] n]; intros [= <-]; cbn; [|lia].
  rewrite length_app. cbn. lia.
Qed.

Lemma server_step_weight e i f s s' :
  of_cluster nodes e → succeeds e = true → server_ok i s →
  match e with
  | Bind j ok => j = i ∧ f = bind_listener ok
  | Report j p => j = i ∧ f = report p
  | Accept j p => j = i ∧ f = accept p
  | Identify j p => j = i ∧ f = identify p
  | Deliver j k => j = i ∧ f = deliver k
  | ConnectClient j => j = i ∧ f = connect_client
  | AcceptClient j => j = i ∧ f = accept_client
  | IdentifyClient j => j = i ∧ f = identify_client
  | Receive j => j = i ∧ f = receive (num_clients j)
  | _ => False
  end → f s = Some s' → (weight s' < weight s)%nat.
Proof.
  intros He Hs Hok. destruct e; try done; intros [-> ->]; cbn in He.
  - unfold bind_listener, weight. destruct (listens s); [|done..]. intros [= <-]. cbn. cbn in Hs. subst ok. cbn. lia.
  - unfold report. destruct (connectors s !! p) as [[]|] eqn:Ec; try done. intros Hsend%send_weight.
    pose proof (connectors_insert (connectors s) p Reported (proj2 He)) as Hw. rewrite Ec in Hw.
    unfold weight in *. cbn in *. lia.
  - unfold accept, weight. destruct (listens s) eqn:E, (incoming s !! p) as [[[] h]|] eqn:Ei; try done.
    intros [= <-]. cbn. rewrite E. cbn.
    pose proof (incomings_update (incoming s) (<[p:=(true, h)]> (incoming s)) p (proj2 He)) as Hw.
    rewrite lookup_insert_eq, Ei in Hw. cbn in Hw.
    specialize (Hw ltac:(intros; by rewrite lookup_insert_ne)). lia.
  - unfold identify. pose proof (incomings_update (incoming s) (delete p (incoming s)) p (proj2 He)) as Hw.
    rewrite lookup_delete_eq in Hw. specialize (Hw ltac:(intros; by rewrite lookup_delete_ne)).
    destruct (incoming s !! p) as [[[] []]|] eqn:Ei; try done; cbn in Hw.
    + intros Hid%identify_with_weight. unfold weight in *. cbn in *. lia.
    + intros [= <-]. unfold weight. cbn. lia.
  - unfold deliver. destruct (identified s !! k) as [c|] eqn:Ek; [|done]. cbn. intros Hsend%send_weight.
    pose proof (Permutation_length (delete_Permutation _ _ _ Ek)) as Hl. unfold weight in *. cbn in *. lia.
  - unfold connect_client, weight. destruct (listens s) eqn:E, (clients_left s); try done.
    intros [= <-]. cbn. rewrite E. cbn. lia.
  - unfold accept_client, weight. destruct (listens s) eqn:E, (client_backlog s); try done.
    intros [= <-]. cbn. rewrite E. cbn. lia.
  - unfold identify_client. destruct (client_handlers s) eqn:E; [done|]. intros Hid%identify_with_weight.
    unfold weight in *. cbn in *. rewrite E. lia.
  - unfold receive. destruct (ready s) eqn:Er, (channel s) as [|c cs] eqn:Ec; try done.
    destruct (Network.connect _ _ _) as [[[]|] net]; [..|done]; intros [= <-]; unfold weight; cbn; rewrite Ec; cbn.
    + match goal with |- context [incomings_weight (filter ?P ?m)] =>
        pose proof (incomings_le m (filter P m)) as Hw end.
      assert (Hle : ∀ (m' : gmap NodeId (bool * handshake)), m' ⊆ incoming s →
        ∀ q, (incoming_weight (m' !! q) ≤ incoming_weight (incoming s !! q))%nat).
      { intros m' Hsub q. destruct (m' !! q) as [x|] eqn:Ex; [|cbn; lia].
        by rewrite (lookup_weaken _ _ _ _ Ex Hsub). }
      specialize (Hw (Hle _ (map_filter_subseteq _ _))).
      destruct (listens s); cbn; lia.
    + lia.
Qed.
Lemma remaining_set j s σ : j ∈ nodes → (remaining (set_server j s σ) + weight (σ j) = remaining σ + weight s)%nat.
Proof.
  intros Hj. pose proof (sum_change (λ i, weight (set_server j s σ i)) (λ i, weight (σ i)) j Hj) as Hsum.
  cbv beta in Hsum. rewrite set_server_eq in Hsum. apply Hsum. intros i Hi. by rewrite set_server_ne.
Qed.

Lemma exec_remaining e σ σ' :
  of_cluster nodes e → succeeds e = true → cluster_ok σ → exec e σ = Some σ' → (remaining σ' < remaining σ)%nat.
Proof.
  intros He Hs Hσ Hexec. pose proof (server_step_weight e) as Hstep.
  assert (Hon : ∀ j s', j ∈ nodes → (weight s' < weight (σ j))%nat → (remaining (set_server j s' σ) < remaining σ)%nat)
    by (intros j s' Hj Hw; pose proof (remaining_set j s' σ Hj); lia).
  assert (Hpair : ∀ j q sj sq, j ∈ nodes → q ∈ nodes → q < j →
    (weight sj + weight sq < weight (σ j) + weight (σ q))%nat →
    (remaining (set_server j sj (set_server q sq σ)) < remaining σ)%nat).
  { intros j q sj sq Hj Hq Hlt Hw. pose proof (remaining_set j sj (set_server q sq σ) Hj) as H1.
    rewrite set_server_ne in H1 by lia. pose proof (remaining_set q sq σ Hq). lia. }
  pose proof (λ j Hj, proj1 Hσ j Hj) as Hok.
  destruct e as [j ok|j q ok|j q ok|j q|j q|j q|j k|j|j|j|j]; cbn in He, Hexec.
  all: try (apply on_inv in Hexec as (s' & Hf & ->); apply Hon; [tauto|];
    apply (Hstep j _ (σ j) s' He Hs (Hok j ltac:(tauto)) (conj eq_refl eq_refl) Hf)).
  - unfold connect_peer in Hexec. destruct (connectors (σ j) !! q) as [[]|] eqn:Ec; [|done..].
    destruct (listens (σ q)); [done| |done]. injection Hexec as <-. cbn in Hs. subst ok.
    destruct He as [Hj Hq]. apply Hpair; [done..|by eapply (so_connectors _ _ (Hok j Hj))|].
    pose proof (connectors_insert (connectors (σ j)) q Open Hq) as Hw1. rewrite Ec in Hw1.
    pose proof (incomings_update (incoming (σ q)) (<[j:=(false, Waiting)]> (incoming (σ q))) j Hj) as Hw2.
    rewrite lookup_insert_eq in Hw2. specialize (Hw2 ltac:(intros; by rewrite lookup_insert_ne)).
    unfold weight in *. cbn in *. lia.
  - unfold send_handshake in Hexec. destruct (connectors (σ j) !! q) as [[]|] eqn:Ec; [done| |done..].
    injection Hexec as <-. cbn in Hs. subst ok.
    destruct He as [Hj Hq]. apply Hpair; [done..|by eapply (so_connectors _ _ (Hok j Hj))|].
    pose proof (connectors_insert (connectors (σ j)) q Registered Hq) as Hw1. rewrite Ec in Hw1.
    match goal with |- context [alter ?f j] =>
      pose proof (incomings_update (incoming (σ q)) (alter f j (incoming (σ q))) j Hj) as Hw2 end.
    rewrite lookup_alter_eq in Hw2. specialize (Hw2 ltac:(intros; by rewrite lookup_alter_ne)).
    unfold weight in *. cbn in *. destruct (incoming (σ q) !! j) as [[[] h]|]; cbn in *; lia.
Qed.

Lemma run_alive es σ σ' :
  Forall (λ e, recoverable e = true) es → run es σ = Some σ' → alive σ → alive σ'.
Proof.
  intros Hes. revert σ. induction Hes as [|e es He Hes IH]; intros σ; cbn; [by intros [= <-]|].
  destruct (exec e σ) as [σ1|] eqn:E; [|done]. cbn. intros Hrun Hal. eapply IH; [done|]. by eapply alive_step.
Qed.
Lemma run_remaining es σ σ' :
  Forall (of_cluster nodes) es → Forall (λ e, succeeds e = true) es → cluster_ok σ → run es σ = Some σ' →
  (length es + remaining σ' ≤ remaining σ)%nat.
Proof.
  intros Hes. revert σ. induction Hes as [|e es He Hes IH]; intros σ Hs Hσ; cbn; [by intros [= <-]|].
  apply Forall_cons in Hs as [Hs1 Hs]. destruct (exec e σ) as [σ1|] eqn:E; [|done]. cbn. intros Hrun.
  pose proof (exec_remaining _ _ _ He Hs1 Hσ E). pose proof (exec_ok _ _ _ He Hσ E) as Hσ1.
  specialize (IH σ1 Hs Hσ1 Hrun). lia.
Qed.
Lemma start_alive : alive (start_cluster nodes node_addrs num_clients).
Proof.
  intros i Hi. split; [done|]. intros p. unfold start_cluster. rewrite start_connectors. by case_decide.
Qed.
Lemma succeeds_recoverable e : succeeds e = true → recoverable e = true.
Proof. by destruct e. Qed.

(** C12.  A cluster starts.  Let it have come to [σ] in any order of steps, with any number of failed
    attempts to connect, as long as no listener fails and no handshake is lost.  From then on every run of
    steps that succeed is finite, at most [remaining σ] steps long, and it ends only when every server has
    returned from [initialize_connections], connected to every other server and to its clients: neither
    the order of the tasks, nor the full channels, nor the listeners that are closed early can leave two
    servers waiting for each other. *)
Theorem startup_completes es es' σ σ' :
  Forall (of_cluster nodes) (es ++ es') →
  Forall (λ e, recoverable e = true) es → Forall (λ e, succeeds e = true) es' →
  (∀ i, i ∈ nodes → num_clients i ≠ 0 ∨ (1 < length nodes)%nat) →
  run es (start_cluster nodes node_addrs num_clients) = Some σ → run es' σ = Some σ' →
  (length es' ≤ remaining σ)%nat ∧
  ((∃ e, of_cluster nodes e ∧ succeeds e = true ∧ is_Some (exec e σ')) ∨
   ∀ i, i ∈ nodes → ready (σ' i) = true ∧ fully_connected (num_clients i) (network (σ' i)) ∧
     ∀ p, p ∈ nodes → p ≠ i → peer_connected (network (σ' i)) p).
Proof.
  intros Hes Hrec Hsucc Hsome Hrun Hrun'. apply Forall_app in Hes as [Hes Hes'].
  pose proof (run_ok _ _ _ Hes start_cluster_ok Hrun) as Hσ. pose proof (run_ok _ _ _ Hes' Hσ Hrun') as Hσ'.
  assert (Hal : alive σ').
  { eapply run_alive; [|exact Hrun'|eapply run_alive; [exact Hrec|exact Hrun|apply start_alive]].
    eapply Forall_impl; [exact Hsucc|]. apply succeeds_recoverable. }
  split; [pose proof (run_remaining es' σ σ' Hes' Hsucc Hσ Hrun'); lia|].
  destruct (decide (Exists (λ e, is_Some (exec e σ')) candidates)) as [Hex|Hno].
  { left. apply Exists_exists in Hex as (e & He & Hsome'). destruct (candidates_ok e He). eauto. }
  right. intros i Hi. assert (Hready : ready (σ' i) = true).
  { apply stuck_ready; [done|done| |done|].
    - intros e He. apply eq_None_not_Some. intros Hs. apply Hno, Exists_exists. eauto.
    - destruct (Hsome i Hi) as [?|Hlen]; [by left|right]. intros Hnil.
      assert (Hall : ∀ p, p ∈ nodes → p = i).
      { intros p Hp. destruct (decide (p = i)) as [|Hne]; [done|]. exfalso.
        assert (Hin : p ∈ Network.peers (network (σ' i))) by (by apply (so_peers _ _ (proj1 Hσ' i Hi))).
        rewrite Hnil in Hin. by apply elem_of_nil in Hin. }
      destruct nodes as [|a [|b l]]; cbn in Hlen; [lia|lia|].
      apply NoDup_cons in Hnodes as [Ha _]. apply Ha. rewrite (Hall a), (Hall b) by set_solver. left. }
  pose proof (so_ready _ _ (proj1 Hσ' i Hi)) as Hr. rewrite Hready in Hr. destruct Hr as (Hfull & _).
  split_and!; [done|done|]. intros p Hp Hne. by eapply full_known; [apply Hσ'|..].
Qed.
End invariant.
