(* ===== verification/StartupChecks.v ===== *)
(** * Starting a cluster of two servers

    Server 2 connects to server 1, and each of them waits for one client. *)

From S2P Require Import Prelude Util Time StorageApi Messages Kv Network Startup.

#[local] Existing Instance dev_build.

Definition two : list NodeId := [1; 2].
Definition addresses : list string := ["s1:8001"; "s2:8002"]%string.
Definition one_client (_ : NodeId) : N := 1.
Definition start2 : cluster := start_cluster two addresses one_client.

(** Both listen; the first attempt to connect fails and is repeated. *)
Definition first_steps : list event :=
  [Bind 1 true; Bind 2 true; Connect 2 1 false; Connect 2 1 true; ConnectClient 1; ConnectClient 2].
Definition last_steps : list event :=
  [Handshake 2 1 true; Report 2 1; Receive 2; Accept 1 2; AcceptClient 1; IdentifyClient 1; Identify 1 2;
   Deliver 1 1; Receive 1; Deliver 1 0; Receive 1; AcceptClient 2; IdentifyClient 2; Deliver 2 0; Receive 2].

Definition ready_after (es : list event) : option (bool * bool) :=
  (λ σ, (ready (σ 1), ready (σ 2))) <$> run one_client es start2.
Example everybody_ready : ready_after (first_steps ++ last_steps) = Some (true, true).
Proof. vm_compute. reflexivity. Qed.
(** Whatever else is delivered, after a lost handshake nobody is ready. *)
Example nobody_ready : ready_after (first_steps ++ Handshake 2 1 false ::
    [Accept 1 2; Identify 1 2; AcceptClient 1; IdentifyClient 1; Deliver 1 0; Receive 1;
     AcceptClient 2; IdentifyClient 2; Deliver 2 0; Receive 2]) = Some (false, false).
Proof. vm_compute. reflexivity. Qed.
(** A server that waits for nobody waits for ever: what it waits for is looked at only after a connection
    has arrived. *)
Example alone : (λ σ, ready (σ 1)) <$> run (λ _, 0) [Bind 1 true] (start_cluster [1] ["s1"%string] (λ _, 0)) =
  Some false.
Proof. vm_compute. reflexivity. Qed.

Lemma two_nodup : NoDup two.
Proof. by apply (bool_decide_unpack _). Qed.

Lemma startup_completes_witness : ∃ σ σ',
  run one_client first_steps start2 = Some σ ∧ run one_client last_steps σ = Some σ' ∧
  (length last_steps ≤ remaining two σ)%nat ∧
  ((∃ e, of_cluster two e ∧ succeeds e = true ∧ is_Some (exec one_client e σ')) ∨
   ∀ i, i ∈ two → ready (σ' i) = true ∧ fully_connected (one_client i) (network (σ' i)) ∧
     ∀ p, p ∈ two → p ≠ i → peer_connected (network (σ' i)) p).
Proof.
  assert (H1 : is_Some (run one_client first_steps start2)) by (vm_compute; eauto).
  destruct H1 as [σ H1].
  assert (H2 : is_Some (run one_client last_steps σ)).
  { assert (H2 : is_Some (run one_client first_steps start2 ≫= run one_client last_steps)) by (vm_compute; eauto).
    by rewrite H1 in H2. }
  destruct H2 as [σ' H2]. exists σ, σ'. split; [exact H1|]. split; [exact H2|].
  apply (startup_completes two addresses one_client two_nodup eq_refl (λ _, eq_refl)
    first_steps last_steps σ σ').
  - repeat (apply Forall_cons; split; [cbn; set_solver|]). apply Forall_nil. done.
  - repeat (apply Forall_cons; split; [reflexivity|]). apply Forall_nil. done.
  - repeat (apply Forall_cons; split; [reflexivity|]). apply Forall_nil. done.
  - intros i _. left. discriminate.
  - exact H1.
  - exact H2.
Defined.

Lemma lost_handshake_is_final_witness : ∃ σ,
  run one_client (first_steps ++ Handshake 2 1 false :: [Accept 1 2; Identify 1 2]) start2 = Some σ ∧
  ready (σ 2) = false ∧ ready (σ 1) = false.
Proof.
  assert (H1 : is_Some (run one_client (first_steps ++ Handshake 2 1 false :: [Accept 1 2; Identify 1 2]) start2))
    by (vm_compute; eauto).
  destruct H1 as [σ H1]. exists σ. split; [exact H1|].
  apply (lost_handshake_is_final two addresses one_client two_nodup eq_refl (λ _, eq_refl)
    first_steps [Accept 1 2; Identify 1 2] 2 1 σ).
  - repeat (apply Forall_cons; split; [cbn; set_solver|]). apply Forall_nil. done.
  - exact H1.
Defined.
