(* ===== verification/Connections.v ===== *)
(** * Connections and their tasks (network.rs of the server and of the client)

    A connection is served by two tasks: the writer takes messages in batches from a channel, feeds
    them to the socket and flushes; the reader forwards what it can decode.  [PeerConnection],
    [ClientConnection] and [ServerConnection] differ in what they do with errors.  [Network] sees
    of a connection only its channel ([Connection]); the writer implements this view. *)

From S2P Require Import Prelude Util Time StorageApi Messages Kv Network.

(** Which of the three connections: between servers, of a server to a client, of a client to its
    server. *)
Inductive kind : Type := PeerConnection | ClientConnection | ServerConnection.
#[export] Instance kind_eq_dec : EqDecision kind.
Proof. solve_decision. Defined.

(** ** The writer task *)

Module Writer.

Inductive phase (Msg : Type) : Type :=
  | Receiving
  | Feeding (msg : Msg) (buffer : list Msg)
  | Flushing
  | Ended.
#[global] Arguments Receiving {Msg}.
#[global] Arguments Feeding {Msg}.
#[global] Arguments Flushing {Msg}.
#[global] Arguments Ended {Msg}.

(** [message_rx], whether [message_tx] still exists, where the task is, and what the socket has
    taken. *)
Record t (Msg : Type) : Type := mk {
  message_rx : list Msg;
  message_tx : bool;
  at_ : phase Msg;
  socket : list Msg
}.
#[global] Arguments mk {Msg}.
#[global] Arguments message_rx {Msg}.
#[global] Arguments message_tx {Msg}.
#[global] Arguments at_ {Msg}.
#[global] Arguments socket {Msg}.
#[global] Instance settable_message_rx {Msg} : Settable (@message_rx Msg) := λ f r,
  mk (f (message_rx r)) (message_tx r) (at_ r) (socket r).
#[global] Instance settable_message_tx {Msg} : Settable (@message_tx Msg) := λ f r,
  mk (message_rx r) (f (message_tx r)) (at_ r) (socket r).
#[global] Instance settable_at {Msg} : Settable (@at_ Msg) := λ f r,
  mk (message_rx r) (message_tx r) (f (at_ r)) (socket r).
#[global] Instance settable_socket {Msg} : Settable (@socket Msg) := λ f r,
  mk (message_rx r) (message_tx r) (at_ r) (f (socket r)).

(** What happens next: [recv_many] returns a number of messages, [feed] and [flush] succeed or
    fail, the connection is closed or dropped. *)
Inductive event : Type :=
  | Recv (n : N)
  | Feed (ok : bool)
  | Flush (ok : bool)
  | Close
  | DropSender.

Section ops.
Context {Msg : Type}.
Implicit Types w : t Msg.

Definition new : t Msg := {| message_rx := []; message_tx := true; at_ := Receiving; socket := [] |}.

Definition feed_next (buffer : list Msg) : phase Msg :=
  match buffer with [] => Flushing | msg :: buffer => Feeding msg buffer end.

(** [None]: the event cannot happen.  A failing [feed] ends the task of a [ClientConnection]; the
    others leave the [for] loop, which drops the rest of the drained buffer, and go on to flush. *)
Definition step (k : kind) (batch_size : N) (e : event) w : option (t Msg) :=
  match e, at_ w with
  | Recv n, Receiving =>
      if (1 <=? n) && (n <=? N.min batch_size (len (message_rx w))) then
        Some (w <| message_rx ::= drop (N.to_nat n) |>
                <| at_ := feed_next (take (N.to_nat n) (message_rx w)) |>)
      else if (n =? 0) && (len (message_rx w) =? 0) && negb (message_tx w) then
        Some (w <| at_ := Ended |>)
      else None
  | Feed true, Feeding msg buffer =>
      Some (w <| socket ::= λ l, l ++ [msg] |> <| at_ := feed_next buffer |>)
  | Feed false, Feeding _ _ =>
      Some (w <| at_ := match k with ClientConnection => Ended | _ => Flushing end |>)
  | Flush true, Flushing => Some (w <| at_ := Receiving |>)
  | Flush false, Flushing => Some (w <| at_ := Ended |>)
  | Close, _ => Some (w <| at_ := Ended |>)
  | DropSender, _ => Some (w <| message_tx := false |>)
  | _, _ => None
  end.

Definition ended w : bool := match at_ w with Ended => true | _ => false end.

(** [outgoing_messages.send(msg)]: the receiver goes with the task. *)
Definition send (msg : Msg) w : result (t Msg) unit :=
  if ended w then Err tt else Ok (w <| message_rx ::= λ l, l ++ [msg] |>).

(** The channel of a [ServerConnection] is bounded: its [send] waits until there is room. *)
Definition has_room (k : kind) (batch_size : N) w : bool :=
  match k with ServerConnection => len (message_rx w) <? batch_size | _ => true end.

(** What was drained from the channel and is not fed yet. *)
Definition buffered w : list Msg :=
  match at_ w with Feeding msg buffer => msg :: buffer | _ => [] end.

Fixpoint steps (k : kind) (batch_size : N) (es : list event) w : option (t Msg) :=
  match es with
  | [] => Some w
  | e :: es => w' ← step k batch_size e w; steps k batch_size es w'
  end.
End ops.
End Writer.

(** ** The reader task *)

Module Reader.

(** [ready_chunks] hands out what the stream has ready, a chunk at a time. *)
Inductive phase (Msg : Type) : Type :=
  | Waiting
  | Forwarding (chunk : list (result Msg unit))
  | Ended
  | Panicked.
#[global] Arguments Waiting {Msg}.
#[global] Arguments Forwarding {Msg}.
#[global] Arguments Ended {Msg}.
#[global] Arguments Panicked {Msg}.

(** How many items of the stream have been taken, where the task is, and what it has put into
    [incoming_messages]. *)
Record t (Msg : Type) : Type := mk { consumed : nat; at_ : phase Msg; forwarded : list Msg }.
#[global] Arguments mk {Msg}.
#[global] Arguments consumed {Msg}.
#[global] Arguments at_ {Msg}.
#[global] Arguments forwarded {Msg}.
#[global] Instance settable_consumed {Msg} : Settable (@consumed Msg) := λ f r,
  mk (f (consumed r)) (at_ r) (forwarded r).
#[global] Instance settable_at {Msg} : Settable (@at_ Msg) := λ f r,
  mk (consumed r) (f (at_ r)) (forwarded r).
#[global] Instance settable_forwarded {Msg} : Settable (@forwarded Msg) := λ f r,
  mk (consumed r) (at_ r) (f (forwarded r)).

(** A chunk of [n] items; the next item of the chunk, with [open] if somebody still receives what is
    forwarded, as soon as there is room for it; the end of the stream; [close]. *)
Inductive event : Type :=
  | Chunk (n : N)
  | Forward (open : bool)
  | EndOfStream
  | Close.

Section ops.
Context {Msg : Type}.
Implicit Types r : t Msg.

Definition new : t Msg := {| consumed := 0; at_ := Waiting; forwarded := [] |}.
Definition forward_next (chunk : list (result Msg unit)) : phase Msg :=
  match chunk with [] => Waiting | _ => Forwarding chunk end.

(** [stream]: the items of the stream so far.  When nobody receives any more, the reader of a
    [PeerConnection] leaves the inner loop, and the others unwrap. *)
Definition step (k : kind) (batch_size : N) (stream : list (result Msg unit)) (e : event) r :
    option (t Msg) :=
  match e, at_ r with
  | Chunk n, Waiting =>
      let ready := drop (consumed r) stream in
      if (1 <=? n) && (n <=? N.min batch_size (len ready)) then
        Some (r <| consumed ::= λ c, (c + N.to_nat n)%nat |>
                <| at_ := forward_next (take (N.to_nat n) ready) |>)
      else None
  | Forward _, Forwarding (Err _ :: chunk) => Some (r <| at_ := forward_next chunk |>)
  | Forward true, Forwarding (Ok m :: chunk) =>
      Some (r <| forwarded ::= λ l, l ++ [m] |> <| at_ := forward_next chunk |>)
  | Forward false, Forwarding (Ok _ :: _) =>
      Some (r <| at_ := match k with PeerConnection => Waiting | _ => Panicked end |>)
  | EndOfStream, Waiting => Some (r <| at_ := Ended |>)
  | Close, _ => Some (r <| at_ := Ended |>)
  | _, _ => None
  end.

(** What was taken from the stream and is not forwarded yet. *)
Definition chunk r : list (result Msg unit) :=
  match at_ r with Forwarding chunk => chunk | _ => [] end.
Definition running r : bool := match at_ r with Ended | Panicked => false | _ => true end.
End ops.
End Reader.

(** ** The writer implements the connection that [Network] sees *)

Section writer.
Context {Msg : Type} (k : kind) (batch_size : N).
Import Writer.
Implicit Types w : t Msg.
Implicit Types c : Connection Msg.

(** The writer after some events, and after these messages were put into its channel. *)
Inductive reached : list Msg → t Msg → Prop :=
  | reached_new : reached [] new
  | reached_step sent e w w' : reached sent w → step k batch_size e w = Some w' → reached sent w'
  | reached_send sent msg w w' :
      reached sent w → has_room k batch_size w → send msg w = Ok w' → reached (sent ++ [msg]) w'.

Definition implements c w : Prop := reached (outgoing_messages c) w ∧ closed c = ended w.

Lemma send_implements msg c w :
  implements c w → has_room k batch_size w →
  match connection_send msg c, send msg w with
  | Ok c', Ok w' => implements c' w'
  | Err _, Err _ => True
  | _, _ => False
  end.
Proof.
  intros [Hr Hc] Hroom. unfold connection_send, send. rewrite Hc. destruct (ended w) eqn:E; [done|].
  split; cbn; [|by rewrite Hc]. eapply reached_send; [done..|]. unfold send. by rewrite E.
Qed.

Lemma step_implements e c w w' :
  implements c w → step k batch_size e w = Some w' → implements (c <| closed := ended w' |>) w'.
Proof. intros [Hr Hc] E. split; [|done]. cbn. by eapply reached_step. Qed.

(** Nothing is reordered, duplicated or invented. *)
Record in_order (sent : list Msg) w : Prop := {
  io_socket : socket w `sublist_of` sent;
  io_pending : ended w = false → socket w ++ buffered w ++ message_rx w `sublist_of` sent;
  (* to a client, nothing is left out either *)
  io_prefix : k = ClientConnection → socket w `prefix_of` sent;
  io_exact : k = ClientConnection → ended w = false → sent = socket w ++ buffered w ++ message_rx w
}.

Lemma buffered_next (buffer : list Msg) x y z :
  buffered (mk x y (feed_next buffer) z) = buffer.
Proof. by destruct buffer. Qed.
Lemma ended_next (buffer : list Msg) x y z : ended (mk x y (feed_next buffer) z) = false.
Proof. by destruct buffer. Qed.

Lemma in_order_step sent e w w' :
  in_order sent w → step k batch_size e w = Some w' → in_order sent w'.
Proof.
  intros [Hs Hp Hpre Hex]. unfold step. destruct w as [rx tx p sock]. cbn in *.
  unfold ended, buffered in *. cbn in *.
  destruct e as [n|[]|[]| |], p as [|msg buffer| |]; try discriminate 1; cbn in *;
    try (intros [= <-]; by split); try (intros [= <-]; split; by auto).
  - destruct (_ && _); [|destruct (_ && _); [|done]]; intros [= <-]; [|by split].
    pose proof (take_drop (N.to_nat n) rx) as Htd.
    split; cbn; unfold ended, buffered; cbn; [done| |done|].
    + intros _. specialize (Hp eq_refl). cbn in Hp. rewrite <-Htd in Hp.
      by destruct (take (N.to_nat n) rx).
    + intros Hk _. specialize (Hex Hk eq_refl). cbn in Hex. rewrite <-Htd in Hex.
      by destruct (take (N.to_nat n) rx).
  - intros [= <-]. specialize (Hp eq_refl). cbn in Hp.
    assert (Hassoc : (sock ++ [msg]) ++ buffer ++ rx = sock ++ msg :: buffer ++ rx)
      by by rewrite <-app_assoc.
    split; cbn.
    + etrans; [|exact Hp]. rewrite <-Hassoc. by apply sublist_inserts_r.
    + intros _. unfold buffered. cbn. rewrite <-Hassoc in Hp. by destruct buffer.
    + intros Hk. rewrite (Hex Hk eq_refl). cbn. rewrite <-Hassoc. by apply prefix_app_r.
    + intros Hk _. rewrite (Hex Hk eq_refl). cbn. rewrite <-Hassoc. unfold buffered. cbn.
      by destruct buffer.
  - intros [= <-]. specialize (Hp eq_refl). cbn in Hp. split; cbn; [done| |done|].
    + intros _. destruct k; (etrans; [|exact Hp]); apply sublist_app; try done;
        by apply sublist_cons, sublist_inserts_l.
    + intros ->. done.
Qed.

Lemma reached_in_order sent w : reached sent w → in_order sent w.
Proof.
  induction 1 as [|sent e w w' _ IH E|sent msg w w' _ [Hs Hp Hpre Hex] _ E].
  - by split.
  - by eapply in_order_step.
  - unfold send in E. destruct (ended w) eqn:Ew; [done|]. injection E as <-. split; cbn.
    + by apply sublist_inserts_r.
    + intros _. unfold buffered in *. cbn. rewrite !app_assoc. apply sublist_app; [|done].
      rewrite <-app_assoc. by apply Hp.
    + intros Hk. by apply prefix_app_r, Hpre.
    + intros Hk _. rewrite (Hex Hk eq_refl) at 1. unfold buffered. cbn. by rewrite <-!app_assoc.
Qed.

(** Connections deliver in order.  Whatever the socket does: what the writer task of a connection
    has written is a subsequence of what was sent on it, and to a client even a prefix.  As long as
    the task runs, everything sent to a client is written, in its buffer or in its channel. *)
Theorem writer_keeps_order c w :
  implements c w →
  socket w `sublist_of` outgoing_messages c ∧
  (k = ClientConnection →
     socket w `prefix_of` outgoing_messages c ∧
     (closed c = false → outgoing_messages c = socket w ++ buffered w ++ message_rx w)).
Proof.
  intros [Hr Hc]. destruct (reached_in_order _ _ Hr) as [Hs _ Hpre Hex]. rewrite Hc. auto.
Qed.

(** *** Progress *)

(** The socket works, and nobody closes the connection. *)
Definition undisturbed (e : event) : Prop :=
  match e with Recv _ | Feed true | Flush true => True | _ => False end.

Lemma steps_app es es' w w' :
  steps k batch_size es w = Some w' →
  steps k batch_size (es ++ es') w = steps k batch_size es' w'.
Proof.
  revert w. induction es as [|e es IH]; intros w; cbn; [by intros [= ->]|].
  destruct (step k batch_size e w); [|done]. apply IH.
Qed.

Lemma feed_all (buffer rx : list Msg) tx sock :
  steps k batch_size (replicate (length buffer) (Feed true) ++ [Flush true])
    (mk rx tx (feed_next buffer) sock) = Some (mk rx tx Receiving (sock ++ buffer)).
Proof.
  revert sock. induction buffer as [|m b IH]; intros sock; cbn; [by rewrite app_nil_r|].
  unfold settable_socket, settable_at. cbn. rewrite IH. by rewrite <-app_assoc.
Qed.

Lemma drain_queue (rx : list Msg) tx sock :
  1 ≤ batch_size →
  ∃ es, Forall undisturbed es ∧
    steps k batch_size es (mk rx tx Receiving sock) = Some (mk [] tx Receiving (sock ++ rx)).
Proof.
  intros Hb. revert sock. induction rx as [|m rx IH]; intros sock.
  - exists []. split; [done|]. cbn. by rewrite app_nil_r.
  - destruct (IH (sock ++ [m])) as (es & Hes & E).
    exists ([Recv 1; Feed true; Flush true] ++ es). split.
    + apply Forall_app. split; [|done]. by repeat constructor.
    + rewrite (steps_app _ _ _ (mk rx tx Receiving (sock ++ [m]))).
      * by rewrite E, <-app_assoc.
      * cbn. rewrite len_cons. case_match eqn:Ecase; [done|].
        apply N.leb_gt in Ecase. lia.
Qed.

(** As long as its socket works, a writer task that has not ended gets everything out that is
    in its buffer or its channel, in order. *)
Theorem writer_drains w :
  1 ≤ batch_size → ended w = false →
  ∃ es w', Forall undisturbed es ∧
    steps k batch_size es w = Some w' ∧
    ended w' = false ∧ socket w' = socket w ++ buffered w ++ message_rx w.
Proof.
  intros Hb Hw. destruct w as [rx tx p sock]. unfold buffered. cbn.
  assert (Hall : ∀ buffer, ∃ es w', Forall undisturbed es ∧
    steps k batch_size es (mk rx tx (feed_next buffer) sock) = Some w' ∧
    ended w' = false ∧ socket w' = sock ++ buffer ++ rx).
  { intros buffer. destruct (drain_queue rx tx (sock ++ buffer) Hb) as (es & Hes & E).
    exists ((replicate (length buffer) (Feed true) ++ [Flush true]) ++ es),
      (mk [] tx Receiving ((sock ++ buffer) ++ rx)). split_and!.
    - rewrite !Forall_app. split_and!; [by apply Forall_replicate|by repeat constructor|done].
    - rewrite (steps_app _ _ _ _ (feed_all buffer rx tx sock)). exact E.
    - done.
    - cbn. by rewrite <-app_assoc. }
  destruct p as [|msg buffer| |]; [|exact (Hall (msg :: buffer))|exact (Hall [])|done].
  destruct (drain_queue rx tx sock Hb) as (es & Hes & E).
  by exists es, (mk [] tx Receiving (sock ++ rx)).
Qed.
End writer.

(** *** A failing [feed]

    Only the connections to clients end when a message cannot be fed (for instance because it is
    longer than a frame).  The others drop the batch and go on: the peer gets later messages, but
    not the ones in between. *)
Theorem peer_connection_skips_messages :
  let sent := foldl (λ w m, match Writer.send m w with Ok w' => w' | Err _ => w end) Writer.new in
  let events := [Writer.Recv 2; Writer.Feed false; Writer.Flush true;
                 Writer.Recv 1; Writer.Feed true; Writer.Flush true] in
  Writer.steps PeerConnection 100 events (sent [1; 2; 3]) =
    Some (Writer.mk [] true Writer.Receiving [3]) ∧
  Writer.steps ClientConnection 100 (take 2 events) (sent [1; 2; 3]) =
    Some (Writer.mk [3] true Writer.Ended []).
Proof. split; vm_compute; reflexivity. Qed.

(** ** Runs *)

Definition two_sent : Connection N := {| outgoing_messages := [1; 2]; closed := false |}.
Definition one_written : Writer.t N := Writer.mk [] true (Writer.Feeding 2 []) [1].
Lemma one_written_implements : implements ClientConnection 100 two_sent one_written.
Proof.
  split; [|reflexivity].
  apply (reached_step _ _ [1; 2] (Writer.Feed true) (Writer.mk [] true (Writer.Feeding 1 [2]) []));
    [|reflexivity].
  apply (reached_step _ _ [1; 2] (Writer.Recv 2) (Writer.mk [1; 2] true Writer.Receiving []));
    [|reflexivity].
  apply (reached_send _ _ [1] 2 (Writer.mk [1] true Writer.Receiving [])); [|done|reflexivity].
  apply (reached_send _ _ [] 1 Writer.new); [|done|reflexivity]. apply reached_new.
Qed.

Lemma writer_keeps_order_witness :
  Writer.socket one_written `sublist_of` [1; 2] ∧ Writer.socket one_written `prefix_of` [1; 2].
Proof.
  destruct (writer_keeps_order ClientConnection 100 two_sent one_written one_written_implements)
    as [Hs Hp]. split; [exact Hs|]. by apply Hp.
Defined.

Lemma writer_drains_witness :
  ∃ es w', Writer.steps ClientConnection 100 es one_written = Some w' ∧ Writer.socket w' = [1; 2].
Proof.
  destruct (writer_drains ClientConnection 100 one_written) as (es & w' & _ & E & _ & Hs);
    [lia|reflexivity|]. exists es, w'. split; [exact E|exact Hs].
Defined.
