(* ===== verification/Links.v ===== *)
(** * Links: from the channel of one process to the channel of another

    The writer task of one end of a connection, the bytes on their way, and the reader task of the
    other end, as interleaved steps.  What is forwarded is what was sent, in order
    ([link_delivers_in_order]); without failures everything arrives, after a number of steps that is
    known in advance ([link_delivers_everything]). *)

From S2P Require Import Prelude Util Codecs Time StorageApi Messages Kv Network Connections.

Module Link.

(** [wired]: the bytes that the sink of the writer has handed to TCP.  [arrived]: those that have
    reached the stream of the reader. *)
Record t (Msg : Type) : Type := mk {
  writer : Writer.t Msg;
  wired : bytes;
  arrived : bytes;
  reader : Reader.t Msg
}.
#[global] Arguments mk {Msg}.
#[global] Arguments writer {Msg}.
#[global] Arguments wired {Msg}.
#[global] Arguments arrived {Msg}.
#[global] Arguments reader {Msg}.
#[global] Instance settable_writer {Msg} : Settable (@writer Msg) := λ f r,
  mk (f (writer r)) (wired r) (arrived r) (reader r).
#[global] Instance settable_wired {Msg} : Settable (@wired Msg) := λ f r,
  mk (writer r) (f (wired r)) (arrived r) (reader r).
#[global] Instance settable_arrived {Msg} : Settable (@arrived Msg) := λ f r,
  mk (writer r) (wired r) (f (arrived r)) (reader r).
#[global] Instance settable_reader {Msg} : Settable (@reader Msg) := λ f r,
  mk (writer r) (wired r) (arrived r) (f (reader r)).

(** A message is sent; the writer task takes a step; the sink hands [n] bytes of what was fed to TCP,
    before a flush does it; [n] bytes arrive; the reader task takes a step. *)
Inductive event (Msg : Type) : Type :=
  | Send (m : Msg)
  | Write (e : Writer.event)
  | Spill (n : nat)
  | Arrive (n : nat)
  | Read (e : Reader.event).
#[global] Arguments Send {Msg}.
#[global] Arguments Write {Msg}.
#[global] Arguments Spill {Msg}.
#[global] Arguments Arrive {Msg}.
#[global] Arguments Read {Msg}.

Section ops.
(** The kinds of the two ends, and their batch sizes. *)
Context `{LengthDelimited} {Msg : Type} `{Bincode Msg bytes} (from to : kind) (from_batch to_batch : N).
Implicit Types L : t Msg.

Definition new : t Msg := mk Writer.new [] [] Reader.new.

Definition fed L : bytes := encode_all (Writer.socket (writer L)).
Definition stream L : list (result Msg unit) := items Msg (arrived L).

(** [feed] succeeds only on what can be encoded; a [flush] that succeeds has written everything. *)
Definition write (e : Writer.event) L : option (t Msg) :=
  match e, Writer.at_ (writer L) with
  | Writer.Feed true, Writer.Feeding m _ =>
      if decide (encodable m) then (λ w, L <| writer := w |>) <$> Writer.step from from_batch e (writer L)
      else None
  | Writer.Flush true, _ =>
      (λ w, L <| writer := w |> <| wired := fed L |>) <$> Writer.step from from_batch e (writer L)
  | _, _ => (λ w, L <| writer := w |>) <$> Writer.step from from_batch e (writer L)
  end.

Definition step (e : event Msg) L : option (t Msg) :=
  match e with
  | Send m =>
      if Writer.has_room from from_batch (writer L) then
        match Writer.send m (writer L) with Ok w => Some (L <| writer := w |>) | Err _ => None end
      else None
  | Write e => write e L
  | Spill n =>
      if decide (length (wired L) + n ≤ length (fed L))%nat then
        Some (L <| wired := take (length (wired L) + n) (fed L) |>)
      else None
  | Arrive n =>
      if decide (length (arrived L) + n ≤ length (wired L))%nat then
        Some (L <| arrived := take (length (arrived L) + n) (wired L) |>)
      else None
  | Read e => (λ r, L <| reader := r |>) <$> Reader.step to to_batch (stream L) e (reader L)
  end.

Fixpoint steps (es : list (event Msg)) L : option (t Msg) :=
  match es with [] => Some L | e :: es => L' ← step e L; steps es L' end.

(** What was sent during a run. *)
Definition sent_by (e : event Msg) : list Msg := match e with Send m => [m] | _ => [] end.
Inductive reached : list Msg → t Msg → Prop :=
  | reached_new : reached [] new
  | reached_step sent L e L' : reached sent L → step e L = Some L' → reached (sent ++ sent_by e) L'.
End ops.
End Link.

Section link.
Context `{LengthDelimitedLaws} {Msg : Type} `{Bincode Msg bytes, !BincodeLaws Msg bytes}
  (from to : kind) (from_batch to_batch : N).
Import Link.
Implicit Types L : Link.t Msg.
#[local] Abbreviation step := (Link.step from to from_batch to_batch).
#[local] Abbreviation steps := (Link.steps from to from_batch to_batch).
#[local] Abbreviation reached := (Link.reached from to from_batch to_batch).

(** *** The reader *)

(** The reader has taken messages from the front of [ms]; it has forwarded those before its current
    chunk, or, if nobody received, some of them. *)
Record reader_ok (ms : list Msg) (r : Reader.t Msg) : Prop := {
  ro_chunk : Reader.at_ r ≠ Reader.Forwarding [];
  ro_consumed : (Reader.consumed r ≤ length ms)%nat;
  ro_taken : ∃ done todo, take (Reader.consumed r) ms = done ++ todo ∧
    Reader.chunk r = Ok <$> todo ∧ Reader.forwarded r `sublist_of` done ∧
    (to ≠ PeerConnection → Reader.forwarded r `prefix_of` done ∧
      (Reader.running r → Reader.forwarded r = done))
}.

Lemma reader_ok_more ms ms' r : reader_ok ms r → reader_ok (ms ++ ms') r.
Proof.
  intros [Hne Hc Ht]. split; [done|rewrite length_app; lia|]. by rewrite take_app_le.
Qed.
(** A reader that has stopped. *)
Lemma reader_ok_stop ms r p :
  reader_ok ms r → p = Reader.Ended ∨ p = Reader.Panicked → reader_ok ms (r <| Reader.at_ := p |>).
Proof.
  intros [_ Hc (done & todo & Et & _ & Hs & Hp)] Hstop. split; [by destruct Hstop as [->| ->]|done|]. exists (done ++ todo), [].
  rewrite app_nil_r. split_and!; [done|by destruct Hstop as [->| ->]|by apply sublist_inserts_r|].
  intros Hto. split; [by apply prefix_app_r, Hp|]. by destruct Hstop as [->| ->].
Qed.
Lemma chunk_next (chunk : list (result Msg unit)) c fw :
  Reader.chunk (Reader.mk c (Reader.forward_next chunk) fw) = chunk.
Proof. by destruct chunk. Qed.
Lemma forward_next_nonempty (chunk : list (result Msg unit)) :
  Reader.forward_next chunk ≠ Reader.Forwarding [].
Proof. by destruct chunk. Qed.
Lemma running_next (chunk : list (result Msg unit)) c fw :
  Reader.running (Reader.mk c (Reader.forward_next chunk) fw).
Proof. by destruct chunk. Qed.

Lemma reader_ok_step ms k stream e r r' :
  reader_ok ms r → stream = Ok <$> take k ms →
  Reader.step to to_batch stream e r = Some r' → reader_ok ms r'.
Proof.
  intros Hok -> E. pose proof Hok as [Hne Hc (done & todo & Et & Hch & Hs & Hp)].
  destruct r as [c p fw]. unfold Reader.chunk in Hch. cbn in *.
  destruct e as [n|[]| |], p as [|[|[m|[]] chunk]| |]; try discriminate E; cbn in E;
    try (by destruct todo);
    try (injection E as <-; by apply (reader_ok_stop _ _ Reader.Ended Hok); left).
  - destruct (N.leb_spec 1 n) as [Hn1|]; [|done]. cbn [andb] in E.
    destruct (N.leb_spec n (N.min to_batch (len (drop c (Ok (E := unit) <$> take k ms))))) as [Hn|]; [|done].
    injection E as <-. cbn. unfold len in Hn. rewrite length_drop, length_fmap, length_take in Hn.
    symmetry in Hch. apply fmap_nil_inv in Hch as ->. rewrite app_nil_r in Et.
    split; cbn; [by apply forward_next_nonempty|lia|]. exists done, (take (N.to_nat n) (drop c ms)). split_and!.
    + by rewrite <-take_take_drop, Et.
    + etrans; [apply chunk_next|]. rewrite <-fmap_drop, <-fmap_take. f_equal.
      rewrite skipn_firstn_comm, take_take. f_equal. lia.
    + done.
    + intros Hto. destruct (Hp Hto) as [? Heq]. split; [done|]. intros _. by apply Heq.
  - destruct todo as [|m' todo]; [done|]. injection Hch as -> ->. injection E as <-. cbn.
    split; cbn; [by apply forward_next_nonempty|done|]. exists (done ++ [m']), todo. rewrite <-app_assoc.
    split_and!; [done|by etrans; [apply chunk_next|]|by apply sublist_app|]. intros Hto. destruct (Hp Hto) as [_ Heq].
    rewrite Heq by done. by split.
  - injection E as <-. destruct to eqn:Eto; [|apply (reader_ok_stop _ _ Reader.Panicked Hok); by right..].
    split; [done|done|]. cbn. exists (done ++ todo), []. rewrite app_nil_r.
    split_and!; [done|done|by apply sublist_inserts_r|done].
Qed.

(** *** The link *)

(** What was fed can be encoded, and its bytes are on their way in order. *)
Record link_ok L : Prop := {
  lk_encodable : Forall encodable (Writer.socket (writer L));
  lk_wired : wired L `prefix_of` fed L;
  lk_arrived : arrived L `prefix_of` wired L;
  lk_reader : reader_ok (Writer.socket (writer L)) (reader L)
}.

Lemma stream_part L : link_ok L → ∃ k, stream L = Ok <$> take k (Writer.socket (writer L)) ∧
  (arrived L = fed L → k = length (Writer.socket (writer L))).
Proof. intros [Henc Hw Ha _]. apply items_part; [done|]. by etrans. Qed.

Lemma writer_socket e (w w' : Writer.t Msg) :
  Writer.step from from_batch e w = Some w' →
  match e, Writer.at_ w with
  | Writer.Feed true, Writer.Feeding m _ => Writer.socket w' = Writer.socket w ++ [m]
  | _, _ => Writer.socket w' = Writer.socket w
  end.
Proof.
  unfold Writer.step. destruct w as [rx tx p sock]. cbn.
  destruct e as [n|[]|[]| |], p as [|m buf| |]; try discriminate 1; cbn; try (by intros [= <-]).
  destruct (_ && _); [by intros [= <-]|]. destruct (_ && _); [by intros [= <-]|done].
Qed.

(** A step of the writer task feeds at most one message, or flushes. *)
Lemma write_inv e L L' :
  write from from_batch e L = Some L' →
  arrived L' = arrived L ∧ reader L' = reader L ∧
  Writer.step from from_batch e (writer L) = Some (writer L') ∧
  ∃ ms, Forall encodable ms ∧ Writer.socket (writer L') = Writer.socket (writer L) ++ ms ∧
    (wired L' = wired L ∨ ms = [] ∧ wired L' = fed L).
Proof.
  unfold write. intros E.
  assert (Hone : ∀ o, (λ w, L <| writer := w |>) <$> o = Some L' → o = Some (writer L') ∧
    L' = L <| writer := writer L' |>).
  { intros [w|] E'; [|done]. cbn in E'. by injection E' as <-. }
  destruct e as [n|[]|[]| |]; try (
    apply Hone in E as [E ->]; pose proof (writer_socket _ _ _ E) as Hs; cbn in Hs |- *;
    split_and!; [done..|]; exists []; rewrite app_nil_r; by auto).
  - destruct (Writer.at_ (writer L)) as [|m buf| |] eqn:Ew; try (
      apply Hone in E as [E ->]; pose proof (writer_socket _ _ _ E) as Hs; rewrite Ew in Hs; cbn in Hs |- *;
      split_and!; [done..|]; exists []; rewrite app_nil_r; by auto).
    case_decide as Hm; [|done]. apply Hone in E as [E ->].
    pose proof (writer_socket _ _ _ E) as Hs. rewrite Ew in Hs. cbn in Hs |- *.
    split_and!; [done..|]. exists [m]. split_and!; [by constructor|done|by left].
  - destruct (Writer.step _ _ _ _) as [w|] eqn:E'; [|done]. injection E as <-.
    pose proof (writer_socket _ _ _ E') as Hs. cbn in Hs |- *. split_and!; [done..|].
    exists []. rewrite app_nil_r. by auto.
Qed.

Lemma link_ok_step L e L' : link_ok L → step e L = Some L' → link_ok L'.
Proof.
  intros Hok E. pose proof Hok as [Henc Hw Ha Hr]. destruct e as [m|e|n|n|e]; cbn in E.
  - destruct (Writer.has_room _ _ _); [|done]. unfold Writer.send in E.
    destruct (Writer.ended _); [done|]. injection E as <-. by split.
  - destruct (write_inv _ _ _ E) as (Ea & Er & _ & ms & Hms & Es & Ewired).
    assert (Hfed : fed L' = fed L ++ encode_all ms) by (unfold fed; by rewrite Es, encode_all_app).
    split; rewrite ?Es, ?Ea, ?Er.
    + by apply Forall_app.
    + rewrite Hfed. destruct Ewired as [->|[-> ->]]; [by apply prefix_app_r|by apply prefix_app_r].
    + destruct Ewired as [->|[_ ->]]; [done|by etrans].
    + by apply reader_ok_more.
  - case_decide as Hn; [|done]. injection E as <-. split; cbn; [done|apply prefix_take| |done].
    etrans; [done|]. destruct Hw as [x Hx]. rewrite Hx. rewrite take_app_ge by lia. by eexists.
  - case_decide as Hn; [|done]. injection E as <-. split; cbn; [done..|apply prefix_take|done].
  - destruct (stream_part L Hok) as (k & Ek & _).
    destruct (Reader.step _ _ _ _ _) as [r|] eqn:Er; [|done]. injection E as <-.
    split; cbn; [done..|]. by eapply reader_ok_step.
Qed.

Lemma link_reached sent L :
  reached sent L → link_ok L ∧ Connections.reached from from_batch sent (writer L).
Proof.
  induction 1 as [|sent L e L' _ [Hok Hw] E].
  { split; [|constructor]. split; [constructor|done..|]. split; [done|done|]. by exists [], []. }
  split; [by eapply link_ok_step|]. destruct e as [m|e|n|n|e]; cbn in E |- *; rewrite ?app_nil_r.
  - destruct (Writer.has_room _ _ _) eqn:Hroom; [|done]. destruct (Writer.send m _) as [w|] eqn:Es; [|done].
    injection E as <-. eapply reached_send; [done|by rewrite Hroom|done].
  - apply write_inv in E as (_ & _ & E & _). by eapply Connections.reached_step.
  - case_decide; [|done]. by injection E as <-.
  - case_decide; [|done]. by injection E as <-.
  - destruct (Reader.step _ _ _ _ _); [|done]. by injection E as <-.
Qed.

(** Links keep the order.  Whatever the two tasks, the sink, TCP and those that close the connection do:
    the messages that the reader of a connection has forwarded are a subsequence of those that were
    sent on the other end, undamaged; those that reach a client are the first of those its server
    has sent, without a gap. *)
Theorem link_delivers_in_order sent L :
  reached sent L →
  Reader.forwarded (reader L) `sublist_of` sent ∧
  (from = ClientConnection → to = ServerConnection → Reader.forwarded (reader L) `prefix_of` sent).
Proof.
  intros [[_ _ _ [_ _ (done & todo & Et & _ & Hs & Hp)]] Hw]%link_reached.
  destruct (reached_in_order _ _ _ _ Hw) as [Hsock _ Hpre _].
  assert (Htaken : done `prefix_of` Writer.socket (writer L)).
  { etrans; [|apply (prefix_take _ (Reader.consumed (reader L)))]. rewrite Et. by apply prefix_app_r. }
  split.
  - etrans; [exact Hs|]. etrans; [|exact Hsock]. destruct Htaken as [x ->]. by apply sublist_inserts_r.
  - intros Hf Ht. etrans; [|by apply Hpre]. etrans; [|exact Htaken]. apply Hp. by rewrite Ht.
Qed.

(** *** Progress *)

(** The socket works, somebody receives what is forwarded, and nobody closes the connection or sends
    more on it. *)
Definition undisturbed (e : event Msg) : Prop :=
  match e with
  | Write (Writer.Recv n) => 1 ≤ n
  | Spill n | Arrive n => (1 ≤ n)%nat
  | Write (Writer.Feed true) | Write (Writer.Flush true)
  | Read (Reader.Chunk _) | Read (Reader.Forward true) => True
  | _ => False
  end.

(** What the writer task has not fed yet, and what has not been forwarded yet. *)
Definition unfed L : list Msg := Writer.buffered (writer L) ++ Writer.message_rx (writer L).
Definition chunk L : list Msg :=
  omap (λ i, match i with Ok m => Some m | Err _ => None end) (Reader.chunk (reader L)).
Definition in_flight L : list Msg :=
  chunk L ++ drop (Reader.consumed (reader L)) (Writer.socket (writer L)) ++ unfed L.

(** How many steps are left at most. *)
Definition steps_left L : nat :=
  2 * length (encode_all (unfed L)) + 6 * length (Writer.message_rx (writer L))
  + 4 * length (Writer.buffered (writer L))
  + match Writer.at_ (writer L) with Writer.Receiving => 0 | _ => 1 end
  + 2 * (length (fed L) - length (wired L)) + (length (wired L) - length (arrived L))
  + 2 * (length (Writer.socket (writer L)) - Reader.consumed (reader L))
  + length (chunk L).

Definition alive L : Prop := Writer.ended (writer L) = false ∧ Reader.running (reader L).

(** The parts of states that are given by their fields. *)
Ltac link_fields :=
  unfold Writer.settable_at, Writer.settable_message_rx, Writer.settable_socket, Reader.settable_at,
    Reader.settable_consumed, Reader.settable_forwarded, settable_writer, settable_wired,
    settable_arrived, settable_reader, upd;
  unfold steps_left, in_flight, unfed, alive, fed, chunk;
  cbn [writer reader wired arrived Writer.socket Writer.message_rx Writer.message_tx Writer.at_
    Writer.buffered Reader.chunk Reader.at_ Reader.consumed Reader.forwarded app length].

(** One step of progress: nothing is lost on the way. *)
Record progress L L' : Prop := {
  pr_alive : alive L';
  pr_left : (S (steps_left L') ≤ steps_left L)%nat;
  pr_encodable : Forall encodable (unfed L) → Forall encodable (unfed L');
  pr_forwarded : Reader.forwarded (reader L') ++ in_flight L' = Reader.forwarded (reader L) ++ in_flight L
}.

Lemma undisturbed_recv n L L' :
  alive L → 1 ≤ n → write from from_batch (Writer.Recv n) L = Some L' → progress L L'.
Proof.
  destruct L as [[rx tx p sock] wd ar r]. intros [Hw Hr] Hn E. unfold write, Writer.step in E. cbn in E.
  destruct p as [|m buf| |]; try discriminate E.
  rewrite (proj2 (N.leb_le 1 n)) in E by done. cbn [andb] in E.
  rewrite (proj2 (N.eqb_neq n 0)) in E by lia. cbn [andb] in E.
  destruct (N.leb_spec n (N.min from_batch (len rx))) as [Hlen|]; [|done]. injection E as <-.
  unfold len in Hlen. cbn in Hr.
  assert (Hfed : take (N.to_nat n) rx ++ drop (N.to_nat n) rx = rx) by apply take_drop.
  split; link_fields; rewrite ?buffered_next, ?ended_next, ?Hfed; try done.
  rewrite length_take, length_drop. destruct (Writer.feed_next _); lia.
Qed.

Lemma undisturbed_feed L L' :
  link_ok L → alive L → write from from_batch (Writer.Feed true) L = Some L' → progress L L'.
Proof.
  destruct L as [[rx tx p sock] wd ar r]. intros [_ Hwd Har Hro] [Hw Hr] E.
  unfold write, Writer.step in E. cbn in E. destruct p as [|m buf| |]; try discriminate E.
  case_decide as Hm; [|done]. injection E as <-. cbn in Hr, Hro.
  apply prefix_length in Hwd, Har. cbn in Hwd, Har. unfold fed in Hwd. cbn in Hwd.
  pose proof (ro_consumed _ _ Hro) as Hc.
  split; link_fields; rewrite ?buffered_next, ?ended_next; try done.
  - change (m :: buf ++ rx) with ([m] ++ (buf ++ rx)).
    rewrite (encode_all_app sock), (encode_all_app [m]), !length_app. cbn [length].
    destruct (Writer.feed_next _); lia.
  - by intros [_ ?]%Forall_cons.
  - rewrite drop_app_le by done. cbn. by rewrite <-app_assoc.
Qed.

Lemma undisturbed_flush L L' :
  link_ok L → alive L → write from from_batch (Writer.Flush true) L = Some L' → progress L L'.
Proof.
  destruct L as [[rx tx p sock] wd ar r]. intros [_ Hwd Har _] [Hw Hr] E.
  unfold write, Writer.step in E. cbn in E. destruct p as [|m buf| |]; try discriminate E.
  injection E as <-. cbn in Hr. apply prefix_length in Hwd, Har. cbn in Hwd, Har.
  unfold fed in Hwd. cbn in Hwd. split; link_fields; [done| |done..].
  lia.
Qed.

Lemma undisturbed_bytes L e L' n :
  link_ok L → alive L → (1 ≤ n)%nat → e = Spill n ∨ e = Arrive n → step e L = Some L' → progress L L'.
Proof.
  intros [_ Hwd Har _] Ha Hn He E. apply prefix_length in Hwd, Har.
  destruct He as [-> | ->]; cbn in E; (case_decide as Hle; [|done]); injection E as <-;
    (split; [done| |done..]); unfold fed in *; link_fields; rewrite length_take; lia.
Qed.

Lemma omap_ok (ms : list Msg) :
  omap (λ i : result Msg unit, match i with Ok m => Some m | Err _ => None end) (Ok <$> ms) = ms.
Proof. induction ms as [|m ms IH]; [done|]. cbn. by rewrite IH. Qed.

Lemma undisturbed_read L e L' :
  link_ok L → alive L → undisturbed (Read e) → step (Read e) L = Some L' → progress L L'.
Proof.
  intros Hok [Hw Hr] He E. destruct (stream_part L Hok) as (k & Ek & _).
  destruct Hok as [_ _ _ [_ Hc (done & todo & _ & Hch & _)]]. cbn in E.
  destruct (Reader.step _ _ _ _ _) as [r'|] eqn:Er; [|done]. injection E as <-.
  destruct L as [w wd ar [c p fw]]. cbn in *. rewrite Ek in Er. unfold Reader.step in Er. cbn in Er.
  destruct e as [n|[]| |], p as [|[|[m|[]] ch]| |]; try done.
  - destruct (N.leb_spec 1 n) as [Hn1|]; [|done]. cbn [andb] in Er.
    destruct (N.leb_spec n (N.min to_batch
      (len (drop c (Ok (E := unit) <$> take k (Writer.socket w)))))) as [Hn|]; [|done].
    unfold len in Hn. rewrite length_drop, length_fmap, length_take in Hn.
    rewrite <-fmap_drop, <-fmap_take, skipn_firstn_comm, take_take in Er.
    rewrite Nat.min_l in Er by lia. injection Er as <-.
    split; link_fields; try done.
    + split; [done|apply running_next].
    + unfold chunk. cbn. rewrite chunk_next, omap_ok, length_take, length_drop. lia.
    + unfold chunk. cbn. rewrite chunk_next, omap_ok. cbn. rewrite <-drop_drop. f_equal.
      by rewrite app_assoc, take_drop.
  - injection Er as <-. split; link_fields; try done.
    + split; [done|apply running_next].
    + unfold chunk. cbn. rewrite chunk_next. cbn. lia.
    + unfold chunk. cbn. rewrite chunk_next. cbn. by rewrite <-app_assoc.
  - by destruct todo.
Qed.

Lemma undisturbed_step L e L' :
  link_ok L → alive L → undisturbed e → step e L = Some L' → progress L L'.
Proof.
  intros Hok Ha He E. destruct e as [m|[n|[]|[]| |]|n|n|e]; try done.
  - by eapply undisturbed_recv.
  - by apply undisturbed_feed.
  - by apply undisturbed_flush.
  - by eapply (undisturbed_bytes L _ L' n); [..|left|].
  - by eapply (undisturbed_bytes L _ L' n); [..|right|].
  - by eapply undisturbed_read.
Qed.

(** Nothing is left to do only when everything has been forwarded. *)
Lemma stuck_link L :
  1 ≤ from_batch → 1 ≤ to_batch → link_ok L → alive L → Forall encodable (unfed L) →
  (∀ e, undisturbed e → step e L = None) → in_flight L = [].
Proof.
  intros Hfb Htb Hok [Hw Hr] Henc Hstuck.
  assert (Hunfed : unfed L = []).
  { pose proof (Hstuck (Write (Writer.Recv 1)) ltac:(done)) as Hrecv.
    pose proof (Hstuck (Write (Writer.Feed true)) I) as Hfeed.
    pose proof (Hstuck (Write (Writer.Flush true)) I) as Hflush.
    destruct L as [[rx tx p sock] wd ar r]. cbn in *. unfold write, Writer.step, unfed in *. cbn in *.
    destruct p as [|m buf| |]; try done.
    - destruct rx as [|m rx]; [done|]. rewrite len_cons in Hrecv.
      rewrite (proj2 (N.leb_le 1 (N.min from_batch (1 + len rx)))) in Hrecv by lia. done.
    - apply Forall_cons in Henc as [Hm _]. by rewrite decide_True in Hfeed. }
  assert (Hwired : wired L = fed L).
  { apply prefix_length_eq; [apply Hok|]. pose proof (Hstuck (Spill 1) ltac:(cbn; lia)) as Hs.
    cbn in Hs. case_decide; [done|]. lia. }
  assert (Harrived : arrived L = wired L).
  { apply prefix_length_eq; [apply Hok|]. pose proof (Hstuck (Arrive 1) ltac:(cbn; lia)) as Hs.
    cbn in Hs. case_decide; [done|]. lia. }
  destruct (stream_part L Hok) as (k & Ek & Hk). rewrite (Hk ltac:(congruence)), firstn_all in Ek.
  pose proof (Hstuck (Read (Reader.Chunk 1)) I) as Hchunk.
  pose proof (Hstuck (Read (Reader.Forward true)) I) as Hforward. cbn in Hchunk, Hforward.
  destruct Hok as [_ _ _ [Hne Hc _]]. unfold in_flight. rewrite Hunfed, app_nil_r, Ek in *.
  destruct L as [w wd ar [c p fw]]. unfold Reader.step, chunk in *. cbn in *.
  destruct p as [|[|[m|[]] ch]| |]; try done. cbn.
  destruct (drop c (Writer.socket w)) as [|m ms] eqn:Ed; [done|].
  rewrite <-fmap_drop, Ed in Hchunk. cbn in Hchunk. rewrite len_cons in Hchunk.
  rewrite (proj2 (N.leb_le 1 (N.min to_batch (1 + len _)))) in Hchunk by lia. done.
Qed.

Lemma undisturbed_steps es L L' :
  link_ok L → alive L → Forall undisturbed es → steps es L = Some L' →
  link_ok L' ∧ alive L' ∧ (length es + steps_left L' ≤ steps_left L)%nat ∧
  (Forall encodable (unfed L) → Forall encodable (unfed L')) ∧
  Reader.forwarded (reader L') ++ in_flight L' = Reader.forwarded (reader L) ++ in_flight L.
Proof.
  revert L. induction es as [|e es IH]; intros L Hok Ha Hes E.
  { injection E as <-. split_and!; [done..|cbn [length]; lia|done|done]. }
  apply Forall_cons in Hes as [He Hes]. cbn in E. apply bind_Some in E as (L1 & E1 & E).
  destruct (undisturbed_step _ _ _ Hok Ha He E1) as [Ha1 Hleft Henc Hfw].
  destruct (IH L1 (link_ok_step _ _ _ Hok E1) Ha1 Hes E) as (Hok' & Ha' & Hleft' & Henc' & Hfw').
  split_and!; [done..|cbn [length]; lia|auto|congruence].
Qed.

(** C13.  Links deliver everything.  Once a connection is left undisturbed (its socket works, somebody
    receives what its reader forwards), with both tasks running and messages that can be encoded,
    every run of the two tasks, the sinks and TCP ends after a number of steps that is known in
    advance, in whatever order they take turns; and when nothing is left to do, everything that was
    on its way has been forwarded, in order.  A client has then received all that was ever sent. *)
Theorem link_delivers_everything sent L es L' :
  1 ≤ from_batch → 1 ≤ to_batch →
  reached sent L → alive L → Forall encodable (unfed L) →
  Forall undisturbed es → steps es L = Some L' →
  (length es ≤ steps_left L)%nat ∧
  ((∀ e, undisturbed e → step e L' = None) →
     Reader.forwarded (reader L') = Reader.forwarded (reader L) ++ in_flight L ∧
     (from = ClientConnection → to = ServerConnection → Reader.forwarded (reader L') = sent)).
Proof.
  intros Hfb Htb [Hok Hw]%link_reached Ha Henc Hes E.
  destruct (undisturbed_steps _ _ _ Hok Ha Hes E) as (Hok' & Ha' & Hleft & Henc' & Hfw).
  split; [lia|]. intros Hstuck.
  rewrite (stuck_link L') in Hfw by auto. rewrite app_nil_r in Hfw. split; [done|].
  intros Hf Ht. rewrite Hfw. destruct Ha as [Hwa Hra].
  rewrite (io_exact _ _ _ (reached_in_order _ _ _ _ Hw) Hf Hwa).
  destruct Hok as [_ _ _ [_ _ (done & todo & Et & Hch & _ & Hp)]].
  unfold in_flight, chunk. rewrite Hch, omap_ok, (proj2 (Hp ltac:(by rewrite Ht)) Hra).
  by rewrite !app_assoc, <-Et, take_drop, <-app_assoc.
Qed.
End link.
