(* ===== verification/LinkChecks.v ===== *)
(** * Runs of links

    A length-delimited codec (four bytes in big-endian order, and at most 8 MiB) and a run of a link;
    and a handshake that is read together with what follows it. *)

From S2P Require Import Prelude Util Codecs Time StorageApi Ballots PersistentStorage Messages Kv.
From S2P Require Import Network.
From S2P Require Import Framing Connections Links.

(** ** The codec *)

Definition MAX_FRAME_LENGTH : N := 8388608.
#[export] Instance length_delimited : LengthDelimited := {|
  frame_encode p := if len p <=? MAX_FRAME_LENGTH then Some (be_bytes 4 (len p) ++ p) else None;
  frame_next bs :=
    if len bs <? 4 then None
    else
      let n := from_be_bytes (take 4 bs) in
      let rest := drop 4 bs in
      if MAX_FRAME_LENGTH <? n then Some (Err tt, rest)
      else if len rest <? n then None
      else Some (Ok (take (N.to_nat n) rest), drop (N.to_nat n) rest)
|}.

Lemma length_prefix n : n ≤ MAX_FRAME_LENGTH → from_be_bytes (be_bytes 4 n) = n.
Proof.
  intros Hn. unfold from_be_bytes. rewrite be_bytes_from. cbn -[N.pow]. rewrite N.mod_small; [lia|].
  unfold MAX_FRAME_LENGTH in Hn. change (256 ^ 4) with 4294967296. lia.
Qed.
#[export] Instance length_delimited_laws : LengthDelimitedLaws.
Proof.
  assert (Hlen : ∀ n, length (be_bytes 4 n) = 4%nat) by (intros; apply be_bytes_length).
  split.
  - intros p f rest. cbv beta delta [frame_encode length_delimited] iota.
    destruct (N.leb_spec (len p) MAX_FRAME_LENGTH) as [Hp|]; [|done]. intros <-%(inj Some).
    rewrite <-app_assoc. cbv beta zeta delta [frame_next length_delimited] iota.
    rewrite take_app_length', drop_app_length' by done. rewrite length_prefix by done.
    replace (len (be_bytes 4 (len p) ++ p ++ rest) <? 4) with false.
    2:{ symmetry. apply N.ltb_ge. rewrite len_app. unfold len at 1. rewrite Hlen. lia. }
    replace (MAX_FRAME_LENGTH <? len p) with false by (symmetry; apply N.ltb_ge; lia).
    replace (len (p ++ rest) <? len p) with false by (symmetry; apply N.ltb_ge; rewrite len_app; lia).
    unfold len. by rewrite Nat2N.id, take_app_length, drop_app_length.
  - intros p f part. cbv beta delta [frame_encode length_delimited] iota.
    destruct (N.leb_spec (len p) MAX_FRAME_LENGTH) as [Hp|]; [|done]. intros <-%(inj Some) [x Hx] Hne.
    cbv beta zeta delta [frame_next length_delimited] iota. destruct (N.ltb_spec (len part) 4) as [|Hpart]; [done|].
    unfold len in Hpart. assert (E4 : take 4 part = be_bytes 4 (len p)).
    { apply (f_equal (take 4)) in Hx. rewrite take_app_length' in Hx by done.
      rewrite Hx. by rewrite take_app_le by lia. }
    assert (Ed : drop 4 part ++ x = p).
    { apply (f_equal (drop 4)) in Hx. rewrite drop_app_length' in Hx by done.
      rewrite Hx. by rewrite drop_app_le by lia. }
    rewrite E4, length_prefix by done.
    replace (MAX_FRAME_LENGTH <? len p) with false by (symmetry; apply N.ltb_ge; lia).
    replace (len (drop 4 part) <? len p) with true; [done|]. symmetry. apply N.ltb_lt.
    rewrite <-Ed, len_app. destruct x as [|b x]; [|rewrite len_cons; lia].
    exfalso. apply Hne. by rewrite app_nil_r in Hx.
  - done.
Qed.

(** Messages of one byte. *)
#[export] Instance byte_bincode : Bincode N bytes := {|
  serialize n := if n <? 256 then Ok [n] else Err tt;
  deserialize bs := match bs with [n] => Ok n | _ => Err tt end
|}.
#[export] Instance byte_bincode_laws : BincodeLaws N bytes.
Proof. intros n b. cbn. destruct (n <? 256); [|done]. by intros [= <-]. Qed.

(** ** A run *)

Definition sends_three : list (Link.event N) :=
  [Link.Send 7; Link.Send 8; Link.Write (Writer.Recv 2); Link.Write (Writer.Feed true); Link.Spill 3;
   Link.Arrive 2; Link.Send 9].
(** The rest, in one of its orders. *)
Definition drains : list (Link.event N) :=
  [Link.Arrive 1; Link.Write (Writer.Feed true); Link.Write (Writer.Flush true); Link.Arrive 2;
   Link.Read (Reader.Chunk 1); Link.Write (Writer.Recv 1); Link.Write (Writer.Feed true);
   Link.Read (Reader.Forward true); Link.Write (Writer.Flush true); Link.Arrive 10;
   Link.Read (Reader.Chunk 2); Link.Read (Reader.Forward true); Link.Read (Reader.Forward true)].
Definition link_steps := Link.steps (Msg := N) ClientConnection ServerConnection 100 100.
Definition underway : Link.t N := default Link.new (link_steps sends_three Link.new).
Definition drained : Link.t N := default Link.new (link_steps drains underway).

Lemma steps_reached {Msg} `{Bincode Msg bytes} sent (L : Link.t Msg) es L' :
  Link.reached ClientConnection ServerConnection 100 100 sent L →
  Link.steps ClientConnection ServerConnection 100 100 es L = Some L' →
  Link.reached ClientConnection ServerConnection 100 100 (sent ++ concat (Link.sent_by <$> es)) L'.
Proof.
  revert sent L. induction es as [|e es IH]; intros sent L Hr E.
  - injection E as <-. cbn. by rewrite app_nil_r.
  - apply bind_Some in E as (L1 & E1 & E). cbn. rewrite app_assoc. eapply IH; [|exact E].
    by eapply Link.reached_step.
Qed.
Lemma underway_reached : Link.reached ClientConnection ServerConnection 100 100 [7; 8; 9] underway.
Proof. apply (steps_reached [] Link.new sends_three); [constructor|]. vm_compute. reflexivity. Qed.
Lemma drained_reached : Link.reached ClientConnection ServerConnection 100 100 [7; 8; 9] drained.
Proof. apply (steps_reached [7; 8; 9] underway drains); [exact underway_reached|]. vm_compute. reflexivity. Qed.

Lemma link_delivers_in_order_witness :
  Reader.forwarded (Link.reader drained) `sublist_of` [7; 8; 9] ∧
  Reader.forwarded (Link.reader drained) `prefix_of` [7; 8; 9].
Proof.
  destruct (link_delivers_in_order ClientConnection ServerConnection 100 100 [7; 8; 9] drained
    drained_reached) as [Hs Hp]. split; [exact Hs|]. apply Hp; reflexivity.
Defined.

Lemma link_delivers_everything_witness :
  (length drains ≤ steps_left underway)%nat ∧
  ((∀ e, undisturbed e → Link.step ClientConnection ServerConnection 100 100 e drained = None) →
     Reader.forwarded (Link.reader drained) = [7; 8; 9]).
Proof.
  destruct (link_delivers_everything ClientConnection ServerConnection 100 100 [7; 8; 9] underway drains
    drained) as [Hle Hall].
  - done.
  - done.
  - exact underway_reached.
  - split; vm_compute; reflexivity.
  - repeat constructor; (eexists; vm_compute; reflexivity).
  - repeat constructor; done.
  - vm_compute. reflexivity.
  - split; [exact Hle|]. intros Hstuck. by apply Hall.
Defined.
(** It does have nothing left to do. *)
Lemma nothing_ready {A} n : 1 ≤ n → (n <=? N.min 100 (len (@nil A))) = false.
Proof. intros Hn. apply N.leb_gt. change (N.min 100 (len (@nil A))) with 0. lia. Qed.
Lemma drained_is_stuck e :
  undisturbed e → Link.step ClientConnection ServerConnection 100 100 e drained = None.
Proof.
  assert (Hd : drained = Link.mk (Writer.mk [] true Writer.Receiving [7; 8; 9])
    [0; 0; 0; 1; 7; 0; 0; 0; 1; 8; 0; 0; 0; 1; 9] [0; 0; 0; 1; 7; 0; 0; 0; 1; 8; 0; 0; 0; 1; 9]
    (Reader.mk 3 Reader.Waiting [7; 8; 9])) by (vm_compute; reflexivity).
  rewrite Hd. clear Hd. destruct e as [m|[n|[]|[]| |]|n|n|[n|[]| |]]; try done; intros Hn; cbn in Hn.
  - cbn. unfold Writer.step. cbn. rewrite nothing_ready by exact Hn.
    by rewrite !andb_false_r.
  - unfold Link.step. change (length (Link.fed _)) with 15%nat. cbn. by rewrite decide_False by lia.
  - cbn. by rewrite decide_False by lia.
  - cbn -[Link.stream]. change (Link.stream _) with [Ok (E := unit) 7; Ok 8; Ok 9]. unfold Reader.step. cbn.
    destruct (N.leb_spec 1 n) as [Hn1|]; [|done]. cbn [andb]. by rewrite nothing_ready.
Qed.

(** ** The handshake and what follows it *)

#[export] Instance registration_bincode : Bincode RegistrationMessage.t bytes := {|
  serialize m := match m with
                 | RegistrationMessage.NodeRegister id => if id <? 256 then Ok [0; id] else Err tt
                 | RegistrationMessage.ClientRegister => Ok [1]
                 end;
  deserialize bs := match bs with
                    | [0; id] => Ok (RegistrationMessage.NodeRegister id)
                    | [1] => Ok RegistrationMessage.ClientRegister
                    | _ => Err tt
                    end
|}.
#[export] Instance registration_bincode_laws : BincodeLaws RegistrationMessage.t bytes.
Proof. intros [id|] b; cbn; [|by intros [= <-]]. destruct (id <? 256); [|done]. by intros [= <-]. Qed.

(** A server registers, and sends two messages as soon as it has started.  If they are read together
    with the handshake, or a part of them is, [into_inner] drops the buffer: a message is lost, or
    the frames are cut in the middle and nothing arrives any more. *)
Theorem handshake_swallows_messages :
  let handshake := default [] (encode (RegistrationMessage.NodeRegister 2)) in
  let stream := handshake ++ encode_all (Msg := N) [7; 8] in
  let registered n := (λ x, (x.1, items N x.2)) <$> read_registration stream n in
  registered 5%nat = None ∧
  registered 6%nat = Some (Ok (RegistrationMessage.NodeRegister 2), [Ok 7; Ok 8]) ∧
  registered 8%nat = Some (Ok (RegistrationMessage.NodeRegister 2), []) ∧
  registered 11%nat = Some (Ok (RegistrationMessage.NodeRegister 2), [Ok 8]).
Proof. vm_compute. done. Qed.
