(* ===== verification/Server.v ===== *)
(** * The server (src/src/server/server.rs and configs.rs)

    [OmniPaxosServer] over the in-memory backend, and what its event loop does for a message, a
    tick and a decided entry.  The closures [speculate] and [execute] that the replica calls change
    the database of the server: where the model of the replica only reports that it calls them, the
    functions below run them.  Between two messages the tasks of the replica may run
    ([Server.run_task]). *)

From S2P Require Import Prelude Util Ballots Config Time StorageApi MemoryStorage InternalStorage.
From S2P Require Import Messages Ble Collections Clock Buffers SequencePaxos OmniPaxos Kv Network.

Definition LEADER_WAIT : Duration := from_secs 1.
Definition SERVER_ELECTION_TIMEOUT : Duration := from_secs 1.

(** ** Configuration *)

Record ClockConfig : Type := mkClockConfig {
  clock_uncertainty_us : N;
  clock_sync_interval_ms : N
}.
Definition default_clock_uncertainty_us : N := 10.
Definition default_clock_sync_interval_ms : N := 1.

Record KVClusterConfig : Type := mkKVClusterConfig {
  kv_nodes : list NodeId;
  node_addrs : list string;
  initial_leader : NodeId;
  initial_flexible_quorum : option FlexibleQuorum
}.
Record LocalConfig : Type := mkLocalConfig {
  srv_location : option string;
  srv_server_id : NodeId;
  srv_listen_address : string;
  srv_listen_port : N;
  num_clients : N;
  srv_output_filepath : string;
  srv_clock : option ClockConfig
}.
Record OmniPaxosKVConfig : Type := mkOmniPaxosKVConfig {
  local : LocalConfig;
  cluster : KVClusterConfig
}.

(** [impl Into<OmniPaxosConfig> for OmniPaxosKVConfig] *)
Definition into_omnipaxos_config (self : OmniPaxosKVConfig) : OmniPaxosConfig.t := {|
  OmniPaxosConfig.cluster_config := {|
    ClusterConfig.configuration_id := 1;
    ClusterConfig.nodes := kv_nodes (cluster self);
    ClusterConfig.flexible_quorum := initial_flexible_quorum (cluster self) |};
  OmniPaxosConfig.server_config :=
    ServerConfig.default <| ServerConfig.pid := srv_server_id (local self) |>
|}.

Definition get_peers (node : NodeId) (self : OmniPaxosKVConfig) : list NodeId :=
  filter (λ id, id ≠ node) (kv_nodes (cluster self)).

(** [clock_from_config]: the server's own identifier is passed as the master.  [clock_id] is the next
    value of the counter of clocks, [outgoing] the address of a new vector, [now] the system time. *)
Definition clock_from_config `{Build, BinaryHeap, Oneshot unit} (server_id : NodeId)
    (clock_cfg : option ClockConfig) (clock_id : N) (outgoing : addr) (now : SystemTime) :
    Clock.t (chan unit) (chans unit) :=
  let '(uncertainty_us, sync_ms) :=
    match clock_cfg with
    | Some c => (clock_uncertainty_us c, clock_sync_interval_ms c)
    | None => (10, 1)
    end in
  let drift := from_micros uncertainty_us in
  Clock.new clock_id server_id drift drift sync_ms outgoing now.

(** ** The server *)

Module Server.

Record t (Op : Type) : Type := mk {
  id : NodeId;
  private_command_id : N;
  database : Database.t;
  network : Network.t;
  omnipaxos : Op;
  current_decided_idx : N;
  omnipaxos_msg_buffer : list (Message Command.t);
  peers : list NodeId;
  config : OmniPaxosKVConfig
}.
#[global] Arguments mk {Op}.
#[global] Arguments id {Op}.
#[global] Arguments private_command_id {Op}.
#[global] Arguments database {Op}.
#[global] Arguments network {Op}.
#[global] Arguments omnipaxos {Op}.
#[global] Arguments current_decided_idx {Op}.
#[global] Arguments omnipaxos_msg_buffer {Op}.
#[global] Arguments peers {Op}.
#[global] Arguments config {Op}.
#[global] Instance settable_id {Op} : Settable (@id Op) := λ f r,
  mk (f (id r)) (private_command_id r) (database r) (network r) (omnipaxos r)
    (current_decided_idx r) (omnipaxos_msg_buffer r) (peers r) (config r).
#[global] Instance settable_private_command_id {Op} : Settable (@private_command_id Op) := λ f r,
  mk (id r) (f (private_command_id r)) (database r) (network r) (omnipaxos r)
    (current_decided_idx r) (omnipaxos_msg_buffer r) (peers r) (config r).
#[global] Instance settable_database {Op} : Settable (@database Op) := λ f r,
  mk (id r) (private_command_id r) (f (database r)) (network r) (omnipaxos r)
    (current_decided_idx r) (omnipaxos_msg_buffer r) (peers r) (config r).
#[global] Instance settable_network {Op} : Settable (@network Op) := λ f r,
  mk (id r) (private_command_id r) (database r) (f (network r)) (omnipaxos r)
    (current_decided_idx r) (omnipaxos_msg_buffer r) (peers r) (config r).
#[global] Instance settable_omnipaxos {Op} : Settable (@omnipaxos Op) := λ f r,
  mk (id r) (private_command_id r) (database r) (network r) (f (omnipaxos r))
    (current_decided_idx r) (omnipaxos_msg_buffer r) (peers r) (config r).
#[global] Instance settable_current_decided_idx {Op} : Settable (@current_decided_idx Op) := λ f r,
  mk (id r) (private_command_id r) (database r) (network r) (omnipaxos r)
    (f (current_decided_idx r)) (omnipaxos_msg_buffer r) (peers r) (config r).
#[global] Instance settable_omnipaxos_msg_buffer {Op} : Settable (@omnipaxos_msg_buffer Op) := λ f r,
  mk (id r) (private_command_id r) (database r) (network r) (omnipaxos r) (current_decided_idx r)
    (f (omnipaxos_msg_buffer r)) (peers r) (config r).
#[global] Instance settable_peers {Op} : Settable (@peers Op) := λ f r,
  mk (id r) (private_command_id r) (database r) (network r) (omnipaxos r) (current_decided_idx r)
    (omnipaxos_msg_buffer r) (f (peers r)) (config r).
#[global] Instance settable_config {Op} : Settable (@config Op) := λ f r,
  mk (id r) (private_command_id r) (database r) (network r) (omnipaxos r) (current_decided_idx r)
    (omnipaxos_msg_buffer r) (peers r) (f (config r)).

Definition NETWORK_BATCH_SIZE : N := 100.

Inductive phase : Type := Establishing | MainLoop.

Inductive branch : Type :=
  | LeaderTakeover (now_ms : Timestamp)
  | ElectionTick
  | ClusterMessages (messages : list (NodeId * ClusterMessage.t))
  | ClientMessages (messages : list (ClientId * ClientMessage.t)).

Inductive job : Type :=
  | Takeover (now_ms : Timestamp)
  | Tick
  | FromCluster (message : ClusterMessage.t)
  | FromClient (from : ClientId) (message : ClientMessage.t)
  | SendOutgoing.

Definition jobs_of (b : branch) : list job :=
  match b with
  | LeaderTakeover now_ms => [Takeover now_ms]
  | ElectionTick => [Tick; SendOutgoing]
  | ClusterMessages ms => (FromCluster <$> ms.*2) ++ [SendOutgoing]
  | ClientMessages ms => (uncurry FromClient <$> ms) ++ [SendOutgoing]
  end.

Section ops.
Context {H : Type} `{Build, Hasher H, BinaryHeap, Oneshot Command.t, Oneshot unit}.

Abbreviation Backend := (MemoryStorage.t Command.t NoSnapshot).
Abbreviation Replica := (SequencePaxos.t (InternalStorage.t Backend Command.t)
  (Buffers.t Command.t (chan Command.t) (chans Command.t)) (Clock.t (chan unit) (chans unit))
  (list (Message Command.t)) (task Command.t (chan Command.t) (chan unit))).
Abbreviation Self := (t (OmniPaxos.t Replica)).

(** [OmniPaxosServer::new] with the network it waits for: the clock is made first, and then given
    the vector of outgoing messages of the replica, at address [outgoing]. *)
Definition new (config : OmniPaxosKVConfig) (env_clock : option ClockConfig) (clock_id : N)
    (clock_outgoing outgoing outgoing_clients : addr) (now : SystemTime) (network : Network.t) :
    outcome Self :=
  let clock_cfg := match srv_clock (local config) with Some c => Some c | None => env_clock end in
  let clock := clock_from_config (srv_server_id (local config)) clock_cfg clock_id clock_outgoing now in
  match OmniPaxos.build (into_omnipaxos_config config) MemoryStorage.default clock
          outgoing outgoing_clients with
  | Panic f => Panic f
  | Val (Err _) => Panic ExpectErr
  | Val (Ok omnipaxos) =>
      let omnipaxos := omnipaxos <| OmniPaxos.seq_paxos ::= λ r,
        r <| SequencePaxos.clock ::= λ c, (Clock.set_outgoing outgoing c).2 |> |> in
      Val {| id := srv_server_id (local config); private_command_id := 0;
             database := Database.new; network := network; omnipaxos := omnipaxos;
             current_decided_idx := 0; omnipaxos_msg_buffer := [];
             peers := get_peers (srv_server_id (local config)) config; config := config |}
  end.

Definition seq_paxos_call {A} (m : M Replica A) : M Self A :=
  zoom omnipaxos (zoom OmniPaxos.seq_paxos m).

(** [database.lock().unwrap().handle_command(..)] *)
Definition handle_command (c : KVCommand.t) : M Self (option (option string)) := λ s,
  let (answer, db) := Database.handle_command c (database s) in (Val answer, s <| database := db |>).

Definition send_to_cluster (to : NodeId) (msg : ClusterMessage.t) : M Self unit :=
  zoom network (Network.send_to_cluster to msg).
Definition send_to_client (to : ClientId) (msg : ServerMessage.t) : M Self unit :=
  zoom network (Network.send_to_client to msg).

(** *** Decided entries *)

Definition update_database_and_respond (commands : list Command.t) : M Self unit :=
  mfor commands (λ command,
    let* read := handle_command (Command.kv_cmd command) in
    let* self := gets (λ s, s) in
    when (Command.coordinator_id command =? id self)
      (let response := match read with
                       | Some read_result => ServerMessage.Read (Command.id command) read_result
                       | None => ServerMessage.Write (Command.id command)
                       end in
       send_to_client (Command.client_id command) response)).

Fixpoint decided_commands (entries : list (LogEntry Command.t)) : outcome (list Command.t) :=
  match entries with
  | [] => Val []
  | Decided cmd :: entries' =>
      match decided_commands entries' with Val cmds => Val (cmd :: cmds) | Panic f => Panic f end
  | _ :: _ => Panic UnreachableCode
  end.

Definition handle_decided_entries : M Self unit :=
  let* new_decided_idx := seq_paxos_call
    (zoom SequencePaxos.internal_storage InternalStorage.get_decided_idx) in
  let* self := gets (λ s, s) in
  if current_decided_idx self <? new_decided_idx then
    let* read := zoom omnipaxos (OmniPaxos.read_decided_suffix (current_decided_idx self)) in
    let* decided_entries := unwrap read in
    let* _ := modify (λ s, s <| current_decided_idx := new_decided_idx |>) in
    let* cmds := lift (decided_commands decided_entries) in
    update_database_and_respond cmds
  else ret tt.

(** *** Outgoing messages *)

(** All acknowledgements go to client 1: the proxy. *)
Definition send_outgoing_msgs : M Self unit :=
  let* self := gets (λ s, s) in
  let* msgs := zoom omnipaxos (OmniPaxos.take_outgoing_messages (omnipaxos_msg_buffer self)) in
  let* _ := mfor msgs (λ msg,
    send_to_cluster (get_receiver msg) (ClusterMessage.OmniPaxosMessage msg)) in
  let* msgs := zoom omnipaxos (OmniPaxos.take_client_outgoing_messages []) in
  let* _ := mfor msgs (λ m,
    let* p := (match m with SequencePaxosMsg p => ret (msg p) | BLE _ => panic UnreachableCode end) in
    let* r := (match p with
               | Ack a b c d => ret (ServerMessage.Ack a b c d)
               | _ => panic UnreachableCode
               end) in
    send_to_client 1 r) in
  modify (λ s, s <| omnipaxos_msg_buffer := [] |>).

(** *** Requests and messages *)

(** The closure [speculate] runs if the replica leads and is not stopped, before [append] returns. *)
Definition append_to_log (from : ClientId) (command_id : CommandId) (kv_command : KVCommand.t) :
    M Self unit :=
  let* self := gets (λ s, s) in
  let* deadline := seq_paxos_call (zoom SequencePaxos.clock Clock.new_deadline) in
  let command := {|
    Command.deadline := deadline; Command.client_id := from; Command.coordinator_id := id self;
    Command.private_id := private_command_id self; Command.id := command_id;
    Command.kv_cmd := kv_command |} in
  let* next := lift (wadd usize_mod (private_command_id self) 1) in
  let* _ := modify (λ s, s <| private_command_id := next |>) in
  let* state := seq_paxos_call (gets SequencePaxos.get_state) in
  let speculate := λ entry, (Database.handle_command (Command.kv_cmd entry) (database self)).1 in
  let* r := zoom omnipaxos (OmniPaxos.append command speculate) in
  match r with
  | Ok _ => when (bool_decide (state.1 = Leader)) (let* _ := handle_command kv_command in ret tt)
  | Err _ => panic ExpectErr
  end.

(** The closure [execute] of [handle] runs if the replica calls it. *)
Definition execute (executed : option Command.t) : M Self unit :=
  match executed with
  | Some entry => let* _ := handle_command (Command.kv_cmd entry) in ret tt
  | None => ret tt
  end.

Definition handle_client_message (from : ClientId) (message : ClientMessage.t) : M Self unit :=
  match message with
  | ClientMessage.Append command_id kv_command => append_to_log from command_id kv_command
  | ClientMessage.Ack r last_idx =>
      let* executed := seq_paxos_call (SequencePaxos.handle
        {| Messages.from := 10; to := 10; msg := Confirm r last_idx |}) in
      execute executed
  end.

Definition handle_client_messages (messages : list (ClientId * ClientMessage.t)) : M Self unit :=
  let* _ := mfor messages (λ m, handle_client_message m.1 m.2) in
  send_outgoing_msgs.

(** [1..self.config.local.num_clients as ClientId + 1] *)
Definition send_client_start_signals (start_time : Timestamp) : M Self unit :=
  let* self := gets (λ s, s) in
  let* upto := lift (wadd u64_mod (num_clients (local (config self))) 1) in
  mfor (N.of_nat <$> seq 1 (N.to_nat (upto - 1)))
    (λ client_id, send_to_client client_id (ServerMessage.StartSignal start_time)).

Definition send_cluster_start_signals (start_time : Timestamp) : M Self unit :=
  let* self := gets (λ s, s) in
  mfor (peers self) (λ peer, send_to_cluster peer (ClusterMessage.LeaderStartSignal start_time)).

(** Whether it was a start signal. *)
Definition handle_cluster_message (message : ClusterMessage.t) : M Self bool :=
  match message with
  | ClusterMessage.OmniPaxosMessage m =>
      let* executed := zoom omnipaxos (OmniPaxos.handle_incoming m) in
      let* _ := execute executed in
      let* _ := handle_decided_entries in
      ret false
  | ClusterMessage.LeaderStartSignal start_time =>
      let* _ := send_client_start_signals start_time in ret true
  end.

Fixpoint handle_cluster_loop (messages : list (NodeId * ClusterMessage.t))
    (received_start_signal : bool) : M Self bool :=
  match messages with
  | [] => ret received_start_signal
  | m :: messages' =>
      let* start := handle_cluster_message m.2 in
      handle_cluster_loop messages' (received_start_signal || start)
  end.
Definition handle_cluster_messages (messages : list (NodeId * ClusterMessage.t)) : M Self bool :=
  let* received_start_signal := handle_cluster_loop messages false in
  let* _ := send_outgoing_msgs in
  ret received_start_signal.

(** *** The event loop *)

(** The branches of [run] and of [establish_initial_leader]; [leader_takeover] returns whether
    [establish_initial_leader] ends.  [now_ms] is the current time in ms. *)
Definition election_tick : M Self unit :=
  let* _ := zoom omnipaxos OmniPaxos.tick in send_outgoing_msgs.

Definition leader_takeover (now_ms : Timestamp) : M Self bool :=
  let* leader := zoom omnipaxos OmniPaxos.get_current_leader in
  let* self := gets (λ s, s) in
  let experiment_sync_start := (now_ms + 2000)%Z in
  let take_leadership :=
    let* _ := zoom omnipaxos OmniPaxos.try_become_leader in
    let* _ := send_outgoing_msgs in
    ret false in
  match leader with
  | Some (curr_leader, _) =>
      if curr_leader =? id self then
        let* _ := send_cluster_start_signals experiment_sync_start in
        let* _ := send_client_start_signals experiment_sync_start in
        ret true
      else take_leadership
  | None => take_leadership
  end.

(** A task of the replica takes a step. *)
Definition run_task (e : SequencePaxos.env) (i : nat) (s : Self) : option Self :=
  (λ r, s <| omnipaxos ::= λ o, o <| OmniPaxos.seq_paxos := r |> |>) <$>
  SequencePaxos.schedule e i (OmniPaxos.seq_paxos (omnipaxos s)).


(** What there is to do for a branch, in pieces between which the tasks of the replica may run. *)
Definition run_job (j : job) : M Self bool :=
  match j with
  | Takeover now_ms => leader_takeover now_ms
  | Tick => let* _ := zoom omnipaxos OmniPaxos.tick in ret false
  | FromCluster m => handle_cluster_message m
  | FromClient from m => let* _ := handle_client_message from m in ret false
  | SendOutgoing => let* _ := send_outgoing_msgs in ret false
  end.
Fixpoint run_jobs (js : list job) (ended : bool) : M Self bool :=
  match js with
  | [] => ret ended
  | j :: js => let* r := run_job j in run_jobs js (ended || r)
  end.

(** The guards of the [select!]s; [recv_many] waits for a message. *)
Definition enabled (p : phase) (b : branch) (self : Self) : bool :=
  match b with
  | LeaderTakeover _ =>
      match p with
      | Establishing => initial_leader (cluster (config self)) =? id self
      | MainLoop => false
      end
  | ElectionTick => match p with Establishing => false | MainLoop => true end
  | ClusterMessages ms => (1 <=? len ms) && (len ms <=? NETWORK_BATCH_SIZE)
  | ClientMessages ms => (1 <=? len ms) && (len ms <=? NETWORK_BATCH_SIZE)
  end.

(** The event loop: what is left of the current branch, and whether a start signal was among the
    messages of this branch. *)
Record loop : Type := mkLoop { at_ : phase; jobs : list job; ended : bool; server : Self }.

Definition start (server : Self) : loop := mkLoop Establishing [] false server.
Definition next (l : loop) : loop :=
  match jobs l with
  | [] => mkLoop (if ended l then MainLoop else at_ l) [] false (server l)
  | _ => l
  end.

Inductive event : Type :=
  | EBranch (b : branch)                        (* [select!] picks a branch *)
  | EJob                                        (* the next piece of the branch *)
  | ETask (e : SequencePaxos.env) (i : nat)     (* a task of the replica *)
  | EDrop (c : ClientId).                       (* the writer of a client connection is gone *)

Definition drop_client (c : ClientId) (s : Self) : Self :=
  s <| network ::= λ n, n <| Network.client_connections ::= alter (λ k, k <| closed := true |>) c |> |>.

Definition exec (ev : event) (l : loop) : option loop :=
  match ev with
  | EBranch b =>
      match jobs l with
      | [] => if enabled (at_ l) b (server l)
              then Some (mkLoop (at_ l) (jobs_of b) false (server l)) else None
      | _ => None
      end
  | EJob =>
      match jobs l with
      | j :: js =>
          match run_job j (server l) with
          | (Val r, s) => Some (next (mkLoop (at_ l) js (ended l || r) s))
          | (Panic _, _) => None
          end
      | [] => None
      end
  | ETask e i => (λ s, mkLoop (at_ l) (jobs l) (ended l) s) <$> run_task e i (server l)
  | EDrop c => Some (mkLoop (at_ l) (jobs l) (ended l) (drop_client c (server l)))
  end.

End ops.
End Server.

(** ** The jobs of a branch, one after the other *)

Section jobs.
Context {H : Type} `{Build, Hasher H, BinaryHeap, Oneshot Command.t, Oneshot unit}.
Import Server.

Abbreviation ServerState := (Server.t (OmniPaxos.t (SequencePaxos.t
  (InternalStorage.t (MemoryStorage.t Command.t NoSnapshot) Command.t)
  (Buffers.t Command.t (chan Command.t) (chans Command.t)) (Clock.t (chan unit) (chans unit))
  (list (Message Command.t)) (task Command.t (chan Command.t) (chan unit))))).
Implicit Types s : ServerState.

Lemma run_jobs_app js js' ended s :
  run_jobs (js ++ js') ended s = (let* r := run_jobs js ended in run_jobs js' r) s.
Proof.
  revert ended s. induction js as [|j js IH]; intros ended s; [done|]. cbn. unfold bind.
  destruct (run_job j s) as [[r|f] s1]; [|done]. rewrite IH. done.
Qed.

Lemma cluster_loop ms ended s :
  run_jobs (FromCluster <$> ms.*2) ended s = handle_cluster_loop ms ended s.
Proof.
  revert ended s. induction ms as [|m ms IH]; intros ended s; [done|]. cbn. unfold bind.
  destruct (handle_cluster_message m.2 s) as [[r|f] s1]; [apply IH|done].
Qed.
Lemma client_loop ms s :
  run_jobs (uncurry FromClient <$> ms) false s =
  (let* _ := mfor ms (λ m, handle_client_message m.1 m.2) in ret false) s.
Proof.
  revert s. induction ms as [|[c m] ms IH]; intros s; [done|]. cbn. unfold bind in *. cbn.
  destruct (handle_client_message c m s) as [[[]|f] s1]; [apply IH|done].
Qed.

(** Without interruption they are the handlers of the source. *)
Lemma cluster_jobs ms s :
  run_jobs (jobs_of (ClusterMessages ms)) false s = handle_cluster_messages ms s.
Proof.
  unfold handle_cluster_messages. cbn [jobs_of]. rewrite run_jobs_app. unfold bind at 1 2.
  rewrite cluster_loop. destruct (handle_cluster_loop ms false s) as [[r|f] s1]; [|done].
  cbn. unfold bind. destruct (send_outgoing_msgs s1) as [[[]|f] s2]; cbn; by rewrite ?orb_false_r.
Qed.
Lemma client_jobs ms s :
  run_jobs (jobs_of (ClientMessages ms)) false s =
  (let* _ := handle_client_messages ms in ret false) s.
Proof.
  unfold handle_client_messages. cbn [jobs_of]. rewrite run_jobs_app. unfold bind at 1.
  rewrite client_loop. unfold bind at 1 2 3. cbn [run_jobs run_job].
  destruct (mfor ms _ s) as [[u|f] s1]; [|done]. unfold ret at 1, bind.
  by destruct (send_outgoing_msgs s1) as [[[]|f] s2].
Qed.
Lemma tick_jobs s :
  run_jobs (jobs_of ElectionTick) false s = (let* _ := election_tick in ret false) s.
Proof.
  unfold election_tick. cbn [jobs_of run_jobs run_job]. unfold bind, ret.
  destruct (zoom omnipaxos OmniPaxos.tick s) as [[u|f] s1]; [|done].
  by destruct (send_outgoing_msgs s1) as [[v|f] s2].
Qed.
End jobs.

(** ** Reads of the in-memory backend do not fail *)

Section never_err.
Context {S : Type}.

Definition never_err {A E} (m : M S (result A E)) : Prop := ∀ s e s', m s ≠ (Val (Err e), s').

Lemma never_err_ok {A E} (a : A) : never_err (E := E) (ret (Ok a)).
Proof. by intros s e s' [=]. Qed.
Lemma never_err_panic {A E} f : never_err (A := A) (E := E) (panic f).
Proof. by intros s e s' [=]. Qed.
Lemma never_err_bind {A B E} (m : M S A) (k : A → M S (result B E)) :
  (∀ a, never_err (k a)) → never_err (bind m k).
Proof. intros Hk s e s' E1. apply bind_val_inv in E1 as (a & s1 & _ & E2). by eapply Hk. Qed.
Lemma never_err_bind_ok {A B E} (m : M S (result A E)) (k : A → M S (result B E)) :
  never_err m → (∀ a, never_err (k a)) → never_err (bind_ok m k).
Proof.
  intros Hm Hk s e s'. unfold bind_ok, bind. destruct (m s) as [[[a|e']|f] s1] eqn:E1.
  - apply Hk.
  - exfalso. by eapply Hm.
  - done.
Qed.
Lemma never_err_zoom {T A E} (proj : S → T) `{!Settable proj} (m : M T (result A E)) :
  (∀ s e s', m s ≠ (Val (Err e), s')) → never_err (zoom proj m).
Proof.
  intros Hm s e s'. unfold zoom. destruct (m (proj s)) as [o t] eqn:E1. intros [= -> _]. by eapply Hm.
Qed.
End never_err.

Section memory_reads.
Context {H : Type} `{Build, Hasher H, Hash T, Snapshot T Sn}.

Lemma memory_entries_ok from to :
  never_err (MemoryStorage.get_entries (T := T) (Sn := Sn) from to).
Proof. unfold MemoryStorage.get_entries. repeat (apply never_err_bind; intros ?). apply never_err_ok. Qed.

Ltac never_err :=
  repeat first [apply never_err_ok | apply never_err_panic | apply never_err_bind_ok; [|intros ?]
    | apply never_err_bind; intros ? | apply never_err_zoom, memory_entries_ok | case_match].

Lemma memory_entry_type_ok idx compacted accepted :
  never_err (InternalStorage.get_entry_type (T := T) (I := MemoryStorage.t T Sn)
    idx compacted accepted).
Proof. unfold InternalStorage.get_entry_type. never_err. Qed.
Lemma memory_read_entries_ok from to :
  never_err (InternalStorage.create_read_log_entries (T := T) (Sn := Sn)
    (I := MemoryStorage.t T Sn) from to).
Proof.
  unfold InternalStorage.create_read_log_entries, InternalStorage.get_entries. never_err.
Qed.
Lemma memory_read_ok from to :
  never_err (InternalStorage.read (T := T) (Sn := Sn) (I := MemoryStorage.t T Sn) from to).
Proof.
  unfold InternalStorage.read.
  repeat first [apply memory_entry_type_ok | apply memory_read_entries_ok
    | apply never_err_bind_ok; [|intros ?]
    | apply never_err_bind; intros ? | apply never_err_ok | apply never_err_panic | case_match].
Qed.
End memory_reads.

(** ** What a server does with decided entries *)

Section decided.
Context {H : Type} `{Build, Hasher H, BinaryHeap, Oneshot Command.t, Oneshot unit}.
Import Server.

Abbreviation Backend := (MemoryStorage.t Command.t NoSnapshot).
Abbreviation Replica := (SequencePaxos.t (InternalStorage.t Backend Command.t)
  (Buffers.t Command.t (chan Command.t) (chans Command.t)) (Clock.t (chan unit) (chans unit))
  (list (Message Command.t)) (task Command.t (chan Command.t) (chan unit))).
Abbreviation ServerState := (Server.t (OmniPaxos.t Replica)).
Implicit Types s : ServerState.

(** The reference: what client [c] of server [me] is answered when [cmds] are executed. *)
Definition response_to (cmd : Command.t) (answer : option (option string)) : ServerMessage.t :=
  match answer with
  | Some read_result => ServerMessage.Read (Command.id cmd) read_result
  | None => ServerMessage.Write (Command.id cmd)
  end.
Fixpoint responses (me : NodeId) (c : ClientId) (cmds : list Command.t) (d : Database.t) :
    list ServerMessage.t :=
  match cmds with
  | [] => []
  | cmd :: cmds' =>
      let (answer, d') := Database.handle_command (Command.kv_cmd cmd) d in
      (if (Command.coordinator_id cmd =? me) && (Command.client_id cmd =? c)
       then [response_to cmd answer] else []) ++ responses me c cmds' d'
  end.

(** Nothing but the database and the client connections changes. *)
Definition applied (cmds : list Command.t) s s' : Prop :=
  database s' = Database.execute_all (Command.kv_cmd <$> cmds) (database s) ∧
  (∀ c, client_outbox (network s') c =
        (λ l, l ++ responses (id s) c cmds (database s)) <$> client_outbox (network s) c) ∧
  id s' = id s ∧ omnipaxos s' = omnipaxos s ∧ current_decided_idx s' = current_decided_idx s ∧
  private_command_id s' = private_command_id s.

Lemma applied_nil s : applied [] s s.
Proof.
  unfold applied. split_and!; try done. intros c.
  destruct (client_outbox (network s) c); cbn; [by rewrite app_nil_r|done].
Qed.

Lemma applied_cons cmd cmds s s1 s2 :
  applied [cmd] s s1 → applied cmds s1 s2 → applied (cmd :: cmds) s s2.
Proof.
  unfold applied. intros (Hd1 & Ho1 & Hi1 & Hom1 & Hc1 & Hp1) (Hd2 & Ho2 & Hi2 & Hom2 & Hc2 & Hp2).
  split_and!; try congruence.
  - by rewrite Hd2, Hd1.
  - intros c. rewrite Ho2, Ho1, Hi1, Hd1. cbn.
    destruct (Database.handle_command (Command.kv_cmd cmd) (database s)) as [answer d] eqn:E. cbn.
    destruct (client_outbox (network s) c); cbn; [|done]. f_equal.
    by rewrite app_nil_r, <-app_assoc.
Qed.

(** What one command does. *)
Lemma respond_step cmd s :
  returns (update_database_and_respond [cmd]) s (λ _ s', applied [cmd] s s').
Proof.
  unfold update_database_and_respond, mfor. wp. unfold handle_command.
  eapply returns_intro with (a := _) (s' := _);
    [by rewrite (surjective_pairing (Database.handle_command _ _))|]. cbv beta.
  destruct (Database.handle_command (Command.kv_cmd cmd) (database s)) as [answer d] eqn:E. cbn [fst snd].
  wp. set (s1 := s <| database := d |>). change (id s1) with (id s).
  assert (Hd : d = Database.execute_all (Command.kv_cmd <$> [cmd]) (database s)).
  { cbn. by rewrite E. }
  destruct (Command.coordinator_id cmd =? id s) eqn:Eid.
  - unfold send_to_client. apply returns_zoom. eapply returns_mono; [apply send_to_client_spec|].
    cbv beta. intros _ net (_ & _ & Hout). wp. unfold applied. cbn. split_and!; try done.
    intros c. rewrite Hout, E, Eid. cbn. fold (response_to cmd answer).
    destruct (decide (c = Command.client_id cmd)) as [->|Hne].
    + by rewrite N.eqb_refl.
    + rewrite (proj2 (N.eqb_neq _ _)) by done. cbn.
      destruct (client_outbox _ c); cbn; by rewrite ?app_nil_r.
  - wp. unfold applied. cbn. split_and!; try done. intros c. rewrite E, Eid. cbn.
    destruct (client_outbox _ c); cbn; by rewrite ?app_nil_r.
Qed.

Lemma respond_all cmds s :
  returns (update_database_and_respond cmds) s (λ _ s', applied cmds s s').
Proof.
  revert s. induction cmds as [|cmd cmds IH]; intros s; [apply applied_nil|].
  pose proof (respond_step cmd s) as Hstep. unfold update_database_and_respond in *. cbn [mfor] in *.
  apply returns_bind. revert Hstep. unfold returns, bind at 1. cbn.
  match goal with |- context [bind ?m ?k s] => destruct (bind m k s) as [[[]|f] s1] end; [|done].
  cbn. intros Hstep. specialize (IH s1). unfold returns in IH.
  destruct (mfor cmds _ s1) as [[u|f] s2]; [|done]. by eapply applied_cons.
Qed.

(** C8.  Executing decided commands.  Afterwards the database is the old one with the commands
    executed in order; every client of this server with an open connection has been sent one answer
    per command of its own, in order, and the answer to a [Get] is what the database held at that
    command; other servers' clients are sent nothing, and the call never panics. *)
Theorem decided_commands_are_executed_and_answered cmds s :
  returns (update_database_and_respond cmds) s (λ _ s',
    database s' = Database.execute_all (Command.kv_cmd <$> cmds) (database s) ∧
    (∀ c, client_outbox (network s') c =
          (λ l, l ++ responses (id s) c cmds (database s)) <$> client_outbox (network s) c) ∧
    current_decided_idx s' = current_decided_idx s).
Proof. eapply returns_mono; [apply respond_all|]. intros _ s' (? & ? & _ & _ & ? & _). done. Qed.

(** *** The decided suffix *)

Definition storage_of s : InternalStorage.t Backend Command.t :=
  SequencePaxos.internal_storage (OmniPaxos.seq_paxos (omnipaxos s)).

(** A computation that only reads the storage. *)
Lemma returns_read_storage {A} (m : M (InternalStorage.t Backend Command.t) A) s Q :
  returns m (storage_of s) (λ a st, st = storage_of s ∧ Q a s) →
  returns (seq_paxos_call (zoom SequencePaxos.internal_storage m)) s Q.
Proof.
  intros Hm. apply returns_zoom, returns_zoom, returns_zoom. eapply returns_mono; [exact Hm|].
  cbv beta. intros a st [-> HQ]. destruct s as [? ? ? ? [sp ? ?] ? ? ? ?]. by destruct sp.
Qed.
Lemma read_suffix_call from s Q :
  returns (seq_paxos_call (zoom SequencePaxos.internal_storage
    (InternalStorage.read_decided_suffix from))) s
    (λ r s', match r with Ok a => Q a s' | Err _ => False end) →
  returns (zoom omnipaxos (OmniPaxos.read_decided_suffix from)) s Q.
Proof.
  unfold OmniPaxos.read_decided_suffix, OmniPaxos.storage_call, seq_paxos_call. intros Hr.
  apply returns_zoom, returns_expect. revert Hr. unfold returns, zoom.
  destruct (InternalStorage.read_decided_suffix from _) as [o st]. by destruct o.
Qed.

Lemma imap_decided (l : list Command.t) from decided :
  from + len l ≤ decided →
  imap (λ idx e, if N.of_nat idx + from <? decided then Decided e else Undecided e) l =
  Decided <$> l.
Proof.
  intros Hle. apply list_eq. intros k. rewrite list_lookup_imap, list_lookup_fmap.
  destruct (l !! k) as [e|] eqn:Ek; [|done]. cbn. apply lookup_lt_Some in Ek.
  unfold len in Hle. by decide_cmp.
Qed.
Lemma decided_commands_all cmds : decided_commands (Decided <$> cmds) = Val cmds.
Proof. induction cmds as [|c cmds IH]; [done|]. cbn. change (list_fmap _ _ ?f ?l) with (f <$> l). by rewrite IH. Qed.

(** The entries of the log from one index up to another. *)
Definition log_between (st : InternalStorage.t Backend Command.t) (from to : N) : list Command.t :=
  take (N.to_nat (to - from)) (drop (N.to_nat (from - Storage.v_base (view_of st)))
    (Storage.v_log (view_of st))).

Lemma returns_decided_suffix from (st : InternalStorage.t Backend Command.t) :
  coherent st → Storage.v_stopsign (view_of st) = None →
  Storage.v_base (view_of st) ≤ from → from < Storage.v_decided (view_of st) →
  returns (InternalStorage.read_decided_suffix from) st (λ r st', st' = st ∧
    r = Ok (Some (Decided <$> log_between st from (Storage.v_decided (view_of st))))).
Proof.
  intros Hcoh Hss Hb Hd. pose proof Hcoh as [Hc Hv].
  pose proof (decided_accepted _ Hv) as Hacc. pose proof (end_fits _ Hv) as Hfits.
  unfold log_end in *. rewrite Hss in *.
  unfold InternalStorage.read_decided_suffix, InternalStorage.get_decided_idx. wp.
  rewrite (cached_decided _ _ Hc). decide_cmp.
  destruct (returns_elim _ _ _ (read_in_bounds from (Storage.v_decided (view_of st)) st Hcoh
    ltac:(lia) ltac:(lia) ltac:(lia) ltac:(unfold log_end; rewrite Hss; lia)))
    as (r & st' & E & -> & Hr).
  eapply returns_intro; [exact E|]. cbv beta. split; [done|].
  destruct r as [o|e]; [|by apply memory_read_ok in E]. f_equal. rewrite (Hr o eq_refl).
  rewrite tagged_slice by lia. f_equal. rewrite slice_inside by lia. apply imap_decided.
  unfold log_between, len. rewrite length_take, length_drop. unfold Storage.v_end, len in Hacc. lia.
Qed.

(** C9.  Decided entries are executed exactly once.  When the decided index has moved on, a server
    with a coherent storage that still has the entries executes exactly those from its own index
    up to the decided one, in the order of the log, answers its clients, and remembers the decided
    index; when it has not, nothing happens.  The storage does not change, and nothing panics. *)
Theorem handle_decided_entries_executes_suffix s :
  let st := storage_of s in
  let decided := Storage.v_decided (view_of st) in
  let cmds := log_between st (current_decided_idx s) decided in
  coherent st → Storage.v_stopsign (view_of st) = None →
  Storage.v_base (view_of st) ≤ current_decided_idx s →
  returns handle_decided_entries s (λ _ s',
    if current_decided_idx s <? decided
    then current_decided_idx s' = decided ∧ storage_of s' = st ∧
         database s' = Database.execute_all (Command.kv_cmd <$> cmds) (database s) ∧
         ∀ c, client_outbox (network s') c =
              (λ l, l ++ responses (id s) c cmds (database s)) <$> client_outbox (network s) c
    else s' = s).
Proof.
  intros st decided cmds Hcoh Hss Hb. unfold handle_decided_entries. wp.
  apply returns_read_storage. unfold InternalStorage.get_decided_idx. wp.
  split; [done|]. fold st. rewrite (cached_decided _ _ (proj1 Hcoh)). fold decided.
  wp. destruct (N.ltb_spec (current_decided_idx s) decided) as [Hlt|Hge]; [|by wp].
  wp. apply read_suffix_call, returns_read_storage. eapply returns_mono.
  { by apply returns_decided_suffix. }
  cbv beta. intros r st' [-> ->]. split; [done|]. wp. fold st decided cmds.
  eapply returns_lift; [apply decided_commands_all|]. wp.
  eapply returns_mono; [apply respond_all|]. cbv beta.
  intros _ s' (Hdb & Hout & _ & Hom & Hcur & _). split_and!; [done| |done..].
  unfold storage_of. by rewrite Hom.
Qed.
End decided.
