(* ===== verification/ServerRuns.v ===== *)
(** * Runs of the servers, and the whole system

    The event loop of a server only makes calls of its replica, and hands every acknowledgement of
    the replica on to the proxy once ([serves_sound]).  Behind a proxy, servers in any of their runs
    are therefore the replicas that [System] asks for. *)

From S2P Require Import Prelude Util Ballots Config Time StorageApi MemoryStorage InternalStorage.
From S2P Require Import Messages Ble Collections Clock Buffers SequencePaxos Replica Acks OmniPaxos.
From S2P Require Import Kv Proxy System Network Server.

(** ** Computations that change nothing *)

Definition pure {S A} (m : M S A) : Prop := ∀ s, (m s).2 = s.

Section pure.
Context {S : Type}.
Lemma pure_bind {A B} (m : M S A) (k : A → M S B) : pure m → (∀ a, pure (k a)) → pure (bind m k).
Proof.
  intros Hm Hk s. unfold bind. specialize (Hm s). destruct (m s) as [[a|f] s1]; cbn in Hm; [|done].
  subst s1. apply Hk.
Qed.
Lemma pure_bind_ok {A B E} (m : M S (result A E)) (k : A → M S (result B E)) :
  pure m → (∀ a, pure (k a)) → pure (bind_ok m k).
Proof. intros Hm Hk. apply pure_bind; [done|]. intros [a|e]; [apply Hk|done]. Qed.
Lemma pure_expect {A E} (m : M S (result A E)) : pure m → pure (expect m).
Proof. intros Hm. apply pure_bind; [done|]. by intros [a|e]. Qed.
Lemma pure_zoom {T A} (proj : S → T) `{!Settable proj} (m : M T A) :
  (∀ s, upd proj (λ _, proj s) s = s) → pure m → pure (zoom proj m).
Proof.
  intros Hupd Hm s. unfold zoom. specialize (Hm (proj s)). destruct (m (proj s)) as [o t].
  cbn in *. by subst t.
Qed.
End pure.

Ltac pure :=
  repeat first [apply pure_bind_ok; [|intros ?] | apply pure_bind; [|intros ?] | apply pure_expect
    | apply pure_zoom; [by intros []|] | done | case_match].

Section memory.
Context {T Sn : Type} {H : Type} `{Build, Hasher H, Hash T, Snapshot T Sn}.
Lemma memory_suffix_pure from :
  pure (InternalStorage.read_decided_suffix (T := T) (Sn := Sn) (I := MemoryStorage.t T Sn) from).
Proof.
  unfold InternalStorage.read_decided_suffix, InternalStorage.read, InternalStorage.get_entry_type,
    InternalStorage.create_read_log_entries, InternalStorage.get_entries. pure.
Qed.
End memory.

(** ** Calls of the replica *)

Section replica.
Context {T Sn I : Type} `{Build, StorageApi.Request T, Snapshot T Sn, !Storage.t T Sn I,
  !Storage.Laws T Sn I, !HistoryHash T Sn I, BinaryHeap, Oneshot T, Oneshot unit}.
Import Replica.

Abbreviation Replica := (SequencePaxos.t (InternalStorage.t I T)
  (Buffers.t T (chan T) (chans T)) (Clock.t (chan unit) (chans unit)) (list (Message T))
  (task T (chan T) (chan unit))).
Abbreviation Op := (OmniPaxos.t Replica).
Implicit Types r : Replica.

(** From one state to another by calls, none of which takes acknowledgements. *)
Definition reach r r' : Prop :=
  inv r → len (log r) < isize_max →
  inv r' ∧ log r' = log r ∧ ∀ r0 out, Acks.sends r0 out r → Acks.sends r0 out r'.

Lemma reach_refl r : reach r r.
Proof. by intros. Qed.
Lemma reach_trans r1 r2 r3 : reach r1 r2 → reach r2 r3 → reach r1 r3.
Proof.
  intros H12 H23 Hi Hlen. destruct (H12 Hi Hlen) as (Hi2 & Hl2 & Hs2).
  destruct (H23 Hi2) as (Hi3 & Hl3 & Hs3); [by rewrite Hl2|]. split_and!; [done|congruence|auto].
Qed.

Definition calm {A} (m : M Replica A) : Prop := ∀ r a r', m r = (Val a, r') → reach r r'.
Definition calm_op {A} (m : M Op A) : Prop := ∀ o a o', m o = (Val a, o') →
  reach (OmniPaxos.seq_paxos o) (OmniPaxos.seq_paxos o').

Lemma calm_pure {A} (m : M Replica A) : pure m → calm m.
Proof. intros Hm r a r' E. specialize (Hm r). rewrite E in Hm. cbn in Hm. subst. apply reach_refl. Qed.
Lemma calm_step {A} (m : M Replica A) :
  keeps m → (∀ r a r', m r = (Val a, r') → step r r') → calm m.
Proof.
  intros Hk Hs r a r' E Hi Hlen. destruct (Hk r Hi) as [Hi' Hl']; [lia|]. rewrite E in *.
  split_and!; [done..|]. intros r0 out Ho. eapply Acks.sends_step; [done..|by eapply Hs].
Qed.

Lemma calm_op_bind {A B} (m : M Op A) (k : A → M Op B) :
  calm_op m → (∀ a, calm_op (k a)) → calm_op (bind m k).
Proof.
  intros Hm Hk o b o' E. apply bind_val_inv in E as (a & o1 & E1 & E2).
  eapply reach_trans; [by eapply Hm|by eapply Hk].
Qed.
Lemma calm_op_replica {A} (m : M Replica A) : calm m → calm_op (zoom OmniPaxos.seq_paxos m).
Proof.
  intros Hm o a o' E. unfold zoom in E. specialize (Hm (OmniPaxos.seq_paxos o)).
  destruct (m _) as [x r]. injection E as -> <-. by eapply Hm.
Qed.
Lemma calm_op_other {A} (m : M Op A) :
  (∀ o, OmniPaxos.seq_paxos (m o).2 = OmniPaxos.seq_paxos o) → calm_op m.
Proof. intros Hm o a o' E. specialize (Hm o). rewrite E in Hm. cbn in Hm. rewrite Hm. apply reach_refl. Qed.
Lemma calm_op_ble {A} (m : M Ble.t A) : calm_op (zoom OmniPaxos.ble m).
Proof. apply calm_op_other. intros o. unfold zoom. by destruct (m _). Qed.
Lemma calm_op_clock {A} (m : M LogicalClock.t A) : calm_op (zoom OmniPaxos.election_clock m).
Proof. apply calm_op_other. intros o. unfold zoom. by destruct (m _). Qed.

Lemma calm_get_promise : calm SequencePaxos.get_promise.
Proof. apply calm_pure. unfold SequencePaxos.get_promise. pure. Qed.
Lemma calm_handle_leader n : calm (SequencePaxos.handle_leader n).
Proof. apply calm_step; [apply handle_leader_keeps|]. intros r [] r' E. by eapply step_leader. Qed.

Ltac calm :=
  repeat first [apply calm_op_bind; [|intros ?] | apply calm_op_ble | apply calm_op_clock
    | apply calm_op_replica; first [apply calm_get_promise | apply calm_handle_leader]
    | by apply calm_op_other | case_match].

Lemma calm_append entry speculate : calm_op (OmniPaxos.append entry speculate).
Proof.
  apply calm_op_replica, calm_step; [apply append_keeps|]. intros r a r' E. by eapply step_append.
Qed.
Lemma calm_handle p : calm (SequencePaxos.handle p).
Proof. apply calm_step; [apply handle_keeps|]. intros r a r' E. by eapply step_handle. Qed.
Lemma calm_handle_incoming m : calm_op (OmniPaxos.handle_incoming m).
Proof.
  destruct m as [p|b]; cbn; [|calm]. apply calm_op_replica, calm_handle.
Qed.
Lemma calm_tick : calm_op OmniPaxos.tick.
Proof. unfold OmniPaxos.tick, OmniPaxos.election_timeout. calm. Qed.
Lemma calm_try_become_leader : calm_op OmniPaxos.try_become_leader.
Proof. unfold OmniPaxos.try_become_leader. calm. Qed.
Lemma calm_get_current_leader : calm_op OmniPaxos.get_current_leader.
Proof. unfold OmniPaxos.get_current_leader, OmniPaxos.get_promise. calm. Qed.
Lemma calm_take_outgoing buffer : calm_op (OmniPaxos.take_outgoing_messages buffer).
Proof.
  unfold OmniPaxos.take_outgoing_messages. apply calm_op_bind; [|intros ?; calm].
  apply calm_op_replica, calm_step; [apply take_keeps|]. intros r a r' E. by eapply step_take.
Qed.
End replica.

(** ** The handlers of a server *)

Create HintDb relays discriminated.

Section server.
Context {H : Type} `{Build, Hasher H, BinaryHeap, Oneshot Command.t, Oneshot unit}.
Import Server.

Abbreviation Backend := (MemoryStorage.t Command.t NoSnapshot).
Abbreviation Replica := (SequencePaxos.t (InternalStorage.t Backend Command.t)
  (Buffers.t Command.t (chan Command.t) (chans Command.t)) (Clock.t (chan unit) (chans unit))
  (list (Message Command.t)) (task Command.t (chan Command.t) (chan unit))).
Abbreviation Self := (Server.t (OmniPaxos.t Replica)).
Implicit Types s : Self.
Implicit Types l : loop.

Definition replica s : Replica := OmniPaxos.seq_paxos (omnipaxos s).
(** What was put on the connection to the proxy, as long as it is open. *)
Definition proxy_outbox s : option (list ServerMessage.t) := client_outbox (network s) 1.

(** From one state to another by a handler that takes the acknowledgements [r] of the replica and
    sends them to the proxy. *)
Record forwards (r : list (Message Command.t)) s s' : Prop := {
  fw_inv : Replica.inv (replica s');
  fw_log : Replica.log (replica s') = Replica.log (replica s);
  fw_sends r0 out : Acks.sends r0 out (replica s) → Acks.sends r0 (out ++ r) (replica s');
  fw_outbox ms' : proxy_outbox s' = Some ms' → ∃ ms, proxy_outbox s = Some ms ∧
    omap is_ack ms' = omap is_ack ms ++ omap server_ack r
}.
Definition sane s : Prop := Replica.inv (replica s) ∧ len (Replica.log (replica s)) < isize_max.
Definition relays {A} (m : M Self A) : Prop := ∀ s a s',
  m s = (Val a, s') → sane s → ∃ r, forwards r s s'.

Lemma forwards_trans r1 r2 s1 s2 s3 :
  forwards r1 s1 s2 → forwards r2 s2 s3 → forwards (r1 ++ r2) s1 s3.
Proof.
  intros [I1 L1 S1 O1] [I2 L2 S2 O2]. split; [done|congruence|..].
  - intros r0 out Hs. rewrite app_assoc. auto.
  - intros ms3 (ms2 & (ms1 & E1 & M1)%O1 & M2)%O2. exists ms1. split; [done|].
    by rewrite M2, M1, omap_app, app_assoc.
Qed.
Lemma forwards_sane r s s' : sane s → forwards r s s' → sane s'.
Proof. intros [Hi Hl] [I L _ _]. split; [done|by rewrite L]. Qed.

(** Nothing is taken, and what the proxy is sent is not an acknowledgement. *)
Lemma forwards_nothing s s' :
  sane s → reach (replica s) (replica s') →
  (∀ ms', proxy_outbox s' = Some ms' →
     ∃ ms, proxy_outbox s = Some ms ∧ omap is_ack ms' = omap is_ack ms) →
  forwards [] s s'.
Proof.
  intros [Hi Hl] Hr Ho. destruct (Hr Hi Hl) as (Hi' & Hlog & Hs). split; [done..| |].
  - intros r0 out Hout. rewrite app_nil_r. auto.
  - intros ms' (ms & E & M)%Ho. exists ms. split; [done|]. by rewrite M, app_nil_r.
Qed.
Lemma forwards_same s s' :
  sane s → reach (replica s) (replica s') → proxy_outbox s' = proxy_outbox s → forwards [] s s'.
Proof. intros Hs Hr Ho. apply forwards_nothing; [done..|]. rewrite Ho. eauto. Qed.

Lemma relays_bind {A B} (m : M Self A) (k : A → M Self B) :
  relays m → (∀ a, relays (k a)) → relays (bind m k).
Proof.
  intros Hm Hk s b s' (a & s1 & E1 & E2)%bind_val_inv Hs.
  destruct (Hm _ _ _ E1 Hs) as [r1 F1].
  destruct (Hk _ _ _ _ E2 (forwards_sane _ _ _ Hs F1)) as [r2 F2].
  eexists. by eapply forwards_trans.
Qed.
Lemma relays_mfor {A} (xs : list A) (body : A → M Self unit) :
  (∀ x, relays (body x)) → relays (mfor xs body).
Proof.
  intros Hb. induction xs as [|x xs IH]; cbn; [|by apply relays_bind].
  intros s a s' [= _ <-] Hs. exists []. by apply forwards_same.
Qed.
Lemma relays_frame {A} (m : M Self A) :
  (∀ s, replica (m s).2 = replica s ∧ proxy_outbox (m s).2 = proxy_outbox s) → relays m.
Proof.
  intros Hm s a s' E Hs. specialize (Hm s). rewrite E in Hm. cbn in Hm. destruct Hm as [Hr Ho].
  exists []. apply forwards_same; [done| |done]. rewrite Hr. apply reach_refl.
Qed.
Lemma relays_omnipaxos {A} (m : M (OmniPaxos.t Replica) A) : calm_op m → relays (zoom omnipaxos m).
Proof.
  intros Hm s a s' E Hs. exists []. unfold zoom in E. specialize (Hm (omnipaxos s)).
  destruct (m _) as [o op]. injection E as -> <-. apply forwards_same; [done|by eapply Hm|done].
Qed.
Lemma relays_replica {A} (m : M Replica A) : calm m → relays (seq_paxos_call m).
Proof. intros Hm. by apply relays_omnipaxos, calm_op_replica. Qed.
Lemma relays_handle_command c : relays (handle_command c).
Proof.
  apply relays_frame. intros s. unfold handle_command.
  by destruct (Database.handle_command c (database s)).
Qed.
Lemma to_cluster_clients to msg n :
  Network.client_connections (Network.send_to_cluster to msg n).2 = Network.client_connections n.
Proof.
  unfold Network.send_to_cluster, bind, gets, modify, ret, panic. by repeat case_match; simplify_eq/=.
Qed.
Lemma relays_to_cluster to msg : relays (send_to_cluster to msg).
Proof.
  apply relays_frame. intros s. unfold send_to_cluster, zoom.
  pose proof (to_cluster_clients to msg (network s)) as Hc.
  destruct (Network.send_to_cluster to msg (network s)) as [o n]. split; [done|].
  unfold proxy_outbox, client_outbox. cbn in *. by rewrite Hc.
Qed.
Lemma relays_to_client to msg : is_ack msg = None → relays (send_to_client to msg).
Proof.
  intros Hm s a s' E Hs. exists []. unfold send_to_client, zoom in E.
  pose proof (send_to_client_spec to msg (network s)) as Hsp. unfold returns in Hsp.
  destruct (Network.send_to_client to msg (network s)) as [o n]. injection E as -> <-.
  destruct Hsp as (_ & _ & Hout). apply forwards_nothing; [done|apply reach_refl|].
  unfold proxy_outbox. cbn. rewrite Hout. intros ms'. case_decide; [|eauto].
  intros (ms & Ems & ->)%fmap_Some. exists ms. split; [done|]. rewrite omap_app. cbn.
  by rewrite Hm, app_nil_r.
Qed.

#[local] Hint Resolve relays_handle_command relays_to_cluster : relays.
#[local] Hint Extern 0 (relays (send_to_client _ _)) => (by apply relays_to_client) : relays.
#[local] Hint Extern 0 (relays (zoom omnipaxos _)) => (apply relays_omnipaxos;
  first [apply calm_append | apply calm_handle_incoming | apply calm_tick | apply calm_take_outgoing
    | apply calm_try_become_leader | apply calm_get_current_leader]) : relays.

Ltac relays :=
  repeat first [solve [trivial with relays nocore] | apply relays_bind; [|intros ?]
    | apply relays_mfor; intros ? | by apply relays_frame | progress unfold when | case_match].

Lemma relays_execute executed : relays (execute executed).
Proof. unfold execute. relays. Qed.
#[local] Hint Resolve relays_execute : relays.

Lemma relays_decided : relays handle_decided_entries.
Proof.
  assert (Hread : ∀ from, relays (zoom omnipaxos (OmniPaxos.read_decided_suffix from))).
  { intros from. apply relays_omnipaxos. unfold OmniPaxos.read_decided_suffix, OmniPaxos.storage_call.
    apply calm_op_other. intros o. unfold expect, bind, zoom.
    pose proof (memory_suffix_pure from (SequencePaxos.internal_storage (OmniPaxos.seq_paxos o))) as Hp.
    destruct (InternalStorage.read_decided_suffix _ _) as [x st]. cbn in Hp. subst st.
    destruct o as [[] ? ?]. by destruct x as [[]|]. }
  unfold handle_decided_entries, update_database_and_respond. apply relays_bind.
  { apply relays_replica, calm_pure. unfold InternalStorage.get_decided_idx. pure. }
  intros d. apply relays_bind; [by apply relays_frame|intros self]. case_match; [|by apply relays_frame].
  apply relays_bind; [apply Hread|intros read]. unfold unwrap. relays.
Qed.

(** The body of the second loop of [send_outgoing_msgs]. *)
Definition forward_ack (m : Message Command.t) : M Self unit :=
  let* p := (match m with SequencePaxosMsg p => ret (msg p) | BLE _ => panic UnreachableCode end) in
  let* r := (match p with
             | Ack a b c d => ret (ServerMessage.Ack a b c d)
             | _ => panic UnreachableCode
             end) in
  send_to_client 1 r.

Lemma forward_acks msgs s u s' :
  mfor msgs forward_ack s = (Val u, s') →
  replica s' = replica s ∧ ∀ ms', proxy_outbox s' = Some ms' → ∃ ms, proxy_outbox s = Some ms ∧
    omap is_ack ms' = omap is_ack ms ++ omap server_ack msgs.
Proof.
  revert s. induction msgs as [|m msgs IH]; intros s E.
  { injection E as _ <-. split; [done|]. intros ms' E. exists ms'. by rewrite app_nil_r. }
  apply bind_val_inv in E as (v & s1 & E1 & E2). destruct (IH _ E2) as [Er Eo].
  destruct m as [[f t [req hash spec idx| | | |]]|]; try discriminate E1.
  change (send_to_client 1 (ServerMessage.Ack req hash spec idx) s = (Val v, s1)) in E1.
  unfold send_to_client, zoom in E1.
  pose proof (send_to_client_spec 1 (ServerMessage.Ack req hash spec idx) (network s)) as Hsp.
  unfold returns in Hsp. destruct (Network.send_to_client _ _ (network s)) as [o n].
  injection E1 as -> <-. destruct Hsp as (_ & _ & Hout). split; [done|].
  intros ms' (ms1 & E & M)%Eo. revert E. unfold proxy_outbox. cbn. rewrite Hout, decide_True by done.
  intros (ms & Ems & ->)%fmap_Some. exists ms. split; [done|].
  by rewrite M, omap_app, <-app_assoc.
Qed.

Lemma relays_acks :
  relays (let* msgs := zoom omnipaxos (OmniPaxos.take_client_outgoing_messages []) in
          mfor msgs forward_ack).
Proof.
  intros s u s' (r & s1 & E1 & E2)%bind_val_inv [Hi Hl]. exists r.
  destruct (forward_acks _ _ _ _ E2) as [Er Eo].
  unfold OmniPaxos.take_client_outgoing_messages, zoom in E1.
  pose proof (Replica.take_client_keeps [] (replica s) Hi ltac:(lia)) as [Hi1 Hl1].
  change (OmniPaxos.seq_paxos (omnipaxos s)) with (replica s) in E1.
  destruct (SequencePaxos.take_outgoing_client_msgs [] (replica s)) as [o r1] eqn:Et.
  injection E1 as -> <-. split; rewrite ?Er; [done..| |].
  - intros r0 out Hs. by eapply Acks.sends_take.
  - intros ms' (ms & E & M)%Eo. by exists ms.
Qed.

(** The end of [send_outgoing_msgs]. *)
Lemma forward_first s :
  (let* msgs := zoom omnipaxos (OmniPaxos.take_client_outgoing_messages []) in
   let* _ := mfor msgs forward_ack in modify (λ s, s <| omnipaxos_msg_buffer := [] |>)) s =
  (let* _ := (let* msgs := zoom omnipaxos (OmniPaxos.take_client_outgoing_messages []) in
              mfor msgs forward_ack) in modify (λ s, s <| omnipaxos_msg_buffer := [] |>)) s.
Proof. unfold bind at 1 3 4. by destruct (zoom omnipaxos _ s) as [[]]. Qed.

Lemma relays_outgoing : relays send_outgoing_msgs.
Proof.
  unfold send_outgoing_msgs. apply relays_bind; [by apply relays_frame|intros self].
  apply relays_bind; [relays|intros msgs]. apply relays_bind; [relays|intros _].
  intros s u s' E. rewrite forward_first in E. revert E.
  apply relays_bind; [apply relays_acks|intros _; by apply relays_frame].
Qed.

Lemma relays_append_to_log from id c : relays (append_to_log from id c).
Proof.
  unfold append_to_log. apply relays_bind; [by apply relays_frame|intros self].
  apply relays_bind.
  { apply relays_replica. intros r a r' E. unfold zoom in E.
    assert (Hp : pure (Clock.new_deadline : M (Clock.t (chan unit) (chans unit)) _)).
    { unfold Clock.new_deadline. pure. }
    specialize (Hp (SequencePaxos.clock r)). destruct (Clock.new_deadline _) as [o clk].
    cbn in Hp. subst clk. injection E as -> <-. destruct r. apply reach_refl. }
  intros deadline. apply relays_bind; [by apply relays_frame|intros next].
  apply relays_bind; [by apply relays_frame|intros _].
  apply relays_bind; [apply relays_replica, calm_pure; pure|intros state]. relays.
Qed.

Lemma relays_start_signals ts : relays (send_client_start_signals ts).
Proof. unfold send_client_start_signals. relays. Qed.
#[local] Hint Resolve relays_decided relays_outgoing relays_append_to_log relays_start_signals : relays.

Lemma relays_job j : relays (run_job j).
Proof.
  destruct j as [now_ms| |[m|ts]|from [id c|r idx]|];
    cbn [run_job handle_cluster_message handle_client_message];
    unfold leader_takeover, send_cluster_start_signals; relays.
  apply relays_replica, calm_handle.
Qed.

(** ** Runs *)

(** What has reached the connection to the proxy during a run: [sent]. *)
Inductive serves s0 : list ServerMessage.t → loop → Prop :=
  | serves_start : serves s0 (default [] (proxy_outbox s0)) (start s0)
  | serves_event sent l ev l' :
      serves s0 sent l → len (Replica.log (replica (server l))) < isize_max → exec ev l = Some l' →
      serves s0 (default sent (proxy_outbox (server l'))) l'.

(** The acknowledgements on the connection are those that the replica was asked for. *)
Definition faithful s0 (sent : list ServerMessage.t) l : Prop := ∃ out,
  Replica.inv (replica (server l)) ∧ Acks.sends (replica s0) out (replica (server l)) ∧
  omap is_ack sent `prefix_of` omap server_ack out ∧
  ∀ ms, proxy_outbox (server l) = Some ms → omap is_ack ms = omap server_ack out.

Lemma faithful_forwards s0 sent l r l' :
  faithful s0 sent l → forwards r (server l) (server l') →
  faithful s0 (default sent (proxy_outbox (server l'))) l'.
Proof.
  intros (out & Hi & Hs & Hpre & Ho) [I _ S O]. exists (out ++ r). split_and!; [done|auto|..].
  - destruct (proxy_outbox (server l')) as [ms'|] eqn:E; cbn.
    + destruct (O ms' eq_refl) as (ms & E1 & ->). by rewrite (Ho _ E1), omap_app.
    + rewrite omap_app. by apply prefix_app_r.
  - intros ms' (ms & E1 & ->)%O. by rewrite (Ho _ E1), omap_app.
Qed.
Lemma faithful_frame s0 sent l l' :
  faithful s0 sent l → server l' = server l → faithful s0 (default sent (proxy_outbox (server l'))) l'.
Proof.
  intros (out & Hi & Hs & Hpre & Ho) El. exists out. rewrite El. split_and!; try done.
  destruct (proxy_outbox (server l)) as [ms|] eqn:E; cbn; [|done]. by rewrite (Ho _ eq_refl).
Qed.

Lemma next_server l : server (next l) = server l.
Proof. unfold next. by destruct (jobs l). Qed.

Lemma faithful_exec s0 sent l ev l' :
  faithful s0 sent l → len (Replica.log (replica (server l))) < isize_max → exec ev l = Some l' →
  faithful s0 (default sent (proxy_outbox (server l'))) l'.
Proof.
  intros Hf Hlen. pose proof Hf as (out & Hi & Hs & Hpre & Ho).
  destruct ev as [b| |e i|c]; cbn.
  - destruct (jobs l); [|done]. destruct (enabled _ _ _); [|done]. intros [= <-].
    by apply (faithful_frame _ _ l).
  - destruct (jobs l) as [|j js]; [done|]. destruct (run_job j (server l)) as [[r|f] s] eqn:E; [|done].
    intros [= <-]. destruct (relays_job j _ _ _ E) as [ms F]; [by split|].
    eapply faithful_forwards; [done|]. rewrite next_server. exact F.
  - unfold run_task. destruct (SequencePaxos.schedule _ _ _) as [r|] eqn:E; [|done]. intros [= <-].
    assert (Hstep : Replica.step (replica (server l)) r) by by eapply Replica.step_task.
    exists out. split_and!.
    + by eapply (Replica.step_grows _ _ Hstep).
    + by eapply Acks.sends_step.
    + change (proxy_outbox (server _)) with (proxy_outbox (server l)).
      destruct (proxy_outbox (server l)) as [ms|] eqn:E1; cbn; [|done]. by rewrite (Ho _ eq_refl).
    + exact Ho.
  - intros [= <-]. eapply (faithful_forwards _ _ l []); [done|]. apply forwards_nothing; [by split|
      apply reach_refl|]. unfold proxy_outbox, client_outbox, drop_client. cbn. intros ms'.
    destruct (decide (c = 1)) as [->|Hc].
    + rewrite lookup_alter_eq. by destruct (Network.client_connections _ !! _).
    + rewrite lookup_alter_ne by done. eauto.
Qed.

Lemma serves_faithful s0 sent l :
  Replica.inv (replica s0) → (∀ ms, proxy_outbox s0 = Some ms → omap is_ack ms = []) →
  serves s0 sent l → faithful s0 sent l.
Proof.
  intros Hi Ho. induction 1 as [|sent l ev l' _ IH Hlen E]; [|by eapply faithful_exec].
  exists []. split_and!; [done|constructor| |done].
  destruct (proxy_outbox s0) as [ms|] eqn:E; cbn; [|done]. by rewrite (Ho _ eq_refl).
Qed.

(** ** Fresh servers *)

Definition fresh s : Prop := ∃ config env_clock clock_id clock_outgoing outgoing outgoing_clients now
    connections network,
  Network.initialize_connections (num_clients (local config)) connections
    (Network.unconnected (srv_server_id (local config)) (kv_nodes (cluster config))
       (node_addrs (cluster config))) = (Val true, network) ∧
  new config env_clock clock_id clock_outgoing outgoing outgoing_clients now network = Val s.

Lemma default_ok : view_ok (Storage.vw (MemoryStorage.default : Backend)).
Proof. repeat split; vm_compute; congruence. Qed.

(** The clock that a replica is made with is only kept. *)
Lemma with_clock config (storage : Backend) clk out outc (r : Replica) clk' :
  SequencePaxos.with_ config storage clk out outc = Val r →
  SequencePaxos.with_ config storage clk' out outc = Val (r <| SequencePaxos.clock := clk' |>).
Proof.
  unfold SequencePaxos.with_. destruct (iter_max_N _); [|done].
  destruct (expect Storage.get_promise storage).1 as [promise|]; [|done].
  destruct (match promise with Some b => _ | None => _ end) as [st leader].
  destruct (InternalStorage.with_ storage _) as [ist|]; [|done].
  unfold expect, bind, zoom. cbn. destruct (InternalStorage.set_promise leader ist) as [[[u|e]|f] i]; cbn;
    by intros [= <-].
Qed.

Lemma fresh_started s : fresh s → Acks.started (replica s).
Proof.
  intros (config & env & cid & co & out & outc & now & cs & net & _ & E). revert E. unfold new.
  set (clk := clock_from_config _ _ _ _ _). unfold OmniPaxos.build.
  destruct (OmniPaxosConfig.validate _).1 as [[[]|e]|]; [|done..].
  destruct (expect Storage.get_promise _).1 as [promise|]; [|done].
  destruct (Ble.with_ _ promise) as [ble|]; [|done].
  destruct (SequencePaxos.with_ _ _ _ _ _) as [r|] eqn:E; [|done]. intros [= <-].
  apply (with_clock _ _ _ _ _ _ (Clock.set_outgoing out (SequencePaxos.clock r)).2) in E.
  eexists (SequencePaxosConfig_from (into_omnipaxos_config config)), MemoryStorage.default, _, out, outc.
  split; [apply default_ok|]. by split_and!.
Qed.

Definition silent (n : Network.t) : Prop := ∀ c ms, client_outbox n c = Some ms → ms = [].
Lemma connect_silent k c n r n' : Network.connect k c n = (Val r, n') → silent n → silent n'.
Proof.
  intros E Hs. destruct c as [p|cl]; unfold Network.connect in E.
  - apply bind_val_inv in E as (u & n1 & E1 & E2). injection E2 as _ <-.
    apply bind_val_inv in E1 as (n2 & n3 & [= <- <-] & E1). unfold unwrap in E1.
    destruct (Network.cluster_id_to_idx p n) as [idx|]; [|done]. by injection E1 as _ <-.
  - injection E as _ <-. intros c ms. unfold client_outbox. cbn.
    destruct (decide (cl = c)) as [->|Hc].
    + rewrite lookup_insert_eq. by intros [= <-].
    + rewrite lookup_insert_ne by done. apply Hs.
Qed.
Lemma initialize_silent k cs n r n' :
  Network.initialize_connections k cs n = (Val r, n') → silent n → silent n'.
Proof.
  revert n. induction cs as [|c cs IH]; intros n; cbn; [by intros [= _ <-]|].
  intros (all & n1 & E1 & E2)%bind_val_inv Hs. apply (connect_silent _ _ _ _ _ E1) in Hs.
  destruct all; [by injection E2 as _ <-|by apply (IH n1)].
Qed.
(** Nothing is executed, and nobody has been sent anything. *)
Lemma fresh_quiet s : fresh s → current_decided_idx s = 0 ∧ silent (network s).
Proof.
  intros (config & env & cid & co & out & outc & now & cs & net & Ei & E). revert E. unfold new.
  destruct (OmniPaxos.build _ _ _ _ _) as [[op|]|]; [|done..]. intros [= <-].
  split; [done|]. cbn. eapply initialize_silent; [exact Ei|].
  intros c ms'. unfold client_outbox. cbn. by rewrite lookup_empty.
Qed.

Lemma fresh_database s : fresh s → database s = Database.new.
Proof.
  intros (config & env & cid & co & out & outc & now & cs & net & _ & E). revert E. unfold new.
  by destruct (OmniPaxos.build _ _ _ _ _) as [[op|]|]; [intros [= <-]|..].
Qed.

(** A server relays the acknowledgements of its replica, each once and in order. *)
Lemma serves_sound s0 sent l : fresh s0 → serves s0 sent l → ∃ out,
  Acks.sends (replica s0) out (replica (server l)) ∧
  omap is_ack sent `prefix_of` omap server_ack out.
Proof.
  intros Hf Hs. destruct (Acks.started_inv _ (fresh_started _ Hf)) as [Hi _].
  destruct (serves_faithful s0 sent l Hi) as (out & _ & ? & ? & _); [|done|by exists out].
  intros ms E. by rewrite (proj2 (fresh_quiet _ Hf) _ _ E).
Qed.
End server.

(** ** The whole system *)

Section store.
Context {H : Type} `{Build, KeysIter, Hasher H, BinaryHeap, Oneshot Command.t, Oneshot unit}.
Import Proxy.

Abbreviation Backend := (MemoryStorage.t Command.t NoSnapshot).

(** The servers behind a proxy, and what of their acknowledgements has reached it. *)
Record deployed (n : N) (tr : list label) (final : N → Server.loop) : Prop := {
  dp_runs k : k < n → ∃ s0 sent, fresh s0 ∧ serves s0 sent (final k) ∧
    omap is_ack (omap (read_by k) tr) ⊆+ omap is_ack sent;
  dp_hash k k' x y : k < n → k' < n →
    x `prefix_of` Replica.log (replica (Server.server (final k))) →
    y `prefix_of` Replica.log (replica (Server.server (final k'))) →
    log_hash (Sn := NoSnapshot) (I := Backend) x = log_hash (Sn := NoSnapshot) (I := Backend) y →
    hashed_part <$> x = hashed_part <$> y
}.

Lemma deployed_behind n tr final :
  deployed n tr final → behind n tr (λ k, replica (Server.server (final k))).
Proof.
  intros [Hr Hh]. split; [|exact Hh]. intros k (s0 & sent & Hf & Hs & Hread)%Hr.
  destruct (serves_sound _ _ _ Hf Hs) as (out & Hsends & Hpre).
  exists (replica s0), out. split_and!; [by apply fresh_started|done|].
  etrans; [exact Hread|]. destruct Hpre as [rest ->].
  by apply submseteq_inserts_r.
Qed.

(** C1.  One history.  Take servers in any of their runs behind a proxy in any of its runs, over
    connections that may lose and reorder acknowledgements, with less than half of the servers
    allowed to fail.  Then there is one sequence of commands that everything the proxy has ever
    confirmed, to a server or in a reply to a client, is about: the confirmed command is at the acknowledged position of this history, and
    as many servers as the quorum asks for have the history up to there at the start of their
    logs.  This holds as far as the history hash has no collisions among the prefixes of the logs. *)
Theorem confirmations_share_one_history cfg p0 tr p final :
  len (nodes cfg) < usize_mod → 2 * fault_tolerance cfg < len (nodes cfg) →
  new cfg = Val p0 → run p0 tr p → deployed (len (nodes cfg)) tr final →
  ∃ history : list (CommandId * KVCommand.t), ∀ l i a, l ∈ tr → settles l i a →
    1 ≤ ack_idx a ∧ history !! N.to_nat (ack_idx a - 1) = Some (hashed_part (ack_cmd a)) ∧
    ∃ Q : gset N, len (nodes cfg) - fault_tolerance cfg ≤ N.of_nat (size Q) ∧
      ∀ k, k ∈ Q → k < len (nodes cfg) ∧ take (N.to_nat (ack_idx a)) history `prefix_of`
        hashed_part <$> Replica.log (replica (Server.server (final k))).
Proof.
  intros Hn Hf Hnew Hr Hd.
  destruct (confirmed_history _ _ _ _ _ Hn Hnew Hr (deployed_behind _ _ _ Hd) Hf) as [h Hh].
  exists h. intros l i a Hin Hset. destruct (Hh l Hin i a Hset) as (Hb & Hi & Hl). by split_and!.
Qed.
End store.
