(* ===== verification/Answers.v ===== *)
(** * What the clients of a server are told

    Over every run of a server, the commands that it has answered are the decided prefix of its log,
    each once and in the order of the log ([clients_are_answered_in_log_order]), whatever order the
    confirmations arrive in and whatever the replica has executed ahead of them.  What has been
    executed ahead is visible in the answers to reads: the runs carry the sequence of all
    executions, and a read returns the last write before it in this sequence
    ([reads_return_the_last_write]). *)

From S2P Require Import Prelude Util Ballots Config Time StorageApi MemoryStorage InternalStorage.
From S2P Require Import Messages Ble Collections Clock Buffers SequencePaxos Replica OmniPaxos.
From S2P Require Import Acks Kv Network Server ServerRuns.

(** ** Reading the decided suffix *)

Section suffix.
Context {H : Type} `{Build, Hasher H}.
Abbreviation Backend := (MemoryStorage.t Command.t NoSnapshot).
Import Server.
Implicit Types st : InternalStorage.t Backend Command.t.

Lemma decided_commands_app es es' cmds :
  decided_commands (es ++ es') = Val cmds → ∃ cmds', decided_commands es' = Val cmds'.
Proof.
  revert cmds. induction es as [|e es IH]; intros cmds; cbn; [by eexists|].
  destruct e; try done. destruct (decided_commands (es ++ es')) as [c|] eqn:E; [|done].
  intros _. by apply (IH c).
Qed.

Lemma bind_ok_val_inv {S A B E} (m : M S (result A E)) (k : A → M S (result B E)) s b s' :
  bind_ok m k s = (Val (Ok b), s') →
  ∃ a s1, m s = (Val (Ok a), s1) ∧ k a s1 = (Val (Ok b), s').
Proof. intros ([a|e] & s1 & E1 & E2)%bind_val_inv; [by exists a, s1|done]. Qed.

(** Entries and stopsigns are below the accepted index. *)
Lemma entry_type_val idx compacted accepted st ty st' :
  InternalStorage.get_entry_type idx compacted accepted st = (Val (Ok (Some ty)), st') →
  idx + 1 < usize_mod →
  st' = st ∧ (ty = IdxCompacted ∨ idx + 1 ≤ accepted).
Proof.
  unfold InternalStorage.get_entry_type. intros E Hfit.
  destruct (idx <? compacted); [injection E as <- <-; by split; [|left]|].
  apply bind_val_inv in E as (next & s1 & En & E). unfold lift in En.
  rewrite wadd_exact in En by done. injection En as <- <-.
  destruct (N.ltb_spec (idx + 1) accepted); [injection E as _ <-; split; [done|right; lia]|].
  destruct (N.eqb_spec (idx + 1) accepted); [|done].
  apply bind_val_inv in E as (ss & s1 & [= <- <-] & E).
  split; [by destruct (StateCache.stopsign _); injection E|right; lia].
Qed.

(** A read that returns decided entries has found all of them in the log. *)
Lemma read_val from to st es st' cmds :
  Replica.log_ok st → StateCache.decided_idx (InternalStorage.state_cache st) = to →
  from < to → to < usize_mod →
  InternalStorage.read (Included from) (Excluded to) st = (Val (Ok (Some es)), st') →
  decided_commands es = Val cmds →
  to ≤ len (Storage.v_log (view_of st)) ∧ cmds = log_between st from to.
Proof.
  intros Hok Hd Hlt Hfit E Hc. unfold InternalStorage.read in E.
  apply bind_val_inv in E as (i & s1 & [= <- <-] & E).
  apply bind_val_inv in E as (j & s1 & [= <- <-] & E).
  rewrite (proj2 (N.eqb_neq to 0)) in E by lia.
  apply bind_val_inv in E as (compacted & s1 & [= <- <-] & E).
  apply bind_val_inv in E as (accepted & s1 & [= <- <-] & E).
  apply bind_ok_val_inv in E as ([to_type|] & s1 & E1 & E); [|done].
  apply entry_type_val in E1 as [-> Hto]; [|lia].
  apply bind_ok_val_inv in E as ([from_type|] & s1 & E2 & E); [|done].
  apply entry_type_val in E2 as [-> _]; [|lia].
  rewrite (Replica.lo_accepted _ Hok) in Hto. unfold log_end, Storage.v_end in Hto.
  rewrite (Replica.lo_stop _ Hok), (Replica.lo_base _ Hok) in Hto.
  destruct from_type as [| |ss], to_type as [| |ss']; try done.
  - destruct Hto as [|Hto]; [done|]. apply bind_ok_val_inv in E as (entries & s1 & E3 & [= -> ->]).
    apply bind_val_inv in E3 as (d & s2 & [= <- <-] & E3).
    apply bind_ok_val_inv in E3 as (entries & s2 & E4 & [= <- <-]).
    pose proof (returns_get_entries from to st (λ r _, ∀ a, r = Ok a → a = Storage.slice (view_of st) from to))
      as Hg. rewrite (Replica.lo_base _ Hok) in Hg. specialize (Hg ltac:(lia) ltac:(lia) (λ r Hr, Hr)).
    unfold InternalStorage.get_entries in E4. unfold returns in Hg. rewrite E4 in Hg.
    rewrite (Hg _ eq_refl) in Hc. rewrite slice_inside in Hc by
      (rewrite ?(Replica.lo_base _ Hok); unfold Storage.v_end; rewrite ?(Replica.lo_base _ Hok); lia).
    fold (log_between st from to) in Hc. rewrite Hd, imap_decided in Hc.
    + rewrite decided_commands_all in Hc. injection Hc as <-. split; [lia|done].
    + unfold log_between, len in *. rewrite length_take, length_drop. lia.
  - apply bind_ok_val_inv in E as (entries & s1 & _ & E).
    apply bind_val_inv in E as (d & s2 & _ & [= <- <-]). by apply decided_commands_app in Hc as [? ?].
  - apply bind_val_inv in E as (d & s2 & _ & [= <- <-]). done.
Qed.
End suffix.

(** ** Sequences of executions *)

(** A command is executed ahead of the log, when it arrives or is confirmed, or as a decided entry. *)
Inductive execution : Type := Ahead (c : KVCommand.t) | Decision (cmd : Command.t).
Definition kv_of (e : execution) : KVCommand.t :=
  match e with Ahead c => c | Decision cmd => Command.kv_cmd cmd end.
Definition decision (e : execution) : option Command.t :=
  match e with Ahead _ => None | Decision cmd => Some cmd end.
Definition writes (key : string) (c : KVCommand.t) : bool := bool_decide (is_Some (last_write key [c])).

Definition own (me : NodeId) (c : ClientId) (cmd : Command.t) : bool :=
  (Command.coordinator_id cmd =? me) && (Command.client_id cmd =? c).

(** The answer to a decided command after the commands [before] have been executed. *)
Definition answer_to (cmd : Command.t) (before : list KVCommand.t) : ServerMessage.t :=
  match Command.kv_cmd cmd with
  | KVCommand.Get key => ServerMessage.Read (Command.id cmd) (default None (last_write key before))
  | _ => ServerMessage.Write (Command.id cmd)
  end.
(** What client [c] of server [me] is told: decided commands are answered, other executions not. *)
Fixpoint told (me : NodeId) (c : ClientId) (before : list KVCommand.t) (tr : list execution) :
    list ServerMessage.t :=
  match tr with
  | [] => []
  | e :: tr' =>
      (match e with
       | Decision cmd => if own me c cmd then [answer_to cmd before] else []
       | Ahead _ => []
       end) ++ told me c (before ++ [kv_of e]) tr'
  end.

(** Whenever a decided command reads a key, each write of this key that was executed ahead has been
    followed by a decided one. *)
Definition settled (tr : list execution) : Prop :=
  ∀ cmd key before after,
    tr = before ++ Decision cmd :: after → Command.kv_cmd cmd = KVCommand.Get key →
    ∀ b1 a b2, before = b1 ++ Ahead a :: b2 → writes key a →
      ∃ d, Decision d ∈ b2 ∧ writes key (Command.kv_cmd d).

Lemma told_app me c before tr tr' :
  told me c before (tr ++ tr') = told me c before tr ++ told me c (before ++ (kv_of <$> tr)) tr'.
Proof.
  revert before. induction tr as [|e tr IH]; intros before; cbn; [by rewrite app_nil_r|].
  by rewrite IH, <-!app_assoc.
Qed.
Lemma told_ahead me c before cs : told me c before (Ahead <$> cs) = [].
Proof. revert before. induction cs as [|k cs IH]; intros before; [done|]. apply IH. Qed.
Lemma decision_ahead (cs : list KVCommand.t) : omap decision (Ahead <$> cs) = [].
Proof. by induction cs. Qed.
Lemma decision_decided (cmds : list Command.t) : omap decision (Decision <$> cmds) = cmds.
Proof. induction cmds as [|cmd cmds IH]; [done|]. cbn. by rewrite IH. Qed.
Lemma kv_of_ahead (cs : list KVCommand.t) : kv_of <$> (Ahead <$> cs) = cs.
Proof. induction cs as [|k cs IH]; [done|]. cbn. by rewrite IH. Qed.
Lemma kv_of_decided (cmds : list Command.t) : kv_of <$> (Decision <$> cmds) = Command.kv_cmd <$> cmds.
Proof. induction cmds as [|cmd cmds IH]; [done|]. cbn. by rewrite IH. Qed.

(** The identifiers in the answers are those of the decided commands. *)
Definition answer_id (m : ServerMessage.t) : option CommandId :=
  match m with
  | ServerMessage.Write id | ServerMessage.Read id _ => Some id
  | _ => None
  end.
Lemma answer_to_id cmd before : answer_id (answer_to cmd before) = Some (Command.id cmd).
Proof. unfold answer_to. by destruct (Command.kv_cmd cmd). Qed.
Lemma told_ids me c before tr :
  omap answer_id (told me c before tr) = Command.id <$> filter (own me c) (omap decision tr).
Proof.
  revert before. induction tr as [|[k|cmd] tr IH]; intros before; cbn; [done|apply IH|].
  rewrite omap_app, IH. destruct (own me c cmd); cbn; [|done]. by rewrite answer_to_id.
Qed.

(** What the handler of decided entries answers is what the sequence tells. *)
Lemma responses_told me c cmds before :
  responses me c cmds (Database.execute_all before Database.new) =
  told me c before (Decision <$> cmds).
Proof.
  revert before. induction cmds as [|cmd cmds IH]; intros before; [done|]. cbn [responses fmap list_fmap told].
  rewrite <-(IH (before ++ _)), execute_all_app. cbn [kv_of Database.execute_all foldl].
  rewrite (surjective_pairing (Database.handle_command _ _)). unfold own. f_equal.
  case_match; [|done]. unfold answer_to, response_to.
  destruct (Command.kv_cmd cmd) as [| |key]; [done..|]. by rewrite database_reads_last_write.
Qed.

(** Writes that were executed ahead and have been decided since are not visible. *)
Lemma last_write_settled key before :
  (∀ b1 a b2, before = b1 ++ Ahead a :: b2 → writes key a →
     ∃ d, Decision d ∈ b2 ∧ writes key (Command.kv_cmd d)) →
  last_write key (kv_of <$> before) = last_write key (Command.kv_cmd <$> omap decision before).
Proof.
  induction before as [|e before IH]; intros Hset; [done|].
  assert (Htail : last_write key (kv_of <$> before) =
    last_write key (Command.kv_cmd <$> omap decision before)).
  { apply IH. intros b1 a b2 ->. apply (Hset (e :: b1)). done. }
  destruct e as [a|cmd].
  - change (last_write key ([a] ++ (kv_of <$> before)) =
      last_write key (Command.kv_cmd <$> omap decision before)).
    rewrite last_write_app, Htail. destruct (last_write key (_ <$> omap _ _)) eqn:E; [done|].
    destruct (last_write key [a]) eqn:Ea; [|done].
    destruct (Hset [] a before) as (d & Hd & Hw%bool_decide_unpack); [done|apply bool_decide_pack; by rewrite Ea|].
    apply (last_write_elem key _ (Command.kv_cmd <$> omap decision before)) in Hw as [w Ew];
      [congruence|]. apply list_elem_of_fmap. exists d. split; [done|].
    apply list_elem_of_omap. by exists (Decision d).
  - change (last_write key ([Command.kv_cmd cmd] ++ (kv_of <$> before)) =
      last_write key ([Command.kv_cmd cmd] ++ (Command.kv_cmd <$> omap decision before))).
    by rewrite !last_write_app, Htail.
Qed.

Lemma settled_before tr tr' : settled (tr ++ tr') → settled tr.
Proof.
  intros Hset cmd key before after ->. apply (Hset cmd key before (after ++ tr')).
  by rewrite <-app_assoc.
Qed.
Lemma told_settled me c tr :
  settled tr → told me c [] tr = told me c [] (Decision <$> omap decision tr).
Proof.
  induction tr as [|e tr IH] using rev_ind; intros Hset; [done|].
  rewrite told_app, omap_app, fmap_app, told_app, (IH (settled_before _ _ Hset)). f_equal. cbn [app].
  destruct e as [a|cmd]; [done|]. cbn. destruct (own me c cmd); [|done]. do 2 f_equal.
  rewrite kv_of_decided. unfold answer_to. destruct (Command.kv_cmd cmd) as [| |key] eqn:Ecmd; [done..|].
  rewrite (last_write_settled key tr); [done|]. by eapply Hset.
Qed.

(** ** Computations that answer nobody *)

Create HintDb silence discriminated.

Section answers.
Context {H : Type} `{Build, Hasher H, BinaryHeap, Oneshot Command.t, Oneshot unit}.
Import Server.

Abbreviation Backend := (MemoryStorage.t Command.t NoSnapshot).
Abbreviation Replica := (SequencePaxos.t (InternalStorage.t Backend Command.t)
  (Buffers.t Command.t (chan Command.t) (chans Command.t)) (Clock.t (chan unit) (chans unit))
  (list (Message Command.t)) (task Command.t (chan Command.t) (chan unit))).
Abbreviation Self := (Server.t (OmniPaxos.t Replica)).
Implicit Types s : Self.
Implicit Types l : loop.

Definition answer (m : ServerMessage.t) : option ServerMessage.t :=
  match m with ServerMessage.Write _ | ServerMessage.Read _ _ => Some m | _ => None end.
Lemma answer_ids (ms : list ServerMessage.t) : omap answer_id ms = omap answer_id (omap answer ms).
Proof. induction ms as [|[] ms IH]; cbn; by rewrite ?IH. Qed.

(** The commands [cs] are executed and nobody is answered; connections may close. *)
Record hushed (cs : list KVCommand.t) s s' : Prop := {
  hu_id : id s' = id s;
  hu_cur : current_decided_idx s' = current_decided_idx s;
  hu_database : database s' = Database.execute_all cs (database s);
  hu_out c ms' : client_outbox (network s') c = Some ms' → ∃ ms,
    client_outbox (network s) c = Some ms ∧ omap answer ms' = omap answer ms
}.
Definition hush {A} (m : M Self A) : Prop := ∀ s a s', m s = (Val a, s') → hushed [] s s'.

Lemma hushed_trans cs1 cs2 s1 s2 s3 :
  hushed cs1 s1 s2 → hushed cs2 s2 s3 → hushed (cs1 ++ cs2) s1 s3.
Proof.
  intros [I1 C1 D1 O1] [I2 C2 D2 O2]. split; [congruence..| |].
  - by rewrite D2, D1, execute_all_app.
  - intros c ms3 (ms2 & (ms1 & E1 & M1)%O1 & M2)%O2. exists ms1. split; [done|congruence].
Qed.
Lemma hushed_same s s' :
  id s' = id s → current_decided_idx s' = current_decided_idx s → database s' = database s →
  network s' = network s → hushed [] s s'.
Proof. intros Ei Ec Ed En. split; [done..|]. rewrite En. eauto. Qed.

Lemma hush_bind {A B} (m : M Self A) (k : A → M Self B) :
  hush m → (∀ a, hush (k a)) → hush (bind m k).
Proof.
  intros Hm Hk s b s' (a & s1 & E1 & E2)%bind_val_inv.
  apply (hushed_trans [] [] _ s1); [by eapply Hm|by eapply Hk].
Qed.
Lemma hush_mfor {A} (xs : list A) (body : A → M Self unit) :
  (∀ x, hush (body x)) → hush (mfor xs body).
Proof.
  intros Hb. induction xs as [|x xs IH]; cbn; [|by apply hush_bind].
  intros s a s' [= _ <-]. by apply hushed_same.
Qed.
Lemma hush_frame {A} (m : M Self A) :
  (∀ s, id (m s).2 = id s ∧ current_decided_idx (m s).2 = current_decided_idx s ∧
        database (m s).2 = database s ∧ network (m s).2 = network s) → hush m.
Proof.
  intros Hm s a s' E. specialize (Hm s). rewrite E in Hm. destruct Hm as (? & ? & ? & ?).
  by apply hushed_same.
Qed.
Lemma hush_omnipaxos {A} (m : M _ A) : hush (zoom omnipaxos m).
Proof. apply hush_frame. intros s. unfold zoom. by destruct (m _). Qed.
Lemma hushed_command c s a s' : handle_command c s = (Val a, s') → hushed [c] s s'.
Proof.
  unfold handle_command. rewrite (surjective_pairing (Database.handle_command c _)).
  intros [= _ <-]. split; [done..|]. cbn. eauto.
Qed.
Lemma hush_to_cluster to msg : hush (send_to_cluster to msg).
Proof.
  intros s a s' E. unfold send_to_cluster, zoom in E.
  pose proof (to_cluster_clients to msg (network s)) as Hc.
  destruct (Network.send_to_cluster to msg (network s)) as [o n]. injection E as -> <-.
  split; [done..|]. unfold client_outbox. cbn in *. rewrite Hc. eauto.
Qed.
Lemma hush_to_client to msg : answer msg = None → hush (send_to_client to msg).
Proof.
  intros Hm s a s' E. unfold send_to_client, zoom in E.
  pose proof (send_to_client_spec to msg (network s)) as Hsp. unfold returns in Hsp.
  destruct (Network.send_to_client to msg (network s)) as [o n]. injection E as -> <-.
  destruct Hsp as (_ & _ & Hout). split; [done..|]. cbn. intros c ms'. rewrite Hout.
  case_decide; [|eauto]. intros (ms & Ems & ->)%fmap_Some. exists ms. split; [done|].
  rewrite omap_app. cbn. by rewrite Hm, app_nil_r.
Qed.

#[local] Hint Resolve hush_omnipaxos hush_to_cluster : silence.
#[local] Hint Extern 0 (hush (seq_paxos_call _)) => apply hush_omnipaxos : silence.
#[local] Hint Extern 0 (hush (send_to_client _ _)) => (by apply hush_to_client) : silence.
Ltac hush :=
  repeat first [solve [trivial with silence nocore] | apply hush_bind; [|intros ?]
    | apply hush_mfor; intros ? | by apply hush_frame | progress unfold when | case_match].

Lemma hush_forward m : hush (forward_ack m).
Proof.
  destruct m as [[f t [req hash spec idx| | | |]]|]; try by intros s a s' E.
  change (hush (send_to_client 1 (ServerMessage.Ack req hash spec idx))). hush.
Qed.
Lemma hush_outgoing : hush send_outgoing_msgs.
Proof.
  unfold send_outgoing_msgs. apply hush_bind; [hush|intros self]. apply hush_bind; [hush|intros msgs].
  apply hush_bind; [hush|intros _]. apply hush_bind; [hush|intros acks].
  apply hush_bind; [|intros _; hush]. apply hush_mfor. exact hush_forward.
Qed.
Lemma hush_start_signals ts : hush (send_client_start_signals ts).
Proof. unfold send_client_start_signals. hush. Qed.
#[local] Hint Resolve hush_outgoing hush_start_signals : silence.

(** ** Executions ahead of the log *)

Definition role s : Role := (SequencePaxos.get_state (replica s)).1.
(** A leader executes what it is asked to append, a follower what is confirmed. *)
Definition on_arrival s (c : KVCommand.t) : list KVCommand.t := if decide (role s = Leader) then [c] else [].
Definition on_confirmation s (cmd : Command.t) : list KVCommand.t :=
  if decide (role s = Follower) then [Command.kv_cmd cmd] else [].
Definition confirmed (p : PaxosMsg Command.t) s : list KVCommand.t :=
  match p with Confirm cmd _ => on_confirmation s cmd | _ => [] end.
Definition ahead (j : job) s : list KVCommand.t :=
  match j with
  | FromClient _ (ClientMessage.Append _ c) => on_arrival s c
  | FromClient _ (ClientMessage.Ack cmd _) => on_confirmation s cmd
  | FromCluster (ClusterMessage.OmniPaxosMessage (SequencePaxosMsg p)) => confirmed (msg p) s
  | _ => []
  end.

Definition kv_list (executed : option Command.t) : list KVCommand.t :=
  option_list (Command.kv_cmd <$> executed).
Lemma handle_executes p s e r :
  SequencePaxos.handle p (replica s) = (Val e, r) → kv_list e = confirmed (msg p) s.
Proof.
  unfold confirmed, on_confirmation, role, SequencePaxos.get_state.
  destruct p as [f t [| | | |]]; cbn; intros [= <- _]; [done| |done..].
  by destruct (SequencePaxos.state (replica s)) as [[] ?].
Qed.
Lemma hushed_execute executed s u s' :
  execute executed s = (Val u, s') →
  hushed (kv_list executed) s s'.
Proof.
  destruct executed as [e|]; [|by intros [= _ <-]; apply hushed_same]. unfold execute.
  intros (a & s1 & E & [= _ <-])%bind_val_inv. by eapply hushed_command.
Qed.
Lemma hushed_handle p s e s1 u s' :
  seq_paxos_call (SequencePaxos.handle p) s = (Val e, s1) → execute e s1 = (Val u, s') →
  hushed (confirmed (msg p) s) s s'.
Proof.
  intros E E1. replace (confirmed (msg p) s) with ([] ++ kv_list e).
  { eapply hushed_trans; [by eapply hush_omnipaxos|by eapply hushed_execute]. }
  revert E. unfold seq_paxos_call, zoom. fold (replica s).
  destruct (SequencePaxos.handle p (replica s)) as [o r] eqn:E. intros [= -> _].
  by eapply handle_executes.
Qed.
Lemma hushed_incoming m s e s1 u s' :
  zoom omnipaxos (OmniPaxos.handle_incoming m) s = (Val e, s1) → execute e s1 = (Val u, s') →
  hushed (ahead (FromCluster (ClusterMessage.OmniPaxosMessage m)) s) s s'.
Proof.
  destruct m as [p|b]; [apply hushed_handle|]. intros E E1. apply (hushed_trans [] [] _ s1).
  - by eapply hush_omnipaxos.
  - revert E. unfold zoom. cbn [OmniPaxos.handle_incoming]. unfold bind, zoom.
    destruct (Ble.handle b _) as [[]]; intros [= <- _]. by eapply hushed_execute in E1.
Qed.
Lemma hushed_append from id c s u s' :
  append_to_log from id c s = (Val u, s') → hushed (on_arrival s c) s s'.
Proof.
  unfold append_to_log. intros (self & s0 & [= <- <-] & E)%bind_val_inv.
  apply bind_val_inv in E as (deadline & s1 & E1 & E). apply bind_val_inv in E as (next & s2 & E2 & E).
  apply bind_val_inv in E as (v & s3 & [= _ <-] & E). apply bind_val_inv in E as (st & s4 & [= <- <-] & E).
  apply bind_val_inv in E as ([r|err] & s5 & E5 & E); [|done].
  unfold lift in E2. injection E2 as _ <-.
  assert (Hrole : (SequencePaxos.get_state (replica s1)).1 = role s).
  { revert E1. unfold seq_paxos_call, zoom. destruct (Clock.new_deadline _). by intros [= _ <-]. }
  apply (hushed_trans [] _ _ s5); [apply (hushed_trans [] [] _ s1); [by eapply hush_omnipaxos|]|].
  { eapply (hushed_trans [] [] _ _); [|by eapply hush_omnipaxos]. by apply hushed_same. }
  revert E. fold (replica s1). rewrite Hrole. unfold when, on_arrival.
  case_bool_decide; case_decide; [|done..|].
  - intros (a & s6 & E & [= _ <-])%bind_val_inv. by eapply hushed_command.
  - intros [= _ <-]. by apply hushed_same.
Qed.

(** ** The answers of a server *)

(** The decided commands that the server has executed. *)
Definition executed s : list Command.t :=
  take (N.to_nat (current_decided_idx s)) (Replica.log (replica s)).

(** The executions [tr] have led to the database, and to the answers on the open connections. *)
Record answered (tr : list execution) s : Prop := {
  an_bound : current_decided_idx s ≤ len (Replica.log (replica s));
  an_database : database s = Database.execute_all (kv_of <$> tr) Database.new;
  an_decided : omap decision tr = executed s;
  an_told c ms : client_outbox (network s) c = Some ms → omap answer ms = told (id s) c [] tr
}.

Lemma answered_nothing tr s : answered tr s → answered (tr ++ []) s.
Proof. by rewrite app_nil_r. Qed.
Lemma told_answers me c before tr : omap answer (told me c before tr) = told me c before tr.
Proof.
  revert before. induction tr as [|[k|cmd] tr IH]; intros before; [done|apply IH|].
  cbn [told]. rewrite omap_app, IH. f_equal. destruct (own me c cmd); [|done].
  unfold answer_to. by destruct (Command.kv_cmd cmd).
Qed.

(** The log may grow. *)
Lemma answered_hushed tr cs s s' :
  answered tr s → hushed cs s s' → Replica.log (replica s) `prefix_of` Replica.log (replica s') →
  answered (tr ++ (Ahead <$> cs)) s'.
Proof.
  intros [Hle Hd Hdec Ha] [Ei Ec Edb Ho] [k El]. split.
  - rewrite Ec, El, len_app. lia.
  - by rewrite Edb, Hd, fmap_app, execute_all_app, kv_of_ahead.
  - rewrite omap_app, decision_ahead, app_nil_r, Hdec. unfold executed. rewrite Ec, El.
    rewrite take_app_le; [done|]. unfold len in Hle. lia.
  - intros c ms' (ms & Ems & ->)%Ho. by rewrite (Ha _ _ Ems), Ei, told_app, told_ahead, app_nil_r.
Qed.

Lemma decided_idx_call s :
  seq_paxos_call (zoom SequencePaxos.internal_storage InternalStorage.get_decided_idx) s =
  (Val (StateCache.decided_idx (InternalStorage.state_cache (storage_of s))), s).
Proof. by destruct s as [? ? ? ? [[] ? ?] ? ? ? ?]. Qed.
Lemma suffix_call from s es s' :
  zoom omnipaxos (OmniPaxos.read_decided_suffix from) s = (Val (Some es), s') →
  s' = s ∧ ∃ st, InternalStorage.read_decided_suffix from (storage_of s) = (Val (Ok (Some es)), st).
Proof.
  unfold OmniPaxos.read_decided_suffix, OmniPaxos.storage_call, expect, bind, zoom.
  pose proof (memory_suffix_pure from (storage_of s)) as Hp. unfold storage_of in *.
  destruct (InternalStorage.read_decided_suffix _ _) as [x st] eqn:E. cbn in Hp. subst st.
  destruct x as [[r|e]|f]; intros [= -> <-]. split; [|by eexists].
  by destruct s as [? ? ? ? [[] ? ?] ? ? ? ?].
Qed.
Lemma applied_val cmds s u s' : update_database_and_respond cmds s = (Val u, s') → applied cmds s s'.
Proof. intros E. pose proof (respond_all cmds s) as Ha. unfold returns in Ha. by rewrite E in Ha. Qed.

(** Decided entries that are there are executed and answered; otherwise the server has panicked. *)
Lemma decided_val s u s' :
  handle_decided_entries s = (Val u, s') → Replica.inv (replica s) →
  StateCache.decided_idx (InternalStorage.state_cache (storage_of s)) < usize_mod →
  s' = s ∨ ∃ d, current_decided_idx s < d ≤ len (Replica.log (replica s)) ∧
    applied (log_between (storage_of s) (current_decided_idx s) d)
      (s <| current_decided_idx := d |>) s'.
Proof.
  unfold handle_decided_entries. intros E Hi Hfit.
  apply bind_val_inv in E as (d & s1 & Ed & E). rewrite decided_idx_call in Ed.
  injection Ed as <- <-. apply bind_val_inv in E as (self & s1 & [= <- <-] & E).
  destruct (N.ltb_spec (current_decided_idx s)
    (StateCache.decided_idx (InternalStorage.state_cache (storage_of s)))) as [Hlt|];
    [|left; by injection E].
  right. apply bind_val_inv in E as ([es|] & s1 & Er & E); [|done].
  apply suffix_call in Er as [-> (st & Er)].
  apply bind_val_inv in E as (es' & s1 & [= <- <-] & E).
  apply bind_val_inv in E as (v & s1 & [= <- <-] & E).
  apply bind_val_inv in E as (cmds & s1 & Ec & E). unfold lift in Ec. injection Ec as Ec <-.
  apply bind_val_inv in Er as (d & st1 & [= <- <-] & Er). rewrite (proj2 (N.ltb_lt _ _) Hlt) in Er.
  destruct (read_val _ _ _ _ _ _ (Replica.inv_log _ Hi) eq_refl Hlt Hfit Er Ec) as [Hle ->].
  eexists. split; [split; [exact Hlt|exact Hle]|]. by apply applied_val in E.
Qed.

(** The decided commands that have been executed since. *)
Definition newly s s' : list Command.t := drop (N.to_nat (current_decided_idx s)) (executed s').

Lemma answered_decided tr s u s' :
  handle_decided_entries s = (Val u, s') → Replica.inv (replica s) →
  StateCache.decided_idx (InternalStorage.state_cache (storage_of s)) < usize_mod →
  answered tr s → answered (tr ++ (Decision <$> newly s s')) s'.
Proof.
  intros E Hi Hfit Ha.
  destruct (decided_val _ _ _ E Hi Hfit) as [->|(d & Hd & Hdb & Hout & Eid & Eom & Ecur & _)].
  { unfold newly, executed. by rewrite skipn_firstn_comm, Nat.sub_diag, app_nil_r. }
  cbn in Hdb, Hout, Eid, Eom, Ecur.
  assert (Hnew : newly s s' = log_between (storage_of s) (current_decided_idx s) d).
  { unfold newly, executed, log_between, replica. rewrite Ecur, Eom. fold (replica s).
    pose proof (Replica.lo_base _ (Replica.inv_log _ Hi)) as Hb.
    change (SequencePaxos.internal_storage (replica s)) with (storage_of s) in Hb. rewrite Hb, N.sub_0_r.
    change (Storage.v_log (view_of (storage_of s))) with (Replica.log (replica s)).
    rewrite skipn_firstn_comm. f_equal. lia. }
  rewrite <-Hnew in Hdb, Hout. split.
  - unfold replica. rewrite Ecur, Eom. fold (replica s). lia.
  - by rewrite Hdb, (an_database _ _ Ha), fmap_app, execute_all_app, kv_of_decided.
  - rewrite omap_app, decision_decided, (an_decided _ _ Ha).
    rewrite <-(take_drop (N.to_nat (current_decided_idx s)) (executed s')). f_equal.
    unfold executed, replica. rewrite Ecur, Eom, take_take. f_equal. lia.
  - intros c ms'. rewrite Hout. intros (ms & Ems & ->)%fmap_Some.
    rewrite omap_app, (an_told _ _ Ha _ _ Ems), told_app, Eid. f_equal.
    by rewrite (an_database _ _ Ha), responses_told, told_answers.
Qed.

(** Messages are handled without touching the storage; this is left to the tasks. *)
Lemma incoming_storage m s r s' :
  zoom omnipaxos (OmniPaxos.handle_incoming m) s = (Val r, s') → storage_of s' = storage_of s.
Proof.
  destruct m as [p|b].
  - assert (Hp : ∀ x : Replica, SequencePaxos.internal_storage (SequencePaxos.handle p x).2 =
      SequencePaxos.internal_storage x) by (intros x; by destruct p as [? ? []]).
    specialize (Hp (OmniPaxos.seq_paxos (omnipaxos s))). revert Hp.
    unfold zoom. cbn [OmniPaxos.handle_incoming]. unfold zoom.
    destruct (SequencePaxos.handle p _) as [o x]. by intros Hp [= _ <-].
  - unfold zoom. cbn [OmniPaxos.handle_incoming]. unfold bind, zoom.
    destruct (Ble.handle b _) as [[]]; by intros [= _ <-].
Qed.
Lemma execute_storage e s u s' : execute e s = (Val u, s') → omnipaxos s' = omnipaxos s.
Proof.
  destruct e as [e|]; [|by intros [= _ <-]]. unfold execute, bind, handle_command.
  destruct (Database.handle_command _ _) as [a d]. by intros [= _ <-].
Qed.

Definition answers (j : job) : Prop := ∀ tr s a s', run_job j s = (Val a, s') → sane s →
  StateCache.decided_idx (InternalStorage.state_cache (storage_of s)) < usize_mod →
  answered tr s → answered (tr ++ (Ahead <$> ahead j s) ++ (Decision <$> newly s s')) s'.

Lemma newly_hushed cs s s' : hushed cs s s' → newly s s' = [].
Proof. intros [_ E _ _]. unfold newly, executed. by rewrite E, skipn_firstn_comm, Nat.sub_diag. Qed.
Lemma answers_hushed j :
  (∀ s a s', run_job j s = (Val a, s') → hushed (ahead j s) s s') → relays (run_job j) → answers j.
Proof.
  intros Hm Hr tr s a s' E Hs _ Ha. rewrite (newly_hushed _ _ _ (Hm _ _ _ E)), app_nil_r.
  destruct (Hr _ _ _ E Hs) as [r [_ Hlog _ _]].
  eapply answered_hushed; [done|by eapply Hm|by rewrite Hlog].
Qed.

Lemma answers_message m : answers (FromCluster (ClusterMessage.OmniPaxosMessage m)).
Proof.
  intros tr s a s' E Hs Hfit Ha. cbn [run_job handle_cluster_message] in E.
  apply bind_val_inv in E as (e & s1 & E1 & E). apply bind_val_inv in E as (u & s2 & E2 & E).
  apply bind_val_inv in E as (v & s3 & E3 & [= _ <-]).
  destruct (relays_omnipaxos _ (calm_handle_incoming m) _ _ _ E1 Hs) as [r1 F1].
  pose proof (forwards_sane _ _ _ Hs F1) as Hs1.
  destruct (relays_execute _ _ _ _ E2 Hs1) as [r2 F2].
  pose proof (hushed_incoming _ _ _ _ _ _ E1 E2) as Hh.
  rewrite app_assoc. unfold newly. rewrite <-(hu_cur _ _ _ Hh). fold (newly s2 s3).
  eapply answered_decided; [exact E3|apply F2|..].
  - unfold storage_of in *. rewrite (execute_storage _ _ _ _ E2).
    pose proof (incoming_storage _ _ _ _ E1) as Est. unfold storage_of in Est. by rewrite Est.
  - apply (answered_hushed _ _ s); [done..|]. by rewrite (fw_log _ _ _ F2), (fw_log _ _ _ F1).
Qed.
Lemma answers_job j : answers j.
Proof.
  destruct j as [now_ms| |[m|ts]|from [id c|r idx]|]; try apply answers_message.
  all: apply answers_hushed; [|apply relays_job].
  all: cbn [run_job handle_cluster_message handle_client_message ahead].
  4: by intros s a s' (u & s1 & E & [= _ <-])%bind_val_inv; eapply hushed_append.
  4: { intros s a s' (u & s1 & (e & s2 & E & E1)%bind_val_inv & [= _ <-])%bind_val_inv.
       by eapply (hushed_handle _ _ _ _ _ _ E). }
  all: lazymatch goal with |- ∀ s a s', ?m s = _ → _ => change (hush m) end.
  all: unfold leader_takeover, send_cluster_start_signals; hush.
Qed.

(** ** Runs *)

(** The log fits into memory, and the decided index into its type. *)
Definition fits s : Prop :=
  len (Replica.log (replica s)) < isize_max ∧
  StateCache.decided_idx (InternalStorage.state_cache (storage_of s)) < usize_mod.

(** The commands that an event executes: ahead of the log, and those of the newly decided entries. *)
Definition executions (ev : event) (l l' : loop) : list execution :=
  (match ev, jobs l with EJob, j :: _ => Ahead <$> ahead j (server l) | _, _ => [] end) ++
  (Decision <$> newly (server l) (server l')).

Inductive runs s0 : list execution → loop → Prop :=
  | runs_start : runs s0 [] (start s0)
  | runs_event tr l ev l' :
      runs s0 tr l → fits (server l) → exec ev l = Some l' → runs s0 (tr ++ executions ev l l') l'.

Inductive reaches s0 : loop → Prop :=
  | reaches_start : reaches s0 (start s0)
  | reaches_event l ev l' : reaches s0 l → fits (server l) → exec ev l = Some l' → reaches s0 l'.
Lemma reaches_runs s0 l : reaches s0 l → ∃ tr, runs s0 tr l.
Proof.
  induction 1 as [|l ev l' _ [tr IH] Hfit E]; [exists []; constructor|]. eexists. by eapply runs_event.
Qed.

Lemma runs_reaches s0 tr l : runs s0 tr l → reaches s0 l.
Proof. induction 1 as [|tr l ev l' _ IH Hfit E]; [constructor|]. by eapply reaches_event. Qed.

Lemma drop_hushed c s : hushed [] s (drop_client c s).
Proof.
  split; [done..|]. unfold client_outbox, drop_client. cbn. intros c' ms'.
  destruct (decide (c = c')) as [->|Hc].
  - rewrite lookup_alter_eq. by destruct (Network.client_connections _ !! _).
  - rewrite lookup_alter_ne by done. eauto.
Qed.

Lemma answered_exec tr ev l l' :
  Replica.inv (replica (server l)) → fits (server l) → exec ev l = Some l' →
  answered tr (server l) →
  Replica.inv (replica (server l')) ∧ answered (tr ++ executions ev l l') (server l').
Proof.
  intros Hi [Hlen Hfit] E Ha. unfold executions. destruct ev as [b| |e i|c]; cbn in E.
  - destruct (jobs l); [|done]. destruct (enabled _ _ _); [|done]. injection E as <-. cbn.
    rewrite (newly_hushed [] _ _); [|by apply hushed_same]. by rewrite app_nil_r.
  - destruct (jobs l) as [|j js]; [done|]. destruct (run_job j (server l)) as [[r|f] s] eqn:Ej; [|done].
    injection E as <-. rewrite next_server. cbn.
    destruct (relays_job j _ _ _ Ej) as [ms F]; [by split|]. split; [apply F|].
    eapply answers_job; [exact Ej|by split|done..].
  - unfold run_task in E. destruct (SequencePaxos.schedule _ _ _) as [r|] eqn:Es; [|done].
    injection E as <-. cbn.
    assert (Hstep : Replica.step (replica (server l)) r) by by eapply Replica.step_task.
    destruct (Replica.step_grows _ _ Hstep Hi Hlen) as [Hi' Hpre]. split; [done|].
    rewrite (newly_hushed [] _ _); [|by apply hushed_same].
    by apply (answered_hushed _ [] (server l)); [|apply hushed_same|].
  - injection E as <-. split; [done|]. cbn.
    rewrite (newly_hushed [] _ _); [|apply drop_hushed].
    by apply (answered_hushed _ [] (server l)); [|apply drop_hushed|].
Qed.
Lemma runs_answered s0 tr l :
  fresh s0 → runs s0 tr l → Replica.inv (replica (server l)) ∧ answered tr (server l).
Proof.
  intros Hf. induction 1 as [|tr l ev l' _ [Hi Ha] Hfit E]; [|by eapply answered_exec].
  split; [by apply (Acks.started_inv _ (fresh_started _ Hf))|].
  destruct (fresh_quiet _ Hf) as [Hcur Hout]. split; cbn [start server].
  - rewrite Hcur. lia.
  - by apply fresh_database.
  - unfold executed. by rewrite Hcur.
  - by intros c ms ->%Hout.
Qed.

(** C3.  Clients are answered exactly once, in the order of the log.  In every run of a server, in
    whatever order the confirmations, the tasks of the replica and the messages come: the server
    has executed decided entries up to an index within its log, and the answers that were put on
    the open connection of a client are those to the client's commands up to this index which the
    server coordinates, each exactly once and in the order of the log. *)
Theorem clients_are_answered_in_log_order s0 l :
  fresh s0 → reaches s0 l →
  let s := server l in
  current_decided_idx s ≤ len (Replica.log (replica s)) ∧
  ∀ c ms, client_outbox (network s) c = Some ms →
    omap answer_id ms = Command.id <$> filter (own (id s) c)
      (take (N.to_nat (current_decided_idx s)) (Replica.log (replica s))).
Proof.
  intros Hf [tr Hr]%reaches_runs. destruct (runs_answered _ _ _ Hf Hr) as [_ [Hle _ Hdec Ha]].
  split; [done|]. intros c ms Ems. rewrite answer_ids, (Ha _ _ Ems), told_ids, Hdec. done.
Qed.
(** C4.  A read returns the last write before it, in the order of execution.  In every run of a server,
    what is executed is the decided prefix of its log, in its order, and in between what a leader is
    asked to append and what is confirmed to a follower, when it arrives; and a read of a client is
    answered with what the last of the writes executed before it has left.  If none of the writes
    that were executed ahead is newer than the decided writes when a decided command reads its key,
    the answers are those of executing the decided prefix alone. *)
Theorem reads_return_the_last_write s0 tr l :
  fresh s0 → runs s0 tr l →
  let s := server l in
  let decided := take (N.to_nat (current_decided_idx s)) (Replica.log (replica s)) in
  omap decision tr = decided ∧
  ∀ c ms, client_outbox (network s) c = Some ms →
    omap answer ms = told (id s) c [] tr ∧
    (settled tr → omap answer ms = told (id s) c [] (Decision <$> decided)).
Proof.
  intros Hf Hr. destruct (runs_answered _ _ _ Hf Hr) as [_ [_ _ Hdec Ha]].
  split; [done|]. intros c ms Ems. rewrite (Ha _ _ Ems). split; [done|].
  intros Hset. by rewrite (told_settled _ _ _ Hset), Hdec.
Qed.
End answers.
