(* ===== verification/Speculation.v ===== *)
(** * Speculative results

    A leader executes a command when it is asked to append it; the result travels with the command
    through the tasks, the buffers and the oneshot channels of the replica into the acknowledgement.
    [vouched]: whatever the tasks do, no result gets to the acknowledgement of another command.
    Therefore the result that the proxy is told is that of executing the acknowledged command at its
    place in the sequence of the leader's executions ([speculations_are_executions]). *)

From S2P Require Import Prelude Util Ballots Config Time StorageApi MemoryStorage InternalStorage.
From S2P Require Import Messages Ble Collections Clock Buffers SequencePaxos Replica OmniPaxos.
From S2P Require Import Acks Kv Proxy System Network Server ServerRuns Answers.

(** Which requests were proposed with which results: identifiers tell them apart, deadlines do not
    matter. *)
Class Register {T : Type} `{StorageApi.Request T} (asked : T → speculation → Prop) : Prop := {
  asked_deadline r d spec : asked r spec → asked (set_deadline d r) spec;
  asked_once r r' spec spec' :
    asked r spec → asked r' spec' → get_id r = get_id r' → spec = spec'
}.

Create HintDb vouch discriminated.

Section replica.
Context {T Sn I : Type} `{Build, StorageApi.Request T, !RequestLaws T, Snapshot T Sn,
  !Storage.t T Sn I, BinaryHeap, !BinaryHeapLaws, Oneshot T, !OneshotLaws T, Oneshot unit}.
Import SequencePaxos.

Abbreviation Task := (task T (chan T) (chan unit)).
Abbreviation Bufs := (Buffers.t T (chan T) (chans T)).
Abbreviation Self := (t (InternalStorage.t I T) Bufs
  (Clock.t (chan unit) (chans unit)) (list (Message T)) Task).
Implicit Types s : Self.
Implicit Types b : Bufs.
Implicit Types (asked : T → speculation → Prop) (owner : chan T → option N).

Definition known asked (r : T) : Prop := ∃ spec, asked r spec.

(** [owner] is whose request a channel was made for. *)
Record tracked asked owner b : Prop := {
  tr_early r : r ∈ Buffers.early b → known asked r;
  tr_late id r : Buffers.late b !! id = Some r → known asked r;
  tr_notifier id tx : Buffers.notifiers b !! id = Some tx → owner tx = Some id;
  tr_sent ch r : peek ch (Buffers.channels b) = Some (Sent r) →
    known asked r ∧ owner ch = Some (get_id r);
  tr_made ch id : owner ch = Some id → peek ch (Buffers.channels b) ≠ None
}.

Definition task_ok asked owner (tk : Task) : Prop :=
  match tk with
  | InsertEntry r _ spec | AppendLog r spec | PushAck r _ spec _ => asked r spec
  | Announce rx _ _ spec | AwaitRelease rx spec => ∃ r, asked r spec ∧ owner rx = Some (get_id r)
  | WaiterArm (Some tx) r | WaiterAwait (Some tx) r _ => known asked r ∧ owner tx = Some (get_id r)
  | _ => True
  end.
Definition message_ok asked (m : Message T) : Prop :=
  match m with
  | SequencePaxosMsg p => match msg p with Ack r _ spec _ => asked r spec | _ => True end
  | BLE _ => True
  end.

Record vouched asked owner s : Prop := {
  vo_buffers : tracked asked owner (buffers s);
  vo_tasks : Forall (task_ok asked owner) (tasks s);
  vo_messages a m : m ∈ vec_at s a → message_ok asked m
}.

(** More may be proposed, and more channels made. *)
Definition extends owner owner' : Prop := ∀ ch id, owner ch = Some id → owner' ch = Some id.
Lemma task_ok_mono asked asked' owner owner' tk :
  (∀ r spec, asked r spec → asked' r spec) → extends owner owner' →
  task_ok asked owner tk → task_ok asked' owner' tk.
Proof.
  unfold task_ok, known. intros Ha Ho. destruct tk as [| | | | | |[]|[]| | | | | | | | | | |]; auto.
  1-2: intros (r & ? & ?); exists r; auto.
  all: intros [[spec ?] ?]; split; [exists spec|]; auto.
Qed.
Lemma vouched_mono asked asked' owner s :
  (∀ r spec, asked r spec → asked' r spec) → vouched asked owner s → vouched asked' owner s.
Proof.
  intros Ha [[He Hl Hn Hs Hm] Ht Hv]. unfold known in *. split.
  - split; unfold known; [naive_solver..|done].
  - eapply Forall_impl; [exact Ht|]. intros tk. apply task_ok_mono; [done|by intros ? ?].
  - intros a [p|]; [|done]. intros Hin%Hv. cbn in *. destruct (msg p); auto.
Qed.

(** *** The buffers *)

Lemma tracked_early asked owner b r :
  tracked asked owner b → known asked r → tracked asked owner (b <| Buffers.early ::= heap_push r |>).
Proof.
  intros [He Hl Hn Hs Hm] Hr. split; cbn; [|done..].
  intros r' [->|Hr']%elem_of_cons; [done|by apply He].
Qed.
Lemma tracked_late asked owner b r :
  tracked asked owner b → known asked r →
  tracked asked owner (b <| Buffers.late ::= <[get_id r := r]> |>).
Proof.
  intros [He Hl Hn Hs Hm] Hr. split; cbn; [done| |done..].
  intros id r' [[_ <-]|[_ Hr']]%lookup_insert_Some; [done|by eapply Hl].
Qed.
Lemma tracked_drop asked owner b tx :
  tracked asked owner b → tracked asked owner (b <| Buffers.channels ::= drop_sender tx |>).
Proof.
  intros [He Hl Hn Hs Hm]. split; cbn; [done..| |].
  - intros ch r. rewrite peek_drop. case_decide as Hc; [subst|apply Hs].
    destruct (peek tx _) as [[|v|]|] eqn:E; try done. intros [= <-]. by apply Hs.
  - intros ch id Ho. rewrite peek_drop. case_decide as Hc; [subst|by eapply Hm].
    apply Hm in Ho. by destruct (peek tx _) as [[]|].
Qed.
Lemma tracked_send asked owner b tx r :
  tracked asked owner b → known asked r → owner tx = Some (get_id r) →
  tracked asked owner (b <| Buffers.channels ::= send tx r |>).
Proof.
  intros [He Hl Hn Hs Hm] Hr Htx. split; cbn; [done..| |].
  - intros ch r'. rewrite peek_send. case_decide as Hc; [subst|apply Hs].
    destruct (peek tx _) as [[|v|]|] eqn:E; try done; intros [= <-]; [done|by apply Hs].
  - intros ch id Ho. rewrite peek_send. case_decide as Hc; [subst|by eapply Hm].
    apply Hm in Ho. by destruct (peek tx _) as [[]|].
Qed.
Lemma tracked_set_notifier asked owner b id tx :
  tracked asked owner b → owner tx = Some id →
  ∃ b', Buffers.set_notifier id tx b = (Val tt, b') ∧ tracked asked owner b' ∧
    Buffers.last_released_deadline b' = Buffers.last_released_deadline b.
Proof.
  intros Hb Htx.
  assert (Hset : ∀ b, tracked asked owner b →
    tracked asked owner (b <| Buffers.notifiers ::= <[id := tx]> |>)).
  { intros b' [He Hl Hn Hs Hm]. split; cbn; [done..| |done|done].
    intros id' tx' [[<- <-]|[_ ?]]%lookup_insert_Some; [done|by apply Hn]. }
  unfold Buffers.set_notifier, bind, gets. destruct (Buffers.notifiers b !! id) as [old|];
    eexists; (split; [reflexivity|]); (split; [|done]); apply Hset; [by apply tracked_drop|done].
Qed.

(** A new channel belongs to the request it is made for. *)
Definition claim (ch : chan T) (id : N) owner : chan T → option N :=
  λ c, if decide (c = ch) then Some id else owner c.
Lemma tracked_channel asked owner b id ch cs :
  tracked asked owner b → channel (Buffers.channels b) = (ch, cs) →
  extends owner (claim ch id owner) ∧ tracked asked (claim ch id owner) (b <| Buffers.channels := cs |>).
Proof.
  intros [He Hl Hn Hs Hm] E.
  pose proof (channel_fresh (Buffers.channels b)) as Hf. pose proof (peek_channel (Buffers.channels b)) as Hp.
  rewrite E in Hf, Hp. cbn in Hf, Hp.
  assert (Hext : extends owner (claim ch id owner)).
  { intros c i Hc. unfold claim. rewrite decide_False; [done|]. intros ->. by apply Hm in Hc. }
  split; [done|]. split; cbn; [done|done|intros ? ? ?; by apply Hext, Hn|..].
  - intros c r. rewrite Hp. case_decide; [done|]. intros [? ?]%Hs. split; [done|by apply Hext].
  - intros c i. rewrite Hp. unfold claim. case_decide; [done|]. apply Hm.
Qed.

Lemma tracked_insert asked `{!Register asked} owner b r im_leader d o b' :
  tracked asked owner b → known asked r → Buffers.insert r im_leader d b = (o, b') →
  ∃ owner', extends owner owner' ∧ tracked asked owner' b' ∧
    ∀ a, o = Val a → owner' a.1 = Some (get_id r).
Proof.
  intros Hb Hr. unfold Buffers.insert, bind at 1, gets at 1.
  destruct (channel (Buffers.channels b)) as [ch cs] eqn:E.
  destruct (tracked_channel _ _ _ (get_id r) _ _ Hb E) as [Hext Hb1].
  set (owner' := claim ch (get_id r) owner) in *.
  assert (Hch : owner' ch = Some (get_id r)) by (unfold owner', claim; by rewrite decide_True).
  unfold bind at 1, modify at 1.
  destruct (tracked_set_notifier _ _ _ _ _ Hb1 Hch) as (b2 & E2 & Hb2 & _).
  unfold bind at 1. rewrite E2. intros E3. exists owner'. split; [done|]. revert E3.
  destruct (Buffers.eligible r b); [|destruct im_leader; [destruct d as [d|f]|]];
    intros [= <- <-]; (split; [|by intros a [= <-]]); try done.
  - by apply tracked_early.
  - apply tracked_early; [done|]. destruct Hr as [spec Hr]. exists spec. by apply asked_deadline.
  - by apply tracked_late.
Qed.
Lemma tracked_free asked `{!Register asked} owner b id d :
  tracked asked owner b → tracked asked owner (Buffers.free_from_late id d b).2.
Proof.
  intros Hb. unfold Buffers.free_from_late, bind, gets. destruct (Buffers.late b !! id) as [r|] eqn:E; [|done].
  apply tracked_early.
  - destruct Hb as [He Hl Hn Hs Hm]. split; cbn; [done| |done..].
    intros id' r' [_ ?]%lookup_delete_Some. by eapply Hl.
  - destruct (tr_late _ _ _ Hb _ _ E) as [spec Hr]. exists spec. by apply asked_deadline.
Qed.
Lemma tracked_pop asked owner b :
  tracked asked owner b → tracked asked owner (Buffers.waiter_pop b).2 ∧
  ∀ tx r, (Buffers.waiter_pop b).1 = Val (Some (Some tx, r)) → known asked r ∧ owner tx = Some (get_id r).
Proof.
  intros Hb. unfold Buffers.waiter_pop, bind, gets.
  destruct (heap_pop get_deadline (Buffers.early b)) as [[r rest]|] eqn:E; [|done].
  apply heap_pop_some in E as [Hperm _]. cbn. split.
  - destruct Hb as [He Hl Hn Hs Hm]. split; cbn; [|done| |done..].
    + intros r' Hr'. apply He. rewrite Hperm. by right.
    + intros id tx [_ ?]%lookup_delete_Some. by apply Hn.
  - intros tx r' [= Htx <-]. split; [|by apply (tr_notifier _ _ _ Hb)].
    apply (tr_early _ _ _ Hb). rewrite Hperm. by left.
Qed.

(** *** Computations of the replica *)

(** Everything stays vouched for, and the result is as [post] says. *)
Definition gives asked owner {A} (m : M Self A) (post : A → Prop) : Prop := ∀ s,
  vouched asked owner s → vouched asked owner (m s).2 ∧ ∀ a, (m s).1 = Val a → post a.
Abbreviation minds asked owner m := (gives asked owner m (λ _, True)).

Section rules.
Context (asked : T → speculation → Prop) `{!Register asked}.
Implicit Types post : Task → Prop.

Lemma gives_bind {A B} owner (m : M Self A) (k : A → M Self B) P P' :
  gives asked owner m P → (∀ a, P a → gives asked owner (k a) P') → gives asked owner (bind m k) P'.
Proof.
  intros Hm Hk s Hs. unfold bind. destruct (Hm s Hs) as [Hs1 Ha]. destruct (m s) as [[a|f] s1]; [|done].
  by apply (Hk a (Ha a eq_refl)).
Qed.
Lemma gives_ret {A} owner (a : A) (P : A → Prop) : P a → gives asked owner (ret a) P.
Proof. intros Ha s Hs. split; [done|]. by intros a' [= <-]. Qed.
Lemma gives_val {A} owner (m : M Self A) (P : A → Prop) s a s' :
  gives asked owner m P → vouched asked owner s → m s = (Val a, s') → vouched asked owner s' ∧ P a.
Proof. intros Hm Hs E. destruct (Hm s Hs) as [Hs' Ha]. rewrite E in *. split; [done|by apply Ha]. Qed.
Lemma minds_frame {A} owner (m : M Self A) :
  (∀ s, buffers (m s).2 = buffers s ∧ tasks (m s).2 = tasks s ∧ vectors (m s).2 = vectors s) →
  minds asked owner m.
Proof.
  intros Hm s [Hb Ht Hv]. destruct (Hm s) as (Eb & Et & Ev). split; [|done].
  split; unfold vec_at; rewrite ?Eb, ?Et, ?Ev; done.
Qed.
Lemma minds_bind {A B} owner (m : M Self A) (k : A → M Self B) :
  minds asked owner m → (∀ a, minds asked owner (k a)) → minds asked owner (bind m k).
Proof. intros Hm Hk. eapply gives_bind; [exact Hm|]. intros a _. apply Hk. Qed.
Lemma minds_mfor {A} owner (xs : list A) (body : A → M Self unit) :
  (∀ x, minds asked owner (body x)) → minds asked owner (mfor xs body).
Proof. intros Hb. induction xs as [|x xs IH]; cbn; [by apply gives_ret|]. by apply minds_bind. Qed.
Lemma minds_zoom_frame {U A} owner (proj : Self → U) `{!Settable proj} (m : M U A) :
  (∀ f s, buffers (upd proj f s) = buffers s ∧ tasks (upd proj f s) = tasks s ∧
          vectors (upd proj f s) = vectors s) → minds asked owner (zoom proj m).
Proof. intros Hp. apply minds_frame. intros s. unfold zoom. destruct (m _). apply Hp. Qed.
Lemma minds_expect {A E} owner (m : M Self (result A E)) : minds asked owner m → minds asked owner (expect m).
Proof. intros Hm. apply minds_bind; [done|]. by intros [a|e]; apply minds_frame. Qed.
Lemma minds_unwrap {A} owner (o : option A) : minds asked owner (unwrap o).
Proof. destruct o; by apply minds_frame. Qed.
Lemma gives_buffers {A} owner (m : M Bufs A) (P : A → Prop) :
  (∀ b, tracked asked owner b → tracked asked owner (m b).2 ∧ ∀ a, (m b).1 = Val a → P a) →
  gives asked owner (zoom buffers m) P.
Proof.
  intros Hm s [Hb Ht Hv]. unfold zoom. destruct (Hm _ Hb) as [Hb' Ha].
  destruct (m (buffers s)) as [o b]. by split.
Qed.
Lemma minds_push owner a m : message_ok asked m → minds asked owner (push_at a m).
Proof.
  intros Hm s [Hb Ht Hv]. split; [|done]. split; [done..|]. intros a' m'.
  rewrite Replica.vec_at_push. cbn. case_decide as Ha; [|apply Hv]. subst.
  intros [Hin| ->%list_elem_of_singleton]%elem_of_app; [by eapply Hv|done].
Qed.
Lemma minds_spawn owner tk : task_ok asked owner tk → minds asked owner (spawn tk).
Proof.
  intros Htk s [Hb Ht Hv]. split; [|done]. split; [done| |done]. cbn. apply Forall_app. by split; [|constructor].
Qed.

Lemma minds_buffers {A} owner (m : M Bufs A) :
  (∀ b, tracked asked owner b → tracked asked owner (m b).2) → minds asked owner (zoom buffers m).
Proof. intros Hm. apply gives_buffers. by auto. Qed.

(** What [take_vector] returns. *)
Lemma gives_take owner a buffer :
  gives asked owner (take_vector a buffer)
    (λ r, Forall (message_ok asked) buffer → Forall (message_ok asked) r).
Proof.
  intros s [Hb Ht Hv].
  assert (Hall : Forall (message_ok asked) (vec_at s a)) by (apply Forall_forall; intros m; apply Hv).
  assert (Hs : vouched asked owner (s <| vectors ::= <[a := []]> |> <| latest_accepted_meta := None |>)).
  { split; [done..|]. unfold vec_at. cbn. intros a' m. destruct (decide (a = a')) as [->|Hne].
    - rewrite lookup_insert_eq. by intros Hm%elem_of_nil.
    - rewrite lookup_insert_ne by done. apply Hv. }
  destruct buffer; (split; [exact Hs|]); cbn; intros r [= <-] Hbuf; [done|].
  by apply (Forall_app_2 _ (_ :: _)).
Qed.

(** *** The tasks *)

Ltac minds_step :=
  lazymatch goal with
  | |- gives _ _ (bind _ _) _ => apply minds_bind; [|intros ?]
  | |- gives _ _ (mfor _ _) _ => apply minds_mfor; intros ?
  | |- gives _ _ (expect _) _ => apply minds_expect
  | |- gives _ _ (unwrap _) _ => apply minds_unwrap
  | |- gives _ _ (push_at _ _) _ => by apply minds_push
  | |- gives _ _ (spawn _) _ => by apply minds_spawn
  | |- gives _ _ (zoom _ _) _ => by apply minds_zoom_frame
  | |- gives _ _ (when _ _) _ => unfold when
  | |- gives _ _ (match _ with _ => _ end) _ => case_match
  | |- gives _ _ _ _ => by apply minds_frame
  end.
Ltac minds := repeat minds_step.
(** The tasks after the last step of a computation. *)
Ltac finally := eapply gives_bind; [minds|intros ? _].

Lemma released owner s rx r spec :
  vouched asked owner s → task_ok asked owner (AwaitRelease rx spec) →
  poll rx (Buffers.channels (buffers s)) = Some (Ok r) → asked r spec.
Proof.
  intros [Hb _ _] (r0 & Hr0 & Ho). unfold poll. destruct (peek _ _) as [[| |]|] eqn:E; try done.
  intros [= <-]. destruct (tr_sent _ _ _ Hb _ _ E) as [[spec' Hr] Ho'].
  rewrite Ho in Ho'. injection Ho' as Hid. by rewrite (asked_once _ _ _ _ Hr0 Hr Hid).
Qed.

Definition inserts (tk : Task) : bool := match tk with InsertEntry _ _ _ => true | _ => false end.
Lemma run_task_gives owner e tk s m :
  vouched asked owner s → task_ok asked owner tk → inserts tk = false → run_task e tk s = Some m →
  gives asked owner m (Forall (task_ok asked owner)).
Proof.
  intros Hs Htk Hins E. destruct tk; try discriminate Hins; cbn in E;
    repeat match type of E with
    | (if ?c then _ else _) = _ => destruct c; [|discriminate E]
    end.
  all: try (injection E as <-; repeat finally; apply gives_ret; by repeat constructor).
  - destruct (poll rx _) as [[r|[]]|] eqn:Ep in E; simplify_eq; apply gives_ret; [|done].
    constructor; [|done]. by eapply released.
  - injection E as <-. eapply gives_bind.
    { apply gives_buffers. intros b Hb. destruct (tracked_pop _ _ _ Hb) as [Hb' Hr]. split; [exact Hb'|].
      intros r Er. exact (λ tx q Hq, Hr tx q (eq_trans Er (f_equal Val Hq))). }
    intros [[[tx|] r]|] Hr; apply gives_ret; repeat constructor; by apply (Hr tx r).
  - destruct (poll notifier _) as [notified|] in E; [|done]. injection E as <-. eapply gives_bind; [|intros u _; apply gives_ret; by repeat constructor].
    apply minds_buffers. intros b Hb.
    destruct notified, sender; cbn; [apply tracked_send; by try apply Htk|done|by apply tracked_drop|done].
  - injection E as <-. eapply gives_bind; [|intros u _; by apply gives_ret].
    apply minds_buffers. intros b Hb. by apply tracked_free.
  - injection E as <-. case_match; [finally|]; apply gives_ret; by repeat constructor.
  - injection E as <-. finally. apply gives_ret. constructor; [done|]. apply Forall_app. split.
    + by apply Forall_fmap, Forall_true.
    + case_match; by repeat constructor.
  - injection E as <-. case_match; [|finally]; apply gives_ret; by repeat constructor.
  - destruct (master_times s) as [|leader_time rest] in E; [done|]. injection E as <-. finally.
    apply gives_ret. by repeat constructor.
Qed.

Lemma insert_gives owner e r im_leader spec s m s0 :
  vouched asked owner s0 → asked r spec → run_task e (InsertEntry r im_leader spec) s = Some m →
  ∃ owner', extends owner owner' ∧ vouched asked owner' (m s0).2 ∧
    ∀ more, (m s0).1 = Val more → Forall (task_ok asked owner') more.
Proof.
  intros [Hb Ht Hv] Hr E. cbn in E. destruct (_ || _); [|done]. injection E as <-.
  unfold bind, zoom. destruct (Buffers.insert r im_leader _ _) as [o b'] eqn:Ei.
  destruct (tracked_insert _ _ _ _ _ _ _ _ Hb (ex_intro _ spec Hr) Ei) as (owner' & Hext & Hb' & Ho).
  assert (Hs : vouched asked owner' (s0 <| buffers := b' |>)).
  { split; [done| |done]. eapply Forall_impl; [exact Ht|]. intros tk. by apply task_ok_mono. }
  exists owner'. split; [done|]. destruct o as [[ch [d|]]|f]; (split; [exact Hs|]); [..|done];
    intros more [= <-]; repeat constructor; exists r; (split; [done|by apply (Ho _ eq_refl)]).
Qed.

(** However the scheduler goes on, the tasks mind who was promised what. *)
Lemma schedule_vouched owner e i s s' :
  vouched asked owner s → schedule e i s = Some s' → ∃ owner', vouched asked owner' s'.
Proof.
  unfold schedule. intros Hs. destruct (tasks s !! i) as [tk|] eqn:Htk; [|done].
  destruct (run_task e tk s) as [m|] eqn:Hrun; [|done]. cbv zeta.
  set (s0 := s <| tasks ::= λ l, take i l ++ drop (S i) l |>).
  destruct Hs as [Hb Ht Hv] eqn:EHs. clear EHs.
  assert (Htk' : task_ok asked owner tk) by by eapply Forall_lookup_1.
  assert (Hs0 : vouched asked owner s0).
  { split; [done| |done]. cbn. apply Forall_app. split; [by apply Forall_take|by apply Forall_drop]. }
  assert (Hm : ∃ owner', vouched asked owner' (m s0).2 ∧
    ∀ more, (m s0).1 = Val more → Forall (task_ok asked owner') more).
  { destruct (inserts tk) eqn:Hins.
    - destruct tk; try done. destruct (insert_gives _ _ _ _ _ _ _ _ Hs0 Htk' Hrun) as (o & _ & ?). by exists o.
    - exists owner. apply (run_task_gives _ _ _ _ _ (Build_vouched _ _ _ Hb Ht Hv) Htk' Hins Hrun). done. }
  destruct Hm as (owner' & Hs1 & Hmore). destruct (m s0) as [[more|f] s1]; intros [= <-]; exists owner'; [|done].
  destruct Hs1 as [Hb1 Ht1 Hv1]. split; [done| |done]. cbn. apply Forall_app. split; [done|by apply Hmore].
Qed.

(** *** The calls of the main loop *)

Lemma minds_handle owner p : minds asked owner (handle p).
Proof.
  unfold handle, handle_execution, handle_new_deadline, handle_resync_answer, handle_resync_request.
  minds.
Qed.
Lemma minds_get_promise owner : minds asked owner get_promise.
Proof. unfold get_promise. minds. Qed.
Lemma minds_handle_leader owner n : minds asked owner (handle_leader n).
Proof. unfold handle_leader, get_promise, become_follower. minds. Qed.
Lemma minds_append owner entry speculate s :
  vouched asked owner s →
  asked entry (match (state s).1 with Leader => Some (speculate entry) | Follower => None end) →
  vouched asked owner (append entry speculate s).2.
Proof.
  intros Hs Ha. unfold append, accepted_reconfiguration, bind at 1 2.
  assert (Hpure : ∃ ss, zoom internal_storage InternalStorage.get_stopsign s = (Val ss, s)).
  { eexists. unfold zoom, InternalStorage.get_stopsign. cbn. by destruct s. }
  destruct Hpure as [ss ->]. cbn. destruct (bool_decide _); [done|].
  unfold propose_entry, handle_new_proposal, bind, gets. destruct (state s) as [[] ph] eqn:E; cbn in Ha |- *;
    by apply (minds_spawn owner (InsertEntry _ _ _)).
Qed.

Lemma with_vouched config (storage : I) clk out outc s :
  with_ config storage clk out outc = Val s → vouched asked (λ _, None) s.
Proof.
  unfold with_. destruct (iter_max_N (sp_peers config)); [|done].
  destruct (expect Storage.get_promise storage).1 as [promise|]; [|done].
  destruct (match promise with Some b => _ | None => _ end) as [st leader].
  destruct (InternalStorage.with_ storage (sp_batch_size config)) as [ist|]; [|done].
  match goal with |- context [expect _ ?x] => set (s0 := x) end.
  assert (Hs0 : vouched asked (λ _, None) s0).
  { subst s0. split; cbn.
    - split; cbn; [by intros r Hr%elem_of_nil|done|done| |done]. intros ch r. by rewrite peek_none.
    - by repeat constructor.
    - intros a m. unfold vec_at. cbn. destruct (_ !! a) as [l|] eqn:E; [|by intros Hm%elem_of_nil].
      assert (l = []) as ->; [|by intros Hm%elem_of_nil].
      apply lookup_insert_Some in E as [[_ <-]|[_ E]]; [done|]. by apply lookup_singleton_Some in E as [_ <-]. }
  assert (Hm : minds asked (λ _, None) (expect (zoom internal_storage (InternalStorage.set_promise leader))))
    by minds.
  destruct (Hm s0 Hs0) as [Hs1 _]. destruct (expect _ s0) as [[u|f] s1]; [|done]. by intros [= <-].
Qed.
Lemma gives_take_acks owner :
  gives asked owner (take_outgoing_client_msgs []) (Forall (message_ok asked)).
Proof.
  unfold take_outgoing_client_msgs. eapply gives_bind; [minds|intros self _]. intros s Hs.
  destruct (gives_take owner (outgoing_clients self) [] s Hs) as [Hs' Hm]. split; [done|].
  intros r Er. by apply (Hm r Er).
Qed.
End rules.
End replica.

(** ** What a server has promised *)

Create HintDb honesty discriminated.

Section server.
Context {H : Type} `{Build, Hasher H, BinaryHeap, !BinaryHeapLaws, Oneshot Command.t,
  !OneshotLaws Command.t, Oneshot unit}.
Import Server.

Abbreviation Backend := (MemoryStorage.t Command.t NoSnapshot).
Abbreviation Replica := (SequencePaxos.t (InternalStorage.t Backend Command.t)
  (Buffers.t Command.t (chan Command.t) (chans Command.t)) (Clock.t (chan unit) (chans unit))
  (list (Message Command.t)) (task Command.t (chan Command.t) (chan unit))).
Abbreviation Op := (OmniPaxos.t Replica).
Abbreviation Self := (Server.t Op).
Implicit Types s : Self.
Implicit Types l : loop.

(** The commands that were proposed and the results that were promised for them, under the numbers
    that the server has given them. *)
Abbreviation register := (gmap N (KVCommand.t * speculation)).
Implicit Types g : register.
Definition entered g (cmd : Command.t) (spec : speculation) : Prop :=
  g !! (Command.private_id cmd : N) = Some (Command.kv_cmd cmd, spec).
#[local] Instance entered_register g : Register (entered g).
Proof.
  split; [done|]. unfold entered. cbn. intros r r' spec spec' E E' Hid. rewrite Hid in E. congruence.
Qed.

Record promised g s : Prop := {
  pm_replica : ∃ owner, vouched (entered g) owner (replica s);
  pm_outbox ms cmd hash spec idx :
    proxy_outbox s = Some ms → ServerMessage.Ack cmd hash spec idx ∈ ms → entered g cmd spec
}.
Lemma promised_mono g k c spec s :
  g !! k = None → promised g s → promised (<[k := (c, spec)]> g) s.
Proof.
  intros Hk [[owner Hr] Ho].
  assert (Hsub : ∀ r sp, entered g r sp → entered (<[k := (c, spec)]> g) r sp).
  { unfold entered. intros r sp E. rewrite lookup_insert_ne; [done|]. congruence. }
  split; [|naive_solver]. exists owner. by eapply vouched_mono.
Qed.

(** No number is given, and the promises are kept. *)
Definition honest {A} (m : M Self A) : Prop := ∀ g s a s', m s = (Val a, s') →
  promised g s → private_command_id s' = private_command_id s ∧ promised g s'.

Lemma honest_bind {A B} (m : M Self A) (k : A → M Self B) :
  honest m → (∀ a, honest (k a)) → honest (bind m k).
Proof.
  intros Hm Hk g s b s' (a & s1 & E1 & E2)%bind_val_inv.
  intros Hs. destruct (Hm g _ _ _ E1 Hs) as [I1 P1], (Hk a g _ _ _ E2 P1) as [I2 P2].
  split; [congruence|done].
Qed.
Lemma honest_mfor {A} (xs : list A) (body : A → M Self unit) :
  (∀ x, honest (body x)) → honest (mfor xs body).
Proof.
  intros Hb. induction xs as [|x xs IH]; cbn; [|by apply honest_bind]. by intros g s a s' [= _ <-].
Qed.
Lemma honest_frame {A} (m : M Self A) :
  (∀ s, private_command_id (m s).2 = private_command_id s ∧ replica (m s).2 = replica s ∧
        proxy_outbox (m s).2 = proxy_outbox s) → honest m.
Proof.
  intros Hm g s a s' E. specialize (Hm s). rewrite E in Hm. cbn in Hm. destruct Hm as (Ei & Er & Eo).
  intros [Hr Ho]. split; [done|]. split; [by rewrite Er|by rewrite Eo].
Qed.
(** Messages to the proxy keep the promises if they are no acknowledgements. *)
Lemma honest_to_client to msg : is_ack msg = None → honest (send_to_client to msg).
Proof.
  intros Hm g s a s' E. unfold send_to_client, zoom in E.
  pose proof (send_to_client_spec to msg (network s)) as Hsp. unfold returns in Hsp.
  destruct (Network.send_to_client to msg (network s)) as [o n]. injection E as -> <-.
  destruct Hsp as (_ & _ & Hout). intros [Hr Ho]. split; [done|]. split; [exact Hr|].
  unfold proxy_outbox in *. cbn. intros ms cmd hash spec idx. rewrite Hout. case_decide; [|by apply Ho].
  intros (ms0 & Ems & ->)%fmap_Some [Hin|Hin%list_elem_of_singleton]%elem_of_app; [by eapply Ho|].
  by subst msg.
Qed.
Lemma honest_to_cluster to msg : honest (send_to_cluster to msg).
Proof.
  apply honest_frame. intros s. unfold send_to_cluster, zoom.
  pose proof (to_cluster_clients to msg (network s)) as Hc.
  destruct (Network.send_to_cluster to msg (network s)) as [o n]. split_and!; [done..|].
  unfold proxy_outbox, client_outbox. cbn in *. by rewrite Hc.
Qed.
Lemma honest_handle_command c : honest (handle_command c).
Proof.
  apply honest_frame. intros s. unfold handle_command.
  by destruct (Database.handle_command c (database s)).
Qed.

(** *** Calls of the replica *)

Definition mindful {A} (m : M Op A) : Prop := ∀ g owner o a o', m o = (Val a, o') →
  vouched (entered g) owner (OmniPaxos.seq_paxos o) → vouched (entered g) owner (OmniPaxos.seq_paxos o').

Lemma mindful_bind {A B} (m : M Op A) (k : A → M Op B) :
  mindful m → (∀ a, mindful (k a)) → mindful (bind m k).
Proof. intros Hm Hk g owner o b o' (a & o1 & E1 & E2)%bind_val_inv Ho. eapply Hk; [done|]. by eapply Hm. Qed.
Lemma mindful_other {A} (m : M Op A) :
  (∀ o, OmniPaxos.seq_paxos (m o).2 = OmniPaxos.seq_paxos o) → mindful m.
Proof. intros Hm g owner o a o' E. specialize (Hm o). rewrite E in Hm. cbn in Hm. by rewrite Hm. Qed.
Lemma mindful_ble {A} (m : M Ble.t A) : mindful (zoom OmniPaxos.ble m).
Proof. apply mindful_other. intros o. unfold zoom. by destruct (m _). Qed.
Lemma mindful_clock {A} (m : M LogicalClock.t A) : mindful (zoom OmniPaxos.election_clock m).
Proof. apply mindful_other. intros o. unfold zoom. by destruct (m _). Qed.
Lemma mindful_replica {A} (m : M Replica A) (P : register → A → Prop) :
  (∀ g owner, gives (entered g) owner m (P g)) → mindful (zoom OmniPaxos.seq_paxos m).
Proof.
  intros Hm g owner o a o' E Ho. unfold zoom in E. destruct (Hm g owner _ Ho) as [Hr _].
  destruct (m _) as [x r]. by injection E as -> <-.
Qed.
Lemma honest_omnipaxos {A} (m : M Op A) : mindful m → honest (zoom omnipaxos m).
Proof.
  intros Hm g s a s' E. unfold zoom in E. destruct (m (omnipaxos s)) as [x o] eqn:Em. injection E as -> <-.
  intros [[owner Hr] Ho]. split; [done|]. split; [|exact Ho]. exists owner. by eapply Hm.
Qed.

#[local] Hint Extern 0 (mindful (zoom OmniPaxos.ble _)) => apply mindful_ble : honesty.
#[local] Hint Extern 0 (mindful (zoom OmniPaxos.election_clock _)) => apply mindful_clock : honesty.
#[local] Hint Extern 0 (mindful (zoom OmniPaxos.seq_paxos _)) => (eapply mindful_replica; intros g owner;
  first [apply minds_handle | apply minds_get_promise | apply minds_handle_leader | by apply minds_frame]) : honesty.
Ltac mindful :=
  repeat first [solve [trivial with honesty nocore] | apply mindful_bind; [|intros ?]
    | by apply mindful_other | case_match].

Lemma mindful_incoming m : mindful (OmniPaxos.handle_incoming m).
Proof. destruct m as [p|b]; cbn; mindful. Qed.
Lemma mindful_tick : mindful OmniPaxos.tick.
Proof. unfold OmniPaxos.tick, OmniPaxos.election_timeout. mindful. Qed.
Lemma mindful_try_become_leader : mindful OmniPaxos.try_become_leader.
Proof. unfold OmniPaxos.try_become_leader. mindful. Qed.
Lemma mindful_get_current_leader : mindful OmniPaxos.get_current_leader.
Proof. unfold OmniPaxos.get_current_leader, OmniPaxos.get_promise. mindful. Qed.
Lemma mindful_take_outgoing buffer : mindful (OmniPaxos.take_outgoing_messages buffer).
Proof.
  unfold OmniPaxos.take_outgoing_messages. apply mindful_bind; [|intros ?; mindful].
  eapply mindful_replica. intros g owner. unfold SequencePaxos.take_outgoing_msgs.
  eapply gives_bind; [by apply minds_frame|intros self _]. apply gives_take.
Qed.

(** *** The handlers *)

#[local] Hint Resolve honest_handle_command honest_to_cluster : honesty.
#[local] Hint Extern 0 (honest (send_to_client _ _)) => (by apply honest_to_client) : honesty.
#[local] Hint Extern 0 (honest (zoom omnipaxos _)) => (apply honest_omnipaxos;
  first [apply mindful_incoming | apply mindful_tick | apply mindful_take_outgoing
    | apply mindful_try_become_leader | apply mindful_get_current_leader]) : honesty.
Ltac honest :=
  repeat first [solve [trivial with honesty nocore] | apply honest_bind; [|intros ?]
    | apply honest_mfor; intros ? | by apply honest_frame | progress unfold when | case_match].

Lemma honest_pure {A} (m : M Replica A) : pure m → honest (seq_paxos_call m).
Proof.
  intros Hm. apply honest_frame. intros s. unfold seq_paxos_call, zoom.
  specialize (Hm (OmniPaxos.seq_paxos (omnipaxos s))). destruct (m _) as [o r]. cbn in Hm. by subst r.
Qed.
Lemma honest_execute executed : honest (execute executed).
Proof. unfold execute. honest. Qed.
Lemma honest_decided : honest handle_decided_entries.
Proof.
  assert (Hread : ∀ from, honest (zoom omnipaxos (OmniPaxos.read_decided_suffix from))).
  { intros from. apply honest_omnipaxos, mindful_other. intros o.
    unfold OmniPaxos.read_decided_suffix, OmniPaxos.storage_call, expect, bind, zoom.
    pose proof (memory_suffix_pure from (SequencePaxos.internal_storage (OmniPaxos.seq_paxos o))) as Hp.
    destruct (InternalStorage.read_decided_suffix _ _) as [x st]. cbn in Hp. subst st.
    destruct o as [[] ? ?]. by destruct x as [[]|]. }
  unfold handle_decided_entries, update_database_and_respond. apply honest_bind.
  { apply honest_pure. unfold InternalStorage.get_decided_idx. pure. }
  intros d. apply honest_bind; [by apply honest_frame|intros self]. case_match; [|by apply honest_frame].
  apply honest_bind; [apply Hread|intros read]. unfold unwrap. honest.
Qed.

(** The acknowledgements that the replica hands over are put on the connection to the proxy. *)
Lemma forward_promised g msgs s u s' :
  mfor msgs forward_ack s = (Val u, s') → Forall (message_ok (entered g)) msgs →
  promised g s → private_command_id s' = private_command_id s ∧ promised g s'.
Proof.
  revert s. induction msgs as [|m msgs IH]; intros s E Hm; [by injection E as _ <-|].
  apply Forall_cons in Hm as [Hm Hms].
  apply bind_val_inv in E as (v & s1 & E1 & E2). specialize (IH _ E2 Hms).
  destruct m as [[f t [req hash spec idx| | | |]]|]; try discriminate E1. cbn in Hm.
  change (send_to_client 1 (ServerMessage.Ack req hash spec idx) s = (Val v, s1)) in E1.
  unfold send_to_client, zoom in E1.
  pose proof (send_to_client_spec 1 (ServerMessage.Ack req hash spec idx) (network s)) as Hsp.
  unfold returns in Hsp. destruct (Network.send_to_client _ _ (network s)) as [o n].
  injection E1 as -> <-. destruct Hsp as (_ & _ & Hout).
  intros [Hr Ho]. apply IH. split; [exact Hr|]. unfold proxy_outbox in *. cbn.
  intros ms cmd h sp i. rewrite Hout, decide_True by done.
  intros (ms0 & Ems & ->)%fmap_Some [Hin|Hin%list_elem_of_singleton]%elem_of_app; [by eapply Ho|].
  by injection Hin as -> -> -> ->.
Qed.
Lemma honest_acks :
  honest (let* msgs := zoom omnipaxos (OmniPaxos.take_client_outgoing_messages []) in
          mfor msgs forward_ack).
Proof.
  intros g s u s' (r & s1 & E1 & E2)%bind_val_inv [[owner Hr] Ho].
  unfold OmniPaxos.take_client_outgoing_messages, zoom in E1. fold (replica s) in E1.
  destruct (gives_take_acks (entered g) owner _ Hr) as [Hr1 Hm].
  destruct (SequencePaxos.take_outgoing_client_msgs [] (replica s)) as [o r1].
  injection E1 as -> <-. apply (forward_promised _ _ _ _ _ E2 (Hm _ eq_refl)).
  split; [by exists owner|exact Ho].
Qed.

Lemma honest_outgoing : honest send_outgoing_msgs.
Proof.
  unfold send_outgoing_msgs. apply honest_bind; [by apply honest_frame|intros self].
  apply honest_bind; [honest|intros msgs]. apply honest_bind; [honest|intros _].
  intros g s u s' E. pose proof (eq_trans (eq_sym (forward_first s)) E) as E'. revert E'.
  apply honest_bind; [apply honest_acks|intros _; by apply honest_frame].
Qed.
Lemma honest_start_signals ts : honest (send_client_start_signals ts).
Proof. unfold send_client_start_signals. honest. Qed.
#[local] Hint Resolve honest_execute honest_decided honest_outgoing honest_start_signals : honesty.

Definition proposes (j : job) : bool :=
  match j with FromClient _ (ClientMessage.Append _ _) => true | _ => false end.
Lemma honest_job j : proposes j = false → honest (run_job j).
Proof.
  destruct j as [now_ms| |[m|ts]|from [id c|r idx]|]; try done; intros _;
    cbn [run_job handle_cluster_message handle_client_message];
    unfold leader_takeover, send_cluster_start_signals; honest.
  eapply honest_omnipaxos, mindful_replica. intros g owner. apply minds_handle.
Qed.

(** A leader promises what it gets when it executes the command. *)
Definition promise_of s (c : KVCommand.t) : speculation :=
  if decide (role s = Leader) then Some (Database.handle_command c (database s)).1 else None.

Lemma deadline_pure : pure (seq_paxos_call (zoom SequencePaxos.clock Clock.new_deadline) : M Self _).
Proof. unfold seq_paxos_call, Clock.new_deadline. pure. Qed.
Lemma state_call s :
  seq_paxos_call (gets SequencePaxos.get_state) s = (Val (SequencePaxos.get_state (replica s)), s).
Proof. by destruct s as [? ? ? ? [] ? ? ? ?]. Qed.

Lemma append_promised g s from id c u s' :
  append_to_log from id c s = (Val u, s') → private_command_id s + 1 < usize_mod →
  g !! private_command_id s = None → promised g s →
  private_command_id s' = private_command_id s + 1 ∧
  promised (<[private_command_id s := (c, promise_of s c)]> g) s'.
Proof.
  unfold append_to_log. intros (self & s0 & [= <- <-] & E)%bind_val_inv Hfit Hk Hp.
  apply bind_val_inv in E as (deadline & s1 & E1 & E).
  pose proof (deadline_pure s) as Hpure. rewrite E1 in Hpure. cbn in Hpure. subst s1.
  apply bind_val_inv in E as (next & s2 & E2 & E).
  apply bind_val_inv in E as (v & s3 & [= _ <-] & E). apply bind_val_inv in E as (st & s4 & E4 & E).
  rewrite state_call in E4. injection E4 as <- <-.
  apply bind_val_inv in E as ([r|err] & s5 & E5 & E); [|done].
  unfold lift in E2. rewrite wadd_exact in E2 by done. injection E2 as <- <-.
  set (cmd := {| Command.deadline := deadline |}) in E5.
  set (g' := <[private_command_id s := (c, promise_of s c)]> g).
  assert (Hp5 : promised g' s5 ∧ private_command_id s5 = private_command_id s + 1).
  { apply (promised_mono _ _ c (promise_of s c) _ Hk) in Hp as [[owner Hr] Ho].
    unfold zoom in E5. cbn in E5. unfold OmniPaxos.append, zoom in E5. fold (replica s) in E5.
    pose proof (minds_append (entered g') owner cmd
      (λ entry, (Database.handle_command (Command.kv_cmd entry) (database s)).1) (replica s) Hr) as Ha.
    destruct (SequencePaxos.append cmd _ (replica s)) as [o r']. injection E5 as -> <-.
    split; [|done]. split; [|exact Ho]. exists owner. cbn in Ha. apply Ha.
    unfold entered, g'. cbn. rewrite lookup_insert_eq. unfold promise_of, role, SequencePaxos.get_state.
    by destruct (SequencePaxos.state (replica s)).1. }
  destruct Hp5 as [Hp5 Hid5].
  assert (Hlast : honest (when (bool_decide ((SequencePaxos.get_state (replica s)).1 = Leader))
    (let* _ := handle_command c in ret tt) : M Self unit)) by honest.
  destruct (Hlast g' s5 u s' E Hp5) as [Hid Hp']. split; [congruence|done].
Qed.

(** *** Runs *)

(** Runs with all executions and with what has reached the connection to the proxy, as long as the
    numbers of commands do not wrap around. *)
Inductive numbered s0 : list execution → list ServerMessage.t → loop → Prop :=
  | numbered_start : numbered s0 [] (default [] (proxy_outbox s0)) (start s0)
  | numbered_event tr sent l ev l' :
      numbered s0 tr sent l → fits (server l) → private_command_id (server l) + 1 < usize_mod →
      exec ev l = Some l' →
      numbered s0 (tr ++ executions ev l l') (default sent (proxy_outbox (server l'))) l'.
Lemma numbered_runs s0 tr sent l : numbered s0 tr sent l → runs s0 tr l.
Proof. induction 1 as [|tr sent l ev l' _ IH Hfit _ E]; [constructor|]. by apply runs_event. Qed.
Lemma numbered_serves s0 tr sent l : numbered s0 tr sent l → serves s0 sent l.
Proof.
  induction 1 as [|tr sent l ev l' _ IH Hfit _ E]; [constructor|]. eapply serves_event; [done|apply Hfit|done].
Qed.

(** What executing [c] gives after the executions [before]. *)
Definition result_after (before : list execution) (c : KVCommand.t) : option (option string) :=
  match c with
  | KVCommand.Get key => Some (default None (last_write key (kv_of <$> before)))
  | _ => None
  end.
Definition executed_ahead (tr : list execution) (c : KVCommand.t) (result : option (option string)) : Prop :=
  ∃ before after, tr = before ++ Ahead c :: after ∧ result = result_after before c.

Lemma result_after_correct before c :
  (Database.handle_command c (Database.execute_all (kv_of <$> before) Database.new)).1 = result_after before c.
Proof. destruct c as [k v|k|k]; [done..|]. by rewrite database_reads_last_write. Qed.
Lemma executed_ahead_app tr tr' c result : executed_ahead tr c result → executed_ahead (tr ++ tr') c result.
Proof. intros (before & after & -> & Hr). exists before, (after ++ tr'). by rewrite <-app_assoc. Qed.

(** The promises are those of the run. *)
Definition accounted tr s : Prop := ∃ g, promised g s ∧ ∀ k c spec, g !! k = Some (c, spec) →
  k < private_command_id s ∧ ∀ result, spec = Some result → executed_ahead tr c result.

Lemma accounted_keep tr tr' s s' :
  accounted tr s → (∀ g, promised g s → private_command_id s' = private_command_id s ∧ promised g s') →
  accounted (tr ++ tr') s'.
Proof.
  intros (g & Hp & Hg) Hkeep. destruct (Hkeep g Hp) as [Hid Hp']. exists g. split; [done|].
  intros k c spec [Hk Hres]%Hg. rewrite Hid. split; [done|]. intros result Er. by apply executed_ahead_app, Hres.
Qed.

Lemma accounted_append tr from id c s a s' rest :
  run_job (FromClient from (ClientMessage.Append id c)) s = (Val a, s') →
  private_command_id s + 1 < usize_mod → database s = Database.execute_all (kv_of <$> tr) Database.new →
  accounted tr s → accounted (tr ++ (Ahead <$> on_arrival s c) ++ rest) s'.
Proof.
  intros (u & s1 & E & [= _ <-])%bind_val_inv Hfit Hdb (g & Hp & Hg). cbn [handle_client_message] in E.
  assert (Hk : g !! private_command_id s = None).
  { destruct (g !! private_command_id s) as [[c' spec]|] eqn:Ek; [|done]. apply Hg in Ek as [Hlt _]. lia. }
  destruct (append_promised g _ _ _ _ _ _ E Hfit Hk Hp) as [Hid Hp'].
  eexists. split; [exact Hp'|]. intros k c' spec. rewrite Hid.
  intros [[<- [= <- <-]]|[_ [Hlt Hres]%Hg]]%lookup_insert_Some.
  - split; [lia|]. unfold promise_of, on_arrival. case_decide; [|done]. intros result [= <-].
    exists tr, rest. split; [done|]. by rewrite Hdb, result_after_correct.
  - split; [lia|]. intros result Er. by apply executed_ahead_app, Hres.
Qed.
Lemma drop_proxy c s ms : proxy_outbox (drop_client c s) = Some ms → proxy_outbox s = Some ms.
Proof.
  unfold proxy_outbox, client_outbox, drop_client. cbn. destruct (decide (c = 1)) as [->|Hc].
  - rewrite lookup_alter_eq. by destruct (Network.client_connections _ !! _).
  - by rewrite lookup_alter_ne.
Qed.

Lemma accounted_exec tr ev l l' :
  private_command_id (server l) + 1 < usize_mod →
  database (server l) = Database.execute_all (kv_of <$> tr) Database.new →
  exec ev l = Some l' → accounted tr (server l) → accounted (tr ++ executions ev l l') (server l').
Proof.
  intros Hfit Hdb E Ha. destruct ev as [b| |e i|c]; cbn in E.
  - destruct (jobs l); [|done]. destruct (enabled _ _ _); [|done]. injection E as <-.
    eapply accounted_keep; [done|]. by intros g Hg.
  - unfold executions. destruct (jobs l) as [|j js]; [done|].
    destruct (run_job j (server l)) as [[r|f] s] eqn:Ej; [|done]. injection E as <-. rewrite next_server.
    cbn [server]. destruct (proposes j) eqn:Hj.
    + destruct j as [| | |from [id c|]|]; try done. by eapply accounted_append.
    + eapply accounted_keep; [done|]. intros g. by eapply honest_job.
  - unfold run_task in E. destruct (SequencePaxos.schedule _ _ _) as [r|] eqn:Es; [|done].
    injection E as <-. eapply accounted_keep; [done|]. intros g [[owner Hr] Ho]. split; [done|].
    split; [exact (schedule_vouched (entered g) owner e i _ _ Hr Es)|exact Ho].
  - injection E as <-. eapply accounted_keep; [done|]. intros g [Hr Ho]. split; [done|].
    split; [exact Hr|]. cbn. intros ms cmd hash spec idx Hms%drop_proxy. by apply Ho.
Qed.

Lemma accounted_fresh s : fresh s → accounted [] s.
Proof.
  intros Hf. exists ∅. split; [|by intros k c spec]. split.
  - destruct (fresh_started _ Hf) as (config & storage & clk & out & outc & _ & _ & _ & _ & E).
    eexists. by eapply with_vouched.
  - intros ms cmd hash spec idx Hms Hin. apply (proj2 (fresh_quiet _ Hf)) in Hms as ->.
    by apply elem_of_nil in Hin.
Qed.
Lemma numbered_accounted s0 tr sent l : fresh s0 → numbered s0 tr sent l → accounted tr (server l).
Proof.
  intros Hf. induction 1 as [|tr sent l ev l' Hrun IH Hfits Hfit E]; [by apply accounted_fresh|].
  apply numbered_runs in Hrun. destruct (runs_answered _ _ _ Hf Hrun) as [_ Ha].
  eapply accounted_exec; [done|apply Ha|done..].
Qed.

(** The results among the messages are results of executions. *)
Definition results_true tr (ms : list ServerMessage.t) : Prop := ∀ cmd hash result idx,
  ServerMessage.Ack cmd hash (Some result) idx ∈ ms → executed_ahead tr (Command.kv_cmd cmd) result.
Lemma accounted_results tr s ms : accounted tr s → proxy_outbox s = Some ms → results_true tr ms.
Proof.
  intros (g & [_ Ho] & Hg) Hms cmd hash result idx Hin.
  apply (Ho _ _ _ _ _ Hms), Hg in Hin as [_ Hres]. by apply Hres.
Qed.
Lemma numbered_results s0 tr sent l : fresh s0 → numbered s0 tr sent l → results_true tr sent.
Proof.
  intros Hf. induction 1 as [|tr sent l ev l' Hrun IH Hfits Hfit E].
  - destruct (proxy_outbox s0) as [ms|] eqn:Hms; [|by intros ? ? ? ? ?%elem_of_nil].
    by eapply accounted_results; [apply accounted_fresh|].
  - destruct (proxy_outbox (server l')) as [ms|] eqn:Hms; cbn.
    + eapply accounted_results; [|done]. eapply numbered_accounted; [done|]. by eapply numbered_event.
    + intros cmd hash result idx Hin. by eapply executed_ahead_app, IH.
Qed.

(** C6.  Speculations are executions.  In every run of a server, whatever its tasks do in whatever order:
    if an acknowledgement that was put on the connection to the proxy carries a result, then the
    server has executed the acknowledged command ahead of its log, and the result is that of this
    execution: for a [Get], what the last write before it has left, in the sequence of all
    executions.  No result gets to the acknowledgement of another command, although the requests
    wait in two buffers, change their deadlines and come back through oneshot channels. *)
Theorem speculations_are_executions s0 tr sent l cmd hash result idx :
  fresh s0 → numbered s0 tr sent l → ServerMessage.Ack cmd hash (Some result) idx ∈ sent →
  ∃ before after,
    tr = before ++ Ahead (Command.kv_cmd cmd) :: after ∧
    result = result_after before (Command.kv_cmd cmd).
Proof. intros Hf Hrun Hin. by eapply (numbered_results _ _ _ _ Hf Hrun). Qed.
End server.

(** ** The results that the proxy hands on *)

Section store.
Context {H : Type} `{Build, KeysIter, Hasher H, BinaryHeap, !BinaryHeapLaws, Oneshot Command.t,
  !OneshotLaws Command.t, Oneshot unit}.
Import Proxy.

(** The servers behind a proxy, with their executions and what of their acknowledgements has
    reached it. *)
Definition accountable (n : N) (tr : list label) (executed : N → list execution)
    (final : N → Server.loop) : Prop :=
  ∀ k, k < n → ∃ s0 sent, fresh s0 ∧ numbered s0 (executed k) sent (final k) ∧
    omap is_ack (omap (read_by k) tr) ⊆+ omap is_ack sent.

Lemma is_ack_elem m (ms : list ServerMessage.t) : m ∈ omap is_ack ms → m ∈ ms.
Proof. intros (m' & Hm & Ha)%list_elem_of_omap. destruct m'; try done. by injection Ha as <-. Qed.

(** C2.  Results of the proxy are executions.  Take servers in any of their runs behind a proxy in any of
    its runs, over connections that may lose and reorder messages: if the proxy sends a client a
    reply with a result, then the server of the connection that completed the quorum has the
    command at the acknowledged position of its log, has executed it ahead of its log, and the
    result is that of this execution. *)
Theorem results_of_the_proxy_are_executions cfg p0 tr p executed final i cmd hash result idx :
  len (nodes cfg) < usize_mod → new cfg = Val p0 → run p0 tr p →
  accountable (len (nodes cfg)) tr executed final →
  Replied i (ServerMessage.Ack cmd hash (Some result) idx) ∈ tr →
  i < len (nodes cfg) ∧
  Replica.log (replica (Server.server (final i))) !! N.to_nat (idx - 1) = Some cmd ∧
  executed_ahead (executed i) (Command.kv_cmd cmd) result.
Proof.
  intros Hn Hnew Hr Hacc Hin. set (a := mkAck cmd hash (Some result) idx).
  destruct (counts_settled _ _ _ (counts_run _ _ _ _ (counts_new _ _ Hnew) Hr) _ i a Hin) as [Htook _];
    [by split|].
  pose proof (took_in_layout _ _ _ _ _ _ _ eq_refl Hn Hnew Hr Htook) as Hi. split; [done|].
  destruct (Hacc i Hi) as (s0 & sent & Hf & Hrun & Hsent).
  pose proof (took_was_read _ _ _ _ _ _ Hnew Hr Htook) as Hread.
  eapply elem_of_submseteq in Hread; [|exact Hsent]. split.
  - destruct (serves_sound _ _ _ Hf (numbered_serves _ _ _ _ Hrun)) as (out & Hs & Hpre).
    apply (sent_is_true _ _ _ a (fresh_started _ Hf) Hs). by eapply elem_of_prefix.
  - eapply (numbered_results _ _ _ _ Hf Hrun). by apply is_ack_elem.
Qed.
End store.
