(* ===== verification/Delivery.v ===== *)
(** * From the log of a server to its clients

    A run of a server, and a run of the link that carries its answers to a client: what the client
    receives are the answers to the first of its commands in the log. *)

From S2P Require Import Prelude Util Codecs Ballots Config Time StorageApi MemoryStorage.
From S2P Require Import InternalStorage.
From S2P Require Import Messages Ble Collections Clock Buffers SequencePaxos Replica OmniPaxos.
From S2P Require Import Acks Kv Network Framing Connections Links Server ServerRuns Answers.

Section delivery.
Context {H : Type} `{Build, Hasher H, BinaryHeap, Oneshot Command.t, Oneshot unit}.
Context `{LengthDelimitedLaws, Bincode ServerMessage.t bytes, !BincodeLaws ServerMessage.t bytes}.
Import Server.

Abbreviation Backend := (MemoryStorage.t Command.t NoSnapshot).
Abbreviation Replica := (SequencePaxos.t (InternalStorage.t Backend Command.t)
  (Buffers.t Command.t (chan Command.t) (chans Command.t)) (Clock.t (chan unit) (chans unit))
  (list (Message Command.t)) (task Command.t (chan Command.t) (chan unit))).
Implicit Types s : Server.t (OmniPaxos.t Replica).

(** The link between the connection of client [c] on the server and the client. *)
Definition serves_client (batch client_batch : N) (c : ClientId) s (L : Link.t ServerMessage.t) : Prop :=
  ∃ ms, client_outbox (network s) c = Some ms ∧
    Link.reached ClientConnection ServerConnection batch client_batch ms L.

Lemma prefix_omap {A B} (f : A → option B) (l k : list A) :
  l `prefix_of` k → omap f l `prefix_of` omap f k.
Proof. intros [x ->]. rewrite omap_app. by eexists. Qed.

(** C5.  Clients receive the answers of the log.  Whatever the order of events on the server, in the tasks of
    the connection and in TCP: the answers that have been put into the channel of a client are the
    first of those that the sequence of executions of its server tells it, so that they answer the
    first of its commands in the decided prefix of the log, each once and in the order of the log;
    every read has returned the last write executed before it. *)
Theorem clients_receive_the_answers_of_the_log s0 tr l batch client_batch c L :
  fresh s0 → runs s0 tr l → serves_client batch client_batch c (server l) L →
  let s := server l in
  let received := Reader.forwarded (Link.reader L) in
  omap answer received `prefix_of` told (id s) c [] tr ∧
  omap answer_id received `prefix_of` Command.id <$> filter (own (id s) c)
    (take (N.to_nat (current_decided_idx s)) (Replica.log (replica s))).
Proof.
  intros Hf Hr (ms & Ems & HL). destruct (runs_answered _ _ _ Hf Hr) as [_ [_ _ Hdec Ha]].
  destruct (link_delivers_in_order _ _ _ _ _ _ HL) as [_ Hpre]. specialize (Hpre eq_refl eq_refl).
  split.
  - rewrite <-(Ha _ _ Ems). by apply prefix_omap.
  - change (take _ _) with (executed (server l)). rewrite <-Hdec, <-(told_ids _ _ []), <-(Ha _ _ Ems), <-answer_ids. by apply prefix_omap.
Qed.
End delivery.
