(* ===== verification/ServerChecks.v ===== *)
(** * Runs of servers and clients

    A server of the cluster of build_scripts, a client, and the runs that show that the hypotheses
    of the theorems on commands, networks, servers and clients can hold. *)

From S2P Require Import Prelude Util Ballots Config Time StorageApi MemoryStorage InternalStorage.
From S2P Require Import StorageChecks Messages Ble Collections Clock Buffers SequencePaxos.
From S2P Require Import OmniPaxos.
From S2P Require Import Kv Client Network Server.

#[export] Existing Instances list_heap dev_build map_oneshot.

(** ** Commands *)

Lemma replay_repairs_database_witness :
  Database.execute_all [KVCommand.Put "x" "1"; KVCommand.Put "x" "2"]
    (Database.execute_all [KVCommand.Put "x" "2"; KVCommand.Put "x" "1"] Database.new) =
  Database.execute_all [KVCommand.Put "x" "1"; KVCommand.Put "x" "2"] Database.new.
Proof. apply replay_repairs_database. set_solver. Defined.

Definition backend_of (l : list Command.t) : MemoryStorage.t Command.t NoSnapshot :=
  MemoryStorage.default <| MemoryStorage.log := l |>.
Lemma history_hash_ignores_local_fields_witness :
  (MemoryStorage.history_hash (backend_of [cmd 3 (KVCommand.Get "x") 5%Z])).1 =
  (MemoryStorage.history_hash (backend_of
    [(cmd 3 (KVCommand.Get "x") 9%Z) <| Command.private_id := 8 |>])).1.
Proof. apply history_hash_ignores_local_fields. reflexivity. Defined.

(** ** The network *)

Definition network0 : Network.t := Network.unconnected 1 [1; 2; 3] ["s1"; "s2"; "s3"]%string.
Definition connections : list NewConnection := [ToClient 1; ToPeer 3; ToPeer 2].
Definition connected_network : Network.t := Eval vm_compute in
  (Network.initialize_connections 1 connections network0).2.

Lemma initialize_connects_everybody_witness :
  returns (Network.initialize_connections 1 connections) network0 (λ r s',
    r = true → ∀ p, p ∈ Network.peers s' → peer_connected s' p).
Proof.
  eapply returns_mono.
  - apply (initialize_connects_everybody 1 connections network0); [reflexivity|].
    unfold connections. intros p Hin. vm_compute.
    apply elem_of_cons in Hin as [?|Hin]; [done|].
    apply elem_of_cons in Hin as [[= ->]|Hin]; [right; left|].
    apply list_elem_of_singleton in Hin as [= ->]. left.
  - intros r s' (_ & _ & Hr) E. by apply Hr.
Defined.
Example initialization_ends :
  (Network.initialize_connections 1 connections network0).1 = Val true.
Proof. vm_compute. reflexivity. Qed.

Lemma send_to_cluster_routes_witness :
  returns (Network.send_to_cluster 3 (ClusterMessage.LeaderStartSignal 7%Z)) connected_network
    (λ _ s', peer_outbox s' 3 = Some [ClusterMessage.LeaderStartSignal 7%Z] ∧
             peer_outbox s' 2 = Some []).
Proof.
  eapply returns_mono.
  - apply (send_to_cluster_routes 3 (ClusterMessage.LeaderStartSignal 7%Z) connected_network).
    reflexivity.
  - intros _ s' (_ & _ & Hout). split; rewrite Hout; vm_compute; reflexivity.
Defined.

(** ** The server *)

Definition kv_config (id : N) : OmniPaxosKVConfig := {|
  local := {| srv_location := None; srv_server_id := id; srv_listen_address := "127.0.0.1";
              srv_listen_port := 8000; num_clients := 1; srv_output_filepath := "out";
              srv_clock := None |};
  cluster := {| kv_nodes := [1; 2; 3]; node_addrs := []; initial_leader := 1;
                initial_flexible_quorum := Some (mkFlexibleQuorum 2 2) |}
|}.

Abbreviation CommandBackend := (MemoryStorage.t Command.t NoSnapshot).
Abbreviation KVServer := (Server.t (OmniPaxos.t (SequencePaxos.t
  (InternalStorage.t CommandBackend Command.t)
  (Buffers.t Command.t (chan Command.t) (chans Command.t)) (Clock.t (chan unit) (chans unit))
  (list (Message Command.t)) (task Command.t (chan Command.t) (chan unit))))).

Definition no_server : KVServer :=
  Server.mk 0 0 Database.new connected_network (OmniPaxos.mk (SequencePaxos.mk
      (InternalStorage.mk MemoryStorage.default (StateCache.new 0)) Buffers.new
      (clock_from_config 0 None 0 0 0%Z) 0 []
      (Follower, NoPhase) 0 0 (LeaderState_with Ballot.default 0 (Quorum.Majority 0)) None ∅ [] [])
      (Ble.mk 0 0 [] 0 [] [] Ballot.default Ballot.default false (Quorum.Majority 0) [])
      (LogicalClock.with_ 0)) 0 [] [] (kv_config 0).
Definition new_server (id : N) : outcome KVServer :=
  Server.new (kv_config id) None 1 3 1 2 0%Z connected_network.
Definition server2 : KVServer := Eval vm_compute in
  match new_server 2 with Val s => s | Panic _ => no_server end.
Example server2_starts : new_server 2 = Val server2.
Proof. vm_compute. reflexivity. Qed.

Definition e0 : SequencePaxos.env :=
  {| SequencePaxos.gen_bool := true; SequencePaxos.now := 0%Z |}.
Definition put (n : N) : Command.t :=
  (cmd n (KVCommand.Put "k" "v") 5%Z) <| Command.coordinator_id := 2 |>.

(** The server with two entries, of which the first is decided. *)
Definition fill_storage : M (InternalStorage.t CommandBackend Command.t) (StorageResult unit) :=
  let? _ := InternalStorage.append_entries_and_get_accepted_idx [put 0] in
  let? _ := InternalStorage.append_entries_and_get_accepted_idx [put 1] in
  InternalStorage.set_decided_idx 1.
Definition deciding_server : KVServer := Eval vm_compute in
  (Server.seq_paxos_call (zoom SequencePaxos.internal_storage fill_storage) server2).2.

Lemma handle_decided_entries_executes_suffix_witness :
  returns Server.handle_decided_entries deciding_server (λ _ s',
    Server.current_decided_idx s' = 1 ∧
    client_outbox (Server.network s') 1 = Some [ServerMessage.Write 0]).
Proof.
  eapply returns_mono.
  - apply (handle_decided_entries_executes_suffix deciding_server); [|reflexivity|discriminate].
    repeat split; first [reflexivity|vm_compute; congruence].
  - intros _ s' (Hcur & _ & _ & Hout). split; [exact Hcur|]. rewrite Hout. vm_compute. reflexivity.
Defined.

(** A follower that is told to confirm the first entry before it has one: the next message of
    another server makes it read entries that are not there, and it panics. *)
Definition confirmed_early : KVServer := Eval vm_compute in
  match Server.run_task e0 2 (Server.handle_client_message 1 (ClientMessage.Ack (put 0) 1) server2).2 with
  | Some s => s
  | None => no_server
  end.
Definition heartbeat : ClusterMessage.t := ClusterMessage.OmniPaxosMessage
  (BLE (mkBLEMessage 1 2 (Request (mkHeartbeatRequest 1)))).
Theorem confirm_ahead_of_log_panics :
  Server.run_task e0 2
    (Server.handle_client_message 1 (ClientMessage.Ack (put 0) 1) server2).2 = Some confirmed_early ∧
  (Server.handle_cluster_message heartbeat confirmed_early).1 = Panic UnwrapNone.
Proof. split; vm_compute; reflexivity. Qed.

(** Confirmations of the indices 2 and 1 that arrive in this order: the decided index goes back. *)
Definition two_confirms : KVServer := Eval vm_compute in
  ((let* _ := Server.handle_client_message 1 (ClientMessage.Ack (put 1) 2) in
    Server.handle_client_message 1 (ClientMessage.Ack (put 0) 1)) deciding_server).2.
Definition decided_of (s : KVServer) : N :=
  StateCache.decided_idx (InternalStorage.state_cache (storage_of s)).
Theorem decided_index_goes_back :
  (decided_of <$> Server.run_task e0 2 two_confirms) = Some 2 ∧
  (decided_of <$> (Server.run_task e0 2 two_confirms ≫= Server.run_task e0 2)) = Some 1.
Proof. split; vm_compute; reflexivity. Qed.

(** The follower executes a command when it is confirmed, and again once it is decided. *)
Theorem follower_executes_twice :
  let s := (Server.handle_client_message 1
    (ClientMessage.Ack ((put 0) <| Command.kv_cmd := KVCommand.Delete "k" |>) 1) deciding_server).2 in
  Database.db (Server.database s) = ∅ ∧
  Database.db (Server.database (Server.handle_decided_entries s).2) !! "k"%string = Some "v"%string.
Proof. split; vm_compute; reflexivity. Qed.

(** ** The client *)

(** Numbers in place of floats. *)
#[export] Instance N_float : Float := {| float := N; float_gt := λ a b, b <? a |}.

Definition an_interval (requests_per_sec : N) : RequestInterval := {|
  duration_sec := 30; Client.requests_per_sec := requests_per_sec; read_ratio := 25
|}.
Lemma request_delay_meets_rate_witness :
  match get_request_delay (an_interval 300) with
  | Val d => d ≠ 0 ∧ 300 * d ≤ from_secs 1
  | Panic _ => False
  end.
Proof.
  pose proof (request_delay_meets_rate (an_interval 300) ltac:(discriminate)) as Hd.
  change (get_request_delay (an_interval 300)) with (Val (from_millis 3)) in *.
  split; apply Hd.
Defined.

Definition three_requests : ClientData.t := Eval vm_compute in
  ClientData.new_request true 3%Z (ClientData.new_request false 2%Z
    (ClientData.new_request true 1%Z ClientData.new)).
Lemma new_response_forgets_later_requests_witness :
  returns (ClientData.new_response 0 9%Z) three_requests (λ _ s',
    ClientData.request_count three_requests = 3 ∧ ClientData.request_count s' = 1).
Proof.
  eapply returns_mono; [apply (new_response_forgets_later_requests 0 9%Z three_requests);
    vm_compute; reflexivity|].
  intros _ s' (Hn & _). by split.
Defined.

Definition client_config : ClientConfig := {|
  cl_location := "local-1"; server_id := 1; server_address := "127.0.0.1:8001";
  requests := [an_interval 5]; sync_time := None; summary_filepath := ""; output_filepath := ""
|}.
Definition loop0 : Client.loop := Eval vm_compute in
  match Client.start client_config with
  | Val (Some l) => l
  | _ => Client.mkLoop (Client.new client_config) [] 0 0
  end.
Definition a_write : Client.branch := Client.RequestTick 30 1%Z false.
Definition a_read : Client.branch := Client.RequestTick 20 2%Z false.
Definition loop1 : Client.loop := Eval vm_compute in (Client.iteration a_write loop0).2.
Definition loop2 : Client.loop := Eval vm_compute in
  ((let* _ := Client.iteration a_write in Client.iteration a_read) loop0).2.

Lemma loop0_starts : Client.start client_config = Val (Some loop0).
Proof. vm_compute. reflexivity. Qed.
Lemma loop2_runs : Client.runs loop0 ([a_write] ++ [a_read]) loop2.
Proof.
  apply (Client.runs_branch _ [a_write] loop1); [|vm_compute; reflexivity].
  apply (Client.runs_branch _ [] loop0); [apply Client.runs_start|vm_compute; reflexivity].
Qed.

Lemma client_never_reads_its_writes_witness :
  [ClientMessage.Append 0 (KVCommand.Put "0" "0"); ClientMessage.Append 1 (KVCommand.Get "1")]
    !! 1%nat ≠ Some (ClientMessage.Append 1 (KVCommand.Get "0")) ∧
  ∃ ws, [ClientMessage.Append 0 (KVCommand.Put "0" "0"); ClientMessage.Append 1 (KVCommand.Get "1")] =
    numbered ws ∧ len ws = Client.next_request_id (Client.client loop2).
Proof.
  apply (client_never_reads_its_writes client_config loop0 ([a_write] ++ [a_read]) loop2
    [ClientMessage.Append 0 (KVCommand.Put "0" "0"); ClientMessage.Append 1 (KVCommand.Get "1")]
    0 1 "0" "0").
  - apply loop0_starts.
  - apply loop2_runs.
  - vm_compute. reflexivity.
  - vm_compute. reflexivity.
  - reflexivity.
Defined.

(** Two requests were sent, no response has arrived, and the client ends. *)
Lemma client_ends_with_its_last_interval_witness :
  ∃ l', Client.iteration Client.NextInterval loop2 = (Val false, l') ∧
        ClientData.response_count (Client.client_data (Client.client l')) = 0.
Proof.
  destruct (client_ends_with_its_last_interval client_config loop0 ([a_write] ++ [a_read]) loop2)
    as (_ & l' & E & Hc);
    [apply loop0_starts|apply loop2_runs|vm_compute; reflexivity|reflexivity|].
  exists l'. split; [exact E|exact Hc].
Defined.
