(* ===== verification/StoreChecks.v ===== *)
(** * A run of the whole store

    Three servers and the proxy, with the leader's and one follower's acknowledgement of the same
    request: the hypotheses of [confirmations_share_one_history] can hold.  The follower is then
    told to execute the request, and answers it, as [clients_are_answered_in_log_order] says. *)

From S2P Require Import Prelude Util Ballots Config Time StorageApi MemoryStorage InternalStorage.
From S2P Require Import StorageChecks Messages Ble Collections Clock Buffers SequencePaxos Replica.
From S2P Require Import Acks OmniPaxos Kv Network Server ServerChecks Proxy ProxyChecks System.
From S2P Require Import SystemChecks ServerRuns Answers.

(** ** Runs of a server *)

Abbreviation Loop := (Server.loop (H3 := map_oneshot) (H4 := map_oneshot)).

Definition step_of (ev : Server.event) (x : list ServerMessage.t * Loop) :
    option (list ServerMessage.t * Loop) :=
  if len (Replica.log (replica (Server.server x.2))) <? isize_max then
    l' ← Server.exec ev x.2; Some (default x.1 (proxy_outbox (Server.server l')), l')
  else None.
Definition steps_of (evs : list Server.event) (x : list ServerMessage.t * Loop) :
    option (list ServerMessage.t * Loop) :=
  foldl (λ o ev, o ≫= step_of ev) (Some x) evs.

Lemma steps_of_serves s0 evs x :
  steps_of evs (default [] (proxy_outbox s0), Server.start s0) = Some x → serves s0 x.1 x.2.
Proof.
  revert x. induction evs as [|ev evs IH] using rev_ind; intros x E.
  - injection E as <-. constructor.
  - unfold steps_of in E. rewrite foldl_app in E. apply bind_Some in E as (y & Ey & E).
    apply IH in Ey. unfold step_of in E.
    destruct (N.ltb_spec (len (Replica.log (replica (Server.server y.2)))) isize_max); [|done].
    apply bind_Some in E as (l' & El & [= <-]). by eapply serves_event.
Qed.

(** ** Three servers *)

Definition store_config (id : N) : OmniPaxosKVConfig := {|
  local := {| srv_location := None; srv_server_id := id; srv_listen_address := "127.0.0.1";
              srv_listen_port := 8000; num_clients := 1; srv_output_filepath := "out";
              srv_clock := Some (mkClockConfig 10 25) |};
  cluster := {| kv_nodes := [1; 2; 3]; node_addrs := ["s1"; "s2"; "s3"]%string; initial_leader := 2;
                initial_flexible_quorum := None |}
|}.
Definition connections_of (id : N) : list NewConnection :=
  ToClient 1 :: (ToPeer <$> filter (λ p, p ≠ id) [1; 2; 3]).
Definition network_of (id : N) : Network.t :=
  (Network.initialize_connections 1 (connections_of id)
    (Network.unconnected id [1; 2; 3] ["s1"; "s2"; "s3"]%string)).2.
Definition made (id : N) : outcome KVServer :=
  Server.new (store_config id) None 1 3 1 2 0%Z (network_of id).
Definition server_state (id : N) : KVServer := match made id with Val s => s | Panic _ => no_server end.
Definition first_server : KVServer := Eval vm_compute in server_state 1.
Definition second_server : KVServer := Eval vm_compute in server_state 2.

Lemma first_is_fresh : fresh first_server.
Proof.
  exists (store_config 1), None, 1, 3, 1, 2, 0%Z, (connections_of 1), (network_of 1).
  split; vm_compute; reflexivity.
Qed.
Lemma second_is_fresh : fresh second_server.
Proof.
  exists (store_config 2), None, 1, 3, 1, 2, 0%Z, (connections_of 2), (network_of 2).
  split; vm_compute; reflexivity.
Qed.

(** ** One request *)

Definition a_put : KVCommand.t := KVCommand.Put "k" "v".
Definition turn (i : nat) : Server.event := Server.ETask e0 i.
Definition leads : list Server.event :=
  [Server.EBranch (Server.LeaderTakeover 0%Z); Server.EJob].
Definition handles_request : list Server.event :=
  [Server.EBranch (Server.ClientMessages [(1, ClientMessage.Append 7 a_put)]);
   Server.EJob; Server.EJob].
(** The request waits until its deadline of 20 ms, is appended and acknowledged. *)
Definition reaches_the_log : list Server.event :=
  [turn 2; turn 0; turn 2; turn 0] ++ replicate 19 (turn 2) ++ [turn 3; turn 1; turn 0; turn 2; turn 2].
Definition hands_over : list Server.event :=
  [Server.EBranch (Server.ClusterMessages [(3, heartbeat)]); Server.EJob; Server.EJob].
Definition follower_run : list Server.event := handles_request ++ reaches_the_log ++ hands_over.
Definition leader_run : list Server.event := leads ++ follower_run.

Definition run_of (evs : list Server.event) (s0 : KVServer) : list ServerMessage.t * Loop :=
  match steps_of evs (default [] (proxy_outbox s0), Server.start s0) with
  | Some x => x
  | None => ([], Server.start s0)
  end.
Lemma run_of_serves evs s0 :
  bool_decide (is_Some (steps_of evs (default [] (proxy_outbox s0), Server.start s0))) = true →
  serves s0 (run_of evs s0).1 (run_of evs s0).2.
Proof.
  intros [x E]%bool_decide_eq_true. unfold run_of. rewrite E. by eapply steps_of_serves.
Qed.

Definition follower : list ServerMessage.t * Loop := run_of follower_run first_server.
Definition leader : list ServerMessage.t * Loop := run_of leader_run second_server.
Lemma follower_serves : serves first_server follower.1 follower.2.
Proof. apply run_of_serves. vm_compute. reflexivity. Qed.
Lemma leader_serves : serves second_server leader.1 leader.2.
Proof. apply run_of_serves. vm_compute. reflexivity. Qed.

Definition request (coordinator : NodeId) : Command.t := {|
  Command.client_id := 1; Command.coordinator_id := coordinator; Command.id := 7;
  Command.private_id := 0; Command.deadline := 20000000%Z; Command.kv_cmd := a_put
|}.
Definition from_leader : ack := mkAck (request 2) 9 (Some None) 1.
Definition from_follower : ack := mkAck (request 1) 9 None 1.
Example both_acknowledge :
  leader.1 = [ack_message from_leader] ∧ follower.1 = [ack_message from_follower].
Proof. split; vm_compute; reflexivity. Qed.
Lemma both_have_logged :
  Replica.log (replica (Server.server leader.2)) = [request 2] ∧
  Replica.log (replica (Server.server follower.2)) = [request 1].
Proof. split; vm_compute; reflexivity. Qed.

(** ** Two requests with the same deadline

    The leader executes a command speculatively when it arrives.  Here a read arrives before a write, and
    the task of the write appends first: the log has the write before the read, the read is acknowledged
    at this position, and its result is the one without the write. *)

Definition a_get : KVCommand.t := KVCommand.Get "k".
Definition read_before_write : list Server.event :=
  [Server.EBranch (Server.ClientMessages [(1, ClientMessage.Append 7 a_get); (1, ClientMessage.Append 8 a_put)]);
   Server.EJob; Server.EJob; Server.EJob].
Definition write_overtakes : list Server.event :=
  [turn 2; turn 2; turn 0; turn 3; turn 0] ++ replicate 19 (turn 3) ++
  [turn 4; turn 2; turn 3; turn 3; turn 2; turn 4; turn 2; (* both are released *)
   turn 1; turn 3; turn 3; turn 0; turn 2; turn 2].
Definition racing_leader : list ServerMessage.t * Loop :=
  run_of (leads ++ read_before_write ++ write_overtakes ++ hands_over) second_server.
Definition the_write : Command.t :=
  (request 2) <| Command.id := 8 |> <| Command.private_id := 1 |>.
Definition the_read : Command.t := (request 2) <| Command.kv_cmd := a_get |>.
Theorem speculation_ignores_the_log :
  serves second_server racing_leader.1 racing_leader.2 ∧
  Replica.log (replica (Server.server racing_leader.2)) = [the_write; the_read] ∧
  racing_leader.1 = [ServerMessage.Ack the_write 10 (Some None) 1;
                     ServerMessage.Ack the_read 20 (Some (Some None)) 2] ∧
  (Database.handle_command a_get (Database.handle_command a_put Database.new).2).1 = Some (Some "v"%string).
Proof.
  split; [apply run_of_serves; vm_compute; reflexivity|]. split_and!; vm_compute; reflexivity.
Qed.

(** ** The proxy: the leader is at the index 1, the follower at the index 2 *)

Definition final (k : N) : Loop :=
  if k =? 1 then leader.2 else if k =? 2 then follower.2 else Server.start first_server.
Definition store_run : list Proxy.event := connected ++
  [Proxy.EActorRead 1 (Some (ack_message from_leader)); Proxy.EDeliver 1;
   Proxy.EActorRead 2 (Some (ack_message from_follower)); Proxy.EDeliver 2]
  ++ handler 1 3 ++ handler 2 8.
Definition store_state : Proxy.t := Eval vm_compute in (outcome_of store_run).1.
Definition store_trace : list Proxy.label := Eval vm_compute in (outcome_of store_run).2.
Lemma store_runs : Proxy.run proxy0 store_trace store_state.
Proof. apply (outcome_run store_run). vm_compute. by eexists. Qed.

Lemma store_deployed : deployed 3 store_trace final.
Proof.
  split.
  - intros k Hk. apply (small_cases k); [done|..].
    + exists first_server, []. split_and!; [exact first_is_fresh|apply serves_start|].
      vm_compute. constructor.
    + exists second_server, leader.1. split_and!; [exact second_is_fresh|exact leader_serves|].
      rewrite (proj1 both_acknowledge). vm_compute. reflexivity.
    + exists first_server, follower.1. split_and!; [exact first_is_fresh|exact follower_serves|].
      rewrite (proj2 both_acknowledge). vm_compute. reflexivity.
  - assert (Hlog : ∀ k, k < 3 → ∀ x, x `prefix_of` Replica.log (replica (Server.server (final k))) →
      x = [] ∨ ∃ c, x = [request c]).
    { intros k Hk x. apply (small_cases k); [done|..].
      - change (x `prefix_of` [] → x = [] ∨ ∃ c, x = [request c]). intros ->%prefix_nil_inv. by left.
      - cbn [final N.eqb Pos.eqb]. rewrite (proj1 both_have_logged).
        intros [?|?]%prefix_of_one; eauto.
      - cbn [final N.eqb Pos.eqb]. rewrite (proj2 both_have_logged).
        intros [?|?]%prefix_of_one; eauto. }
    intros k k' x y Hk Hk' Hx Hy E.
    destruct (Hlog k Hk x Hx) as [->|[c ->]], (Hlog k' Hk' y Hy) as [->|[c' ->]];
      [reflexivity|vm_compute in E; discriminate E|vm_compute in E; discriminate E|reflexivity].
Qed.

Lemma confirmations_share_one_history_witness :
  ∃ history : list (CommandId * KVCommand.t), history !! 0%nat = Some (7, a_put) ∧
    ∃ Q : gset N, 2 ≤ N.of_nat (size Q) ∧ ∀ k, k ∈ Q → take 1 history `prefix_of`
      hashed_part <$> Replica.log (replica (Server.server (final k))).
Proof.
  destruct (confirmations_share_one_history proxy_config proxy0 store_trace store_state final)
    as (history & Hh).
  - apply proxy_small.
  - reflexivity.
  - apply proxy0_new.
  - exact store_runs.
  - exact store_deployed.
  - destruct (Hh (Proxy.Replied 2 (ack_message from_follower)) 2 from_follower) as (_ & Hl & Q & HQ & Hall).
    { unfold store_trace. set_solver. }
    { split; reflexivity. }
    exists history. split; [exact Hl|]. exists Q. split; [exact HQ|]. intros k Hk. apply (Hall k Hk).
Defined.

(** ** The follower is told that its entry is confirmed *)

Definition reach_step (ev : Server.event) (l : Loop) : option Loop :=
  if bool_decide (len (Replica.log (replica (Server.server l))) < isize_max ∧
    StateCache.decided_idx (InternalStorage.state_cache (storage_of (Server.server l))) < usize_mod)
  then Server.exec ev l else None.
Definition trace_step (ev : Server.event) (x : list execution * Loop) :
    option (list execution * Loop) :=
  l' ← reach_step ev x.2; Some (x.1 ++ executions ev x.2 l', l').
Definition trace_all (evs : list Server.event) (s0 : KVServer) : option (list execution * Loop) :=
  foldl (λ o ev, o ≫= trace_step ev) (Some ([], Server.start s0)) evs.
Lemma trace_all_runs s0 evs x : trace_all evs s0 = Some x → runs s0 x.1 x.2.
Proof.
  revert x. induction evs as [|ev evs IH] using rev_ind; intros x E.
  - injection E as <-. constructor.
  - unfold trace_all in E. rewrite foldl_app in E. apply bind_Some in E as (y & E1 & E).
    apply IH in E1. apply bind_Some in E as (l' & E & [= <-]). unfold reach_step in E.
    case_bool_decide; [|done]. by eapply runs_event.
Qed.
Definition trace_of (evs : list Server.event) (s0 : KVServer) : list execution * Loop :=
  default ([], Server.start s0) (trace_all evs s0).
Lemma trace_of_runs evs s0 : runs s0 (trace_of evs s0).1 (trace_of evs s0).2.
Proof.
  unfold trace_of. destruct (trace_all evs s0) eqn:E; [by eapply trace_all_runs|constructor].
Qed.

(** The confirmation, the task that sets the decided index, and a message of another server. *)
Definition confirms : list Server.event :=
  [Server.EBranch (Server.ClientMessages [(1, ClientMessage.Ack (request 1) 1)]);
   Server.EJob; Server.EJob; turn 2;
   Server.EBranch (Server.ClusterMessages [(3, heartbeat)]); Server.EJob; Server.EJob].
Definition answers_run : list execution * Loop := trace_of (follower_run ++ confirms) first_server.
Definition answering : Loop := answers_run.2.
Example answering_outbox :
  client_outbox (Server.network (Server.server answering)) 1 =
  Some [ack_message from_follower; ServerMessage.Write 7].
Proof. vm_compute. reflexivity. Qed.

Lemma clients_are_answered_in_log_order_witness :
  [7] = Command.id <$> filter (own 1 1)
    (take (N.to_nat (Server.current_decided_idx (Server.server answering)))
      (Replica.log (replica (Server.server answering)))).
Proof.
  apply (proj2 (clients_are_answered_in_log_order first_server answering first_is_fresh
    (runs_reaches _ _ _ (trace_of_runs _ _))) 1 _ answering_outbox).
Defined.

(** The follower executes the write when it is confirmed, and again when it is decided. *)
Example answers_trace : answers_run.1 = [Ahead a_put; Decision (request 1)].
Proof. vm_compute. reflexivity. Qed.

(** Then a read arrives, is logged, confirmed and decided. *)
Definition next_read : Command.t := {|
  Command.client_id := 1; Command.coordinator_id := 1; Command.id := 8; Command.private_id := 1;
  Command.deadline := 40200000%Z; Command.kv_cmd := a_get |}.
Definition reads_next : list Server.event :=
  [Server.EBranch (Server.ClientMessages [(1, ClientMessage.Append 8 a_get)]); Server.EJob; Server.EJob] ++
  (turn <$> [1; 1; 1; 2; 0] ++ replicate 4 2 ++ replicate 3 3 ++ replicate 15 2 ++
            [3; 1; 0; 1; 1; 2])%nat ++
  [Server.EBranch (Server.ClientMessages [(1, ClientMessage.Ack next_read 2)]);
   Server.EJob; Server.EJob; turn 2;
   Server.EBranch (Server.ClusterMessages [(3, heartbeat)]); Server.EJob; Server.EJob].
Definition reading_run : list execution * Loop :=
  trace_of (follower_run ++ confirms ++ reads_next) first_server.
Example reading_trace : reading_run.1 =
  [Ahead a_put; Decision (request 1); Ahead a_get; Decision next_read].
Proof. vm_compute. reflexivity. Qed.

Lemma reading_settled : settled reading_run.1.
Proof.
  rewrite reading_trace. intros cmd key before after E Hget b1 a b2 -> Hw.
  destruct b1 as [|e1 [|e2 [|e3 [|e4 b1]]]]; cbn in E; try discriminate.
  - injection E as <- E. exists (request 1). split.
    + destruct b2; injection E as <- E; [|set_solver]. by subst.
    + done.
  - injection E as _ _ <- E. by vm_compute in Hw.
  - injection E as _ _ _ _ E. by destruct b1.
Qed.
Example reading_outbox :
  (λ ms : list ServerMessage.t, omap answer ms) <$>
    client_outbox (Server.network (Server.server reading_run.2)) 1 =
  Some [ServerMessage.Write 7; ServerMessage.Read 8 (Some "v"%string)].
Proof. vm_compute. reflexivity. Qed.

Lemma reads_return_the_last_write_witness :
  [ServerMessage.Write 7; ServerMessage.Read 8 (Some "v"%string)] =
  told 1 1 [] (Decision <$> [request 1; next_read]).
Proof.
  destruct (reads_return_the_last_write first_server reading_run.1 reading_run.2 first_is_fresh
    (trace_of_runs _ _)) as [_ Ha].
  pose proof reading_outbox as Eo.
  destruct (client_outbox (Server.network (Server.server reading_run.2)) 1) as [ms|] eqn:E; [|discriminate Eo].
  injection Eo as <-. exact (proj2 (Ha 1 ms E) reading_settled).
Defined.

(** ** A read of what is in no log

    The leader has a read in its log.  Before it is confirmed a write arrives, and is executed at
    once; then the read is decided, and answered with this write, which is not in the log. *)

Definition reads : list Server.event :=
  [Server.EBranch (Server.ClientMessages [(1, ClientMessage.Append 7 a_get)]); Server.EJob; Server.EJob].
Definition is_decided : list Server.event :=
  [Server.EBranch (Server.ClientMessages [(1, ClientMessage.Append 8 a_put)]); Server.EJob; Server.EJob;
   Server.EBranch (Server.ClientMessages [(1, ClientMessage.Ack the_read 1)]); Server.EJob; Server.EJob;
   turn 3;
   Server.EBranch (Server.ClusterMessages [(3, heartbeat)]); Server.EJob; Server.EJob].
Definition dirty : list execution * Loop :=
  trace_of (leads ++ reads ++ reaches_the_log ++ is_decided) second_server.

(** The proxy would be told that the key is not there. *)
Theorem a_decided_read_sees_what_is_in_no_log :
  runs second_server dirty.1 dirty.2 ∧
  Replica.log (replica (Server.server dirty.2)) = [the_read] ∧
  dirty.1 = [Ahead a_get; Ahead a_put; Decision the_read] ∧
  client_outbox (Server.network (Server.server dirty.2)) 1 =
    Some [ServerMessage.Ack the_read 10 (Some (Some None)) 1; ServerMessage.Read 7 (Some "v"%string)] ∧
  ¬ settled dirty.1.
Proof.
  assert (Htr : dirty.1 = [Ahead a_get; Ahead a_put; Decision the_read]) by (vm_compute; reflexivity).
  split; [apply trace_of_runs|]. split; [vm_compute; reflexivity|]. split; [exact Htr|].
  split; [vm_compute; reflexivity|]. rewrite Htr. clear Htr. intros Hset.
  destruct (Hset the_read "k"%string [Ahead a_get; Ahead a_put] [] eq_refl eq_refl [Ahead a_get] a_put []
    eq_refl) as (d & Hd & _); [done|by apply elem_of_nil in Hd].
Qed.
