(* ===== verification/SpeculationChecks.v ===== *)
(** * Runs with speculative results

    A leader that is asked to append a write and a read, and hands over their acknowledgements; and
    a proxy that sends a client the result of a read, with the runs of the two servers that it has
    heard. *)

From S2P Require Import Prelude Util Ballots Config Time StorageApi MemoryStorage InternalStorage.
From S2P Require Import StorageChecks Messages Ble Collections Clock Buffers SequencePaxos Replica.
From S2P Require Import Acks OmniPaxos Kv Network Server ServerChecks Proxy ProxyChecks System.
From S2P Require Import SystemChecks ServerRuns Answers Speculation StoreChecks.

#[local] Existing Instance list_heap_laws.
#[local] Existing Instance map_oneshot_laws.

(** ** Numbered runs *)

Definition history : Type := list execution * list ServerMessage.t * Loop.
Definition numbered_step (ev : Server.event) (x : history) : option history :=
  if bool_decide (Server.private_command_id (Server.server x.2) + 1 < usize_mod) then
    l' ← reach_step ev x.2;
    Some (x.1.1 ++ executions ev x.2 l', default x.1.2 (proxy_outbox (Server.server l')), l')
  else None.
Definition initially (s0 : KVServer) : history :=
  ([], default [] (proxy_outbox s0), Server.start s0).
Definition numbered_all (evs : list Server.event) (s0 : KVServer) : option history :=
  foldl (λ o ev, o ≫= numbered_step ev) (Some (initially s0)) evs.
Lemma numbered_all_numbered s0 evs x : numbered_all evs s0 = Some x → numbered s0 x.1.1 x.1.2 x.2.
Proof.
  revert x. induction evs as [|ev evs IH] using rev_ind; intros x E.
  - injection E as <-. constructor.
  - unfold numbered_all in E. rewrite foldl_app in E. apply bind_Some in E as (y & E1 & E).
    apply IH in E1. cbn [foldl] in E. unfold numbered_step in E. case_bool_decide; [|done].
    apply bind_Some in E as (l' & E & [= <-]). unfold reach_step in E.
    case_bool_decide; [|done]. by eapply numbered_event.
Qed.
Definition numbered_of (evs : list Server.event) (s0 : KVServer) : history :=
  default (initially s0) (numbered_all evs s0).
Lemma numbered_of_numbered evs s0 :
  numbered s0 (numbered_of evs s0).1.1 (numbered_of evs s0).1.2 (numbered_of evs s0).2.
Proof.
  unfold numbered_of. destruct (numbered_all evs s0) eqn:E; [by apply numbered_all_numbered in E|constructor].
Qed.

(** ** A write and a read *)

Definition write_and_read : list Server.event :=
  [Server.EBranch (Server.ClientMessages [(1, ClientMessage.Append 7 a_put); (1, ClientMessage.Append 8 a_get)]);
   Server.EJob; Server.EJob; Server.EJob].
Definition speculating : history :=
  numbered_of (leads ++ write_and_read ++ write_overtakes ++ hands_over) second_server.
Definition later_read : Command.t :=
  the_write <| Command.kv_cmd := a_get |>.
Example speculating_outbox : speculating.1 =
  ([Ahead a_put; Ahead a_get],
   [ServerMessage.Ack later_read 11 (Some (Some (Some "v"%string))) 1;
    ServerMessage.Ack (request 2) 20 (Some None) 2]).
Proof. vm_compute. reflexivity. Qed.

Lemma speculations_are_executions_witness :
  ∃ before after, [Ahead a_put; Ahead a_get] = before ++ Ahead a_get :: after ∧
    Some (Some "v"%string) = result_after before a_get.
Proof.
  assert (Hin : ServerMessage.Ack later_read 11 (Some (Some (Some "v"%string))) 1 ∈ speculating.1.2)
    by (rewrite speculating_outbox; left).
  pose proof (speculations_are_executions second_server speculating.1.1 speculating.1.2 speculating.2
    later_read 11 (Some (Some "v"%string)) 1 second_is_fresh (numbered_of_numbered _ _) Hin) as Hres.
  rewrite speculating_outbox in Hres. exact Hres.
Defined.

(** ** A read through the proxy

    The acknowledgement of the leader, at the index 1, completes the quorum. *)

Definition read_leader : history :=
  numbered_of (leads ++ reads ++ reaches_the_log ++ hands_over) second_server.
Definition read_follower : history :=
  numbered_of (reads ++ reaches_the_log ++ hands_over) first_server.
Definition read_final (k : N) : Loop :=
  if k =? 1 then read_leader.2 else if k =? 2 then read_follower.2 else Server.start first_server.
Definition read_executions (k : N) : list execution :=
  if k =? 1 then read_leader.1.1 else if k =? 2 then read_follower.1.1 else [].

Definition leaders_read : ack := mkAck the_read 10 (Some (Some None)) 1.
Definition followers_read : ack := mkAck (the_read <| Command.coordinator_id := 1 |>) 10 None 1.
Example read_outboxes :
  read_leader.1 = ([Ahead a_get], [ack_message leaders_read]) ∧
  read_follower.1 = ([], [ack_message followers_read]).
Proof. split; vm_compute; reflexivity. Qed.

Definition read_run : list Proxy.event := connected ++
  [Proxy.EActorRead 1 (Some (ack_message leaders_read)); Proxy.EDeliver 1;
   Proxy.EActorRead 2 (Some (ack_message followers_read)); Proxy.EDeliver 2]
  ++ handler 2 3 ++ handler 1 8.
Definition read_state : Proxy.t := Eval vm_compute in (outcome_of read_run).1.
Definition read_trace : list Proxy.label := Eval vm_compute in (outcome_of read_run).2.
Lemma read_runs : Proxy.run proxy0 read_trace read_state.
Proof. apply (outcome_run read_run). vm_compute. by eexists. Qed.

Lemma read_accountable : accountable 3 read_trace read_executions read_final.
Proof.
  intros k Hk. apply (small_cases k); [done|..].
  - exists first_server, (initially first_server).1.2.
    split_and!; [exact first_is_fresh|apply numbered_start|]. vm_compute. constructor.
  - exists second_server, read_leader.1.2.
    split_and!; [exact second_is_fresh|apply numbered_of_numbered|].
    rewrite (proj1 read_outboxes). vm_compute. reflexivity.
  - exists first_server, read_follower.1.2.
    split_and!; [exact first_is_fresh|apply numbered_of_numbered|].
    rewrite (proj2 read_outboxes). vm_compute. reflexivity.
Qed.

Lemma results_of_the_proxy_are_executions_witness :
  Replica.log (replica (Server.server (read_final 1))) !! N.to_nat (1 - 1) = Some the_read ∧
  executed_ahead (read_executions 1) a_get (Some None).
Proof.
  assert (Hin : Proxy.Replied 1 (ack_message leaders_read) ∈ read_trace) by (unfold read_trace; set_solver).
  exact (proj2 (results_of_the_proxy_are_executions proxy_config proxy0 read_trace read_state read_executions
    read_final 1 the_read 10 (Some None) 1 proxy_small proxy0_new read_runs read_accountable Hin)).
Defined.

(** ** Numbers of commands

    A server numbers the commands in the order of their arrival.  The leader announces a new deadline
    under its own number; a follower that has received the commands in another order moves the
    deadline of another command. *)

Definition numbers (s : KVServer) : list (CommandId * KVCommand.t) :=
  omap (λ tk, match tk with
              | InsertEntry cmd _ _ => Some (Command.private_id cmd, Command.kv_cmd cmd)
              | _ => None
              end) (SequencePaxos.tasks (replica s)).
Definition read_and_write : list Server.event :=
  [Server.EBranch (Server.ClientMessages [(1, ClientMessage.Append 8 a_get); (1, ClientMessage.Append 7 a_put)]);
   Server.EJob; Server.EJob; Server.EJob].
Theorem numbers_depend_on_the_order_of_arrival :
  numbers (Server.server (numbered_of (leads ++ write_and_read) second_server).2) = [(0, a_put); (1, a_get)] ∧
  numbers (Server.server (numbered_of read_and_write first_server).2) = [(0, a_get); (1, a_put)] ∧
  ∀ d (b : Buffers.t Command.t (chan Command.t) (chans Command.t)) cmd,
    Buffers.late b !! 0 = Some cmd → Command.kv_cmd cmd = a_get →
    ∃ cmd', cmd' ∈ Buffers.early (Buffers.free_from_late 0 d b).2 ∧
      Command.kv_cmd cmd' = a_get ∧ Command.deadline cmd' = d.
Proof.
  split; [vm_compute; reflexivity|]. split; [vm_compute; reflexivity|].
  intros d b cmd Hl Hc. unfold Buffers.free_from_late, bind, gets. rewrite Hl.
  exists (set_deadline d cmd). split; [left|]. by split.
Qed.
