(* ===== verification/DeliveryChecks.v ===== *)
(** * A client receives its answers

    The run of a server that answers a write and a read, and a run of the link to its client. *)

From S2P Require Import Prelude Util Codecs Ballots Config Time StorageApi MemoryStorage.
From S2P Require Import InternalStorage.
From S2P Require Import StorageChecks Messages Ble Collections Clock Buffers SequencePaxos Replica.
From S2P Require Import Acks OmniPaxos Kv Network Server ServerChecks Proxy ProxyChecks System.
From S2P Require Import SystemChecks ServerRuns Answers Connections Links LinkChecks Delivery.
From S2P Require Import StoreChecks.

#[export] Instance ServerMessage_eq_dec : EqDecision ServerMessage.t.
Proof. solve_decision. Defined.

(** A codec for the messages of the run: their number. *)
Definition the_messages : list ServerMessage.t :=
  [ack_message from_follower; ServerMessage.Write 7; ServerMessage.Ack next_read 20 None 2;
   ServerMessage.Read 8 (Some "v"%string)].
#[export] Instance message_bincode : Bincode ServerMessage.t bytes := {|
  serialize m := match list_find (.= m) the_messages with
                 | Some (i, _) => Ok [N.of_nat i]
                 | None => Err tt
                 end;
  deserialize bs := match bs with
                    | [n] => match the_messages !! N.to_nat n with Some m => Ok m | None => Err tt end
                    | _ => Err tt
                    end
|}.
#[export] Instance message_bincode_laws : BincodeLaws ServerMessage.t bytes.
Proof.
  intros m b. cbn [serialize message_bincode]. destruct (list_find _ _) as [[i m']|] eqn:E; [|done].
  apply list_find_Some in E as (Hi & -> & _). intros [= <-]. cbn [deserialize message_bincode].
  by rewrite Nat2N.id, Hi.
Qed.

Definition carries : list (Link.event ServerMessage.t) :=
  (Link.Send <$> the_messages) ++
  [Link.Write (Writer.Recv 4); Link.Write (Writer.Feed true); Link.Write (Writer.Feed true);
   Link.Write (Writer.Feed true); Link.Write (Writer.Feed true); Link.Write (Writer.Flush true);
   Link.Arrive 20; Link.Read (Reader.Chunk 4); Link.Read (Reader.Forward true);
   Link.Read (Reader.Forward true); Link.Read (Reader.Forward true); Link.Read (Reader.Forward true)].
Definition carried : Link.t ServerMessage.t :=
  default Link.new (Link.steps ClientConnection ServerConnection 100 100 carries Link.new).
Lemma carried_serves : serves_client 100 100 1 (Server.server reading_run.2) carried.
Proof.
  exists the_messages. split; [vm_compute; reflexivity|].
  apply (steps_reached [] Link.new carries); [constructor|]. vm_compute. reflexivity.
Qed.

Lemma clients_receive_the_answers_of_the_log_witness :
  [ServerMessage.Write 7; ServerMessage.Read 8 (Some "v"%string)] `prefix_of`
    told 1 1 [] [Ahead a_put; Decision (request 1); Ahead a_get; Decision next_read] ∧
  [7; 8] `prefix_of` Command.id <$> [request 1; next_read].
Proof.
  destruct (clients_receive_the_answers_of_the_log first_server reading_run.1 reading_run.2 100 100 1 carried
    first_is_fresh (trace_of_runs _ _) carried_serves) as [Ha Hids].
  split.
  - vm_compute in Ha. vm_compute. exact Ha.
  - vm_compute in Hids. vm_compute. exact Hids.
Defined.
