(* ===== verification/Unicache.v ===== *)
(** * Caches of field values (crates/custom-paxos/omnipaxos/src/unicache/mod.rs)

    A leader replaces field values that its cache knows by short encodings; a follower keeps a
    cache of its own in step and replaces them back.  [FieldCache] is the trait of the two
    implementations (Lfu.v, Lru.v); [Lockstep] is what an implementation has to promise, and what
    the round trip over a whole stream of fields needs. *)

From S2P Require Import Prelude.

(** ** Encodings *)

Inductive MaybeEncoded (Encodable Encoded : Type) : Type :=
  | IsEncoded (encoding : Encoded)
  | NotEncoded (field : Encodable).
#[global] Arguments IsEncoded {Encodable Encoded}.
#[global] Arguments NotEncoded {Encodable Encoded}.

(** [DefaultEncoded]: [Default], [One] and [Add]; adding may overflow. *)
Class DefaultEncoded (E : Type) : Type := {
  encoded_default : E;
  encoded_one : E;
  encoded_add : E → E → outcome E
}.

(** The unsigned integers of a width. *)
Definition uint_encoded `{Build} (m : N) : DefaultEncoded N :=
  {| encoded_default := 0; encoded_one := 1; encoded_add := wadd m |}.

(** The encodings that a cache gives away, in this order. *)
Fixpoint nth_encoding {E} `{DefaultEncoded E} (n : nat) : outcome E :=
  match n with
  | O => Val encoded_default
  | S n => match nth_encoding n with Val e => encoded_add e encoded_one | Panic f => Panic f end
  end.

(** A cache of this size never runs out of encodings, nor gives one away twice. *)
Record enough_encodings (E : Type) `{DefaultEncoded E} (size : N) : Prop := {
  encodings_exist k : (k ≤ N.to_nat size)%nat → ∃ e : E, nth_encoding k = Val e;
  encodings_differ k k' : (1 ≤ k ≤ N.to_nat size)%nat → (1 ≤ k' ≤ N.to_nat size)%nat →
    nth_encoding k = nth_encoding (E := E) k' → k = k'
}.

Lemma nth_uint `{Build} m k : N.of_nat k < m →
  @nth_encoding _ (uint_encoded m) k = Val (N.of_nat k).
Proof.
  intros Hk. induction k as [|k IH]; [done|]. cbn [nth_encoding]. rewrite IH by lia. cbn.
  rewrite wadd_exact by lia. f_equal. lia.
Qed.
Lemma uint_enough `{Build} m size : size < m → @enough_encodings N (uint_encoded m) size.
Proof.
  intros Hs. split.
  - intros k Hk. exists (N.of_nat k). apply nth_uint. lia.
  - intros k k' Hk Hk'. rewrite !nth_uint by lia. intros [= E]. lia.
Qed.

(** ** The trait *)

Class FieldCache (C Encodable Encoded : Type) : Type := {
  fc_new : N → outcome C;
  fc_try_encode : Encodable → M C (MaybeEncoded Encodable Encoded);
  fc_decode : MaybeEncoded Encodable Encoded → M C Encodable
}.

(** The promise of an implementation: [in_step n a b] says that [b] can decode what [a] encodes,
    after [n] fields. *)
Class Lockstep (C Encodable Encoded : Type) `{FieldCache C Encodable Encoded} : Type := {
  fits : N → Prop;
  in_step : N → C → C → Prop;
  new_in_step size : fits size → ∃ c, fc_new size = Val c ∧ in_step 0 c c;
  step_in_step n a b field :
    in_step n a b → n + 1 < usize_mod →
    ∃ r a' b', fc_try_encode field a = (Val r, a') ∧ fc_decode r b = (Val field, b') ∧
      in_step (n + 1) a' b'
}.

(** ** Streams of fields *)

Section streams.
Context {C X E : Type} `{FieldCache C X E}.

Fixpoint encode_all (fields : list X) : M C (list (MaybeEncoded X E)) :=
  match fields with
  | [] => ret []
  | x :: fields =>
      let* r := fc_try_encode x in let* rs := encode_all fields in ret (r :: rs)
  end.
(** [decode_entries] *)
Fixpoint decode_all (rs : list (MaybeEncoded X E)) : M C (list X) :=
  match rs with
  | [] => ret []
  | r :: rs => let* x := fc_decode r in let* xs := decode_all rs in ret (x :: xs)
  end.

Lemma stream_in_step `{!Lockstep C X E} n a b fields :
  in_step n a b → n + len fields < usize_mod →
  ∃ rs a' b', encode_all fields a = (Val rs, a') ∧ decode_all rs b = (Val fields, b') ∧
    in_step (n + len fields) a' b'.
Proof.
  revert n a b. induction fields as [|x fields IH]; intros n a b Hs Hn.
  - exists [], a, b. split_and!; [done..|]. by rewrite len_nil, N.add_0_r.
  - rewrite len_cons in *.
    destruct (step_in_step n a b x Hs) as (r & a1 & b1 & Ea & Eb & Hs1); [lia|].
    destruct (IH (n + 1) a1 b1 Hs1) as (rs & a' & b' & Ea' & Eb' & Hs'); [lia|].
    exists (r :: rs), a', b'. cbn. unfold bind. rewrite Ea, Eb, Ea', Eb'. unfold ret.
    split_and!; [done..|]. by rewrite N.add_assoc.
Qed.

(** A stream of fields comes through two caches that start empty. *)
Lemma stream_roundtrip `{!Lockstep C X E} size fields :
  fits size → len fields < usize_mod →
  ∃ c rs a b, fc_new size = Val c ∧ encode_all fields c = (Val rs, a) ∧
    decode_all rs c = (Val fields, b) ∧ in_step (len fields) a b.
Proof.
  intros Hs Hn. destruct (new_in_step size Hs) as (c & Ec & Hc).
  destruct (stream_in_step 0 c c fields Hc Hn) as (rs & a & b & Ea & Eb & Hab). eauto 10.
Qed.
End streams.
