(* ===== verification/Derive.v ===== *)
(** * The derive macros of entries (crates/custom-paxos/omnipaxos_macros/src/lib.rs)

    [entry_derive] and [unicache_entry_derive] as functions from the declaration of a type to what
    they generate for it, and the meaning of the generated cache: its fields, [new], [try_encode]
    and [decode].  Types and encodings are names; what they stand for, and the cache of each kind
    for them, are parameters. *)

From S2P Require Import Prelude Unicache.

(** ** Declarations *)

(** What [parse_nested_meta] finds in [#[unicache(..)]]; [None]: the content in parentheses is not
    what the attribute asks for. *)
Inductive Meta : Type :=
  | MSize (literal : option N)
  | MCache (ident : option string)
  | MEncoding (ident : option string)
  | MOther (path : string).

(** A field: its identifier, which the fields of a tuple struct do not have, its type, and what is in
    the parentheses of its first attribute [unicache] (one without parentheses is no valid
    attribute, like a [MOther]). *)
Record Field : Type := mkField {
  f_ident : option string;
  f_ty : string;
  f_unicache : option (list Meta)
}.
Inductive Data : Type :=
  | Struct (fields : list Field)
  | Enum
  | Union.

(** [snapshot]: the attributes of this name, with the type in parentheses. *)
Record DeriveInput : Type := mkDeriveInput {
  d_ident : string;
  d_snapshot : list (option string);
  d_data : Data
}.

(** ** Expansion *)

Definition get_snapshot_type (ast : DeriveInput) : outcome string :=
  match d_snapshot ast with
  | Some t :: _ => Val t
  | None :: _ => Panic ExpectErr
  | [] => Val "::omnipaxos::storage::NoSnapshot"%string
  end.

(** The generated [impl Entry]: its type and [type Snapshot]. *)
Record EntryImpl : Type := mkEntryImpl { ei_name : string; ei_snapshot : string }.
Definition entry_derive (ast : DeriveInput) : outcome EntryImpl :=
  match get_snapshot_type ast with
  | Val t => Val {| ei_name := d_ident ast; ei_snapshot := t |}
  | Panic f => Panic f
  end.

Inductive CacheType : Type := LRU | LFU.
#[export] Instance CacheType_eq_dec : EqDecision CacheType.
Proof. solve_decision. Defined.

Definition default_encoding : string := "u8".
Definition default_size : N := 255.

(** The variables [encoding_type], [cache_size] and [cache_type] of the loop. *)
Record Attributes : Type := mkAttributes {
  encoding_type : option string;
  cache_size : option N;
  cache_type : option CacheType
}.
#[global] Instance settable_encoding_type : Settable encoding_type := λ f r,
  mkAttributes (f (encoding_type r)) (cache_size r) (cache_type r).
#[global] Instance settable_cache_size : Settable cache_size := λ f r,
  mkAttributes (encoding_type r) (f (cache_size r)) (cache_type r).
#[global] Instance settable_cache_type : Settable cache_type := λ f r,
  mkAttributes (encoding_type r) (cache_size r) (f (cache_type r)).

(** The closure of [parse_nested_meta]; an [Err] makes the caller panic, as an unknown name does. *)
Definition parse_meta (meta : Meta) (a : Attributes) : outcome Attributes :=
  match meta with
  | MSize (Some n) =>
      if n <? usize_mod then Val (a <| cache_size := Some n |>) else Panic ExplicitPanic
  | MCache (Some ty) =>
      if bool_decide (ty = "lru"%string) then Val (a <| cache_type := Some LRU |>)
      else if bool_decide (ty = "lfu"%string) then Val (a <| cache_type := Some LFU |>)
      else Panic ExplicitPanic
  | MEncoding (Some ty) => Val (a <| encoding_type := Some ty |>)
  | _ => Panic ExplicitPanic
  end.
Fixpoint parse_nested_meta (metas : list Meta) (a : Attributes) : outcome Attributes :=
  match metas with
  | [] => Val a
  | meta :: metas =>
      match parse_meta meta a with
      | Val a => parse_nested_meta metas a
      | Panic f => Panic f
      end
  end.

(** A field as the vectors of the macro hold it ([field_names], [encodable_field_types],
    [cache_sizes] and so on, which are filled together). *)
Record CachedAs : Type := mkCachedAs {
  ca_encoding : string;
  ca_size : N;
  ca_type : CacheType
}.
Record FieldSpec : Type := mkFieldSpec {
  fs_name : string;
  fs_ty : string;
  fs_cached : option CachedAs
}.

(** The loop over the fields.  [cache_type] is declared before the loop: what one field has set is
    still there for the next one. *)
Fixpoint expand_fields (fields : list Field) (cache_type0 : option CacheType) :
    outcome (list FieldSpec) :=
  match fields with
  | [] => Val []
  | field :: fields =>
      match f_ident field with
      | None => Panic UnwrapNone
      | Some name =>
          match f_unicache field with
          | Some metas =>
              match parse_nested_meta metas (mkAttributes None None cache_type0) with
              | Panic f => Panic f
              | Val a =>
                  let c := default LRU (cache_type a) in
                  let spec := mkFieldSpec name (f_ty field) (Some {|
                    ca_encoding := default default_encoding (encoding_type a);
                    ca_size := default default_size (cache_size a);
                    ca_type := c |}) in
                  match expand_fields fields (Some c) with
                  | Val specs => Val (spec :: specs)
                  | Panic f => Panic f
                  end
              end
          | None =>
              match expand_fields fields cache_type0 with
              | Val specs => Val (mkFieldSpec name (f_ty field) None :: specs)
              | Panic f => Panic f
              end
          end
      end
  end.

Definition suffix (ident name : string) : string := String.append ident name.

(** The generated [impl Entry] and cache. *)
Record UniCacheImpl : Type := mkUniCacheImpl {
  ui_entry : EntryImpl;
  ui_cache_name : string;
  ui_fields : list FieldSpec
}.

(** The types that [impl Entry] lists. *)
Definition Encoded_types (specs : list FieldSpec) : list string :=
  omap (λ s, ca_encoding <$> fs_cached s) specs.
Definition Encodable_types (specs : list FieldSpec) : list string :=
  omap (λ s, (λ _, fs_ty s) <$> fs_cached s) specs.
Definition NotEncodable_types (specs : list FieldSpec) : list string :=
  omap (λ s, match fs_cached s with None => Some (fs_ty s) | Some _ => None end) specs.

Definition unicache_entry_derive (ast : DeriveInput) : outcome UniCacheImpl :=
  match get_snapshot_type ast with
  | Panic f => Panic f
  | Val snapshot =>
      match d_data ast with
      | Struct fields =>
          match expand_fields fields None with
          | Val specs => Val {|
              ui_entry := {| ei_name := d_ident ast; ei_snapshot := snapshot |};
              ui_cache_name := suffix (d_ident ast) "Cache";
              ui_fields := specs |}
          | Panic f => Panic f
          end
      | Enum => Panic Unimplemented
      | Union => Panic UnreachableCode
      end
  end.

(** ** What a declaration asks for *)

Definition meta_size (m : Meta) : option N := match m with MSize s => s | _ => None end.
Definition meta_encoding (m : Meta) : option string := match m with MEncoding e => e | _ => None end.
Definition meta_cache (m : Meta) : option CacheType :=
  match m with
  | MCache (Some ty) =>
      if bool_decide (ty = "lru"%string) then Some LRU
      else if bool_decide (ty = "lfu"%string) then Some LFU else None
  | _ => None
  end.
(** Of several attributes the last one counts. *)
Definition declared_size (metas : list Meta) : N := default default_size (last (omap meta_size metas)).
Definition declared_encoding (metas : list Meta) : string :=
  default default_encoding (last (omap meta_encoding metas)).
(** The last cache that the fields up to this one have set. *)
Definition inherited_cache (fields : list Field) : option CacheType :=
  last (omap meta_cache (concat (default [] ∘ f_unicache <$> fields))).

Definition or_else {A} (o o' : option A) : option A := match o with Some a => Some a | None => o' end.
Lemma last_app_or_else {A} (l k : list A) : last (l ++ k) = or_else (last k) (last l).
Proof. rewrite last_app. by destruct (last k). Qed.
Lemma last_cons_or_else {A} (x : A) (l : list A) : last (x :: l) = or_else (last l) (Some x).
Proof. rewrite last_cons. by destruct (last l). Qed.
Lemma or_else_assoc {A} (a b c : option A) : or_else a (or_else b c) = or_else (or_else a b) c.
Proof. by destruct a. Qed.

Lemma parse_nested_meta_val metas a a' :
  parse_nested_meta metas a = Val a' →
  encoding_type a' = or_else (last (omap meta_encoding metas)) (encoding_type a) ∧
  cache_size a' = or_else (last (omap meta_size metas)) (cache_size a) ∧
  cache_type a' = or_else (last (omap meta_cache metas)) (cache_type a).
Proof.
  revert a. induction metas as [|m metas IH]; intros a; cbn [parse_nested_meta]; [by intros [= <-]|].
  destruct (parse_meta m a) as [a1|] eqn:E1; [|done]. intros (-> & -> & ->)%IH. revert E1.
  unfold parse_meta. destruct m as [[n|]|[t|]|[t|]|path]; try discriminate 1; cbn [omap list_omap
    meta_encoding meta_size meta_cache].
  - destruct (n <? usize_mod); [|done]. intros [= <-]. cbn.
    by rewrite last_cons_or_else, <-or_else_assoc.
  - repeat case_bool_decide; try done; intros [= <-]; cbn;
      by rewrite last_cons_or_else, <-or_else_assoc.
  - intros [= <-]. cbn. by rewrite last_cons_or_else, <-or_else_assoc.
Qed.

Lemma inherited_cons field fields :
  inherited_cache (field :: fields) =
  or_else (inherited_cache fields) (last (omap meta_cache (default [] (f_unicache field)))).
Proof. unfold inherited_cache. cbn. by rewrite omap_app, last_app_or_else. Qed.
Lemma default_or_else {A} (d : A) o o' : default d (or_else o (Some (default d o'))) = default d (or_else o o').
Proof. by destruct o. Qed.

(** A field as it is collected, when the fields before it and itself have set these caches. *)
Definition collected (ct : option CacheType) (field : Field) (spec : FieldSpec) : Prop :=
  f_ident field = Some (fs_name spec) ∧ fs_ty spec = f_ty field ∧
  fs_cached spec = (λ metas, {| ca_encoding := declared_encoding metas;
    ca_size := declared_size metas; ca_type := default LRU ct |}) <$> f_unicache field.

Lemma expand_fields_val fields ct specs :
  expand_fields fields ct = Val specs →
  length specs = length fields ∧
  ∀ i field spec, fields !! i = Some field → specs !! i = Some spec →
    collected (or_else (inherited_cache (take (S i) fields)) ct) field spec.
Proof.
  revert ct specs. induction fields as [|[[name|] ty metas] fields IH]; intros ct specs; cbn;
    [by intros [= <-]| |done].
  destruct metas as [metas|].
  - destruct (parse_nested_meta metas _) as [a|] eqn:Ea; [|done].
    apply parse_nested_meta_val in Ea as (Ee & Es & Ec). cbn in Ee, Es, Ec.
    destruct (expand_fields fields _) as [specs'|] eqn:E; [|done]. intros [= <-].
    apply IH in E as [El E]. split; [cbn; by rewrite El|]. intros [|i] field spec; cbn.
    + intros [= <-] [= <-]. unfold collected. cbn. split_and!; [done..|].
      unfold declared_encoding, declared_size. rewrite Ee, Es, Ec, inherited_cons. cbn.
      by repeat match goal with |- context [last ?l] => destruct (last l) end.
    + intros Hf Hs. destruct (E i field spec Hf Hs) as (? & ? & Hc). split_and!; [done..|]. rewrite Hc.
      destruct (f_unicache field) as [ms|]; [|done]. cbn. do 2 f_equal.
      rewrite default_or_else, inherited_cons, Ec. cbn. by rewrite or_else_assoc.
  - destruct (expand_fields fields ct) as [specs'|] eqn:E; [|done]. intros [= <-].
    apply IH in E as [El E]. split; [cbn; by rewrite El|]. intros [|i] field spec; cbn.
    + by intros [= <-] [= <-].
    + intros Hf Hs. destruct (E i field spec Hf Hs) as (? & ? & Hc). split_and!; [done..|]. rewrite Hc.
      by rewrite inherited_cons; destruct (inherited_cache _).
Qed.

(** What the macro generates.  For a struct that it accepts: one field of the cache per
    annotated field, with the encoding and the size that its attribute declares last, or else [u8]
    and 255; and with the cache that was declared last among this field and all fields before it, or
    else LRU. *)
Theorem derived_fields ast impl :
  unicache_entry_derive ast = Val impl →
  ∃ fields, d_data ast = Struct fields ∧ length (ui_fields impl) = length fields ∧
    ∀ i field spec, fields !! i = Some field → ui_fields impl !! i = Some spec →
      f_ident field = Some (fs_name spec) ∧ fs_ty spec = f_ty field ∧
      fs_cached spec = (λ metas, {| ca_encoding := declared_encoding metas;
        ca_size := declared_size metas;
        ca_type := default LRU (inherited_cache (take (S i) fields)) |}) <$> f_unicache field.
Proof.
  unfold unicache_entry_derive. destruct (get_snapshot_type ast); [|done].
  destruct (d_data ast) as [fields| |]; [|done..].
  destruct (expand_fields fields None) as [specs|] eqn:E; [|done]. intros [= <-].
  apply expand_fields_val in E as [El E]. exists fields. split_and!; [done..|].
  intros i field spec Hf Hs. destruct (E i field spec Hf Hs) as (? & ? & Hc).
  split_and!; [done..|]. rewrite Hc. by destruct (inherited_cache _).
Qed.

(** ** The generated cache *)

Section generated.
Context (val enc : string → Type) (cache : CacheType → string → string → Type)
  `{FC : !∀ k t e, FieldCache (cache k t e) (val t) (enc e)}.

(** The struct, [type EncodeResult], and the struct of caches. *)
Fixpoint Entry (specs : list FieldSpec) : Type :=
  match specs with
  | [] => unit
  | mkFieldSpec _ ty _ :: specs => val ty * Entry specs
  end.
Fixpoint EncodeResult (specs : list FieldSpec) : Type :=
  match specs with
  | [] => unit
  | mkFieldSpec _ ty (Some c) :: specs =>
      MaybeEncoded (val ty) (enc (ca_encoding c)) * EncodeResult specs
  | mkFieldSpec _ ty None :: specs => val ty * EncodeResult specs
  end.
Fixpoint UniCache (specs : list FieldSpec) : Type :=
  match specs with
  | [] => unit
  | mkFieldSpec _ ty (Some c) :: specs => cache (ca_type c) ty (ca_encoding c) * UniCache specs
  | mkFieldSpec _ _ None :: specs => UniCache specs
  end.

Fixpoint new (specs : list FieldSpec) : outcome (UniCache specs) :=
  match specs with
  | [] => Val tt
  | mkFieldSpec _ ty (Some c) :: specs =>
      match fc_new (FieldCache := FC (ca_type c) ty (ca_encoding c)) (ca_size c) with
      | Val x => match new specs with Val xs => Val (x, xs) | Panic f => Panic f end
      | Panic f => Panic f
      end
  | mkFieldSpec _ _ None :: specs => new specs
  end.

(** Cloning the fields that are not cached cannot fail, so that it does not matter that the
    generated code does it in the end. *)
Fixpoint try_encode (specs : list FieldSpec) : Entry specs → M (UniCache specs) (EncodeResult specs) :=
  match specs with
  | [] => λ _, ret tt
  | mkFieldSpec _ ty (Some c) :: specs => λ '(x, entry) '(k, ks),
      match fc_try_encode x k with
      | (Val r, k) =>
          match try_encode specs entry ks with
          | (Val rs, ks) => (Val (r, rs), (k, ks))
          | (Panic f, ks) => (Panic f, (k, ks))
          end
      | (Panic f, k) => (Panic f, (k, ks))
      end
  | mkFieldSpec _ ty None :: specs => λ '(x, entry),
      let* rs := try_encode specs entry in ret (x, rs)
  end.

Fixpoint decode (specs : list FieldSpec) : EncodeResult specs → M (UniCache specs) (Entry specs) :=
  match specs with
  | [] => λ _, ret tt
  | mkFieldSpec _ ty (Some c) :: specs => λ '(r, rs) '(k, ks),
      match fc_decode r k with
      | (Val x, k) =>
          match decode specs rs ks with
          | (Val entry, ks) => (Val (x, entry), (k, ks))
          | (Panic f, ks) => (Panic f, (k, ks))
          end
      | (Panic f, k) => (Panic f, (k, ks))
      end
  | mkFieldSpec _ ty None :: specs => λ '(x, rs),
      let* entry := decode specs rs in ret (x, entry)
  end.

(** Streams of entries (compare [encode_all], [decode_all]). *)
Fixpoint encode_entries (specs : list FieldSpec) (entries : list (Entry specs)) :
    M (UniCache specs) (list (EncodeResult specs)) :=
  match entries with
  | [] => ret []
  | x :: entries =>
      let* r := try_encode specs x in let* rs := encode_entries specs entries in ret (r :: rs)
  end.
Fixpoint decode_entries (specs : list FieldSpec) (rs : list (EncodeResult specs)) :
    M (UniCache specs) (list (Entry specs)) :=
  match rs with
  | [] => ret []
  | r :: rs => let* x := decode specs r in let* xs := decode_entries specs rs in ret (x :: xs)
  end.

(** ** Round trip *)

Section lockstep.
Context `{LS : !∀ k t e, Lockstep (cache k t e) (val t) (enc e)}.

Fixpoint sizes_fit (specs : list FieldSpec) : Prop :=
  match specs with
  | [] => True
  | mkFieldSpec _ ty (Some c) :: specs =>
      fits (Lockstep := LS (ca_type c) ty (ca_encoding c)) (ca_size c) ∧ sizes_fit specs
  | mkFieldSpec _ _ None :: specs => sizes_fit specs
  end.
Fixpoint caches_in_step (n : N) (specs : list FieldSpec) : UniCache specs → UniCache specs → Prop :=
  match specs with
  | [] => λ _ _, True
  | mkFieldSpec _ ty (Some c) :: specs => λ '(a, xs) '(b, ys),
      in_step n a b ∧ caches_in_step n specs xs ys
  | mkFieldSpec _ _ None :: specs => caches_in_step n specs
  end.

Lemma new_caches_in_step specs :
  sizes_fit specs → ∃ c, new specs = Val c ∧ caches_in_step 0 specs c c.
Proof.
  induction specs as [|[name ty [c|]] specs IH]; cbn; [by exists tt| |done].
  intros [Hf (ks & E & Hks)%IH]. destruct (new_in_step (ca_size c) Hf) as (k & Ek & Hk).
  exists (k, ks). by rewrite Ek, E.
Qed.

Lemma entry_in_step n specs a b (entry : Entry specs) :
  caches_in_step n specs a b → n + 1 < usize_mod →
  ∃ r a' b', try_encode specs entry a = (Val r, a') ∧ decode specs r b = (Val entry, b') ∧
    caches_in_step (n + 1) specs a' b'.
Proof.
  intros Hs Hn. induction specs as [|[name ty [c|]] specs IH]; cbn in *.
  - by destruct entry; exists tt, a, b.
  - destruct entry as [x entry], a as [k ks], b as [k' ks'], Hs as [Hk Hks].
    destruct (step_in_step n k k' x Hk Hn) as (r & k1 & k1' & E & E' & Hk1).
    destruct (IH ks ks' entry Hks) as (rs & ks1 & ks1' & Es & Es' & Hks1).
    exists (r, rs), (k1, ks1), (k1', ks1'). by rewrite E, E', Es, Es'.
  - destruct entry as [x entry]. destruct (IH a b entry Hs) as (rs & a' & b' & E & E' & Hs').
    exists (x, rs), a', b'. unfold bind. by rewrite E, E'.
Qed.

Lemma entries_in_step n specs a b (entries : list (Entry specs)) :
  caches_in_step n specs a b → n + len entries < usize_mod →
  ∃ rs a' b', encode_entries specs entries a = (Val rs, a') ∧
    decode_entries specs rs b = (Val entries, b') ∧ caches_in_step (n + len entries) specs a' b'.
Proof.
  revert n a b. induction entries as [|x entries IH]; intros n a b Hs Hn.
  - exists [], a, b. rewrite len_nil, N.add_0_r. done.
  - rewrite len_cons in *.
    destruct (entry_in_step n specs a b x Hs) as (r & a1 & b1 & E & E' & Hs1); [lia|].
    destruct (IH (n + 1) a1 b1 Hs1) as (rs & a' & b' & Es & Es' & Hs'); [lia|].
    exists (r :: rs), a', b'. cbn. unfold bind. rewrite E, E', Es, Es'.
    by rewrite N.add_assoc.
Qed.

(** Every size that is declared fits the encoding, whatever cache it is for. *)
Definition declared_sizes_fit (ast : DeriveInput) : Prop :=
  ∀ fields field metas, d_data ast = Struct fields → field ∈ fields →
    f_unicache field = Some metas →
    ∀ k, fits (Lockstep := LS k (f_ty field) (declared_encoding metas)) (declared_size metas).

Lemma derived_sizes_fit specs :
  (∀ spec c, spec ∈ specs → fs_cached spec = Some c →
     fits (Lockstep := LS (ca_type c) (fs_ty spec) (ca_encoding c)) (ca_size c)) →
  sizes_fit specs.
Proof.
  induction specs as [|[name ty [c|]] specs IH]; intros Hall; cbn; [done|split|].
  - apply (Hall (mkFieldSpec name ty (Some c))); [left|done].
  - apply IH. intros spec c' Hin. apply Hall. by right.
  - apply IH. intros spec c' Hin. apply Hall. by right.
Qed.
Lemma expanded_sizes_fit fields ct specs :
  expand_fields fields ct = Val specs →
  (∀ field metas, field ∈ fields → f_unicache field = Some metas →
     ∀ k, fits (Lockstep := LS k (f_ty field) (declared_encoding metas)) (declared_size metas)) →
  sizes_fit specs.
Proof.
  intros [El E]%expand_fields_val Hall. apply derived_sizes_fit.
  intros spec c [i Hi]%list_elem_of_lookup Hc.
  destruct (lookup_lt_is_Some_2 fields i) as [field Hf].
  { rewrite <-El. by eapply lookup_lt_Some. }
  destruct (E i field spec Hf Hi) as (_ & Et & Ec). rewrite Et. rewrite Ec in Hc.
  apply fmap_Some in Hc as (metas & Hm & ->). cbn. eapply Hall; [|done].
  by eapply list_elem_of_lookup_2.
Qed.

(** C38.  A derived cache is transparent.  Take any struct that the macro accepts and whose
    declared sizes fit their encodings, with field caches that keep in step.  Then the generated
    cache can be made, and every sequence of entries that one such cache encodes is decoded to the
    same entries by another one. *)
Theorem derived_cache_roundtrip ast impl (entries : list (Entry (ui_fields impl))) :
  unicache_entry_derive ast = Val impl → declared_sizes_fit ast → len entries < usize_mod →
  ∃ c rs a b, new (ui_fields impl) = Val c ∧
    encode_entries (ui_fields impl) entries c = (Val rs, a) ∧
    decode_entries (ui_fields impl) rs c = (Val entries, b).
Proof.
  intros Hd Hf Hn. assert (Hs : sizes_fit (ui_fields impl)).
  { revert Hd. unfold unicache_entry_derive. destruct (get_snapshot_type ast); [|done].
    destruct (d_data ast) as [fields| |] eqn:Ed; [|done..].
    destruct (expand_fields fields None) as [specs|] eqn:E; [|done]. intros [= <-]. cbn.
    eapply expanded_sizes_fit; [exact E|]. intros field metas. by apply Hf. }
  destruct (new_caches_in_step _ Hs) as (c & Ec & Hc).
  destruct (entries_in_step 0 _ c c entries Hc Hn) as (rs & a & b & Ea & Eb & _).
  by exists c, rs, a, b.
Qed.
End lockstep.
End generated.
