(* ===== verification/Lru.v ===== *)
(** * The cache with least-recently-used eviction (unicache/lru_cache.rs)

    [LRUniCache] is built on the [lru] crate, which is an interface here ([LruCache], with what its
    documentation promises).  A decoder that sees everything its encoder has encoded is in step
    with it; so is a decoder that is cloned from the encoder at any time, but not one that went
    through serde. *)

From S2P Require Import Prelude Unicache.

(** ** The crate [lru] *)

(** [lru_iter]: from the most to the least recently used. *)
Class LruCache (K V : Type) : Type := {
  lru : Type;
  lru_new : N → lru;
  lru_cap : lru → N;
  lru_iter : lru → list (K * V);
  lru_len : lru → N;
  lru_get : K → lru → option V * lru;
  lru_pop_lru : lru → option (K * V) * lru;
  lru_push : K → V → lru → option (K * V) * lru
}.
#[global] Arguments lru K V {_}.

Definition without {K V} `{EqDecision K} (k : K) (l : list (K * V)) : list (K * V) :=
  filter (λ p, p.1 ≠ k) l.

Class LruLaws (K V : Type) `{LruCache K V, EqDecision K} : Prop := {
  iter_new n : lru_iter (K := K) (V := V) (lru_new n) = [];
  cap_new n : lru_cap (lru_new n) = n;
  lru_len_iter c : lru_len c = len (lru_iter c);
  get_none k c : k ∉ (lru_iter c).*1 → (lru_get k c).1 = None ∧
    lru_iter (lru_get k c).2 = lru_iter c ∧ lru_cap (lru_get k c).2 = lru_cap c;
  get_some k v c : NoDup (lru_iter c).*1 → (k, v) ∈ lru_iter c → (lru_get k c).1 = Some v ∧
    lru_iter (lru_get k c).2 = (k, v) :: without k (lru_iter c) ∧
    lru_cap (lru_get k c).2 = lru_cap c;
  pop_lru_snoc c l p : lru_iter c = l ++ [p] → (lru_pop_lru c).1 = Some p ∧
    lru_iter (lru_pop_lru c).2 = l ∧ lru_cap (lru_pop_lru c).2 = lru_cap c;
  (* a new key, with room for it; and without, when the least recently used one has to go *)
  push_room k v c : k ∉ (lru_iter c).*1 → lru_len c < lru_cap c →
    lru_iter (lru_push k v c).2 = (k, v) :: lru_iter c ∧ lru_cap (lru_push k v c).2 = lru_cap c;
  push_full k v c l p : k ∉ (lru_iter c).*1 → lru_cap c ≤ lru_len c → lru_iter c = l ++ [p] →
    lru_iter (lru_push k v c).2 = (k, v) :: l ∧ lru_cap (lru_push k v c).2 = lru_cap c
}.

(** ** The cache *)

(** [LruWrapper] only adds the serde instances. *)
Module LRUniCache.
Record t (En De E : Type) : Type := mk {
  lru_cache_encoder : En;
  lru_cache_decoder : De;
  encoding : E;
  size : N
}.
#[global] Arguments mk {En De E}.
#[global] Arguments lru_cache_encoder {En De E}.
#[global] Arguments lru_cache_decoder {En De E}.
#[global] Arguments encoding {En De E}.
#[global] Arguments size {En De E}.
#[global] Instance settable_encoder {En De E} : Settable (@lru_cache_encoder En De E) := λ f r,
  mk (f (lru_cache_encoder r)) (lru_cache_decoder r) (encoding r) (size r).
#[global] Instance settable_decoder {En De E} : Settable (@lru_cache_decoder En De E) := λ f r,
  mk (lru_cache_encoder r) (f (lru_cache_decoder r)) (encoding r) (size r).
#[global] Instance settable_encoding {En De E} : Settable (@encoding En De E) := λ f r,
  mk (lru_cache_encoder r) (lru_cache_decoder r) (f (encoding r)) (size r).

Section ops.
Context {X E : Type} `{LruCache X E, LruCache E X, DefaultEncoded E}.
Abbreviation Self := (t (lru X E) (lru E X) E).

(** [NonZeroUsize::new(size).unwrap()] *)
Definition new (size : N) : outcome Self :=
  if size =? 0 then Panic UnwrapNone
  else Val {| lru_cache_encoder := lru_new size; lru_cache_decoder := lru_new size;
              encoding := encoded_default; size := size |}.

(** [enc.add(one)], after [mem::take] has put the default into its place. *)
Definition next_encoding : M Self E :=
  let* s := gets (λ s, s) in
  let* _ := modify (λ s, s <| encoding := encoded_default |>) in
  lift (encoded_add (encoding s) encoded_one).

Definition try_encode (field : X) : M Self (MaybeEncoded X E) :=
  let* s := gets (λ s, s) in
  let (r, c) := lru_get field (lru_cache_encoder s) in
  let* _ := modify (λ s, s <| lru_cache_encoder := c |>) in
  match r with
  | Some encoding => ret (IsEncoded encoding)
  | None =>
      let* _ :=
        if lru_len c =? size s then
          let (popped, c) := lru_pop_lru c in
          let* popped := unwrap popped in
          modify (λ s, s <| lru_cache_encoder := (lru_push field popped.2 c).2 |>)
        else
          let* added := next_encoding in
          let* _ := modify (λ s, s <| lru_cache_encoder := (lru_push field added c).2 |>) in
          modify (λ s, s <| encoding := added |>) in
      ret (NotEncoded field)
  end.

Definition decode (result : MaybeEncoded X E) : M Self X :=
  let* s := gets (λ s, s) in
  match result with
  | IsEncoded encoding =>
      let (r, c) := lru_get encoding (lru_cache_decoder s) in
      let* _ := modify (λ s, s <| lru_cache_decoder := c |>) in
      unwrap r
  | NotEncoded not_encodable =>
      let c := lru_cache_decoder s in
      let* _ :=
        if lru_len c =? size s then
          let (popped, c) := lru_pop_lru c in
          let* popped := unwrap popped in
          modify (λ s, s <| lru_cache_decoder := (lru_push popped.1 not_encodable c).2 |>)
        else
          let* added := next_encoding in
          let* _ := modify (λ s, s <| lru_cache_decoder := (lru_push added not_encodable c).2 |>) in
          modify (λ s, s <| encoding := added |>) in
      ret not_encodable
  end.

(** [Clone]: the clone has the decoder that belongs to this encoder. *)
Definition clone (s : Self) : outcome Self :=
  if size s =? 0 then Panic UnwrapNone
  else Val {|
    lru_cache_encoder := lru_new 1;
    lru_cache_decoder := foldl (λ c p, (lru_push p.2 p.1 c).2) (lru_new (size s))
      (reverse (lru_iter (lru_cache_encoder s)));
    encoding := encoding s; size := size s |}.
End ops.
End LRUniCache.

#[export] Instance LRUniCache_field_cache {X E} `{LruCache X E, LruCache E X, DefaultEncoded E} :
    FieldCache (LRUniCache.t (lru X E) (lru E X) E) X E := {|
  fc_new := LRUniCache.new; fc_try_encode := LRUniCache.try_encode; fc_decode := LRUniCache.decode
|}.

(** ** serde *)

Module LruWrapper.
Section serde.
Context {K V : Type} `{LruCache K V}.

Definition serialize (c : lru K V) : list (K * V) := reverse (lru_iter c).

(** [visit_seq] on the elements of a sequence; [size_hint] is what the format knows about their
    number. *)
Definition visit_seq (size_hint : option N) (seq : list (K * V)) : outcome (lru K V) :=
  let size := default 255 size_hint in
  if size =? 0 then Panic UnwrapNone
  else Val (foldl (λ c p, (lru_push p.1 p.2 c).2) (lru_new size) seq).
End serde.
End LruWrapper.

(** [derive(Serialize, Deserialize)]: a follower gets the fields one by one; [hint] says whether the
    format tells the length of a sequence, as bincode does. *)
Definition LRUniCache_through_serde {X E} `{LruCache X E, LruCache E X} (hint : bool)
    (s : LRUniCache.t (lru X E) (lru E X) E) : outcome (LRUniCache.t (lru X E) (lru E X) E) :=
  let en := LruWrapper.serialize (LRUniCache.lru_cache_encoder s) in
  let de := LruWrapper.serialize (LRUniCache.lru_cache_decoder s) in
  match LruWrapper.visit_seq (if hint then Some (len en) else None) en with
  | Panic f => Panic f
  | Val en =>
      match LruWrapper.visit_seq (if hint then Some (len de) else None) de with
      | Panic f => Panic f
      | Val de => Val (s <| LRUniCache.lru_cache_encoder := en |>
                         <| LRUniCache.lru_cache_decoder := de |>)
      end
  end.

(** ** Association lists *)

Section assoc.
Context {K V : Type} `{EqDecision K, EqDecision V}.
Implicit Types l : list (K * V).

Lemma elem_of_keys l k : k ∈ l.*1 ↔ ∃ v, (k, v) ∈ l.
Proof.
  rewrite list_elem_of_fmap. split; [intros ([k' v] & -> & ?); eauto|intros [v ?]; by exists (k, v)].
Qed.

Lemma key_unique l k v v' : NoDup l.*1 → (k, v) ∈ l → (k, v') ∈ l → v = v'.
Proof.
  intros Hnd [i Hi]%list_elem_of_lookup [j Hj]%list_elem_of_lookup.
  assert (i = j) as ->; [|congruence].
  eapply (NoDup_lookup l.*1); [done|rewrite list_lookup_fmap, Hi|rewrite list_lookup_fmap, Hj]; done.
Qed.

Lemma without_notin l k : k ∉ l.*1 → without k l = l.
Proof.
  intros Hk. unfold without. induction l as [|[k' v] l IH]; [done|]. cbn in Hk.
  rewrite not_elem_of_cons in Hk. destruct Hk as [Hne Hk]. rewrite filter_cons_True by (cbn; congruence).
  by rewrite IH.
Qed.

Lemma without_perm l k v : NoDup l.*1 → (k, v) ∈ l → l ≡ₚ (k, v) :: without k l.
Proof.
  induction l as [|[k' v'] l IH]; intros Hnd Hin; [by apply elem_of_nil in Hin|].
  apply NoDup_cons in Hnd as [Hk' Hnd]. cbn in Hk'. apply elem_of_cons in Hin as [[= -> ->]|Hin].
  - unfold without. rewrite filter_cons_False by (cbn; tauto). fold (without k' l).
    by rewrite without_notin.
  - assert (k' ≠ k) by (intros ->; apply Hk', elem_of_keys; eauto). unfold without.
    rewrite filter_cons_True by done. fold (without k l). rewrite (IH Hnd Hin) at 1. constructor.
Qed.

End assoc.

Section swapping.
Context {K V : Type} `{EqDecision K, EqDecision V}.
Implicit Types l : list (K * V).

Abbreviation swap := (prod_swap (A := K) (B := V)).

Lemma swap_keys l : (swap <$> l).*1 = l.*2.
Proof. rewrite <-list_fmap_compose. by apply list_fmap_ext. Qed.

Lemma without_swap l k v :
  NoDup l.*1 → NoDup l.*2 → (k, v) ∈ l → without v (swap <$> l) = swap <$> without k l.
Proof.
  intros Hk Hv Hin.
  assert (Heq : ∀ p, p ∈ l → p.1 = k ↔ p.2 = v).
  { intros [k' v'] Hp. cbn. split; intros ->.
    - by eapply key_unique.
    - eapply (key_unique (swap <$> l)); [by rewrite swap_keys| |];
        apply list_elem_of_fmap; [by exists (k', v)|by exists (k, v)]. }
  clear Hin Hk Hv. unfold without. induction l as [|[k' v'] l IH]; [done|]. cbn.
  pose proof (Heq (k', v') ltac:(left)) as Hp. cbn in Hp.
  specialize (IH (λ p Hin, Heq p (list_elem_of_further _ _ _ Hin))).
  repeat case_decide; cbn; first [exact IH|by f_equal|exfalso; tauto].
Qed.
End swapping.

(** ** An encoder and a decoder in step *)

Section lockstep.
Context {X E : Type} `{LruCache X E, LruCache E X, DefaultEncoded E, EqDecision X, EqDecision E,
  !LruLaws X E, !LruLaws E X}.
Import LRUniCache.
Abbreviation Self := (t (lru X E) (lru E X) E).
Implicit Types l : list (X * E).

(** The encodings in use are the first ones, and the next one follows. *)
Record coded l (enc : E) : Prop := {
  coded_values : Val <$> l.*2 ≡ₚ nth_encoding <$> seq 1 (length l);
  coded_next : nth_encoding (length l) = Val enc
}.

(** [de] is [en] with keys and values swapped. *)
Record mirror (sz : N) (en : lru X E) (de : lru E X) (enc : E) : Prop := {
  mi_caps : lru_cap en = sz ∧ lru_cap de = sz;
  mi_swap : lru_iter de = prod_swap <$> lru_iter en;
  mi_keys : NoDup (lru_iter en).*1;
  mi_len : len (lru_iter en) ≤ sz;
  mi_coded : coded (lru_iter en) enc
}.

Lemma coded_nodup sz l enc : enough_encodings E sz → len l ≤ sz → coded l enc → NoDup l.*2.
Proof.
  intros Henough Hlen [Hp _]. apply (NoDup_fmap_1 Val). rewrite Hp.
  apply NoDup_fmap_2_strong; [|apply NoDup_seq]. intros k k' Hk Hk' Heq.
  apply elem_of_seq in Hk, Hk'. unfold len in Hlen.
  apply (encodings_differ _ _ Henough); [lia|lia|done].
Qed.

Lemma coded_perm l l' enc : l ≡ₚ l' → coded l enc → coded l' enc.
Proof.
  intros Hp [Hv Hn]. split; by rewrite <-Hp.
Qed.

(** One value changes its key. *)
Lemma coded_rekey l x e x' enc : coded (l ++ [(x, e)]) enc → coded ((x', e) :: l) enc.
Proof.
  intros [Hv Hn]. rewrite length_app in *. cbn in *. split; cbn; [|by rewrite Nat.add_comm in Hn].
  rewrite Nat.add_comm in Hv. cbn in Hv. rewrite <-Hv, !fmap_app. cbn. solve_Permutation.
Qed.

Lemma coded_fresh sz l enc added x :
  enough_encodings E sz → len l < sz → coded l enc → encoded_add enc encoded_one = Val added →
  coded ((x, added) :: l) added ∧ added ∉ l.*2.
Proof.
  intros Henough Hlen [Hv Hn] Hadd.
  assert (Hnext : nth_encoding (S (length l)) = Val added) by (cbn; by rewrite Hn).
  assert (Hc : coded ((x, added) :: l) added).
  { split; [|exact Hnext]. cbn [length fmap list_fmap snd]. rewrite seq_S, fmap_app, <-Hv. cbn [fmap list_fmap].
    replace (1 + length l)%nat with (S (length l)) by lia. rewrite Hnext. solve_Permutation. }
  split; [done|]. assert (Hnd : NoDup ((x, added) :: l).*2).
  { eapply coded_nodup; [done| |done]. rewrite len_cons. lia. }
  by apply NoDup_cons in Hnd as [? _].
Qed.

Lemma next_exists sz l enc :
  enough_encodings E sz → len l < sz → coded l enc →
  ∃ added, encoded_add enc encoded_one = Val added.
Proof.
  intros Henough Hlen [_ Hn]. unfold len in Hlen.
  destruct (encodings_exist _ _ Henough (S (length l))) as [e He]; [lia|].
  cbn in He. rewrite Hn in He. by exists e.
Qed.

Lemma mirror_keys sz en de enc : mirror sz en de enc → (lru_iter de).*1 = (lru_iter en).*2.
Proof. intros []. by rewrite mi_swap0, swap_keys. Qed.

(** A field that is in the cache. *)
Lemma mirror_get sz en de enc x e :
  enough_encodings E sz → mirror sz en de enc → (x, e) ∈ lru_iter en →
  (lru_get x en).1 = Some e ∧ (lru_get e de).1 = Some x ∧
  mirror sz (lru_get x en).2 (lru_get e de).2 enc.
Proof.
  intros Henough [[Hc1 Hc2] Hswap Hkeys Hlen Hcoded] Hin.
  assert (Hin' : (e, x) ∈ lru_iter de) by (rewrite Hswap; apply list_elem_of_fmap; by exists (x, e)).
  pose proof (coded_nodup _ _ _ Henough Hlen Hcoded) as Hnd.
  destruct (get_some x e en Hkeys Hin) as (E1 & I1 & C1).
  destruct (get_some e x de) as (E2 & I2 & C2); [by rewrite Hswap, swap_keys|done|].
  pose proof (without_perm _ _ _ Hkeys Hin) as Hp.
  split_and!; [done|done|]. split; rewrite ?I1, ?I2.
  - by rewrite C1, C2.
  - cbn. rewrite Hswap. f_equal. by apply without_swap.
  - by rewrite <-Hp.
  - unfold len in *. by rewrite <-Hp.
  - by eapply coded_perm.
Qed.

(** A field that is not, in a full cache. *)
Lemma mirror_replace sz en de enc x :
  enough_encodings E sz → sz ≠ 0 → mirror sz en de enc → x ∉ (lru_iter en).*1 →
  len (lru_iter en) = sz →
  ∃ y e, (lru_pop_lru en).1 = Some (y, e) ∧ (lru_pop_lru de).1 = Some (e, y) ∧
    mirror sz (lru_push x e (lru_pop_lru en).2).2 (lru_push e x (lru_pop_lru de).2).2 enc.
Proof.
  intros Henough Hsz [[Hc1 Hc2] Hswap Hkeys Hlen Hcoded] Hx Hfull.
  destruct (decide (lru_iter en = [])) as [Hnil|Hne]; [rewrite Hnil in Hfull; done|].
  destruct (exists_last Hne) as (l & [y e] & Hl). rewrite Hl in *. rewrite fmap_app in Hswap.
  destruct (pop_lru_snoc en l (y, e) Hl) as (E1 & I1 & C1).
  destruct (pop_lru_snoc de (prod_swap <$> l) (e, y) Hswap) as (E2 & I2 & C2).
  exists y, e. split_and!; [done|done|].
  pose proof (coded_nodup _ _ _ Henough Hlen Hcoded) as Hnd.
  rewrite fmap_app in Hnd. cbn in Hnd. apply NoDup_app in Hnd as (_ & He & _).
  assert (Hx' : x ∉ (lru_iter (lru_pop_lru en).2).*1).
  { rewrite I1. intros Hin. apply Hx. rewrite fmap_app, elem_of_app. by left. }
  assert (He' : e ∉ (lru_iter (lru_pop_lru de).2).*1).
  { rewrite I2, swap_keys. intros Hin. apply (He e Hin). left. }
  rewrite len_app, len_cons, len_nil in Hlen.
  destruct (push_room x e _ Hx') as [J1 D1]; [rewrite lru_len_iter, I1, C1; lia|].
  destruct (push_room e x _ He') as [J2 D2].
  { rewrite lru_len_iter, I2, C2. unfold len in *. rewrite length_fmap. lia. }
  rewrite fmap_app in Hkeys. apply NoDup_app in Hkeys as (Hkeys & _ & _). rewrite I1 in Hx'.
  split; rewrite ?J1, ?J2, ?D1, ?D2, ?I1, ?I2, ?C1, ?C2; [done|done|by constructor| |].
  - rewrite len_cons. lia.
  - by eapply coded_rekey.
Qed.

(** And in a cache that has room. *)
Lemma mirror_add sz en de enc x added :
  enough_encodings E sz → mirror sz en de enc → x ∉ (lru_iter en).*1 →
  len (lru_iter en) < sz → encoded_add enc encoded_one = Val added →
  mirror sz (lru_push x added en).2 (lru_push added x de).2 added.
Proof.
  intros Henough [[Hc1 Hc2] Hswap Hkeys Hlen Hcoded] Hx Hroom Hadd.
  destruct (coded_fresh _ _ _ _ x Henough Hroom Hcoded Hadd) as [Hc Hnew].
  destruct (push_room x added en Hx) as [J1 D1]; [rewrite lru_len_iter, Hc1; lia|].
  destruct (push_room added x de) as [J2 D2].
  { by rewrite Hswap, swap_keys. }
  { rewrite lru_len_iter, Hc2, Hswap. unfold len in *. rewrite length_fmap. lia. }
  split; rewrite ?J1, ?J2, ?D1, ?D2; [done|by rewrite Hswap|by constructor| |done].
  rewrite len_cons. lia.
Qed.

Definition lru_in_step (n : N) (a b : Self) : Prop :=
  enough_encodings E (size a) ∧ size a ≠ 0 ∧ size b = size a ∧ encoding b = encoding a ∧
  mirror (size a) (lru_cache_encoder a) (lru_cache_decoder b) (encoding a).

Lemma lru_new_in_step sz :
  enough_encodings E sz ∧ sz ≠ 0 → ∃ c : Self, new sz = Val c ∧ lru_in_step 0 c c.
Proof.
  intros [Henough Hsz]. unfold new. rewrite (proj2 (N.eqb_neq _ _) Hsz). eexists. split; [done|].
  split_and!; cbn; [done..|]. split; rewrite ?cap_new, ?iter_new; [done|done|constructor|rewrite len_nil; lia|].
  by split.
Qed.

Lemma lru_step_in_step n (a b : Self) x :
  lru_in_step n a b → n + 1 < usize_mod →
  ∃ r a' b', try_encode x a = (Val r, a') ∧ decode r b = (Val x, b') ∧ lru_in_step (n + 1) a' b'.
Proof.
  intros (Henough & Hsz & Esz & Eenc & Hm) _. unfold try_encode, decode, next_encoding.
  destruct (decide (x ∈ (lru_iter (lru_cache_encoder a)).*1)) as [[e Hin]%elem_of_keys|Hx].
  - destruct (mirror_get _ _ _ _ _ _ Henough Hm Hin) as (E1 & E2 & Hm').
    unfold bind, gets, modify, ret, unwrap. destruct (lru_get x _) as [r1 en] eqn:G1. cbn in E1.
    subst r1. destruct (lru_get e _) as [r2 de] eqn:G2. cbn in E2, Hm'. subst r2.
    do 3 eexists. split; [reflexivity|]. cbn. rewrite G2. cbn. split; [reflexivity|].
    split_and!; done.
  - destruct (get_none x (lru_cache_encoder a) Hx) as (E1 & I1 & C1).
    unfold bind, gets, modify, ret, unwrap, lift.
    destruct (lru_get x (lru_cache_encoder a)) as [r1 en] eqn:G1. cbn in E1, I1, C1. subst r1.
    assert (Hm1 : mirror (size a) en (lru_cache_decoder b) (encoding a)).
    { destruct Hm as [[? ?] ? ? ? ?]. split; rewrite ?I1, ?C1; done. }
    rewrite <-I1 in Hx. clear Hm I1 C1 G1.
    assert (Hlens : lru_len en = len (lru_iter en) ∧
      lru_len (lru_cache_decoder b) = len (lru_iter en)).
    { rewrite !lru_len_iter, (mi_swap _ _ _ _ Hm1). unfold len. by rewrite length_fmap. }
    destruct Hlens as [L1 L2]. rewrite L1. cbn. pose proof (mi_len _ _ _ _ Hm1) as Hlen.
    destruct (N.eqb_spec (len (lru_iter en)) (size a)) as [Hfull|Hroom].
    + destruct (mirror_replace _ _ _ _ x Henough Hsz Hm1 Hx Hfull) as (y & e & P1 & P2 & Hm2).
      destruct (lru_pop_lru en) as [p1 en']. cbn in P1, Hm2. subst p1.
      destruct (lru_pop_lru (lru_cache_decoder b)) as [p2 de']. cbn in P2, Hm2. subst p2.
      do 3 eexists. split; [reflexivity|]. cbn. rewrite L2, Esz, (proj2 (N.eqb_eq _ _) Hfull). cbn.
      split; [reflexivity|]. split_and!; done.
    + assert (Hroom' : len (lru_iter en) < size a) by lia.
      destruct (next_exists _ _ _ Henough Hroom' (mi_coded _ _ _ _ Hm1)) as [added Hadd].
      pose proof (mirror_add _ _ _ _ x added Henough Hm1 Hx Hroom' Hadd) as Hm2.
      do 3 eexists. split; [cbn; rewrite Hadd; cbn; reflexivity|]. cbn.
      rewrite L2, Esz, (proj2 (N.eqb_neq _ _) Hroom). cbn. rewrite Eenc, Hadd. cbn.
      split; [reflexivity|]. split_and!; done.
Qed.

#[export] Instance LRUniCache_lockstep : Lockstep Self X E := {|
  fits sz := enough_encodings E sz ∧ sz ≠ 0;
  in_step := lru_in_step;
  new_in_step := lru_new_in_step;
  step_in_step := lru_step_in_step
|}.

(** *** Clones *)

Lemma push_all (c : lru E X) l :
  NoDup (l.*2) → (∀ e, e ∈ l.*2 → e ∉ (lru_iter c).*1) →
  len (lru_iter c) + len l ≤ lru_cap c →
  let c' := foldl (λ c p, (lru_push p.2 p.1 c).2) c l in
  lru_iter c' = reverse (prod_swap <$> l) ++ lru_iter c ∧ lru_cap c' = lru_cap c.
Proof.
  revert c. induction l as [|[x e] l IH]; intros c Hnd Hnew Hlen; [done|]. cbn [foldl fst snd].
  rewrite fmap_cons in Hnd, Hnew. rewrite len_cons in Hlen. apply NoDup_cons in Hnd as [He Hnd].
  destruct (push_room e x c) as [Ei Ec].
  { apply Hnew. left. }
  { rewrite lru_len_iter. lia. }
  destruct (IH (lru_push e x c).2 Hnd) as [Ei' Ec'].
  - rewrite Ei. cbn. intros e' He' [->|Hin]%elem_of_cons; [done|].
    by apply (Hnew e'); [right|].
  - rewrite Ei, Ec, len_cons. lia.
  - rewrite Ei', Ec', Ei, Ec. by rewrite fmap_cons, reverse_cons, <-app_assoc.
Qed.

(** A clone decodes what comes next.  Whatever an encoder has encoded before: the clone of its cache
    decodes every stream that the encoder goes on with. *)
Theorem lru_clone_decodes n (a b : Self) fields :
  in_step n a b → n + len fields < usize_mod →
  ∃ c rs a' c', clone a = Val c ∧ encode_all fields a = (Val rs, a') ∧
    decode_all rs c = (Val fields, c').
Proof.
  intros (Henough & Hsz & _ & _ & Hm) Hn.
  destruct Hm as [[Hc1 _] _ Hkeys Hlen Hcoded]. unfold clone. rewrite (proj2 (N.eqb_neq _ _) Hsz).
  set (l := lru_iter (lru_cache_encoder a)) in *.
  destruct (push_all (lru_new (size a)) (reverse l)) as [Ei Ec].
  - rewrite fmap_reverse. rewrite reverse_Permutation. by eapply coded_nodup.
  - intros e _. rewrite iter_new. apply not_elem_of_nil.
  - rewrite iter_new, cap_new, len_nil. unfold len in *. rewrite length_reverse. lia.
  - rewrite iter_new, app_nil_r, fmap_reverse, reverse_involutive in Ei. rewrite cap_new in Ec.
    set (c := {| lru_cache_encoder := lru_new 1; lru_cache_decoder := foldl _ _ _;
                 encoding := encoding a; size := size a |}).
    assert (Hs : in_step n a c) by (split_and!; done).
    destruct (stream_in_step n a c fields Hs Hn) as (rs & a' & c' & Ea & Ec' & _).
    exists c, rs, a', c'. split_and!; done.
Qed.

(** C36.  Encoding and decoding are inverse.  If the encodings suffice for its size, a cache decodes every
    stream of fields that another cache of this size has encoded. *)
Theorem lru_roundtrip sz (fields : list X) :
  enough_encodings E sz → sz ≠ 0 → len fields < usize_mod →
  ∃ c rs a b, (LRUniCache.new sz : outcome Self) = Val c ∧
    encode_all fields c = (Val rs, a) ∧ decode_all rs c = (Val fields, b).
Proof.
  intros Henough Hsz Hn.
  destruct (stream_roundtrip (C := Self) (X := X) (E := E) sz fields)
    as (c & rs & a & b & ? & ? & ? & _); [by split|done|]. by exists c, rs, a, b.
Qed.

(** Clones are made to be sent to followers, but their encoder is empty: deserializing a clone from
    a format that tells lengths panics. *)
Theorem clone_cannot_be_deserialized (s c : Self) :
  clone s = Val c → LRUniCache_through_serde true c = Panic UnwrapNone.
Proof.
  unfold clone. destruct (size s =? 0); [done|]. intros [= <-].
  unfold LRUniCache_through_serde, LruWrapper.serialize. cbn. by rewrite iter_new.
Qed.
End lockstep.

(** ** What serde does to a cache *)

Section serde.
Context {K V : Type} `{LruCache K V, EqDecision K, EqDecision V, !LruLaws K V}.

Lemma push_pairs (c : lru K V) (l : list (K * V)) :
  NoDup l.*1 → (∀ k, k ∈ l.*1 → k ∉ (lru_iter c).*1) →
  len (lru_iter c) + len l ≤ lru_cap c →
  let c' := foldl (λ c p, (lru_push p.1 p.2 c).2) c l in
  lru_iter c' = reverse l ++ lru_iter c ∧ lru_cap c' = lru_cap c.
Proof.
  revert c. induction l as [|[k v] l IH]; intros c Hnd Hnew Hlen; [done|]. cbn [foldl fst snd].
  rewrite fmap_cons in Hnd, Hnew. rewrite len_cons in Hlen. apply NoDup_cons in Hnd as [Hk Hnd].
  destruct (push_room k v c) as [Ei Ec].
  { apply Hnew. left. }
  { rewrite lru_len_iter. lia. }
  destruct (IH (lru_push k v c).2 Hnd) as [Ei' Ec'].
  - rewrite Ei. cbn. intros k' Hk' [->|Hin]%elem_of_cons; [done|]. by apply (Hnew k'); [right|].
  - rewrite Ei, Ec, len_cons. lia.
  - rewrite Ei', Ec', Ei, Ec. by rewrite reverse_cons, <-app_assoc.
Qed.

(** Deserializing shrinks a cache.  What is deserialized from a serialized cache has the same content,
    in the same order of use, but its capacity is the number of its elements; and the cache
    that is empty cannot be deserialized at all. *)
Theorem deserialized_capacity_is_length (c : lru K V) :
  NoDup (lru_iter c).*1 →
  match LruWrapper.visit_seq (Some (len (LruWrapper.serialize c))) (LruWrapper.serialize c) with
  | Val c' => lru_iter c' = lru_iter c ∧ lru_cap c' = lru_len c ∧ lru_iter c ≠ []
  | Panic f => f = UnwrapNone ∧ lru_iter c = []
  end.
Proof.
  intros Hkeys. unfold LruWrapper.visit_seq, LruWrapper.serialize. cbn [default]. unfold id.
  assert (Hl : len (reverse (lru_iter c)) = len (lru_iter c)) by (unfold len; by rewrite length_reverse).
  destruct (N.eqb_spec (len (reverse (lru_iter c))) 0) as [E|E]; rewrite Hl in *; cbv iota beta.
  - split; [done|]. destruct (lru_iter c); [done|]. by rewrite len_cons in E; lia.
  - destruct (push_pairs (lru_new (len (lru_iter c))) (reverse (lru_iter c))) as [Ei Ec].
    + by rewrite fmap_reverse, reverse_Permutation.
    + intros k _. rewrite iter_new. apply not_elem_of_nil.
    + rewrite iter_new, cap_new, len_nil, Hl. lia.
    + rewrite Ei, Ec, iter_new, cap_new, lru_len_iter, app_nil_r, reverse_involutive.
      split_and!; [done..|]. intros Hnil. by rewrite Hnil in E.
Qed.
End serde.
