(* ===== verification/Lfu.v ===== *)
(** * The cache with least-frequently-used eviction (unicache/lfu/mod.rs, unicache/lfu_cache.rs)

    [LFUCache] keeps a value and a count per key, and per count a [LinkedHashSet] of the keys with
    this count, from the least to the most recently used; [min_frequency] is the least count.  The
    crate [linked_hash_set] is an interface here, with what its documentation promises. *)

From S2P Require Import Prelude Unicache.

(** ** The crate [linked_hash_set] *)

Class LinkedHashSet (K : Type) : Type := {
  lhs : Type;
  lhs_default : lhs;
  lhs_iter : lhs → list K;
  lhs_insert : K → lhs → lhs;
  lhs_remove : K → lhs → lhs;
  lhs_pop_front : lhs → option K * lhs;
  lhs_is_empty : lhs → bool
}.
#[global] Arguments lhs K {_}.

(** An element that is inserted again moves to the end. *)
Class LinkedHashSetLaws (K : Type) `{LinkedHashSet K, EqDecision K} : Prop := {
  lhs_iter_default : lhs_iter (K := K) lhs_default = [];
  lhs_iter_insert k s : lhs_iter (lhs_insert k s) = filter (.≠ k) (lhs_iter s) ++ [k];
  lhs_iter_remove k s : lhs_iter (lhs_remove k s) = filter (.≠ k) (lhs_iter s);
  lhs_pop_nil s : lhs_iter s = [] → (lhs_pop_front s).1 = None;
  lhs_pop_cons s k l : lhs_iter s = k :: l →
    (lhs_pop_front s).1 = Some k ∧ lhs_iter (lhs_pop_front s).2 = l;
  lhs_is_empty_iter s : lhs_is_empty s = true ↔ lhs_iter s = []
}.

(** The order in which a [HashMap] is visited is not specified. *)
Class MapIter : Type := {
  map_iter : ∀ {K : Type} `{Countable K} {V : Type}, gmap K V → list (K * V)
}.
Class MapIterLaws `{MapIter} : Prop := {
  map_iter_perm `{Countable K} {V} (m : gmap K V) : map_iter m ≡ₚ map_to_list m
}.

(** ** The cache of the crate [lfu] *)

Record ValueCounter (V : Type) : Type := mkValueCounter { value : V; count : N }.
#[global] Arguments mkValueCounter {V}.
#[global] Arguments value {V}.
#[global] Arguments count {V}.

Module LFUCache.
Record t (K V Bin : Type) `{Countable K} : Type := mk {
  values : gmap K (ValueCounter V);
  frequency_bin : gmap N Bin;
  capacity : N;
  min_frequency : N
}.
#[global] Arguments mk {K V Bin _ _}.
#[global] Arguments values {K V Bin _ _}.
#[global] Arguments frequency_bin {K V Bin _ _}.
#[global] Arguments capacity {K V Bin _ _}.
#[global] Arguments min_frequency {K V Bin _ _}.
#[global] Instance settable_values {K V Bin} `{Countable K} : Settable (@values K V Bin _ _) := λ f r,
  mk (f (values r)) (frequency_bin r) (capacity r) (min_frequency r).
#[global] Instance settable_frequency_bin {K V Bin} `{Countable K} :
    Settable (@frequency_bin K V Bin _ _) := λ f r,
  mk (values r) (f (frequency_bin r)) (capacity r) (min_frequency r).
#[global] Instance settable_min_frequency {K V Bin} `{Countable K} :
    Settable (@min_frequency K V Bin _ _) := λ f r,
  mk (values r) (frequency_bin r) (capacity r) (f (min_frequency r)).

Section ops.
Context {K V : Type} `{Build, Countable K, LinkedHashSet K}.
Abbreviation Self := (t K V (lhs K)).

Definition with_capacity (capacity : N) : outcome Self :=
  if capacity =? 0 then Panic ExplicitPanic
  else Val {| values := ∅; frequency_bin := ∅; capacity := capacity; min_frequency := 0 |}.

Definition contains (key : K) (self : Self) : bool := bool_decide (is_Some (values self !! key)).
Definition length (self : Self) : N := N.of_nat (size (values self)).
Definition is_empty (self : Self) : bool := length self =? 0.

(** [frequency_bin.entry(count).or_default()] *)
Definition bin_or_default (count : N) (self : Self) : lhs K :=
  default lhs_default (frequency_bin self !! count).

Definition remove (key : K) : M Self (option V) :=
  let* s := gets (λ s, s) in
  match values s !! key with
  | Some value_counter =>
      let c := count value_counter in
      let* _ := modify (λ s, s <| frequency_bin ::= <[c := lhs_remove key (bin_or_default c s)]> |>) in
      let* _ := modify (λ s, s <| values ::= delete key |>) in
      ret (Some (value value_counter))
  | None => ret None
  end.

Definition update_frequency_bin (key : K) : M Self unit :=
  let* s := gets (λ s, s) in
  match values s !! key with
  | Some value_counter =>
      let c := count value_counter in
      let* bin := unwrap (frequency_bin s !! c) in
      let bin := lhs_remove key bin in
      let* _ := modify (λ s, s <| frequency_bin ::= <[c := bin]> |>) in
      let* inc := lift (wadd usize_mod c 1) in
      let* _ := modify (λ s, s <| values ::= <[key := mkValueCounter (value value_counter) inc]> |>) in
      let* _ := when ((c =? min_frequency s) && lhs_is_empty bin)
        (let* m := lift (wadd usize_mod (min_frequency s) 1) in
         modify (λ s, s <| min_frequency := m |>)) in
      let* next := lift (wadd usize_mod c 1) in
      modify (λ s, s <| frequency_bin ::= <[next := lhs_insert key (bin_or_default next s)]> |>)
  | None => ret tt
  end.

Definition get (key : K) : M Self (option V) :=
  let* _ := update_frequency_bin key in
  let* s := gets (λ s, s) in
  ret (value <$> values s !! key).

(** [get_mut]: [write] is what the caller does with the reference it is given. *)
Definition get_mut (key : K) (write : V → V) : M Self (option V) :=
  let* _ := update_frequency_bin key in
  let* s := gets (λ s, s) in
  match values s !! key with
  | Some vc =>
      let* _ := modify (λ s, s <| values ::= <[key := mkValueCounter (write (value vc)) (count vc)]> |>) in
      ret (Some (value vc))
  | None => ret None
  end.

(** The common part of the three evictions: the key that [pop_front] takes, and its value. *)
Definition pop_least (bin : lhs K) : M Self (K * option V) :=
  let* s := gets (λ s, s) in
  let (popped, bin) := lhs_pop_front bin in
  let* _ := modify (λ s, s <| frequency_bin ::= <[min_frequency s := bin]> |>) in
  let* least_recently_used := unwrap popped in
  let* _ := modify (λ s, s <| values ::= delete least_recently_used |>) in
  ret (least_recently_used, value <$> values s !! least_recently_used).

Definition evict : M Self unit :=
  let* s := gets (λ s, s) in
  let* bin := unwrap (frequency_bin s !! min_frequency s) in
  let* _ := pop_least bin in ret tt.
Definition evict_and_return_key : M Self (option K) :=
  let* s := gets (λ s, s) in
  match frequency_bin s !! min_frequency s with
  | Some bin => let* p := pop_least bin in ret (Some p.1)
  | None => ret None
  end.
Definition evict_and_return_value : M Self (option V) :=
  let* s := gets (λ s, s) in
  match frequency_bin s !! min_frequency s with
  | Some bin => let* p := pop_least bin in ret p.2
  | None => ret None
  end.

(** The end of [set], for a key that is not in the cache. *)
Definition insert_new (key : K) (v : V) : M Self unit :=
  let* _ := modify (λ s, s <| values ::= <[key := mkValueCounter v 1]> |>) in
  let* _ := modify (λ s, s <| min_frequency := 1 |>) in
  modify (λ s, s <| frequency_bin ::= <[1 := lhs_insert key (bin_or_default 1 s)]> |>).

Definition set (key : K) (v : V) : M Self unit :=
  let* s := gets (λ s, s) in
  match values s !! key with
  | Some value_counter =>
      let* _ := modify (λ s, s <| values ::= <[key := mkValueCounter v (count value_counter)]> |>) in
      update_frequency_bin key
  | None =>
      let* _ := when (capacity s <=? length s) evict in insert_new key v
  end.

(** [LfuIterator] and [LfuConsumer]: an item of [HashMap]'s iterators without the count. *)
Definition item (kv : K * ValueCounter V) : K * V := (kv.1, value kv.2).
Definition iter `{MapIter} (self : Self) : list (K * V) := item <$> map_iter (values self).
Definition into_iter `{MapIter} (self : Self) : list (K * V) := item <$> map_iter (values self).

(** [self[index]] *)
Definition index (key : K) (self : Self) : outcome V :=
  match values self !! key with Some vc => Val (value vc) | None => Panic UnwrapNone end.
End ops.
End LFUCache.

(** Iterating visits every key once, with its value. *)
Lemma iter_items {K V} `{Countable K, LinkedHashSet K, MapIterLaws} (c : LFUCache.t K V (lhs K)) :
  NoDup (LFUCache.iter c).*1 ∧
  ∀ k v, (k, v) ∈ LFUCache.iter c ↔ value <$> LFUCache.values c !! k = Some v.
Proof.
  unfold LFUCache.iter. split.
  - rewrite <-list_fmap_compose.
    change (NoDup (fst <$> map_iter (LFUCache.values c))). rewrite map_iter_perm.
    apply NoDup_fst_map_to_list.
  - intros k v. rewrite list_elem_of_fmap, fmap_Some. split.
    + intros ([k' vc] & [= -> ->] & Hin). rewrite map_iter_perm in Hin.
      apply elem_of_map_to_list in Hin. by exists vc.
    + intros (vc & Hk & ->). exists (k, vc). split; [done|].
      rewrite map_iter_perm. by apply elem_of_map_to_list.
Qed.

(** ** The cache of field values *)

Module LFUniCache.
Record t (En De E : Type) : Type := mk {
  lfu_cache_encoder : En;
  lfu_cache_decoder : De;
  encoding : E;
  size : N
}.
#[global] Arguments mk {En De E}.
#[global] Arguments lfu_cache_encoder {En De E}.
#[global] Arguments lfu_cache_decoder {En De E}.
#[global] Arguments encoding {En De E}.
#[global] Arguments size {En De E}.
#[global] Instance settable_encoder {En De E} : Settable (@lfu_cache_encoder En De E) := λ f r,
  mk (f (lfu_cache_encoder r)) (lfu_cache_decoder r) (encoding r) (size r).
#[global] Instance settable_decoder {En De E} : Settable (@lfu_cache_decoder En De E) := λ f r,
  mk (lfu_cache_encoder r) (f (lfu_cache_decoder r)) (encoding r) (size r).
#[global] Instance settable_encoding {En De E} : Settable (@encoding En De E) := λ f r,
  mk (lfu_cache_encoder r) (lfu_cache_decoder r) (f (encoding r)) (size r).

Section ops.
Context {X E : Type} `{Build, Countable X, Countable E, LinkedHashSet X, LinkedHashSet E,
  DefaultEncoded E}.
Abbreviation Self := (t (LFUCache.t X E (lhs X)) (LFUCache.t E X (lhs E)) E).

Definition new (size : N) : outcome Self :=
  match LFUCache.with_capacity size, LFUCache.with_capacity size with
  | Val en, Val de => Val {| lfu_cache_encoder := en; lfu_cache_decoder := de;
                             encoding := encoded_default; size := size |}
  | Panic f, _ | _, Panic f => Panic f
  end.

(** [enc.add(one)], after [mem::take] has put the default into its place. *)
Definition next_encoding : M Self E :=
  let* s := gets (λ s, s) in
  let* _ := modify (λ s, s <| encoding := encoded_default |>) in
  lift (encoded_add (encoding s) encoded_one).

Definition try_encode (field : X) : M Self (MaybeEncoded X E) :=
  let* r := zoom lfu_cache_encoder (LFUCache.get field) in
  match r with
  | Some encoding => ret (IsEncoded encoding)
  | None =>
      let* s := gets (λ s, s) in
      let* _ :=
        if LFUCache.length (lfu_cache_encoder s) =? size s then
          let* popped := zoom lfu_cache_encoder LFUCache.evict_and_return_value in
          let* popped_encoding := unwrap popped in
          zoom lfu_cache_encoder (LFUCache.set field popped_encoding)
        else
          let* added := next_encoding in
          let* _ := zoom lfu_cache_encoder (LFUCache.set field added) in
          modify (λ s, s <| encoding := added |>) in
      ret (NotEncoded field)
  end.

Definition decode (result : MaybeEncoded X E) : M Self X :=
  match result with
  | IsEncoded encoding =>
      let* r := zoom lfu_cache_decoder (LFUCache.get encoding) in unwrap r
  | NotEncoded not_encodable =>
      let* s := gets (λ s, s) in
      let* _ :=
        if LFUCache.length (lfu_cache_decoder s) =? size s then
          let* popped := zoom lfu_cache_decoder LFUCache.evict_and_return_key in
          let* popped_encoded := unwrap popped in
          zoom lfu_cache_decoder (LFUCache.set popped_encoded not_encodable)
        else
          let* added := next_encoding in
          let* _ := zoom lfu_cache_decoder (LFUCache.set added not_encodable) in
          modify (λ s, s <| encoding := added |>) in
      ret not_encodable
  end.

(** [Clone]: the encoder is visited in the order of a [HashMap], and the counts are lost. *)
Definition clone `{MapIter} (s : Self) : outcome Self :=
  match LFUCache.with_capacity (size s), LFUCache.with_capacity 1 with
  | Val decoder, Val encoder =>
      match mfor (LFUCache.iter (lfu_cache_encoder s)) (λ p, LFUCache.set p.2 p.1) decoder with
      | (Val _, decoder) => Val {| lfu_cache_encoder := encoder; lfu_cache_decoder := decoder;
                                   encoding := encoding s; size := size s |}
      | (Panic f, _) => Panic f
      end
  | Panic f, _ | _, Panic f => Panic f
  end.
End ops.
End LFUniCache.

#[export] Instance LFUniCache_field_cache {X E} `{Build, Countable X, Countable E,
    LinkedHashSet X, LinkedHashSet E, DefaultEncoded E} :
    FieldCache (LFUniCache.t (LFUCache.t X E (lhs X)) (LFUCache.t E X (lhs E)) E) X E := {|
  fc_new := LFUniCache.new; fc_try_encode := LFUniCache.try_encode; fc_decode := LFUniCache.decode
|}.

(** ** serde (unicache/lfu/serialization.rs) *)

Module LinkedHashSetWrapper.
Section serde.
Context {K : Type} `{LinkedHashSet K}.
Definition serialize (s : lhs K) : list K := lhs_iter s.
Definition visit_seq (seq : list K) : lhs K := foldl (λ s k, lhs_insert k s) lhs_default seq.

(** The order of a set survives. *)
Lemma serde_roundtrip `{EqDecision K, !LinkedHashSetLaws K} (s : lhs K) :
  NoDup (lhs_iter s) → lhs_iter (visit_seq (serialize s)) = lhs_iter s.
Proof.
  intros Hs. unfold visit_seq, serialize. assert (Hgen : ∀ l s0, NoDup (lhs_iter s0 ++ l) →
    lhs_iter (foldl (λ s k, lhs_insert k s) s0 l) = lhs_iter s0 ++ l).
  { induction l as [|k l IH]; intros s0 Hnd; cbn; [by rewrite app_nil_r|].
    assert (Hins : lhs_iter (lhs_insert k s0) = lhs_iter s0 ++ [k]).
    { rewrite lhs_iter_insert. f_equal. apply filter_keep.
      intros k' Hk' ->. apply NoDup_app in Hnd as (_ & Hd & _). by apply (Hd k Hk'); left. }
    rewrite IH, Hins; [by rewrite <-app_assoc|]. by rewrite Hins, <-app_assoc. }
  by rewrite Hgen, lhs_iter_default; [|rewrite lhs_iter_default].
Qed.
End serde.
End LinkedHashSetWrapper.

(** ** The invariant of [LFUCache] *)

Section lfu.
Context {K V : Type} `{Build, Countable K, LinkedHashSet K, !LinkedHashSetLaws K}.
Import LFUCache.
Abbreviation Self := (t K V (lhs K)).
Implicit Types c : Self.

Definition bin c (f : N) : list K :=
  match frequency_bin c !! f with Some s => lhs_iter s | None => [] end.

(** The keys of a bin are those with its count; no count is above [n]. *)
Record bins_ok (n : N) c : Prop := {
  ok_bins f k : k ∈ bin c f ↔ ∃ v, values c !! k = Some (mkValueCounter v f);
  ok_count k vc : values c !! k = Some vc → 1 ≤ count vc ≤ n;
  ok_len : length c ≤ capacity c;
  ok_nodup f : NoDup (bin c f)
}.

(** [min_frequency] is the least count. *)
Record lfu_ok (n : N) c : Prop := {
  ok_wf : bins_ok n c;
  ok_least k vc : values c !! k = Some vc → min_frequency c ≤ count vc;
  ok_min : values c ≠ ∅ → ∃ k vc, values c !! k = Some vc ∧ count vc = min_frequency c
}.

Lemma bin_default c f : lhs_iter (bin_or_default f c) = bin c f.
Proof. unfold bin_or_default, bin. destruct (_ !! f); [done|]. apply lhs_iter_default. Qed.

Lemma with_capacity_ok cap :
  cap ≠ 0 → ∃ c, with_capacity cap = Val c ∧ lfu_ok 0 c ∧ capacity c = cap ∧ values c = ∅.
Proof.
  intros Hcap. unfold with_capacity. rewrite (proj2 (N.eqb_neq _ _) Hcap). eexists. split; [done|].
  split_and!; [|done..]. split; [split|..]; cbn.
  - intros f k. unfold bin. cbn. rewrite !lookup_empty. split; [by intros ?%elem_of_nil|].
    by intros [v Hv].
  - by intros k vc ?%lookup_empty_Some.
  - unfold length. cbn. rewrite map_size_empty. lia.
  - intros f. unfold bin. cbn. rewrite lookup_empty. constructor.
  - by intros k vc ?%lookup_empty_Some.
  - done.
Qed.

(** What a use of a key does. *)
Record touched (k : K) (v : V) (f : N) c c' : Prop := {
  to_values : values c' = <[k := mkValueCounter v (f + 1)]> (values c);
  to_capacity : capacity c' = capacity c;
  to_bin g : bin c' g = if g =? f then filter (.≠ k) (bin c f)
                        else if g =? f + 1 then bin c (f + 1) ++ [k] else bin c g;
  to_min : min_frequency c' = if (f =? min_frequency c) && bool_decide (filter (.≠ k) (bin c f) = [])
                              then min_frequency c + 1 else min_frequency c
}.

Lemma update_present n c k v f :
  lfu_ok n c → values c !! k = Some (mkValueCounter v f) → n + 1 < usize_mod →
  ∃ c', update_frequency_bin k c = (Val tt, c') ∧ touched k v f c c'.
Proof.
  intros Hok Hk Hn. pose proof (ok_count _ _ (ok_wf _ _ Hok) k _ Hk) as Hf. cbn in Hf.
  assert (Hin : k ∈ bin c f) by (apply (ok_bins _ _ (ok_wf _ _ Hok)); by exists v).
  unfold update_frequency_bin, bind, gets, modify, unwrap, lift, when, ret. rewrite Hk. cbn.
  unfold bin in Hin. destruct (frequency_bin c !! f) as [b|] eqn:Eb; [|by apply elem_of_nil in Hin].
  rewrite wadd_exact by lia.
  assert (Hempty : lhs_is_empty (lhs_remove k b) = bool_decide (filter (.≠ k) (bin c f) = [])).
  { apply eq_true_iff_eq. rewrite lhs_is_empty_iter, lhs_iter_remove, bool_decide_eq_true.
    unfold bin. by rewrite Eb. }
  rewrite Hempty. cbn. set (emptied := (f =? min_frequency c) && _).
  assert (Hmin : emptied = true → min_frequency c + 1 < usize_mod).
  { intros [Hm _]%andb_true_iff. apply N.eqb_eq in Hm. lia. }
  assert (Hnew : k ∉ bin c (f + 1)).
  { intros [v' Hv']%(ok_bins _ _ (ok_wf _ _ Hok)). rewrite Hk in Hv'. injection Hv'. lia. }
  assert (Hbin : ∀ g c1, frequency_bin c1 =
      <[f + 1 := lhs_insert k (default lhs_default (<[f:=lhs_remove k b]> (frequency_bin c) !! (f + 1)))]>
        (<[f := lhs_remove k b]> (frequency_bin c)) →
    bin c1 g = if g =? f then filter (.≠ k) (bin c f)
               else if g =? f + 1 then bin c (f + 1) ++ [k] else bin c g).
  { intros g c1 E. unfold bin at 1. rewrite E. destruct (N.eqb_spec g f) as [->|Hg].
    - rewrite lookup_insert_ne, lookup_insert_eq by lia. rewrite lhs_iter_remove. unfold bin.
      by rewrite Eb.
    - destruct (N.eqb_spec g (f + 1)) as [->|Hg'].
      + rewrite lookup_insert_eq, lookup_insert_ne, lhs_iter_insert by lia.
        change (default lhs_default (frequency_bin c !! (f + 1))) with (bin_or_default (f + 1) c).
        rewrite bin_default, filter_keep; [done|]. by intros k' Hk' ->.
      + by rewrite !lookup_insert_ne by lia. }
  destruct emptied eqn:Eempt; cbn.
  - rewrite wadd_exact by auto. cbn. eexists. split; [reflexivity|].
    split; cbn; [done..|by intros g; apply Hbin|].
    fold emptied. by rewrite Eempt.
  - eexists. split; [reflexivity|]. split; cbn; [done..|by intros g; apply Hbin|].
    fold emptied. by rewrite Eempt.
Qed.

(** The bins of a cache after a key has moved from one bin to the next. *)
Lemma touched_bins c c' k v f :
  (∀ g k', k' ∈ bin c g ↔ ∃ v', values c !! k' = Some (mkValueCounter v' g)) →
  values c !! k = Some (mkValueCounter v f) → touched k v f c c' →
  ∀ g k', k' ∈ bin c' g ↔ ∃ v', values c' !! k' = Some (mkValueCounter v' g).
Proof.
  intros Hbins Hk [Ev Ec Eb Em] g k'. rewrite Eb, Ev.
  destruct (N.eqb_spec g f) as [->|Hg]; [|destruct (N.eqb_spec g (f + 1)) as [->|Hg']].
  - rewrite list_elem_of_filter, Hbins. destruct (decide (k' = k)) as [->|Hne].
    + rewrite lookup_insert_eq. split; [by intros []|]. intros [v' [= _ Hf]]. lia.
    + rewrite lookup_insert_ne by done. naive_solver.
  - rewrite elem_of_app, list_elem_of_singleton, Hbins. destruct (decide (k' = k)) as [->|Hne].
    + rewrite lookup_insert_eq. split; [by exists v|by right].
    + rewrite lookup_insert_ne by done. naive_solver.
  - rewrite Hbins. destruct (decide (k' = k)) as [->|Hne].
    + rewrite lookup_insert_eq, Hk. split; intros [v' [= _ ?]]; lia.
    + by rewrite lookup_insert_ne.
Qed.

Lemma touched_ok n c c' k v f :
  lfu_ok n c → values c !! k = Some (mkValueCounter v f) → touched k v f c c' → lfu_ok (n + 1) c'.
Proof.
  intros Hok Hk [Ev Ec Eb Em]. pose proof (ok_wf _ _ Hok) as [Hbins Hcount Hlen Hnodup].
  assert (Hother : ∀ k' vc, values c' !! k' = Some vc →
    (k' = k ∧ vc = mkValueCounter v (f + 1)) ∨ (k' ≠ k ∧ values c !! k' = Some vc)).
  { intros k' vc. rewrite Ev. intros [[<- <-]|[? ?]]%lookup_insert_Some; auto. }
  split; [split|..].
  - by apply (touched_bins c c' k v f).
  - intros k' vc [[-> ->]|[_ Hk']]%Hother; cbn; [apply Hcount in Hk; cbn in Hk; lia|].
    apply Hcount in Hk'. lia.
  - unfold length in *. rewrite Ev, Ec, map_size_insert_Some; [done|by rewrite Hk].
  - intros g. rewrite Eb. destruct (N.eqb_spec g f) as [->|Hg]; [by apply NoDup_filter|].
    destruct (N.eqb_spec g (f + 1)) as [->|Hg']; [|done]. apply NoDup_app. split_and!; [done| |].
    + intros k' Hk' ->%list_elem_of_singleton. apply Hbins in Hk' as [v' Hk']. rewrite Hk in Hk'.
      injection Hk'. lia.
    + apply NoDup_singleton.
  - intros k' vc Hk'. rewrite Em. apply Hother in Hk' as [[-> ->]|[Hne Hk']]; cbn.
    + pose proof (ok_least _ _ Hok k _ Hk) as Hl. cbn in Hl. destruct (_ && _); lia.
    + pose proof (ok_least _ _ Hok k' _ Hk') as Hl. destruct (_ && _) eqn:E; [|done].
      apply andb_true_iff in E as [Hf Hempty]. apply N.eqb_eq in Hf. apply bool_decide_eq_true in Hempty.
      destruct (decide (count vc = f)) as [Hcf|]; [exfalso|lia].
      assert (Hin : k' ∈ filter (.≠ k) (bin c f)).
      { apply list_elem_of_filter. split; [done|]. apply Hbins. destruct vc as [v' g]. cbn in Hcf.
        subst g. by exists v'. }
      rewrite Hempty in Hin. by apply elem_of_nil in Hin.
  - intros _. rewrite Em, Ev. destruct (N.eqb_spec f (min_frequency c)) as [Hf|Hf]; cbn [andb];
      [case_bool_decide as Hempty|].
    + exists k, (mkValueCounter v (f + 1)). rewrite lookup_insert_eq. split; [done|]. cbn. lia.
    + destruct (filter (.≠ k) (bin c f)) as [|k' l] eqn:El; [done|].
      assert (Hin : k' ∈ filter (.≠ k) (bin c f)) by (rewrite El; left).
      apply list_elem_of_filter in Hin as [Hne [v' Hk']%Hbins].
      exists k', (mkValueCounter v' f). by rewrite lookup_insert_ne.
    + destruct (ok_min _ _ Hok) as (k' & vc & Hk' & Hm); [by intros Hemp; rewrite Hemp in Hk|].
      exists k', vc. rewrite lookup_insert_ne; [done|]. intros <-. rewrite Hk in Hk'.
      injection Hk' as <-. done.
Qed.

(** What taking out the least frequently used key does. *)
Record popped (k : K) (v : V) c c' : Prop := {
  po_values : values c' = delete k (values c);
  po_capacity : capacity c' = capacity c;
  po_min : min_frequency c' = min_frequency c;
  po_bin g : bin c' g = if g =? min_frequency c then List.tl (bin c g) else bin c g
}.

Lemma pop_present n c :
  lfu_ok n c → values c ≠ ∅ →
  ∃ b k v l c', frequency_bin c !! min_frequency c = Some b ∧ bin c (min_frequency c) = k :: l ∧
    values c !! k = Some (mkValueCounter v (min_frequency c)) ∧
    pop_least b c = (Val (k, Some v), c') ∧ popped k v c c'.
Proof.
  intros Hok Hne. destruct (ok_min _ _ Hok Hne) as (k0 & [v0 f0] & Hk0 & Hm). cbn in Hm. subst f0.
  assert (Hin : k0 ∈ bin c (min_frequency c)) by (apply (ok_bins _ _ (ok_wf _ _ Hok)); by exists v0).
  destruct (bin c (min_frequency c)) as [|k l] eqn:El; [by apply elem_of_nil in Hin|].
  assert (Hk : k ∈ bin c (min_frequency c)) by (rewrite El; left).
  apply (ok_bins _ _ (ok_wf _ _ Hok)) in Hk as [v Hk].
  pose proof El as Eb. unfold bin in Eb.
  destruct (frequency_bin c !! min_frequency c) as [b|] eqn:Efb; [|done].
  destruct (lhs_pop_cons b k l Eb) as [Ep El']. unfold pop_least, bind, gets, modify, unwrap, ret.
  destruct (lhs_pop_front b) as [p b'] eqn:Epop. cbn in Ep, El'. subst p.
  exists b, k, v, l. eexists. split_and!; [done..|rewrite Epop; cbn; rewrite Hk; reflexivity|].
  split; cbn; [done..|]. intros g. unfold bin at 1. cbn.
  destruct (N.eqb_spec g (min_frequency c)) as [->|Hg].
  - by rewrite lookup_insert_eq, El.
  - by rewrite lookup_insert_ne.
Qed.

Lemma popped_ok n c c' k v l :
  lfu_ok n c → values c !! k = Some (mkValueCounter v (min_frequency c)) →
  bin c (min_frequency c) = k :: l → popped k v c c' →
  bins_ok n c' ∧ length c' + 1 = length c.
Proof.
  intros Hok Hk El [Ev Ec Em Eb]. pose proof (ok_wf _ _ Hok) as [Hbins Hcount Hlen Hnodup].
  assert (Hsize : length c' + 1 = length c).
  { unfold length. rewrite Ev, map_size_delete_Some by done.
    assert (size (values c) ≠ 0%nat); [|lia]. intros E%map_size_empty_inv. by rewrite E in Hk. }
  split; [|done]. split.
  - intros g k'. rewrite Eb, Ev. pose proof (Hnodup (min_frequency c)) as Hnd.
    rewrite El in Hnd. apply NoDup_cons in Hnd as [Hkl _].
    destruct (decide (k' = k)) as [->|Hne].
    + rewrite lookup_delete_eq. destruct (N.eqb_spec g (min_frequency c)) as [->|Hg].
      * rewrite El. cbn. split; [done|by intros []].
      * rewrite Hbins, Hk. split; intros [v' [= _ ?]]; congruence.
    + rewrite lookup_delete_ne, <-Hbins by done.
      destruct (N.eqb_spec g (min_frequency c)) as [->|Hg]; [|done]. rewrite El. cbn.
      rewrite elem_of_cons. naive_solver.
  - intros k' vc. rewrite Ev. intros [_ Hk']%lookup_delete_Some. by eapply Hcount.
  - rewrite Ec. lia.
  - intros g. rewrite Eb. destruct (g =? min_frequency c); [|done]. pose proof (Hnodup g) as Hnd.
    destruct (bin c g); [done|]. by apply NoDup_cons in Hnd as [_ ?].
Qed.

(** What a new key does, when there is room for it. *)
Record added (k : K) (v : V) c c' : Prop := {
  ad_values : values c' = <[k := mkValueCounter v 1]> (values c);
  ad_capacity : capacity c' = capacity c;
  ad_min : min_frequency c' = 1;
  ad_bin g : bin c' g = if g =? 1 then bin c 1 ++ [k] else bin c g
}.

Lemma insert_new_spec n c k v :
  bins_ok n c → values c !! k = None → length c < capacity c →
  ∃ c', insert_new k v c = (Val tt, c') ∧ added k v c c' ∧ lfu_ok (n + 1) c'.
Proof.
  intros [Hbins Hcount Hlen Hnodup] Hk Hroom. unfold insert_new, bind, modify.
  eexists. split; [reflexivity|].
  assert (Hnew : k ∉ bin c 1) by (intros [v' Hv']%Hbins; by rewrite Hk in Hv').
  match goal with |- added _ _ _ ?x ∧ _ => set (c1 := x) end.
  assert (Ha : added k v c c1).
  { split; [done..|]. intros g. unfold bin at 1, c1. cbn.
    destruct (N.eqb_spec g 1) as [->|Hg]; [|by rewrite lookup_insert_ne].
    rewrite lookup_insert_eq, lhs_iter_insert.
    change (bin_or_default 1 _) with (bin_or_default 1 c). rewrite bin_default, filter_keep; [done|].
    by intros k' Hk' ->. }
  split; [done|]. destruct Ha as [Ev Ec Em Eb]. clearbody c1. split; [split|..].
  - intros g k'. rewrite Eb, Ev. destruct (decide (k' = k)) as [->|Hne].
    + rewrite lookup_insert_eq. destruct (N.eqb_spec g 1) as [->|Hg].
      * rewrite elem_of_app, list_elem_of_singleton. split; [by exists v|by right].
      * rewrite Hbins, Hk. split; intros [v' [= ?]]; congruence.
    + rewrite lookup_insert_ne, <-Hbins by done. destruct (N.eqb_spec g 1) as [->|Hg]; [|done].
      rewrite elem_of_app, list_elem_of_singleton. naive_solver.
  - intros k' vc. rewrite Ev. intros [[<- <-]|[_ Hk']]%lookup_insert_Some; cbn; [lia|].
    apply Hcount in Hk'. lia.
  - unfold length in *. rewrite Ev, Ec, map_size_insert_None by done. lia.
  - intros g. rewrite Eb. destruct (N.eqb_spec g 1) as [->|Hg]; [|done].
    apply NoDup_app. split_and!; [done| |apply NoDup_singleton].
    by intros k' Hk' ->%list_elem_of_singleton.
  - intros k' vc. rewrite Ev, Em. intros [[<- <-]|[_ Hk']]%lookup_insert_Some; cbn; [lia|].
    apply Hcount in Hk'. lia.
  - intros _. exists k, (mkValueCounter v 1). by rewrite Ev, lookup_insert_eq, Em.
Qed.

Lemma set_room n c k v :
  bins_ok n c → values c !! k = None → length c < capacity c → set k v c = insert_new k v c.
Proof.
  intros _ Hk Hroom. unfold set, bind, gets, when, ret. rewrite Hk.
  by rewrite (proj2 (N.leb_gt _ _) Hroom).
Qed.

(** What [set] does to a full cache. *)
Lemma set_full n c key v :
  lfu_ok n c → capacity c ≠ 0 → length c = capacity c → values c !! key = None →
  ∃ k vk l c', set key v c = (Val tt, c') ∧
    bin c (min_frequency c) = k :: l ∧ values c !! k = Some (mkValueCounter vk (min_frequency c)) ∧
    (∀ k' vc, values c !! k' = Some vc → min_frequency c ≤ count vc) ∧
    values c' = <[key := mkValueCounter v 1]> (delete k (values c)) ∧
    lfu_ok (n + 1) c' ∧ length c' = capacity c' ∧ capacity c' = capacity c.
Proof.
  intros Hok Hcap Hfull Hkey.
  assert (Hne : values c ≠ ∅).
  { intros E. unfold length in Hfull. rewrite E, map_size_empty in Hfull. lia. }
  destruct (pop_present n c Hok Hne) as (b & k & vk & l & c1 & Eb & El & Hk & Epop & Hp).
  destruct (popped_ok _ _ _ _ _ _ Hok Hk El Hp) as [Hok1 Hlen1].
  destruct Hp as [Ev1 Ec1 _ _].
  assert (Hkey1 : values c1 !! key = None) by (rewrite Ev1; by apply lookup_delete_None; right).
  destruct (insert_new_spec n c1 key v Hok1 Hkey1) as (c' & Ei & [Ev' Ec' _ _] & Hok'); [lia|].
  exists k, vk, l, c'. split_and!; [|done..|apply Hok|by rewrite Ev', Ev1|done| |congruence].
  - unfold set, bind at 1, gets, when. rewrite Hkey, (proj2 (N.leb_le _ _)) by lia.
    unfold evict, bind, gets, unwrap, ret. rewrite Eb, Epop. exact Ei.
  - unfold length in *. rewrite Ev', map_size_insert_None by done. lia.
Qed.
Lemma lfu_ok_mono n c : lfu_ok n c → lfu_ok (n + 1) c.
Proof.
  intros [[Hbins Hcount Hlen Hnodup] Hleast Hmin]. split; [split|..]; try done.
  intros k vc Hk. apply Hcount in Hk. lia.
Qed.

(** Another value under the same key and count. *)
Lemma revalue_ok n c k v v' f :
  lfu_ok n c → values c !! k = Some (mkValueCounter v f) →
  lfu_ok n (c <| values ::= <[k := mkValueCounter v' f]> |>).
Proof.
  intros [[Hbins Hcount Hlen Hnodup] Hleast Hmin] Hk. split; [split|..]; cbn.
  - intros g k'. change (k' ∈ bin c g ↔ ∃ w, <[k := mkValueCounter v' f]> (values c) !! k' =
      Some (mkValueCounter w g)). rewrite Hbins.
    destruct (decide (k' = k)) as [->|Hne].
    + rewrite lookup_insert_eq, Hk. split; intros [w [= _ <-]]; eauto.
    + by rewrite lookup_insert_ne.
  - intros k' vc [[<- <-]|[_ Hk']]%lookup_insert_Some; [by apply (Hcount k _ Hk)|by eapply Hcount].
  - unfold length in *. cbn. rewrite map_size_insert_Some; [done|by rewrite Hk].
  - exact Hnodup.
  - intros k' vc [[<- <-]|[_ Hk']]%lookup_insert_Some; [by apply (Hleast k _ Hk)|by eapply Hleast].
  - intros _. destruct Hmin as (k' & vc & Hk' & Hm); [by intros E; rewrite E in Hk|].
    destruct (decide (k' = k)) as [->|Hne].
    + exists k, (mkValueCounter v' f). rewrite Hk in Hk'. injection Hk' as <-.
      by rewrite lookup_insert_eq.
    + exists k', vc. by rewrite lookup_insert_ne.
Qed.

(** A key that is used keeps its value. *)
Lemma touch_spec n c key :
  lfu_ok n c → n + 1 < usize_mod → capacity c ≠ 0 →
  returns (update_frequency_bin key) c (λ _ c',
    value <$> values c' !! key = value <$> values c !! key ∧ lfu_ok (n + 1) c' ∧
    capacity c' = capacity c ∧ dom (values c') = dom (values c)).
Proof.
  intros Hok Hn Hcap. destruct (values c !! key) as [[w f]|] eqn:Hk.
  - destruct (update_present n c key w f Hok Hk Hn) as (c' & Eu & Ht).
    eapply returns_intro; [exact Eu|]. pose proof (touched_ok _ _ _ _ _ _ Hok Hk Ht) as Hok'.
    destruct Ht as [Ev Ec _ _]. rewrite Ev, lookup_insert_eq, dom_insert_lookup_L by (by rewrite Hk).
    done.
  - unfold update_frequency_bin. wp. rewrite Hk. wp. rewrite Hk.
    split_and!; [done|by apply lfu_ok_mono|done..].
Qed.

(** C37.  Reading and writing keep the cache well-formed: the bins partition the keys by
    their counts, the least count is known, and there are not more keys than the capacity.  None of
    them panics, [get] returns the value of the key, [get_mut] a reference to it through which the
    caller may write, and [set] leaves its value there. *)
Theorem lfu_stays_well_formed n c key v :
  lfu_ok n c → n + 1 < usize_mod → capacity c ≠ 0 →
  returns (get key) c (λ r c',
    r = value <$> values c !! key ∧ lfu_ok (n + 1) c' ∧ capacity c' = capacity c ∧
    dom (values c') = dom (values c)) ∧
  (∀ write, returns (get_mut key write) c (λ r c',
    r = value <$> values c !! key ∧ value <$> values c' !! key = write <$> r ∧
    lfu_ok (n + 1) c' ∧ capacity c' = capacity c)) ∧
  returns (set key v) c (λ _ c',
    value <$> values c' !! key = Some v ∧ lfu_ok (n + 1) c' ∧ capacity c' = capacity c).
Proof.
  intros Hok Hn Hcap. split_and!.
  - unfold get. wp. eapply returns_mono; [by eapply touch_spec|]. cbv beta.
    intros _ c' (Ev & Hok' & Ec & Hd). wp. done.
  - intros write. unfold get_mut. wp. eapply returns_mono; [by eapply touch_spec|]. cbv beta.
    intros _ c' (Ev & Hok' & Ec & Hd). wp. rewrite <-Ev.
    destruct (values c' !! key) as [[w f]|] eqn:Hk; wp; [|by rewrite Hk]. cbn [value count fmap option_fmap option_map].
    split; [done|]. split; [cbn; by rewrite lookup_insert_eq|]. split; [by eapply revalue_ok|done].
  - destruct (values c !! key) as [[w f]|] eqn:Hk.
    + unfold set. wp. rewrite Hk. wp. cbn [count].
      destruct (update_present n (c <| values ::= <[key := mkValueCounter v f]> |>) key v f)
        as (c' & Eu & Ht); [by eapply revalue_ok|cbn; apply lookup_insert_eq|done|].
      eapply returns_intro; [exact Eu|].
      assert (Hok' : lfu_ok (n + 1) c').
      { eapply touched_ok; [by eapply revalue_ok|cbn; apply lookup_insert_eq|exact Ht]. }
      destruct Ht as [Ev Ec _ _]. by rewrite Ev, lookup_insert_eq.
    + pose proof (ok_len _ _ (ok_wf _ _ Hok)) as Hlen.
      destruct (N.eq_dec (length c) (capacity c)) as [Hfull|Hroom].
      * destruct (set_full n c key v Hok Hcap Hfull Hk)
          as (k & vk & l & c' & Es & _ & _ & _ & Ev & Hok' & _ & Ec).
        eapply returns_intro; [exact Es|]. by rewrite Ev, lookup_insert_eq.
      * destruct (insert_new_spec n c key v (ok_wf _ _ Hok) Hk) as (c' & Ei & [Ev Ec _ _] & Hok'); [lia|].
        eapply returns_intro; [rewrite (set_room n) by (done || apply Hok || lia); exact Ei|].
        by rewrite Ev, lookup_insert_eq.
Qed.

(** C35.  A full cache evicts a least frequently used key, and of those the one that was used least
    recently; it never fails to find one. *)
Theorem set_evicts_least_frequently_used n c key v :
  lfu_ok n c → capacity c ≠ 0 → length c = capacity c → values c !! key = None →
  ∃ k vk l c', set key v c = (Val tt, c') ∧
    bin c (min_frequency c) = k :: l ∧ values c !! k = Some (mkValueCounter vk (min_frequency c)) ∧
    (∀ k' vc, values c !! k' = Some vc → min_frequency c ≤ count vc) ∧
    values c' = <[key := mkValueCounter v 1]> (delete k (values c)) ∧
    lfu_ok (n + 1) c' ∧ length c' = capacity c'.
Proof.
  intros Hok Hcap Hfull Hkey.
  destruct (set_full n c key v Hok Hcap Hfull Hkey)
    as (k & vk & l & c' & Es & Hbin & Hk & Hleast & Ev & Hok' & Hlen' & _).
  by exists k, vk, l, c'.
Qed.
End lfu.

(** ** An encoder and a decoder in step *)

Section lockstep.
Context {X E : Type} `{Build, Countable X, Countable E, LinkedHashSet X, LinkedHashSet E,
  DefaultEncoded E, !LinkedHashSetLaws X, !LinkedHashSetLaws E}.
Import LFUCache.
Abbreviation Encoder := (LFUCache.t X E (lhs X)).
Abbreviation Decoder := (LFUCache.t E X (lhs E)).
Implicit Types a : Encoder.
Implicit Types b : Decoder.

Definition enc a (x : X) : option E := value <$> values a !! x.

(** Keys and values are swapped; counts and the order in the bins are the same. *)
Record swapped a b : Prop := {
  sw_capacity : capacity b = capacity a;
  sw_length : length b = length a;
  sw_values x e f :
    values a !! x = Some (mkValueCounter e f) ↔ values b !! e = Some (mkValueCounter x f);
  sw_bins f : enc a <$> bin a f = Some <$> bin b f
}.
Record twins (n : N) a b : Prop := {
  tw_a : lfu_ok n a;
  tw_b : lfu_ok n b;
  tw_swapped : swapped a b;
  tw_min : min_frequency b = min_frequency a
}.

Lemma swapped_enc a b x e f y :
  swapped a b → values a !! x = Some (mkValueCounter e f) → enc a y = Some e ↔ y = x.
Proof.
  intros Hs Hx. unfold enc. split.
  - intros ([e' f'] & Hy & Heq)%fmap_Some. cbn in Heq. subst e'.
    apply (sw_values _ _ Hs) in Hx, Hy. rewrite Hx in Hy. by injection Hy as ->.
  - intros ->. by rewrite Hx.
Qed.

Lemma filter_enc a (l : list X) (l' : list E) x e :
  enc a <$> l = Some <$> l' → (∀ y, enc a y = Some e ↔ y = x) →
  enc a <$> filter (.≠ x) l = Some <$> filter (.≠ e) l'.
Proof.
  intros Hl Hx. revert l' Hl. induction l as [|y l IH]; intros [|e' l'] Hl; try done.
  injection Hl as Hy Hl. specialize (IH l' Hl). pose proof (Hx y) as Hxy. rewrite Hy in Hxy.
  rewrite !filter_cons. destruct (decide (y ≠ x)) as [Hd|Hd], (decide (e' ≠ e)) as [Hd'|Hd'];
    [cbn; by rewrite Hy, IH| | |done]; exfalso.
  - apply dec_stable in Hd'. apply Hd, Hxy. by rewrite Hd'.
  - apply dec_stable in Hd. apply Hd'. apply Hxy in Hd. congruence.
Qed.

(** Counts do not matter for what a key stands for. *)
Lemma enc_insert a x e f y : enc a x = Some e →
  value <$> <[x := mkValueCounter e f]> (values a) !! y = enc a y.
Proof.
  intros Hx. destruct (decide (x = y)) as [->|Hne].
  - rewrite lookup_insert_eq. by rewrite Hx.
  - by rewrite lookup_insert_ne.
Qed.

Lemma insert_swap (ma : gmap X (ValueCounter E)) (mb : gmap E (ValueCounter X)) x e f :
  (∀ y g, ma !! y = Some (mkValueCounter e g) → y = x) →
  (∀ d g, mb !! d = Some (mkValueCounter x g) → d = e) →
  (∀ y d g, ma !! y = Some (mkValueCounter d g) ↔ mb !! d = Some (mkValueCounter y g)) →
  ∀ y d g, <[x := mkValueCounter e f]> ma !! y = Some (mkValueCounter d g) ↔
           <[e := mkValueCounter x f]> mb !! d = Some (mkValueCounter y g).
Proof.
  intros Hx He Hm y d g. rewrite !lookup_insert_Some, Hm. split.
  - intros [[-> [= -> ->]]|[Hne Hd]]; [by left|right]. split; [|done]. intros ->.
    apply Hne. symmetry. eapply Hx. by apply Hm.
  - intros [[-> [= -> ->]]|[Hne Hd]]; [by left|right]. split; [|done]. intros ->.
    apply Hne. symmetry. by eapply He.
Qed.

Lemma twins_get n a b x e f :
  twins n a b → values a !! x = Some (mkValueCounter e f) → n + 1 < usize_mod →
  ∃ a' b', get x a = (Val (Some e), a') ∧ get e b = (Val (Some x), b') ∧ twins (n + 1) a' b' ∧
    (∀ y, is_Some (values b' !! y) ↔ is_Some (values b !! y)).
Proof.
  intros [Ha Hb Hs Hmin] Hx Hn. pose proof (proj1 (sw_values _ _ Hs x e f) Hx) as He.
  destruct (update_present n a x e f Ha Hx Hn) as (a' & Ea & Ta).
  destruct (update_present n b e x f Hb He Hn) as (b' & Eb & Tb).
  pose proof (touched_ok _ _ _ _ _ _ Ha Hx Ta) as Ha'.
  pose proof (touched_ok _ _ _ _ _ _ Hb He Tb) as Hb'.
  destruct Ta as [Va Ca Ba Ma], Tb as [Vb Cb Bb Mb]. exists a', b'.
  assert (Hfil : ∀ g, enc a <$> filter (.≠ x) (bin a g) = Some <$> filter (.≠ e) (bin b g)).
  { intros g. apply filter_enc; [apply Hs|]. intros y. by eapply swapped_enc. }
  assert (Henc : ∀ y, enc a' y = enc a y).
  { intros y. unfold enc at 1. rewrite Va. apply enc_insert. unfold enc. by rewrite Hx. }
  split_and!.
  - unfold get, bind, gets, ret. by rewrite Ea, Va, lookup_insert_eq.
  - unfold get, bind, gets, ret. by rewrite Eb, Vb, lookup_insert_eq.
  - split; [done..| |].
    + split.
      * rewrite Ca, Cb. apply Hs.
      * unfold length in *. rewrite Va, Vb, !map_size_insert_Some by (rewrite ?Hx, ?He; done).
        apply (sw_length _ _ Hs).
      * rewrite Va, Vb. apply insert_swap; [| |apply Hs].
        -- intros y g Hy. eapply (swapped_enc a b); [done..|]. unfold enc. by rewrite Hy.
        -- intros d g Hd. apply (sw_values _ _ Hs) in Hd. rewrite Hx in Hd. by injection Hd.
      * intros g. rewrite Ba, Bb. etrans; [apply list_fmap_ext; intros; apply Henc|].
        destruct (g =? f); [apply Hfil|]. destruct (g =? f + 1); [|apply Hs].
        rewrite !fmap_app. cbn. f_equal; [apply Hs|]. unfold enc. by rewrite Hx.
    + rewrite Ma, Mb, Hmin. specialize (Hfil f).
      assert (Hempty : bool_decide (filter (.≠ x) (bin a f) = []) =
        bool_decide (filter (.≠ e) (bin b f) = [])); [|by rewrite Hempty].
      apply bool_decide_ext. apply (f_equal List.length) in Hfil. rewrite !length_fmap in Hfil.
      by rewrite <-!length_zero_iff_nil, Hfil.
  - intros y. rewrite Vb, lookup_insert_is_Some.
    split; [|destruct (decide (e = y)); auto].
    intros [->|[_ ?]]; [by rewrite He|done].
Qed.

(** A new key on both sides, with room for it. *)
Lemma swapped_insert n a b x e :
  bins_ok n a → bins_ok n b → swapped a b →
  values a !! x = None → values b !! e = None → length a < capacity a →
  ∃ a' b', set x e a = (Val tt, a') ∧ set e x b = (Val tt, b') ∧ twins (n + 1) a' b' ∧
    length a' = length a + 1 ∧ capacity a' = capacity a ∧
    (∀ y, is_Some (values b' !! y) ↔ y = e ∨ is_Some (values b !! y)).
Proof.
  intros Ha Hb Hs Hx He Hroom.
  assert (Hroom' : length b < capacity b).
  { by rewrite (sw_length _ _ Hs), (sw_capacity _ _ Hs). }
  rewrite (set_room n a x e Ha Hx Hroom), (set_room n b e x Hb He Hroom').
  destruct (insert_new_spec n a x e Ha Hx Hroom) as (a' & Ea & Aa & Ha').
  destruct (insert_new_spec n b e x Hb He Hroom') as (b' & Eb & Ab & Hb').
  destruct Aa as [Va Ca Ma Ba], Ab as [Vb Cb Mb Bb]. exists a', b'.
  assert (Henc : ∀ y, y ≠ x → enc a' y = enc a y).
  { intros y Hy. unfold enc. by rewrite Va, lookup_insert_ne. }
  assert (Hold : ∀ g, enc a' <$> bin a g = Some <$> bin b g).
  { intros g. rewrite <-(sw_bins _ _ Hs g). apply list_fmap_ext. intros i y Hy. apply Henc. intros ->.
    apply list_elem_of_lookup_2, (ok_bins _ _ Ha) in Hy as [v Hy]. by rewrite Hx in Hy. }
  split_and!; [done..| | |done|].
  - split; [done..| |by rewrite Ma, Mb]. split.
    + rewrite Ca, Cb. apply Hs.
    + pose proof (sw_length _ _ Hs) as Hl. unfold length in *.
      rewrite Va, Vb, !map_size_insert_None by done. lia.
    + rewrite Va, Vb. apply insert_swap; [| |apply Hs].
      * intros y g Hy. apply (sw_values _ _ Hs) in Hy. by rewrite He in Hy.
      * intros d g Hd. apply (sw_values _ _ Hs) in Hd. by rewrite Hx in Hd.
    + intros g. rewrite Ba, Bb. destruct (g =? 1); [|apply Hold]. rewrite !fmap_app, Hold.
      unfold enc. cbn. by rewrite Va, lookup_insert_eq.
  - unfold length. rewrite Va, map_size_insert_None by done. lia.
  - intros y. rewrite Vb, lookup_insert_is_Some. destruct (decide (e = y)); naive_solver.
Qed.

(** Both sides evict the same pair. *)
Lemma twins_evict n a b :
  twins n a b → values a ≠ ∅ →
  ∃ x e a' b', evict_and_return_value a = (Val (Some e), a') ∧
    evict_and_return_key b = (Val (Some e), b') ∧
    bins_ok n a' ∧ bins_ok n b' ∧ swapped a' b' ∧ capacity a' = capacity a ∧
    length a' + 1 = length a ∧ values a' = delete x (values a) ∧ values b' = delete e (values b) ∧
    is_Some (values b !! e).
Proof.
  intros [Ha Hb Hs Hmin] Hne.
  destruct (pop_present n a Ha Hne) as (ba & x & e & l & a' & Fa & La & Hx & Ea & Pa).
  pose proof (proj1 (sw_values _ _ Hs _ _ _) Hx) as He.
  assert (Hne' : values b ≠ ∅) by (intros E0; by rewrite E0 in He).
  destruct (pop_present n b Hb Hne') as (bb & e' & x' & l' & b' & Fb & Lb & He' & Eb & Pb).
  rewrite Hmin in Lb. pose proof (sw_bins _ _ Hs (min_frequency a)) as Hbin.
  rewrite La, Lb in Hbin. cbn in Hbin. unfold enc at 1 in Hbin. rewrite Hx in Hbin.
  injection Hbin as Hee Hl. subst e'. rewrite Hmin in He'. rewrite He in He'. injection He' as <-.
  rewrite <-Hmin in Lb.
  destruct (popped_ok _ _ _ _ _ _ Ha Hx La Pa) as [Ha' Hla].
  destruct (popped_ok _ _ _ _ _ _ Hb ltac:(by rewrite Hmin) Lb Pb) as [Hb' Hlb].
  destruct Pa as [Va Ca Ma Ba], Pb as [Vb Cb Mb Bb]. exists x, e, a', b'. split_and!; try done.
  - unfold evict_and_return_value, bind, gets, ret. by rewrite Fa, Ea.
  - unfold evict_and_return_key, bind, gets, ret. by rewrite Fb, Eb.
  - split.
    + rewrite Ca, Cb. apply Hs.
    + pose proof (sw_length _ _ Hs). lia.
    + intros y d g. rewrite Va, Vb, !lookup_delete_Some, (sw_values _ _ Hs). split.
      * intros [Hne2 Hd]. split; [|done]. intros <-. rewrite He in Hd. by injection Hd.
      * intros [Hne2 Hd]. split; [|done]. intros <-. apply (sw_values _ _ Hs) in Hd.
        rewrite Hx in Hd. by injection Hd.
    + assert (Hold : ∀ (l1 : list X) (l2 : list E), x ∉ l1 → enc a <$> l1 = Some <$> l2 → enc a' <$> l1 = Some <$> l2).
      { intros l1 l2 Hx1 <-. apply list_fmap_ext. intros i y Hy. unfold enc. rewrite Va.
        rewrite lookup_delete_ne; [done|]. intros <-. by apply Hx1, list_elem_of_lookup_2 with i. }
      pose proof (ok_nodup _ _ (ok_wf _ _ Ha) (min_frequency a)) as Hnd. rewrite La in Hnd.
      apply NoDup_cons in Hnd as [Hxl _].
      intros g. rewrite Ba, Bb, Hmin. destruct (N.eqb_spec g (min_frequency a)) as [->|Hg].
      * rewrite La, <-Hmin, Lb. cbn. by apply Hold.
      * apply Hold; [|apply Hs]. intros [v Hv]%(ok_bins _ _ (ok_wf _ _ Ha)). rewrite Hx in Hv.
        injection Hv as _ Hv. congruence.
Qed.

Abbreviation Self := (LFUniCache.t Encoder Decoder E).

(** The encodings in use are the first ones. *)
Record lfu_coded (used : N) (keys : E → Prop) (next : E) : Prop := {
  lc_used e : keys e → ∃ k, (1 ≤ k ≤ N.to_nat used)%nat ∧ nth_encoding k = Val e;
  lc_next : nth_encoding (N.to_nat used) = Val next
}.

Definition lfu_in_step (n : N) (s s' : Self) : Prop :=
  let (a, b) := (LFUniCache.lfu_cache_encoder s, LFUniCache.lfu_cache_decoder s') in
  let sz := LFUniCache.size s in
  enough_encodings E sz ∧ sz ≠ 0 ∧ capacity a = sz ∧ LFUniCache.size s' = sz ∧
  LFUniCache.encoding s' = LFUniCache.encoding s ∧ twins n a b ∧
  lfu_coded (length a) (λ e, is_Some (values b !! e)) (LFUniCache.encoding s).

Lemma lfu_new_in_step sz :
  enough_encodings E sz ∧ sz ≠ 0 → ∃ c : Self, LFUniCache.new sz = Val c ∧ lfu_in_step 0 c c.
Proof.
  intros [Henough Hsz]. unfold LFUniCache.new.
  destruct (with_capacity_ok (K := X) (V := E) sz Hsz) as (a & Ea & Ha & Ca & Va).
  destruct (with_capacity_ok (K := E) (V := X) sz Hsz) as (b & Eb & Hb & Cb & Vb).
  rewrite Ea, Eb. eexists. split; [done|].
  assert (Hl : length a = 0) by (unfold length; by rewrite Va, map_size_empty).
  unfold lfu_in_step. cbn. split_and!; [done..| |].
  - split; [done..| |].
    + split; [congruence|unfold length; by rewrite Va, Vb| |].
      * intros x e f. by rewrite Va, Vb, !lookup_empty.
      * intros f. unfold with_capacity in Ea, Eb. rewrite (proj2 (N.eqb_neq _ _) Hsz) in Ea, Eb.
        injection Ea as <-. by injection Eb as <-.
    + unfold with_capacity in Ea, Eb. rewrite (proj2 (N.eqb_neq _ _) Hsz) in Ea, Eb.
      injection Ea as <-. by injection Eb as <-.
  - rewrite Hl. split; [|done]. intros e. rewrite Vb, lookup_empty. by intros [].
Qed.

(** A field that is in the cache is encoded, and decoded. *)
Lemma lfu_step_hit n (s s' : Self) x e f :
  lfu_in_step n s s' → n + 1 < usize_mod →
  values (LFUniCache.lfu_cache_encoder s) !! x = Some (mkValueCounter e f) →
  ∃ s1 s1', LFUniCache.try_encode x s = (Val (IsEncoded e), s1) ∧
    LFUniCache.decode (IsEncoded e) s' = (Val x, s1') ∧ lfu_in_step (n + 1) s1 s1'.
Proof.
  intros (Henough & Hsz & Hcap & Hsz' & Henc & Ht & [Hused Hnext]) Hn Hx.
  destruct (twins_get n _ _ x e f Ht Hx Hn) as (a' & b' & Ea & Eb & Ht' & Hkeys).
  assert (Hl : length a' = length (LFUniCache.lfu_cache_encoder s) ∧
               capacity a' = capacity (LFUniCache.lfu_cache_encoder s)).
  { destruct (update_present n _ x e f (tw_a _ _ _ Ht) Hx Hn) as (a1 & E1 & [V1 C1 _ _]).
    unfold get, bind, gets, ret in Ea. rewrite E1 in Ea. injection Ea as _ <-. split; [|done].
    unfold length. rewrite V1, map_size_insert_Some; [done|by rewrite Hx]. }
  destruct Hl as [Hl Hc].
  exists (s <| LFUniCache.lfu_cache_encoder := a' |>), (s' <| LFUniCache.lfu_cache_decoder := b' |>).
  split_and!.
  - unfold LFUniCache.try_encode, bind, zoom, ret. by rewrite Ea.
  - unfold LFUniCache.decode, bind, zoom, unwrap, ret. by rewrite Eb.
  - unfold lfu_in_step. cbn. rewrite Hl, Hc. split_and!; [done..|].
    split; [|done]. intros e' He'. by apply Hused, Hkeys.
Qed.

(** Looking for a key that is not in the cache changes nothing. *)
Lemma get_missing (a : Encoder) x : values a !! x = None → get x a = (Val None, a).
Proof.
  intros Hx. unfold get, update_frequency_bin, bind, gets, ret. by rewrite Hx, Hx.
Qed.

Ltac run := cbn -[get evict_and_return_value evict_and_return_key LFUCache.set].

(** A field that is not, in a full cache. *)
Lemma lfu_step_replace n (s s' : Self) x :
  lfu_in_step n s s' → values (LFUniCache.lfu_cache_encoder s) !! x = None →
  length (LFUniCache.lfu_cache_encoder s) = LFUniCache.size s →
  ∃ s1 s1', LFUniCache.try_encode x s = (Val (NotEncoded x), s1) ∧
    LFUniCache.decode (NotEncoded x) s' = (Val x, s1') ∧ lfu_in_step (n + 1) s1 s1'.
Proof.
  intros (Henough & Hsz & Hcap & Hsz' & Henc & Ht & [Hused Hnext]) Hx Hfull.
  set (a := LFUniCache.lfu_cache_encoder s) in *. set (b := LFUniCache.lfu_cache_decoder s') in *.
  assert (Hne : values a ≠ ∅).
  { intros E0. unfold length in Hfull. rewrite E0, map_size_empty in Hfull. lia. }
  destruct (twins_evict n a b Ht Hne)
    as (y & e & a1 & b1 & Ea & Eb & Ha1 & Hb1 & Hs1 & Ca1 & La1 & Va1 & Vb1 & He).
  destruct (swapped_insert n a1 b1 x e Ha1 Hb1 Hs1) as (a2 & b2 & Ea2 & Eb2 & Ht2 & L2 & C2 & K2).
  { rewrite Va1. by apply lookup_delete_None; right. }
  { rewrite Vb1. apply lookup_delete_eq. }
  { lia. }
  exists (s <| LFUniCache.lfu_cache_encoder := a2 |>), (s' <| LFUniCache.lfu_cache_decoder := b2 |>).
  assert (Hlb : length b = LFUniCache.size s').
  { rewrite Hsz', <-Hfull. apply (sw_length _ _ (tw_swapped _ _ _ Ht)). }
  split_and!.
  - unfold LFUniCache.try_encode, bind, zoom, gets, unwrap, ret. fold a. rewrite get_missing by done.
    run. fold a. rewrite (proj2 (N.eqb_eq _ _) Hfull). run. rewrite Ea. run. by rewrite Ea2.
  - unfold LFUniCache.decode, bind, zoom, gets, unwrap, ret. fold b.
    rewrite (proj2 (N.eqb_eq _ _) Hlb). fold b. rewrite Eb. run. by rewrite Eb2.
  - unfold lfu_in_step. cbn. rewrite C2, Ca1.
    assert (length a2 = length a) as -> by lia. split_and!; [done..|].
    split; [|done]. intros e' [->|He']%K2; [by apply Hused|]. apply Hused.
    rewrite Vb1 in He'. destruct He' as [vc Hvc]. apply lookup_delete_Some in Hvc as [_ Hvc].
    by exists vc.
Qed.

(** And in a cache that has room. *)
Lemma lfu_step_add n (s s' : Self) x :
  lfu_in_step n s s' → values (LFUniCache.lfu_cache_encoder s) !! x = None →
  length (LFUniCache.lfu_cache_encoder s) ≠ LFUniCache.size s →
  ∃ s1 s1', LFUniCache.try_encode x s = (Val (NotEncoded x), s1) ∧
    LFUniCache.decode (NotEncoded x) s' = (Val x, s1') ∧ lfu_in_step (n + 1) s1 s1'.
Proof.
  intros (Henough & Hsz & Hcap & Hsz' & Henc & Ht & [Hused Hnext]) Hx Hroom.
  set (a := LFUniCache.lfu_cache_encoder s) in *. set (b := LFUniCache.lfu_cache_decoder s') in *.
  pose proof (ok_len _ _ (ok_wf _ _ (tw_a _ _ _ Ht))) as Hlen.
  assert (Hlb : length b ≠ LFUniCache.size s').
  { by rewrite Hsz', (sw_length _ _ (tw_swapped _ _ _ Ht)). }
  destruct (encodings_exist _ _ Henough (S (N.to_nat (length a)))) as [added Hadded]; [lia|].
  assert (Hadd : encoded_add (LFUniCache.encoding s) encoded_one = Val added).
  { cbn in Hadded. by rewrite Hnext in Hadded. }
  assert (Hfresh : values b !! added = None).
  { destruct (values b !! added) as [vc|] eqn:Ev; [exfalso|done].
    destruct (Hused added) as (k & Hk & Ek); [by rewrite Ev|].
    assert (k = S (N.to_nat (length a))); [|lia].
    eapply (encodings_differ _ _ Henough); [lia..|congruence]. }
  destruct (swapped_insert n a b x added) as (a2 & b2 & Ea2 & Eb2 & Ht2 & L2 & C2 & K2);
    [apply Ht..|done|done|lia|].
  exists (s <| LFUniCache.encoding := added |> <| LFUniCache.lfu_cache_encoder := a2 |>),
    (s' <| LFUniCache.encoding := added |> <| LFUniCache.lfu_cache_decoder := b2 |>).
  split_and!.
  - unfold LFUniCache.try_encode, LFUniCache.next_encoding, bind, zoom, gets, modify, lift, ret.
    fold a. rewrite get_missing by done. run. fold a. rewrite (proj2 (N.eqb_neq _ _) Hroom). run.
    rewrite Hadd. run. fold a. by rewrite Ea2.
  - unfold LFUniCache.decode, LFUniCache.next_encoding, bind, zoom, gets, modify, lift, ret. fold b.
    rewrite (proj2 (N.eqb_neq _ _) Hlb). run. rewrite Henc, Hadd. run. fold b. by rewrite Eb2.
  - unfold lfu_in_step. cbn. rewrite C2, L2. split_and!; [done..|].
    assert (Hsucc : N.to_nat (length a + 1) = S (N.to_nat (length a))) by lia.
    split; rewrite Hsucc; [|exact Hadded].
    intros e' [->|He']%K2.
    + exists (S (N.to_nat (length a))). split; [lia|done].
    + destruct (Hused e' He') as (k & Hk & Ek). exists k. split; [lia|done].
Qed.

Lemma lfu_step_in_step n (s s' : Self) x :
  lfu_in_step n s s' → n + 1 < usize_mod →
  ∃ r s1 s1', LFUniCache.try_encode x s = (Val r, s1) ∧ LFUniCache.decode r s' = (Val x, s1') ∧
    lfu_in_step (n + 1) s1 s1'.
Proof.
  intros Hs Hn. exists (match values (LFUniCache.lfu_cache_encoder s) !! x with
                        | Some vc => IsEncoded (value vc) | None => NotEncoded x end).
  destruct (values _ !! x) as [[e f]|] eqn:Hx; [by eapply lfu_step_hit|].
  destruct (decide (length (LFUniCache.lfu_cache_encoder s) = LFUniCache.size s));
    [by apply lfu_step_replace|by apply lfu_step_add].
Qed.

#[export] Instance LFUniCache_lockstep : Lockstep Self X E := {|
  fits sz := enough_encodings E sz ∧ sz ≠ 0;
  in_step := lfu_in_step;
  new_in_step := lfu_new_in_step;
  step_in_step := lfu_step_in_step
|}.

(** C34.  Encoding and decoding are inverse.  If the encodings suffice for its size, a cache that starts
    empty decodes every stream of fields that another cache of this size has encoded. *)
Theorem lfu_roundtrip sz (fields : list X) :
  enough_encodings E sz → sz ≠ 0 → len fields < usize_mod →
  ∃ c rs s s', (LFUniCache.new sz : outcome Self) = Val c ∧
    encode_all fields c = (Val rs, s) ∧ decode_all rs c = (Val fields, s').
Proof.
  intros Henough Hsz Hn.
  destruct (stream_roundtrip (C := Self) (X := X) (E := E) sz fields)
    as (c & rs & s & s' & ? & ? & ? & _); [by split|done|]. by exists c, rs, s, s'.
Qed.
End lockstep.
