(* ===== verification/UnicacheChecks.v ===== *)
(** * Runs of the caches

    Lists implement the crates that the caches are built on.  The runs show that the hypotheses of
    the round trips can hold, and where cloning and serializing a cache go wrong. *)

From S2P Require Import Prelude Unicache Lru Lfu.

#[export] Existing Instance dev_build.

(** ** Implementations of the libraries *)

#[export] Instance list_lhs {K} `{EqDecision K} : LinkedHashSet K := {|
  lhs := list K;
  lhs_default := [];
  lhs_iter s := s;
  lhs_insert k s := filter (.≠ k) s ++ [k];
  lhs_remove k s := filter (.≠ k) s;
  lhs_pop_front s := match s with [] => (None, []) | k :: s => (Some k, s) end;
  lhs_is_empty s := match s with [] => true | _ => false end
|}.
#[export] Instance list_lhs_laws {K} `{EqDecision K} : LinkedHashSetLaws K.
Proof.
  split; try done.
  - by intros [].
  - intros [|k' s] k l; [done|]. by intros [= -> ->].
  - by intros [].
Qed.

#[export] Instance list_map_iter : MapIter := {| map_iter _ _ _ _ m := map_to_list m |}.
#[export] Instance list_map_iter_laws : MapIterLaws.
Proof. by split. Qed.

(** From the most to the least recently used element. *)
Record lru_list (K V : Type) : Type := mkLruList { ll_cap : N; ll_items : list (K * V) }.
#[global] Arguments mkLruList {K V}.
#[global] Arguments ll_cap {K V}.
#[global] Arguments ll_items {K V}.

Definition ll_find {K V} `{EqDecision K} (k : K) (l : list (K * V)) : option V :=
  snd <$> (list_find (λ p, p.1 = k) l ≫= λ p, Some p.2).
#[export] Instance list_lru {K V} `{EqDecision K} : LruCache K V := {|
  lru := lru_list K V;
  lru_new n := mkLruList n [];
  lru_cap := ll_cap;
  lru_iter := ll_items;
  lru_len c := len (ll_items c);
  lru_get k c := match ll_find k (ll_items c) with
    | Some v => (Some v, mkLruList (ll_cap c) ((k, v) :: without k (ll_items c)))
    | None => (None, c)
    end;
  lru_pop_lru c := (last (ll_items c), mkLruList (ll_cap c) (removelast (ll_items c)));
  lru_push k v c := match ll_find k (ll_items c) with
    | Some v' => (Some (k, v'), mkLruList (ll_cap c) ((k, v) :: without k (ll_items c)))
    | None => if len (ll_items c) <? ll_cap c
              then (None, mkLruList (ll_cap c) ((k, v) :: ll_items c))
              else (last (ll_items c), mkLruList (ll_cap c) ((k, v) :: removelast (ll_items c)))
    end
|}.

Lemma ll_find_none {K V} `{EqDecision K} (k : K) (l : list (K * V)) :
  k ∉ l.*1 → ll_find k l = None.
Proof.
  intros Hk. unfold ll_find. destruct (list_find _ l) as [[i [k' v]]|] eqn:E; [exfalso|done].
  apply list_find_Some in E as (Hi & Hkk & _). apply Hk, list_elem_of_fmap. exists (k', v).
  split; [done|]. by eapply list_elem_of_lookup_2.
Qed.
Lemma ll_find_some {K V} `{EqDecision K} (k : K) v (l : list (K * V)) :
  NoDup l.*1 → (k, v) ∈ l → ll_find k l = Some v.
Proof.
  intros Hnd Hin. unfold ll_find. destruct (list_find _ l) as [[i [k' v']]|] eqn:E.
  - apply list_find_Some in E as (Hi & Hkk & _). cbn in *. subst k'. f_equal.
    eapply key_unique; [exact Hnd|by eapply list_elem_of_lookup_2|done].
  - exfalso. apply list_find_None in E. rewrite Forall_forall in E. by apply (E (k, v)).
Qed.

#[export] Instance list_lru_laws {K V} `{EqDecision K} : LruLaws K V.
Proof.
  split; cbn; try done.
  - intros k c Hk. by rewrite ll_find_none.
  - intros k v c Hnd Hin. by rewrite (ll_find_some k v).
  - intros c l p ->. by rewrite last_snoc, removelast_last.
  - intros k v c Hk Hlen. rewrite ll_find_none by done. by rewrite (proj2 (N.ltb_lt _ _) Hlen).
  - intros k v c l p Hk Hlen Hl. rewrite ll_find_none by done.
    rewrite (proj2 (N.ltb_ge _ _) Hlen), Hl. by rewrite removelast_last.
Qed.

(** ** Round trips *)

Definition names : list string := ["a"; "b"; "a"; "c"; "b"; "b"; "a"]%string.
#[export] Instance u8_encoded : DefaultEncoded N := uint_encoded 256.

Abbreviation LruNames := (LRUniCache.t (lru string N) (lru N string) N).
Abbreviation LfuNames :=
  (LFUniCache.t (LFUCache.t string N (lhs string)) (LFUCache.t N string (lhs N)) N).

Lemma lru_roundtrip_witness :
  ∃ c rs a b, (LRUniCache.new 2 : outcome LruNames) = Val c ∧
    encode_all names c = (Val rs, a) ∧ decode_all rs c = (Val names, b).
Proof. apply (lru_roundtrip 2 names); [by apply uint_enough|done|vm_compute; reflexivity]. Defined.

Lemma lfu_roundtrip_witness :
  ∃ c rs s s', (LFUniCache.new 2 : outcome LfuNames) = Val c ∧
    encode_all names c = (Val rs, s) ∧ decode_all rs c = (Val names, s').
Proof. apply (lfu_roundtrip 2 names); [by apply uint_enough|done|vm_compute; reflexivity]. Defined.

(** What is sent, and how often the two policies hit. *)
Definition encoded_by {C X E} `{FieldCache C X E} (size : N) (fields : list X) :
    outcome (list (MaybeEncoded X E)) :=
  match fc_new size with Val c => (encode_all fields c).1 | Panic f => Panic f end.
Example lru_encodes :
  encoded_by (C := LruNames) 2 names = Val [NotEncoded "a"; NotEncoded "b"; IsEncoded 1;
    NotEncoded "c"; NotEncoded "b"; IsEncoded 1; NotEncoded "a"]%string.
Proof. vm_compute. reflexivity. Qed.
Example lfu_encodes :
  encoded_by (C := LfuNames) 2 names = Val [NotEncoded "a"; NotEncoded "b"; IsEncoded 1;
    NotEncoded "c"; NotEncoded "b"; IsEncoded 2; IsEncoded 1]%string.
Proof. vm_compute. reflexivity. Qed.

(** ** Clones *)

Definition lru_empty : LruNames := Eval vm_compute in
  match LRUniCache.new 2 with
  | Val c => c | Panic _ => LRUniCache.mk (lru_new 0) (lru_new 0) 0 0 end.
Definition lru_leader : LruNames := Eval vm_compute in
  (encode_all ["a"; "b"; "a"]%string lru_empty).2.

Lemma lru_empty_in_step : in_step 0 lru_empty lru_empty.
Proof.
  split; [by apply uint_enough|]. split; [done|]. split; [done|]. split; [done|].
  split; [done|done|constructor|by vm_compute|by split].
Qed.
Lemma lru_leader_in_step : ∃ b, in_step 3 lru_leader b.
Proof.
  destruct (stream_in_step 0 lru_empty lru_empty ["a"; "b"; "a"]%string lru_empty_in_step)
    as (rs & a' & b' & Ea & _ & Hs); [vm_compute; reflexivity|].
  exists b'. assert (a' = lru_leader) as <-; [|exact Hs].
  apply (f_equal snd) in Ea. cbn [snd] in Ea. rewrite <-Ea. vm_compute. reflexivity.
Qed.

Lemma lru_clone_decodes_witness :
  ∃ c rs a' c', LRUniCache.clone lru_leader = Val c ∧
    encode_all ["c"; "c"]%string lru_leader = (Val rs, a') ∧
    decode_all rs c = (Val ["c"; "c"]%string, c').
Proof.
  destruct lru_leader_in_step as [b Hb].
  apply (lru_clone_decodes 3 lru_leader b ["c"; "c"]%string Hb). vm_compute. reflexivity.
Defined.

(** The clone of a [LFUniCache] is not in step: it has lost the counts.  The encoder evicts the
    field that it has used less often, the clone the one that it has seen first; from then on
    the clone takes one field for another. *)
Definition lfu_empty : LfuNames := Eval vm_compute in
  match LFUniCache.new 2 with
  | Val c => c
  | Panic _ => LFUniCache.mk (LFUCache.mk ∅ ∅ 0 0) (LFUCache.mk ∅ ∅ 0 0) 0 0 end.
Definition lfu_leader : LfuNames := Eval vm_compute in
  (encode_all ["a"; "b"; "a"; "b"; "b"]%string lfu_empty).2.
Definition lfu_follower : LfuNames := Eval vm_compute in
  match LFUniCache.clone lfu_leader with Val c => c | Panic _ => lfu_empty end.
Theorem lfu_clone_decodes_another_field :
  LFUniCache.clone lfu_leader = Val lfu_follower ∧
  match (encode_all ["c"; "a"; "c"; "b"]%string lfu_leader).1 with
  | Val rs => (decode_all rs lfu_follower).1 = Val ["c"; "a"; "c"; "a"]%string
  | Panic _ => False
  end.
Proof. split; vm_compute; reflexivity. Qed.

(** ** serde *)

Lemma clone_cannot_be_deserialized_witness :
  ∃ c, LRUniCache.clone lru_leader = Val c ∧ LRUniCache_through_serde true c = Panic UnwrapNone.
Proof.
  destruct (LRUniCache.clone lru_leader) as [c|f] eqn:E; [|by vm_compute in E].
  exists c. split; [done|]. exact (clone_cannot_be_deserialized lru_leader c E).
Defined.

Lemma deserialized_capacity_is_length_witness :
  match LruWrapper.visit_seq
    (Some (len (LruWrapper.serialize (LRUniCache.lru_cache_encoder lru_leader))))
    (LruWrapper.serialize (LRUniCache.lru_cache_encoder lru_leader)) with
  | Val c' => lru_cap c' = 2
  | Panic f => False
  end.
Proof.
  pose proof (deserialized_capacity_is_length (LRUniCache.lru_cache_encoder lru_leader)) as Hd.
  specialize (Hd ltac:(by apply (bool_decide_unpack _); vm_compute)).
  destruct (LruWrapper.visit_seq _ _) as [c'|f].
  - destruct Hd as (_ & Hc & _). rewrite Hc. reflexivity.
  - destruct Hd as [_ Hd]. discriminate Hd.
Defined.

(** A deserialized cache is full with what it holds: it evicts when it should not. *)
Definition half_full : LruNames := Eval vm_compute in (encode_all ["a"]%string lru_empty).2.
Theorem deserialized_cache_loses_fields :
  let rs := match (encode_all ["b"; "a"]%string half_full).1 with Val rs => rs | Panic _ => [] end in
  rs = [NotEncoded "b"; IsEncoded 1]%string ∧
  let seq := [(1, "a"%string)] in
  match LruWrapper.visit_seq (Some (len seq)) seq with
  | Val decoder => (decode_all rs (LRUniCache.mk (lru_new 1) decoder 1 2 : LruNames)).1 =
                     Panic UnwrapNone
  | Panic _ => False
  end.
Proof. vm_compute. done. Qed.

(** ** Evictions *)

Definition full_lfu : LFUCache.t string N (lhs string) := Eval vm_compute in
  LFUniCache.lfu_cache_encoder lfu_leader.
Lemma full_lfu_ok : lfu_ok 10 full_lfu.
Proof.
  assert (Hv : ∀ k vc, LFUCache.values full_lfu !! k = Some vc →
    (k = "a"%string ∧ vc = mkValueCounter 1 2) ∨ (k = "b"%string ∧ vc = mkValueCounter 2 3)).
  { intros k vc Hk. change (LFUCache.values full_lfu) with
      (<["a"%string := mkValueCounter 1 2]> {["b"%string := mkValueCounter 2 3]} :
         gmap string (ValueCounter N)) in Hk.
    apply lookup_insert_Some in Hk as [[<- <-]|[_ [<- <-]%lookup_singleton_Some]]; auto. }
  assert (Hb : ∀ f, bin full_lfu f = if f =? 2 then ["a"%string] else if f =? 3 then ["b"%string] else []).
  { intros f. unfold bin. change (LFUCache.frequency_bin full_lfu) with
      (<[1 := []]> (<[2 := ["a"%string]]> {[3 := ["b"%string]]}) : gmap N (list string)).
    destruct (N.eqb_spec f 2) as [->|H2]; [done|]. destruct (N.eqb_spec f 3) as [->|H3]; [done|].
    destruct (decide (f = 1)) as [->|H1]; [done|]. by rewrite !lookup_insert_ne, lookup_singleton_ne. }
  split; [split|..].
  - intros f k. rewrite Hb. split.
    + destruct (N.eqb_spec f 2) as [->|H2]; [intros ->%list_elem_of_singleton; by exists 1|].
      destruct (N.eqb_spec f 3) as [->|H3]; [intros ->%list_elem_of_singleton; by exists 2|].
      by intros ?%elem_of_nil.
    + intros [v [[-> [= -> ->]]|[-> [= -> ->]]]%Hv]; left.
  - intros k vc [[-> ->]|[-> ->]]%Hv; cbn; lia.
  - vm_compute. discriminate.
  - intros f. rewrite Hb. destruct (f =? 2); [apply NoDup_singleton|].
    destruct (f =? 3); [apply NoDup_singleton|constructor].
  - intros k vc [[-> ->]|[-> ->]]%Hv; vm_compute; discriminate.
  - intros _. exists "a"%string, (mkValueCounter 1 2). split; vm_compute; reflexivity.
Qed.

Lemma set_evicts_least_frequently_used_witness :
  ∃ c', LFUCache.set "z"%string 9 full_lfu = (Val tt, c') ∧
    LFUCache.values c' !! "a"%string = None ∧ LFUCache.length c' = LFUCache.capacity c'.
Proof.
  destruct (set_evicts_least_frequently_used 10 full_lfu "z"%string 9)
    as (k & vk & l & c' & E & Hbin & _ & _ & Hv & _ & Hlen);
    [exact full_lfu_ok|discriminate|reflexivity|reflexivity|].
  exists c'. split; [exact E|]. split; [|exact Hlen].
  assert (k = "a"%string) as ->.
  { change (bin full_lfu (LFUCache.min_frequency full_lfu)) with ["a"%string] in Hbin.
    by injection Hbin as <- _. }
  rewrite Hv. reflexivity.
Defined.

Lemma lfu_stays_well_formed_witness :
  match LFUCache.get "a"%string full_lfu with
  | (Val r, c) => r = Some 1 ∧ lfu_ok 11 c
  | (Panic _, _) => False
  end ∧
  match LFUCache.get_mut "a"%string (λ v, v + 1) full_lfu with
  | (Val r, c) => r = Some 1 ∧ value <$> LFUCache.values c !! "a"%string = Some 2 ∧ lfu_ok 11 c
  | (Panic _, _) => False
  end ∧
  match LFUCache.set "z"%string 9 full_lfu with
  | (Val _, c) => value <$> LFUCache.values c !! "z"%string = Some 9 ∧ lfu_ok 11 c
  | (Panic _, _) => False
  end.
Proof.
  split; [|split].
  - destruct (lfu_stays_well_formed 10 full_lfu "a"%string 9) as [Hget _];
      [exact full_lfu_ok|reflexivity|discriminate|].
    unfold returns in Hget. destruct (LFUCache.get _ _) as [[r|f] c]; [|exact Hget].
    destruct Hget as (Hr & Hok & _). split; [exact Hr|exact Hok].
  - destruct (lfu_stays_well_formed 10 full_lfu "a"%string 9) as (_ & Hmut & _);
      [exact full_lfu_ok|reflexivity|discriminate|]. specialize (Hmut (λ v, v + 1)).
    unfold returns in Hmut. destruct (LFUCache.get_mut _ _ _) as [[r|f] c]; [|exact Hmut].
    destruct Hmut as (Hr & Hv & Hok & _). split; [exact Hr|]. rewrite Hr in Hv.
    split; [exact Hv|exact Hok].
  - destruct (lfu_stays_well_formed 10 full_lfu "z"%string 9) as (_ & _ & Hset);
      [exact full_lfu_ok|reflexivity|discriminate|].
    unfold returns in Hset. destruct (LFUCache.set _ _ _) as [[r|f] c]; [|exact Hset].
    destruct Hset as (Hv & Hok & _). split; [exact Hv|exact Hok].
Defined.

(** [remove] can leave the bin of the least frequency empty: an eviction then panics, although it
    returns an option and there are other keys. *)
Example removal_breaks_eviction :
  match (let* _ := LFUCache.remove "a"%string in LFUCache.evict_and_return_key) full_lfu with
  | (o, c) => o = Panic UnwrapNone ∧ 0 < LFUCache.length c
  end.
Proof. vm_compute. done. Qed.
