(* ===== verification/DeriveChecks.v ===== *)
(** * An entry with derived caches

    The entry [Person] of the documentation of the macro, with caches of both kinds; the run shows
    that the hypotheses of the round trip can hold, and which cache a field gets whose attribute
    names none. *)

From S2P Require Import Prelude Unicache Derive Lru Lfu UnicacheChecks.

(** ** The meaning of the names *)

Definition width (encoding : string) : N :=
  if bool_decide (encoding = "u8"%string) then 256
  else if bool_decide (encoding = "u16"%string) then 65536
  else if bool_decide (encoding = "u32"%string) then u32_mod else u64_mod.
Definition encoded (encoding : string) : DefaultEncoded N := uint_encoded (width encoding).

(** All cached fields are strings. *)
Definition field_value (ty : string) : Type := string.
Definition encoding_value (encoding : string) : Type := N.
Definition field_cache (t : CacheType) (ty encoding : string) : Type :=
  match t with
  | LRU => LRUniCache.t (lru string N) (lru N string) N
  | LFU => LFUniCache.t (LFUCache.t string N (lhs string)) (LFUCache.t N string (lhs N)) N
  end.

#[export] Instance field_caches t ty e :
    FieldCache (field_cache t ty e) (field_value ty) (encoding_value e) :=
  match t return FieldCache (field_cache t ty e) (field_value ty) (encoding_value e) with
  | LRU => LRUniCache_field_cache (H1 := encoded e)
  | LFU => LFUniCache_field_cache (H4 := encoded e)
  end.
#[export] Instance field_caches_lockstep t ty e :
    Lockstep (field_cache t ty e) (field_value ty) (encoding_value e).
Proof.
  destruct t.
  - exact (LRUniCache_lockstep (H1 := encoded e)).
  - exact (LFUniCache_lockstep (H4 := encoded e)).
Defined.

(** ** [Person] *)

Definition person : DeriveInput := {|
  d_ident := "Person"; d_snapshot := [];
  d_data := Struct [
    mkField (Some "id"%string) "u64" None;
    mkField (Some "first_name"%string) "String" (Some [MEncoding (Some "u8"%string)]);
    mkField (Some "last_name"%string) "String"
      (Some [MEncoding (Some "u64"%string); MSize (Some 100)]);
    mkField (Some "job"%string) "String"
      (Some [MEncoding (Some "u64"%string); MSize (Some 20); MCache (Some "lfu"%string)])]
|}.
Definition person_impl : UniCacheImpl := {|
  ui_entry := {| ei_name := "Person"; ei_snapshot := "::omnipaxos::storage::NoSnapshot" |};
  ui_cache_name := "PersonCache";
  ui_fields := [
    mkFieldSpec "id" "u64" None;
    mkFieldSpec "first_name" "String" (Some (mkCachedAs "u8" 255 LRU));
    mkFieldSpec "last_name" "String" (Some (mkCachedAs "u64" 100 LRU));
    mkFieldSpec "job" "String" (Some (mkCachedAs "u64" 20 LFU))]
|}.
Lemma person_derives : unicache_entry_derive person = Val person_impl.
Proof. vm_compute. reflexivity. Qed.

Lemma person_sizes_fit : declared_sizes_fit field_value encoding_value field_cache person.
Proof.
  assert (Hfits : ∀ k ty e n, n < width e → n ≠ 0 →
    fits (Lockstep := field_caches_lockstep k ty e) n).
  { intros k ty e n Hn H0. by destruct k; (split; [by apply uint_enough|]). }
  intros fields field metas [= <-] Hin Hm k.
  repeat (apply elem_of_cons in Hin as [->|Hin]; [|]); try by apply elem_of_nil in Hin.
  all: cbn in Hm; try discriminate Hm; injection Hm as <-; apply Hfits; vm_compute; done.
Qed.

Definition ann : Entry field_value (ui_fields person_impl) :=
  ("1", ("Ann", ("Lee", ("nurse", tt))))%string.
Definition ben : Entry field_value (ui_fields person_impl) :=
  ("2", ("Ben", ("Lee", ("nurse", tt))))%string.

Lemma derived_cache_roundtrip_witness :
  ∃ c rs a b, new field_value encoding_value field_cache (ui_fields person_impl) = Val c ∧
    encode_entries field_value encoding_value field_cache (ui_fields person_impl) [ann; ben] c =
      (Val rs, a) ∧
    decode_entries field_value encoding_value field_cache (ui_fields person_impl) rs c =
      (Val [ann; ben], b).
Proof.
  apply (derived_cache_roundtrip field_value encoding_value field_cache person person_impl [ann; ben]).
  - exact person_derives.
  - exact person_sizes_fit.
  - reflexivity.
Defined.

(** The second time, the last name and the job are sent as encodings. *)
Example ben_is_encoded :
  (match new field_value encoding_value field_cache (ui_fields person_impl) with
   | Val c => (encode_entries field_value encoding_value field_cache (ui_fields person_impl)
                 [ann; ben] c).1
   | Panic f => Panic f
   end) =
  Val [("1", (NotEncoded "Ann", (NotEncoded "Lee", (NotEncoded "nurse", tt))));
       ("2", (NotEncoded "Ben", (IsEncoded 1, (IsEncoded 1, tt))))]%string.
Proof. vm_compute. reflexivity. Qed.

(** ** The variable [cache_type] outlives its field *)

Definition two_fields (first : list Meta) : DeriveInput := {|
  d_ident := "Pair"; d_snapshot := [];
  d_data := Struct [mkField (Some "a"%string) "String" (Some first);
                    mkField (Some "b"%string) "String" (Some [MEncoding (Some "u8"%string)])]
|}.
Definition cache_types_of (ast : DeriveInput) : outcome (list (option CacheType)) :=
  match unicache_entry_derive ast with
  | Val impl => Val ((λ s, ca_type <$> fs_cached s) <$> ui_fields impl)
  | Panic f => Panic f
  end.
(** The documentation says that the default is [lru]; after a field with [cache(lfu)] it is not. *)
Theorem cache_attribute_leaks :
  cache_types_of (two_fields [MCache (Some "lru"%string)]) = Val [Some LRU; Some LRU] ∧
  cache_types_of (two_fields [MCache (Some "lfu"%string)]) = Val [Some LFU; Some LFU].
Proof. split; vm_compute; reflexivity. Qed.

Lemma derived_fields_witness :
  ∃ fields, d_data person = Struct fields ∧ length (ui_fields person_impl) = length fields ∧
    (fields !! 3%nat ≫= f_ident) = Some "job"%string.
Proof.
  destruct (derived_fields person person_impl person_derives) as (fields & Ed & El & Hall).
  exists fields. split; [exact Ed|]. split; [exact El|].
  destruct (fields !! 3%nat) as [f|] eqn:E; [|injection Ed as <-; discriminate E].
  apply (Hall 3%nat f (mkFieldSpec "job" "String" (Some (mkCachedAs "u64" 20 LFU))) E eq_refl).
Defined.
