(* ===== verification/Ui.v ===== *)
(** * The state of the dashboard (crates/custom-paxos/omnipaxos_ui/src/app.rs, lib.rs, util.rs)

    [App] is what the terminal dashboard of one server shows.  Every tick it takes over the states
    of the library ([OmniPaxosStates], utils/ui.rs).  UiRender draws it. *)

From stdpp Require Import sorting pretty.
From S2P Require Import Prelude Util Ballots Config Time StorageApi Messages.

(** ** Floats

    [f64], as far as the dashboard uses it: [hundredths n] is the literal [n/100]. *)

Class F64 : Type := {
  f64 : Type;
  hundredths : N → f64;
  of_usize : N → f64;
  f64_div : f64 → f64 → f64;
  f64_lt : f64 → f64 → bool;
  f64_le : f64 → f64 → bool;
  f64_to_u64 : f64 → N
}.
(** Rounding is monotone. *)
Class F64Laws `{F64} : Prop := {
  f64_zero_le_one : f64_le (hundredths 0) (hundredths 0) = true ∧ f64_le (hundredths 0) (hundredths 100) = true;
  f64_ratio a b : 0 < b → a ≤ b →
    f64_le (hundredths 0) (f64_div (of_usize a) (of_usize b)) = true ∧
    f64_le (f64_div (of_usize a) (of_usize b)) (hundredths 100) = true
}.

(** ** The states of the library (omnipaxos/src/utils/ui.rs) *)

Module ClusterState.
Record t : Type := mk { accepted_indexes : list N; heartbeats : list HeartbeatReply }.
(** [From<&LeaderState>] *)
Definition from_leader_state {A} (leader_state : A) : outcome t := Panic UnreachableCode.
End ClusterState.

Module OmniPaxosStates.
Record t : Type := mk {
  current_ballot : Ballot.t;
  current_leader : option NodeId;
  decided_idx : N;
  heartbeats : list HeartbeatReply;
  cluster_state : ClusterState.t
}.
End OmniPaxosStates.

(** ** Nodes and colours *)

Inductive Color : Type :=
  | Reset' | Green | Blue | Red | Cyan | Magenta | Yellow | White | LightCyan | LightYellow | LightRed
  | Indexed (n : N).
#[export] Instance Color_eq_dec : EqDecision Color.
Proof. solve_decision. Defined.

Definition ORANGE : Color := Indexed 208.
Definition PINK : Color := Indexed 211.
Definition COLORS : list Color := [Green; Blue; Red; ORANGE; Cyan; Magenta; Yellow; PINK].
Definition THROUGHPUT_DATA_SIZE : N := 200.

Module Node.
Record t : Type := mk {
  pid : N;
  ballot_number : N;
  leader : NodeId;
  color : Color;
  connected : bool
}.
#[global] Instance settable_pid : Settable pid := λ f r,
  mk (f (pid r)) (ballot_number r) (leader r) (color r) (connected r).
#[global] Instance settable_ballot_number : Settable ballot_number := λ f r,
  mk (pid r) (f (ballot_number r)) (leader r) (color r) (connected r).
#[global] Instance settable_leader : Settable leader := λ f r,
  mk (pid r) (ballot_number r) (f (leader r)) (color r) (connected r).
#[global] Instance settable_color : Settable color := λ f r,
  mk (pid r) (ballot_number r) (leader r) (f (color r)) (connected r).
#[global] Instance settable_connected : Settable connected := λ f r,
  mk (pid r) (ballot_number r) (leader r) (color r) (f (connected r)).
Definition default : t :=
  {| pid := 0; ballot_number := 0; leader := 0; color := Reset'; connected := false |}.
(** [PartialEq] *)
Definition eqb (a b : t) : bool := (pid a =? pid b) && (ballot_number a =? ballot_number b).
(** [From<Ballot>] *)
Definition from_ballot (ballot : Ballot.t) : t :=
  default <| pid := Ballot.pid ballot |> <| ballot_number := Ballot.n ballot |>.
End Node.

Inductive UiRole : Type := UiFollower | UiLeader.
#[export] Instance UiRole_eq_dec : EqDecision UiRole.
Proof. solve_decision. Defined.

Record UIAppConfig : Type := mkUIAppConfig { ui_pid : N; ui_peers : list N }.
(** [From<OmniPaxosConfig>] *)
Definition UIAppConfig_from (config : OmniPaxosConfig.t) : UIAppConfig :=
  let pid := ServerConfig.pid (OmniPaxosConfig.server_config config) in {|
  ui_pid := pid;
  ui_peers := filter (λ x, x ≠ pid) (ClusterConfig.nodes (OmniPaxosConfig.cluster_config config))
|}.

(** ** The application

    The time of the last update is left out: how long ago it was is an argument ([period]). *)

Module App.

Record t (F : Type) : Type := mk {
  current_node : Node.t;
  current_leader : option NodeId;
  leader_color : Color;
  current_role : UiRole;
  decided_idx : N;
  nodes : list Node.t;
  active_peers : list Node.t;
  throughput_data : list (string * N);
  dps : F;
  followers_progress : list F;
  followers_accepted_idx : list N
}.
#[global] Arguments mk {F}.
#[global] Arguments current_node {F}.
#[global] Arguments current_leader {F}.
#[global] Arguments leader_color {F}.
#[global] Arguments current_role {F}.
#[global] Arguments decided_idx {F}.
#[global] Arguments nodes {F}.
#[global] Arguments active_peers {F}.
#[global] Arguments throughput_data {F}.
#[global] Arguments dps {F}.
#[global] Arguments followers_progress {F}.
#[global] Arguments followers_accepted_idx {F}.
#[global] Instance settable_current_node {F} : Settable (@current_node F) := λ f r,
  mk (f (current_node r)) (current_leader r) (leader_color r) (current_role r) (decided_idx r)
    (nodes r) (active_peers r) (throughput_data r) (dps r) (followers_progress r)
    (followers_accepted_idx r).
#[global] Instance settable_current_leader {F} : Settable (@current_leader F) := λ f r,
  mk (current_node r) (f (current_leader r)) (leader_color r) (current_role r) (decided_idx r)
    (nodes r) (active_peers r) (throughput_data r) (dps r) (followers_progress r)
    (followers_accepted_idx r).
#[global] Instance settable_leader_color {F} : Settable (@leader_color F) := λ f r,
  mk (current_node r) (current_leader r) (f (leader_color r)) (current_role r) (decided_idx r)
    (nodes r) (active_peers r) (throughput_data r) (dps r) (followers_progress r)
    (followers_accepted_idx r).
#[global] Instance settable_current_role {F} : Settable (@current_role F) := λ f r,
  mk (current_node r) (current_leader r) (leader_color r) (f (current_role r)) (decided_idx r)
    (nodes r) (active_peers r) (throughput_data r) (dps r) (followers_progress r)
    (followers_accepted_idx r).
#[global] Instance settable_decided_idx {F} : Settable (@decided_idx F) := λ f r,
  mk (current_node r) (current_leader r) (leader_color r) (current_role r) (f (decided_idx r))
    (nodes r) (active_peers r) (throughput_data r) (dps r) (followers_progress r)
    (followers_accepted_idx r).
#[global] Instance settable_nodes {F} : Settable (@nodes F) := λ f r,
  mk (current_node r) (current_leader r) (leader_color r) (current_role r) (decided_idx r)
    (f (nodes r)) (active_peers r) (throughput_data r) (dps r) (followers_progress r)
    (followers_accepted_idx r).
#[global] Instance settable_active_peers {F} : Settable (@active_peers F) := λ f r,
  mk (current_node r) (current_leader r) (leader_color r) (current_role r) (decided_idx r)
    (nodes r) (f (active_peers r)) (throughput_data r) (dps r) (followers_progress r)
    (followers_accepted_idx r).
#[global] Instance settable_throughput_data {F} : Settable (@throughput_data F) := λ f r,
  mk (current_node r) (current_leader r) (leader_color r) (current_role r) (decided_idx r)
    (nodes r) (active_peers r) (f (throughput_data r)) (dps r) (followers_progress r)
    (followers_accepted_idx r).
#[global] Instance settable_dps {F} : Settable (@dps F) := λ f r,
  mk (current_node r) (current_leader r) (leader_color r) (current_role r) (decided_idx r)
    (nodes r) (active_peers r) (throughput_data r) (f (dps r)) (followers_progress r)
    (followers_accepted_idx r).
#[global] Instance settable_followers_progress {F} : Settable (@followers_progress F) := λ f r,
  mk (current_node r) (current_leader r) (leader_color r) (current_role r) (decided_idx r)
    (nodes r) (active_peers r) (throughput_data r) (dps r) (f (followers_progress r))
    (followers_accepted_idx r).
#[global] Instance settable_followers_accepted_idx {F} : Settable (@followers_accepted_idx F) := λ f r,
  mk (current_node r) (current_leader r) (leader_color r) (current_role r) (decided_idx r)
    (nodes r) (active_peers r) (throughput_data r) (dps r) (followers_progress r)
    (f (followers_accepted_idx r)).

Section ops.
Context `{Build, F64}.
Abbreviation Self := (t f64).

(** [config.peers.iter().max()] *)
Definition max_pid (config : UIAppConfig) : option N :=
  match ui_peers config with
  | [] => None
  | p :: ps => Some (N.max (foldl N.max p ps) (ui_pid config))
  end.

Definition node_at (idx : nat) (pid : N) : Node.t :=
  Node.default <| Node.pid := pid |>
    <| Node.color := default Reset' (COLORS !! (idx `mod` length COLORS)%nat) |>.

Definition with_ (config : UIAppConfig) : outcome Self :=
  match max_pid config with
  | None => Panic UnwrapNone
  | Some max_pid =>
      let peers := merge_sort N.le (ui_peers config ++ [ui_pid config]) in
      let nodes := imap node_at peers in
      let current_node := foldl (λ c node,
        if Node.pid node =? ui_pid config then c <| Node.color := Node.color node |> else c)
        (Node.default <| Node.pid := ui_pid config |>) nodes in
      match wadd usize_mod max_pid 1 with
      | Panic f => Panic f
      | Val size => Val {|
          current_node := current_node; current_leader := None; leader_color := Reset';
          current_role := UiFollower; decided_idx := 0; nodes := nodes;
          active_peers := filter (λ x, Node.pid x ≠ ui_pid config) nodes;
          throughput_data := []; dps := hundredths 0;
          followers_progress := replicate (N.to_nat size) (hundredths 0);
          followers_accepted_idx := replicate (N.to_nat size) 0
        |}
      end
  end.

Definition set_decided_idx (period : f64) (idx : N) : M Self unit :=
  let* self := gets (λ s, s) in
  let* throughput := lift (wsub usize_mod idx (decided_idx self)) in
  let* _ := modify (λ s, s <| throughput_data ::= cons (pretty throughput, throughput) |>) in
  let* _ := modify (λ s, s <| dps := f64_div (of_usize throughput) period |>) in
  modify (λ s, s <| decided_idx := idx |>).

(** [self.field[idx] = value] *)
Definition set_index {A} (proj : Self → list A) `{!Settable proj} (idx : nat) (value : A) : M Self unit :=
  let* self := gets (λ s, s) in
  match proj self !! idx with
  | Some _ => modify (upd proj <[idx := value]>)
  | None => panic OutOfBounds
  end.

(** [OmniPaxosUI::update_progress]; what the body of its loop computes, and the body, first. *)
Definition ratio (leader_acc_idx accepted_idx : N) : f64 :=
  if leader_acc_idx =? 0 then hundredths 0
  else f64_div (of_usize accepted_idx) (of_usize leader_acc_idx).
Definition set_progress (leader_acc_idx : N) (p : nat * N) : M Self unit :=
  let '(idx, accepted_idx) := p in
  let* _ := set_index followers_progress idx (ratio leader_acc_idx accepted_idx) in
  set_index followers_accepted_idx idx accepted_idx.

Definition update_progress (op_states : OmniPaxosStates.t) : M Self unit :=
  let* self := gets (λ s, s) in
  match current_leader self with
  | Some leader_id =>
      if leader_id =? Node.pid (current_node self) then
        let* _ := modify (λ s, s <| current_role := UiLeader |>) in
        let accepted_indexes :=
          ClusterState.accepted_indexes (OmniPaxosStates.cluster_state op_states) in
        match accepted_indexes !! N.to_nat leader_id with
        | None => panic OutOfBounds
        | Some leader_acc_idx =>
            mfor (imap pair accepted_indexes) (set_progress leader_acc_idx)
        end
      else modify (λ s, s <| current_role := UiFollower |>)
  | None => ret tt
  end.

Definition update_peer (heartbeats : list HeartbeatReply) (node : Node.t) : Node.t :=
  match list_find (λ x, Ballot.pid (ballot x) = Node.pid node) heartbeats with
  | Some (_, heartbeat) =>
      node <| Node.ballot_number := Ballot.n (ballot heartbeat) |>
           <| Node.leader := Ballot.pid (leader heartbeat) |> <| Node.connected := true |>
  | None => node <| Node.connected := false |>
  end.
Definition update_active_peers (op_states : OmniPaxosStates.t) : M Self unit :=
  modify (λ s, s <| active_peers ::= fmap (update_peer
    (ClusterState.heartbeats (OmniPaxosStates.cluster_state op_states))) |>).

Definition update_leader (op_states : OmniPaxosStates.t) : M Self unit :=
  let* _ := modify (λ s, s <| current_leader := OmniPaxosStates.current_leader op_states |>) in
  let* self := gets (λ s, s) in
  let* color := (match current_leader self with
    | None => ret Reset'
    | Some leader_id =>
        if leader_id =? Node.pid (current_node self) then ret (Node.color (current_node self))
        else
          let* leader := unwrap (list_find (λ x, Node.pid x = leader_id) (nodes self)) in
          ret (Node.color leader.2)
    end) in
  modify (λ s, s <| leader_color := color |>).

(** What [OmniPaxosUI::tick] does with the application. *)
Definition update (period : f64) (op_states : OmniPaxosStates.t) : M Self unit :=
  let* _ := modify (λ s, s <| current_node ::= λ n,
    n <| Node.ballot_number := Ballot.n (OmniPaxosStates.current_ballot op_states) |> |>) in
  let* _ := set_decided_idx period (OmniPaxosStates.decided_idx op_states) in
  let* _ := update_progress op_states in
  let* _ := update_active_peers op_states in
  update_leader op_states.
End ops.
End App.

(** ** What the dashboard shows *)

Section app.
Context `{Build, F64, !F64Laws}.
Import App.
Implicit Types s : App.t f64.
Implicit Types st : OmniPaxosStates.t.

(** The nodes come from the configuration, every one of them has its place in the vectors of the
    followers, the progress can be drawn, and the throughput adds up to the decided index. *)
Record app_ok (config : UIAppConfig) s : Prop := {
  ao_node : Node.pid (current_node s) = ui_pid config;
  ao_nodes : Node.pid <$> nodes s = merge_sort N.le (ui_peers config ++ [ui_pid config]);
  ao_peers : Node.pid <$> active_peers s = filter (λ p, p ≠ ui_pid config) (Node.pid <$> nodes s);
  ao_places p : p ∈ Node.pid <$> nodes s → (N.to_nat p < length (followers_accepted_idx s))%nat;
  ao_lengths : length (followers_progress s) = length (followers_accepted_idx s);
  ao_progress : Forall (λ x, f64_le (hundredths 0) x = true ∧ f64_le x (hundredths 100) = true)
    (followers_progress s);
  ao_color : ∃ n, n ∈ nodes s ∧ Node.pid n = ui_pid config ∧ Node.color n = Node.color (current_node s);
  ao_throughput : foldr N.add 0 (throughput_data s).*2 = decided_idx s
}.

(** *** The start *)

Lemma max_pid_ge config m p :
  max_pid config = Some m → p ∈ ui_peers config ++ [ui_pid config] → p ≤ m.
Proof.
  unfold max_pid. destruct (ui_peers config) as [|q ps]; [done|]. intros [= <-].
  assert (Hf : ∀ l a, a ≤ foldl N.max a l ∧ ∀ x, x ∈ l → x ≤ foldl N.max a l).
  { induction l as [|y l IH]; intros a; cbn; [split; [done|by intros x ?%elem_of_nil]|].
    destruct (IH (N.max a y)) as [H1' H2']. split; [lia|].
    intros x [->|Hx]%elem_of_cons; [lia|by apply H2']. }
  destruct (Hf ps q) as [Hq Hps].
  intros [[->|Hx]%elem_of_cons| ->%list_elem_of_singleton]%elem_of_app; [lia| |lia].
  specialize (Hps p Hx). lia.
Qed.

Lemma node_at_pids l : Node.pid <$> imap node_at l = l.
Proof.
  rewrite fmap_imap. rewrite (imap_ext _ (λ _ p, p)) by done.
  apply (eq_trans (imap_const id l)), list_fmap_id.
Qed.

Lemma filter_pids (P : N → Prop) `{!∀ x, Decision (P x)} (l : list Node.t) :
  Node.pid <$> filter (λ n, P (Node.pid n)) l = filter P (Node.pid <$> l).
Proof.
  induction l as [|n l IH]; [done|]. rewrite fmap_cons, !filter_cons.
  destruct (decide (P (Node.pid n))); cbn; by f_equal.
Qed.

(** The loop of [with_] over the nodes keeps the identity of the current node, and gives it the colour
    of a node with its identity. *)
Definition recolor (pid : N) (c node : Node.t) : Node.t :=
  if Node.pid node =? pid then c <| Node.color := Node.color node |> else c.
Lemma recolor_ok pid l c :
  Node.pid (foldl (recolor pid) c l) = Node.pid c ∧
  (pid ∈ Node.pid <$> l →
   ∃ n, n ∈ l ∧ Node.pid n = pid ∧ Node.color n = Node.color (foldl (recolor pid) c l)).
Proof.
  induction l as [|x l IH] using rev_ind; [split; [done|by intros ?%elem_of_nil]|].
  rewrite foldl_app. cbn. destruct IH as [Hpid Hcolor]. unfold recolor at 1 3.
  destruct (N.eqb_spec (Node.pid x) pid) as [Hx|Hx]; cbn; (split; [done|]).
  - intros _. exists x. split; [apply elem_of_app; right; by left|done].
  - rewrite fmap_app, elem_of_app. intros [Hin|Hin].
    + destruct (Hcolor Hin) as (n & Hn & ?). exists n. rewrite elem_of_app. auto.
    + apply list_elem_of_singleton in Hin. by subst pid.
Qed.

Lemma with_ok config m :
  max_pid config = Some m → m + 1 < usize_mod →
  ∃ s, with_ config = Val s ∧ app_ok config s ∧ current_leader s = None ∧ decided_idx s = 0 ∧
    length (followers_accepted_idx s) = N.to_nat (m + 1).
Proof.
  intros Hm Hfit. unfold with_. rewrite Hm, wadd_exact by done. eexists. split; [done|].
  split; [|split; [done|split; [done|apply length_replicate]]].
  set (l := imap node_at _).
  pose proof (recolor_ok (ui_pid config) l (Node.default <| Node.pid := ui_pid config |>)) as [Hpid Hcolor].
  split; cbn.
  - apply Hpid.
  - apply node_at_pids.
  - pose proof (filter_pids (λ p, p ≠ ui_pid config)) as Hpids. apply Hpids.
  - intros p Hp. unfold l in Hp. rewrite node_at_pids, merge_sort_Permutation in Hp.
    pose proof (max_pid_ge _ _ _ Hm Hp). rewrite length_replicate. lia.
  - by rewrite !length_replicate.
  - apply Forall_replicate, f64_zero_le_one.
  - apply Hcolor. unfold l. rewrite node_at_pids, merge_sort_Permutation.
    apply elem_of_app. right. by left.
  - done.
Qed.

(** *** The progress of the followers *)

Lemma insert_app_drop {A} (pre l : list A) k v :
  length pre = k → (k < length l)%nat →
  is_Some ((pre ++ drop k l) !! k) ∧ <[k:=v]> (pre ++ drop k l) = (pre ++ [v]) ++ drop (S k) l.
Proof.
  intros <- Hk. destruct (lookup_lt_is_Some_2 l _ Hk) as [x Hx].
  rewrite (drop_S _ _ _ Hx). split; [by rewrite list_lookup_middle|].
  rewrite insert_app_r_alt, Nat.sub_diag by done. by rewrite <-app_assoc.
Qed.

Lemma set_progress_loop s leader_acc_idx l :
  (length l ≤ length (followers_accepted_idx s))%nat →
  length (followers_progress s) = length (followers_accepted_idx s) →
  returns (mfor (imap pair l) (set_progress leader_acc_idx)) s (λ _ s',
    s' = s <| followers_progress := (ratio leader_acc_idx <$> l) ++ drop (length l) (followers_progress s) |>
           <| followers_accepted_idx := l ++ drop (length l) (followers_accepted_idx s) |>).
Proof.
  intros Hlen Heq.
  set (at_ k := s <| followers_progress := (ratio leader_acc_idx <$> take k l) ++ drop k (followers_progress s) |>
    <| followers_accepted_idx := take k l ++ drop k (followers_accepted_idx s) |>).
  eapply returns_mono; [apply (returns_mfor _ _ (λ rest s',
    ∃ k, (k ≤ length l)%nat ∧ rest = drop k (imap pair l) ∧ s' = at_ k))|].
  - exists 0%nat. split; [lia|]. split; [done|]. unfold at_. cbn. rewrite !drop_0. by destruct s.
  - intros x rest s' (k & Hk & Hrest & ->).
    assert (Hx : imap pair l !! k = Some x) by (by rewrite <-(Nat.add_0_r k), <-lookup_drop, <-Hrest).
    rewrite list_lookup_imap in Hx. destruct (l !! k) as [a|] eqn:Ha; [|done]. injection Hx as <-.
    pose proof (lookup_lt_Some _ _ _ Ha) as Hlt.
    destruct (insert_app_drop (ratio leader_acc_idx <$> take k l) (followers_progress s) k
      (ratio leader_acc_idx a)) as [[y Hy] Hp]; [rewrite length_fmap, length_take; lia|lia|].
    destruct (insert_app_drop (take k l) (followers_accepted_idx s) k a) as [[z Hz] Hf];
      [rewrite length_take; lia|lia|].
    unfold set_progress, set_index. wp. unfold at_ at 1. cbn. rewrite Hy. wp. cbn. rewrite Hz. wp.
    exists (S k). split; [lia|]. split.
    { rewrite <-Nat.add_1_r, <-drop_drop, <-Hrest. done. }
    unfold at_, settable_followers_progress, settable_followers_accepted_idx. cbn.
    rewrite Hp, Hf, (take_S_r _ _ _ Ha), fmap_app. done.
  - cbn. intros _ s' (k & Hk & Hrest & ->). apply (f_equal length) in Hrest.
    rewrite length_drop, length_imap in Hrest. cbn in Hrest. assert (k = length l) as -> by lia.
    unfold at_. by rewrite firstn_all.
Qed.
(** *** One update

    What the library has to hand over for the dashboard to follow it: the decided index does not go
    back, the leader is a node of the configuration, and, while the dashboard shows this node as the
    leader, the accepted indexes are indexed by node, with no follower ahead of the leader. *)

Record states_ok (config : UIAppConfig) s st : Prop := {
  so_decided : decided_idx s ≤ OmniPaxosStates.decided_idx st;
  so_leader l : OmniPaxosStates.current_leader st = Some l → l ∈ Node.pid <$> nodes s;
  so_accepted : current_leader s = Some (ui_pid config) →
    let l := ClusterState.accepted_indexes (OmniPaxosStates.cluster_state st) in
    (length l ≤ length (followers_accepted_idx s))%nat ∧
    ∃ leader_acc_idx, l !! N.to_nat (ui_pid config) = Some leader_acc_idx ∧
      Forall (λ a, a ≤ leader_acc_idx) l
}.

(** What the dashboard shows after an update: the leader and its colour, the decided index, the ballot,
    the peers that answered the last heartbeats, and, when this node was the leader [before] the
    update, how far the followers are. *)
Record shows (config : UIAppConfig) (before : option NodeId) s st : Prop := {
  sh_leader : current_leader s = OmniPaxosStates.current_leader st;
  sh_color : match current_leader s with
    | None => leader_color s = Reset'
    | Some l => ∃ n, n ∈ nodes s ∧ Node.pid n = l ∧ Node.color n = leader_color s
    end;
  sh_decided : decided_idx s = OmniPaxosStates.decided_idx st;
  sh_ballot : Node.ballot_number (current_node s) = Ballot.n (OmniPaxosStates.current_ballot st);
  sh_peers n : n ∈ active_peers s →
    let heartbeats := ClusterState.heartbeats (OmniPaxosStates.cluster_state st) in
    if Node.connected n
    then ∃ h, h ∈ heartbeats ∧ Ballot.pid (ballot h) = Node.pid n ∧
      Ballot.n (ballot h) = Node.ballot_number n ∧ Ballot.pid (leader h) = Node.leader n
    else ∀ h, h ∈ heartbeats → Ballot.pid (ballot h) ≠ Node.pid n;
  sh_role l : before = Some l →
    current_role s = if l =? ui_pid config then UiLeader else UiFollower;
  sh_progress p a : before = Some (ui_pid config) →
    let l := ClusterState.accepted_indexes (OmniPaxosStates.cluster_state st) in
    l !! p = Some a →
    followers_accepted_idx s !! p = Some a ∧
    ∃ leader_acc_idx, l !! N.to_nat (ui_pid config) = Some leader_acc_idx ∧
      followers_progress s !! p = Some (ratio leader_acc_idx a)
}.

Lemma ratio_bounds leader_acc_idx a :
  a ≤ leader_acc_idx →
  f64_le (hundredths 0) (ratio leader_acc_idx a) = true ∧ f64_le (ratio leader_acc_idx a) (hundredths 100) = true.
Proof.
  intros Hle. unfold ratio. destruct (N.eqb_spec leader_acc_idx 0); [apply f64_zero_le_one|].
  apply f64_ratio; lia.
Qed.

Lemma set_decided_idx_ok config s period idx :
  app_ok config s → decided_idx s ≤ idx →
  returns (set_decided_idx period idx) s (λ _ s', app_ok config s' ∧ ∃ td d,
    s' = s <| throughput_data := td |> <| dps := d |> <| decided_idx := idx |>).
Proof.
  intros Hok Hle. unfold set_decided_idx. wp. eapply returns_lift; [by apply wsub_exact|]. wp.
  split; [|by eexists _, _]. destruct Hok. constructor; cbn; try done. lia.
Qed.

Lemma update_progress_ok config s st :
  app_ok config s → states_ok config s st →
  returns (update_progress st) s (λ _ s', app_ok config s' ∧
    (∃ r fp fa, length fa = length (followers_accepted_idx s) ∧
      s' = s <| current_role := r |> <| followers_progress := fp |> <| followers_accepted_idx := fa |>) ∧
    (∀ l, current_leader s = Some l →
      current_role s' = if l =? ui_pid config then UiLeader else UiFollower) ∧
    (current_leader s = Some (ui_pid config) → ∃ leader_acc_idx,
      let l := ClusterState.accepted_indexes (OmniPaxosStates.cluster_state st) in
      l !! N.to_nat (ui_pid config) = Some leader_acc_idx ∧
      l `prefix_of` followers_accepted_idx s' ∧ (ratio leader_acc_idx <$> l) `prefix_of` followers_progress s')).
Proof.
  intros Hok Hst. unfold update_progress. wp.
  destruct (current_leader s) as [l|] eqn:Hl; wp.
  2: { split; [done|]. split; [|done]. exists (current_role s), (followers_progress s), (followers_accepted_idx s). by destruct s. }
  rewrite (ao_node _ _ Hok). destruct (N.eqb_spec l (ui_pid config)) as [->|Hne]; wp.
  2: { split; [by destruct Hok; constructor|]. split.
    { exists UiFollower, (followers_progress s), (followers_accepted_idx s). by destruct s. }
    split; [|congruence]. intros l' [= <-]. by rewrite (proj2 (N.eqb_neq _ _) Hne). }
  destruct (so_accepted _ _ _ Hst Hl) as (Hlen & leader_acc_idx & Hacc & Hall). rewrite Hacc.
  eapply returns_mono; [apply set_progress_loop; [done|apply (ao_lengths _ _ Hok)]|].
  intros _ s' ->. cbn. split; [|split; [|split]].
  - destruct Hok as [????? Hprog]. constructor; cbn; try done.
    + by rewrite length_app, length_drop, Nat.add_comm, Nat.sub_add.
    + rewrite !length_app, !length_drop, length_fmap. lia.
    + apply Forall_app. split; [|by apply Forall_drop].
      apply Forall_fmap. eapply Forall_impl; [done|]. intros a. apply ratio_bounds.
  - eexists _, _, _. split; [|done]. rewrite length_app, length_drop. lia.
  - intros l [= <-]. by rewrite N.eqb_refl.
  - intros _. exists leader_acc_idx. split; [done|]. split; by eexists.
Qed.
Lemma update_peer_pids heartbeats (l : list Node.t) : Node.pid <$> (update_peer heartbeats <$> l) = Node.pid <$> l.
Proof.
  induction l as [|n l IH]; [done|]. rewrite !fmap_cons, IH. f_equal.
  unfold update_peer. by destruct (list_find _ heartbeats) as [[??]|].
Qed.

Lemma update_peer_shows heartbeats n :
  let n' := update_peer heartbeats n in
  if Node.connected n'
  then ∃ h, h ∈ heartbeats ∧ Ballot.pid (ballot h) = Node.pid n' ∧
    Ballot.n (ballot h) = Node.ballot_number n' ∧ Ballot.pid (leader h) = Node.leader n'
  else ∀ h, h ∈ heartbeats → Ballot.pid (ballot h) ≠ Node.pid n'.
Proof.
  unfold update_peer. destruct (list_find _ heartbeats) as [[i h]|] eqn:Hfind; cbn.
  - apply list_find_Some in Hfind as (Hh & Hpid & _). exists h. by split; [eapply list_elem_of_lookup_2|].
  - apply list_find_None in Hfind. intros h Hh. by apply (proj1 (Forall_forall _ _) Hfind).
Qed.

Lemma update_active_peers_ok config s st :
  app_ok config s →
  returns (update_active_peers st) s (λ _ s', app_ok config s' ∧ s' = s <| active_peers :=
    update_peer (ClusterState.heartbeats (OmniPaxosStates.cluster_state st)) <$> active_peers s |>).
Proof.
  intros Hok. unfold update_active_peers. wp. split; [|done].
  destruct Hok. constructor; cbn; try done. by rewrite update_peer_pids.
Qed.

Lemma update_leader_ok config s st :
  app_ok config s → (∀ l, OmniPaxosStates.current_leader st = Some l → l ∈ Node.pid <$> nodes s) →
  returns (update_leader st) s (λ _ s', app_ok config s' ∧ ∃ c,
    s' = s <| current_leader := OmniPaxosStates.current_leader st |> <| leader_color := c |> ∧
    match OmniPaxosStates.current_leader st with
    | None => c = Reset'
    | Some l => ∃ n, n ∈ nodes s ∧ Node.pid n = l ∧ Node.color n = c
    end).
Proof.
  intros Hok Hleader. unfold update_leader. wp.
  assert (Hany : ∀ ldr c, app_ok config (s <| current_leader := ldr |> <| leader_color := c |>))
    by (intros; by destruct Hok; constructor).
  cbn [current_leader upd settable_current_leader].
  destruct (OmniPaxosStates.current_leader st) as [l|] eqn:Hl; wp; [|eauto].
  cbn. destruct (N.eqb_spec l (Node.pid (current_node s))) as [->|Hne]; wp.
  { split; [apply Hany|]. eexists. split; [done|]. rewrite (ao_node _ _ Hok). apply (ao_color _ _ Hok). }
  destruct (list_find _ (nodes s)) as [[i n]|] eqn:Hfind; wp.
  - split; [apply Hany|]. eexists. split; [done|]. apply list_find_Some in Hfind as (Hn & Hpid & _).
    exists n. by split; [eapply list_elem_of_lookup_2|].
  - apply list_find_None in Hfind. destruct (proj1 (list_elem_of_fmap _ _ _) (Hleader l eq_refl)) as (n & -> & Hn).
    by destruct (proj1 (Forall_forall _ _) Hfind n Hn).
Qed.

Lemma update_ok config s st period :
  app_ok config s → states_ok config s st →
  returns (update period st) s (λ _ s', app_ok config s' ∧ shows config (current_leader s) s' st ∧
    nodes s' = nodes s ∧ length (followers_accepted_idx s') = length (followers_accepted_idx s)).
Proof.
  intros Hok Hst. unfold update. wp.
  set (s1 := upd _ _ s). assert (Hok1 : app_ok config s1) by (by destruct Hok; constructor).
  eapply returns_mono; [by apply (set_decided_idx_ok _ _ _ _ Hok1), (so_decided _ _ _ Hst)|].
  cbn. intros _ s2 (Hok2 & td & d & Hs2).
  assert (Hst2 : states_ok config s2 st) by (subst s2; destruct Hst; constructor; by cbn).
  wp. eapply returns_mono; [by apply (update_progress_ok _ _ _ Hok2)|].
  cbn. intros _ s3 (Hok3 & (r & fp & fa & Hfa & Hs3) & Hrole & Hprogress). wp.
  eapply returns_mono; [by apply (update_active_peers_ok _ _ st Hok3)|].
  cbn. intros _ s4 [Hok4 Hs4].
  assert (Hnodes : nodes s4 = nodes s) by (by subst s4 s3 s2 s1).
  eapply returns_mono; [apply (update_leader_ok _ _ _ Hok4); rewrite Hnodes; apply (so_leader _ _ _ Hst)|].
  cbn. intros _ s5 (Hok5 & c & -> & Hc). split; [done|]. split.
  - assert (Hbefore : current_leader s2 = current_leader s) by (by subst s2 s1). rewrite Hbefore in *.
    constructor; cbn; try done.
    + subst s4 s3 s2. done.
    + subst s4 s3 s2 s1. done.
    + subst s4. intros n (m & -> & _)%list_elem_of_fmap. apply update_peer_shows.
    + subst s4. apply Hrole.
    + subst s4. intros p a Hself Ha. destruct (Hprogress Hself) as (L & HL & Hacc & Hprog).
      split; [by eapply prefix_lookup_Some|]. exists L. split; [done|].
      eapply prefix_lookup_Some; [|done]. by rewrite list_lookup_fmap, Ha.
  - split; [done|]. subst s4 s3 s2 s1. apply Hfa.
Qed.
End app.
