(* ===== verification/UiRender.v ===== *)
(** * Drawing the dashboard (crates/custom-paxos/omnipaxos_ui/src/render.rs, lib.rs)

    The widgets are data: what the source passes to the builders of [ratatui] and [tui_logger].  How
    [ratatui] splits an area and which ratios its gauge takes are the class [Ratatui]; putting the
    widgets on a terminal is not modelled.  [OmniPaxosUI] drives the application of Ui. *)

From Stdlib Require Import Ascii.
From stdpp Require Import sorting pretty.
From S2P Require Import Prelude Util Ballots Config Time StorageApi Messages Ui.

#[local] Open Scope string_scope.
#[local] Open Scope list_scope.
#[local] Open Scope N_scope.
Notation "s +:+ t" := (String.append s t) : string_scope.

(** ** Constants (util.rs, render.rs) *)

Definition UI_TITLE : string := "OmniPaxos".
Definition UI_THROUGHPUT_TITLE : string := "Throughput".
Definition UI_TABLE_TITLE : string := "Peers".
Definition UI_NODE_INFO_TITLE : string := "Current node information".
Definition UI_CLUSTER_INFO_TITLE : string := "Cluster information".
Definition UI_LOGGING_TITLE : string := "System log".
Definition UI_BARCHART_WIDTH : N := 3.
Definition UI_BARCHART_GAP : N := 1.
Definition UI_TABLE_CONTENT_HEIGHT : N := 1.
Definition UI_TABLE_ROW_MARGIN : N := 1.
Definition PID : string := "PID".
Definition BALLOT : string := "Ballot".
Definition LEADER : string := "Leader".
Definition CONNECTED : string := "Connected".
Definition ACCEPTED_IDX : string := "Accepted idx".

(** ** Widgets *)

Inductive Modifier : Type := BOLD | ITALIC.
Record Style : Type := mkStyle { fg : option Color; bg : option Color; modifiers : list Modifier }.
Definition plain : Style := mkStyle None None [].
Definition fg_style (c : Color) : Style := mkStyle (Some c) None [].
Definition bold (c : Color) : Style := mkStyle (Some c) None [BOLD].
Definition on_color (c : Color) : Style := mkStyle (Some White) (Some c) [].

Record Span : Type := mkSpan { content : string; span_style : Style }.
Definition raw (s : string) : Span := mkSpan s plain.
Definition Line : Type := list Span.
Inductive Text : Type := TextString (s : string) | TextLines (l : list Line).

Inductive Border : Type := TOP | LEFT | BOTTOM | RIGHT.
Definition ALL : list Border := [TOP; LEFT; BOTTOM; RIGHT].
Record Block : Type := mkBlock {
  title : option Line; borders : list Border; block_style : Style; border_style : Style
}.
Definition block (title : option Line) (borders : list Border) : Block :=
  mkBlock title borders plain plain.

Inductive Constraint : Type := Length (n : N) | Min (n : N) | Percentage (n : N).
Inductive Direction : Type := Horizontal | Vertical.
Record Rect : Type := mkRect { rect_x : N; rect_y : N; rect_width : N; rect_height : N }.

(** All paragraphs are centred and have a plain border. *)
Record Paragraph : Type := mkParagraph { text : Text; paragraph_style : Style; paragraph_block : Block }.
Record BarChart : Type := mkBarChart {
  chart_block : Block; chart_data : list (string * N); bar_width : N; bar_gap : N;
  value_style : Style; label_style : Style; bar_style : Style
}.
Record Row : Type := mkRow { cells : list Span; row_height : N; bottom_margin : N; row_style : Style }.
Record Table : Type := mkTable {
  rows : list Row; header : Row; table_block : Block; widths : list Constraint; table_style : Style
}.
Record Gauge (F : Type) : Type := mkGauge { gauge_block : Block; gauge_style : Style; gauge_ratio : F }.
#[global] Arguments mkGauge {F}.
#[global] Arguments gauge_ratio {F}.
#[global] Arguments gauge_style {F}.
Inductive LevelFilter : Type := LevelOff | LevelInfo.
Inductive TuiLoggerLevelOutput : Type := Abbreviated | Long.
Record Logger : Type := mkLogger {
  default_display_level : LevelFilter; level_for_target : list (string * LevelFilter);
  logger_block : Block; style_error : Style; style_debug : Style; style_warn : Style;
  style_trace : Style; style_info : Style; output_separator : string; output_timestamp : option string;
  output_level : option TuiLoggerLevelOutput; output_target : bool; output_file : bool; output_line : bool
}.
Inductive Widget (F : Type) : Type :=
  | WParagraph (p : Paragraph) | WBarChart (b : BarChart) | WTable (t : Table) | WGauge (g : Gauge F)
  | WBlock (b : Block) | WLogger (l : Logger).
#[global] Arguments WParagraph {F}.
#[global] Arguments WBarChart {F}.
#[global] Arguments WTable {F}.
#[global] Arguments WGauge {F}.
#[global] Arguments WBlock {F}.
#[global] Arguments WLogger {F}.

(** What has been drawn on a frame, in the order of the calls. *)
Record Frame (F : Type) : Type := mkFrame { size : Rect; drawn : list (Widget F * Rect) }.
#[global] Arguments mkFrame {F}.
#[global] Arguments size {F}.
#[global] Arguments drawn {F}.

(** [ratatui]: [Layout::split], and the ratios for which [Gauge::ratio] does not panic. *)
Class Ratatui (F : Type) : Type := {
  split : Direction → list Constraint → Rect → list Rect;
  gauge_takes : F → bool
}.
Class RatatuiLaws `{F64, !Ratatui f64} : Prop := {
  split_length d constraints area : length (split d constraints area) = length constraints;
  gauge_takes_ratios x : f64_le (hundredths 0) x = true → f64_le x (hundredths 100) = true →
    gauge_takes x = true
}.

(** ** Drawing *)

Section render.
Context `{Build, F64, !Ratatui f64}.
Abbreviation Frame := (Frame f64).
Implicit Types app : App.t f64.

Definition render_widget (w : Widget f64) (area : Rect) : M Frame unit :=
  modify (λ f, mkFrame (size f) (drawn f ++ [(w, area)])).
(** [l[i]] *)
Definition index {S A} (l : list A) (i : nat) : M S A :=
  match l !! i with Some x => ret x | None => panic OutOfBounds end.
Fixpoint mmap {S A B} (f : A → M S B) (l : list A) : M S (list B) :=
  match l with
  | [] => ret []
  | x :: l' => let* y := f x in let* ys := mmap f l' in ret (y :: ys)
  end.

Definition draw_title app : Paragraph := {|
  text := TextString (UI_TITLE +:+ " node " +:+ pretty (Node.pid (App.current_node app)) +:+
    " (press 'q' or 'esc' to exit the dashboard)");
  paragraph_style := fg_style LightCyan;
  paragraph_block := mkBlock None ALL (fg_style White) plain
|}.

Definition draw_chart app (window_width : N) : BarChart :=
  let data := (λ '(s, num), if 0 <? num then (s, num) else ("", 0)) <$>
    take (N.to_nat (window_width / (UI_BARCHART_WIDTH + UI_BARCHART_GAP))) (App.throughput_data app) in
  let title := [
    mkSpan (UI_THROUGHPUT_TITLE +:+ ": " +:+ pretty (f64_to_u64 (App.dps app)) +:+ " req/s") (bold White);
    mkSpan " (# reqs/tick)" (bold Yellow)] in {|
  chart_block := block (Some title) ALL;
  chart_data := data; bar_width := UI_BARCHART_WIDTH; bar_gap := UI_BARCHART_GAP;
  value_style := mkStyle (Some (App.leader_color app)) (Some (App.leader_color app)) [];
  label_style := fg_style Yellow; bar_style := fg_style (App.leader_color app)
|}.
Definition info_block (title : string) : Block :=
  mkBlock (Some [raw title]) ALL (fg_style White) plain.

Definition cluster_info_text app : Paragraph :=
  let leader := match App.current_leader app with
    | Some id => [raw "Current Leader: "; mkSpan (" " +:+ pretty id +:+ " ") (on_color (App.leader_color app))]
    | None => [raw "No leader yet"]
    end in
  let nodes := raw "Nodes:" :: mbind (λ n,
    [raw " "; mkSpan (" " +:+ pretty (Node.pid n) +:+ " ") (on_color (Node.color n))]) (App.nodes app) in {|
  text := TextLines [[raw ""]; leader; nodes]; paragraph_style := fg_style LightCyan;
  paragraph_block := info_block UI_CLUSTER_INFO_TITLE
|}.
Definition draw_cluster_info app (area : Rect) : M Frame unit :=
  render_widget (WParagraph (cluster_info_text app)) area.

Definition newline : string := String (Ascii.ascii_of_nat 10) "".
Definition show_role (r : UiRole) : string :=
  match r with UiFollower => "Follower" | UiLeader => "Leader" end.
Definition halves : list Constraint := [Percentage 50; Percentage 50].
Definition node_info app : string :=
  newline +:+ "Node Id: " +:+ pretty (Node.pid (App.current_node app)) +:+
  newline +:+ "Role: " +:+ show_role (App.current_role app) +:+
  newline +:+ "Ballot: " +:+ pretty (Node.ballot_number (App.current_node app)) +:+
  newline +:+ "Decided idx: " +:+ pretty (App.decided_idx app).
Definition node_info_text (info : string) : Paragraph := {|
  text := TextString info; paragraph_style := fg_style LightCyan;
  paragraph_block := info_block UI_NODE_INFO_TITLE
|}.

Definition draw_follower_info app (area : Rect) : M Frame unit :=
  let chunks := split Horizontal halves area in
  let* chunk := index chunks 0 in
  let* _ := draw_cluster_info app chunk in
  let* chunk := index chunks 1 in
  render_widget (WParagraph (node_info_text (node_info app))) chunk.

Definition draw_leader_info app (area : Rect) : M Frame unit :=
  let chunks := split Horizontal halves area in
  let* chunk := index chunks 0 in
  let* _ := draw_cluster_info app chunk in
  let* accepted := index (App.followers_accepted_idx app) (N.to_nat (Node.pid (App.current_node app))) in
  let* chunk := index chunks 1 in
  render_widget (WParagraph (node_info_text
    (node_info app +:+ newline +:+ "Accepted idx: " +:+ pretty accepted))) chunk.

Definition draw_logging : Logger := {|
  default_display_level := LevelOff;
  level_for_target := [("omnipaxos::sequence_paxos", LevelInfo);
                       ("omnipaxos::ballot_leader_election", LevelInfo)];
  logger_block := mkBlock (Some [raw UI_LOGGING_TITLE]) ALL plain (fg_style White);
  style_error := fg_style Red; style_debug := fg_style Green; style_warn := fg_style Yellow;
  style_trace := fg_style Magenta; style_info := fg_style Cyan; output_separator := "|";
  output_timestamp := Some "%F %H:%M:%S"; output_level := Some Long;
  output_target := false; output_file := false; output_line := true
|}.

Definition get_connected_symbol (connected : bool) : string := if connected then "✅" else "❌".
Definition get_ballot_and_leader_string (connected : bool) (ballot leader : N) : string * string :=
  if connected then (pretty ballot, pretty leader) else ("❓", "❓").

(** The header and the widths are the same in both tables, but for the number of columns. *)
Definition header_row (header_cells : list string) : Row :=
  mkRow (raw <$> header_cells) UI_TABLE_CONTENT_HEIGHT UI_TABLE_ROW_MARGIN (bold LightCyan).
Definition peer_cells (peer : Node.t) : list Span :=
  let '(ballot, leader) :=
    get_ballot_and_leader_string (Node.connected peer) (Node.ballot_number peer) (Node.leader peer) in
  [mkSpan (" " +:+ pretty (Node.pid peer) +:+ " ") (on_color (Node.color peer));
   raw (get_connected_symbol (Node.connected peer)); raw ballot; raw leader].
Definition peer_row (cells : list Span) : Row :=
  mkRow cells UI_TABLE_CONTENT_HEIGHT UI_TABLE_ROW_MARGIN plain.
Definition table (rows : list Row) (header_cells : list string) (borders : list Border)
    (widths : list Constraint) : M Frame Table :=
  if len widths =? len header_cells
  then ret (mkTable rows (header_row header_cells) (block (Some [raw UI_TABLE_TITLE]) borders)
    widths (fg_style White))
  else panic AssertFailed.

Definition draw_follower_table app (borders : list Border) : M Frame Table :=
  let rows := (λ peer, peer_row (peer_cells peer)) <$> App.active_peers app in
  table rows [PID; CONNECTED; BALLOT; LEADER] borders
    [Percentage 25; Percentage 25; Percentage 25; Percentage 25].

Definition draw_leader_table app (borders : list Border) : M Frame Table :=
  let* rows := mmap (λ peer,
    let* accepted := index (App.followers_accepted_idx app) (N.to_nat (Node.pid peer)) in
    ret (peer_row (peer_cells peer ++ [raw (pretty accepted)]))) (App.active_peers app) in
  table rows [PID; CONNECTED; BALLOT; LEADER; ACCEPTED_IDX] borders
    [Percentage 17; Percentage 17; Percentage 17; Percentage 17; Percentage 32].

Definition gauge_color (ratio : f64) : Color :=
  if f64_lt (hundredths 90) ratio && f64_le ratio (hundredths 100) then Green
  else if f64_lt (hundredths 75) ratio && f64_le ratio (hundredths 90) then LightYellow
  else if f64_lt (hundredths 50) ratio && f64_le ratio (hundredths 75) then Indexed 208
  else if f64_le (hundredths 0) ratio && f64_le ratio (hundredths 50) then LightRed
  else White.
Definition gauge (ratio : f64) : Gauge f64 :=
  mkGauge (block None [RIGHT]) (mkStyle (Some (gauge_color ratio)) None [ITALIC; BOLD]) ratio.
Definition draw_progress_bar (cell : Rect) (ratio : f64) : M Frame unit :=
  let chunks := split Vertical [Length UI_TABLE_CONTENT_HEIGHT; Length UI_TABLE_CONTENT_HEIGHT] cell in
  let* gauge := (if gauge_takes ratio then ret (gauge ratio) else panic AssertFailed) in
  let* chunk := index chunks 1 in
  render_widget (WGauge gauge) chunk.

Definition draw_progress app (area : Rect) : M Frame unit :=
  let num_of_active_peers := length (App.active_peers app) in
  let constraints := if (0 <? len (App.active_peers app))
    then replicate (num_of_active_peers + 2) (Length (UI_TABLE_CONTENT_HEIGHT + UI_TABLE_ROW_MARGIN))
    else [] in
  let chunks := split Vertical constraints area in
  let* _ := render_widget (WBlock (block (Some [raw "Progress"]) [RIGHT; BOTTOM; TOP])) area in
  mfor (imap pair (App.active_peers app)) (λ '(idx, node_id),
    let* cell := index chunks (idx + 1) in
    let* ratio := index (App.followers_progress app) (N.to_nat (Node.pid node_id)) in
    draw_progress_bar cell ratio).

Definition render_follower app : M Frame unit :=
  let* size := gets size in
  let window_width := rect_width size in
  let chunks := split Vertical [Length 3; Length 10; Length 8; Min 10] size in
  let* chunk := index chunks 0 in
  let* _ := render_widget (WParagraph (draw_title app)) chunk in
  let* chunk := index chunks 1 in
  let* _ := render_widget (WBarChart (draw_chart app window_width)) chunk in
  let* chunk := index chunks 2 in
  let* _ := draw_follower_info app chunk in
  let* chunk := index chunks 3 in
  let body_chunks := split Horizontal halves chunk in
  let* chunk := index body_chunks 0 in
  let* _ := render_widget (WLogger draw_logging) chunk in
  let* table := draw_follower_table app ALL in
  let* chunk := index body_chunks 1 in
  render_widget (WTable table) chunk.

Definition render_leader app : M Frame unit :=
  let* size := gets size in
  let window_width := rect_width size in
  let chunks := split Vertical
    [Length 3; Length 10; Length 8; Min (len (App.nodes app) mod 65536)] size in
  let* chunk := index chunks 0 in
  let* _ := render_widget (WParagraph (draw_title app)) chunk in
  let* chunk := index chunks 1 in
  let* _ := render_widget (WBarChart (draw_chart app window_width)) chunk in
  let* chunk := index chunks 3 in
  let body_chunks := split Horizontal halves chunk in
  let* chunk := index body_chunks 0 in
  let* _ := render_widget (WLogger draw_logging) chunk in
  let* chunk := index chunks 2 in
  let* _ := draw_leader_info app chunk in
  let* chunk := index body_chunks 1 in
  let table_chunks := split Horizontal [Percentage 75; Percentage 25] chunk in
  let* table := draw_leader_table app [TOP; LEFT; BOTTOM] in
  let* chunk := index table_chunks 0 in
  let* _ := render_widget (WTable table) chunk in
  let* chunk := index table_chunks 1 in
  draw_progress app chunk.

Definition render app : M Frame unit :=
  match App.current_role app with
  | UiFollower => render_follower app
  | UiLeader => render_leader app
  end.
End render.

(** ** What is drawn

    [widgets]: the widgets of a frame, in order.  [render] draws exactly these, for every application
    whose numbers fit together ([app_ok]): it neither indexes out of bounds nor passes the gauge a
    ratio it refuses. *)

Section drawn.
Context `{Build, F64, !F64Laws, !Ratatui f64, !RatatuiLaws}.
Implicit Types app : App.t f64.

Definition accepted_of app (pid : N) : N :=
  default 0 (App.followers_accepted_idx app !! N.to_nat pid).
Definition progress_of app (pid : N) : f64 :=
  default (hundredths 0) (App.followers_progress app !! N.to_nat pid).

Definition peers_table app : Table :=
  let follower peer := peer_row (peer_cells peer) in
  let leader peer :=
    peer_row (peer_cells peer ++ [raw (pretty (accepted_of app (Node.pid peer)))]) in
  match App.current_role app with
  | UiFollower => {|
      rows := follower <$> App.active_peers app; header := header_row [PID; CONNECTED; BALLOT; LEADER];
      table_block := block (Some [raw UI_TABLE_TITLE]) ALL; widths := replicate 4 (Percentage 25);
      table_style := fg_style White
    |}
  | UiLeader => {|
      rows := leader <$> App.active_peers app;
      header := header_row [PID; CONNECTED; BALLOT; LEADER; ACCEPTED_IDX];
      table_block := block (Some [raw UI_TABLE_TITLE]) [TOP; LEFT; BOTTOM];
      widths := replicate 4 (Percentage 17) ++ [Percentage 32]; table_style := fg_style White
    |}
  end.
Definition gauges app : list (Widget f64) :=
  (λ peer, WGauge (gauge (progress_of app (Node.pid peer)))) <$> App.active_peers app.
Definition widgets app (width : N) : list (Widget f64) :=
  [WParagraph (draw_title app); WBarChart (draw_chart app width)] ++
  match App.current_role app with
  | UiFollower => [
      WParagraph (cluster_info_text app); WParagraph (node_info_text (node_info app));
      WLogger draw_logging; WTable (peers_table app)]
  | UiLeader => [
      WLogger draw_logging; WParagraph (cluster_info_text app);
      WParagraph (node_info_text (node_info app +:+ newline +:+ "Accepted idx: " +:+
        pretty (accepted_of app (Node.pid (App.current_node app)))));
      WTable (peers_table app); WBlock (block (Some [raw "Progress"]) [RIGHT; BOTTOM; TOP])] ++
      gauges app
  end.

(** [draws m ws]: [m] draws [ws]. *)
Definition draws {A} (m : M (Frame f64) A) (ws : list (Widget f64)) : Prop :=
  ∀ f, returns m f (λ _ f', size f' = size f ∧ (drawn f').*1 = (drawn f).*1 ++ ws).

Lemma run_draws {A} (m : M (Frame f64) A) ws f :
  draws m ws → returns m f (λ _ f', size f' = size f ∧ (drawn f').*1 = (drawn f).*1 ++ ws).
Proof. done. Qed.
Lemma draws_widget w area : draws (render_widget w area) [w].
Proof. intros f. unfold render_widget. wp. cbn. split; [done|]. by rewrite fmap_app. Qed.
Lemma draws_bind {A B} (m : M (Frame f64) A) (k : A → M (Frame f64) B) ws ws' :
  draws m ws → (∀ a, draws (k a) ws') → draws (bind m k) (ws ++ ws').
Proof.
  intros Hm Hk f. wp. eapply returns_mono; [apply Hm|]. cbn. intros a f1 [Hs1 Hd1].
  eapply returns_mono; [apply Hk|]. cbn. intros b f2 [Hs2 Hd2].
  split; [by rewrite Hs2|]. by rewrite Hd2, Hd1, app_assoc.
Qed.
(** Reading a chunk of a layout, or a vector at a place it has. *)
Lemma draws_index {A B} (l : list A) i x (k : A → M (Frame f64) B) ws :
  l !! i = Some x → draws (k x) ws → draws (bind (index l i) k) ws.
Proof. intros Hx Hk f. unfold index. rewrite Hx. apply Hk. Qed.
Lemma draws_chunk {B} d constraints area i (k : Rect → M (Frame f64) B) ws :
  (i < length constraints)%nat → (∀ chunk, draws (k chunk) ws) →
  draws (bind (index (split d constraints area) i) k) ws.
Proof.
  intros Hi Hk. rewrite <-(split_length d constraints area) in Hi.
  destruct (lookup_lt_is_Some_2 _ _ Hi) as [chunk Hc]. by eapply draws_index.
Qed.
Lemma draws_widget_then {A} w area (k : unit → M (Frame f64) A) ws :
  draws (k tt) ws → draws (bind (render_widget w area) k) (w :: ws).
Proof. intros Hk. apply (draws_bind _ _ [w]); [apply draws_widget|by intros []]. Qed.
Lemma draws_value {A B} (m : M (Frame f64) A) a (k : A → M (Frame f64) B) ws :
  (∀ f, m f = (Val a, f)) → draws (k a) ws → draws (bind m k) ws.
Proof. intros Hm Hk f. wp. eapply returns_intro; [apply Hm|]. apply Hk. Qed.
Lemma draws_mfor {A} (l : list A) body (g : A → Widget f64) :
  (∀ x, x ∈ l → draws (body x) [g x]) → draws (mfor l body) (g <$> l).
Proof.
  induction l as [|x l IH]; intros Hl.
  - intros f. by rewrite app_nil_r.
  - rewrite fmap_cons. apply (draws_bind _ _ [g x]); [apply Hl; by left|].
    intros _. apply IH. intros y Hy. apply Hl. by right.
Qed.
Lemma mmap_value {S A B} (f : A → M S B) (g : A → B) l (s : S) :
  (∀ x, x ∈ l → f x s = (Val (g x), s)) → mmap f l s = (Val (g <$> l), s).
Proof.
  induction l as [|x l IH]; intros Hl; [done|]. cbn [mmap]. unfold bind at 1.
  rewrite (Hl x) by (by left). unfold bind. rewrite IH; [done|]. intros y Hy. apply Hl. by right.
Qed.

Ltac draw_step :=
  lazymatch goal with
  | |- draws (bind (index (split _ _ _) _) _) _ => apply draws_chunk; [cbn; lia|intros ?]
  | |- draws (bind (render_widget _ _) _) _ => apply draws_widget_then
  | |- draws (render_widget _ _) _ => apply draws_widget
  end.
Ltac draw := repeat draw_step.

Section frame.
Context (config : UIAppConfig) (app : App.t f64) (Hok : app_ok config app).

Lemma accepted_place pid :
  pid ∈ Node.pid <$> App.nodes app →
  App.followers_accepted_idx app !! N.to_nat pid = Some (accepted_of app pid).
Proof.
  intros Hpid. unfold accepted_of.
  destruct (lookup_lt_is_Some_2 _ _ (ao_places _ _ Hok _ Hpid)) as [a ->]. done.
Qed.
Lemma progress_place pid :
  pid ∈ Node.pid <$> App.nodes app →
  App.followers_progress app !! N.to_nat pid = Some (progress_of app pid) ∧
  gauge_takes (progress_of app pid) = true.
Proof.
  intros Hpid. pose proof (ao_places _ _ Hok _ Hpid) as Hlt. rewrite <-(ao_lengths _ _ Hok) in Hlt.
  unfold progress_of. destruct (lookup_lt_is_Some_2 _ _ Hlt) as [x Hx]. rewrite Hx. split; [done|].
  destruct (proj1 (Forall_lookup _ _) (ao_progress _ _ Hok) _ _ Hx). by apply gauge_takes_ratios.
Qed.
Lemma peer_pid n : n ∈ App.active_peers app → Node.pid n ∈ Node.pid <$> App.nodes app.
Proof.
  intros Hn. apply (list_elem_of_fmap_2 Node.pid) in Hn. rewrite (ao_peers _ _ Hok) in Hn.
  by apply list_elem_of_filter in Hn as [_ Hn].
Qed.
Lemma own_pid : Node.pid (App.current_node app) ∈ Node.pid <$> App.nodes app.
Proof.
  rewrite (ao_node _ _ Hok). destruct (ao_color _ _ Hok) as (n & Hn & <- & _).
  by apply list_elem_of_fmap_2.
Qed.

Lemma draw_table_drawn f :
  match App.current_role app with
  | UiFollower => draw_follower_table app ALL
  | UiLeader => draw_leader_table app [TOP; LEFT; BOTTOM]
  end f = (Val (peers_table app), f).
Proof.
  unfold peers_table. destruct (App.current_role app); [done|].
  unfold draw_leader_table, bind at 1. erewrite mmap_value; [done|].
  intros n Hn. unfold index. by rewrite (accepted_place _ (peer_pid _ Hn)).
Qed.

Lemma draw_progress_drawn area :
  draws (draw_progress app area) (WBlock (block (Some [raw "Progress"]) [RIGHT; BOTTOM; TOP]) :: gauges app).
Proof.
  unfold draw_progress. draw.
  assert (Hg : gauges app = (λ '(_, peer), WGauge (gauge (progress_of app (Node.pid peer)))) <$>
    imap pair (App.active_peers app)).
  { rewrite fmap_imap. symmetry. apply imap_const. }
  rewrite Hg. apply draws_mfor. intros [idx n] Hin.
  apply elem_of_lookup_imap in Hin as (i & m & [= <- <-] & Hn).
  pose proof (lookup_lt_Some _ _ _ Hn) as Hlt. apply list_elem_of_lookup_2 in Hn.
  apply draws_chunk. { unfold len. decide_cmp. rewrite length_replicate. lia. }
  intros cell. destruct (progress_place _ (peer_pid _ Hn)) as [Hp Hgauge].
  eapply draws_index; [done|]. unfold draw_progress_bar. rewrite Hgauge.
  eapply draws_value; [done|]. draw.
Qed.

Lemma draw_follower_info_drawn area :
  draws (draw_follower_info app area)
    [WParagraph (cluster_info_text app); WParagraph (node_info_text (node_info app))].
Proof. unfold draw_follower_info, draw_cluster_info. draw. Qed.
Lemma draw_leader_info_drawn area :
  draws (draw_leader_info app area)
    [WParagraph (cluster_info_text app); WParagraph (node_info_text (node_info app +:+ newline +:+
      "Accepted idx: " +:+ pretty (accepted_of app (Node.pid (App.current_node app)))))].
Proof.
  unfold draw_leader_info, draw_cluster_info. draw. eapply draws_index; [apply accepted_place, own_pid|].
  draw.
Qed.

Lemma render_drawn f :
  returns (render app) f (λ _ f', size f' = size f ∧
    (drawn f').*1 = (drawn f).*1 ++ widgets app (rect_width (size f))).
Proof.
  pose proof draw_table_drawn as Htable. unfold render, widgets.
  destruct (App.current_role app).
  - unfold render_follower. apply returns_bind, returns_gets, run_draws. draw.
    apply (draws_bind _ _ [_; _]); [apply draw_follower_info_drawn|intros _].
    draw. eapply draws_value; [done|]. draw.
  - unfold render_leader. apply returns_bind, returns_gets, run_draws. draw.
    apply (draws_bind _ _ [_; _]); [apply draw_leader_info_drawn|intros _].
    draw. eapply draws_value; [done|]. draw. apply draw_progress_drawn.
Qed.
End frame.
End drawn.

(** ** The dashboard (lib.rs)

    [screen] is what the last [Terminal::draw] drew.  Operations on the terminal (raw mode, the
    alternate screen, the cursor) are taken not to fail; [init_logger] is [tui_logger]'s, on its
    global state.  The event that [crossterm::event::poll] finds and the size of the terminal are
    arguments. *)

Inductive KeyCode : Type := Esc | Char (c : Ascii.ascii) | OtherKey.
Inductive Event : Type := Key (code : KeyCode) | OtherEvent.

Class TuiLogger (L : Type) : Type := { init_logger : L → result L unit }.

Module OmniPaxosUI.
Record t (F L : Type) : Type := mk {
  app : App.t F;
  started : bool;
  logger : L;
  screen : list (Widget F * Rect)
}.
#[global] Arguments mk {F L}.
#[global] Arguments app {F L}.
#[global] Arguments started {F L}.
#[global] Arguments logger {F L}.
#[global] Arguments screen {F L}.
#[global] Instance settable_app {F} {L} : Settable (@app F L) := λ f r,
  mk (f (app r)) (started r) (logger r) (screen r).
#[global] Instance settable_started {F} {L} : Settable (@started F L) := λ f r,
  mk (app r) (f (started r)) (logger r) (screen r).
#[global] Instance settable_logger {F} {L} : Settable (@logger F L) := λ f r,
  mk (app r) (started r) (f (logger r)) (screen r).
#[global] Instance settable_screen {F} {L} : Settable (@screen F L) := λ f r,
  mk (app r) (started r) (logger r) (f (screen r)).

Section ops.
Context `{Build, F64, !Ratatui f64, TuiLogger L}.
Abbreviation Self := (t f64 L).

Definition with_ (config : UIAppConfig) (logger : L) : outcome Self :=
  match App.with_ config with
  | Val app => Val {| app := app; started := false; logger := logger; screen := [] |}
  | Panic f => Panic f
  end.

Definition is_started (self : Self) : bool := started self.

Definition stop : M Self unit :=
  let* is_started := gets started in
  when is_started (modify (λ s, s <| started := false |>)).

(** [self.terminal.draw(|rect| render::render(rect, &self.app))] *)
Definition draw (area : Rect) : M Self unit := λ s,
  match render (app s) (mkFrame area []) with
  | (Val _, frame) => (Val tt, s <| screen := drawn frame |>)
  | (Panic f, _) => (Panic f, s)
  end.

Definition update_ui (event : option Event) (area : Rect) : M Self unit :=
  let* _ := match event with
    | Some (Key Esc) => stop
    | Some (Key (Char c)) => when (Ascii.eqb c "q"%char) stop
    | _ => ret tt
    end in
  let* is_started := gets started in
  when is_started (draw area).

Definition start (event : option Event) (area : Rect) : M Self unit :=
  let* is_started := gets started in
  when (negb is_started) (
    let* self := gets (λ s, s) in
    let* logger' := expect (ret (init_logger (logger self))) in
    let* _ := modify (λ s, s <| logger := logger' |>) in
    let* _ := update_ui event area in
    modify (λ s, s <| started := true |>)).

Definition tick (period : f64) (event : option Event) (area : Rect) (op_states : OmniPaxosStates.t) :
    M Self unit :=
  let* is_started := gets started in
  when is_started (
    let* _ := zoom app (App.update period op_states) in
    update_ui event area).
End ops.
End OmniPaxosUI.

(** ** Runs of the dashboard *)

Section runs.
Context `{Build, F64, !F64Laws, !Ratatui f64, !RatatuiLaws, TuiLogger L}.
Context (config : UIAppConfig) (m : N).
Context (Hm : App.max_pid config = Some m) (Hfit : m + 1 < usize_mod).
Import OmniPaxosUI.
Implicit Types ui : OmniPaxosUI.t f64 L.
Implicit Types st : OmniPaxosStates.t.

(** A contract for the application that calls [tick]: what a state has to satisfy, after a state with
    the leader [last.1] and the decided index [last.2], for the dashboard to follow it (see
    [states_ok]).  No function of the library makes states for the dashboard. *)
Record fed (last : option NodeId * N) st : Prop := {
  fd_decided : last.2 ≤ OmniPaxosStates.decided_idx st;
  fd_leader l : OmniPaxosStates.current_leader st = Some l → l ∈ ui_peers config ++ [ui_pid config];
  fd_accepted : last.1 = Some (ui_pid config) →
    let l := ClusterState.accepted_indexes (OmniPaxosStates.cluster_state st) in
    len l ≤ m + 1 ∧
    ∃ leader_acc_idx, l !! N.to_nat (ui_pid config) = Some leader_acc_idx ∧
      Forall (λ a, a ≤ leader_acc_idx) l
}.
Definition summary st : option NodeId * N :=
  (OmniPaxosStates.current_leader st, OmniPaxosStates.decided_idx st).

Record ui_ok (last : option NodeId * N) ui : Prop := {
  ui_app : app_ok config (app ui);
  ui_places : len (App.followers_accepted_idx (app ui)) = m + 1;
  ui_last : started ui = true → (App.current_leader (app ui), App.decided_idx (app ui)) = last
}.

(** What is on the screen. *)
Definition on_screen ui (area : Rect) : Prop :=
  (screen ui).*1 = widgets (app ui) (rect_width area).

Lemma stop_ok last ui : ui_ok last ui →
  returns stop ui (λ _ ui', ui_ok last ui' ∧ app ui' = app ui ∧ started ui' = false).
Proof.
  intros Hok. unfold stop. wp. destruct (started ui) eqn:Hs; wp.
  - destruct Hok. by split; [constructor|].
  - done.
Qed.
Lemma draw_ok last ui area : ui_ok last ui →
  returns (draw area) ui (λ _ ui', ui_ok last ui' ∧ app ui' = app ui ∧ started ui' = started ui ∧
    on_screen ui' area).
Proof.
  intros Hok. pose proof (render_drawn _ _ (ui_app _ _ Hok) (mkFrame area [])) as Hr.
  unfold draw, returns in *. destruct (render (app ui) _) as [[[]|f] frame]; [|done].
  destruct Hr as [_ Hd]. destruct Hok. by split; [constructor|].
Qed.
Lemma update_ui_ok last ui event area : ui_ok last ui →
  returns (update_ui event area) ui (λ _ ui', ui_ok last ui' ∧ app ui' = app ui ∧
    (started ui' = true → started ui = true ∧ on_screen ui' area)).
Proof.
  intros Hok. unfold update_ui. wp.
  assert (Hevent : returns match event with
    | Some (Key Esc) => stop
    | Some (Key (Char c)) => when (Ascii.eqb c "q"%char) stop
    | _ => ret tt
    end ui (λ _ ui', ui_ok last ui' ∧ app ui' = app ui ∧ (started ui' = true → started ui = true))).
  { assert (Hstop : returns stop ui (λ _ ui', ui_ok last ui' ∧ app ui' = app ui ∧
      (started ui' = true → started ui = true))).
    { eapply returns_mono; [by apply stop_ok|]. cbn. intros _ ui' (? & ? & Hs). rewrite Hs. done. }
    destruct event as [[[|c|]|]|]; try done. unfold when. by destruct (Ascii.eqb c _). }
  eapply returns_mono; [apply Hevent|]. cbn. intros _ ui1 (Hok1 & Happ1 & Hs1). wp.
  destruct (started ui1) eqn:Hstarted; wp.
  - eapply returns_mono; [by apply draw_ok|]. cbn. intros _ ui2 (Hok2 & Happ2 & Hs2 & Hscreen).
    split; [done|]. split; [by rewrite Happ2|]. auto.
  - split; [done|]. split; [done|]. by rewrite Hstarted.
Qed.
Lemma fed_states_ok last ui st :
  ui_ok last ui → started ui = true → fed last st → states_ok config (app ui) st.
Proof.
  intros [Happ Hplaces Hlast] Hs [Hdecided Hleader Haccepted]. specialize (Hlast Hs). subst last.
  constructor; [done| |].
  - intros l Hl. rewrite (ao_nodes _ _ Happ), merge_sort_Permutation. by apply Hleader.
  - intros Hself. destruct (Haccepted Hself) as [Hlen ?]. split; [unfold len in *; lia|done].
Qed.

Lemma tick_ok last ui period event area st :
  ui_ok last ui → fed last st →
  returns (tick period event area st) ui (λ _ ui', ui_ok (summary st) ui' ∧
    (started ui' = true → shows config last.1 (app ui') st ∧ on_screen ui' area)).
Proof.
  intros Hok Hfed. unfold tick. wp. destruct (started ui) eqn:Hs; wp.
  2: { destruct Hok. rewrite Hs. split; [constructor; [done..|by rewrite Hs]|done]. }
  apply returns_zoom. eapply returns_mono.
  { apply (update_ok config); [apply Hok|by eapply fed_states_ok]. }
  cbn. intros _ app' (Happ & Hshows & _ & Hplaces).
  assert (Hok' : ui_ok (summary st) (ui <| app := app' |>)).
  { constructor; [done| |].
    - unfold len in *. cbn. rewrite Hplaces. apply (ui_places _ _ Hok).
    - intros _. cbn. by rewrite (sh_leader _ _ _ _ Hshows), (sh_decided _ _ _ _ Hshows). }
  eapply returns_mono; [by apply update_ui_ok|]. cbn. intros _ ui' (Hok2 & Happ2 & Hs2).
  split; [done|]. intros Hs'. destruct (Hs2 Hs') as [_ Hscreen]. split; [|done].
  rewrite Happ2. cbn. pose proof (ui_last _ _ Hok Hs) as Hlast. by rewrite <-Hlast.
Qed.

Lemma start_ok last ui event area logger' :
  ui_ok last ui → started ui = false → init_logger (logger ui) = Ok logger' →
  (App.current_leader (app ui), App.decided_idx (app ui)) = last →
  returns (start event area) ui (λ _ ui', ui_ok last ui' ∧ started ui' = true).
Proof.
  intros Hok Hs Hinit Hlast. unfold start. wp. rewrite Hs. cbn [negb]. wp. rewrite Hinit. wp.
  eapply returns_mono; [apply (update_ui_ok last); by destruct Hok; constructor|].
  cbn. intros _ ui' ([Happ Hplaces _] & Happ' & _). wp. split; [|done].
  constructor; [done..|]. cbn. intros _. by rewrite Happ'.
Qed.

Definition ticks (l : list (f64 * option Event * Rect * OmniPaxosStates.t)) : M (OmniPaxosUI.t f64 L) unit :=
  mfor l (λ '(period, event, area, st), tick period event area st).
Fixpoint fed_all (last : option NodeId * N) (l : list OmniPaxosStates.t) : Prop :=
  match l with [] => True | st :: l' => fed last st ∧ fed_all (summary st) l' end.

Lemma ticks_ok last l ui :
  ui_ok last ui → fed_all last l.*2 →
  returns (ticks l) ui (λ _ ui', ui_ok (foldl (λ _, summary) last l.*2) ui').
Proof.
  revert last ui. unfold ticks. induction l as [|[[[period event] area] st] l IH]; intros last ui Hok Hfed.
  { done. }
  destruct Hfed as [Hst Hfed]. cbn [mfor]. wp. eapply returns_mono; [by apply (tick_ok last)|].
  cbn. intros _ ui' [Hok' _]. by apply IH.
Qed.
Lemma fed_all_app last l st :
  fed_all last (l ++ [st]) → fed_all last l ∧ fed (foldl (λ _, summary) last l) st.
Proof.
  revert last. induction l as [|x l IH]; intros last; cbn; [tauto|].
  intros [Hx Hl]. apply IH in Hl. tauto.
Qed.
Lemma ticks_app l x : ∀ ui Q,
  returns (ticks l) ui (λ _ ui', returns (ticks [x]) ui' Q) → returns (ticks (l ++ [x])) ui Q.
Proof.
  unfold ticks. induction l as [|y l IH]; intros ui Q; cbn [mfor app]; [done|].
  intros Hl. apply returns_bind_inv in Hl. apply returns_bind. eapply returns_mono; [apply Hl|].
  cbn. intros _ ui'. apply IH.
Qed.

(** A dashboard under the contract of [fed].  States come from the application: the
    library has no function that returns them, and [ClusterState.from_leader_state] only panics.  As
    long as the decided index that is passed does not go back, the leader is a node of the
    configuration, and, after a state in which this node leads, no accepted index is ahead of the
    leader's, no number of ticks, whatever keys are pressed, makes the dashboard panic - no index
    out of bounds, no subtraction below zero, no progress the gauge refuses - and, while it is not
    stopped, the application shows the last state (its leader with its colour, the decided index,
    the peers that answered) and the screen holds the widgets of the application. *)
Theorem dashboard_follows lg lg' event area l period event' area' st :
  init_logger lg = Ok lg' →
  fed_all (None, 0) (l.*2 ++ [st]) →
  ∃ ui, with_ config lg = Val ui ∧
  returns (let* _ := start event area in ticks (l ++ [(period, event', area', st)])) ui (λ _ ui',
    app_ok config (app ui') ∧
    (started ui' = true →
     shows config (foldl (λ _, summary) (None, 0) l.*2).1 (app ui') st ∧ on_screen ui' area')).
Proof.
  intros Hinit Hfed. destruct (with_ok _ _ Hm Hfit) as (app0 & Hwith & Happ & Hleader & Hdecided & Hplaces).
  unfold with_. rewrite Hwith. eexists. split; [done|]. wp.
  eapply returns_mono; [eapply (start_ok (None, 0)); [|done|done|by cbn; rewrite Hleader, Hdecided]|].
  { constructor; [done| |done]. unfold len. cbn. lia. }
  cbn. intros _ ui [Hok _]. apply fed_all_app in Hfed as [Hfed Hst]. apply ticks_app.
  eapply returns_mono; [by apply ticks_ok|]. cbn. intros _ ui' Hok'. unfold ticks. cbn [mfor]. wp.
  eapply returns_mono; [by apply tick_ok|]. cbn. intros _ ui'' [Hok'' Hshows]. wp.
  split; [apply Hok''|done].
Qed.
(** [start] in all its cases.  On a dashboard that runs it does nothing.  Otherwise it installs the
    logger and marks the dashboard started, and nothing else: it calls [update_ui] before it sets
    [started], so the first frame is not drawn, and a key that is already pressed is thrown away, even
    [q].  The logger can be installed once per process: where [init_logger] refuses the second time, a
    dashboard that was stopped panics when it is started again. *)
Theorem start_cases ui event area :
  (started ui = true → start event area ui = (Val tt, ui)) ∧
  (∀ lg, started ui = false → init_logger (logger ui) = Ok lg →
   start event area ui = (Val tt, ui <| logger := lg |> <| started := true |>) ∧
   (∀ event' area', init_logger lg = Err tt →
    returns (let* _ := start event area in stop) ui (λ _ ui',
      started ui' = false ∧ (start event' area' ui').1 = Panic ExpectErr))).
Proof.
  assert (Hstart : ∀ lg, started ui = false → init_logger (logger ui) = Ok lg →
    start event area ui = (Val tt, ui <| logger := lg |> <| started := true |>)).
  { intros lg Hs Hinit. destruct ui as [app st lg0 scr]. cbn in Hs, Hinit. subst st.
    unfold start, expect, update_ui, stop, when. cbv [bind gets modify ret]. cbn. rewrite Hinit. cbn.
    destruct event as [[[|c|]|]|]; try done. by destruct (Ascii.eqb c _). }
  split; [intros Hs; unfold start; cbv [bind gets]; by rewrite Hs|].
  intros lg Hs Hinit. split; [auto|]. intros event' area' Hagain.
  wp. eapply returns_intro; [by apply Hstart|]. unfold stop. wp. cbn. wp. split; [done|].
  unfold start, expect. cbv [bind gets ret]. cbn. by rewrite Hagain.
Qed.
End runs.
