(* ===== verification/UiChecks.v ===== *)
(** * The dashboard on concrete states

    Fractions stand for floats, areas are split into copies of themselves, and the logger can be
    installed once. *)

From Stdlib Require Import Ascii.
From S2P Require Import Prelude Util Ballots Config Time StorageApi Messages Ui UiRender.
Import OmniPaxosUI.

#[local] Instance fractions : F64 := {|
  f64 := N * N;
  hundredths n := (n, 100);
  of_usize n := (n, 1);
  f64_div a b := (a.1 * b.2, a.2 * b.1);
  f64_lt a b := a.1 * b.2 <? b.1 * a.2;
  f64_le a b := a.1 * b.2 <=? b.1 * a.2;
  f64_to_u64 a := a.1 / a.2
|}.
#[local] Instance fractions_laws : F64Laws.
Proof. split; [done|]. intros a b Hb Hle. cbn. by split; apply N.leb_le; lia. Qed.

#[local] Instance copies : Ratatui f64 := {|
  split _ constraints area := (λ _, area) <$> constraints;
  gauge_takes x := f64_le (hundredths 0) x && f64_le x (hundredths 100) : bool
|}.
#[local] Instance copies_laws : RatatuiLaws.
Proof.
  split; [intros; apply length_fmap|]. intros x H0 H1. by apply andb_true_intro.
Qed.

#[local] Instance once : TuiLogger bool := {|
  init_logger (installed : bool) := (if installed then Err tt else Ok true) : result bool unit
|}.
#[local] Existing Instance dev_build.

Definition config : UIAppConfig := mkUIAppConfig 1 [2; 3].
Definition area : Rect := mkRect 0 0 80 24.
Definition ballot_of (pid : N) : Ballot.t := Ballot.with_ 1 2 0 pid.
Definition reply (pid : N) : HeartbeatReply := mkHeartbeatReply 4 (ballot_of pid) (ballot_of 1) true.

(** The states of a leader that decided [decided] entries, with its followers at [accepted]. *)
Definition leading (decided : N) (accepted : list N) : OmniPaxosStates.t := {|
  OmniPaxosStates.current_ballot := ballot_of 1;
  OmniPaxosStates.current_leader := Some 1;
  OmniPaxosStates.decided_idx := decided;
  OmniPaxosStates.heartbeats := [reply 2];
  OmniPaxosStates.cluster_state := {|
    ClusterState.accepted_indexes := accepted; ClusterState.heartbeats := [reply 2]
  |}
|}.
Definition second : f64 := hundredths 100.

(** [start], then the ticks; what the dashboard holds at the end. *)
Definition run (l : list OmniPaxosStates.t) : outcome (OmniPaxosUI.t f64 bool) :=
  match with_ config false with
  | Panic f => Panic f
  | Val ui =>
      match (let* _ := start None area in ticks ((λ st, (second, None, area, st)) <$> l)) ui with
      | (Val _, ui) => Val ui
      | (Panic f, _) => Panic f
      end
  end.
Definition shown {A} (f : OmniPaxosUI.t f64 bool → A) (l : list OmniPaxosStates.t) : option A :=
  match run l with Val ui => Some (f ui) | Panic _ => None end.

(** After the second tick node 1 shows as the leader, node 2 at half of its log, node 3 silent. *)
Example two_ticks : shown (λ ui, (App.current_role (app ui), App.leader_color (app ui),
    App.followers_accepted_idx (app ui), (λ n, (Node.pid n, Node.connected n)) <$> App.active_peers (app ui)))
  [leading 2 [0; 4; 2; 0]; leading 3 [0; 4; 2; 0]] =
  Some (UiLeader, Green, [0; 4; 2; 0], [(2, true); (3, false)]).
Proof. vm_compute. reflexivity. Qed.
(** The role is taken from the leader of the tick before. *)
Example role_lags : shown (λ ui, (App.current_leader (app ui), App.current_role (app ui)))
  [leading 2 [0; 4; 2; 0]] = Some (Some 1, UiFollower).
Proof. vm_compute. reflexivity. Qed.
(** Every tick adds a bar, none is ever removed. *)
Example bars_pile_up : shown (λ ui, length (App.throughput_data (app ui)))
  (replicate 300 (leading 3 [0; 4; 2; 0])) = Some 300%nat.
Proof. vm_compute. reflexivity. Qed.
(** A decided index that goes back, a leader outside the configuration, and a follower ahead of the
    leader panic. *)
Example decided_goes_back : run [leading 3 [0; 4; 2; 0]; leading 2 [0; 4; 2; 0]] = Panic Overflow.
Proof. vm_compute. reflexivity. Qed.
Example follower_ahead : run [leading 3 [0; 4; 2; 0]; leading 3 [0; 4; 5; 0]] = Panic AssertFailed.
Proof. vm_compute. reflexivity. Qed.
(** The dashboard cannot be started again. *)
Example restart : match with_ config false with
  | Val ui => (let* _ := start None area in let* _ := stop in start None area) ui = (Panic ExpectErr,
      ui <| logger := true |>)
  | Panic _ => False
  end.
Proof. vm_compute. reflexivity. Qed.

Definition shown_leader (l : list OmniPaxosStates.t) : option (option NodeId * N * nat) :=
  shown (λ ui, (App.current_leader (app ui), App.decided_idx (app ui), length (screen ui))) l.

Lemma dashboard_follows_witness : ∃ ui, with_ config false = Val ui ∧
  returns (let* _ := start None area in
    ticks ([(second, None, area, leading 2 [0; 4; 2; 0])] ++ [(second, None, area, leading 3 [0; 4; 2; 0])])) ui
    (λ _ ui', app_ok config (app ui') ∧ (started ui' = true →
      shows config (Some 1) (app ui') (leading 3 [0; 4; 2; 0]) ∧ on_screen ui' area)) ∧
  shown_leader [leading 2 [0; 4; 2; 0]; leading 3 [0; 4; 2; 0]] = Some (Some 1, 3, 9%nat).
Proof.
  assert (Hinit : init_logger false = Ok true) by reflexivity.
  edestruct (dashboard_follows config 3 eq_refl eq_refl false true None area
    [(second, None, area, leading 2 [0; 4; 2; 0])] second None area (leading 3 [0; 4; 2; 0]) Hinit)
    as (ui & Hui & Hrun); [|exists ui; split; [exact Hui|]; split; [exact Hrun|vm_compute; reflexivity]].
  repeat split; cbn; intros; simplify_eq; try lia; try set_solver.
  - exists 4. split; [done|]. repeat constructor; lia.
Defined.

Lemma start_cases_witness : ∃ ui, with_ config false = Val ui ∧
  returns (let* _ := start (Some (Key (Char "q"%char))) area in stop) ui (λ _ ui',
    started ui' = false ∧ (start None area ui').1 = Panic ExpectErr).
Proof.
  assert (Hinit : init_logger false = Ok true) by reflexivity.
  assert (Hagain : init_logger true = Err tt) by reflexivity.
  destruct (with_ config false) as [ui|] eqn:Hui; [|discriminate Hui].
  assert (Hs : started ui = false) by (injection Hui as <-; reflexivity).
  assert (Hl : logger ui = false) by (injection Hui as <-; reflexivity).
  exists ui. split; [reflexivity|]. rewrite <-Hl in Hinit.
  apply (proj2 (proj2 (start_cases ui (Some (Key (Char "q"%char))) area) true Hs Hinit) None area Hagain).
Defined.
